(** * sparta-matching: a shallow embedding of the matching engine

    The TypeScript sources are embedded over an explicit object heap:
    every [new Player(..)] / [new Hospital(..)] allocates a cell, object
    references are addresses, and every method that mutates [this]
    becomes a heap update.  Loops that the source writes as [while] take
    a fuel argument; exceptions are an explicit outcome. *)

From Stdlib Require Import String List ZArith Lia Bool Arith PeanoNat.
From Stdlib Require Import Permutation Sorted.
From Stdlib Require DecimalString.
Import ListNotations.
Local Open Scope string_scope.
Local Open Scope list_scope.

(* ================================================================== *)
(** ** Values, objects and the heap *)
(* ================================================================== *)

Definition addr := nat.

(** The JavaScript values the engine stores in its fields and arrays. *)
Inductive value : Type :=
| undefined
| null
| ref (a : addr).

(** [===] on these values: references are compared by identity. *)
Definition value_eqb (v w : value) : bool :=
  match v, w with
  | undefined, undefined => true
  | null, null => true
  | ref a, ref b => Nat.eqb a b
  | _, _ => false
  end.

(** Truthiness, as used by [if (x.matching)] and [if (!resident)]. *)
Definition truthy (v : value) : bool :=
  match v with ref _ => true | _ => false end.

(** types.ts: [PlayerName].  The sources never compare names, they
    convert them to strings, in messages and in [toRecord]; a name that
    is a number is modelled by the string it converts to. *)
Definition PlayerName := string.

(* ------------------------------------------------------------------ *)
(** *** Array helpers (Array.prototype as used by the sources) *)

Definition includes (l : list value) (v : value) : bool :=
  existsb (value_eqb v) l.

Fixpoint indexOf_from (l : list value) (v : value) (i : Z) : Z :=
  match l with
  | [] => (-1)%Z
  | x :: l' => if value_eqb x v then i else indexOf_from l' v (i + 1)%Z
  end.

(** [l.indexOf(v)]: position of the first occurrence, [-1] if absent. *)
Definition indexOf (l : list value) (v : value) : Z := indexOf_from l v 0%Z.

(** [l.slice(i)] for an index [i >= 0] (the sources only slice from
    [indexOf(..) + 1], which is never negative). *)
Definition slice (l : list value) (i : Z) : list value :=
  skipn (Z.to_nat i) l.

(** [l.filter((p) => p !== v)]. *)
Definition remove_value (v : value) (l : list value) : list value :=
  filter (fun p => negb (value_eqb p v)) l.

(** [l.pop()]: the last element and the remaining array, if any. *)
Definition pop {A : Type} (l : list A) : option (A * list A) :=
  match rev l with
  | [] => None
  | x :: r => Some (x, rev r)
  end.

(** [l.splice(idx, 1)] at the index of the first occurrence of [v]. *)
Fixpoint remove_first (v : value) (l : list value) : list value :=
  match l with
  | [] => []
  | x :: l' => if value_eqb x v then l' else x :: remove_first v l'
  end.

(** [l[i]] for a natural index: [undefined] when out of range. *)
Definition at_index (l : list value) (i : nat) : value :=
  nth i l undefined.

(** [new Set(l)] keeps the first occurrence of every element. *)
Fixpoint dedup (l : list value) : list value :=
  match l with
  | [] => []
  | x :: l' => x :: remove_value x (dedup l')
  end.

(** Stable sort by an integer key: the behaviour of
    [l.sort((a, b) => key(a) - key(b))]. *)
Fixpoint insert_by (key : value -> Z) (x : value) (l : list value) : list value :=
  match l with
  | [] => [x]
  | y :: l' => if (key x <=? key y)%Z then x :: y :: l'
               else y :: insert_by key x l'
  end.

Fixpoint sort_by (key : value -> Z) (l : list value) : list value :=
  match l with
  | [] => []
  | x :: l' => insert_by key x (sort_by key l')
  end.

(* ------------------------------------------------------------------ *)
(** *** The entity classes *)

(** players/player.ts: class [Player]. *)
Module Player.
Record t : Type := mk {
  name : PlayerName;
  prefs : list value;
  matching : value;
  _prefNames : list PlayerName;
  _originalPrefs : option (list value)
}.

(** [new Player(name)]. *)
Definition new (n : PlayerName) : t := mk n [] null [] None.

Definition with_prefs (l : list value) (p : t) : t :=
  mk (name p) l (matching p) (_prefNames p) (_originalPrefs p).

Definition with_matching (m : value) (p : t) : t :=
  mk (name p) (prefs p) m (_prefNames p) (_originalPrefs p).

(** player.ts:37 *)
Definition _forget (other : value) (p : t) : t :=
  with_prefs (remove_value other (prefs p)) p.

(** player.ts:61; [names] is [players.map((p) => p.name)], computed by
    the caller over the heap. *)
Definition setPrefs (players : list value) (names : list PlayerName) (p : t) : t :=
  mk (name p) players (matching p) names
     (match _originalPrefs p with
      | None => Some players
      | Some o => Some o
      end).

(** player.ts:86 *)
Definition _match (other : value) (p : t) : t := with_matching other p.

(** player.ts:93 *)
Definition _unmatch (p : t) : t := with_matching null p.

(** player.ts:100 *)
Definition getFavourite (p : t) : value := at_index (prefs p) 0.

(** player.ts:107 *)
Definition getSuccessors (p : t) : list value :=
  if truthy (matching p)
  then slice (prefs p) (indexOf (prefs p) (matching p) + 1)
  else [].
End Player.

(** Which class of the [Hospital] hierarchy an object was built with. *)
Inductive hospital_class : Type := IsHospital | IsProject | IsSupervisor.

(** players/hospital.ts: class [Hospital], with the extra fields of its
    subclasses [Project] ([supervisor]) and [Supervisor] ([projects]). *)
Module Hospital.
Record t : Type := mk {
  cls : hospital_class;
  name : PlayerName;
  capacity : Z;
  _originalCapacity : Z;
  prefs : list value;
  _prefNames : list PlayerName;
  _originalPrefs : option (list value);
  matching : list value;
  supervisor : value;
  projects : list value
}.

(** [new Hospital(name, capacity)], [new Project(..)], [new Supervisor(..)]. *)
Definition new (c : hospital_class) (n : PlayerName) (cap : Z) : t :=
  mk c n cap cap [] [] None [] null [].

Definition with_prefs (l : list value) (h : t) : t :=
  mk (cls h) (name h) (capacity h) (_originalCapacity h) l (_prefNames h)
     (_originalPrefs h) (matching h) (supervisor h) (projects h).

Definition with_matching (m : list value) (h : t) : t :=
  mk (cls h) (name h) (capacity h) (_originalCapacity h) (prefs h) (_prefNames h)
     (_originalPrefs h) m (supervisor h) (projects h).

Definition with_capacity (c : Z) (h : t) : t :=
  mk (cls h) (name h) c (_originalCapacity h) (prefs h) (_prefNames h)
     (_originalPrefs h) (matching h) (supervisor h) (projects h).

Definition with_supervisor (s : value) (h : t) : t :=
  mk (cls h) (name h) (capacity h) (_originalCapacity h) (prefs h) (_prefNames h)
     (_originalPrefs h) (matching h) s (projects h).

Definition with_projects (ps : list value) (h : t) : t :=
  mk (cls h) (name h) (capacity h) (_originalCapacity h) (prefs h) (_prefNames h)
     (_originalPrefs h) (matching h) (supervisor h) ps.

(** hospital.ts [_forget] *)
Definition _forget (other : value) (h : t) : t :=
  with_prefs (remove_value other (prefs h)) h.

(** hospital.ts [setPrefs]; [names] as for [Player.setPrefs]. *)
Definition setPrefs (players : list value) (names : list PlayerName) (h : t) : t :=
  mk (cls h) (name h) (capacity h) (_originalCapacity h) players names
     (match _originalPrefs h with
      | None => Some players
      | Some o => Some o
      end)
     (matching h) (supervisor h) (projects h).

(** supervisor.ts:40, the part that assigns the supervisor's own fields. *)
Definition setPrefs_supervisor (students : list value) (names : list PlayerName) (h : t) : t :=
  mk (cls h) (name h) (capacity h) (_originalCapacity h) students names
     (Some students) (matching h) (supervisor h) (projects h).

(** hospital.ts [_match]: push, then sort by position in the current [prefs]. *)
Definition _match (resident : value) (h : t) : t :=
  with_matching (sort_by (indexOf (prefs h)) (matching h ++ [resident])) h.

(** hospital.ts [_unmatch] *)
Definition _unmatch (resident : value) (h : t) : t :=
  with_matching (remove_value resident (matching h)) h.

(** hospital.ts [getFavourite] *)
Definition getFavourite (h : t) : value :=
  match find (fun p => negb (includes (matching h) p)) (prefs h) with
  | Some p => p
  | None => null
  end.

(** hospital.ts [getWorstMatch] *)
Definition getWorstMatch (h : t) : value :=
  match matching h with
  | [] => null
  | _ => last (matching h) undefined
  end.

(** hospital.ts [getSuccessors] *)
Definition getSuccessors (h : t) : list value :=
  let worst := getWorstMatch h in
  if truthy worst
  then slice (prefs h) (indexOf (prefs h) worst + 1)
  else [].

(** hospital.ts [checkIfOversubscribed]: [true] stands for the message. *)
Definition checkIfOversubscribed (h : t) : bool :=
  (capacity h <? Z.of_nat (length (matching h)))%Z.
End Hospital.

Inductive obj : Type :=
| PlayerObj (p : Player.t)
| HospitalObj (h : Hospital.t).

Definition heap := list obj.

Definition obj_name (o : obj) : PlayerName :=
  match o with
  | PlayerObj p => Player.name p
  | HospitalObj h => Hospital.name h
  end.

Definition obj_prefs (o : obj) : list value :=
  match o with
  | PlayerObj p => Player.prefs p
  | HospitalObj h => Hospital.prefs h
  end.

(** Overwrite the cell at [a]; nothing happens if [a] is not allocated. *)
Fixpoint upd (a : addr) (o : obj) (h : heap) : heap :=
  match h, a with
  | [], _ => []
  | _ :: h', 0 => o :: h'
  | x :: h', S a' => x :: upd a' o h'
  end.

(* ------------------------------------------------------------------ *)
(** *** Computations: state, exceptions, fuel *)

Inductive error : Type :=
| TypeError (property : string) (** reading [property] of [undefined] or [null] *)
| Error (msg : string)        (** [throw new Error(msg)] *)
| MatchingError               (** [throw new MatchingError(..)] *)
| IllTyped.                   (** an object whose class contradicts the
                                  TypeScript type of the expression, or a
                                  reference to an unallocated cell: outside
                                  the programs TypeScript accepts; also a
                                  capacity dictionary that lacks an entry
                                  asserted by [!], an input this model has
                                  no value for *)

Inductive outcome (A : Type) : Type :=
| Ok (x : A)
| Throw (e : error)
| OutOfFuel.
Arguments Ok {A} x.
Arguments Throw {A} e.
Arguments OutOfFuel {A}.

Definition M (A : Type) : Type := heap -> outcome A * heap.

Definition ret {A : Type} (x : A) : M A := fun h => (Ok x, h).

Definition bind {A B : Type} (m : M A) (k : A -> M B) : M B :=
  fun h =>
    match m h with
    | (Ok x, h') => k x h'
    | (Throw e, h') => (Throw e, h')
    | (OutOfFuel, h') => (OutOfFuel, h')
    end.

Definition throw {A : Type} (e : error) : M A := fun h => (Throw e, h).

Definition timeout {A : Type} : M A := fun h => (OutOfFuel, h).

Declare Scope m_scope.
Delimit Scope m_scope with M.
Notation "x <- c1 ;; c2" := (bind c1 (fun x => c2))
  (at level 61, c1 at next level, right associativity) : m_scope.
Notation "c1 ;; c2" := (bind c1 (fun _ => c2))
  (at level 61, right associativity) : m_scope.
Local Open Scope m_scope.

(** Dereference [v] in order to read the property [site]. *)
Definition load (site : string) (v : value) : M obj :=
  fun h =>
    match v with
    | ref a =>
        match nth_error h a with
        | Some o => (Ok o, h)
        | None => (Throw IllTyped, h)
        end
    | _ => (Throw (TypeError site), h)
    end.

Definition store (v : value) (o : obj) : M unit :=
  fun h =>
    match v with
    | ref a => (Ok tt, upd a o h)
    | _ => (Throw IllTyped, h)
    end.

(** [new C(..)]: allocate a fresh cell and return its reference. *)
Definition alloc (o : obj) : M value :=
  fun h => (Ok (ref (length h)), h ++ [o]).

Definition getPlayer (site : string) (v : value) : M Player.t :=
  o <- load site v ;;
  match o with
  | PlayerObj p => ret p
  | HospitalObj _ => throw IllTyped
  end.

Definition getHospital (site : string) (v : value) : M Hospital.t :=
  o <- load site v ;;
  match o with
  | HospitalObj x => ret x
  | PlayerObj _ => throw IllTyped
  end.

(** [for (const x of l) body(x)] *)
Fixpoint forEach {A : Type} (l : list A) (body : A -> M unit) : M unit :=
  match l with
  | [] => ret tt
  | x :: l' => body x ;; forEach l' body
  end.

(** [l.map(f)] for an [f] that reads the heap. *)
Fixpoint mapM {A B : Type} (f : A -> M B) (l : list A) : M (list B) :=
  match l with
  | [] => ret []
  | x :: l' => y <- f x ;; ys <- mapM f l' ;; ret (y :: ys)
  end.

(** [players.map((p) => p.name)] *)
Definition names_of (players : list value) : M (list PlayerName) :=
  mapM (fun p => o <- load "name" p ;; ret (obj_name o)) players.

(* ================================================================== *)
(** ** Methods called through a reference (dynamic dispatch) *)
(* ================================================================== *)

(** [this.setPrefs(players)] of [Player] (player.ts:61).  The assignment
    to [prefs] precedes the [map] that may throw. *)
Definition Player_setPrefs (this : value) (players : list value) : M unit :=
  p <- getPlayer "setPrefs" this ;;
  store this (PlayerObj (Player.with_prefs players p)) ;;
  names <- names_of players ;;
  p <- getPlayer "setPrefs" this ;;
  store this (PlayerObj (Player.setPrefs players names p)).

(** [this.setPrefs(players)] of [Hospital], inherited by [Project]. *)
Definition Hospital_setPrefs (this : value) (players : list value) : M unit :=
  x <- getHospital "setPrefs" this ;;
  store this (HospitalObj (Hospital.with_prefs players x)) ;;
  names <- names_of players ;;
  x <- getHospital "setPrefs" this ;;
  store this (HospitalObj (Hospital.setPrefs players names x)).

(** [l.some(f)] / [l.filter(f)] for a predicate that reads the heap. *)
Fixpoint someM {A : Type} (f : A -> M bool) (l : list A) : M bool :=
  match l with
  | [] => ret false
  | x :: l' => b <- f x ;; if b then ret true else someM f l'
  end.

Fixpoint filterM {A : Type} (f : A -> M bool) (l : list A) : M (list A) :=
  match l with
  | [] => ret []
  | x :: l' => b <- f x ;; r <- filterM f l' ;; ret (if b then x :: r else r)
  end.

(** [x.prefs.includes(y)] for an [x] of any entity class. *)
Definition prefs_include (site : string) (x y : value) : M bool :=
  o <- load site x ;; ret (includes (obj_prefs o) y).

(** supervisor.ts:40 [Supervisor.setPrefs] *)
Definition Supervisor_setPrefs (this : value) (students : list value) : M unit :=
  x <- getHospital "setPrefs" this ;;
  store this (HospitalObj (Hospital.with_prefs students x)) ;;
  names <- names_of students ;;
  x <- getHospital "setPrefs" this ;;
  store this (HospitalObj (Hospital.setPrefs_supervisor students names x)) ;;
  forEach (Hospital.projects x) (fun project =>
    acceptable <- filterM (fun student => prefs_include "prefs" student project) students ;;
    Hospital_setPrefs project acceptable).

(** [x.setPrefs(l)], dispatched on the class of [x]. *)
Definition setPrefs (this : value) (players : list value) : M unit :=
  o <- load "setPrefs" this ;;
  match o with
  | PlayerObj _ => Player_setPrefs this players
  | HospitalObj x =>
      match Hospital.cls x with
      | IsSupervisor => Supervisor_setPrefs this players
      | _ => Hospital_setPrefs this players
      end
  end.

(** supervisor.ts:25 [Supervisor._forget] *)
Definition Supervisor_forget (this student : value) : M unit :=
  x <- getHospital "_forget" this ;;
  rankedByAnyProject <-
    someM (fun project => prefs_include "prefs" project student)
          (Hospital.projects x) ;;
  if includes (Hospital.prefs x) student && negb rankedByAnyProject
  then store this (HospitalObj (Hospital._forget student x))
  else ret tt.

(** [x._forget(other)], dispatched on the class of [x]
    (player.ts:37, hospital.ts, project.ts:24, supervisor.ts:25). *)
Definition _forget (this other : value) : M unit :=
  o <- load "_forget" this ;;
  match o with
  | PlayerObj p => store this (PlayerObj (Player._forget other p))
  | HospitalObj x =>
      match Hospital.cls x with
      | IsHospital => store this (HospitalObj (Hospital._forget other x))
      | IsSupervisor => Supervisor_forget this other
      | IsProject =>
          if includes (Hospital.prefs x) other
          then store this (HospitalObj (Hospital._forget other x)) ;;
               (if truthy (Hospital.supervisor x)
                then Supervisor_forget (Hospital.supervisor x) other
                else ret tt)
          else ret tt
      end
  end.

(** [Hospital._match], as inherited by [Supervisor]. *)
Definition Hospital_match (this resident : value) : M unit :=
  x <- getHospital "_match" this ;;
  store this (HospitalObj (Hospital._match resident x)).

(** [x._match(other)], dispatched (player.ts:86, hospital.ts, project.ts:34). *)
Definition _match (this other : value) : M unit :=
  o <- load "_match" this ;;
  match o with
  | PlayerObj p => store this (PlayerObj (Player._match other p))
  | HospitalObj x =>
      store this (HospitalObj (Hospital._match other x)) ;;
      match Hospital.cls x with
      | IsProject =>
          if truthy (Hospital.supervisor x)
          then Hospital_match (Hospital.supervisor x) other
          else ret tt
      | _ => ret tt
      end
  end.

(** [Hospital._unmatch], as inherited by [Supervisor]. *)
Definition Hospital_unmatch (this resident : value) : M unit :=
  x <- getHospital "_unmatch" this ;;
  store this (HospitalObj (Hospital._unmatch resident x)).

(** [x._unmatch(arg)], dispatched (player.ts:93, hospital.ts, project.ts:46);
    a [Player] ignores the argument. *)
Definition _unmatch (this arg : value) : M unit :=
  o <- load "_unmatch" this ;;
  match o with
  | PlayerObj p => store this (PlayerObj (Player._unmatch p))
  | HospitalObj x =>
      store this (HospitalObj (Hospital._unmatch arg x)) ;;
      match Hospital.cls x with
      | IsProject =>
          if truthy (Hospital.supervisor x)
          then Hospital_unmatch (Hospital.supervisor x) arg
          else ret tt
      | _ => ret tt
      end
  end.

(** [x.getSuccessors()], dispatched (player.ts:107, hospital.ts). *)
Definition getSuccessors (this : value) : M (list value) :=
  o <- load "getSuccessors" this ;;
  match o with
  | PlayerObj p => ret (Player.getSuccessors p)
  | HospitalObj x => ret (Hospital.getSuccessors x)
  end.

(** [x.prefers(player, other)]: both classes compare positions in
    [_originalPrefs] (player.ts:73, hospital.ts). *)
Definition prefers_in (original : option (list value)) (player other : value) : M bool :=
  match original with
  | None => throw (Error "Preferences not set")
  | Some prefs => ret (indexOf prefs player <? indexOf prefs other)%Z
  end.

Definition prefers (this player other : value) : M bool :=
  o <- load "prefers" this ;;
  match o with
  | PlayerObj p => prefers_in (Player._originalPrefs p) player other
  | HospitalObj x => prefers_in (Hospital._originalPrefs x) player other
  end.

(* ================================================================== *)
(** ** algorithms/util.ts *)
(* ================================================================== *)

(** util.ts:11 *)
Definition deletePair (player other : value) : M unit :=
  _forget player other ;;
  _forget other player.

(** util.ts:19 *)
Definition matchPair (player other : value) : M unit :=
  _match player other ;;
  _match other player.

(** A JavaScript [Map] keyed by object identity, in insertion order. *)
Definition jsmap (V : Type) := list (value * V).

Fixpoint map_set {V : Type} (k : value) (v : V) (m : jsmap V) : jsmap V :=
  match m with
  | [] => [(k, v)]
  | (k', v') :: m' =>
      if value_eqb k' k then (k', v) :: m' else (k', v') :: map_set k v m'
  end.

Fixpoint map_get {V : Type} (k : value) (m : jsmap V) : option V :=
  match m with
  | [] => None
  | (k', v') :: m' => if value_eqb k' k then Some v' else map_get k m'
  end.

(** [cloneMap.get(p)!]: [undefined] when the key is missing. *)
Definition map_get_value (k : value) (m : jsmap value) : value :=
  match map_get k m with
  | Some v => v
  | None => undefined
  end.

(* ================================================================== *)
(** ** algorithms/stable-marriage.ts *)
(* ================================================================== *)

Inductive SMOptimal : Type := suitor_optimal | reviewer_optimal.

(** stable-marriage.ts [unmatchPair] *)
Definition SM_unmatchPair (suitor reviewer : value) : M unit :=
  _unmatch suitor undefined ;;
  _unmatch reviewer undefined.

(** The [while (freeSuitors.length > 0)] loop of [stableMarriage]. *)
Fixpoint stableMarriage_loop (fuel : nat) (freeSuitors : list value) : M unit :=
  match fuel with
  | 0 => match freeSuitors with [] => ret tt | _ => timeout end
  | S fuel' =>
      match pop freeSuitors with
      | None => ret tt
      | Some (suitor, freeSuitors) =>
          s <- getPlayer "getFavourite" suitor ;;
          let reviewer := Player.getFavourite s in
          r <- getPlayer "matching" reviewer ;;
          freeSuitors <-
            (if truthy (Player.matching r)
             then let currentMatch := Player.matching r in
                  SM_unmatchPair currentMatch reviewer ;;
                  ret (freeSuitors ++ [currentMatch])
             else ret freeSuitors) ;;
          matchPair suitor reviewer ;;
          successors <- getSuccessors reviewer ;;
          forEach successors (fun successor => deletePair successor reviewer) ;;
          stableMarriage_loop fuel' freeSuitors
      end
  end.

(** The result map of the one-to-one solvers: [result.set(s, s.matching)]. *)
Fixpoint single_result (players : list value) (acc : jsmap value) : M (jsmap value) :=
  match players with
  | [] => ret acc
  | s :: rest =>
      p <- getPlayer "matching" s ;;
      single_result rest (map_set s (Player.matching p) acc)
  end.

(** stable-marriage.ts [stableMarriage] *)
Definition stableMarriage (fuel : nat) (suitors reviewers : list value)
    (optimal : SMOptimal) : M (jsmap value) :=
  let proposers :=
    match optimal with
    | reviewer_optimal => reviewers
    | suitor_optimal => suitors
    end in
  stableMarriage_loop fuel proposers ;;
  single_result suitors [].

(* ================================================================== *)
(** ** matchings/single-matching.ts and plain records *)
(* ================================================================== *)

(** A list of entries with string keys, in the order of creation:
    assignment overwrites in place, a new key goes last. *)
Fixpoint record_set {V : Type} (k : string) (v : V) (r : list (string * V)) : list (string * V) :=
  match r with
  | [] => [(k, v)]
  | (k', v') :: r' =>
      if String.eqb k' k then (k', v) :: r' else (k', v') :: record_set k v r'
  end.

Fixpoint record_get {V : Type} (k : string) (r : list (string * V)) : option V :=
  match r with
  | [] => None
  | (k', v') :: r' => if String.eqb k' k then Some v' else record_get k r'
  end.

(** *** Plain objects

    [toRecord] fills a plain object by assignments [result[name] = ..].
    Such an object is the list of its own properties in the order in
    which JavaScript lists them ([Object.keys], [Object.entries],
    [JSON.stringify]): the keys that are array indices first, in
    ascending numeric order, then the other keys in the order of their
    creation. *)

Definition digit_of (c : Ascii.ascii) : option N :=
  let n := Ascii.N_of_ascii c in
  if (N.leb 48 n && N.leb n 57)%bool then Some (n - 48)%N else None.

Fixpoint digits_value (s : string) (acc : N) : option N :=
  match s with
  | EmptyString => Some acc
  | String c s' =>
      match digit_of c with
      | Some d => digits_value s' (10 * acc + d)%N
      | None => None
      end
  end.

(** An array index is the canonical decimal form of an integer from 0
    to 2^32 - 2: digits only, no leading zero. *)
Definition array_index (k : string) : option N :=
  match k with
  | EmptyString => None
  | String c rest =>
      if (N.eqb (Ascii.N_of_ascii c) 48 && negb (String.eqb rest ""))%bool then None
      else match digits_value k 0%N with
           | Some n => if N.leb n 4294967294 then Some n else None
           | None => None
           end
  end.

(** The creation of the own property [k]. *)
Fixpoint object_add {V : Type} (k : string) (v : V) (r : list (string * V))
    : list (string * V) :=
  match r with
  | [] => [(k, v)]
  | (k', v') :: r' =>
      match array_index k, array_index k' with
      | Some n, Some n' =>
          if N.ltb n n' then (k, v) :: r else (k', v') :: object_add k v r'
      | Some _, None => (k, v) :: r
      | None, _ => (k', v') :: object_add k v r'
      end
  end.

(** [result[k] = v] for a key that is, or becomes, an own property:
    an existing property keeps its place. *)
Definition object_set {V : Type} (k : string) (v : V) (r : list (string * V))
    : list (string * V) :=
  match record_get k r with
  | Some _ => record_set k v r
  | None => object_add k v r
  end.

(** [new SingleMatching(dictionary)]: copies the entries into a new map. *)
Definition SingleMatching (dictionary : jsmap value) : jsmap value :=
  fold_left (fun data kv => map_set (fst kv) (snd kv) data) dictionary [].

(** single-matching.ts:90 [toRecord].  [result] is the object under
    construction and [proto] tells whether the key [__proto__] still
    reaches the accessor that a plain object inherits from
    [Object.prototype]: an assignment through the accessor creates no
    property; a string assigned through it changes nothing, and [null]
    takes the prototype away, after which [__proto__] is a key like any
    other. *)
Fixpoint SingleMatching_toRecord (data : jsmap value)
    (result : list (string * option string)) (proto : bool)
    : M (list (string * option string)) :=
  match data with
  | [] => ret result
  | (key, v) :: rest =>
      k <- load "name" key ;;
      entry <- (if truthy v
                then o <- load "name" v ;; ret (Some (obj_name o))
                else ret None) ;;
      if (String.eqb (obj_name k) "__proto__" && proto)%bool
      then SingleMatching_toRecord rest result
             (match entry with Some _ => true | None => false end)
      else SingleMatching_toRecord rest (object_set (obj_name k) entry result) proto
  end.

(* ================================================================== *)
(** ** games/stable-marriage.ts *)
(* ================================================================== *)

Module StableMarriage.
Record t : Type := mk {
  suitors : list value;
  reviewers : list value;
  matching : option (jsmap value);
  blockingPairs : option (list (value * value))
}.
End StableMarriage.

(** First loop of the constructors: [cloneMap.set(player, new Player(player.name))]. *)
Fixpoint clone_players (players : list value) (cloneMap : jsmap value) : M (jsmap value) :=
  match players with
  | [] => ret cloneMap
  | player :: rest =>
      p <- getPlayer "name" player ;;
      c <- alloc (PlayerObj (Player.new (Player.name p))) ;;
      clone_players rest (map_set player c cloneMap)
  end.

(** Second loop: [clone.setPrefs(player.prefs.map((p) => cloneMap.get(p)!))]. *)
Definition clone_player_prefs (cloneMap : jsmap value) (players : list value) : M unit :=
  forEach players (fun player =>
    let clone := map_get_value player cloneMap in
    p <- getPlayer "prefs" player ;;
    let clonedPrefs := map (fun q => map_get_value q cloneMap) (Player.prefs p) in
    setPrefs clone clonedPrefs).

(** [others.every(..)] of the rank checks: the two [Set]s have the same
    size and every ranked element is in the other group. *)
Definition same_set (prefs others : list value) : bool :=
  Nat.eqb (List.length (dedup prefs)) (List.length (dedup others))
  && forallb (includes (dedup others)) (dedup prefs).

(** stable-marriage.ts [checkPlayerRanks] *)
Definition SM_checkPlayerRanks (suitors reviewers : list value) (player : value) : M unit :=
  let others := if includes suitors player then reviewers else suitors in
  p <- getPlayer "prefs" player ;;
  if same_set (Player.prefs p) others
  then ret tt
  else throw (Error "Every player must rank each name from the other group.").

(** stable-marriage.ts [checkInputs], with [checkNumPlayers] inlined. *)
Definition SM_checkInputs (suitors reviewers : list value) : M unit :=
  (if Nat.eqb (List.length suitors) (List.length reviewers)
   then ret tt
   else throw (Error "There must be an equal number of suitors and reviewers.")) ;;
  forEach suitors (SM_checkPlayerRanks suitors reviewers) ;;
  forEach reviewers (SM_checkPlayerRanks suitors reviewers).

(** stable-marriage.ts [constructor] *)
Definition StableMarriage_new (suitors reviewers : list value) : M StableMarriage.t :=
  let allPlayers := suitors ++ reviewers in
  cloneMap <- clone_players allPlayers [] ;;
  clone_player_prefs cloneMap allPlayers ;;
  let suitors' := map (fun p => map_get_value p cloneMap) suitors in
  let reviewers' := map (fun p => map_get_value p cloneMap) reviewers in
  SM_checkInputs suitors' reviewers' ;;
  ret (StableMarriage.mk suitors' reviewers' None None).

(** A [Record<string, string[]>] literal, keys in insertion order. *)
Definition prefs_dict := list (string * list string).

(** [for (const name of Object.keys(d)) dict.set(name, new Player(name))] *)
Fixpoint make_dict (names : list string) (dict : list (string * value)) : M (list (string * value)) :=
  match names with
  | [] => ret dict
  | n :: rest =>
      c <- alloc (PlayerObj (Player.new n)) ;;
      make_dict rest (record_set n c dict)
  end.

Definition dict_get (n : string) (dict : list (string * value)) : value :=
  match record_get n dict with
  | Some v => v
  | None => undefined
  end.

(** [for (const [name, x] of dict) x.setPrefs(prefs[name]!.map((n) => others.get(n)!))] *)
Definition set_dict_prefs (dict others : list (string * value)) (prefs : prefs_dict) : M unit :=
  forEach dict (fun entry =>
    match record_get (fst entry) prefs with
    | Some names => setPrefs (snd entry) (map (fun n => dict_get n others) names)
    | None => throw (TypeError "map")
    end).

(** stable-marriage.ts [makePlayers] *)
Definition SM_makePlayers (suitorPrefs reviewerPrefs : prefs_dict) : M (list value * list value) :=
  suitorDict <- make_dict (map fst suitorPrefs) [] ;;
  reviewerDict <- make_dict (map fst reviewerPrefs) [] ;;
  set_dict_prefs suitorDict reviewerDict suitorPrefs ;;
  set_dict_prefs reviewerDict suitorDict reviewerPrefs ;;
  ret (map snd suitorDict, map snd reviewerDict).

(** stable-marriage.ts [createFromDictionaries] *)
Definition StableMarriage_createFromDictionaries (suitorPrefs reviewerPrefs : prefs_dict)
    : M StableMarriage.t :=
  players <- SM_makePlayers suitorPrefs reviewerPrefs ;;
  StableMarriage_new (fst players) (snd players).

(** stable-marriage.ts [solve] *)
Definition StableMarriage_solve (fuel : nat) (game : StableMarriage.t) (optimal : SMOptimal)
    : M StableMarriage.t :=
  result <- stableMarriage fuel (StableMarriage.suitors game)
                           (StableMarriage.reviewers game) optimal ;;
  ret (StableMarriage.mk (StableMarriage.suitors game) (StableMarriage.reviewers game)
         (Some (SingleMatching result)) (StableMarriage.blockingPairs game)).

(** The matching of a solved game as a plain record. *)
Definition matching_record (matching : option (jsmap value)) : M (list (string * option string)) :=
  match matching with
  | Some data => SingleMatching_toRecord data [] true
  | None => throw (TypeError "toRecord")
  end.

(** The end-to-end example of the README and of the test suite. *)
Definition example_suitorPrefs : prefs_dict :=
  [("A", ["X"; "Y"; "Z"]); ("B", ["Y"; "X"; "Z"]); ("C", ["Y"; "Z"; "X"])].
Definition example_reviewerPrefs : prefs_dict :=
  [("X", ["B"; "A"; "C"]); ("Y", ["A"; "B"; "C"]); ("Z", ["A"; "B"; "C"])].

Definition run_SM (fuel : nat) (suitorPrefs reviewerPrefs : prefs_dict) (optimal : SMOptimal)
    : M (list (string * option string)) :=
  game <- StableMarriage_createFromDictionaries suitorPrefs reviewerPrefs ;;
  game <- StableMarriage_solve fuel game optimal ;;
  matching_record (StableMarriage.matching game).


(* ================================================================== *)
(** ** algorithms/stable-roommates.ts (Irving's algorithm) *)
(* ================================================================== *)

(** Diagnostics written by [warnNoStableMatching] (errors.ts:25): the
    engine only logs them, so they are collected beside the result. *)
Inductive warning : Type :=
| NoStableMatchingWarning (emptied : list value)
| PreferencesChangedWarning (player other : value)
| PlayerExcludedWarning (player : value)
| CapacityChangedWarning (player : value).

(** [players.filter((p) => p.prefs.length === 0)] and the two tests on
    the length of [prefs] used by both phases. *)
Definition prefs_length_is (n : nat) (p : value) : M bool :=
  x <- getPlayer "prefs" p ;; ret (Nat.eqb (List.length (Player.prefs x)) n).

Definition prefs_length_gt (n : nat) (p : value) : M bool :=
  x <- getPlayer "prefs" p ;; ret (Nat.ltb n (List.length (Player.prefs x))).

(** [players.find(f)] for an [f] that reads the heap. *)
Fixpoint findM (f : value -> M bool) (l : list value) : M value :=
  match l with
  | [] => ret undefined
  | x :: l' => b <- f x ;; if b then ret x else findM f l'
  end.

(** The body of the [for] over [favourite.getSuccessors()] in [firstPhase]. *)
Fixpoint firstPhase_delete (favourite : value) (successors freePlayers : list value)
    : M (list value) :=
  match successors with
  | [] => ret freePlayers
  | successor :: rest =>
      deletePair successor favourite ;;
      empty <- prefs_length_is 0 successor ;;
      firstPhase_delete favourite rest
        (if empty && includes freePlayers successor
         then remove_first successor freePlayers
         else freePlayers)
  end.

(** stable-roommates.ts:12 [firstPhase], the [while] loop. *)
Fixpoint firstPhase_loop (fuel : nat) (freePlayers : list value) : M unit :=
  match fuel with
  | 0 => match freePlayers with [] => ret tt | _ => timeout end
  | S fuel' =>
      match pop freePlayers with
      | None => ret tt
      | Some (player, freePlayers) =>
          p <- getPlayer "prefs" player ;;
          if Nat.eqb (List.length (Player.prefs p)) 0
          then firstPhase_loop fuel' freePlayers
          else
            let favourite := Player.getFavourite p in
            f <- getPlayer "matching" favourite ;;
            let current := Player.matching f in
            freePlayers <-
              (if negb (value_eqb current null)
               then _unmatch favourite undefined ;; ret (freePlayers ++ [current])
               else ret freePlayers) ;;
            _match favourite player ;;
            successors <- getSuccessors favourite ;;
            freePlayers <- firstPhase_delete favourite successors freePlayers ;;
            firstPhase_loop fuel' freePlayers
      end
  end.

Definition firstPhase (fuel : nat) (players : list value) : M (list value) :=
  firstPhase_loop fuel players ;; ret players.

(** [lasts.filter(p => p === current).length], the cycle test. *)
Definition count_value (v : value) (l : list value) : nat :=
  List.length (filter (value_eqb v) l).

(** The [while (true)] loop of [locateAllOrNothingCycle]; returns
    [(lasts, seconds, current)] at the [break]. *)
Fixpoint locate_loop (fuel : nat) (current : value) (lasts seconds : list value)
    : M (list value * list value * value) :=
  match fuel with
  | 0 => timeout
  | S fuel' =>
      c <- getPlayer "prefs" current ;;
      let secondBest := at_index (Player.prefs c) 1 in
      if negb (truthy secondBest) then ret (lasts, seconds, current)
      else
        s <- getPlayer "prefs" secondBest ;;
        let theirWorst := last (Player.prefs s) undefined in
        if negb (truthy theirWorst) then ret (lasts, seconds, current)
        else
          let seconds := seconds ++ [secondBest] in
          let lasts := lasts ++ [theirWorst] in
          let current := theirWorst in
          if Nat.ltb 1 (count_value current lasts)
          then ret (lasts, seconds, current)
          else locate_loop fuel' current lasts seconds
  end.

(** [for (let i = idx + 1; i < lasts.length; i++)
       cycle.push([lasts[i], seconds[i - 1]])] *)
Fixpoint cycle_from (i : nat) (n : nat) (lasts seconds : list value) : list (value * value) :=
  match n with
  | 0 => []
  | S n' => (at_index lasts i, at_index seconds (i - 1)) :: cycle_from (S i) n' lasts seconds
  end.

(** stable-roommates.ts:48 [locateAllOrNothingCycle] *)
Definition locateAllOrNothingCycle (fuel : nat) (player : value) : M (list (value * value)) :=
  r <- locate_loop fuel player [player] [] ;;
  let '(lasts, seconds, current) := r in
  let idx := Z.to_nat (indexOf lasts current) in
  ret (cycle_from (idx + 1) (List.length lasts - (idx + 1)) lasts seconds).

Definition pair_eqb (p q : value * value) : bool :=
  value_eqb (fst p) (fst q) && value_eqb (snd p) (snd q).

(** The inner [for] of [getPairsToDelete]: push [right, successor] unless
    the pair or its reverse is already listed. *)
Fixpoint add_pairs (right : value) (successors : list value) (pairs : list (value * value))
    : list (value * value) :=
  match successors with
  | [] => pairs
  | successor :: rest =>
      let pair := (right, successor) in
      let reversePair := (successor, right) in
      let pairExists :=
        existsb (fun p => pair_eqb p pair || pair_eqb p reversePair) pairs in
      add_pairs right rest (if pairExists then pairs else pairs ++ [pair])
  end.

(** The outer [for (let i = 0; i < cycle.length; i++)] of [getPairsToDelete];
    [n] counts the remaining iterations.  [(i - 1 + cycle.length)] is
    never negative, so it is written [i + cycle.length - 1] over [nat]. *)
Fixpoint getPairsToDelete_loop (n i : nat) (cycle : list (value * value))
    (pairs : list (value * value)) : M (list (value * value)) :=
  match n with
  | 0 => ret pairs
  | S n' =>
      let right := snd (nth i cycle (undefined, undefined)) in
      let leftIdx := (i + List.length cycle - 1) mod (List.length cycle) in
      let left := fst (nth leftIdx cycle (undefined, undefined)) in
      r <- getPlayer "prefs" right ;;
      let leftIdxInPrefs := indexOf (Player.prefs r) left in
      let successors := slice (Player.prefs r) (leftIdxInPrefs + 1) in
      getPairsToDelete_loop n' (S i) cycle (add_pairs right successors pairs)
  end.

(** stable-roommates.ts:98 [getPairsToDelete] *)
Definition getPairsToDelete (cycle : list (value * value)) : M (list (value * value)) :=
  getPairsToDelete_loop (List.length cycle) 0 cycle [].

(** The final [for] of [secondPhase]. *)
Definition final_matching (players : list value) : M unit :=
  forEach players (fun p =>
    _unmatch p undefined ;;
    x <- getPlayer "prefs" p ;;
    if Nat.ltb 0 (List.length (Player.prefs x))
    then _match p (Player.getFavourite x)
    else ret tt).

(** The [while (player)] loop of [secondPhase]. *)
Fixpoint secondPhase_loop (inner fuel : nat) (players : list value) (player : value)
    : M (list warning) :=
  match fuel with
  | 0 => if truthy player then timeout else ret []
  | S fuel' =>
      if negb (truthy player) then ret []
      else
        cycle <- locateAllOrNothingCycle inner player ;;
        pairs <- getPairsToDelete cycle ;;
        forEach pairs (fun po => deletePair (fst po) (snd po)) ;;
        emptyPlayers <- filterM (prefs_length_is 0) players ;;
        if Nat.ltb 0 (List.length emptyPlayers)
        then ret [NoStableMatchingWarning emptyPlayers]
        else
          player <- findM (prefs_length_gt 1) players ;;
          secondPhase_loop inner fuel' players player
  end.

(** stable-roommates.ts:132 [secondPhase] *)
Definition secondPhase (fuel : nat) (players : list value) : M (list warning) :=
  player <- findM (prefs_length_gt 1) players ;;
  w <- secondPhase_loop fuel fuel players player ;;
  final_matching players ;;
  ret w.

(** stable-roommates.ts:177 [stableRoommates]; the warnings are returned
    with the result map. *)
Definition stableRoommates (fuel : nat) (players : list value)
    : M (jsmap value * list warning) :=
  processedPlayers <- firstPhase fuel players ;;
  emptyPlayers <- filterM (prefs_length_is 0) processedPlayers ;;
  let w1 := if Nat.ltb 0 (List.length emptyPlayers)
            then [NoStableMatchingWarning emptyPlayers] else [] in
  run2 <- someM (prefs_length_gt 1) processedPlayers ;;
  w2 <- (if run2 then secondPhase fuel processedPlayers else ret []) ;;
  result <- single_result players [] ;;
  ret (result, w1 ++ w2).

(* ================================================================== *)
(** ** games/stable-roommates.ts *)
(* ================================================================== *)

Module StableRoommates.
Record t : Type := mk {
  players : list value;
  matching : option (jsmap value);
  blockingPairs : option (list (value * value))
}.
End StableRoommates.

(** stable-roommates.ts [checkInputs] *)
Definition SR_checkInputs (players : list value) : M unit :=
  forEach players (fun player =>
    let others := remove_value player players in
    p <- getPlayer "prefs" player ;;
    if same_set (Player.prefs p) others
    then ret tt
    else throw (Error "Every player must rank all other players.")).

(** stable-roommates.ts [constructor] *)
Definition StableRoommates_new (players : list value) : M StableRoommates.t :=
  cloneMap <- clone_players players [] ;;
  clone_player_prefs cloneMap players ;;
  let players' := map (fun p => map_get_value p cloneMap) players in
  SR_checkInputs players' ;;
  ret (StableRoommates.mk players' None None).

(** stable-roommates.ts [makePlayers] *)
Definition SR_makePlayers (playerPrefs : prefs_dict) : M (list value) :=
  playerDict <- make_dict (map fst playerPrefs) [] ;;
  set_dict_prefs playerDict playerDict playerPrefs ;;
  ret (map snd playerDict).

(** stable-roommates.ts [createFromDictionary] *)
Definition StableRoommates_createFromDictionary (playerPrefs : prefs_dict)
    : M StableRoommates.t :=
  players <- SR_makePlayers playerPrefs ;;
  StableRoommates_new players.

(** stable-roommates.ts [solve]; the warnings logged on the way are
    returned beside the game. *)
Definition StableRoommates_solve (fuel : nat) (game : StableRoommates.t)
    : M (StableRoommates.t * list warning) :=
  r <- stableRoommates fuel (StableRoommates.players game) ;;
  ret (StableRoommates.mk (StableRoommates.players game)
         (Some (SingleMatching (fst r))) (StableRoommates.blockingPairs game),
       snd r).

(** The inner [for (const other of others)] of the SR [checkStability]. *)
Fixpoint SR_blocking_inner (player : value) (others : list value)
    (blockingPairs : list (value * value)) : M (list (value * value)) :=
  match others with
  | [] => ret blockingPairs
  | other :: rest =>
      if existsb (fun pair => value_eqb (fst pair) other && value_eqb (snd pair) player)
                 blockingPairs
      then SR_blocking_inner player rest blockingPairs
      else
        p <- getPlayer "matching" player ;;
        o <- getPlayer "matching" other ;;
        let bothMatched :=
          negb (value_eqb (Player.matching p) null)
          && negb (value_eqb (Player.matching o) null) in
        if bothMatched
        then
          b1 <- prefers player other (Player.matching p) ;;
          preferEachOther <-
            (if b1 then prefers other player (Player.matching o) else ret false) ;;
          SR_blocking_inner player rest
            (if preferEachOther then blockingPairs ++ [(player, other)] else blockingPairs)
        else SR_blocking_inner player rest blockingPairs
  end.

Fixpoint SR_blocking_outer (all players : list value)
    (blockingPairs : list (value * value)) : M (list (value * value)) :=
  match players with
  | [] => ret blockingPairs
  | player :: rest =>
      bp <- SR_blocking_inner player (remove_value player all) blockingPairs ;;
      SR_blocking_outer all rest bp
  end.


(** stable-roommates.ts [checkStability] *)
Definition StableRoommates_checkStability (game : StableRoommates.t)
    : M (bool * StableRoommates.t) :=
  match StableRoommates.matching game with
  | None => ret (false, game)
  | Some data =>
      if existsb (fun kv => value_eqb (snd kv) null) data
      then ret (false, game)
      else
        blockingPairs <- SR_blocking_outer (StableRoommates.players game)
                           (StableRoommates.players game) [] ;;
        ret (Nat.eqb (List.length blockingPairs) 0,
             StableRoommates.mk (StableRoommates.players game)
               (StableRoommates.matching game) (Some blockingPairs))
  end.

(* ================================================================== *)
(** ** algorithms/hospital-resident.ts *)
(* ================================================================== *)

Inductive HROptimal : Type := resident_optimal | hospital_optimal.

(** hospital-resident.ts [unmatchPair] *)
Definition HR_unmatchPair (resident hospital : value) : M unit :=
  _unmatch resident undefined ;;
  _unmatch hospital resident.

(** hospital-resident.ts [checkAvailable] *)
Definition checkAvailable (hospital : value) : M bool :=
  x <- getHospital "matching" hospital ;;
  let hasCapacity := (Z.of_nat (List.length (Hospital.matching x)) <? Hospital.capacity x)%Z in
  let hasAvailableResidents :=
    Nat.ltb 0 (List.length (filter (fun p => negb (includes (Hospital.matching x) p))
                                   (Hospital.prefs x))) in
  ret (hasCapacity && hasAvailableResidents).

(** The [for] over [hospital.getSuccessors()] in [residentOptimal]. *)
Fixpoint residentOptimal_delete (hospital : value) (successors freeResidents : list value)
    : M (list value) :=
  match successors with
  | [] => ret freeResidents
  | successor :: rest =>
      deletePair hospital successor ;;
      o <- load "prefs" successor ;;
      residentOptimal_delete hospital rest
        (if Nat.eqb (List.length (obj_prefs o)) 0 && includes freeResidents successor
         then remove_first successor freeResidents
         else freeResidents)
  end.

(** One iteration of the [while] loop of [residentOptimal], after the
    [pop]: the new work list. *)
Definition residentOptimal_step (resident : value) (freeResidents : list value)
    : M (list value) :=
  r <- getPlayer "prefs" resident ;;
  if Nat.eqb (List.length (Player.prefs r)) 0 then ret freeResidents
  else
    let hospital := Player.getFavourite r in
    x <- getHospital "matching" hospital ;;
    freeResidents <-
      (if (Z.of_nat (List.length (Hospital.matching x)) =? Hospital.capacity x)%Z
       then let worst := Hospital.getWorstMatch x in
            HR_unmatchPair worst hospital ;;
            ret (freeResidents ++ [worst])
       else ret freeResidents) ;;
    matchPair resident hospital ;;
    x <- getHospital "matching" hospital ;;
    if (Z.of_nat (List.length (Hospital.matching x)) =? Hospital.capacity x)%Z
    then residentOptimal_delete hospital (Hospital.getSuccessors x) freeResidents
    else ret freeResidents.

Fixpoint residentOptimal_loop (fuel : nat) (freeResidents : list value) : M unit :=
  match fuel with
  | 0 => match freeResidents with [] => ret tt | _ => timeout end
  | S fuel' =>
      match pop freeResidents with
      | None => ret tt
      | Some (resident, freeResidents) =>
          freeResidents <- residentOptimal_step resident freeResidents ;;
          residentOptimal_loop fuel' freeResidents
      end
  end.

(** The result map of the many-to-one solvers:
    [result.set(hospital, hospital.matching)].  The source stores the
    hospital's own array, so the map and the hospital share it; an entry
    here is the content of that array when the map is built.  The solvers
    return the map as their last step, and the entries stand for the shared
    arrays as long as no hospital is matched or unmatched afterwards. *)
Fixpoint multiple_result (hospitals : list value) (acc : jsmap (list value))
    : M (jsmap (list value)) :=
  match hospitals with
  | [] => ret acc
  | x :: rest =>
      o <- getHospital "matching" x ;;
      multiple_result rest (map_set x (Hospital.matching o) acc)
  end.

(** hospital-resident.ts [residentOptimal] *)
Definition residentOptimal (fuel : nat) (residents hospitals : list value)
    : M (jsmap (list value)) :=
  residentOptimal_loop fuel residents ;;
  multiple_result hospitals [].

(** The [for] over [resident.getSuccessors()] in [hospitalOptimal]. *)
Fixpoint hospitalOptimal_delete (resident : value) (successors freeHospitals : list value)
    : M (list value) :=
  match successors with
  | [] => ret freeHospitals
  | successor :: rest =>
      deletePair resident successor ;;
      available <- checkAvailable successor ;;
      hospitalOptimal_delete resident rest
        (if negb available && includes freeHospitals successor
         then remove_first successor freeHospitals
         else freeHospitals)
  end.

(** One iteration of the [while] loop of [hospitalOptimal], after the [pop]. *)
Definition hospitalOptimal_step (hospital : value) (freeHospitals : list value)
    : M (list value) :=
  x <- getHospital "getFavourite" hospital ;;
  let resident := Hospital.getFavourite x in
  if negb (truthy resident) then ret freeHospitals
  else
    r <- getPlayer "matching" resident ;;
    freeHospitals <-
      (if truthy (Player.matching r)
       then let currentMatch := Player.matching r in
            HR_unmatchPair resident currentMatch ;;
            ret (if negb (includes freeHospitals currentMatch)
                 then freeHospitals ++ [currentMatch]
                 else freeHospitals)
       else ret freeHospitals) ;;
    matchPair resident hospital ;;
    available <- checkAvailable hospital ;;
    let freeHospitals := if available then freeHospitals ++ [hospital] else freeHospitals in
    successors <- getSuccessors resident ;;
    hospitalOptimal_delete resident successors freeHospitals.

Fixpoint hospitalOptimal_loop (fuel : nat) (freeHospitals : list value) : M unit :=
  match fuel with
  | 0 => match freeHospitals with [] => ret tt | _ => timeout end
  | S fuel' =>
      match pop freeHospitals with
      | None => ret tt
      | Some (hospital, freeHospitals) =>
          freeHospitals <- hospitalOptimal_step hospital freeHospitals ;;
          hospitalOptimal_loop fuel' freeHospitals
      end
  end.

(** hospital-resident.ts [hospitalOptimal] *)
Definition hospitalOptimal (fuel : nat) (hospitals : list value) : M (jsmap (list value)) :=
  hospitalOptimal_loop fuel hospitals ;;
  multiple_result hospitals [].

(** hospital-resident.ts [hospitalResident] *)
Definition hospitalResident (fuel : nat) (residents hospitals : list value)
    (optimal : HROptimal) : M (jsmap (list value)) :=
  match optimal with
  | resident_optimal => residentOptimal fuel residents hospitals
  | hospital_optimal => hospitalOptimal fuel hospitals
  end.

(* ================================================================== *)
(** ** matchings/multiple-matching.ts *)
(* ================================================================== *)

(** [new MultipleMatching(dictionary)] *)
Definition MultipleMatching (dictionary : jsmap (list value)) : jsmap (list value) :=
  fold_left (fun data kv => map_set (fst kv) (snd kv) data) dictionary [].

(** multiple-matching.ts [toRecord].  An array assigned to the key
    [__proto__] goes through the accessor inherited from
    [Object.prototype]: it becomes the prototype of the object, which
    keeps the accessor in reach, and no property is created. *)
Fixpoint MultipleMatching_toRecord (data : jsmap (list value))
    (result : list (string * list string)) : M (list (string * list string)) :=
  match data with
  | [] => ret result
  | (key, v) :: rest =>
      k <- load "name" key ;;
      names <- names_of v ;;
      MultipleMatching_toRecord rest
        (if String.eqb (obj_name k) "__proto__" then result
         else object_set (obj_name k) names result)
  end.

(* ================================================================== *)
(** ** games/hospital-resident.ts *)
(* ================================================================== *)

Module HospitalResident.
Record t : Type := mk {
  residents : list value;
  hospitals : list value;
  clean : bool;
  matching : option (jsmap (list value));
  blockingPairs : option (list (value * value));
  _allResidents : list value;
  _allHospitals : list value
}.

Definition with_parties (rs hs : list value) (g : t) : t :=
  mk rs hs (clean g) (matching g) (blockingPairs g) (_allResidents g) (_allHospitals g).
End HospitalResident.

Inductive party : Type := residents_party | hospitals_party.

Definition party_of (g : HospitalResident.t) (p : party) : list value :=
  match p with
  | residents_party => HospitalResident.residents g
  | hospitals_party => HospitalResident.hospitals g
  end.

(** [for (const hospital of hospitals)
       hospitalCloneMap.set(hospital, new Hospital(hospital.name, hospital.capacity))] *)
Fixpoint clone_hospitals (hospitals : list value) (cloneMap : jsmap value) : M (jsmap value) :=
  match hospitals with
  | [] => ret cloneMap
  | hospital :: rest =>
      x <- getHospital "name" hospital ;;
      c <- alloc (HospitalObj (Hospital.new IsHospital (Hospital.name x) (Hospital.capacity x))) ;;
      clone_hospitals rest (map_set hospital c cloneMap)
  end.

(** [clone.setPrefs(x.prefs.map((p) => otherCloneMap.get(p)))] for every
    [x] of one party. *)
Definition clone_prefs (ownMap otherMap : jsmap value) (players : list value) : M unit :=
  forEach players (fun player =>
    let clone := map_get_value player ownMap in
    o <- load "prefs" player ;;
    let clonedPrefs := map (fun q => map_get_value q otherMap) (obj_prefs o) in
    setPrefs clone clonedPrefs).

(** The inner loop of [checkInputsPlayerPrefsUnique]: the de-duplicated
    list and one warning for every repeated entry. *)
Fixpoint unique_prefs (player : value) (prefs uniquePrefs : list value) (w : list warning)
    : list value * list warning :=
  match prefs with
  | [] => (uniquePrefs, w)
  | other :: rest =>
      if negb (includes uniquePrefs other)
      then unique_prefs player rest (uniquePrefs ++ [other]) w
      else unique_prefs player rest uniquePrefs (w ++ [PreferencesChangedWarning player other])
  end.

(** A loop over entities that logs warnings and may repair the entity. *)
Fixpoint forEachW {A : Type} (l : list A) (body : A -> M (list warning)) : M (list warning) :=
  match l with
  | [] => ret []
  | x :: l' => w <- body x ;; ws <- forEachW l' body ;; ret (w ++ ws)
  end.

(** hospital-resident.ts [checkInputsPlayerPrefsUnique] *)
Definition checkInputsPlayerPrefsUnique (clean : bool) (players : list value)
    : M (list warning) :=
  forEachW players (fun player =>
    o <- load "prefs" player ;;
    let '(uniquePrefs, w) := unique_prefs player (obj_prefs o) [] [] in
    (if clean then setPrefs player uniquePrefs else ret tt) ;;
    ret w).

(** hospital-resident.ts [checkInputsPlayerPrefsAllInParty] *)
Definition checkInputsPlayerPrefsAllInParty (clean : bool) (players others : list value)
    : M (list warning) :=
  forEachW players (fun player =>
    o <- load "prefs" player ;;
    forEachW (obj_prefs o) (fun other =>
      if negb (includes others other)
      then (if clean then _forget player other else ret tt) ;;
           ret [PreferencesChangedWarning player other]
      else ret []))%M.

(** hospital-resident.ts [checkInputsPlayerPrefsAllReciprocated] *)
Definition checkInputsPlayerPrefsAllReciprocated (clean : bool) (hospitals : list value)
    : M (list warning) :=
  forEachW hospitals (fun hospital =>
    x <- load "prefs" hospital ;;
    forEachW (obj_prefs x) (fun other =>
      ranked <- prefs_include "prefs" other hospital ;;
      if negb ranked
      then (if clean then _forget hospital other else ret tt) ;;
           ret [PreferencesChangedWarning hospital other]
      else ret [])).

(** hospital-resident.ts [checkInputsPlayerReciprocatedAllPrefs] *)
Definition checkInputsPlayerReciprocatedAllPrefs (clean : bool) (hospitals residents : list value)
    : M (list warning) :=
  forEachW hospitals (fun hospital =>
    residentsThatRanked <-
      filterM (fun r => prefs_include "prefs" r hospital) residents ;;
    forEachW residentsThatRanked (fun resident =>
      ranked <- prefs_include "prefs" hospital resident ;;
      if negb ranked
      then (if clean then _forget resident hospital else ret tt) ;;
           ret [PreferencesChangedWarning resident hospital]
      else ret [])).

(** hospital-resident.ts [removePlayer] *)
Definition removePlayer (g : HospitalResident.t) (player : value) (playerParty otherParty : party)
    : M HospitalResident.t :=
  let g :=
    match playerParty with
    | residents_party =>
        HospitalResident.with_parties
          (remove_value player (HospitalResident.residents g)) (HospitalResident.hospitals g) g
    | hospitals_party =>
        HospitalResident.with_parties
          (HospitalResident.residents g) (remove_value player (HospitalResident.hospitals g)) g
    end in
  forEach (party_of g otherParty) (fun other =>
    ranked <- prefs_include "prefs" other player ;;
    if ranked then _forget other player else ret tt) ;;
  ret g.

(** A loop that may remove members from the game while it warns. *)
Fixpoint forEachG (l : list value) (g : HospitalResident.t)
    (body : HospitalResident.t -> value -> M (HospitalResident.t * list warning))
    : M (HospitalResident.t * list warning) :=
  match l with
  | [] => ret (g, [])
  | x :: l' =>
      r <- body g x ;;
      r' <- forEachG l' (fst r) body ;;
      ret (fst r', snd r ++ snd r')
  end.

(** hospital-resident.ts [checkInputsPlayerPrefsNonempty] *)
Definition checkInputsPlayerPrefsNonempty (g : HospitalResident.t) (p otherParty : party)
    : M (HospitalResident.t * list warning) :=
  forEachG (party_of g p) g (fun g player =>
    o <- load "prefs" player ;;
    if Nat.eqb (List.length (obj_prefs o)) 0
    then g <- (if HospitalResident.clean g then removePlayer g player p otherParty else ret g) ;;
         ret (g, [PlayerExcludedWarning player])
    else ret (g, [])).

(** hospital-resident.ts [checkInputsPlayerCapacity] *)
Definition checkInputsPlayerCapacity (g : HospitalResident.t) (p otherParty : party)
    : M (HospitalResident.t * list warning) :=
  forEachG (HospitalResident.hospitals g) g (fun g hospital =>
    x <- getHospital "capacity" hospital ;;
    if (Hospital.capacity x <? 1)%Z
    then g <- (if HospitalResident.clean g then removePlayer g hospital p otherParty else ret g) ;;
         ret (g, [PlayerExcludedWarning hospital])
    else ret (g, [])).

(** hospital-resident.ts [checkInputs] *)
Definition HR_checkInputs (g : HospitalResident.t) : M (HospitalResident.t * list warning) :=
  let clean := HospitalResident.clean g in
  w1 <- checkInputsPlayerPrefsUnique clean (HospitalResident.residents g) ;;
  w2 <- checkInputsPlayerPrefsUnique clean (HospitalResident.hospitals g) ;;
  w3 <- checkInputsPlayerPrefsAllInParty clean (HospitalResident.residents g)
          (HospitalResident.hospitals g) ;;
  w4 <- checkInputsPlayerPrefsAllInParty clean (HospitalResident.hospitals g)
          (HospitalResident.residents g) ;;
  w5 <- checkInputsPlayerPrefsAllReciprocated clean (HospitalResident.hospitals g) ;;
  w6 <- checkInputsPlayerReciprocatedAllPrefs clean (HospitalResident.hospitals g)
          (HospitalResident.residents g) ;;
  r7 <- checkInputsPlayerPrefsNonempty g residents_party hospitals_party ;;
  r8 <- checkInputsPlayerPrefsNonempty (fst r7) hospitals_party residents_party ;;
  r9 <- checkInputsPlayerCapacity (fst r8) hospitals_party residents_party ;;
  ret (fst r9, w1 ++ w2 ++ w3 ++ w4 ++ w5 ++ w6 ++ snd r7 ++ snd r8 ++ snd r9).

(** hospital-resident.ts [constructor]; returns the game and the
    warnings logged by [checkInputs]. *)
Definition HospitalResident_new (residents hospitals : list value) (clean : bool)
    : M (HospitalResident.t * list warning) :=
  residentCloneMap <- clone_players residents [] ;;
  hospitalCloneMap <- clone_hospitals hospitals [] ;;
  clone_prefs residentCloneMap hospitalCloneMap residents ;;
  clone_prefs hospitalCloneMap residentCloneMap hospitals ;;
  let rs := map (fun r => map_get_value r residentCloneMap) residents in
  let hs := map (fun x => map_get_value x hospitalCloneMap) hospitals in
  HR_checkInputs (HospitalResident.mk rs hs clean None None rs hs).

(** A [Record<string, number>] literal. *)
Definition capacity_dict := list (string * Z).

(** [for (const name of ..) dict.set(name, new Hospital(name, capacities[name]!))].
    The [!] of the source asserts that every hospital has an entry in
    [capacities].  For a name without one the source builds the hospital
    with the capacity [undefined] and goes on; capacities are integers
    here, so that input has no counterpart in this model and the
    function stops with [IllTyped] on it.  Every statement about
    [createFromDictionary] is about dictionaries with a capacity for
    each hospital. *)
Fixpoint make_hospital_dict (names : list string) (capacities : capacity_dict)
    (dict : list (string * value)) : M (list (string * value)) :=
  match names with
  | [] => ret dict
  | n :: rest =>
      match record_get n capacities with
      | Some cap =>
          c <- alloc (HospitalObj (Hospital.new IsHospital n cap)) ;;
          make_hospital_dict rest capacities (record_set n c dict)
      | None => throw IllTyped
      end
  end.

(** hospital-resident.ts [makePlayers] *)
Definition HR_makePlayers (residentPrefs hospitalPrefs : prefs_dict) (capacities : capacity_dict)
    : M (list value * list value) :=
  residentDict <- make_dict (map fst residentPrefs) [] ;;
  hospitalDict <- make_hospital_dict (map fst hospitalPrefs) capacities [] ;;
  set_dict_prefs residentDict hospitalDict residentPrefs ;;
  set_dict_prefs hospitalDict residentDict hospitalPrefs ;;
  ret (map snd residentDict, map snd hospitalDict).

(** hospital-resident.ts [createFromDictionaries] *)
Definition HospitalResident_createFromDictionaries
    (residentPrefs hospitalPrefs : prefs_dict) (capacities : capacity_dict) (clean : bool)
    : M (HospitalResident.t * list warning) :=
  players <- HR_makePlayers residentPrefs hospitalPrefs capacities ;;
  HospitalResident_new (fst players) (snd players) clean.

(** hospital-resident.ts [solve] *)
Definition HospitalResident_solve (fuel : nat) (g : HospitalResident.t) (optimal : HROptimal)
    : M HospitalResident.t :=
  result <- hospitalResident fuel (HospitalResident.residents g)
              (HospitalResident.hospitals g) optimal ;;
  ret (HospitalResident.mk (HospitalResident.residents g) (HospitalResident.hospitals g)
         (HospitalResident.clean g) (Some (MultipleMatching result))
         (HospitalResident.blockingPairs g)
         (HospitalResident._allResidents g) (HospitalResident._allHospitals g)).

(* ================================================================== *)
(** ** Stability checks of the two-sided games *)
(* ================================================================== *)

(** [a && b] where [b] may throw: [b] runs only if [a] is true. *)
Definition andM (a : M bool) (b : M bool) : M bool :=
  x <- a ;; if x then b else ret false.

(** [a || b] where [b] may throw: [b] runs only if [a] is false. *)
Definition orM (a : M bool) (b : M bool) : M bool :=
  x <- a ;; if x then ret true else b.

(** The double [for] shared by the [checkStability] methods: the pairs
    [(x, y)] for which [blocks x y] holds, in iteration order. *)
Fixpoint blocking_inner (blocks : value -> value -> M bool) (x : value) (ys : list value)
    (blockingPairs : list (value * value)) : M (list (value * value)) :=
  match ys with
  | [] => ret blockingPairs
  | y :: rest =>
      b <- blocks x y ;;
      blocking_inner blocks x rest (if b then blockingPairs ++ [(x, y)] else blockingPairs)
  end.

Fixpoint blocking_outer (blocks : value -> value -> M bool) (xs ys : list value)
    (blockingPairs : list (value * value)) : M (list (value * value)) :=
  match xs with
  | [] => ret blockingPairs
  | x :: rest =>
      bp <- blocking_inner blocks x ys blockingPairs ;;
      blocking_outer blocks rest ys bp
  end.

(** The condition of the [if] in stable-marriage.ts [checkStability]. *)
Definition SM_blocks (suitor reviewer : value) : M bool :=
  s <- getPlayer "matching" suitor ;;
  if negb (truthy (Player.matching s)) then ret false
  else
    r <- getPlayer "matching" reviewer ;;
    if negb (truthy (Player.matching r)) then ret false
    else
      andM (prefers suitor reviewer (Player.matching s))
           (prefers reviewer suitor (Player.matching r)).

(** stable-marriage.ts [checkStability] *)
Definition StableMarriage_checkStability (game : StableMarriage.t)
    : M (bool * StableMarriage.t) :=
  blockingPairs <- blocking_outer SM_blocks (StableMarriage.suitors game)
                     (StableMarriage.reviewers game) [] ;;
  ret (Nat.eqb (List.length blockingPairs) 0,
       StableMarriage.mk (StableMarriage.suitors game) (StableMarriage.reviewers game)
         (StableMarriage.matching game) (Some blockingPairs)).

(** hospital-resident.ts [checkMutualPreference] *)
Definition checkMutualPreference (resident hospital : value) : M bool :=
  andM (prefs_include "prefs" hospital resident)
       (prefs_include "prefs" resident hospital).

(** hospital-resident.ts [checkResidentUnhappy] *)
Definition checkResidentUnhappy (resident hospital : value) : M bool :=
  r <- getPlayer "matching" resident ;;
  if value_eqb (Player.matching r) null then ret true
  else prefers resident hospital (Player.matching r).

(** hospital-resident.ts [checkHospitalUnhappy] *)
Definition checkHospitalUnhappy (resident hospital : value) : M bool :=
  x <- getHospital "matching" hospital ;;
  if (Z.of_nat (List.length (Hospital.matching x)) <? Hospital.capacity x)%Z then ret true
  else someM (fun m => prefers hospital resident m) (Hospital.matching x).

(** The condition of the [if] in hospital-resident.ts [checkStability]. *)
Definition HR_blocks (resident hospital : value) : M bool :=
  andM (checkMutualPreference resident hospital)
       (andM (checkResidentUnhappy resident hospital)
             (checkHospitalUnhappy resident hospital)).

(** hospital-resident.ts [checkStability] *)
Definition HospitalResident_checkStability (g : HospitalResident.t)
    : M (bool * HospitalResident.t) :=
  blockingPairs <- blocking_outer HR_blocks (HospitalResident.residents g)
                     (HospitalResident.hospitals g) [] ;;
  ret (Nat.eqb (List.length blockingPairs) 0,
       HospitalResident.mk (HospitalResident.residents g) (HospitalResident.hospitals g)
         (HospitalResident.clean g) (HospitalResident.matching g) (Some blockingPairs)
         (HospitalResident._allResidents g) (HospitalResident._allHospitals g)).

(* ================================================================== *)
(** ** games/student-allocation.ts: the stability check *)
(* ================================================================== *)

Module StudentAllocation.
Record t : Type := mk {
  students : list value;
  projects : list value;
  supervisors : list value;
  clean : bool;
  matching : option (jsmap (list value));
  blockingPairs : option (list (value * value))
}.
End StudentAllocation.

(** student-allocation.ts [checkStudentUnhappy] *)
Definition checkStudentUnhappy (student project : value) : M bool :=
  s <- getPlayer "matching" student ;;
  if value_eqb (Player.matching s) null then ret true
  else prefers student project (Player.matching s).

(** student-allocation.ts [checkProjectUnhappy] *)
Definition checkProjectUnhappy (project student : value) : M bool :=
  p <- getHospital "supervisor" project ;;
  let supervisor := Hospital.supervisor p in
  u <- getHospital "matching" supervisor ;;
  let projectUndersubscribed :=
    (Z.of_nat (List.length (Hospital.matching p)) <? Hospital.capacity p)%Z in
  let bothUndersubscribed :=
    projectUndersubscribed
    && (Z.of_nat (List.length (Hospital.matching u)) <? Hospital.capacity u)%Z in
  let supervisorFull :=
    (Z.of_nat (List.length (Hospital.matching u)) =? Hospital.capacity u)%Z in
  s <- getPlayer "matching" student ;;
  swapAvailable <-
    orM (ret (includes (Hospital.matching u) student
              && negb (value_eqb (Player.matching s) project)))
        (if negb (value_eqb (Hospital.getWorstMatch u) null)
         then prefers supervisor student (Hospital.getWorstMatch u)
         else ret false) ;;
  projectUpsettingSupervisor <-
    (if (Z.of_nat (List.length (Hospital.matching p)) =? Hospital.capacity p)%Z
        && negb (value_eqb (Hospital.getWorstMatch p) null)
     then prefers supervisor student (Hospital.getWorstMatch p)
     else ret false) ;;
  ret (bothUndersubscribed
       || (projectUndersubscribed && supervisorFull && swapAvailable)
       || projectUpsettingSupervisor).

(** The condition of the [if] in student-allocation.ts [checkStability]. *)
Definition SA_blocks (student project : value) : M bool :=
  andM (prefs_include "prefs" student project)
       (andM (checkStudentUnhappy student project)
             (checkProjectUnhappy project student)).

(** student-allocation.ts [checkStability] *)
Definition StudentAllocation_checkStability (g : StudentAllocation.t)
    : M (bool * StudentAllocation.t) :=
  blockingPairs <- blocking_outer SA_blocks (StudentAllocation.students g)
                     (StudentAllocation.projects g) [] ;;
  ret (Nat.eqb (List.length blockingPairs) 0,
       StudentAllocation.mk (StudentAllocation.students g) (StudentAllocation.projects g)
         (StudentAllocation.supervisors g) (StudentAllocation.clean g)
         (StudentAllocation.matching g) (Some blockingPairs)).

(* ================================================================== *)
(** ** algorithms/student-allocation.ts *)
(* ================================================================== *)

Inductive SAOptimal : Type := student_optimal | supervisor_optimal.

(** student-allocation.ts [unmatchPair] *)
Definition SA_unmatchPair (student project : value) : M unit :=
  _unmatch student undefined ;;
  _unmatch project student.

(** The [if (successor.prefs.length === 0)] at the end of both [for]
    loops over successors in [studentOptimal]. *)
Definition drop_if_exhausted (successor : value) (freeStudents : list value)
    : M (list value) :=
  o <- load "prefs" successor ;;
  ret (if Nat.eqb (List.length (obj_prefs o)) 0 && includes freeStudents successor
       then remove_first successor freeStudents
       else freeStudents).

(** The [for] over [project.getSuccessors()] in [studentOptimal]. *)
Fixpoint studentOptimal_delete (project : value) (successors freeStudents : list value)
    : M (list value) :=
  match successors with
  | [] => ret freeStudents
  | successor :: rest =>
      deletePair project successor ;;
      freeStudents <- drop_if_exhausted successor freeStudents ;;
      studentOptimal_delete project rest freeStudents
  end.

(** The [for] over [supervisor.getSuccessors()] in [studentOptimal]. *)
Fixpoint studentOptimal_delete_supervisor (supervisor : value)
    (successors freeStudents : list value) : M (list value) :=
  match successors with
  | [] => ret freeStudents
  | successor :: rest =>
      u <- getHospital "projects" supervisor ;;
      supervisorProjects <-
        filterM (fun p => prefs_include "prefs" successor p) (Hospital.projects u) ;;
      forEach supervisorProjects (fun proj => deletePair proj successor) ;;
      freeStudents <- drop_if_exhausted successor freeStudents ;;
      studentOptimal_delete_supervisor supervisor rest freeStudents
  end.

(** One iteration of the [while] loop of [studentOptimal], after the [pop]. *)
Definition studentOptimal_step (student : value) (freeStudents : list value)
    : M (list value) :=
  s <- getPlayer "prefs" student ;;
  if Nat.eqb (List.length (Player.prefs s)) 0 then ret freeStudents
  else
    let project := Player.getFavourite s in
    x <- getHospital "supervisor" project ;;
    let supervisor := Hospital.supervisor x in
    matchPair student project ;;
    x <- getHospital "matching" project ;;
    freeStudents <-
      (if (Hospital.capacity x <? Z.of_nat (List.length (Hospital.matching x)))%Z
       then let worst := Hospital.getWorstMatch x in
            SA_unmatchPair worst project ;;
            ret (freeStudents ++ [worst])
       else
         u <- getHospital "matching" supervisor ;;
         if (Hospital.capacity u <? Z.of_nat (List.length (Hospital.matching u)))%Z
         then let worst := Hospital.getWorstMatch u in
              w <- getPlayer "matching" worst ;;
              SA_unmatchPair worst (Player.matching w) ;;
              ret (freeStudents ++ [worst])
         else ret freeStudents) ;;
    x <- getHospital "matching" project ;;
    freeStudents <-
      (if (Z.of_nat (List.length (Hospital.matching x)) =? Hospital.capacity x)%Z
       then studentOptimal_delete project (Hospital.getSuccessors x) freeStudents
       else ret freeStudents) ;;
    u <- getHospital "matching" supervisor ;;
    if (Z.of_nat (List.length (Hospital.matching u)) =? Hospital.capacity u)%Z
    then studentOptimal_delete_supervisor supervisor (Hospital.getSuccessors u) freeStudents
    else ret freeStudents.

Fixpoint studentOptimal_loop (fuel : nat) (freeStudents : list value) : M unit :=
  match fuel with
  | 0 => match freeStudents with [] => ret tt | _ => timeout end
  | S fuel' =>
      match pop freeStudents with
      | None => ret tt
      | Some (student, freeStudents) =>
          freeStudents <- studentOptimal_step student freeStudents ;;
          studentOptimal_loop fuel' freeStudents
      end
  end.

(** student-allocation.ts [studentOptimal] *)
Definition studentOptimal (fuel : nat) (students projects : list value)
    : M (jsmap (list value)) :=
  studentOptimal_loop fuel students ;;
  multiple_result projects [].

(** supervisor.ts:65, the inner [for (const pref of student.prefs)] of
    [getFavouriteStudentProject]. *)
Fixpoint favourite_project (u : Hospital.t) (student : value) (prefs : list value)
    : M (option (value * value)) :=
  match prefs with
  | [] => ret None
  | pref :: rest =>
      match find (fun p => value_eqb p pref) (Hospital.projects u) with
      | Some project =>
          if truthy project
          then
            x <- getHospital "matching" project ;;
            if negb (includes (Hospital.matching x) student)
               && (Z.of_nat (List.length (Hospital.matching x)) <? Hospital.capacity x)%Z
            then ret (Some (student, project))
            else favourite_project u student rest
          else favourite_project u student rest
      | None => favourite_project u student rest
      end
  end.

(** The outer [for (const student of this.prefs)]. *)
Fixpoint favourite_student (u : Hospital.t) (students : list value)
    : M (option (value * value)) :=
  match students with
  | [] => ret None
  | student :: rest =>
      s <- load "prefs" student ;;
      r <- favourite_project u student (obj_prefs s) ;;
      match r with
      | Some _ => ret r
      | None => favourite_student u rest
      end
  end.

(** supervisor.ts:60 [getFavouriteStudentProject] *)
Definition getFavouriteStudentProject (this : value) : M (option (value * value)) :=
  u <- getHospital "getFavouriteStudentProject" this ;;
  if (Z.of_nat (List.length (Hospital.matching u)) <? Hospital.capacity u)%Z
  then favourite_student u (Hospital.prefs u)
  else ret None.

Definition hasFavourite (s : value) : M bool :=
  f <- getFavouriteStudentProject s ;;
  ret (match f with Some _ => true | None => false end).

(** One iteration of the [while] loop of [supervisorOptimal], after the
    [pop]: the new list of free supervisors. *)
Definition supervisorOptimal_step (supervisors : list value) (supervisor : value)
    (freeSupervisors : list value) : M (list value) :=
  favourite <- getFavouriteStudentProject supervisor ;;
  match favourite with
  | None => ret freeSupervisors
  | Some (student, project) =>
      s <- getPlayer "matching" student ;;
      (if truthy (Player.matching s)
       then SA_unmatchPair student (Player.matching s)
       else ret tt) ;;
      matchPair student project ;;
      successors <- getSuccessors student ;;
      forEach successors (fun successor => deletePair student successor) ;;
      filterM hasFavourite supervisors
  end.

Fixpoint supervisorOptimal_loop (fuel : nat) (supervisors freeSupervisors : list value)
    : M unit :=
  match fuel with
  | 0 => match freeSupervisors with [] => ret tt | _ => timeout end
  | S fuel' =>
      match pop freeSupervisors with
      | None => ret tt
      | Some (supervisor, freeSupervisors) =>
          freeSupervisors <- supervisorOptimal_step supervisors supervisor freeSupervisors ;;
          supervisorOptimal_loop fuel' supervisors freeSupervisors
      end
  end.

(** student-allocation.ts [supervisorOptimal] *)
Definition supervisorOptimal (fuel : nat) (projects supervisors : list value)
    : M (jsmap (list value)) :=
  supervisorOptimal_loop fuel supervisors supervisors ;;
  multiple_result projects [].

(** student-allocation.ts [studentAllocation] *)
Definition studentAllocation (fuel : nat) (students projects supervisors : list value)
    (optimal : SAOptimal) : M (jsmap (list value)) :=
  match optimal with
  | student_optimal => studentOptimal fuel students projects
  | supervisor_optimal => supervisorOptimal fuel projects supervisors
  end.

(* ================================================================== *)
(** ** games/student-allocation.ts: constructor, checks and solve *)
(* ================================================================== *)

(** project.ts:60 [setSupervisor] *)
Definition setSupervisor (this supervisor : value) : M unit :=
  x <- getHospital "setSupervisor" this ;;
  store this (HospitalObj (Hospital.with_supervisor supervisor x)) ;;
  u <- getHospital "projects" supervisor ;;
  if negb (includes (Hospital.projects u) this)
  then store supervisor (HospitalObj (Hospital.with_projects (Hospital.projects u ++ [this]) u))
  else ret tt.

(** [cloneMap.set(x, new Project(x.name, x.capacity))], and the same
    for [Supervisor]. *)
Fixpoint clone_capacitated (k : hospital_class) (players : list value) (cloneMap : jsmap value)
    : M (jsmap value) :=
  match players with
  | [] => ret cloneMap
  | player :: rest =>
      x <- getHospital "name" player ;;
      c <- alloc (HospitalObj (Hospital.new k (Hospital.name x) (Hospital.capacity x))) ;;
      clone_capacitated k rest (map_set player c cloneMap)
  end.

(** The loop "Link projects to supervisors" of the constructor. *)
Definition clone_links (projectCloneMap supervisorCloneMap : jsmap value)
    (projects : list value) : M unit :=
  forEach projects (fun project =>
    let clonedProject := map_get_value project projectCloneMap in
    x <- getHospital "supervisor" project ;;
    if truthy (Hospital.supervisor x)
    then setSupervisor clonedProject
           (map_get_value (Hospital.supervisor x) supervisorCloneMap)
    else ret tt).

Inductive SA_party : Type := students_party | projects_party | supervisors_party.

Definition SA_party_of (g : StudentAllocation.t) (p : SA_party) : list value :=
  match p with
  | students_party => StudentAllocation.students g
  | projects_party => StudentAllocation.projects g
  | supervisors_party => StudentAllocation.supervisors g
  end.

Definition SA_with_students (l : list value) (g : StudentAllocation.t) : StudentAllocation.t :=
  StudentAllocation.mk l (StudentAllocation.projects g) (StudentAllocation.supervisors g)
    (StudentAllocation.clean g) (StudentAllocation.matching g)
    (StudentAllocation.blockingPairs g).

Definition SA_with_projects (l : list value) (g : StudentAllocation.t) : StudentAllocation.t :=
  StudentAllocation.mk (StudentAllocation.students g) l (StudentAllocation.supervisors g)
    (StudentAllocation.clean g) (StudentAllocation.matching g)
    (StudentAllocation.blockingPairs g).

Definition SA_with_supervisors (l : list value) (g : StudentAllocation.t)
    : StudentAllocation.t :=
  StudentAllocation.mk (StudentAllocation.students g) (StudentAllocation.projects g) l
    (StudentAllocation.clean g) (StudentAllocation.matching g)
    (StudentAllocation.blockingPairs g).

(** [for (const other of others) if (other.prefs.includes(player)) other._forget(player)] *)
Definition forget_everywhere (others : list value) (player : value) : M unit :=
  forEach others (fun other =>
    ranked <- prefs_include "prefs" other player ;;
    if ranked then _forget other player else ret tt).

(** student-allocation.ts [removePlayerSA], the branch for a project. *)
Definition removeProject (g : StudentAllocation.t) (project : value)
    : M StudentAllocation.t :=
  let g := SA_with_projects (remove_value project (StudentAllocation.projects g)) g in
  forget_everywhere (StudentAllocation.students g) project ;;
  ret g.

(** The branch for a student. *)
Definition removeStudent (g : StudentAllocation.t) (student : value)
    : M StudentAllocation.t :=
  let g := SA_with_students (remove_value student (StudentAllocation.students g)) g in
  forget_everywhere (StudentAllocation.projects g) student ;;
  ret g.

Fixpoint removeProjects (g : StudentAllocation.t) (projects : list value)
    : M StudentAllocation.t :=
  match projects with
  | [] => ret g
  | project :: rest =>
      g <- removeProject g project ;;
      removeProjects g rest
  end.

(** The branch for a supervisor: its projects are removed as well. *)
Definition removeSupervisor (g : StudentAllocation.t) (supervisor : value)
    : M StudentAllocation.t :=
  let g := SA_with_supervisors (remove_value supervisor (StudentAllocation.supervisors g)) g in
  u <- getHospital "projects" supervisor ;;
  removeProjects g (Hospital.projects u).

(** student-allocation.ts [removePlayerSA] *)
Definition removePlayerSA (g : StudentAllocation.t) (player : value) (playerParty : SA_party)
    : M StudentAllocation.t :=
  match playerParty with
  | supervisors_party => removeSupervisor g player
  | projects_party => removeProject g player
  | students_party => removeStudent g player
  end.

(** A loop over a party that may remove members from the game. *)
Fixpoint forEachSA (l : list value) (g : StudentAllocation.t)
    (body : StudentAllocation.t -> value -> M StudentAllocation.t) : M StudentAllocation.t :=
  match l with
  | [] => ret g
  | x :: l' => g <- body g x ;; forEachSA l' g body
  end.

(** student-allocation.ts [checkInputsPlayerPrefsNonemptyGeneric] *)
Definition checkInputsPlayerPrefsNonemptyGeneric (g : StudentAllocation.t) (p : SA_party)
    : M StudentAllocation.t :=
  forEachSA (SA_party_of g p) g (fun g player =>
    o <- load "prefs" player ;;
    if Nat.eqb (List.length (obj_prefs o)) 0 && StudentAllocation.clean g
    then removePlayerSA g player p
    else ret g).

(** student-allocation.ts [checkInputsPlayerCapacityGeneric] *)
Definition checkInputsPlayerCapacityGeneric (g : StudentAllocation.t) (p : SA_party)
    : M StudentAllocation.t :=
  forEachSA (SA_party_of g p) g (fun g player =>
    x <- getHospital "capacity" player ;;
    if (Hospital.capacity x <? 1)%Z && StudentAllocation.clean g
    then removePlayerSA g player p
    else ret g).

(** [checkInputsPlayerPrefsAllReciprocatedSA], the branch
    [party === 'supervisors']. *)
Definition supervisorsPrefsAllReciprocated (clean : bool) (supervisors : list value)
    : M (list warning) :=
  forEachW supervisors (fun supervisor =>
    u <- load "prefs" supervisor ;;
    forEachW (obj_prefs u) (fun student =>
      s <- load "prefs" student ;;
      studentPrefsSupervisors <-
        mapM (fun p => x <- getHospital "supervisor" p ;; ret (Hospital.supervisor x))
             (obj_prefs s) ;;
      if negb (includes studentPrefsSupervisors supervisor)
      then (if clean
            then u <- getHospital "projects" supervisor ;;
                 forEach (Hospital.projects u) (fun project => _forget project student)
            else ret tt) ;;
           ret [PreferencesChangedWarning supervisor student]
      else ret [])).

(** [checkInputsPlayerReciprocatedAllPrefsSA], the branch
    [party === 'supervisors']. *)
Definition supervisorsReciprocatedAllPrefs (clean : bool) (supervisors students : list value)
    : M (list warning) :=
  forEachW supervisors (fun supervisor =>
    studentsThatRanked <-
      filterM (fun student =>
                 u <- getHospital "projects" supervisor ;;
                 someM (fun project => prefs_include "prefs" student project)
                       (Hospital.projects u))
              students ;;
    forEachW studentsThatRanked (fun student =>
      ranked <- prefs_include "prefs" supervisor student ;;
      if negb ranked
      then (if clean
            then u <- getHospital "projects" supervisor ;;
                 projectsInCommon <-
                   filterM (fun p => prefs_include "prefs" student p) (Hospital.projects u) ;;
                 forEach projectsInCommon (fun project => _forget student project)
            else ret tt) ;;
           ret [PreferencesChangedWarning student supervisor]
      else ret [])).

(** student-allocation.ts [checkInputsSupervisorCapacitiesSufficient] *)
Definition checkInputsSupervisorCapacitiesSufficient (clean : bool) (supervisors : list value)
    : M (list warning) :=
  forEachW supervisors (fun supervisor =>
    u <- getHospital "projects" supervisor ;;
    forEachW (Hospital.projects u) (fun project =>
      x <- getHospital "capacity" project ;;
      u <- getHospital "capacity" supervisor ;;
      if (Hospital.capacity u <? Hospital.capacity x)%Z
      then (if clean
            then store project (HospitalObj (Hospital.with_capacity (Hospital.capacity u) x))
            else ret tt) ;;
           ret [CapacityChangedWarning project]
      else ret [])).

(** [supervisor.projects.reduce((sum, p) => sum + p.capacity, 0)] *)
Fixpoint totalCapacity (projects : list value) (sum : Z) : M Z :=
  match projects with
  | [] => ret sum
  | p :: rest =>
      x <- getHospital "capacity" p ;;
      totalCapacity rest (sum + Hospital.capacity x)%Z
  end.

(** student-allocation.ts [checkInputsSupervisorCapacitiesNecessary] *)
Definition checkInputsSupervisorCapacitiesNecessary (clean : bool) (supervisors : list value)
    : M (list warning) :=
  forEachW supervisors (fun supervisor =>
    u <- getHospital "projects" supervisor ;;
    totalProjectCapacity <- totalCapacity (Hospital.projects u) 0%Z ;;
    if (totalProjectCapacity <? Hospital.capacity u)%Z
    then (if clean
          then store supervisor (HospitalObj (Hospital.with_capacity totalProjectCapacity u))
          else ret tt) ;;
         ret [CapacityChangedWarning supervisor]
    else ret []).

(** student-allocation.ts [checkInputsPlayerPrefsUniqueGeneric] and
    [checkInputsPlayerPrefsAllInPartyGeneric]: the loops are those of the
    Hospital-Resident methods, run over the lists of the named parties. *)
Definition checkInputsPlayerPrefsUniqueGeneric (g : StudentAllocation.t) (p : SA_party)
    : M (list warning) :=
  checkInputsPlayerPrefsUnique (StudentAllocation.clean g) (SA_party_of g p).

Definition checkInputsPlayerPrefsAllInPartyGeneric (g : StudentAllocation.t)
    (p otherParty : SA_party) : M (list warning) :=
  checkInputsPlayerPrefsAllInParty (StudentAllocation.clean g)
    (SA_party_of g p) (SA_party_of g otherParty).

(** student-allocation.ts [checkInputsPlayerPrefsAllReciprocatedSA]; the
    [else] branch is the loop of the Hospital-Resident method over the
    projects. *)
Definition checkInputsPlayerPrefsAllReciprocatedSA (g : StudentAllocation.t) (p : SA_party)
    : M (list warning) :=
  match p with
  | supervisors_party =>
      supervisorsPrefsAllReciprocated (StudentAllocation.clean g)
        (StudentAllocation.supervisors g)
  | _ =>
      checkInputsPlayerPrefsAllReciprocated (StudentAllocation.clean g)
        (StudentAllocation.projects g)
  end.

(** student-allocation.ts [checkInputsPlayerReciprocatedAllPrefsSA] *)
Definition checkInputsPlayerReciprocatedAllPrefsSA (g : StudentAllocation.t) (p : SA_party)
    : M (list warning) :=
  match p with
  | supervisors_party =>
      supervisorsReciprocatedAllPrefs (StudentAllocation.clean g)
        (StudentAllocation.supervisors g) (StudentAllocation.students g)
  | _ =>
      checkInputsPlayerReciprocatedAllPrefs (StudentAllocation.clean g)
        (StudentAllocation.projects g) (StudentAllocation.students g)
  end.

(** student-allocation.ts [checkInputs], in the order of the source;
    the warnings are returned beside the game. *)
Definition SA_checkInputs (g : StudentAllocation.t)
    : M (StudentAllocation.t * list warning) :=
  w1 <- checkInputsPlayerPrefsUniqueGeneric g students_party ;;
  w2 <- checkInputsPlayerPrefsUniqueGeneric g projects_party ;;
  w3 <- checkInputsPlayerPrefsUniqueGeneric g supervisors_party ;;
  w4 <- checkInputsPlayerPrefsAllInPartyGeneric g students_party projects_party ;;
  g <- checkInputsPlayerPrefsNonemptyGeneric g students_party ;;
  w5 <- checkInputsPlayerPrefsAllInPartyGeneric g supervisors_party students_party ;;
  g <- checkInputsPlayerPrefsNonemptyGeneric g supervisors_party ;;
  w6 <- checkInputsPlayerPrefsAllReciprocatedSA g projects_party ;;
  w7 <- checkInputsPlayerReciprocatedAllPrefsSA g projects_party ;;
  g <- checkInputsPlayerPrefsNonemptyGeneric g projects_party ;;
  w8 <- checkInputsPlayerPrefsAllReciprocatedSA g supervisors_party ;;
  w9 <- checkInputsPlayerReciprocatedAllPrefsSA g supervisors_party ;;
  g <- checkInputsPlayerPrefsNonemptyGeneric g supervisors_party ;;
  g <- checkInputsPlayerCapacityGeneric g projects_party ;;
  g <- checkInputsPlayerCapacityGeneric g supervisors_party ;;
  w10 <- checkInputsSupervisorCapacitiesSufficient (StudentAllocation.clean g)
           (StudentAllocation.supervisors g) ;;
  w11 <- checkInputsSupervisorCapacitiesNecessary (StudentAllocation.clean g)
           (StudentAllocation.supervisors g) ;;
  ret (g, w1 ++ w2 ++ w3 ++ w4 ++ w5 ++ w6 ++ w7 ++ w8 ++ w9 ++ w10 ++ w11).

(** student-allocation.ts [constructor] *)
Definition StudentAllocation_new (students projects supervisors : list value) (clean : bool)
    : M (StudentAllocation.t * list warning) :=
  studentCloneMap <- clone_players students [] ;;
  projectCloneMap <- clone_capacitated IsProject projects [] ;;
  supervisorCloneMap <- clone_capacitated IsSupervisor supervisors [] ;;
  clone_links projectCloneMap supervisorCloneMap projects ;;
  clone_prefs studentCloneMap projectCloneMap students ;;
  clone_prefs supervisorCloneMap studentCloneMap supervisors ;;
  let ss := map (fun s => map_get_value s studentCloneMap) students in
  let ps := map (fun p => map_get_value p projectCloneMap) projects in
  let us := map (fun u => map_get_value u supervisorCloneMap) supervisors in
  SA_checkInputs (StudentAllocation.mk ss ps us clean None None).

(** [for (const name of ..) dict.set(name, new Project(name, capacities[name]!))].
    As in [make_hospital_dict]: a project without an entry in [capacities]
    has the capacity [undefined] in the source, a value the integer
    capacities of this model do not have, and the function stops with
    [IllTyped] on it. *)
Fixpoint make_capacitated_dict (k : hospital_class) (names : list string)
    (capacities : capacity_dict) (dict : list (string * value)) : M (list (string * value)) :=
  match names with
  | [] => ret dict
  | n :: rest =>
      match record_get n capacities with
      | Some cap =>
          c <- alloc (HospitalObj (Hospital.new k n cap)) ;;
          make_capacitated_dict k rest capacities (record_set n c dict)
      | None => throw IllTyped
      end
  end.

(** [for (const [name, capacity] of Object.entries(supervisorCapacities))
       supervisorDict.set(name, new Supervisor(name, capacity))] *)
Fixpoint make_supervisor_dict (capacities : capacity_dict) (dict : list (string * value))
    : M (list (string * value)) :=
  match capacities with
  | [] => ret dict
  | (n, cap) :: rest =>
      c <- alloc (HospitalObj (Hospital.new IsSupervisor n cap)) ;;
      make_supervisor_dict rest (record_set n c dict)
  end.

(** The loop "Link projects to supervisors" of [makePlayers]. *)
Definition link_dicts (projectDict supervisorDict : list (string * value))
    (projectSupervisors : list (string * string)) : M unit :=
  forEach projectSupervisors (fun entry =>
    setSupervisor (dict_get (fst entry) projectDict) (dict_get (snd entry) supervisorDict)).

(** student-allocation.ts [makePlayers] *)
Definition SA_makePlayers (studentPrefs supervisorPrefs : prefs_dict)
    (projectSupervisors : list (string * string))
    (projectCapacities supervisorCapacities : capacity_dict)
    : M (list value * list value * list value) :=
  studentDict <- make_dict (map fst studentPrefs) [] ;;
  projectDict <-
    make_capacitated_dict IsProject (map fst projectSupervisors) projectCapacities [] ;;
  supervisorDict <- make_supervisor_dict supervisorCapacities [] ;;
  link_dicts projectDict supervisorDict projectSupervisors ;;
  set_dict_prefs studentDict projectDict studentPrefs ;;
  set_dict_prefs supervisorDict studentDict supervisorPrefs ;;
  ret (map snd studentDict, map snd projectDict, map snd supervisorDict).

(** student-allocation.ts [createFromDictionaries] *)
Definition StudentAllocation_createFromDictionaries
    (studentPrefs supervisorPrefs : prefs_dict) (projectSupervisors : list (string * string))
    (projectCapacities supervisorCapacities : capacity_dict) (clean : bool)
    : M (StudentAllocation.t * list warning) :=
  players <- SA_makePlayers studentPrefs supervisorPrefs projectSupervisors
               projectCapacities supervisorCapacities ;;
  StudentAllocation_new (fst (fst players)) (snd (fst players)) (snd players) clean.

(** student-allocation.ts [solve] *)
Definition StudentAllocation_solve (fuel : nat) (g : StudentAllocation.t) (optimal : SAOptimal)
    : M StudentAllocation.t :=
  result <- studentAllocation fuel (StudentAllocation.students g)
              (StudentAllocation.projects g) (StudentAllocation.supervisors g) optimal ;;
  ret (StudentAllocation.mk (StudentAllocation.students g) (StudentAllocation.projects g)
         (StudentAllocation.supervisors g) (StudentAllocation.clean g)
         (Some (MultipleMatching result)) (StudentAllocation.blockingPairs g)).

(** The README example of the Student-Allocation game. *)
Definition sa_studentPrefs : prefs_dict :=
  [("A", ["P1"; "P2"]); ("B", ["P2"; "P1"]); ("C", ["P1"])].
Definition sa_supervisorPrefs : prefs_dict := [("S1", ["A"; "B"; "C"])].
Definition sa_projectSupervisors : list (string * string) := [("P1", "S1"); ("P2", "S1")].
Definition sa_projectCapacities : capacity_dict := [("P1", 2%Z); ("P2", 1%Z)].
Definition sa_supervisorCapacities : capacity_dict := [("S1", 3%Z)].

(* ================================================================== *)
(** ** Instances and predicates used in the properties *)
(* ================================================================== *)

(** The four-player instance with a stable solution (README, tests). *)
Definition sr_stable_prefs : prefs_dict :=
  [("A", ["B"; "C"; "D"]); ("B", ["A"; "C"; "D"]);
   ("C", ["A"; "B"; "D"]); ("D", ["A"; "B"; "C"])].

(** The classic four-player instance without a stable solution (tests). *)
Definition sr_unstable_prefs : prefs_dict :=
  [("A", ["B"; "C"; "D"]); ("B", ["C"; "A"; "D"]);
   ("C", ["A"; "B"; "D"]); ("D", ["A"; "B"; "C"])].

(** A six-player instance on which the second phase stops early. *)
Definition sr_six_prefs : prefs_dict :=
  [("A", ["D"; "E"; "C"; "B"; "F"]); ("B", ["E"; "F"; "D"; "C"; "A"]);
   ("C", ["E"; "F"; "B"; "D"; "A"]); ("D", ["F"; "E"; "A"; "B"; "C"]);
   ("E", ["A"; "F"; "C"; "D"; "B"]); ("F", ["C"; "E"; "D"; "A"; "B"])].

(** Symmetry of a one-to-one result map: whoever is matched to a player
    is that player's match. *)
Definition symmetric_matching (m : jsmap value) : Prop :=
  forall a b : value, map_get a m = Some b -> truthy b = true -> map_get b m = Some a.

Definition symmetric_matchingb (m : jsmap value) : bool :=
  forallb (fun kv =>
    if truthy (snd kv)
    then match map_get (snd kv) m with
         | Some v => value_eqb v (fst kv)
         | None => false
         end
    else true) m.

(** Create a game from a dictionary and solve it: the game, the warnings
    and the record form of the matching. *)
Definition SR_create_and_solve (fuel : nat) (playerPrefs : prefs_dict)
    : M (StableRoommates.t * list warning * list (string * option string)) :=
  game <- StableRoommates_createFromDictionary playerPrefs ;;
  gw <- StableRoommates_solve fuel game ;;
  record <- matching_record (StableRoommates.matching (fst gw)) ;;
  ret (fst gw, snd gw, record).

(** A hospital's realized match count is within its capacity. *)
Definition within_capacity (x : Hospital.t) : Prop :=
  (Z.of_nat (List.length (Hospital.matching x)) <= Hospital.capacity x)%Z.

(** Create a Hospital-Resident game from dictionaries and solve it. *)
Definition HR_create_and_solve (fuel : nat) (residentPrefs hospitalPrefs : prefs_dict)
    (capacities : capacity_dict) (clean : bool) (optimal : HROptimal)
    : M (HospitalResident.t * list warning) :=
  gw <- HospitalResident_createFromDictionaries residentPrefs hospitalPrefs capacities clean ;;
  g <- HospitalResident_solve fuel (fst gw) optimal ;;
  ret (g, snd gw).

(* ------------------------------------------------------------------ *)
(** *** Well-formed Hospital-Resident states *)

(** The object a value refers to, if any. *)
Definition obj_at (h : heap) (v : value) : option obj :=
  match v with
  | ref a => nth_error h a
  | _ => None
  end.

(** The matches and the capacity of the hospital [v] refers to. *)
Definition hmatching (h : heap) (v : value) : list value :=
  match obj_at h v with
  | Some (HospitalObj x) => Hospital.matching x
  | _ => []
  end.

Definition hcapacity (h : heap) (v : value) : Z :=
  match obj_at h v with
  | Some (HospitalObj x) => Hospital.capacity x
  | _ => 0%Z
  end.

(** The current match of the single-match player [v] refers to. *)
Definition pmatching (h : heap) (v : value) : value :=
  match obj_at h v with
  | Some (PlayerObj p) => Player.matching p
  | _ => null
  end.

(** [r] is a [Player] that ranks members of [hospitals] only and is
    unmatched or matched to one of them. *)
Definition resident_ok (h : heap) (hospitals : list value) (r : value) : bool :=
  match obj_at h r with
  | Some (PlayerObj p) =>
      forallb (includes hospitals) (Player.prefs p)
      && (value_eqb (Player.matching p) null || includes hospitals (Player.matching p))
  | _ => false
  end.

(** [x] is a plain [Hospital] that ranks, and is matched to, members of
    [residents] only. *)
Definition hospital_ok (h : heap) (residents : list value) (x : value) : bool :=
  match obj_at h x with
  | Some (HospitalObj o) =>
      match Hospital.cls o with IsHospital => true | _ => false end
      && forallb (includes residents) (Hospital.prefs o)
      && forallb (includes residents) (Hospital.matching o)
  | _ => false
  end.

(** The entities of a Hospital-Resident game are of the classes the
    engine casts them to, and refer to each other only. *)
Definition HR_wf (h : heap) (residents hospitals : list value) : bool :=
  forallb (resident_ok h hospitals) residents
  && forallb (hospital_ok h residents) hospitals.

(** Every hospital of the list has a capacity of at least one. *)
Definition capacities_positive (h : heap) (hospitals : list value) : bool :=
  forallb (fun x => (1 <=? hcapacity h x)%Z) hospitals.

(** Every hospital of the list holds at most [capacity] matches. *)
Definition capacity_respected (h : heap) (hospitals : list value) : bool :=
  forallb (fun x => (Z.of_nat (List.length (hmatching h x)) <=? hcapacity h x)%Z) hospitals.

(** Nobody is matched yet: the state a constructor leaves. *)
Definition all_unmatched (h : heap) (residents hospitals : list value) : bool :=
  forallb (fun r => value_eqb (pmatching h r) null) residents
  && forallb (fun x => Nat.eqb (List.length (hmatching h x)) 0) hospitals.

Fixpoint nodupb (l : list value) : bool :=
  match l with
  | [] => true
  | x :: l' => negb (includes l' x) && nodupb l'
  end.

(** The state in which a Hospital-Resident game is handed to [solve]. *)
Definition HR_ready (h : heap) (residents hospitals : list value) : bool :=
  HR_wf h residents hospitals
  && all_unmatched h residents hospitals
  && capacities_positive h hospitals
  && nodupb hospitals.

(** The same conditions as propositions. *)
Definition resident_wf (h : heap) (hospitals : list value) (r : value) : Prop :=
  exists p, obj_at h r = Some (PlayerObj p)
    /\ incl (Player.prefs p) hospitals
    /\ (Player.matching p = null \/ In (Player.matching p) hospitals).

Definition hospital_wf (h : heap) (residents : list value) (x : value) : Prop :=
  exists o, obj_at h x = Some (HospitalObj o)
    /\ Hospital.cls o = IsHospital
    /\ incl (Hospital.prefs o) residents
    /\ incl (Hospital.matching o) residents.

Definition HR_wfP (h : heap) (residents hospitals : list value) : Prop :=
  (forall r, In r residents -> resident_wf h hospitals r)
  /\ (forall x, In x hospitals -> hospital_wf h residents x).

Definition capacities_positiveP (h : heap) (hospitals : list value) : Prop :=
  forall x, In x hospitals -> (1 <= hcapacity h x)%Z.

Definition capacity_respectedP (h : heap) (hospitals : list value) : Prop :=
  forall x, In x hospitals -> (Z.of_nat (List.length (hmatching h x)) <= hcapacity h x)%Z.

(** The Hospital-Resident example of the test suite, as constructed from
    its dictionaries in an empty heap (clean mode off). *)
Definition hr_example : outcome (HospitalResident.t * list warning) * heap :=
  HospitalResident_createFromDictionaries
    [("A", ["X"; "Y"]); ("B", ["Y"; "X"]); ("C", ["X"; "Y"])]
    [("X", ["A"; "C"; "B"]); ("Y", ["B"; "A"; "C"])]
    [("X", 2%Z); ("Y", 1%Z)] false [].

Definition hr_example_heap : heap := snd hr_example.

Definition hr_example_residents : list value :=
  match fst hr_example with
  | Ok gw => HospitalResident.residents (fst gw)
  | _ => []
  end.

Definition hr_example_hospitals : list value :=
  match fst hr_example with
  | Ok gw => HospitalResident.hospitals (fst gw)
  | _ => []
  end.

(** The one-hospital instance whose hospital has capacity 0. *)
Definition hr_zero : outcome (HospitalResident.t * list warning) * heap :=
  HospitalResident_createFromDictionaries
    [("A", ["X"])] [("X", ["A"])] [("X", 0%Z)] false [].

(* ------------------------------------------------------------------ *)
(** *** Ranks and sortedness of a capacitated entity's matches *)

(** [a] is ranked no later than [b] in [l] (absent entries have rank -1). *)
Definition rank_le (l : list value) (a b : value) : Prop :=
  (indexOf l a <= indexOf l b)%Z.

(** [l] is [o] with some entries deleted, order kept. *)
Fixpoint subseqb (l o : list value) : bool :=
  match o with
  | [] => match l with [] => true | _ => false end
  | y :: o' =>
      match l with
      | [] => true
      | x :: l' => if value_eqb x y then subseqb l' o' else subseqb l o'
      end
  end.

(** A hospital that ranks three residents, forgets the last one, and is
    then matched to the forgotten one and to its first choice. *)
Definition c7_hospital : Hospital.t :=
  Hospital._match (ref 0)
    (Hospital._match (ref 2)
       (Hospital._forget (ref 2)
          (Hospital.setPrefs [ref 0; ref 1; ref 2] ["A"; "B"; "C"]
             (Hospital.new IsHospital "H" 2)))).

(** A hospital that ranks three residents and is matched to the third
    and then to the first. *)
Definition c7_regular_hospital : Hospital.t :=
  Hospital._match (ref 2)
    (Hospital.setPrefs [ref 0; ref 1; ref 2] ["A"; "B"; "C"]
       (Hospital.new IsHospital "H" 2)).

(** A heap with one supervisor (without projects) and two students, and
    the effect of two successive [setPrefs] calls on an entity. *)
Definition c6_heap : heap :=
  [HospitalObj (Hospital.new IsSupervisor "S" 2);
   PlayerObj (Player.new "A"); PlayerObj (Player.new "B");
   HospitalObj (Hospital.new IsHospital "H" 2);
   HospitalObj (Hospital.new IsProject "P" 2);
   PlayerObj (Player.new "R")].

Definition setPrefs_twice (this : value) (first second : list value) : M unit :=
  setPrefs this first ;; setPrefs this second.

(** [x._originalPrefs] for an entity of any class. *)
Definition originalPrefs_at (h : heap) (v : value) : option (list value) :=
  match obj_at h v with
  | Some (PlayerObj p) => Player._originalPrefs p
  | Some (HospitalObj x) => Hospital._originalPrefs x
  | None => None
  end.

(* ------------------------------------------------------------------ *)
(** *** States in which the stability checks are run *)

(** [v] is a [Player] whose ranking has been set. *)
Definition player_with_prefs (h : heap) (v : value) : bool :=
  match obj_at h v with
  | Some (PlayerObj p) =>
      match Player._originalPrefs p with Some _ => true | None => false end
  | _ => false
  end.

(** [v] is a [Hospital] (of any subclass) whose ranking has been set. *)
Definition hospital_with_prefs (h : heap) (v : value) : bool :=
  match obj_at h v with
  | Some (HospitalObj x) =>
      match Hospital._originalPrefs x with Some _ => true | None => false end
  | _ => false
  end.

(** [v] is a project with a ranking whose [supervisor] field refers to
    a supervisor with a ranking. *)
Definition project_with_supervisor (h : heap) (v : value) : bool :=
  match obj_at h v with
  | Some (HospitalObj x) => hospital_with_prefs h (Hospital.supervisor x)
  | _ => false
  end.




Definition SA_game_ok (h : heap) (g : StudentAllocation.t) : bool :=
  forallb (player_with_prefs h) (StudentAllocation.students g)
  && forallb (project_with_supervisor h) (StudentAllocation.projects g).







(** The roommates game of the README right after construction. *)
Definition sr_example : outcome StableRoommates.t * heap :=
  StableRoommates_createFromDictionary sr_stable_prefs [].

(** A student who ranks a project that was never given a supervisor. *)
Definition sa_orphan_heap : heap :=
  [PlayerObj (Player.mk "S" [ref 1] null ["P"] (Some [ref 1]));
   HospitalObj (Hospital.new IsProject "P" 1)].

Definition sa_orphan_game : StudentAllocation.t :=
  StudentAllocation.mk [ref 0] [ref 1] [] false None None.



(* ------------------------------------------------------------------ *)
(** *** Invariants of the hospital-optimal loop, and read-only checks *)

(** The work list holds distinct hospitals with spare capacity. *)
Definition free_hospitals_ok (hospitals : list value) (h : heap) (free : list value) : Prop :=
  NoDup free /\ incl free hospitals
  /\ forall x, In x free -> (Z.of_nat (List.length (hmatching h x)) < hcapacity h x)%Z.

(** A matched resident is listed by the hospital it is matched to. *)
Definition matches_consistent (residents : list value) (h : heap) : Prop :=
  forall r, In r residents -> truthy (pmatching h r) = true ->
            In r (hmatching h (pmatching h r)).

(** [m] returns normally in [h] and leaves [h] as it is. *)
Definition reads {A : Type} (m : M A) (h : heap) : Prop :=
  exists x, m h = (Ok x, h).

(* ------------------------------------------------------------------ *)
(** *** Stable Roommates: the table of preference lists *)

(** The working preference list of the single-match player [v] refers to. *)
Definition pprefs (h : heap) (v : value) : list value :=
  match obj_at h v with
  | Some (PlayerObj p) => Player.prefs p
  | _ => []
  end.

Definition is_player (h : heap) (v : value) : bool :=
  match obj_at h v with
  | Some (PlayerObj _) => true
  | _ => false
  end.

(** [p] is an unmatched [Player] whose list has no repetition, ranks
    members of [players] only, and is reciprocated by everyone on it. *)
Definition SR_player_ready (h : heap) (players : list value) (p : value) : bool :=
  is_player h p
  && value_eqb (pmatching h p) null
  && nodupb (pprefs h p)
  && forallb (includes players) (pprefs h p)
  && forallb (fun q => includes (pprefs h q) p) (pprefs h p).

(** The state in which a Stable Roommates game is handed to [solve]. *)
Definition SR_ready (h : heap) (players : list value) : bool :=
  forallb (SR_player_ready h players) players.

(** The table of the game: everyone is a player ranking players, lists
    have no repetition and are mutually consistent. *)
Definition SR_table (players : list value) (h : heap) : Prop :=
  (forall p, In p players -> is_player h p = true /\ incl (pprefs h p) players)
  /\ (forall p, In p players -> NoDup (pprefs h p))
  /\ (forall p q, In p players -> In q (pprefs h p) -> In p (pprefs h q)).

(** Phase 1: whoever is not waiting to propose, and still has a list, is
    held by the first player on that list. *)
Definition SR_held (players : list value) (h : heap) (free : list value) : Prop :=
  forall p, In p players -> ~ In p free -> pprefs h p <> [] ->
            pmatching h (at_index (pprefs h p) 0) = p.

(** Delete every member of [l] from [prefs]. *)
Definition remove_all (l : list value) (prefs : list value) : list value :=
  filter (fun p => negb (includes l p)) prefs.

(** Two heaps agree on everything the roommates algorithm reads. *)
Definition same_players (h h' : heap) : Prop :=
  forall v, pprefs h' v = pprefs h v /\ pmatching h' v = pmatching h v
            /\ is_player h' v = is_player h v.

(** Every player of the game is unmatched or matched to a player of the game. *)
Definition SR_matches_in (players : list value) (h : heap) : Prop :=
  forall p, In p players -> pmatching h p = null \/ In (pmatching h p) players.

(** The README roommates game: its heap, its players and the outcome of
    the algorithm on them. *)
Definition sr_example_heap : heap := snd sr_example.

Definition sr_example_players : list value :=
  match fst sr_example with
  | Ok g => StableRoommates.players g
  | _ => []
  end.

Definition sr_example_run : outcome (jsmap value * list warning) * heap :=
  stableRoommates 10 sr_example_players sr_example_heap.

Definition sr_example_result : jsmap value :=
  match fst sr_example_run with
  | Ok r => fst r
  | _ => []
  end.

(* ================================================================== *)
(** ** Relocation of the objects a game allocates *)
(* ================================================================== *)

(** Running a constructor in a larger heap allocates the same objects
    at higher addresses.  [sh n d] is the renaming that relates the two
    runs: references below [n] (objects of the caller) are kept, the
    others are moved up by [d]. *)
Definition sh (n d : nat) (v : value) : value :=
  match v with
  | ref a => if Nat.ltb a n then ref a else ref (a + d)
  | _ => v
  end.

(** [v] does not refer to an object of the caller. *)
Definition fresh (n : nat) (v : value) : Prop :=
  match v with
  | ref a => n <= a
  | _ => True
  end.

(** [v] refers to an object of the caller, if to any. *)
Definition callerb (n : nat) (v : value) : bool :=
  match v with
  | ref a => Nat.ltb a n
  | _ => true
  end.

Definition sh_player (n d : nat) (p : Player.t) : Player.t :=
  Player.mk (Player.name p) (map (sh n d) (Player.prefs p)) (sh n d (Player.matching p))
    (Player._prefNames p) (option_map (map (sh n d)) (Player._originalPrefs p)).

Definition sh_hospital (n d : nat) (x : Hospital.t) : Hospital.t :=
  Hospital.mk (Hospital.cls x) (Hospital.name x) (Hospital.capacity x)
    (Hospital._originalCapacity x) (map (sh n d) (Hospital.prefs x)) (Hospital._prefNames x)
    (option_map (map (sh n d)) (Hospital._originalPrefs x))
    (map (sh n d) (Hospital.matching x)) (sh n d (Hospital.supervisor x))
    (map (sh n d) (Hospital.projects x)).

Definition sh_obj (n d : nat) (o : obj) : obj :=
  match o with
  | PlayerObj p => PlayerObj (sh_player n d p)
  | HospitalObj x => HospitalObj (sh_hospital n d x)
  end.

Definition fresh_opt (n : nat) (o : option (list value)) : Prop :=
  match o with
  | Some l => Forall (fresh n) l
  | None => True
  end.

Definition fresh_player (n : nat) (p : Player.t) : Prop :=
  Forall (fresh n) (Player.prefs p) /\ fresh n (Player.matching p)
  /\ fresh_opt n (Player._originalPrefs p).

Definition fresh_hospital (n : nat) (x : Hospital.t) : Prop :=
  Forall (fresh n) (Hospital.prefs x) /\ fresh_opt n (Hospital._originalPrefs x)
  /\ Forall (fresh n) (Hospital.matching x) /\ fresh n (Hospital.supervisor x)
  /\ Forall (fresh n) (Hospital.projects x).

Definition fresh_obj (n : nat) (o : obj) : Prop :=
  match o with
  | PlayerObj p => fresh_player n p
  | HospitalObj x => fresh_hospital n x
  end.

(** The references stored in [o]. *)
Definition obj_refs (o : obj) : list value :=
  match o with
  | PlayerObj p =>
      Player.prefs p ++ [Player.matching p]
      ++ match Player._originalPrefs p with Some l => l | None => [] end
  | HospitalObj x =>
      Hospital.prefs x ++ Hospital.matching x ++ [Hospital.supervisor x]
      ++ Hospital.projects x
      ++ match Hospital._originalPrefs x with Some l => l | None => [] end
  end.

(** A heap without dangling references: every stored reference is to
    one of its own cells. *)
Definition heap_closed (c : heap) : bool :=
  forallb (fun o => forallb (callerb (List.length c)) (obj_refs o)) c.

(** The heaps of two runs of the same code: the caller's part [c] is
    common and untouched; the second run has [X] in between, and its
    game objects are those of the first run, relocated. *)
Definition heap_rel (c X : heap) (H1 H2 : heap) : Prop :=
  exists G,
    H1 = c ++ G
    /\ H2 = c ++ X ++ map (sh_obj (List.length c) (List.length X)) G
    /\ Forall (fresh_obj (List.length c)) G.

(** Two computations that, started in related heaps, end in related
    heaps with the same kind of outcome; normal results are related by
    [shA], and the first satisfies [frA]. *)
Definition rel_run (c X : heap) {A : Type} (shA : A -> A) (frA : A -> Prop)
    (m1 m2 : M A) : Prop :=
  forall H1 H2, heap_rel c X H1 H2 ->
    heap_rel c X (snd (m1 H1)) (snd (m2 H2))
    /\ match fst (m1 H1), fst (m2 H2) with
       | Ok x1, Ok x2 => x2 = shA x1 /\ frA x1
       | Throw e1, Throw e2 => e1 = e2
       | OutOfFuel, OutOfFuel => True
       | _, _ => False
       end.

(** Relocation of the maps, pairs and game objects built from references. *)
Definition sh_map {V : Type} (n d : nat) (f : V -> V) (m : jsmap V) : jsmap V :=
  map (fun kv => (sh n d (fst kv), f (snd kv))) m.

Definition sh_pair (n d : nat) (pq : value * value) : value * value :=
  (sh n d (fst pq), sh n d (snd pq)).

Definition sh_SM (n d : nat) (g : StableMarriage.t) : StableMarriage.t :=
  StableMarriage.mk (map (sh n d) (StableMarriage.suitors g))
    (map (sh n d) (StableMarriage.reviewers g))
    (option_map (sh_map n d (sh n d)) (StableMarriage.matching g))
    (option_map (map (sh_pair n d)) (StableMarriage.blockingPairs g)).

Definition fresh_SM (n : nat) (g : StableMarriage.t) : Prop :=
  Forall (fresh n) (StableMarriage.suitors g)
  /\ Forall (fresh n) (StableMarriage.reviewers g).

(** The values of a clone map are fresh objects. *)
Definition fresh_values (n : nat) (m : jsmap value) : Prop :=
  Forall (fun kv => fresh n (snd kv)) m.

(** [new StableMarriage(suitors, reviewers).solve(optimal).toRecord()] *)
Definition SM_new_and_solve (fuel : nat) (suitors reviewers : list value) (optimal : SMOptimal)
    : M (list (string * option string)) :=
  game <- StableMarriage_new suitors reviewers ;;
  game <- StableMarriage_solve fuel game optimal ;;
  matching_record (StableMarriage.matching game).

Definition sh_warning (n d : nat) (w : warning) : warning :=
  match w with
  | NoStableMatchingWarning emptied => NoStableMatchingWarning (map (sh n d) emptied)
  | PreferencesChangedWarning player other =>
      PreferencesChangedWarning (sh n d player) (sh n d other)
  | PlayerExcludedWarning player => PlayerExcludedWarning (sh n d player)
  | CapacityChangedWarning player => CapacityChangedWarning (sh n d player)
  end.

Definition sh_SR (n d : nat) (g : StableRoommates.t) : StableRoommates.t :=
  StableRoommates.mk (map (sh n d) (StableRoommates.players g))
    (option_map (sh_map n d (sh n d)) (StableRoommates.matching g))
    (option_map (map (sh_pair n d)) (StableRoommates.blockingPairs g)).

Definition sh_HR (n d : nat) (g : HospitalResident.t) : HospitalResident.t :=
  HospitalResident.mk (map (sh n d) (HospitalResident.residents g))
    (map (sh n d) (HospitalResident.hospitals g))
    (HospitalResident.clean g)
    (option_map (sh_map n d (map (sh n d))) (HospitalResident.matching g))
    (option_map (map (sh_pair n d)) (HospitalResident.blockingPairs g))
    (map (sh n d) (HospitalResident._allResidents g))
    (map (sh n d) (HospitalResident._allHospitals g)).

Definition fresh_HR (n : nat) (g : HospitalResident.t) : Prop :=
  Forall (fresh n) (HospitalResident.residents g)
  /\ Forall (fresh n) (HospitalResident.hospitals g).

(** The matching of a solved many-to-one game as a plain record. *)
Definition multiple_matching_record (matching : option (jsmap (list value)))
    : M (list (string * list string)) :=
  match matching with
  | Some data => MultipleMatching_toRecord data []
  | None => throw (TypeError "toRecord")
  end.

(** [new StableRoommates(players).solve().toRecord()] *)
Definition SR_new_and_solve (fuel : nat) (players : list value)
    : M (list (string * option string)) :=
  game <- StableRoommates_new players ;;
  gw <- StableRoommates_solve fuel game ;;
  matching_record (StableRoommates.matching (fst gw)).

(** [new HospitalResident(residents, hospitals, {clean}).solve(optimal).toRecord()] *)
Definition HR_new_and_solve (fuel : nat) (residents hospitals : list value) (clean : bool)
    (optimal : HROptimal) : M (list (string * list string)) :=
  gw <- HospitalResident_new residents hospitals clean ;;
  g <- HospitalResident_solve fuel (fst gw) optimal ;;
  multiple_matching_record (HospitalResident.matching g).

Definition fresh_pair (n : nat) (pq : value * value) : Prop :=
  fresh n (fst pq) /\ fresh n (snd pq).

Definition fresh_SR (n : nat) (g : StableRoommates.t) : Prop :=
  Forall (fresh n) (StableRoommates.players g).

(** [m], run in the heap [c], leaves every cell of [c] as it is; the
    cells it adds refer to added cells only. *)
Definition preserves_caller {A : Type} (m : M A) (c : heap) : Prop :=
  exists G, snd (m c) = c ++ G /\ Forall (fresh_obj (List.length c)) G.

(** Running [m] again, in the heap the first run left, has the same
    outcome as the first run. *)
Definition repeatable {A : Type} (m : M A) (c : heap) : Prop :=
  fst (m (snd (m c))) = fst (m c).

(** [StableRoommates.createFromDictionary(prefs).solve().toRecord()] *)
Definition run_SR (fuel : nat) (playerPrefs : prefs_dict) : M (list (string * option string)) :=
  game <- StableRoommates_createFromDictionary playerPrefs ;;
  gw <- StableRoommates_solve fuel game ;;
  matching_record (StableRoommates.matching (fst gw)).

(** [HospitalResident.createFromDictionaries(..).solve(optimal).toRecord()] *)
Definition run_HR (fuel : nat) (residentPrefs hospitalPrefs : prefs_dict)
    (capacities : capacity_dict) (clean : bool) (optimal : HROptimal)
    : M (list (string * list string)) :=
  gw <- HospitalResident_createFromDictionaries residentPrefs hospitalPrefs capacities clean ;;
  g <- HospitalResident_solve fuel (fst gw) optimal ;;
  multiple_matching_record (HospitalResident.matching g).

(** The entities of the README example, as a caller would build them. *)
Definition sm_caller : outcome (list value * list value) * heap :=
  SM_makePlayers example_suitorPrefs example_reviewerPrefs [].

Definition sm_caller_heap : heap := snd sm_caller.

Definition sh_entry (n d : nat) (e : string * value) : string * value :=
  (fst e, sh n d (snd e)).

Definition fresh_entry (n : nat) (e : string * value) : Prop := fresh n (snd e).

(** A constructor [m] that copies: the caller's cells are kept and the
    game it returns is made of new objects ([fr]). *)
Definition copies {A : Type} (fr : nat -> A -> Prop) (m : M A) (c : heap) : Prop :=
  preserves_caller m c
  /\ forall g h', m c = (Ok g, h') -> fr (List.length c) g.

Definition sh_SA (n d : nat) (g : StudentAllocation.t) : StudentAllocation.t :=
  StudentAllocation.mk (map (sh n d) (StudentAllocation.students g))
    (map (sh n d) (StudentAllocation.projects g))
    (map (sh n d) (StudentAllocation.supervisors g))
    (StudentAllocation.clean g)
    (option_map (sh_map n d (map (sh n d))) (StudentAllocation.matching g))
    (option_map (map (sh_pair n d)) (StudentAllocation.blockingPairs g)).

Definition fresh_SA (n : nat) (g : StudentAllocation.t) : Prop :=
  Forall (fresh n) (StudentAllocation.students g)
  /\ Forall (fresh n) (StudentAllocation.projects g)
  /\ Forall (fresh n) (StudentAllocation.supervisors g).

(** [new StudentAllocation(students, projects, supervisors, {clean})
       .solve(optimal).toRecord()] *)
Definition SA_new_and_solve (fuel : nat) (students projects supervisors : list value)
    (clean : bool) (optimal : SAOptimal) : M (list (string * list string)) :=
  gw <- StudentAllocation_new students projects supervisors clean ;;
  g <- StudentAllocation_solve fuel (fst gw) optimal ;;
  multiple_matching_record (StudentAllocation.matching g).

(** [StudentAllocation.createFromDictionaries(..).solve(optimal).toRecord()] *)
Definition run_SA (fuel : nat) (studentPrefs supervisorPrefs : prefs_dict)
    (projectSupervisors : list (string * string))
    (projectCapacities supervisorCapacities : capacity_dict) (clean : bool)
    (optimal : SAOptimal) : M (list (string * list string)) :=
  gw <- StudentAllocation_createFromDictionaries studentPrefs supervisorPrefs
          projectSupervisors projectCapacities supervisorCapacities clean ;;
  g <- StudentAllocation_solve fuel (fst gw) optimal ;;
  multiple_matching_record (StudentAllocation.matching g).

Definition fresh_opair (n : nat) (o : option (value * value)) : Prop :=
  match o with
  | Some pq => fresh_pair n pq
  | None => True
  end.

(** Nobody is matched yet and no ranking has a repeated entry. *)
Definition SR_unmatched_distinct (h : heap) (players : list value) : bool :=
  forallb (fun p => value_eqb (pmatching h p) null && nodupb (pprefs h p)) players.

(** Partial correctness: from a heap satisfying [P], a run of [m] that
    returns normally ends in a heap satisfying [Q]. *)
Definition hoare {A : Type} (P : heap -> Prop) (m : M A) (Q : A -> heap -> Prop) : Prop :=
  forall h x h', P h -> m h = (Ok x, h') -> Q x h'.

(** The state a Hospital-Resident constructor builds: entities of the
    right classes, ranking members of the other party only, nobody
    matched. *)
Definition HR_built (rs hs : list value) (h : heap) : Prop :=
  (forall r, In r rs ->
     exists p, obj_at h r = Some (PlayerObj p)
               /\ incl (Player.prefs p) hs /\ Player.matching p = null)
  /\ (forall x, In x hs ->
     exists o, obj_at h x = Some (HospitalObj o)
               /\ Hospital.cls o = IsHospital
               /\ incl (Hospital.prefs o) rs /\ Hospital.matching o = []).

(** The entities of the Hospital-Resident example, as a caller builds
    them, and the game the constructor makes of them. *)
Definition hr_caller : outcome (list value * list value) * heap :=
  HR_makePlayers
    [("A", ["X"; "Y"]); ("B", ["Y"; "X"]); ("C", ["X"; "Y"])]
    [("X", ["A"; "C"; "B"]); ("Y", ["B"; "A"; "C"])]
    [("X", 2%Z); ("Y", 1%Z)] [].

Definition hr_caller_heap : heap := snd hr_caller.

Definition hr_example_game : HospitalResident.t :=
  HospitalResident.mk hr_example_residents hr_example_hospitals false None None
    hr_example_residents hr_example_hospitals.

(** The state a one-to-one constructor builds: players, nobody matched. *)
Definition players_built (ps : list value) (h : heap) : Prop :=
  forall p, In p ps ->
    exists x, obj_at h p = Some (PlayerObj x) /\ Player.matching x = null.

(** No ranking of the game has a repeated entry. *)
Definition rankings_distinct (h : heap) (players : list value) : bool :=
  forallb (fun p => nodupb (pprefs h p)) players.

(** The entities of the README roommates example, as a caller builds them. *)
Definition sr_caller : outcome (list value) * heap :=
  SR_makePlayers sr_stable_prefs [].

Definition sr_caller_heap : heap := snd sr_caller.

Definition sr_example_game : StableRoommates.t :=
  StableRoommates.mk sr_example_players None None.

(* ================================================================== *)
(** ** Validity checks and the matching classes *)
(* ================================================================== *)

(* ------------------------------------------------------------------ *)
(** *** Messages (player.ts, hospital.ts) *)

(** [x.toString()] of an entity (player.ts:30, hospital.ts): its name. *)
Definition toString (x : value) : M string :=
  o <- load "toString" x ;; ret (obj_name o).

(** [`${x}`] in a template literal: an entity prints as its name. *)
Definition show (x : value) : M string :=
  match x with
  | undefined => ret "undefined"
  | null => ret "null"
  | ref _ => toString x
  end.

(** [`${l.map((p) => p.toString())}`]: the names joined by commas. *)
Definition show_all (l : list value) : M string :=
  names <- mapM toString l ;; ret (String.concat "," names).

(** [`${n}`] for an integer [n]. *)
Definition show_number (n : Z) : string :=
  DecimalString.NilZero.string_of_int (Z.to_int n).

(** player.ts:44 and hospital.ts [unmatchedMessage] *)
Definition unmatchedMessage (this : value) : M string :=
  n <- show this ;; ret (n ++ " is unmatched.")%string.

(** player.ts:51 and hospital.ts [notInPreferencesMessage] *)
Definition notInPreferencesMessage (this other : value) : M string :=
  n <- show this ;;
  m <- show other ;;
  o <- load "prefs" this ;;
  prefs <- show_all (obj_prefs o) ;;
  ret (n ++ " is matched to " ++ m ++ " but they do not appear in their "
         ++ "preference list: " ++ prefs ++ ".")%string.

(** hospital.ts [oversubscribedMessage] *)
Definition oversubscribedMessage (this : value) : M string :=
  n <- show this ;;
  x <- getHospital "matching" this ;;
  matches <- show_all (Hospital.matching x) ;;
  ret (n ++ " is matched to " ++ matches ++ " which is over their "
         ++ "capacity of " ++ show_number (Hospital.capacity x) ++ ".")%string.

(** player.ts:119 [Player.checkIfMatchIsUnacceptable] *)
Definition Player_checkIfMatchIsUnacceptable (this : value) (unmatchedOkay : bool)
    : M (option string) :=
  p <- getPlayer "matching" this ;;
  let other := Player.matching p in
  if value_eqb other null && negb unmatchedOkay
  then msg <- unmatchedMessage this ;; ret (Some msg)
  else if negb (value_eqb other null) && negb (includes (Player.prefs p) other)
  then msg <- notInPreferencesMessage this other ;; ret (Some msg)
  else ret None.

(** [for (const x of l) issues.push(...body(x))] *)
Fixpoint issues_of {A : Type} (l : list A) (body : A -> M (list string)) : M (list string) :=
  match l with
  | [] => ret []
  | x :: l' => i <- body x ;; rest <- issues_of l' body ;; ret (i ++ rest)
  end.

(** hospital.ts [Hospital.checkIfMatchIsUnacceptable] *)
Definition Hospital_checkIfMatchIsUnacceptable (this : value) : M (list string) :=
  x <- getHospital "matching" this ;;
  issues_of (Hospital.matching x) (fun other =>
    y <- getHospital "prefs" this ;;
    if negb (includes (Hospital.prefs y) other)
    then msg <- notInPreferencesMessage this other ;; ret [msg]
    else ret []).

(** hospital.ts [Hospital.checkIfOversubscribed]: the message, or [false]. *)
Definition Hospital_checkIfOversubscribed (this : value) : M (option string) :=
  x <- getHospital "matching" this ;;
  if (Hospital.capacity x <? Z.of_nat (List.length (Hospital.matching x)))%Z
  then msg <- oversubscribedMessage this ;; ret (Some msg)
  else ret None.

(** [if (issue) issues.push(issue)]: an empty string is falsy. *)
Definition pushed (issue : option string) : list string :=
  match issue with
  | Some s => if String.eqb s "" then [] else [s]
  | None => []
  end.

(* ------------------------------------------------------------------ *)
(** *** games/stable-marriage.ts and stable-roommates.ts: [checkValidity] *)

(** stable-marriage.ts:127 [checkForUnmatchedPlayers] *)
Definition SM_checkForUnmatchedPlayers (game : StableMarriage.t) : M (list string) :=
  issues_of (StableMarriage.suitors game ++ StableMarriage.reviewers game) (fun player =>
    issue <- Player_checkIfMatchIsUnacceptable player false ;;
    ret (pushed issue)).

(** The [Set] built by [checkForPlayersNotInMatching]: every key, and
    every value that is not [null]. *)
Definition playersInMatching (data : jsmap value) : list value :=
  flat_map (fun kv => fst kv :: (if truthy (snd kv) then [snd kv] else [])) data.

(** stable-marriage.ts:141 [checkForPlayersNotInMatching] *)
Definition SM_checkForPlayersNotInMatching (game : StableMarriage.t) : M (list string) :=
  match StableMarriage.matching game with
  | None => ret []
  | Some data =>
      issues_of (StableMarriage.suitors game ++ StableMarriage.reviewers game) (fun player =>
        if negb (includes (playersInMatching data) player)
        then n <- show player ;; ret [(n ++ " does not appear in matching.")%string]
        else ret [])
  end.

(** stable-marriage.ts:162 [checkForInconsistentMatches] *)
Definition SM_checkForInconsistentMatches (game : StableMarriage.t) : M (list string) :=
  match StableMarriage.matching game with
  | None => ret []
  | Some data =>
      issues_of data (fun entry =>
        let suitor := fst entry in
        let reviewer := snd entry in
        s <- getPlayer "matching" suitor ;;
        if negb (value_eqb (Player.matching s) reviewer)
        then n <- show suitor ;;
             m <- show (Player.matching s) ;;
             r <- show reviewer ;;
             ret [(n ++ " is matched to " ++ m ++ " but the "
                     ++ "matching says they should be matched to " ++ r ++ ".")%string]
        else ret [])
  end.

(** stable-marriage.ts:81 [checkValidity]; the three lists are the
    details of the [MatchingError]. *)
Definition StableMarriage_checkValidity (game : StableMarriage.t) : M bool :=
  unmatchedIssues <- SM_checkForUnmatchedPlayers game ;;
  notInMatchingIssues <- SM_checkForPlayersNotInMatching game ;;
  inconsistencyIssues <- SM_checkForInconsistentMatches game ;;
  if (0 <? List.length unmatchedIssues)%nat
     || (0 <? List.length notInMatchingIssues)%nat
     || (0 <? List.length inconsistencyIssues)%nat
  then throw MatchingError
  else ret true.

(** The issues collected by stable-roommates.ts:317 [checkValidity]. *)
Definition SR_unmatchedPlayers (game : StableRoommates.t) : M (list string) :=
  issues_of (StableRoommates.players game) (fun player =>
    issue <- Player_checkIfMatchIsUnacceptable player false ;;
    ret (pushed issue)).

(** stable-roommates.ts:317 [checkValidity] *)
Definition StableRoommates_checkValidity (game : StableRoommates.t) : M bool :=
  issues <- SR_unmatchedPlayers game ;;
  if (0 <? List.length issues)%nat then throw MatchingError else ret true.

(* ------------------------------------------------------------------ *)
(** *** games/hospital-resident.ts and student-allocation.ts: [checkValidity] *)

(** hospital-resident.ts [checkForUnacceptableMatches]: a [Hospital]
    (or an object of a subclass) lists its issues, a [Player] may be
    unmatched. *)
Definition HR_checkForUnacceptableMatches (g : HospitalResident.t) (p : party)
    : M (list string) :=
  issues_of (party_of g p) (fun player =>
    o <- load "checkIfMatchIsUnacceptable" player ;;
    match o with
    | HospitalObj _ => Hospital_checkIfMatchIsUnacceptable player
    | PlayerObj _ =>
        issue <- Player_checkIfMatchIsUnacceptable player true ;;
        ret (pushed issue)
    end).

(** hospital-resident.ts [checkForOversubscribedPlayers] *)
Definition checkForOversubscribedPlayers (players : list value) : M (list string) :=
  issues_of players (fun player =>
    issue <- Hospital_checkIfOversubscribed player ;;
    ret (pushed issue)).

(** hospital-resident.ts [checkValidity] *)
Definition HospitalResident_checkValidity (g : HospitalResident.t) : M bool :=
  i1 <- HR_checkForUnacceptableMatches g residents_party ;;
  i2 <- HR_checkForUnacceptableMatches g hospitals_party ;;
  let unacceptableIssues := i1 ++ i2 in
  oversubscribedIssues <- checkForOversubscribedPlayers (HospitalResident.hospitals g) ;;
  if (0 <? List.length unacceptableIssues)%nat || (0 <? List.length oversubscribedIssues)%nat
  then throw MatchingError
  else ret true.

(** student-allocation.ts:171 [checkForUnacceptableMatches]: projects and
    supervisors list their issues; anything else is checked as a
    [Player], which the lists' types make it. *)
Definition SA_checkForUnacceptableMatches (g : StudentAllocation.t) (p : SA_party)
    : M (list string) :=
  issues_of (SA_party_of g p) (fun player =>
    o <- load "checkIfMatchIsUnacceptable" player ;;
    match o with
    | PlayerObj _ =>
        issue <- Player_checkIfMatchIsUnacceptable player true ;;
        ret (pushed issue)
    | HospitalObj x =>
        match Hospital.cls x with
        | IsHospital => throw IllTyped
        | _ => Hospital_checkIfMatchIsUnacceptable player
        end
    end).

(** student-allocation.ts:211 [checkForOversubscribedPlayersGeneric] *)
Definition checkForOversubscribedPlayersGeneric (g : StudentAllocation.t) (p : SA_party)
    : M (list string) :=
  checkForOversubscribedPlayers
    (match p with
     | projects_party => StudentAllocation.projects g
     | _ => StudentAllocation.supervisors g
     end).

(** student-allocation.ts:146 [checkValidity] *)
Definition StudentAllocation_checkValidity (g : StudentAllocation.t) : M bool :=
  i1 <- SA_checkForUnacceptableMatches g students_party ;;
  i2 <- SA_checkForUnacceptableMatches g projects_party ;;
  i3 <- SA_checkForUnacceptableMatches g supervisors_party ;;
  let unacceptableIssues := i1 ++ i2 ++ i3 in
  o1 <- checkForOversubscribedPlayersGeneric g projects_party ;;
  o2 <- checkForOversubscribedPlayersGeneric g supervisors_party ;;
  let oversubscribedIssues := o1 ++ o2 in
  if (0 <? List.length unacceptableIssues)%nat || (0 <? List.length oversubscribedIssues)%nat
  then throw MatchingError
  else ret true.

(* ------------------------------------------------------------------ *)
(** *** matchings/single-matching.ts and multiple-matching.ts: the map interface

    A matching object is its [_data] map; [set] returns the map it
    leaves behind. *)

(** single-matching.ts:25 [get]: [None] stands for [undefined]. *)
Definition SingleMatching_get (data : jsmap value) (player : value) : option value :=
  map_get player data.

(** single-matching.ts:32 [has] *)
Definition SingleMatching_has (data : jsmap value) (player : value) : bool :=
  match map_get player data with
  | Some _ => true
  | None => false
  end.

(** single-matching.ts:83 [size] *)
Definition SingleMatching_size (data : jsmap value) : nat := List.length data.

(** single-matching.ts:55 [keys] and :62 [values], as arrays. *)
Definition SingleMatching_keys (data : jsmap value) : list value := map fst data.
Definition SingleMatching_values (data : jsmap value) : list value := map snd data.

(** [x.matching = v] for a single-match player [x]. *)
Definition set_matching (x v : value) : M unit :=
  p <- getPlayer "matching" x ;;
  store x (PlayerObj (Player.with_matching v p)).

(** single-matching.ts:39 [set] *)
Definition SingleMatching_set (data : jsmap value) (player newMatch : value)
    : M (jsmap value) :=
  if negb (SingleMatching_has data player)
  then n <- show player ;; throw (Error (n ++ " is not a key in this matching.")%string)
  else
    set_matching player newMatch ;;
    (if negb (value_eqb newMatch null)
     then set_matching newMatch player
     else ret tt) ;;
    ret (map_set player newMatch data).

(** multiple-matching.ts [get], [has], [size], [keys]. *)
Definition MultipleMatching_get (data : jsmap (list value)) (hospital : value)
    : option (list value) :=
  map_get hospital data.

Definition MultipleMatching_has (data : jsmap (list value)) (hospital : value) : bool :=
  match map_get hospital data with
  | Some _ => true
  | None => false
  end.

Definition MultipleMatching_size (data : jsmap (list value)) : nat := List.length data.

Definition MultipleMatching_keys (data : jsmap (list value)) : list value := map fst data.

(** multiple-matching.ts [set] *)
Definition MultipleMatching_set (data : jsmap (list value)) (hospital : value)
    (newMatches : list value) : M (jsmap (list value)) :=
  if negb (MultipleMatching_has data hospital)
  then n <- show hospital ;; throw (Error (n ++ " is not a key in this matching.")%string)
  else
    x <- getHospital "matching" hospital ;;
    store hospital (HospitalObj (Hospital.with_matching newMatches x)) ;;
    forEach newMatches (fun player => set_matching player hospital) ;;
    ret (map_set hospital newMatches data).

(* ================================================================== *)
(** ** Stable Marriage: the states of the proposal loop *)
(* ================================================================== *)

(** The ranking a single-match player was first given ([_originalPrefs]). *)
Definition porig (h : heap) (v : value) : option (list value) :=
  match obj_at h v with
  | Some (PlayerObj p) => Player._originalPrefs p
  | _ => None
  end.

Fixpoint values_eqb (l l' : list value) : bool :=
  match l, l' with
  | [], [] => true
  | x :: r, y :: r' => value_eqb x y && values_eqb r r'
  | _, _ => false
  end.

(** [p] is an unmatched [Player] whose ranking is the one it was first
    given, has no repetition and lists exactly the members of [others]. *)
Definition SM_player_ready (h : heap) (others : list value) (p : value) : bool :=
  is_player h p
  && value_eqb (pmatching h p) null
  && nodupb (pprefs h p)
  && forallb (includes others) (pprefs h p)
  && forallb (includes (pprefs h p)) others
  && match porig h p with
     | Some o => values_eqb o (pprefs h p)
     | None => false
     end.

(** The state in which a Stable Marriage game is handed to [solve]: two
    disjoint parties of the same size, listed once, everyone ready. *)
Definition SM_ready (h : heap) (suitors reviewers : list value) : bool :=
  nodupb (suitors ++ reviewers)
  && Nat.eqb (List.length suitors) (List.length reviewers)
  && forallb (SM_player_ready h reviewers) suitors
  && forallb (SM_player_ready h suitors) reviewers.

(** What does not change while the loop runs: the proposers [P] and the
    other party [Q] are disjoint and of the same size, [O] gives the
    original rankings, without repetition, and every proposer ranks all
    of [Q]. *)
Definition SM_static (P Q : list value) (O : value -> list value) : Prop :=
  NoDup (P ++ Q)
  /\ List.length P = List.length Q
  /\ (forall v, In v (P ++ Q) -> NoDup (O v))
  /\ (forall p, In p P -> incl Q (O p)).

(** The invariant of the [while] loop of [stableMarriage], for the work
    list [free]: rankings are the original ones with entries deleted,
    deletions are mutual, the proposers waiting are the unmatched ones, a
    matched proposer is held by the first entry of its list, whoever
    holds a proposer has it as the last entry of its list, and a deleted
    pair is one whose second member holds somebody it ranks higher. *)
Definition SM_inv (P Q : list value) (O : value -> list value) (h : heap)
    (free : list value) : Prop :=
  (forall v, In v (P ++ Q) ->
     is_player h v = true /\ porig h v = Some (O v)
     /\ exists f, pprefs h v = filter f (O v))
  /\ (forall p, In p P -> incl (pprefs h p) Q)
  /\ (forall q, In q Q -> incl (pprefs h q) P)
  /\ (forall p q, In p P -> In q Q -> (In q (pprefs h p) <-> In p (pprefs h q)))
  /\ NoDup free /\ incl free P
  /\ (forall p, In p P -> (In p free <-> pmatching h p = null))
  /\ (forall p, In p P -> pmatching h p <> null ->
        In (pmatching h p) Q /\ pmatching h (pmatching h p) = p
        /\ pprefs h p <> [] /\ at_index (pprefs h p) 0 = pmatching h p)
  /\ (forall q, In q Q -> pmatching h q <> null ->
        In (pmatching h q) P /\ pmatching h (pmatching h q) = q
        /\ In (pmatching h q) (pprefs h q)
        /\ slice (pprefs h q) (indexOf (pprefs h q) (pmatching h q) + 1) = [])
  /\ (forall p q, In p P -> In q Q -> ~ In q (pprefs h p) ->
        pmatching h q <> null
        /\ (indexOf (O q) (pmatching h q) < indexOf (O q) p)%Z).

(** The quantity that every iteration of the loop decreases. *)
Definition SM_measure (Q : list value) (h : heap) (free : list value) : nat :=
  List.length free + list_sum (map (fun q => List.length (pprefs h q)) Q).

(** One-to-one: the matching [m] sends the members of [xs] to distinct
    members of [ys], and every member of [ys] is the image of one. *)
Definition perfect_matching (m : jsmap value) (xs ys : list value) : Prop :=
  (forall x, In x xs -> exists y, map_get x m = Some y /\ In y ys)
  /\ (forall x x' y, In x xs -> In x' xs ->
        map_get x m = Some y -> map_get x' m = Some y -> x = x')
  /\ (forall y, In y ys -> exists x, In x xs /\ map_get x m = Some y).

(** The state [solve] leaves behind: everybody holds a member of the
    other party, which holds it back and is still on its list, and no
    suitor and reviewer rank each other above the partners they hold
    (ranks are taken in the original rankings). *)
Definition SM_solved (h : heap) (suitors reviewers : list value) : Prop :=
  (forall v, In v (suitors ++ reviewers) -> is_player h v = true)
  /\ (forall s, In s suitors ->
        In (pmatching h s) reviewers /\ pmatching h (pmatching h s) = s
        /\ In (pmatching h s) (pprefs h s))
  /\ (forall r, In r reviewers ->
        In (pmatching h r) suitors /\ pmatching h (pmatching h r) = r
        /\ In (pmatching h r) (pprefs h r))
  /\ (forall s r, In s suitors -> In r reviewers ->
        exists o o', porig h s = Some o /\ porig h r = Some o'
          /\ ~ ((indexOf o r < indexOf o (pmatching h s))%Z
                /\ (indexOf o' s < indexOf o' (pmatching h r))%Z)).

(** While a constructor copies the rankings: every clone is an
    unmatched player; the clones still to be given their ranking
    ([todo]) have none, the others hold the ranking they were first
    given. *)
Definition clones_set (clones todo : list value) (h : heap) : Prop :=
  forall c, In c clones ->
    exists p, obj_at h c = Some (PlayerObj p) /\ Player.matching p = null
      /\ (if includes todo c then Player._originalPrefs p = None
          else Player._originalPrefs p = Some (Player.prefs p)).

(** The Stable Marriage game the constructor makes of the README
    entities, in the heap it leaves. *)
Definition sm_built_heap : heap :=
  snd (StableMarriage_new [ref 0; ref 1; ref 2] [ref 3; ref 4; ref 5] sm_caller_heap).

Definition sm_built_game : StableMarriage.t :=
  StableMarriage.mk [ref 6; ref 7; ref 8] [ref 9; ref 10; ref 11] None None.

(** The name of the entity [v] refers to. *)
Definition name_at (h : heap) (v : value) : string :=
  match obj_at h v with
  | Some o => obj_name o
  | None => ""
  end.

(** The entry [toRecord] writes for one entry of a [SingleMatching]. *)
Definition single_entry (h : heap) (kv : value * value) : string * option string :=
  (name_at h (fst kv), if truthy (snd kv) then Some (name_at h (snd kv)) else None).

(** The entry [toRecord] writes for one entry of a [MultipleMatching]. *)
Definition multiple_entry (h : heap) (kv : value * list value) : string * list string :=
  (name_at h (fst kv), map (name_at h) (snd kv)).

(** The order in which JavaScript lists the own properties of a plain
    object: a key that is an array index comes before the keys of a
    higher index and before every key that is no array index. *)
Definition key_before (k k' : string) : Prop :=
  match array_index k, array_index k' with
  | Some n, Some n' => (n <= n')%N
  | Some _, None => True
  | None, Some _ => False
  | None, None => True
  end.

(** Whether the key of the entry [e] is the array index [n], for
    [c = Some n], or no array index, for [c = None]. *)
Definition key_class_is {V : Type} (c : option N) (e : string * V) : bool :=
  match array_index (fst e), c with
  | Some n, Some n' => N.eqb n n'
  | None, None => true
  | _, _ => false
  end.

(** [h'] has the entities of [h], with the original rankings they have
    in [h]. *)
Definition same_originals (h h' : heap) : Prop :=
  forall v, originalPrefs_at h' v = originalPrefs_at h v
            /\ (obj_at h' v = None <-> obj_at h v = None).

(** Everybody holds a player that is still on its list. *)
Definition SR_all_matched (h : heap) (players : list value) : Prop :=
  forall p, In p players ->
    is_player h p = true /\ pmatching h p <> null /\ In (pmatching h p) (pprefs h p).

(** The clone map of a constructor, built in the heap [h] from the
    caller's heap [c]: its keys are the players [keys]; every key has a
    clone of its own, allocated by the constructor and carrying the name
    of the key; the caller's objects are as they were. *)
Definition clone_map_ok (c : heap) (keys : list value) (cm : jsmap value) (h : heap)
    : Prop :=
  (forall k, map_get k cm <> None <-> In k keys)
  /\ (forall k v, map_get k cm = Some v ->
        exists a, v = ref a /\ List.length c <= a < List.length h)
  /\ (forall k k' v, map_get k cm = Some v -> map_get k' cm = Some v -> k = k')
  /\ (forall a, a < List.length c -> nth_error h a = nth_error c a)
  /\ List.length c <= List.length h.

(** The state of the clone of [k] while the rankings are copied: a new
    player named as [k], given the ranking [ranking k] if [k] has been
    handled ([done]), and no ranking otherwise. *)
Definition clone_state (c : heap) (ranking : value -> list value) (done : list value)
    (h : heap) (k v : value) : Prop :=
  exists x, obj_at h v = Some (PlayerObj x)
    /\ Player.name x = name_at c k /\ Player.matching x = null
    /\ (if includes done k
        then Player.prefs x = ranking k /\ Player._originalPrefs x = Some (ranking k)
        else Player.prefs x = [] /\ Player._originalPrefs x = None).

(** [g] is a copy of the caller's players [players0] of the heap [c]:
    [f] sends every player to a new, unmatched player with the same
    name, whose ranking, also recorded as its original ranking, is the
    image of the player's ranking; different players have different
    copies, and every ranking lists players of the game only. *)
Definition copy_of (c : heap) (players0 : list value) (f : value -> value) (h : heap)
    : Prop :=
  (forall p0, In p0 players0 ->
     is_player h (f p0) = true
     /\ (exists a, f p0 = ref a /\ List.length c <= a)
     /\ name_at h (f p0) = name_at c p0
     /\ pprefs h (f p0) = map f (pprefs c p0)
     /\ porig h (f p0) = Some (map f (pprefs c p0))
     /\ pmatching h (f p0) = null
     /\ incl (pprefs c p0) players0)
  /\ (forall p0 p1, In p0 players0 -> In p1 players0 -> f p0 = f p1 -> p0 = p1)
  /\ (forall a, a < List.length c -> nth_error h a = nth_error c a).

(** Every ranking of the players lists members of [players] only. *)
Definition rankings_closed (c : heap) (players : list value) : bool :=
  forallb (fun p => forallb (includes players) (pprefs c p)) players.

(** The test of stable-roommates.ts [checkInputs] on the caller's own
    players: everybody ranks exactly the other players. *)
Definition ranks_all_others (c : heap) (players : list value) : bool :=
  forallb (fun p => same_set (pprefs c p) (remove_value p players)) players.

(** The test of stable-marriage.ts [checkPlayerRanks] on the caller's
    own players: everybody ranks exactly the other group. *)
Definition ranks_other_group (c : heap) (suitors reviewers : list value) : bool :=
  forallb (fun p => same_set (pprefs c p) (if includes suitors p then reviewers else suitors))
          (suitors ++ reviewers).

(* ------------------------------------------------------------------ *)
(** *** Dictionaries of rankings *)

(** [names.includes(n)] *)
Definition knows (names : list string) (n : string) : bool :=
  existsb (String.eqb n) names.

(** Every name a ranking of the dictionary mentions is a key of [keys]. *)
Definition dict_closed (keys : list string) (d : prefs_dict) : bool :=
  forallb (fun e => forallb (knows keys) (snd e)) d.

Definition names_known (keys : list string) (d : prefs_dict) : Prop :=
  forall k l n, In (k, l) d -> In n l -> In n keys.

(** Every key of the dictionary ranks exactly the other keys. *)
Definition ranks_all_other_names (d : prefs_dict) : Prop :=
  forall k l, In (k, l) d -> forall n, In n l <-> (In n (map fst d) /\ n <> k).

(** The references of [n] consecutive cells from the address [a] on. *)
Definition refs_from (a n : nat) : list value := map ref (seq a n).

(** The map [make_dict] builds for [names] in a heap of [a] cells. *)
Definition dict_at (a : nat) (names : list string) : list (string * value) :=
  combine names (refs_from a (List.length names)).

(** The player [makePlayers] leaves for the entry [(k, l)] of a
    dictionary: named [k], unmatched, ranking the players that [others]
    holds for the names of [l]. *)
Definition dict_player (others : list (string * value)) (entry : string * list string) : obj :=
  let ranking := map (fun n => dict_get n others) (snd entry) in
  PlayerObj (Player.mk (fst entry) ranking null (snd entry) (Some ranking)).

(** A player before its ranking is set. *)
Definition dict_new (entry : string * list string) : obj :=
  PlayerObj (Player.new (fst entry)).

(* ------------------------------------------------------------------ *)
(** *** The resident-optimal Hospital-Resident algorithm: its states *)

(** The current ranking of the hospital [v] refers to. *)
Definition hprefs (h : heap) (v : value) : list value :=
  match obj_at h v with
  | Some (HospitalObj x) => Hospital.prefs x
  | _ => []
  end.

(** [v] refers to a plain [Hospital]. *)
Definition is_hospital (h : heap) (v : value) : bool :=
  match obj_at h v with
  | Some (HospitalObj x) =>
      match Hospital.cls x with IsHospital => true | _ => false end
  | _ => false
  end.

(** A Hospital-Resident game in which the warnings of the constructor
    have nothing to report: besides being well typed and unmatched, with
    capacities of at least one, both parties are listed once, no ranking
    repeats an entry, and a resident ranks a hospital exactly when the
    hospital ranks the resident. *)
Definition HR_consistent (h : heap) (residents hospitals : list value) : bool :=
  HR_ready h residents hospitals
  && nodupb residents
  && forallb (fun r => nodupb (pprefs h r)) residents
  && forallb (fun x => nodupb (hprefs h x)) hospitals
  && forallb (fun r => forallb (fun x => includes (hprefs h x) r) (pprefs h r)) residents
  && forallb (fun x => forallb (fun r => includes (pprefs h r) x) (hprefs h x)) hospitals.

(** What does not change while the algorithm runs: the parties, and the
    rankings [O] (residents) and [OH] (hospitals) it starts from. *)
Definition HR_static (Rs Hs : list value) (O OH : value -> list value) : Prop :=
  NoDup Rs /\ NoDup Hs
  /\ (forall r, In r Rs -> NoDup (O r) /\ incl (O r) Hs)
  /\ (forall x, In x Hs -> NoDup (OH x) /\ incl (OH x) Rs).

(** [l] is in ascending order of position in [prefs]. *)
Definition sorted_by (prefs l : list value) : Prop :=
  StronglySorted (fun a b => (indexOf prefs a <= indexOf prefs b)%Z) l.

(** The invariant of the loop of [residentOptimal], [free] being the
    work list: rankings only lose entries, and stay reciprocal; a
    resident is among the matches of the hospital it holds; a hospital
    has at least one place, never more matches than places, and keeps
    its matches in the order of its ranking; a matched resident holds
    the first entry of its list; a full hospital ranks nobody below its
    worst match; the residents of the work list are unmatched, and every
    unmatched resident that still has somebody to apply to is on it. *)
Definition HR_inv (Rs Hs : list value) (O OH : value -> list value)
    (Oo : value -> option (list value)) (h : heap) (free : list value) : Prop :=
  (forall r, In r Rs ->
     is_player h r = true /\ porig h r = Oo r /\ exists f, pprefs h r = filter f (O r))
  /\ (forall x, In x Hs ->
        is_hospital h x = true /\ (1 <= hcapacity h x)%Z
        /\ exists f, hprefs h x = filter f (OH x))
  /\ (forall r x, In r Rs -> In x Hs -> (In x (pprefs h r) <-> In r (hprefs h x)))
  /\ (forall r x, In r Rs -> In x Hs -> (pmatching h r = x <-> In r (hmatching h x)))
  /\ (forall x, In x Hs ->
        incl (hmatching h x) Rs
        /\ (Z.of_nat (List.length (hmatching h x)) <= hcapacity h x)%Z
        /\ sorted_by (hprefs h x) (hmatching h x)
        /\ NoDup (hmatching h x))
  /\ (forall r, In r Rs ->
        pmatching h r = null \/ exists rest, pprefs h r = pmatching h r :: rest)
  /\ (forall x, In x Hs ->
        Z.of_nat (List.length (hmatching h x)) = hcapacity h x ->
        forall r, In r (hprefs h x) ->
          (indexOf (hprefs h x) r
           <= indexOf (hprefs h x) (last (hmatching h x) undefined))%Z)
  /\ (NoDup free /\ incl free Rs /\ forall r, In r free -> pmatching h r = null)
  /\ (forall r, In r Rs -> pmatching h r = null -> pprefs h r <> [] -> In r free).

Definition HR_measure (Rs : list value) (h : heap) (free : list value) : nat :=
  List.length free + list_sum (map (fun r => List.length (pprefs h r)) Rs).

(** The work list after the [for] over the successors of a hospital:
    a successor whose list has become empty is taken off it. *)
Fixpoint prune_free (prefs : value -> list value) (successors free : list value)
    : list value :=
  match successors with
  | [] => free
  | s :: rest =>
      prune_free prefs rest
        (if Nat.eqb (List.length (prefs s)) 0 && includes free s
         then remove_first s free else free)
  end.

(** The classes, the original rankings and the capacities are the
    same in both heaps. *)
Definition frame (h h' : heap) : Prop :=
  (forall v, is_player h' v = is_player h v)
  /\ (forall v, porig h' v = porig h v)
  /\ (forall v, is_hospital h' v = is_hospital h v)
  /\ (forall v, hcapacity h' v = hcapacity h v).


(** The state the resident-optimal [solve] leaves: a resident holds a
    hospital exactly when the hospital holds the resident; a hospital
    holds residents it still ranks, each once, and no more than it has
    places for; a resident is either unmatched with nobody left to apply
    to, or holds the first hospital of its list. *)
Definition HR_solved (h : heap) (residents hospitals : list value) : Prop :=
  (forall r, In r residents -> is_player h r = true)
  /\ (forall x, In x hospitals -> is_hospital h x = true)
  /\ (forall r x, In r residents -> In x hospitals ->
        (pmatching h r = x <-> In r (hmatching h x)))
  /\ (forall r x, In r residents -> In x hospitals ->
        (In x (pprefs h r) <-> In r (hprefs h x)))
  /\ (forall x, In x hospitals ->
        incl (hmatching h x) residents /\ incl (hmatching h x) (hprefs h x)
        /\ (Z.of_nat (List.length (hmatching h x)) <= hcapacity h x)%Z
        /\ NoDup (hmatching h x))
  /\ (forall r, In r residents ->
        (pmatching h r = null /\ pprefs h r = [])
        \/ (In (pmatching h r) hospitals
            /\ exists rest, pprefs h r = pmatching h r :: rest)).

(** The residents' lists are their original rankings with entries
    deleted. *)
Definition HR_rankings_kept (h : heap) (residents : list value) : bool :=
  forallb (fun r => match porig h r with
                    | Some o => subseqb (pprefs h r) (dedup o)
                    | None => false
                    end) residents.

(** The same for the hospitals' lists. *)
Definition HR_hospital_rankings_kept (h : heap) (hospitals : list value) : bool :=
  forallb (fun x => match originalPrefs_at h x with
                    | Some o => subseqb (hprefs h x) (dedup o)
                    | None => false
                    end) hospitals.

(* ------------------------------------------------------------------ *)
(** *** The hospital-optimal algorithm *)

(** The answer of [checkAvailable(x)] in a state. *)
Definition available (h : heap) (x : value) : bool :=
  (Z.of_nat (List.length (hmatching h x)) <? hcapacity h x)%Z
  && Nat.ltb 0 (List.length (filter (fun p => negb (includes (hmatching h x) p))
                                    (hprefs h x))).

(** The work list after the [for] over the successors of a resident: a
    successor that is not available is taken off it. *)
Fixpoint prune_unavailable (avail : value -> bool) (successors free : list value)
    : list value :=
  match successors with
  | [] => free
  | s :: rest =>
      prune_unavailable avail rest
        (if negb (avail s) && includes free s then remove_first s free else free)
  end.

(** What the loop of [hospitalOptimal] keeps, [free] being its work
    list: rankings are the initial ones with entries deleted and stay
    reciprocated; residents and hospitals agree on who holds whom; a
    hospital holds, within its capacity, residents it ranks before
    everyone else left on its list; a matched resident holds the last
    hospital left on its list; the work list has every hospital that is
    available, once, and only hospitals with a free place. *)
Definition HO_inv (Rs Hs : list value) (O OH : value -> list value)
    (h : heap) (free : list value) : Prop :=
  (forall r, In r Rs -> is_player h r = true /\ exists f, pprefs h r = filter f (O r))
  /\ (forall x, In x Hs ->
        is_hospital h x = true /\ exists f, hprefs h x = filter f (OH x))
  /\ (forall r x, In r Rs -> In x Hs -> (In x (pprefs h r) <-> In r (hprefs h x)))
  /\ (forall r x, In r Rs -> In x Hs -> (pmatching h r = x <-> In r (hmatching h x)))
  /\ (forall x, In x Hs ->
        incl (hmatching h x) Rs
        /\ (Z.of_nat (List.length (hmatching h x)) <= hcapacity h x)%Z
        /\ NoDup (hmatching h x)
        /\ forall a b, In a (hmatching h x) -> In b (hprefs h x) ->
             ~ In b (hmatching h x) ->
             (indexOf (hprefs h x) a < indexOf (hprefs h x) b)%Z)
  /\ (forall r, In r Rs ->
        pmatching h r = null
        \/ (In (pmatching h r) Hs /\ exists front, pprefs h r = front ++ [pmatching h r]))
  /\ (NoDup free /\ incl free Hs
      /\ forall x, In x free ->
            (Z.of_nat (List.length (hmatching h x)) < hcapacity h x)%Z)
  /\ (forall x, In x Hs -> available h x = true -> In x free).

Definition HO_measure (Rs : list value) (h : heap) (free : list value) : nat :=
  List.length free
  + 2 * list_sum (map (fun r => List.length (pprefs h r)
                                + (if value_eqb (pmatching h r) null then 1 else 0)) Rs).

(** The state the hospital-optimal [solve] leaves: a resident holds a
    hospital exactly when the hospital holds the resident; a hospital
    holds residents it still ranks, each once, no more than it has
    places for, and ranks them before everyone else left on its list; a
    hospital with a free place holds everyone left on its list; a
    matched resident holds the last hospital left on its list. *)
Definition HO_solved (h : heap) (residents hospitals : list value) : Prop :=
  (forall r, In r residents -> is_player h r = true)
  /\ (forall x, In x hospitals -> is_hospital h x = true)
  /\ (forall r x, In r residents -> In x hospitals ->
        (pmatching h r = x <-> In r (hmatching h x)))
  /\ (forall r x, In r residents -> In x hospitals ->
        (In x (pprefs h r) <-> In r (hprefs h x)))
  /\ (forall x, In x hospitals ->
        incl (hmatching h x) residents /\ incl (hmatching h x) (hprefs h x)
        /\ (Z.of_nat (List.length (hmatching h x)) <= hcapacity h x)%Z
        /\ NoDup (hmatching h x)
        /\ (forall a b, In a (hmatching h x) -> In b (hprefs h x) ->
              ~ In b (hmatching h x) ->
              (indexOf (hprefs h x) a < indexOf (hprefs h x) b)%Z)
        /\ ((Z.of_nat (List.length (hmatching h x)) < hcapacity h x)%Z ->
            incl (hprefs h x) (hmatching h x)))
  /\ (forall r, In r residents ->
        pmatching h r = null
        \/ (In (pmatching h r) hospitals
            /\ exists front, pprefs h r = front ++ [pmatching h r])).

(* ------------------------------------------------------------------ *)
(** *** Student-Allocation: the student-optimal algorithm *)

(** The class of the capacitated entity [v] refers to, and the fields of
    the subclasses. *)
Definition hclass (h : heap) (v : value) : option hospital_class :=
  match obj_at h v with
  | Some (HospitalObj x) => Some (Hospital.cls x)
  | _ => None
  end.

Definition is_project (h : heap) (v : value) : bool :=
  match hclass h v with Some IsProject => true | _ => false end.

Definition is_supervisor (h : heap) (v : value) : bool :=
  match hclass h v with Some IsSupervisor => true | _ => false end.

Definition hsupervisor (h : heap) (v : value) : value :=
  match obj_at h v with
  | Some (HospitalObj x) => Hospital.supervisor x
  | _ => null
  end.

Definition hprojects (h : heap) (v : value) : list value :=
  match obj_at h v with
  | Some (HospitalObj x) => Hospital.projects x
  | _ => []
  end.

(** The classes, the capacities and the links between projects and
    supervisors are the same in both heaps. *)
Definition SA_frame (h h' : heap) : Prop :=
  (forall v, is_player h' v = is_player h v)
  /\ (forall v, hclass h' v = hclass h v)
  /\ (forall v, hcapacity h' v = hcapacity h v)
  /\ (forall v, hsupervisor h' v = hsupervisor h v)
  /\ (forall v, hprojects h' v = hprojects h v).

(** Some project of the supervisor [u] other than [q] ranks [s]. *)
Definition others_rank (h : heap) (u q s : value) : bool :=
  existsb (fun q' => negb (value_eqb q' q) && includes (hprefs h q') s) (hprojects h u).

(** What does not change while the algorithm runs: the parties and the
    rankings [O] (students), [OP] (projects) and [OU] (supervisors) it
    starts from. *)
Definition SA_static (Sts Ps Us : list value) (O OP OU : value -> list value) : Prop :=
  NoDup Sts /\ NoDup Ps /\ NoDup Us
  /\ (forall s, In s Sts -> NoDup (O s) /\ incl (O s) Ps)
  /\ (forall p, In p Ps -> NoDup (OP p) /\ incl (OP p) Sts)
  /\ (forall u, In u Us -> NoDup (OU u) /\ incl (OU u) Sts).

(** What every deletion, match and unmatch of a pair keeps in the loop
    of [studentOptimal]: entities of the right classes, linked
    consistently, capacities of at least one; rankings that are the
    initial ones with entries deleted, reciprocated between students
    and projects; a supervisor ranks the students its projects rank, and
    holds the students its projects hold; students and projects agree
    on who holds whom; matches are without repetition and in the order
    of the holder's list; a matched student holds the first project left
    on its list. *)
Record SA_core (Sts Ps Us : list value) (O OP OU : value -> list value) (h : heap)
    : Prop := mk_SA_core {
  sa_students : forall s, In s Sts ->
    is_player h s = true /\ exists f, pprefs h s = filter f (O s);
  sa_projects : forall p, In p Ps ->
    is_project h p = true /\ In (hsupervisor h p) Us
    /\ In p (hprojects h (hsupervisor h p)) /\ (1 <= hcapacity h p)%Z
    /\ exists f, hprefs h p = filter f (OP p);
  sa_supervisors : forall u, In u Us ->
    is_supervisor h u = true /\ NoDup (hprojects h u)
    /\ (forall q, In q (hprojects h u) -> In q Ps /\ hsupervisor h q = u)
    /\ (1 <= hcapacity h u)%Z
    /\ exists f, hprefs h u = filter f (OU u);
  sa_reciprocal : forall s p, In s Sts -> In p Ps ->
    (In p (pprefs h s) <-> In s (hprefs h p));
  sa_union : forall u a, In u Us ->
    (In a (hprefs h u) <-> exists q, In q (hprojects h u) /\ In a (hprefs h q));
  sa_match : forall s p, In s Sts -> In p Ps ->
    (pmatching h s = p <-> In s (hmatching h p));
  sa_match_union : forall u a, In u Us ->
    (In a (hmatching h u) <-> exists q, In q (hprojects h u) /\ In a (hmatching h q));
  sa_project_matches : forall p, In p Ps ->
    incl (hmatching h p) Sts
    /\ NoDup (hmatching h p) /\ sorted_by (hprefs h p) (hmatching h p);
  sa_supervisor_matches : forall u, In u Us ->
    NoDup (hmatching h u) /\ sorted_by (hprefs h u) (hmatching h u);
  sa_first : forall s, In s Sts ->
    pmatching h s = null \/ exists rest, pprefs h s = pmatching h s :: rest
}.

(** What every iteration of the loop of [studentOptimal] restores: the
    above, with nobody holding more students than it has places for. *)
Definition SA_state (Sts Ps Us : list value) (O OP OU : value -> list value) (h : heap)
    : Prop :=
  SA_core Sts Ps Us O OP OU h
  /\ (forall p, In p Ps -> (Z.of_nat (List.length (hmatching h p)) <= hcapacity h p)%Z)
  /\ (forall u, In u Us -> (Z.of_nat (List.length (hmatching h u)) <= hcapacity h u)%Z).

(** What the loop of [studentOptimal] keeps, [free] being its work
    list: the state above, and a work list that has every unmatched
    student with a project left to apply to, once, and unmatched
    students only. *)
Definition SA_inv (Sts Ps Us : list value) (O OP OU : value -> list value)
    (h : heap) (free : list value) : Prop :=
  SA_state Sts Ps Us O OP OU h
  /\ NoDup free /\ incl free Sts
  /\ (forall s, In s free -> pmatching h s = null)
  /\ (forall s, In s Sts -> pmatching h s = null -> pprefs h s <> [] -> In s free).

(** The state the student-optimal [solve] leaves: a student holds a
    project exactly when the project holds the student, and a supervisor
    holds the students its projects hold; projects and supervisors hold
    students they still rank, each once, and no more than they have
    places for; a student is either unmatched with no project left to
    apply to, or holds the first project of its list. *)
Definition SA_solved (h : heap) (students projects supervisors : list value) : Prop :=
  (forall s, In s students -> is_player h s = true)
  /\ (forall p, In p projects -> is_project h p = true)
  /\ (forall u, In u supervisors -> is_supervisor h u = true)
  /\ (forall s p, In s students -> In p projects ->
        (pmatching h s = p <-> In s (hmatching h p)))
  /\ (forall u a, In u supervisors ->
        (In a (hmatching h u) <-> exists q, In q (hprojects h u) /\ In a (hmatching h q)))
  /\ (forall p, In p projects ->
        incl (hmatching h p) students /\ incl (hmatching h p) (hprefs h p)
        /\ (Z.of_nat (List.length (hmatching h p)) <= hcapacity h p)%Z
        /\ NoDup (hmatching h p))
  /\ (forall u, In u supervisors ->
        incl (hmatching h u) (hprefs h u)
        /\ (Z.of_nat (List.length (hmatching h u)) <= hcapacity h u)%Z
        /\ NoDup (hmatching h u))
  /\ (forall s, In s students ->
        (pmatching h s = null /\ pprefs h s = [])
        \/ (In (pmatching h s) projects
            /\ exists rest, pprefs h s = pmatching h s :: rest)).

(** A Student-Allocation game in which the warnings of the constructor
    have nothing to report: entities of the right classes, unmatched,
    with capacities of at least one; every project linked to a
    supervisor of the game that lists it, every supervisor listing, once,
    projects of the game that are linked to it; parties and rankings
    without repetition; a student ranks a project exactly when the
    project ranks the student, and a supervisor ranks exactly the
    students its projects rank. *)
Definition SA_consistent (h : heap) (students projects supervisors : list value) : bool :=
  nodupb students && nodupb projects && nodupb supervisors
  && forallb (fun s =>
       is_player h s && value_eqb (pmatching h s) null && nodupb (pprefs h s)
       && forallb (includes projects) (pprefs h s)
       && forallb (fun p => includes (hprefs h p) s) (pprefs h s)) students
  && forallb (fun p =>
       is_project h p && includes supervisors (hsupervisor h p)
       && includes (hprojects h (hsupervisor h p)) p
       && (1 <=? hcapacity h p)%Z && Nat.eqb (List.length (hmatching h p)) 0
       && nodupb (hprefs h p) && forallb (includes students) (hprefs h p)
       && forallb (fun s => includes (pprefs h s) p) (hprefs h p)
       && forallb (includes (hprefs h (hsupervisor h p))) (hprefs h p)) projects
  && forallb (fun u =>
       is_supervisor h u && nodupb (hprojects h u)
       && forallb (fun q => includes projects q && value_eqb (hsupervisor h q) u)
                  (hprojects h u)
       && (1 <=? hcapacity h u)%Z && Nat.eqb (List.length (hmatching h u)) 0
       && nodupb (hprefs h u) && forallb (includes students) (hprefs h u)
       && forallb (fun a => existsb (fun q => includes (hprefs h q) a) (hprojects h u))
                  (hprefs h u)) supervisors.

(** The Student-Allocation example of the README, as constructed from
    its dictionaries in an empty heap (clean mode off). *)
Definition sa_example : outcome (StudentAllocation.t * list warning) * heap :=
  StudentAllocation_createFromDictionaries sa_studentPrefs sa_supervisorPrefs
    sa_projectSupervisors sa_projectCapacities sa_supervisorCapacities false [].

Definition sa_example_heap : heap := snd sa_example.

Definition sa_example_game : StudentAllocation.t :=
  match fst sa_example with
  | Ok gw => fst gw
  | _ => StudentAllocation.mk [] [] [] false None None
  end.

(** A Student-Allocation game with a project without places, as
    constructed from its dictionaries in an empty heap (clean mode
    off): one student, one project, one supervisor. *)
Definition sa_no_places : outcome (StudentAllocation.t * list warning) * heap :=
  StudentAllocation_createFromDictionaries
    [("A", ["P1"])] [("S1", ["A"])] [("P1", "S1")] [("P1", 0%Z)] [("S1", 0%Z)] false [].

Definition sa_no_places_heap : heap := snd sa_no_places.

Definition sa_no_places_game : StudentAllocation.t :=
  match fst sa_no_places with
  | Ok gw => fst gw
  | _ => StudentAllocation.mk [] [] [] false None None
  end.

(* ================================================================== *)
(** * Properties *)
(* ================================================================== *)

(** ** Basic facts about the array helpers *)

Lemma value_eqb_spec (v w : value) : reflect (v = w) (value_eqb v w).
Proof.
  destruct v as [| |a], w as [| |b]; simpl; try (constructor; congruence).
  destruct (Nat.eqb_spec a b); constructor; congruence.
Qed.

Lemma value_eqb_refl (v : value) : value_eqb v v = true.
Proof. destruct (value_eqb_spec v v); congruence. Qed.

Lemma value_eqb_eq (v w : value) : value_eqb v w = true <-> v = w.
Proof. destruct (value_eqb_spec v w); split; congruence. Qed.

Lemma value_eqb_neq (v w : value) : value_eqb v w = false <-> v <> w.
Proof. destruct (value_eqb_spec v w); split; congruence. Qed.

Lemma value_eqb_sym (v w : value) : value_eqb v w = value_eqb w v.
Proof.
  destruct (value_eqb_spec v w), (value_eqb_spec w v); congruence.
Qed.

Lemma includes_In (l : list value) (v : value) : includes l v = true <-> In v l.
Proof.
  unfold includes. rewrite existsb_exists. split.
  - intros [x [Hx He]]. apply value_eqb_eq in He. now subst.
  - intros H. exists v. split; [assumption | apply value_eqb_refl].
Qed.

Lemma includes_not_In (l : list value) (v : value) : includes l v = false <-> ~ In v l.
Proof.
  rewrite <- includes_In. destruct (includes l v); split; congruence.
Qed.

Lemma remove_value_In (v x : value) (l : list value) :
  In x (remove_value v l) <-> In x l /\ x <> v.
Proof.
  unfold remove_value. rewrite filter_In. rewrite negb_true_iff, value_eqb_neq. tauto.
Qed.

Lemma remove_value_length (v : value) (l : list value) :
  List.length (remove_value v l) <= List.length l.
Proof. apply filter_length_le. Qed.

Lemma remove_value_length_In (v : value) (l : list value) :
  In v l -> List.length (remove_value v l) < List.length l.
Proof.
  induction l as [|x l IH]; simpl; [tauto|].
  intros [->|H].
  - rewrite value_eqb_refl. simpl. pose proof (remove_value_length v l). lia.
  - destruct (negb (value_eqb x v)); simpl; [apply IH in H; lia|].
    pose proof (remove_value_length v l). lia.
Qed.

(* ================================================================== *)
(** ** Stable Marriage: the end-to-end example *)
(* ================================================================== *)

(** Claim C1 as stated does not hold of the solver: on the example
    instance the suitor-optimal run does not return {A:Y, B:X, C:Z}. *)
Lemma C1_suitor_optimal_is_not_AY_BX_CZ :
  fst (run_SM 10 example_suitorPrefs example_reviewerPrefs suitor_optimal [])
  <> Ok [("A", Some "Y"); ("B", Some "X"); ("C", Some "Z")].
Proof. vm_compute. discriminate. Qed.

(** C1 (amended): on the example instance the suitor-optimal run ends
    normally with {A:X, B:Y, C:Z}; {A:Y, B:X, C:Z} is the
    result of the reviewer-optimal run. *)
Theorem C1_example_matchings :
  fst (run_SM 10 example_suitorPrefs example_reviewerPrefs suitor_optimal [])
  = Ok [("A", Some "X"); ("B", Some "Y"); ("C", Some "Z")]
  /\ fst (run_SM 10 example_suitorPrefs example_reviewerPrefs reviewer_optimal [])
     = Ok [("A", Some "Y"); ("B", Some "X"); ("C", Some "Z")].
Proof. split; vm_compute; reflexivity. Qed.

(* ================================================================== *)
(** ** Stable Roommates: the documented instances *)
(* ================================================================== *)

(** C4: on the classic instance without a stable solution, solving ends
    without an exception; the returned matching leaves players
    unmatched and the failure is only reported through the two
    no-stable-matching warnings. *)
Theorem C4_unstable_instance_solves_with_nulls :
  exists game h,
    SR_create_and_solve 10 sr_unstable_prefs []
    = (Ok (game,
           [NoStableMatchingWarning [ref 7];
            NoStableMatchingWarning [ref 4; ref 5; ref 6; ref 7]],
           [("A", None); ("B", None); ("C", None); ("D", None)]), h).
Proof. eexists. eexists. vm_compute. reflexivity. Qed.

(** C5: on the four-player instance of the README the solver returns
    {A:B, B:A, C:D, D:C} without any warning, and [checkStability] on the
    solved game answers [true] and records an empty list of blocking
    pairs. *)
Theorem C5_stable_instance_result :
  exists game h,
    SR_create_and_solve 10 sr_stable_prefs []
    = (Ok (game, [],
           [("A", Some "B"); ("B", Some "A"); ("C", Some "D"); ("D", Some "C")]), h)
    /\ exists game' h',
         StableRoommates_checkStability game h = (Ok (true, game'), h')
         /\ StableRoommates.blockingPairs game' = Some [].
Proof.
  eexists. eexists. split.
  - vm_compute. reflexivity.
  - eexists. eexists. split; vm_compute; reflexivity.
Qed.

(** C3: the matching returned for Stable Roommates is to be symmetric,
    as the test 'should produce a symmetric matching' and the comment of
    [stableRoommates] (an incomplete matching has null values) say.  The
    code misses it: the six-player instance is accepted by the
    constructor and solved without an exception, with the two
    no-stable-matching warnings, and the returned map sends C to E while
    E is sent to F and F to C.  [secondPhase] leaves its loop as soon as
    one list is empty, and its last loop then matches every player with
    a list that is not empty to the head of that list, also when the
    list still holds several entries. *)
Lemma C3_six_player_result_not_symmetric :
  exists game ws record h,
    SR_create_and_solve 10 sr_six_prefs [] = (Ok (game, ws, record), h)
    /\ record = [("A", Some "D"); ("B", None); ("C", Some "E");
                 ("D", Some "A"); ("E", Some "F"); ("F", Some "C")]
    /\ exists m, StableRoommates.matching game = Some m /\ ~ symmetric_matching m.
Proof.
  eexists. eexists. eexists. eexists. split; [vm_compute; reflexivity|].
  split; [reflexivity|].
  eexists. split; [reflexivity|].
  intros H. specialize (H (ref 8) (ref 10) eq_refl eq_refl).
  vm_compute in H. discriminate.
Qed.

(* ================================================================== *)
(** ** Hospital-Resident: a capacity below one *)
(* ================================================================== *)

(** Claim C2 as stated does not hold: a hospital of capacity 0 is
    accepted (with a warning) when clean mode is off, and the
    hospital-optimal run matches it to a resident. *)
Lemma C2_capacity_zero_is_exceeded :
  exists g h x,
    HR_create_and_solve 2 [("A", ["X"])] [("X", ["A"])] [("X", 0%Z)] false hospital_optimal []
    = (Ok (g, [PlayerExcludedWarning (ref 3)]), h)
    /\ HospitalResident.hospitals g = [ref 3]
    /\ nth_error h 3 = Some (HospitalObj x)
    /\ ~ within_capacity x.
Proof.
  eexists. eexists. eexists. split; [vm_compute; reflexivity|].
  split; [reflexivity|]. split; [reflexivity|].
  unfold within_capacity. simpl. lia.
Qed.

(* ================================================================== *)
(** ** The heap and the monad *)
(* ================================================================== *)

Lemma upd_length (a : addr) (o : obj) (h : heap) : List.length (upd a o h) = List.length h.
Proof.
  revert a. induction h as [|x h IH]; intros [|a]; simpl; auto.
Qed.

Lemma nth_error_upd_same (a : addr) (o : obj) (h : heap) :
  a < List.length h -> nth_error (upd a o h) a = Some o.
Proof.
  revert a. induction h as [|x h IH]; intros [|a] H; simpl in *; try lia; auto.
  apply IH. lia.
Qed.

Lemma nth_error_upd_other (a b : addr) (o : obj) (h : heap) :
  a <> b -> nth_error (upd a o h) b = nth_error h b.
Proof.
  revert a b. induction h as [|x h IH]; intros [|a] [|b] H; simpl; auto; try congruence.
Qed.

Lemma obj_at_upd_same (a : addr) (o o0 : obj) (h : heap) :
  nth_error h a = Some o0 -> obj_at (upd a o h) (ref a) = Some o.
Proof.
  intros H. simpl. apply nth_error_upd_same. apply nth_error_Some. congruence.
Qed.

Lemma obj_at_upd_other (a : addr) (o : obj) (h : heap) (v : value) :
  v <> ref a -> obj_at (upd a o h) v = obj_at h v.
Proof.
  destruct v as [| |b]; simpl; auto. intros H.
  apply nth_error_upd_other. congruence.
Qed.

Lemma bind_ok {A B : Type} (m : M A) (k : A -> M B) (h h' : heap) (x : A) :
  m h = (Ok x, h') -> bind m k h = k x h'.
Proof. intros H. unfold bind. now rewrite H. Qed.

Lemma bind_throw {A B : Type} (m : M A) (k : A -> M B) (h h' : heap) (e : error) :
  m h = (Throw e, h') -> bind m k h = (Throw e, h').
Proof. intros H. unfold bind. now rewrite H. Qed.

Lemma bind_timeout {A B : Type} (m : M A) (k : A -> M B) (h h' : heap) :
  m h = (OutOfFuel, h') -> bind m k h = (OutOfFuel, h').
Proof. intros H. unfold bind. now rewrite H. Qed.

(** *** How the dispatched methods act on a [Player] and on a plain [Hospital] *)

Lemma getPlayer_at (s : string) (v : value) (h : heap) (p : Player.t) :
  obj_at h v = Some (PlayerObj p) -> getPlayer s v h = (Ok p, h).
Proof.
  destruct v as [| |a]; simpl; try discriminate. intros H.
  unfold getPlayer, bind, load. now rewrite H.
Qed.

Lemma getHospital_at (s : string) (v : value) (h : heap) (x : Hospital.t) :
  obj_at h v = Some (HospitalObj x) -> getHospital s v h = (Ok x, h).
Proof.
  destruct v as [| |a]; simpl; try discriminate. intros H.
  unfold getHospital, bind, load. now rewrite H.
Qed.

Lemma load_at (s : string) (v : value) (h : heap) (o : obj) :
  obj_at h v = Some o -> load s v h = (Ok o, h).
Proof.
  destruct v as [| |a]; simpl; try discriminate. intros H.
  unfold load. now rewrite H.
Qed.

Lemma obj_at_ref (h : heap) (v : value) (o : obj) :
  obj_at h v = Some o -> exists a, v = ref a /\ nth_error h a = Some o.
Proof. destruct v as [| |a]; simpl; try discriminate. eauto. Qed.

Lemma forget_player (a : addr) (other : value) (h : heap) (p : Player.t) :
  nth_error h a = Some (PlayerObj p) ->
  _forget (ref a) other h = (Ok tt, upd a (PlayerObj (Player._forget other p)) h).
Proof. intros H. unfold _forget, bind, load. now rewrite H. Qed.

Lemma match_player (a : addr) (other : value) (h : heap) (p : Player.t) :
  nth_error h a = Some (PlayerObj p) ->
  _match (ref a) other h = (Ok tt, upd a (PlayerObj (Player._match other p)) h).
Proof. intros H. unfold _match, bind, load. now rewrite H. Qed.

Lemma unmatch_player (a : addr) (arg : value) (h : heap) (p : Player.t) :
  nth_error h a = Some (PlayerObj p) ->
  _unmatch (ref a) arg h = (Ok tt, upd a (PlayerObj (Player._unmatch p)) h).
Proof. intros H. unfold _unmatch, bind, load. now rewrite H. Qed.

Lemma forget_hospital (a : addr) (other : value) (h : heap) (x : Hospital.t) :
  nth_error h a = Some (HospitalObj x) -> Hospital.cls x = IsHospital ->
  _forget (ref a) other h = (Ok tt, upd a (HospitalObj (Hospital._forget other x)) h).
Proof. intros H C. unfold _forget, bind, load. rewrite H, C. reflexivity. Qed.

Lemma match_hospital (a : addr) (other : value) (h : heap) (x : Hospital.t) :
  nth_error h a = Some (HospitalObj x) -> Hospital.cls x = IsHospital ->
  _match (ref a) other h = (Ok tt, upd a (HospitalObj (Hospital._match other x)) h).
Proof.
  intros H C. unfold _match, bind, load. rewrite H. simpl. rewrite C. reflexivity.
Qed.

Lemma unmatch_hospital (a : addr) (arg : value) (h : heap) (x : Hospital.t) :
  nth_error h a = Some (HospitalObj x) -> Hospital.cls x = IsHospital ->
  _unmatch (ref a) arg h = (Ok tt, upd a (HospitalObj (Hospital._unmatch arg x)) h).
Proof.
  intros H C. unfold _unmatch, bind, load. rewrite H. simpl. rewrite C. reflexivity.
Qed.

(* ================================================================== *)
(** ** Hospital-Resident: typing and capacity invariants *)
(* ================================================================== *)

Lemma forallb_includes_incl (l m : list value) :
  forallb (includes m) l = true <-> incl l m.
Proof.
  rewrite forallb_forall. unfold incl. split; intros H x Hx.
  - apply includes_In. auto.
  - apply includes_In. auto.
Qed.

Lemma resident_ok_wf (h : heap) (Hs : list value) (r : value) :
  resident_ok h Hs r = true <-> resident_wf h Hs r.
Proof.
  unfold resident_ok, resident_wf. split.
  - destruct (obj_at h r) as [[p|x]|]; try discriminate.
    rewrite andb_true_iff, orb_true_iff, forallb_includes_incl, value_eqb_eq, includes_In.
    intros [H1 H2]. exists p. auto.
  - intros [p [E [H1 H2]]]. rewrite E.
    rewrite andb_true_iff, orb_true_iff, forallb_includes_incl, value_eqb_eq, includes_In.
    auto.
Qed.

Lemma hospital_ok_wf (h : heap) (Rs : list value) (x : value) :
  hospital_ok h Rs x = true <-> hospital_wf h Rs x.
Proof.
  unfold hospital_ok, hospital_wf. split.
  - destruct (obj_at h x) as [[p|o]|]; try discriminate.
    rewrite !andb_true_iff, !forallb_includes_incl.
    intros [[H0 H1] H2]. exists o. destruct (Hospital.cls o); try discriminate. auto.
  - intros [o [E [C [H1 H2]]]]. rewrite E, C.
    rewrite !andb_true_iff, !forallb_includes_incl. auto.
Qed.

Lemma HR_wf_P (h : heap) (Rs Hs : list value) :
  HR_wf h Rs Hs = true <-> HR_wfP h Rs Hs.
Proof.
  unfold HR_wf, HR_wfP. rewrite andb_true_iff, !forallb_forall.
  split; intros [H1 H2]; split; intros v Hv.
  - apply resident_ok_wf; auto.
  - apply hospital_ok_wf; auto.
  - apply resident_ok_wf; auto.
  - apply hospital_ok_wf; auto.
Qed.

Lemma capacities_positive_P (h : heap) (Hs : list value) :
  capacities_positive h Hs = true <-> capacities_positiveP h Hs.
Proof.
  unfold capacities_positive, capacities_positiveP. rewrite forallb_forall.
  split; intros H x Hx; specialize (H x Hx); lia.
Qed.

Lemma capacity_respected_P (h : heap) (Hs : list value) :
  capacity_respected h Hs = true <-> capacity_respectedP h Hs.
Proof.
  unfold capacity_respected, capacity_respectedP. rewrite forallb_forall.
  split; intros H x Hx; specialize (H x Hx); lia.
Qed.

Lemma hmatching_upd_player (a : addr) (p p' : Player.t) (h : heap) (v : value) :
  nth_error h a = Some (PlayerObj p) ->
  hmatching (upd a (PlayerObj p') h) v = hmatching h v.
Proof.
  intros H. unfold hmatching. destruct (value_eqb_spec v (ref a)) as [->|N].
  - rewrite (obj_at_upd_same _ _ _ _ H). simpl. now rewrite H.
  - now rewrite obj_at_upd_other.
Qed.

Lemma hcapacity_upd_player (a : addr) (p p' : Player.t) (h : heap) (v : value) :
  nth_error h a = Some (PlayerObj p) ->
  hcapacity (upd a (PlayerObj p') h) v = hcapacity h v.
Proof.
  intros H. unfold hcapacity. destruct (value_eqb_spec v (ref a)) as [->|N].
  - rewrite (obj_at_upd_same _ _ _ _ H). simpl. now rewrite H.
  - now rewrite obj_at_upd_other.
Qed.

Lemma pmatching_upd_hospital (a : addr) (x x' : Hospital.t) (h : heap) (v : value) :
  nth_error h a = Some (HospitalObj x) ->
  pmatching (upd a (HospitalObj x') h) v = pmatching h v.
Proof.
  intros H. unfold pmatching. destruct (value_eqb_spec v (ref a)) as [->|N].
  - rewrite (obj_at_upd_same _ _ _ _ H). simpl. now rewrite H.
  - now rewrite obj_at_upd_other.
Qed.

Lemma hmatching_upd_hospital (a : addr) (x x' : Hospital.t) (h : heap) (v : value) :
  nth_error h a = Some (HospitalObj x) ->
  hmatching (upd a (HospitalObj x') h) v
  = if value_eqb v (ref a) then Hospital.matching x' else hmatching h v.
Proof.
  intros H. unfold hmatching. destruct (value_eqb_spec v (ref a)) as [->|N].
  - now rewrite (obj_at_upd_same _ _ _ _ H).
  - now rewrite obj_at_upd_other.
Qed.

Lemma hcapacity_upd_hospital (a : addr) (x x' : Hospital.t) (h : heap) (v : value) :
  nth_error h a = Some (HospitalObj x) ->
  hcapacity (upd a (HospitalObj x') h) v
  = if value_eqb v (ref a) then Hospital.capacity x' else hcapacity h v.
Proof.
  intros H. unfold hcapacity. destruct (value_eqb_spec v (ref a)) as [->|N].
  - now rewrite (obj_at_upd_same _ _ _ _ H).
  - now rewrite obj_at_upd_other.
Qed.

Lemma pmatching_upd_player (a : addr) (p p' : Player.t) (h : heap) (v : value) :
  nth_error h a = Some (PlayerObj p) ->
  pmatching (upd a (PlayerObj p') h) v
  = if value_eqb v (ref a) then Player.matching p' else pmatching h v.
Proof.
  intros H. unfold pmatching. destruct (value_eqb_spec v (ref a)) as [->|N].
  - now rewrite (obj_at_upd_same _ _ _ _ H).
  - now rewrite obj_at_upd_other.
Qed.

Section HR_invariants.

Variables Rs Hs : list value.

Lemma wf_upd_resident (h : heap) (a : addr) (p p' : Player.t) :
  HR_wfP h Rs Hs ->
  nth_error h a = Some (PlayerObj p) ->
  incl (Player.prefs p') Hs ->
  (Player.matching p' = null \/ In (Player.matching p') Hs) ->
  HR_wfP (upd a (PlayerObj p') h) Rs Hs.
Proof.
  intros [W1 W2] E I1 I2. split.
  - intros r Hr. destruct (value_eqb_spec r (ref a)) as [->|N].
    + exists p'. rewrite (obj_at_upd_same _ _ _ _ E). auto.
    + destruct (W1 r Hr) as [q [Eq Hq]]. exists q. rewrite obj_at_upd_other; auto.
  - intros x Hx. destruct (W2 x Hx) as [o [Eo Ho]]. exists o.
    rewrite obj_at_upd_other; auto.
    intros ->. simpl in Eo. congruence.
Qed.

Lemma wf_upd_hospital (h : heap) (a : addr) (x x' : Hospital.t) :
  HR_wfP h Rs Hs ->
  nth_error h a = Some (HospitalObj x) ->
  Hospital.cls x' = IsHospital ->
  incl (Hospital.prefs x') Rs ->
  incl (Hospital.matching x') Rs ->
  HR_wfP (upd a (HospitalObj x') h) Rs Hs.
Proof.
  intros [W1 W2] E C I1 I2. split.
  - intros r Hr. destruct (W1 r Hr) as [q [Eq Hq]]. exists q.
    rewrite obj_at_upd_other; auto.
    intros ->. simpl in Eq. congruence.
  - intros y Hy. destruct (value_eqb_spec y (ref a)) as [->|N].
    + exists x'. rewrite (obj_at_upd_same _ _ _ _ E). auto.
    + destruct (W2 y Hy) as [o [Eo Ho]]. exists o. rewrite obj_at_upd_other; auto.
Qed.

Lemma incl_remove_value (v : value) (l m : list value) :
  incl l m -> incl (remove_value v l) m.
Proof. intros H x Hx. apply remove_value_In in Hx. apply H. tauto. Qed.

Lemma incl_remove_first (v : value) (l m : list value) :
  incl l m -> incl (remove_first v l) m.
Proof.
  induction l as [|x l IH]; simpl; intros H; auto.
  destruct (value_eqb x v).
  - intros y Hy. apply H. now right.
  - intros y [->|Hy]; [apply H; now left|].
    apply IH; auto. intros z Hz. apply H. now right.
Qed.

(** Both halves of [deletePair] only shrink preference lists. *)
Lemma deletePair_hospital_resident (h : heap) (x r : value) :
  HR_wfP h Rs Hs -> In x Hs -> In r Rs ->
  exists h', deletePair x r h = (Ok tt, h')
    /\ HR_wfP h' Rs Hs
    /\ (forall v, hmatching h' v = hmatching h v)
    /\ (forall v, hcapacity h' v = hcapacity h v)
    /\ (forall v, pmatching h' v = pmatching h v).
Proof.
  intros W Hx Hr.
  destruct (proj2 W x Hx) as [o [Eo [C [I1 I2]]]].
  destruct (obj_at_ref _ _ _ Eo) as [b [-> Eb]].
  pose proof (forget_hospital b r h o Eb C) as F1.
  set (h1 := upd b (HospitalObj (Hospital._forget r o)) h) in *.
  assert (W1 : HR_wfP h1 Rs Hs).
  { apply wf_upd_hospital with (x := o); auto.
    simpl. now apply incl_remove_value. }
  destruct (proj1 W1 r Hr) as [p [Ep [J1 J2]]].
  destruct (obj_at_ref _ _ _ Ep) as [a [-> Ea]].
  pose proof (forget_player a (ref b) h1 p Ea) as F2.
  exists (upd a (PlayerObj (Player._forget (ref b) p)) h1).
  split; [|split; [|split; [|split]]].
  - unfold deletePair. rewrite (bind_ok _ _ _ _ _ F1). exact F2.
  - apply wf_upd_resident with (p := p); auto.
    simpl. now apply incl_remove_value.
  - intros v. rewrite (hmatching_upd_player _ _ _ _ _ Ea). unfold h1.
    rewrite (hmatching_upd_hospital _ _ _ _ _ Eb).
    destruct (value_eqb_spec v (ref b)) as [->|N]; auto.
    unfold hmatching. simpl. now rewrite Eb.
  - intros v. rewrite (hcapacity_upd_player _ _ _ _ _ Ea). unfold h1.
    rewrite (hcapacity_upd_hospital _ _ _ _ _ Eb).
    destruct (value_eqb_spec v (ref b)) as [->|N]; auto.
    unfold hcapacity. simpl. now rewrite Eb.
  - intros v. rewrite (pmatching_upd_player _ _ _ _ _ Ea). unfold h1.
    rewrite (pmatching_upd_hospital _ _ _ _ _ Eb).
    destruct (value_eqb_spec v (ref a)) as [->|N]; auto.
    simpl. unfold pmatching.
    assert (E0 : obj_at h (ref a) = Some (PlayerObj p)).
    { unfold h1 in Ea. simpl. rewrite nth_error_upd_other in Ea; auto.
      intros ->. rewrite (nth_error_upd_same _ _ _) in Ea; [congruence|].
      apply nth_error_Some. congruence. }
    now rewrite E0.
Qed.

Lemma deletePair_resident_hospital (h : heap) (r x : value) :
  HR_wfP h Rs Hs -> In x Hs -> In r Rs ->
  exists h', deletePair r x h = (Ok tt, h')
    /\ HR_wfP h' Rs Hs
    /\ (forall v, hmatching h' v = hmatching h v)
    /\ (forall v, hcapacity h' v = hcapacity h v)
    /\ (forall v, pmatching h' v = pmatching h v).
Proof.
  intros W Hx Hr.
  destruct (proj1 W r Hr) as [p [Ep [J1 J2]]].
  destruct (obj_at_ref _ _ _ Ep) as [a [-> Ea]].
  pose proof (forget_player a x h p Ea) as F1.
  set (h1 := upd a (PlayerObj (Player._forget x p)) h) in *.
  assert (W1 : HR_wfP h1 Rs Hs).
  { apply wf_upd_resident with (p := p); auto.
    simpl. now apply incl_remove_value. }
  destruct (proj2 W1 x Hx) as [o [Eo [C [I1 I2]]]].
  destruct (obj_at_ref _ _ _ Eo) as [b [-> Eb]].
  pose proof (forget_hospital b (ref a) h1 o Eb C) as F2.
  exists (upd b (HospitalObj (Hospital._forget (ref a) o)) h1).
  assert (E0 : nth_error h b = Some (HospitalObj o)).
  { unfold h1 in Eb. rewrite nth_error_upd_other in Eb; auto.
    intros ->. rewrite (nth_error_upd_same _ _ _) in Eb; [congruence|].
    apply nth_error_Some. congruence. }
  split; [|split; [|split; [|split]]].
  - unfold deletePair. rewrite (bind_ok _ _ _ _ _ F1). exact F2.
  - apply wf_upd_hospital with (x := o); auto.
    simpl. now apply incl_remove_value.
  - intros v. rewrite (hmatching_upd_hospital _ _ _ _ _ Eb). unfold h1.
    rewrite (hmatching_upd_player _ _ _ _ _ Ea).
    destruct (value_eqb_spec v (ref b)) as [->|N]; auto.
    unfold hmatching. simpl. now rewrite E0.
  - intros v. rewrite (hcapacity_upd_hospital _ _ _ _ _ Eb). unfold h1.
    rewrite (hcapacity_upd_player _ _ _ _ _ Ea).
    destruct (value_eqb_spec v (ref b)) as [->|N]; auto.
    unfold hcapacity. simpl. now rewrite E0.
  - intros v. rewrite (pmatching_upd_hospital _ _ _ _ _ Eb). unfold h1.
    rewrite (pmatching_upd_player _ _ _ _ _ Ea).
    destruct (value_eqb_spec v (ref a)) as [->|N]; auto.
    simpl. unfold pmatching. simpl. now rewrite Ea.
Qed.

Lemma insert_by_perm (key : value -> Z) (x : value) (l : list value) :
  Permutation (x :: l) (insert_by key x l).
Proof.
  induction l as [|y l IH]; simpl; auto.
  destruct (key x <=? key y)%Z; auto.
  rewrite perm_swap. now constructor.
Qed.

Lemma sort_by_perm (key : value -> Z) (l : list value) :
  Permutation l (sort_by key l).
Proof.
  induction l as [|x l IH]; simpl; auto.
  rewrite <- insert_by_perm. now constructor.
Qed.

(** [unmatchPair(resident, hospital)] of the HR algorithm. *)
Lemma HR_unmatchPair_spec (h : heap) (r x : value) :
  HR_wfP h Rs Hs -> In r Rs -> In x Hs ->
  exists h', HR_unmatchPair r x h = (Ok tt, h')
    /\ HR_wfP h' Rs Hs
    /\ (forall v, hcapacity h' v = hcapacity h v)
    /\ (forall v, hmatching h' v
                  = if value_eqb v x then remove_value r (hmatching h x) else hmatching h v)
    /\ (forall v, pmatching h' v = if value_eqb v r then null else pmatching h v).
Proof.
  intros W Hr Hx.
  destruct (proj1 W r Hr) as [p [Ep [J1 J2]]].
  destruct (obj_at_ref _ _ _ Ep) as [a [-> Ea]].
  pose proof (unmatch_player a undefined h p Ea) as F1.
  set (h1 := upd a (PlayerObj (Player._unmatch p)) h) in *.
  assert (W1 : HR_wfP h1 Rs Hs).
  { apply wf_upd_resident with (p := p); auto. }
  destruct (proj2 W1 x Hx) as [o [Eo [C [I1 I2]]]].
  destruct (obj_at_ref _ _ _ Eo) as [b [-> Eb]].
  pose proof (unmatch_hospital b (ref a) h1 o Eb C) as F2.
  exists (upd b (HospitalObj (Hospital._unmatch (ref a) o)) h1).
  assert (E0 : nth_error h b = Some (HospitalObj o)).
  { unfold h1 in Eb. rewrite nth_error_upd_other in Eb; auto.
    intros ->. rewrite (nth_error_upd_same _ _ _) in Eb; [congruence|].
    apply nth_error_Some. congruence. }
  split; [|split; [|split; [|split]]].
  - unfold HR_unmatchPair. rewrite (bind_ok _ _ _ _ _ F1). exact F2.
  - apply wf_upd_hospital with (x := o); auto.
    simpl. now apply incl_remove_value.
  - intros v. rewrite (hcapacity_upd_hospital _ _ _ _ _ Eb). unfold h1.
    rewrite (hcapacity_upd_player _ _ _ _ _ Ea).
    destruct (value_eqb_spec v (ref b)) as [->|N]; auto.
    unfold hcapacity. simpl. now rewrite E0.
  - intros v. rewrite (hmatching_upd_hospital _ _ _ _ _ Eb). unfold h1.
    rewrite (hmatching_upd_player _ _ _ _ _ Ea).
    destruct (value_eqb_spec v (ref b)) as [->|N]; auto.
    unfold hmatching. simpl. now rewrite E0.
  - intros v. rewrite (pmatching_upd_hospital _ _ _ _ _ Eb). unfold h1.
    rewrite (pmatching_upd_player _ _ _ _ _ Ea). reflexivity.
Qed.

(** [matchPair(resident, hospital)] in the HR algorithm. *)
Lemma HR_matchPair_spec (h : heap) (r x : value) :
  HR_wfP h Rs Hs -> In r Rs -> In x Hs ->
  exists h', matchPair r x h = (Ok tt, h')
    /\ HR_wfP h' Rs Hs
    /\ (forall v, hcapacity h' v = hcapacity h v)
    /\ (forall v, v <> x -> hmatching h' v = hmatching h v)
    /\ Permutation (hmatching h x ++ [r]) (hmatching h' x)
    /\ (forall v, pmatching h' v = if value_eqb v r then x else pmatching h v).
Proof.
  intros W Hr Hx.
  destruct (proj1 W r Hr) as [p [Ep [J1 J2]]].
  destruct (obj_at_ref _ _ _ Ep) as [a [-> Ea]].
  pose proof (match_player a x h p Ea) as F1.
  set (h1 := upd a (PlayerObj (Player._match x p)) h) in *.
  assert (W1 : HR_wfP h1 Rs Hs).
  { apply wf_upd_resident with (p := p); auto. }
  destruct (proj2 W1 x Hx) as [o [Eo [C [I1 I2]]]].
  destruct (obj_at_ref _ _ _ Eo) as [b [-> Eb]].
  pose proof (match_hospital b (ref a) h1 o Eb C) as F2.
  exists (upd b (HospitalObj (Hospital._match (ref a) o)) h1).
  assert (E0 : nth_error h b = Some (HospitalObj o)).
  { unfold h1 in Eb. rewrite nth_error_upd_other in Eb; auto.
    intros ->. rewrite (nth_error_upd_same _ _ _) in Eb; [congruence|].
    apply nth_error_Some. congruence. }
  split; [|split; [|split; [|split; [|split]]]].
  - unfold matchPair. rewrite (bind_ok _ _ _ _ _ F1). exact F2.
  - apply wf_upd_hospital with (x := o); auto.
    simpl. intros y Hy.
    apply (Permutation_in _ (Permutation_sym (sort_by_perm _ _))) in Hy.
    apply in_app_or in Hy. destruct Hy as [Hy|[<-|[]]]; auto.
  - intros v. rewrite (hcapacity_upd_hospital _ _ _ _ _ Eb). unfold h1.
    rewrite (hcapacity_upd_player _ _ _ _ _ Ea).
    destruct (value_eqb_spec v (ref b)) as [->|N]; auto.
    unfold hcapacity. simpl. now rewrite E0.
  - intros v N. rewrite (hmatching_upd_hospital _ _ _ _ _ Eb). unfold h1.
    rewrite (hmatching_upd_player _ _ _ _ _ Ea).
    destruct (value_eqb_spec v (ref b)) as [->|_]; congruence.
  - rewrite (hmatching_upd_hospital _ _ _ _ _ Eb). rewrite value_eqb_refl.
    simpl. unfold hmatching at 1. simpl. rewrite E0. apply sort_by_perm.
  - intros v. rewrite (pmatching_upd_hospital _ _ _ _ _ Eb). unfold h1.
    rewrite (pmatching_upd_player _ _ _ _ _ Ea). reflexivity.
Qed.

End HR_invariants.

Lemma last_In (l : list value) (d : value) : l <> [] -> In (last l d) l.
Proof.
  induction l as [|x l IH]; [congruence|]. intros _.
  destruct l as [|y l]; [now left|].
  right. apply IH. discriminate.
Qed.

Lemma slice_incl (l : list value) (i : Z) : incl (slice l i) l.
Proof.
  unfold slice. intros x Hx.
  rewrite <- (firstn_skipn (Z.to_nat i) l). apply in_or_app. now right.
Qed.

Lemma at_index_0_In (l : list value) : l <> [] -> In (at_index l 0) l.
Proof. destruct l; [congruence|]. intros _. now left. Qed.

Lemma pop_app {A : Type} (l : list A) (x : A) : pop (l ++ [x]) = Some (x, l).
Proof. unfold pop. rewrite rev_unit. now rewrite rev_involutive. Qed.

Lemma pop_nil {A : Type} : pop (@nil A) = None.
Proof. reflexivity. Qed.

Lemma pop_Some {A : Type} (l r : list A) (x : A) : pop l = Some (x, r) -> l = r ++ [x].
Proof.
  unfold pop. destruct (rev l) as [|y t] eqn:E; [discriminate|].
  intros H. injection H as -> <-.
  rewrite <- (rev_involutive l), E. reflexivity.
Qed.

Lemma pop_None {A : Type} (l : list A) : pop l = None -> l = [].
Proof.
  unfold pop. destruct (rev l) as [|y t] eqn:E; [|discriminate].
  intros _. rewrite <- (rev_involutive l), E. reflexivity.
Qed.

Section HR_resident_optimal.

Variables Rs Hs : list value.

Lemma residentOptimal_delete_spec (x : value) (succs : list value) :
  forall (free : list value) (h : heap),
    HR_wfP h Rs Hs -> In x Hs -> incl succs Rs -> incl free Rs ->
    exists free' h',
      residentOptimal_delete x succs free h = (Ok free', h')
      /\ HR_wfP h' Rs Hs
      /\ (forall v, hmatching h' v = hmatching h v)
      /\ (forall v, hcapacity h' v = hcapacity h v)
      /\ incl free' Rs.
Proof.
  induction succs as [|s succs IH]; intros free h W Hx Hs' Hf; simpl.
  - exists free, h. unfold ret. auto.
  - assert (Hin : In s Rs) by (apply Hs'; now left).
    destruct (deletePair_hospital_resident Rs Hs h x s W Hx Hin)
      as [h1 [E1 [W1 [M1 [C1 _]]]]].
    rewrite (bind_ok _ _ _ _ _ E1).
    destruct (proj1 W1 s Hin) as [p [Ep _]].
    rewrite (bind_ok _ _ _ _ _ (load_at "prefs" s h1 _ Ep)).
    destruct (IH (if Nat.eqb (List.length (obj_prefs (PlayerObj p))) 0 && includes free s
                  then remove_first s free else free) h1 W1 Hx)
      as [free' [h' [E' [W' [M' [C' F']]]]]].
    + intros y Hy. apply Hs'. now right.
    + destruct (_ && _); auto. now apply incl_remove_first.
    + exists free', h'. split; [exact E'|]. split; [exact W'|].
      split; [intros v; now rewrite M', M1|].
      split; [intros v; now rewrite C', C1|]. exact F'.
Qed.

(** One iteration of the resident-optimal loop keeps the entities
    well-typed and every hospital within its capacity, and does not
    throw. *)
Lemma residentOptimal_step_spec (r : value) (free : list value) (h : heap) :
  HR_wfP h Rs Hs -> capacities_positiveP h Hs -> capacity_respectedP h Hs ->
  In r Rs -> incl free Rs ->
  exists free' h',
    residentOptimal_step r free h = (Ok free', h')
    /\ HR_wfP h' Rs Hs
    /\ capacities_positiveP h' Hs
    /\ capacity_respectedP h' Hs
    /\ incl free' Rs.
Proof.
  intros W CP CR Hr Hf. unfold residentOptimal_step.
  destruct (proj1 W r Hr) as [p [Ep [J1 J2]]].
  rewrite (bind_ok _ _ _ _ _ (getPlayer_at "prefs" r h p Ep)).
  destruct (Nat.eqb_spec (List.length (Player.prefs p)) 0) as [E0|N0].
  { exists free, h. unfold ret. auto. }
  assert (Hx : In (Player.getFavourite p) Hs).
  { apply J1. apply at_index_0_In. destruct (Player.prefs p); simpl in *; congruence. }
  set (x := Player.getFavourite p) in *.
  destruct (proj2 W x Hx) as [o [Eo [C [I1 I2]]]].
  rewrite (bind_ok _ _ _ _ _ (getHospital_at "matching" x h o Eo)).
  assert (Mo : hmatching h x = Hospital.matching o) by (unfold hmatching; now rewrite Eo).
  assert (Co : hcapacity h x = Hospital.capacity o) by (unfold hcapacity; now rewrite Eo).
  (* the eviction *)
  assert (Ev : exists free1 h1,
    (if (Z.of_nat (List.length (Hospital.matching o)) =? Hospital.capacity o)%Z
     then HR_unmatchPair (Hospital.getWorstMatch o) x ;;
          ret (free ++ [Hospital.getWorstMatch o])
     else ret free) h = (Ok free1, h1)
    /\ HR_wfP h1 Rs Hs
    /\ (forall v, hcapacity h1 v = hcapacity h v)
    /\ (forall v, v <> x -> hmatching h1 v = hmatching h v)
    /\ (Z.of_nat (List.length (hmatching h1 x)) < hcapacity h x)%Z
    /\ incl free1 Rs).
  { destruct (Z.eqb_spec (Z.of_nat (List.length (Hospital.matching o))) (Hospital.capacity o))
      as [Efull|Nfull].
    - pose proof (CP x Hx) as Cx. rewrite Co in Cx.
      assert (Hne : Hospital.matching o <> []).
      { intros E. rewrite E in Efull. simpl in Efull. lia. }
      assert (Hw : Hospital.getWorstMatch o = last (Hospital.matching o) undefined).
      { unfold Hospital.getWorstMatch. destruct (Hospital.matching o); congruence. }
      assert (Hwin : In (Hospital.getWorstMatch o) (Hospital.matching o)).
      { rewrite Hw. now apply last_In. }
      destruct (HR_unmatchPair_spec Rs Hs h (Hospital.getWorstMatch o) x W (I2 _ Hwin) Hx)
        as [h1 [E1 [W1 [C1 [M1 _]]]]].
      exists (free ++ [Hospital.getWorstMatch o]), h1.
      split; [now rewrite (bind_ok _ _ _ _ _ E1)|].
      split; [exact W1|]. split; [exact C1|].
      split; [intros v Hv; rewrite M1; destruct (value_eqb_spec v x); congruence|].
      split.
      + rewrite M1, value_eqb_refl, Mo, Co.
        pose proof (remove_value_length_In _ _ Hwin). lia.
      + apply incl_app; auto. intros y [<-|[]]. auto.
    - exists free, h. split; [reflexivity|]. split; [exact W|].
      split; [reflexivity|]. split; [reflexivity|].
      split; [|exact Hf].
      pose proof (CR x Hx) as Cx. rewrite Mo, Co in *. lia. }
  destruct Ev as [free1 [h1 [E1 [W1 [C1 [M1 [L1 F1]]]]]]].
  rewrite (bind_ok _ _ _ _ _ E1).
  destruct (HR_matchPair_spec Rs Hs h1 r x W1 Hr Hx) as [h2 [E2 [W2 [C2 [M2 [P2 _]]]]]].
  rewrite (bind_ok _ _ _ _ _ E2).
  destruct (proj2 W2 x Hx) as [o2 [Eo2 [C' [I1' I2']]]].
  rewrite (bind_ok _ _ _ _ _ (getHospital_at "matching" x h2 o2 Eo2)).
  assert (CP2 : capacities_positiveP h2 Hs).
  { intros y Hy. rewrite C2, C1. auto. }
  assert (CR2 : capacity_respectedP h2 Hs).
  { intros y Hy. rewrite C2, C1. destruct (value_eqb_spec y x) as [->|N].
    - rewrite <- (Permutation_length P2), length_app. simpl. lia.
    - rewrite M2, M1; auto. }
  destruct (Z.of_nat (List.length (Hospital.matching o2)) =? Hospital.capacity o2)%Z.
  - destruct (residentOptimal_delete_spec x (Hospital.getSuccessors o2) free1 h2 W2 Hx)
      as [free' [h' [E' [W' [M' [Cc' F']]]]]]; auto.
    { unfold Hospital.getSuccessors. destruct (truthy _); [|intros y []].
      intros y Hy. apply I1'. eapply slice_incl. exact Hy. }
    exists free', h'. split; [exact E'|]. split; [exact W'|].
    split; [intros y Hy; rewrite Cc'; auto|].
    split; [intros y Hy; rewrite Cc', M'; auto|]. exact F'.
  - exists free1, h2. unfold ret. auto.
Qed.

Lemma residentOptimal_loop_spec (fuel : nat) :
  forall (free : list value) (h : heap),
    HR_wfP h Rs Hs -> capacities_positiveP h Hs -> capacity_respectedP h Hs ->
    incl free Rs ->
    exists r h', residentOptimal_loop fuel free h = (r, h')
      /\ (forall e, r <> Throw e)
      /\ HR_wfP h' Rs Hs
      /\ capacities_positiveP h' Hs
      /\ capacity_respectedP h' Hs.
Proof.
  induction fuel as [|fuel IH]; intros free h W CP CR Hf; simpl.
  - destruct free; eexists; eexists; (split; [reflexivity|]); repeat split; auto;
      try discriminate; apply W.
  - destruct (pop free) as [[r free0]|] eqn:Ep.
    + apply pop_Some in Ep. subst free.
      destruct (residentOptimal_step_spec r free0 h W CP CR) as [free' [h' [E [W' [CP' [CR' F']]]]]].
      * apply Hf. apply in_or_app. right. now left.
      * intros y Hy. apply Hf. apply in_or_app. now left.
      * rewrite (bind_ok _ _ _ _ _ E). apply IH; auto.
    + eexists; eexists; (split; [reflexivity|]); repeat split; auto;
        try discriminate; apply W.
Qed.

End HR_resident_optimal.

Lemma remove_first_In (v x : value) (l : list value) :
  In x (remove_first v l) -> In x l.
Proof.
  induction l as [|y l IH]; simpl; auto.
  destruct (value_eqb y v); simpl; intuition.
Qed.

Lemma remove_first_NoDup (v : value) (l : list value) :
  NoDup l -> NoDup (remove_first v l).
Proof.
  induction 1 as [|y l Hy Hl IH]; simpl; [constructor|].
  destruct (value_eqb y v); auto.
  constructor; auto. intros Hin. apply Hy. eapply remove_first_In; eauto.
Qed.

Lemma nodupb_NoDup (l : list value) : nodupb l = true <-> NoDup l.
Proof.
  induction l as [|x l IH]; simpl.
  - split; [constructor|reflexivity].
  - rewrite andb_true_iff, negb_true_iff, includes_not_In, IH. split.
    + intros [H1 H2]. now constructor.
    + intros H. inversion H; subst. auto.
Qed.

Lemma NoDup_snoc (l : list value) (x : value) :
  NoDup (l ++ [x]) <-> NoDup l /\ ~ In x l.
Proof.
  split.
  - intros H. apply NoDup_remove in H. rewrite app_nil_r in H. exact H.
  - intros [H1 H2]. apply NoDup_app; [assumption|repeat constructor; intros []|].
    intros y Hy [<-|[]]. contradiction.
Qed.

Section HR_hospital_optimal.

Variables Rs Hs : list value.

Lemma checkAvailable_spec (h : heap) (x : value) :
  HR_wfP h Rs Hs -> In x Hs ->
  exists b, checkAvailable x h = (Ok b, h)
    /\ (b = true -> (Z.of_nat (List.length (hmatching h x)) < hcapacity h x)%Z).
Proof.
  intros W Hx. destruct (proj2 W x Hx) as [o [Eo _]].
  unfold checkAvailable. rewrite (bind_ok _ _ _ _ _ (getHospital_at "matching" x h o Eo)).
  eexists. split; [reflexivity|].
  rewrite andb_true_iff. intros [H _]. unfold hmatching, hcapacity. rewrite Eo. lia.
Qed.

Lemma hospitalOptimal_delete_spec (r : value) (succs : list value) :
  forall (free : list value) (h : heap),
    HR_wfP h Rs Hs -> In r Rs -> incl succs Hs -> free_hospitals_ok Hs h free ->
    exists free' h',
      hospitalOptimal_delete r succs free h = (Ok free', h')
      /\ HR_wfP h' Rs Hs
      /\ (forall v, hmatching h' v = hmatching h v)
      /\ (forall v, hcapacity h' v = hcapacity h v)
      /\ (forall v, pmatching h' v = pmatching h v)
      /\ free_hospitals_ok Hs h' free'.
Proof.
  induction succs as [|s succs IH]; intros free h W Hr Hs' Hf; simpl.
  - exists free, h. unfold ret. auto 10.
  - assert (Hin : In s Hs) by (apply Hs'; now left).
    destruct (deletePair_resident_hospital Rs Hs h r s W Hin Hr)
      as [h1 [E1 [W1 [M1 [C1 P1]]]]].
    rewrite (bind_ok _ _ _ _ _ E1).
    destruct (checkAvailable_spec h1 s W1 Hin) as [b [Eb _]].
    rewrite (bind_ok _ _ _ _ _ Eb).
    destruct (IH (if negb b && includes free s then remove_first s free else free) h1 W1 Hr)
      as [free' [h' [E' [W' [M' [C' [P' F']]]]]]].
    + intros y Hy. apply Hs'. now right.
    + destruct Hf as [F1 [F2 F3]].
      assert (F3' : forall y, In y free ->
                (Z.of_nat (List.length (hmatching h1 y)) < hcapacity h1 y)%Z).
      { intros y Hy. rewrite M1, C1. auto. }
      destruct (_ && _).
      * split; [now apply remove_first_NoDup|]. split.
        -- intros y Hy. apply F2. eapply remove_first_In; eauto.
        -- intros y Hy. apply F3'. eapply remove_first_In; eauto.
      * split; auto.
    + exists free', h'. split; [exact E'|]. split; [exact W'|].
      split; [intros v; now rewrite M', M1|].
      split; [intros v; now rewrite C', C1|].
      split; [intros v; now rewrite P', P1|]. exact F'.
Qed.

(** One iteration of the hospital-optimal loop. *)
Lemma hospitalOptimal_step_spec (x : value) (free : list value) (h : heap) :
  HR_wfP h Rs Hs -> capacity_respectedP h Hs -> matches_consistent Rs h ->
  free_hospitals_ok Hs h (free ++ [x]) ->
  exists free' h',
    hospitalOptimal_step x free h = (Ok free', h')
    /\ HR_wfP h' Rs Hs
    /\ capacity_respectedP h' Hs
    /\ matches_consistent Rs h'
    /\ free_hospitals_ok Hs h' free'.
Proof.
  intros W CR MC [FN [FI FC]]. unfold hospitalOptimal_step.
  apply NoDup_snoc in FN. destruct FN as [FN Fx].
  assert (Hx : In x Hs) by (apply FI; apply in_or_app; right; now left).
  assert (FI0 : incl free Hs) by (intros y Hy; apply FI; apply in_or_app; now left).
  assert (FC0 : forall y, In y free ->
             (Z.of_nat (List.length (hmatching h y)) < hcapacity h y)%Z).
  { intros y Hy. apply FC. apply in_or_app. now left. }
  assert (FCx : (Z.of_nat (List.length (hmatching h x)) < hcapacity h x)%Z).
  { apply FC. apply in_or_app. right. now left. }
  destruct (proj2 W x Hx) as [o [Eo [C [I1 I2]]]].
  rewrite (bind_ok _ _ _ _ _ (getHospital_at "getFavourite" x h o Eo)).
  destruct (truthy (Hospital.getFavourite o)) eqn:Tr; simpl.
  2:{ exists free, h. unfold ret. split; [reflexivity|].
      split; [exact W|]. split; [exact CR|]. split; [exact MC|].
      split; [exact FN|]. split; [exact FI0|exact FC0]. }
  assert (Hfav : In (Hospital.getFavourite o) (Hospital.prefs o)
                 /\ ~ In (Hospital.getFavourite o) (Hospital.matching o)).
  { unfold Hospital.getFavourite in *.
    destruct (find _ (Hospital.prefs o)) as [q|] eqn:Ef; [|discriminate].
    apply find_some in Ef. destruct Ef as [F1 F2].
    split; auto. apply negb_true_iff in F2. now apply includes_not_In. }
  set (r := Hospital.getFavourite o) in *. destruct Hfav as [Hrp Hrm].
  assert (Hr : In r Rs) by auto.
  destruct (proj1 W r Hr) as [p [Ep [J1 J2]]].
  rewrite (bind_ok _ _ _ _ _ (getPlayer_at "matching" r h p Ep)).
  assert (Mx : hmatching h x = Hospital.matching o) by (unfold hmatching; now rewrite Eo).
  assert (Pr : pmatching h r = Player.matching p) by (unfold pmatching; now rewrite Ep).
  (* leaving the previous hospital *)
  assert (Ev : exists free1 h1,
    (if truthy (Player.matching p)
     then HR_unmatchPair r (Player.matching p) ;;
          ret (if negb (includes free (Player.matching p))
               then free ++ [Player.matching p] else free)
     else ret free) h = (Ok free1, h1)
    /\ HR_wfP h1 Rs Hs
    /\ (forall v, hcapacity h1 v = hcapacity h v)
    /\ hmatching h1 x = hmatching h x
    /\ (forall v, (List.length (hmatching h1 v) <= List.length (hmatching h v))%nat)
    /\ (forall v, In v free1 -> ~ In v free ->
                  (List.length (hmatching h1 v) < List.length (hmatching h v))%nat)
    /\ (forall v, In v Rs -> v <> r -> truthy (pmatching h1 v) = true ->
                  In v (hmatching h1 (pmatching h1 v)))
    /\ NoDup free1 /\ incl free1 Hs /\ ~ In x free1).
  { destruct (truthy (Player.matching p)) eqn:Tm.
    - assert (Hc : In (Player.matching p) Hs).
      { destruct J2 as [J2|J2]; auto. rewrite J2 in Tm. discriminate. }
      set (c := Player.matching p) in *.
      assert (Hrc : In r (hmatching h c)).
      { specialize (MC r Hr). rewrite Pr in MC. auto. }
      assert (Ncx : c <> x).
      { intros E. rewrite E, Mx in Hrc. contradiction. }
      destruct (HR_unmatchPair_spec Rs Hs h r c W Hr Hc) as [h1 [E1 [W1 [C1 [M1 P1]]]]].
      eexists. exists h1. split; [now rewrite (bind_ok _ _ _ _ _ E1)|].
      split; [exact W1|]. split; [exact C1|].
      split; [rewrite M1; destruct (value_eqb_spec x c); congruence|].
      split.
      { intros v. rewrite M1. destruct (value_eqb_spec v c) as [->|]; auto.
        apply remove_value_length. }
      split.
      { intros v Hv Nv. destruct (includes free c) eqn:Ic; simpl in Hv; [contradiction|].
        apply in_app_or in Hv. destruct Hv as [Hv|[<-|[]]]; [contradiction|].
        rewrite M1, value_eqb_refl. now apply remove_value_length_In. }
      split.
      { intros v Hv Nv Tv. rewrite P1 in Tv |- *.
        destruct (value_eqb_spec v r) as [|_]; [contradiction|].
        rewrite M1. pose proof (MC v Hv Tv) as Hin.
        destruct (value_eqb_spec (pmatching h v) c) as [Ec|]; auto.
        apply remove_value_In. rewrite <- Ec. auto. }
      destruct (includes free c) eqn:Ic; simpl.
      + split; [exact FN|]. split; [exact FI0|]. exact Fx.
      + split; [apply NoDup_snoc; split; auto; now apply includes_not_In|].
        split; [apply incl_app; auto; intros y [<-|[]]; auto|].
        intros Hin. apply in_app_or in Hin. destruct Hin as [Hin|[Hin|[]]]; auto.
    - exists free, h. split; [reflexivity|]. split; [exact W|].
      split; [reflexivity|]. split; [reflexivity|].
      split; [intros; lia|]. split; [intros; contradiction|].
      split; [intros v Hv _ Tv; now apply MC|].
      auto. }
  destruct Ev as [free1 [h1 [E1 [W1 [C1 [Mx1 [L1 [L1' [MC1 [FN1 [FI1 Fx1]]]]]]]]]]].
  rewrite (bind_ok _ _ _ _ _ E1).
  destruct (HR_matchPair_spec Rs Hs h1 r x W1 Hr Hx) as [h2 [E2 [W2 [C2 [M2 [P2 PM2]]]]]].
  rewrite (bind_ok _ _ _ _ _ E2).
  destruct (checkAvailable_spec h2 x W2 Hx) as [b [Eb Hb]].
  rewrite (bind_ok _ _ _ _ _ Eb).
  destruct (proj1 W2 r Hr) as [p2 [Ep2 [J1' J2']]].
  assert (Gs : getSuccessors r h2 = (Ok (Player.getSuccessors p2), h2)).
  { unfold getSuccessors. now rewrite (bind_ok _ _ _ _ _ (load_at "getSuccessors" r h2 _ Ep2)). }
  rewrite (bind_ok _ _ _ _ _ Gs).
  assert (CR2 : capacity_respectedP h2 Hs).
  { intros y Hy. rewrite C2, C1. destruct (value_eqb_spec y x) as [->|N].
    - rewrite <- (Permutation_length P2), length_app, Mx1. simpl. lia.
    - rewrite M2; auto. specialize (CR y Hy). specialize (L1 y). lia. }
  assert (MC2 : matches_consistent Rs h2).
  { intros v Hv Tv. rewrite PM2 in Tv |- *.
    destruct (value_eqb_spec v r) as [->|N].
    - eapply Permutation_in; [exact P2|]. apply in_or_app. right. now left.
    - pose proof (MC1 v Hv N Tv) as Hin.
      destruct (value_eqb_spec (pmatching h1 v) x) as [Ex|Nx].
      + rewrite Ex in *. eapply Permutation_in; [exact P2|]. apply in_or_app. now left.
      + rewrite M2; auto. }
  assert (F2 : free_hospitals_ok Hs h2 (if b then free1 ++ [x] else free1)).
  { assert (Hfree1 : forall y, In y free1 ->
              (Z.of_nat (List.length (hmatching h2 y)) < hcapacity h2 y)%Z).
    { intros y Hy. rewrite C2, C1.
      assert (Nyx : y <> x) by (intros ->; contradiction).
      rewrite M2; auto.
      destruct (in_dec (fun a b => match value_eqb_spec a b with
                                   | ReflectT _ e => left e
                                   | ReflectF _ n => right n end) y free) as [Hin|Hnin].
      - specialize (FC0 y Hin). specialize (L1 y). lia.
      - specialize (L1' y Hy Hnin). specialize (CR y (FI1 y Hy)). lia. }
    destruct b.
    - split; [apply NoDup_snoc; auto|]. split.
      + apply incl_app; auto. intros y [<-|[]]. auto.
      + intros y Hy. apply in_app_or in Hy. destruct Hy as [Hy|[<-|[]]]; auto.
    - split; auto. }
  assert (Hsucc : incl (Player.getSuccessors p2) Hs).
  { unfold Player.getSuccessors. destruct (truthy (Player.matching p2)).
    - intros y Hy. apply J1'. eapply slice_incl. exact Hy.
    - intros y Hy. destruct Hy. }
  destruct (hospitalOptimal_delete_spec r (Player.getSuccessors p2)
              (if b then free1 ++ [x] else free1) h2 W2 Hr Hsucc F2)
    as [free' [h' [E' [W' [M' [Cc' [P' F']]]]]]].
  exists free', h'. split; [exact E'|]. split; [exact W'|].
  split; [intros y Hy; rewrite Cc', M'; auto|].
  split; [|exact F'].
  intros v Hv Tv. rewrite P' in Tv |- *. rewrite M'. auto.
Qed.

Lemma hospitalOptimal_loop_spec (fuel : nat) :
  forall (free : list value) (h : heap),
    HR_wfP h Rs Hs -> capacity_respectedP h Hs -> matches_consistent Rs h ->
    free_hospitals_ok Hs h free ->
    exists r h', hospitalOptimal_loop fuel free h = (r, h')
      /\ (forall e, r <> Throw e)
      /\ HR_wfP h' Rs Hs
      /\ capacity_respectedP h' Hs.
Proof.
  induction fuel as [|fuel IH]; intros free h W CR MC Hf; simpl.
  - destruct free; eexists; eexists; (split; [reflexivity|]); repeat split; auto;
      try discriminate; apply W.
  - destruct (pop free) as [[x free0]|] eqn:Ep.
    + apply pop_Some in Ep. subst free.
      destruct (hospitalOptimal_step_spec x free0 h W CR MC Hf)
        as [free' [h' [E [W' [CR' [MC' F']]]]]].
      rewrite (bind_ok _ _ _ _ _ E). apply IH; auto.
    + eexists; eexists; (split; [reflexivity|]); repeat split; auto;
        try discriminate; apply W.
Qed.

End HR_hospital_optimal.

(** The result map is read off the heap without changing it. *)
Lemma multiple_result_spec (Rs Hs : list value) (h : heap) (l : list value) :
  forall acc : jsmap (list value),
    HR_wfP h Rs Hs -> incl l Hs ->
    exists m, multiple_result l acc h = (Ok m, h)
      /\ forall x ms, map_get x m = Some ms -> map_get x acc = Some ms \/ ms = hmatching h x.
Proof.
  induction l as [|x l IH]; intros acc W Hl; simpl.
  - exists acc. split; [reflexivity|]. auto.
  - assert (Hx : In x Hs) by (apply Hl; now left).
    destruct (proj2 W x Hx) as [o [Eo _]].
    rewrite (bind_ok _ _ _ _ _ (getHospital_at "matching" x h o Eo)).
    destruct (IH (map_set x (Hospital.matching o) acc) W) as [m [Em Hm]].
    { intros y Hy. apply Hl. now right. }
    exists m. split; [exact Em|].
    intros y ms Hy. destruct (Hm y ms Hy) as [H1|H1]; auto.
    clear - H1 Eo. revert H1. induction acc as [|[k v] acc IHa]; simpl.
    + destruct (value_eqb_spec x y) as [->|]; [|discriminate].
      intros H. injection H as <-. right. unfold hmatching. now rewrite Eo.
    + destruct (value_eqb_spec k x) as [->|N]; simpl.
      * destruct (value_eqb_spec x y) as [->|]; auto.
        intros H. injection H as <-. right. unfold hmatching. now rewrite Eo.
      * destruct (value_eqb k y); auto.
Qed.

Lemma HR_ready_inv (h : heap) (Rs Hs : list value) :
  HR_ready h Rs Hs = true ->
  HR_wfP h Rs Hs /\ capacities_positiveP h Hs /\ capacity_respectedP h Hs
  /\ matches_consistent Rs h /\ free_hospitals_ok Hs h Hs.
Proof.
  unfold HR_ready, all_unmatched. rewrite !andb_true_iff, !forallb_forall.
  intros [[[W [U1 U2]] CP] ND].
  apply HR_wf_P in W. apply capacities_positive_P in CP. apply nodupb_NoDup in ND.
  assert (Z0 : forall x, In x Hs -> List.length (hmatching h x) = 0).
  { intros x Hx. specialize (U2 x Hx). now apply Nat.eqb_eq in U2. }
  split; [exact W|]. split; [exact CP|]. split; [|split].
  - intros x Hx. rewrite (Z0 x Hx). specialize (CP x Hx). lia.
  - intros r Hr Tr. specialize (U1 r Hr). apply value_eqb_eq in U1.
    rewrite U1 in Tr. discriminate.
  - split; [exact ND|]. split; [apply incl_refl|].
    intros x Hx. rewrite (Z0 x Hx). specialize (CP x Hx). lia.
Qed.

(** From a well-typed unmatched state whose hospitals are listed once
    and have capacity at least one, no run of either direction throws,
    and every state in which a run stops respects the capacities. *)
Lemma hospitalResident_capacity_respected
    (h : heap) (residents hospitals : list value) (optimal : HROptimal) (fuel : nat) :
  HR_ready h residents hospitals = true ->
  (forall e, fst (hospitalResident fuel residents hospitals optimal h) <> Throw e)
  /\ capacity_respected (snd (hospitalResident fuel residents hospitals optimal h)) hospitals = true
  /\ (forall result x ms,
        fst (hospitalResident fuel residents hospitals optimal h) = Ok result ->
        map_get x result = Some ms ->
        (Z.of_nat (List.length ms)
         <= hcapacity (snd (hospitalResident fuel residents hospitals optimal h)) x)%Z).
Proof.
  intros Hready. destruct (HR_ready_inv _ _ _ Hready) as [W [CP [CR [MC FO]]]].
  assert (Hloop : exists r h',
    (match optimal with
     | resident_optimal => residentOptimal_loop fuel residents
     | hospital_optimal => hospitalOptimal_loop fuel hospitals
     end) h = (r, h')
    /\ (forall e, r <> Throw e) /\ HR_wfP h' residents hospitals
    /\ capacity_respectedP h' hospitals).
  { destruct optimal.
    - destruct (residentOptimal_loop_spec residents hospitals fuel residents h W CP CR
                  (incl_refl _)) as [r [h' [E [NT [W' [_ CR']]]]]].
      exists r, h'. auto.
    - destruct (hospitalOptimal_loop_spec residents hospitals fuel hospitals h W CR MC FO)
        as [r [h' [E [NT [W' CR']]]]].
      exists r, h'. auto. }
  destruct Hloop as [r [h' [E [NT [W' CR']]]]].
  assert (Eq : hospitalResident fuel residents hospitals optimal h
               = bind (match optimal with
                       | resident_optimal => residentOptimal_loop fuel residents
                       | hospital_optimal => hospitalOptimal_loop fuel hospitals
                       end) (fun _ => multiple_result hospitals []) h).
  { destruct optimal; reflexivity. }
  rewrite Eq. clear Eq.
  destruct r as [u|e|].
  - rewrite (bind_ok _ _ _ _ _ E).
    destruct (multiple_result_spec residents hospitals h' hospitals [] W' (incl_refl _))
      as [m [Em Hm]].
    rewrite Em. simpl. split; [discriminate|].
    split; [now apply capacity_respected_P|].
    intros result x ms Hres Hget. injection Hres as <-.
    destruct (Hm x ms Hget) as [Hacc| ->]; [discriminate|].
    destruct (in_dec (fun a b => match value_eqb_spec a b with
                                 | ReflectT _ e => left e
                                 | ReflectF _ n => right n end) x hospitals) as [Hin|Hnin].
    + now apply CR'.
    + exfalso. clear - Em Hget Hnin.
      assert (G : forall l acc m0, multiple_result l acc h' = (Ok m0, h') ->
                  map_get x acc = None -> ~ In x l -> map_get x m0 = None).
      { induction l as [|y l IH]; simpl; intros acc m0 H1 H2 H3.
        - injection H1 as <-. exact H2.
        - unfold bind in H1. destruct (getHospital "matching" y h') as [[o| |] h1] eqn:G1;
            try discriminate.
          assert (h1 = h').
          { unfold getHospital, bind, load in G1.
            destruct y; try (injection G1; congruence).
            destruct (nth_error h' a); [|injection G1; congruence].
            destruct o0; unfold ret, throw in G1; injection G1; congruence. }
          subst h1. eapply IH; [exact H1| |tauto].
          clear - H2 H3. induction acc as [|[k v] acc IHa]; simpl in *.
          + destruct (value_eqb_spec y x); [tauto|reflexivity].
          + destruct (value_eqb_spec k y) as [->|N]; simpl.
            * destruct (value_eqb_spec y x); [tauto|]. now destruct (value_eqb_spec y x).
            * destruct (value_eqb k x); [discriminate|]. auto. }
      rewrite (G hospitals [] m Em eq_refl Hnin) in Hget. discriminate.
  - exfalso. now apply (NT e).
  - rewrite (bind_timeout _ _ _ _ E). simpl. split; [discriminate|].
    split; [now apply capacity_respected_P|]. discriminate.
Qed.

(** While every hospital has capacity at least one, the
    resident-optimal run never throws, and in every state the loop
    reaches a hospital whose match count equals its capacity has a
    non-null worst match. *)
Lemma residentOptimal_eviction
    (h : heap) (residents hospitals : list value) (fuel : nat) :
  HR_wf h residents hospitals = true ->
  capacities_positive h hospitals = true ->
  capacity_respected h hospitals = true ->
  (forall e, fst (residentOptimal fuel residents hospitals h) <> Throw e)
  /\ (forall x o,
        In x hospitals ->
        obj_at (snd (residentOptimal_loop fuel residents h)) x = Some (HospitalObj o) ->
        Z.of_nat (List.length (Hospital.matching o)) = Hospital.capacity o ->
        truthy (Hospital.getWorstMatch o) = true).
Proof.
  intros W CP CR. apply HR_wf_P in W. apply capacities_positive_P in CP.
  apply capacity_respected_P in CR.
  destruct (residentOptimal_loop_spec residents hospitals fuel residents h W CP CR
              (incl_refl _)) as [r [h' [E [NT [W' [CP' CR']]]]]].
  split.
  - unfold residentOptimal. destruct r as [u|e|].
    + rewrite (bind_ok _ _ _ _ _ E).
      destruct (multiple_result_spec residents hospitals h' hospitals [] W' (incl_refl _))
        as [m [Em _]]. rewrite Em. discriminate.
    + exfalso. now apply (NT e).
    + rewrite (bind_timeout _ _ _ _ E). discriminate.
  - rewrite E. simpl. intros x o Hx Eo Hfull.
    destruct (proj2 W' x Hx) as [o' [Eo' [_ [_ I2]]]].
    assert (o' = o) by congruence. subst o'.
    pose proof (CP' x Hx) as Cx. unfold hcapacity in Cx. rewrite Eo in Cx.
    assert (Hne : Hospital.matching o <> []).
    { intros Em. rewrite Em in Hfull. simpl in Hfull. lia. }
    assert (Hin : In (Hospital.getWorstMatch o) (Hospital.matching o)).
    { unfold Hospital.getWorstMatch. destruct (Hospital.matching o) eqn:Em; [congruence|].
      rewrite <- Em. apply last_In. congruence. }
    destruct (proj1 W' _ (I2 _ Hin)) as [p [Ep _]].
    destruct (obj_at_ref _ _ _ Ep) as [a [-> _]]. reflexivity.
Qed.


(* ================================================================== *)
(** ** Preference entities: [setPrefs] and the order of [matching] *)
(* ================================================================== *)

(** [Player.setPrefs] and [Hospital.setPrefs] (inherited by [Project])
    fix [_originalPrefs] at the first call and keep it afterwards. *)
Lemma setPrefs_original_guarded (players : list value) (names : list PlayerName) :
  (forall p, Player._originalPrefs (Player.setPrefs players names p)
             = match Player._originalPrefs p with None => Some players | Some o => Some o end)
  /\ (forall x, Hospital._originalPrefs (Hospital.setPrefs players names x)
                = match Hospital._originalPrefs x with None => Some players | Some o => Some o end).
Proof. split; intros; reflexivity. Qed.

(** C6 fails for supervisors: a second [setPrefs] on a [Supervisor]
    replaces [_originalPrefs], while the same two calls on a [Player], a
    [Hospital] and a [Project] leave the first ranking in place. *)
Theorem C6_supervisor_setPrefs_overwrites_original :
  let first := [ref 1; ref 2] in
  let second := [ref 2; ref 1] in
  originalPrefs_at (snd (setPrefs_twice (ref 0) first second c6_heap)) (ref 0) = Some second
  /\ fst (setPrefs_twice (ref 0) first second c6_heap) = Ok tt
  /\ originalPrefs_at (snd (setPrefs_twice (ref 5) first second c6_heap)) (ref 5) = Some first
  /\ originalPrefs_at (snd (setPrefs_twice (ref 3) first second c6_heap)) (ref 3) = Some first
  /\ originalPrefs_at (snd (setPrefs_twice (ref 4) first second c6_heap)) (ref 4) = Some first.
Proof. repeat split; vm_compute; reflexivity. Qed.

Lemma indexOf_from_shift (l : list value) (v : value) (i : Z) :
  indexOf_from l v i = if includes l v then (i + indexOf l v)%Z else (-1)%Z.
Proof.
  unfold indexOf. revert i. induction l as [|x l IH]; intros i; simpl; auto.
  rewrite (value_eqb_sym v x). destruct (value_eqb x v); simpl; [lia|].
  rewrite (IH (i + 1)%Z), (IH 1%Z).
  destruct (includes l v); [lia|reflexivity].
Qed.

Lemma indexOf_cons (x : value) (l : list value) (v : value) :
  indexOf (x :: l) v
  = if value_eqb x v then 0%Z
    else if includes l v then (1 + indexOf l v)%Z else (-1)%Z.
Proof.
  unfold indexOf at 1. simpl. destruct (value_eqb x v); auto.
  apply indexOf_from_shift.
Qed.

Lemma indexOf_nonneg (l : list value) (v : value) :
  In v l -> (0 <= indexOf l v)%Z.
Proof.
  induction l as [|x l IH]; [intros []|]. intros H.
  rewrite indexOf_cons. destruct (value_eqb_spec x v) as [->|N]; [lia|].
  destruct H as [H|H]; [congruence|].
  apply includes_In in H as Hi. rewrite Hi. specialize (IH H). lia.
Qed.

Lemma indexOf_absent (l : list value) (v : value) :
  ~ In v l -> indexOf l v = (-1)%Z.
Proof.
  induction l as [|x l IH]; [reflexivity|]. intros H.
  rewrite indexOf_cons. destruct (value_eqb_spec x v) as [->|N]; [exfalso; apply H; now left|].
  assert (Hn : ~ In v l) by (intros Hin; apply H; now right).
  apply includes_not_In in Hn. now rewrite Hn.
Qed.

Lemma insert_by_sorted (key : value -> Z) (x : value) (l : list value) :
  StronglySorted (fun a b => (key a <= key b)%Z) l ->
  StronglySorted (fun a b => (key a <= key b)%Z) (insert_by key x l).
Proof.
  induction 1 as [|y l Hl IH Hy]; simpl.
  - constructor; constructor.
  - destruct (Z.leb_spec (key x) (key y)) as [Hle|Hgt].
    + constructor; [now constructor|].
      constructor; [exact Hle|].
      rewrite Forall_forall in *. intros z Hz. specialize (Hy z Hz). lia.
    + constructor; [exact IH|].
      rewrite Forall_forall in *. intros z Hz.
      apply (Permutation_in _ (Permutation_sym (insert_by_perm key x l))) in Hz.
      destruct Hz as [<-|Hz]; [lia|auto].
Qed.

Lemma sort_by_sorted (key : value -> Z) (l : list value) :
  StronglySorted (fun a b => (key a <= key b)%Z) (sort_by key l).
Proof.
  induction l as [|x l IH]; simpl; [constructor|]. now apply insert_by_sorted.
Qed.

Lemma sorted_last_max (key : value -> Z) (l : list value) (d : value) :
  StronglySorted (fun a b => (key a <= key b)%Z) l ->
  forall m, In m l -> (key m <= key (last l d))%Z.
Proof.
  induction 1 as [|y l Hl IH Hy]; [intros m []|].
  intros m [<-|Hm].
  - destruct l as [|z l]; [simpl; lia|].
    rewrite Forall_forall in Hy. apply Hy.
    change (In (last (z :: l) d) (z :: l)). apply last_In. discriminate.
  - destruct l as [|z l]; [destruct Hm|]. now apply IH.
Qed.

Lemma subseqb_In (l o : list value) (v : value) :
  subseqb l o = true -> In v l -> In v o.
Proof.
  revert l. induction o as [|y o IH]; intros [|x l]; simpl; try discriminate; try tauto.
  destruct (value_eqb_spec x y) as [->|N]; intros H [<-|Hin].
  - now left.
  - right. eapply IH; eauto.
  - right. eapply IH; [exact H|now left].
  - right. eapply IH; [exact H|now right].
Qed.

(** Deleting entries from a duplicate-free ranking keeps the relative
    order of the entries that remain. *)
Lemma subseqb_rank_le (l o : list value) :
  subseqb l o = true -> NoDup o ->
  forall a b, In a l -> In b l -> rank_le l a b -> rank_le o a b.
Proof.
  unfold rank_le. revert l. induction o as [|y o IH]; intros [|x l] S ND a b Ha Hb;
    simpl in S; try discriminate; try (destruct Ha; fail).
  apply NoDup_cons_iff in ND. destruct ND as [Hy ND'].
  destruct (value_eqb_spec x y) as [E|N].
  - subst x. rewrite !(indexOf_cons y).
    destruct (value_eqb_spec y a) as [Ea|Na]; destruct (value_eqb_spec y b) as [Eb|Nb];
      try lia.
    + intros _. destruct Hb as [Hb|Hb]; [congruence|].
      pose proof (subseqb_In _ _ _ S Hb) as Hbo.
      apply includes_In in Hbo as ->. pose proof (indexOf_nonneg o b (subseqb_In _ _ _ S Hb)). lia.
    + destruct Ha as [Ha|Ha]; [congruence|].
      apply includes_In in Ha as Hla. rewrite Hla.
      pose proof (indexOf_nonneg l a Ha). lia.
    + destruct Ha as [Ha|Ha]; [congruence|]. destruct Hb as [Hb|Hb]; [congruence|].
      apply includes_In in Ha as Hla. apply includes_In in Hb as Hlb. rewrite Hla, Hlb.
      pose proof (subseqb_In _ _ _ S Ha) as Hao. pose proof (subseqb_In _ _ _ S Hb) as Hbo.
      apply includes_In in Hao as ->. apply includes_In in Hbo as ->.
      specialize (IH l S ND' a b Ha Hb). lia.
  - pose proof (subseqb_In _ _ _ S Ha) as Hao. pose proof (subseqb_In _ _ _ S Hb) as Hbo.
    rewrite !(indexOf_cons y).
    destruct (value_eqb_spec y a) as [Ea|Na]; [subst a; contradiction|].
    destruct (value_eqb_spec y b) as [Eb|Nb]; [subst b; contradiction|].
    apply includes_In in Hao as ->. apply includes_In in Hbo as ->.
    intros H. specialize (IH (x :: l) S ND' a b Ha Hb H). lia.
Qed.

Lemma StronglySorted_weaken (R1 R2 : value -> value -> Prop) (l : list value) :
  (forall a b, In a l -> In b l -> R1 a b -> R2 a b) ->
  StronglySorted R1 l -> StronglySorted R2 l.
Proof.
  intros H S. induction S as [|x l Sl IH Hx]; constructor.
  - apply IH. intros a b Ha Hb. apply H; now right.
  - rewrite Forall_forall in *. intros y Hy. apply H; [now left|now right|auto].
Qed.

(** Claim C7 as stated does not hold: the hospital [c7_hospital] has
    been matched through [_match] only, its matches are [C, A] while its
    original ranking is [A, B, C], and [getWorstMatch] returns [A]. *)
Lemma C7_matches_not_sorted_by_original_rank :
  Hospital._originalPrefs c7_hospital = Some [ref 0; ref 1; ref 2]
  /\ Hospital.matching c7_hospital = [ref 2; ref 0]
  /\ ~ StronglySorted (rank_le [ref 0; ref 1; ref 2]) (Hospital.matching c7_hospital)
  /\ Hospital.getWorstMatch c7_hospital = ref 0.
Proof.
  split; [reflexivity|]. split; [reflexivity|]. split; [|reflexivity].
  intros S. change (Hospital.matching c7_hospital) with [ref 2; ref 0] in S.
  inversion S as [|? ? _ F]; subst. inversion F as [|? ? R _]; subst.
  unfold rank_le in R. vm_compute in R. apply R. reflexivity.
Qed.

(** Insertion keeps, for every position, the entries of that position
    in the order they had, the inserted one first. *)
Lemma insert_by_same_key (key : value -> Z) (k : Z) (x : value) (l : list value) :
  filter (fun m => (key m =? k)%Z) (insert_by key x l)
  = filter (fun m => (key m =? k)%Z) (x :: l).
Proof.
  induction l as [|y l IH]; [reflexivity|]. cbn [insert_by].
  destruct (Z.leb_spec (key x) (key y)) as [Le|Gt]; [reflexivity|].
  cbn [filter] in *. rewrite IH.
  destruct (Z.eqb_spec (key x) k) as [Ex|Nx]; [|reflexivity].
  destruct (Z.eqb_spec (key y) k) as [Ey|Ny]; [lia|reflexivity].
Qed.

(** The sort is stable: entries of equal position keep their order. *)
Lemma sort_by_stable (key : value -> Z) (k : Z) (l : list value) :
  filter (fun m => (key m =? k)%Z) (sort_by key l) = filter (fun m => (key m =? k)%Z) l.
Proof.
  induction l as [|x l IH]; [reflexivity|]. cbn [sort_by].
  rewrite insert_by_same_key. cbn [filter]. now rewrite IH.
Qed.

(** C7 (amended): [_match] appends and stably sorts by position in the
    current [prefs]; the result is a permutation of the old matches and
    the new one, ascending in [prefs] rank, in which the matches of one
    and the same position (the matches no longer in [prefs] all have
    position -1) keep the order they had, the old ones before the new
    one; [getWorstMatch] returns its last element, which no match
    outranks (and [null] for an entity without matches).  When [prefs]
    is the original ranking with some entries deleted, the ranking has
    no duplicates and every match is still in [prefs], the matches
    ascend in [_originalPrefs] rank too. *)
Theorem C7_match_sorts_by_current_prefs (x : Hospital.t) (resident : value) :
  let x' := Hospital._match resident x in
  Permutation (Hospital.matching x ++ [resident]) (Hospital.matching x')
  /\ StronglySorted (rank_le (Hospital.prefs x')) (Hospital.matching x')
  /\ (forall k : Z,
        filter (fun m => (indexOf (Hospital.prefs x') m =? k)%Z) (Hospital.matching x')
        = filter (fun m => (indexOf (Hospital.prefs x') m =? k)%Z)
            (Hospital.matching x ++ [resident]))
  /\ Hospital.getWorstMatch x' = last (Hospital.matching x') undefined
  /\ (forall m, In m (Hospital.matching x') ->
                rank_le (Hospital.prefs x') m (Hospital.getWorstMatch x'))
  /\ (forall y : Hospital.t, Hospital.matching y = [] -> Hospital.getWorstMatch y = null)
  /\ (forall o,
        Hospital._originalPrefs x = Some o ->
        nodupb o = true ->
        subseqb (Hospital.prefs x) o = true ->
        forallb (includes (Hospital.prefs x)) (Hospital.matching x ++ [resident]) = true ->
        StronglySorted (rank_le o) (Hospital.matching x')).
Proof.
  intros x'.
  assert (P : Permutation (Hospital.matching x ++ [resident]) (Hospital.matching x')).
  { apply sort_by_perm. }
  assert (S : StronglySorted (rank_le (Hospital.prefs x')) (Hospital.matching x')).
  { apply sort_by_sorted. }
  assert (W : Hospital.getWorstMatch x' = last (Hospital.matching x') undefined).
  { unfold Hospital.getWorstMatch. destruct (Hospital.matching x') eqn:E; [|reflexivity].
    apply Permutation_sym, Permutation_nil in P. destruct (Hospital.matching x); discriminate. }
  split; [exact P|]. split; [exact S|].
  split; [intros k; apply sort_by_stable|].
  split; [exact W|]. split; [|split].
  - intros m Hm. rewrite W. unfold rank_le.
    apply (sorted_last_max (indexOf (Hospital.prefs x'))); assumption.
  - intros y E. unfold Hospital.getWorstMatch. now rewrite E.
  - intros o Eo ND Sub Hin. apply nodupb_NoDup in ND.
    apply forallb_includes_incl in Hin.
    eapply StronglySorted_weaken; [|exact S].
    intros a b Ha Hb. apply subseqb_rank_le; auto.
    + apply Hin. eapply Permutation_in; [apply Permutation_sym; exact P|exact Ha].
    + apply Hin. eapply Permutation_in; [apply Permutation_sym; exact P|exact Hb].
Qed.

(** On a hospital whose matches are all still ranked, the theorem gives
    the order by original rank. *)
Lemma C7_match_sorts_witness :
  Hospital._originalPrefs c7_regular_hospital = Some [ref 0; ref 1; ref 2]
  /\ StronglySorted (rank_le [ref 0; ref 1; ref 2])
       (Hospital.matching (Hospital._match (ref 0) c7_regular_hospital)).
Proof.
  split; [reflexivity|].
  apply (C7_match_sorts_by_current_prefs c7_regular_hospital (ref 0)); reflexivity.
Defined.

(* ================================================================== *)
(** ** The stability checks read the heap and do not throw *)
(* ================================================================== *)

Lemma reads_ret {A : Type} (x : A) (h : heap) : reads (ret x) h.
Proof. now exists x. Qed.

Lemma reads_bind {A B : Type} (m : M A) (k : A -> M B) (h : heap) :
  reads m h -> (forall x, reads (k x) h) -> reads (bind m k) h.
Proof.
  intros [x E] K. destruct (K x) as [y Ey]. exists y.
  now rewrite (bind_ok _ _ _ _ _ E).
Qed.




Lemma player_with_prefs_inv (h : heap) (v : value) :
  player_with_prefs h v = true ->
  exists p o, obj_at h v = Some (PlayerObj p) /\ Player._originalPrefs p = Some o.
Proof.
  unfold player_with_prefs. destruct (obj_at h v) as [[p|x]|]; try discriminate.
  destruct (Player._originalPrefs p) as [o|] eqn:E; try discriminate. eauto.
Qed.


Lemma prefers_player (h : heap) (v a b : value) :
  player_with_prefs h v = true -> reads (prefers v a b) h.
Proof.
  intros H. destruct (player_with_prefs_inv _ _ H) as [p [o [E1 E2]]].
  unfold prefers, reads. rewrite (bind_ok _ _ _ _ _ (load_at "prefers" _ _ _ E1)).
  unfold prefers_in. rewrite E2. eexists. reflexivity.
Qed.


Lemma reads_getPlayer (h : heap) (s : string) (v : value) :
  player_with_prefs h v = true -> reads (getPlayer s v) h.
Proof.
  intros H. destruct (player_with_prefs_inv _ _ H) as [p [o [E1 E2]]].
  exists p. now apply getPlayer_at.
Qed.








Lemma SR_blocking_inner_reads (h : heap) (player : value) (others : list value) :
  forall bp,
    player_with_prefs h player = true ->
    (forall o, In o others -> player_with_prefs h o = true) ->
    reads (SR_blocking_inner player others bp) h.
Proof.
  induction others as [|other rest IH]; intros bp Hp Ho; simpl.
  - apply reads_ret.
  - assert (Hother : player_with_prefs h other = true) by (apply Ho; now left).
    assert (Hrest : forall o, In o rest -> player_with_prefs h o = true)
      by (intros; apply Ho; now right).
    destruct (existsb _ bp); [now apply IH|].
    apply reads_bind; [now apply reads_getPlayer|]. intros p.
    apply reads_bind; [now apply reads_getPlayer|]. intros o.
    destruct (_ && _); [|now apply IH].
    apply reads_bind; [now apply prefers_player|]. intros b1.
    apply reads_bind; [|intros; now apply IH].
    destruct b1; [now apply prefers_player|apply reads_ret].
Qed.

Lemma SR_blocking_outer_reads (h : heap) (all players : list value) :
  forall bp,
    (forall o, In o all -> player_with_prefs h o = true) ->
    incl players all ->
    reads (SR_blocking_outer all players bp) h.
Proof.
  induction players as [|player rest IH]; intros bp Ha Hi; simpl.
  - apply reads_ret.
  - apply reads_bind.
    + apply SR_blocking_inner_reads.
      * apply Ha, Hi. now left.
      * intros o Ho. apply Ha. apply remove_value_In in Ho. tauto.
    + intros bp'. apply IH; auto. intros o Ho. apply Hi. now right.
Qed.





(** The Student Allocation check reads [supervisor.matching] of a
    project without a supervisor: there it throws. *)
Lemma SA_checkStability_throws_without_supervisor :
  SA_game_ok sa_orphan_heap sa_orphan_game = false
  /\ StudentAllocation_checkStability sa_orphan_game sa_orphan_heap
     = (Throw (TypeError "matching"), sa_orphan_heap).
Proof. split; reflexivity. Qed.



(* ================================================================== *)
(** ** Stable Roommates: what the entity methods do to the table *)
(* ================================================================== *)

Lemma bind_Ok_inv {A B : Type} (m : M A) (k : A -> M B) (h h' : heap) (y : B) :
  bind m k h = (Ok y, h') -> exists x h1, m h = (Ok x, h1) /\ k x h1 = (Ok y, h').
Proof.
  unfold bind. destruct (m h) as [[x|e|] h1]; try discriminate. eauto.
Qed.

Lemma load_Ok (s : string) (v : value) (h h' : heap) (o : obj) :
  load s v h = (Ok o, h') -> h' = h /\ obj_at h v = Some o.
Proof.
  unfold load. destruct v as [| |a]; try discriminate. simpl.
  destruct (nth_error h a); [|discriminate]. intros H. injection H as -> ->. auto.
Qed.

Lemma getPlayer_Ok (s : string) (v : value) (h h' : heap) (p : Player.t) :
  getPlayer s v h = (Ok p, h') -> h' = h /\ obj_at h v = Some (PlayerObj p).
Proof.
  unfold getPlayer. intros H. apply bind_Ok_inv in H. destruct H as [o [h1 [E1 E2]]].
  apply load_Ok in E1. destruct E1 as [-> E1].
  destruct o; [|discriminate]. injection E2 as -> ->. auto.
Qed.

Lemma getHospital_Ok (s : string) (v : value) (h h' : heap) (x : Hospital.t) :
  getHospital s v h = (Ok x, h') -> h' = h /\ obj_at h v = Some (HospitalObj x).
Proof.
  unfold getHospital. intros H. apply bind_Ok_inv in H. destruct H as [o [h1 [E1 E2]]].
  apply load_Ok in E1. destruct E1 as [-> E1].
  destruct o; [discriminate|]. injection E2 as -> ->. auto.
Qed.

Lemma store_Ok (v : value) (o : obj) (h h' : heap) :
  store v o h = (Ok tt, h') -> exists a, v = ref a /\ h' = upd a o h.
Proof.
  unfold store. destruct v as [| |a]; try discriminate.
  intros H. injection H as <-. eauto.
Qed.

Lemma same_players_refl (h : heap) : same_players h h.
Proof. intros v. auto. Qed.

Lemma same_players_trans (h1 h2 h3 : heap) :
  same_players h1 h2 -> same_players h2 h3 -> same_players h1 h3.
Proof.
  intros H1 H2 v. destruct (H1 v) as [A1 [B1 C1]]. destruct (H2 v) as [A2 [B2 C2]].
  repeat split; congruence.
Qed.

Lemma same_players_upd_hospital (h : heap) (a : addr) (x x' : Hospital.t) :
  nth_error h a = Some (HospitalObj x) ->
  same_players h (upd a (HospitalObj x') h).
Proof.
  intros E v. unfold pprefs, pmatching, is_player.
  destruct (value_eqb_spec v (ref a)) as [->|N].
  - rewrite (obj_at_upd_same _ _ _ _ E). simpl. rewrite E. auto.
  - rewrite obj_at_upd_other; auto.
Qed.

Lemma someM_heap {A : Type} (f : A -> M bool) (l : list A) :
  (forall x h, snd (f x h) = h) -> forall h, snd (someM f l h) = h.
Proof.
  intros F. induction l as [|x l IH]; intros h; simpl; auto.
  unfold bind. specialize (F x h). destruct (f x h) as [[b| |] h1]; simpl in *; subst; auto.
  destruct b; simpl; auto.
Qed.

Lemma prefs_include_heap (s : string) (x y : value) (h : heap) :
  snd (prefs_include s x y h) = h.
Proof.
  unfold prefs_include, bind, load. destruct x as [| |a]; simpl; auto.
  destruct (nth_error h a); reflexivity.
Qed.

Lemma Supervisor_forget_players (this student : value) (h h' : heap) (r : outcome unit) :
  Supervisor_forget this student h = (r, h') -> same_players h h'.
Proof.
  unfold Supervisor_forget, bind.
  destruct (getHospital "_forget" this h) as [[x| |] h1] eqn:E1.
  - apply getHospital_Ok in E1. destruct E1 as [-> E1].
    pose proof (someM_heap (fun project => prefs_include "prefs" project student)
                  (Hospital.projects x) (fun y h0 => prefs_include_heap _ _ _ h0) h) as Hs.
    destruct (someM _ (Hospital.projects x) h) as [[b| |] h2]; simpl in Hs; subst h2.
    + destruct (_ && _).
      * destruct this as [| |a]; simpl.
        -- intros H. injection H as _ <-. apply same_players_refl.
        -- intros H. injection H as _ <-. apply same_players_refl.
        -- intros H. injection H as _ <-. now apply same_players_upd_hospital with (x := x).
      * intros H. injection H as _ <-. apply same_players_refl.
    + intros H. injection H as _ <-. apply same_players_refl.
    + intros H. injection H as _ <-. apply same_players_refl.
  - intros H. injection H as _ <-.
    assert (h1 = h); [|subst; apply same_players_refl].
    unfold getHospital, bind, load in E1. destruct this as [| |a]; try (injection E1; congruence).
    destruct (nth_error h a) as [[p|x]|]; injection E1; congruence.
  - intros H. injection H as _ <-.
    assert (h1 = h); [|subst; apply same_players_refl].
    unfold getHospital, bind, load in E1. destruct this as [| |a]; try (injection E1; congruence).
    destruct (nth_error h a) as [[p|x]|]; injection E1; congruence.
Qed.

(** [a._forget(b)]: the list of [a] loses [b]; nothing else that the
    roommates algorithm reads changes. *)
Lemma forget_effect (a b : value) (h h' : heap) :
  _forget a b h = (Ok tt, h') ->
  (forall v, pprefs h' v
             = if value_eqb v a then remove_value b (pprefs h v) else pprefs h v)
  /\ (forall v, pmatching h' v = pmatching h v)
  /\ (forall v, is_player h' v = is_player h v).
Proof.
  unfold _forget. intros H. apply bind_Ok_inv in H. destruct H as [o [h1 [E1 E2]]].
  apply load_Ok in E1. destruct E1 as [-> E1].
  destruct (obj_at_ref _ _ _ E1) as [n [-> En]].
  assert (Hhosp : forall x, o = HospitalObj x -> forall h2, same_players h h2 ->
    (forall v, pprefs h2 v
               = if value_eqb v (ref n) then remove_value b (pprefs h v) else pprefs h v)
    /\ (forall v, pmatching h2 v = pmatching h v)
    /\ (forall v, is_player h2 v = is_player h v)).
  { intros x -> h2 S. split; [|split]; intros v; destruct (S v) as [A [B C]]; auto.
    rewrite A. destruct (value_eqb_spec v (ref n)) as [->|]; auto.
    unfold pprefs. simpl. rewrite En. reflexivity. }
  destruct o as [p|x].
  - simpl in E2. injection E2 as <-. split; [|split]; intros v.
    + unfold pprefs. destruct (value_eqb_spec v (ref n)) as [->|N].
      * rewrite (obj_at_upd_same _ _ _ _ En). simpl. rewrite En. reflexivity.
      * rewrite obj_at_upd_other; auto.
    + unfold pmatching. destruct (value_eqb_spec v (ref n)) as [->|N].
      * rewrite (obj_at_upd_same _ _ _ _ En). simpl. rewrite En. reflexivity.
      * rewrite obj_at_upd_other; auto.
    + unfold is_player. destruct (value_eqb_spec v (ref n)) as [->|N].
      * rewrite (obj_at_upd_same _ _ _ _ En). simpl. rewrite En. reflexivity.
      * rewrite obj_at_upd_other; auto.
  - apply (Hhosp x eq_refl). destruct (Hospital.cls x).
    + simpl in E2. injection E2 as <-. now apply same_players_upd_hospital with (x := x).
    + destruct (includes (Hospital.prefs x) b).
      * apply bind_Ok_inv in E2. destruct E2 as [[] [h2 [F1 F2]]].
        simpl in F1. injection F1 as <-.
        eapply same_players_trans; [apply same_players_upd_hospital with (x := x); exact En|].
        destruct (truthy (Hospital.supervisor x)).
        -- eapply Supervisor_forget_players; exact F2.
        -- injection F2 as <-. apply same_players_refl.
      * injection E2 as <-. apply same_players_refl.
    + eapply Supervisor_forget_players; exact E2.
Qed.

(** [a._match(b)] and [a._unmatch()] for a single-match player [a]. *)
Lemma match_effect (a b : value) (h h' : heap) :
  _match a b h = (Ok tt, h') -> is_player h a = true ->
  (forall v, pmatching h' v = if value_eqb v a then b else pmatching h v)
  /\ (forall v, pprefs h' v = pprefs h v)
  /\ (forall v, is_player h' v = is_player h v).
Proof.
  unfold _match, is_player. intros H P. apply bind_Ok_inv in H.
  destruct H as [o [h1 [E1 E2]]]. apply load_Ok in E1. destruct E1 as [-> E1].
  rewrite E1 in P. destruct o as [p|x]; [|discriminate].
  destruct (obj_at_ref _ _ _ E1) as [n [-> En]].
  simpl in E2. injection E2 as <-. split; [|split]; intros v.
  - unfold pmatching. destruct (value_eqb_spec v (ref n)) as [->|N].
    + rewrite (obj_at_upd_same _ _ _ _ En). reflexivity.
    + rewrite obj_at_upd_other; auto.
  - unfold pprefs. destruct (value_eqb_spec v (ref n)) as [->|N].
    + rewrite (obj_at_upd_same _ _ _ _ En). simpl. rewrite En. reflexivity.
    + rewrite obj_at_upd_other; auto.
  - destruct (value_eqb_spec v (ref n)) as [->|N].
    + rewrite (obj_at_upd_same _ _ _ _ En). simpl. rewrite En. reflexivity.
    + rewrite obj_at_upd_other; auto.
Qed.

Lemma unmatch_effect (a arg : value) (h h' : heap) :
  _unmatch a arg h = (Ok tt, h') -> is_player h a = true ->
  (forall v, pmatching h' v = if value_eqb v a then null else pmatching h v)
  /\ (forall v, pprefs h' v = pprefs h v)
  /\ (forall v, is_player h' v = is_player h v).
Proof.
  unfold _unmatch, is_player. intros H P. apply bind_Ok_inv in H.
  destruct H as [o [h1 [E1 E2]]]. apply load_Ok in E1. destruct E1 as [-> E1].
  rewrite E1 in P. destruct o as [p|x]; [|discriminate].
  destruct (obj_at_ref _ _ _ E1) as [n [-> En]].
  simpl in E2. injection E2 as <-. split; [|split]; intros v.
  - unfold pmatching. destruct (value_eqb_spec v (ref n)) as [->|N].
    + rewrite (obj_at_upd_same _ _ _ _ En). reflexivity.
    + rewrite obj_at_upd_other; auto.
  - unfold pprefs. destruct (value_eqb_spec v (ref n)) as [->|N].
    + rewrite (obj_at_upd_same _ _ _ _ En). simpl. rewrite En. reflexivity.
    + rewrite obj_at_upd_other; auto.
  - destruct (value_eqb_spec v (ref n)) as [->|N].
    + rewrite (obj_at_upd_same _ _ _ _ En). simpl. rewrite En. reflexivity.
    + rewrite obj_at_upd_other; auto.
Qed.

(** [deletePair(a, b)]: each of the two lists loses the other player. *)
Lemma deletePair_effect (a b : value) (h h' : heap) :
  deletePair a b h = (Ok tt, h') ->
  (forall v, pprefs h' v
             = if value_eqb v b
               then remove_value a (if value_eqb v a then remove_value b (pprefs h v)
                                    else pprefs h v)
               else if value_eqb v a then remove_value b (pprefs h v) else pprefs h v)
  /\ (forall v, pmatching h' v = pmatching h v)
  /\ (forall v, is_player h' v = is_player h v).
Proof.
  unfold deletePair. intros H. apply bind_Ok_inv in H. destruct H as [[] [h1 [E1 E2]]].
  apply forget_effect in E1. apply forget_effect in E2.
  destruct E1 as [A1 [B1 C1]]. destruct E2 as [A2 [B2 C2]].
  split; [|split]; intros v.
  - rewrite A2, A1. reflexivity.
  - rewrite B2, B1. reflexivity.
  - rewrite C2, C1. reflexivity.
Qed.

(** *** Lists *)

Lemma remove_all_cons (s : value) (rest l : list value) :
  remove_all (s :: rest) l = remove_all rest (remove_value s l).
Proof.
  unfold remove_all, remove_value. induction l as [|x l IH]; [reflexivity|].
  cbn [filter]. rewrite IH.
  change (includes (s :: rest) x) with (value_eqb x s || includes rest x).
  destruct (value_eqb x s); simpl; reflexivity.
Qed.

Lemma remove_all_nil (l : list value) : remove_all [] l = l.
Proof.
  unfold remove_all. induction l as [|x l IH]; [reflexivity|].
  cbn [filter]. rewrite IH. reflexivity.
Qed.

Lemma remove_value_idem (v : value) (l : list value) :
  remove_value v (remove_value v l) = remove_value v l.
Proof.
  unfold remove_value. induction l as [|x l IH]; simpl; auto.
  destruct (value_eqb x v) eqn:E; simpl; auto. rewrite E. simpl. now rewrite IH.
Qed.

Lemma remove_value_comm (v w : value) (l : list value) :
  remove_value v (remove_value w l) = remove_value w (remove_value v l).
Proof.
  unfold remove_value. induction l as [|x l IH]; simpl; auto.
  destruct (value_eqb x w) eqn:Ew, (value_eqb x v) eqn:Ev; simpl;
    rewrite ?Ew, ?Ev; simpl; now rewrite ?IH.
Qed.

Lemma remove_all_In (l prefs : list value) (x : value) :
  In x (remove_all l prefs) <-> In x prefs /\ ~ In x l.
Proof.
  unfold remove_all. rewrite filter_In, negb_true_iff, includes_not_In. tauto.
Qed.

Lemma remove_value_absent (v : value) (l : list value) :
  ~ In v l -> remove_value v l = l.
Proof.
  unfold remove_value. induction l as [|x l IH]; simpl; auto. intros H.
  destruct (value_eqb_spec x v) as [->|N]; [exfalso; apply H; now left|].
  simpl. rewrite IH; auto.
Qed.

Lemma filter_head (f : value -> bool) (l : list value) :
  l <> [] -> f (at_index l 0) = true -> at_index (filter f l) 0 = at_index l 0.
Proof.
  destruct l as [|x l]; [congruence|]. intros _ H.
  change (at_index (x :: l) 0) with x in *. cbn [filter]. rewrite H. reflexivity.
Qed.

Lemma filter_nonempty (f : value -> bool) (l : list value) :
  filter f l <> [] -> l <> [].
Proof. destruct l; simpl; congruence. Qed.

Lemma slice_after_no_head (l : list value) (v : value) :
  NoDup l -> In v l -> ~ In (at_index l 0) (slice l (indexOf l v + 1)).
Proof.
  destruct l as [|x l]; [intros _ []|]. intros ND Hv.
  apply NoDup_cons_iff in ND. destruct ND as [Hx ND].
  rewrite indexOf_cons. unfold slice. change (at_index (x :: l) 0) with x.
  destruct (value_eqb_spec x v) as [E|N].
  - change (Z.to_nat (0 + 1)) with 1. simpl. exact Hx.
  - destruct Hv as [Hv|Hv]; [congruence|].
    apply includes_In in Hv as Hi. rewrite Hi.
    pose proof (indexOf_nonneg l v Hv) as Hnn.
    replace (Z.to_nat (1 + indexOf l v + 1)) with (S (Z.to_nat (indexOf l v + 1))) by lia.
    cbn [skipn]. intros Hin. apply Hx.
    rewrite <- (firstn_skipn (Z.to_nat (indexOf l v + 1)) l). apply in_or_app. now right.
Qed.

Lemma slice_after_no_self (l : list value) (v : value) :
  NoDup l -> In v l -> ~ In v (slice l (indexOf l v + 1)).
Proof.
  induction l as [|x l IH]; [intros _ []|]. intros ND Hv.
  apply NoDup_cons_iff in ND. destruct ND as [Hx ND].
  rewrite indexOf_cons. unfold slice.
  destruct (value_eqb_spec x v) as [E|N].
  - subst x. change (Z.to_nat (0 + 1)) with 1. simpl. exact Hx.
  - destruct Hv as [Hv|Hv]; [congruence|].
    apply includes_In in Hv as Hi. rewrite Hi.
    pose proof (indexOf_nonneg l v Hv) as Hnn.
    replace (Z.to_nat (1 + indexOf l v + 1)) with (S (Z.to_nat (indexOf l v + 1))) by lia.
    cbn [skipn]. now apply IH.
Qed.

Lemma is_player_ref (h : heap) (v : value) :
  is_player h v = true -> exists a, v = ref a.
Proof.
  unfold is_player. destruct v as [| |a]; simpl; try discriminate. eauto.
Qed.

Lemma remove_first_keeps (v x : value) (l : list value) :
  In x l -> x <> v -> In x (remove_first v l).
Proof.
  induction l as [|y l IH]; simpl; auto. intros [->|H] N.
  - destruct (value_eqb_spec x v); [contradiction|now left].
  - destruct (value_eqb y v); auto. right. auto.
Qed.

(** *** The table under deletions *)

Section SR_table_facts.

Variable P : list value.

Lemma table_deletePair (a b : value) (h h' : heap) :
  SR_table P h -> deletePair a b h = (Ok tt, h') -> SR_table P h'.
Proof.
  intros [T [N S]] H. apply deletePair_effect in H. destruct H as [A [B C]].
  assert (Sub : forall v x, In x (pprefs h' v) -> In x (pprefs h v)).
  { intros v x. rewrite A.
    destruct (value_eqb v b), (value_eqb v a); intros Hx;
      repeat (apply remove_value_In in Hx; destruct Hx as [Hx _]); exact Hx. }
  split; [|split].
  - intros p Hp. destruct (T p Hp) as [T1 T2]. rewrite C. split; auto.
    intros x Hx. apply T2. eapply Sub; eauto.
  - intros p Hp. specialize (N p Hp). rewrite A.
    destruct (value_eqb p b), (value_eqb p a); unfold remove_value;
      repeat apply NoDup_filter; exact N.
  - intros p q Hp Hq.
    pose proof (Sub _ _ Hq) as Hq0. pose proof (S p q Hp Hq0) as Hpq.
    rewrite A in Hq |- *.
    destruct (value_eqb_spec q b) as [Eqb|Nqb]; destruct (value_eqb_spec q a) as [Eqa|Nqa];
      destruct (value_eqb_spec p b) as [Epb|Npb]; destruct (value_eqb_spec p a) as [Epa|Npa];
      subst;
      repeat match goal with
             | H : In _ (remove_value _ _) |- _ =>
                 apply remove_value_In in H; destruct H as [H ?]
             end;
      repeat (apply remove_value_In; split); auto; try congruence.
Qed.

Lemma table_forEach_deletePair (pairs : list (value * value)) :
  forall h h',
    SR_table P h ->
    forEach pairs (fun po => deletePair (fst po) (snd po)) h = (Ok tt, h') ->
    SR_table P h'
    /\ (forall v, pmatching h' v = pmatching h v)
    /\ (forall v, is_player h' v = is_player h v)
    /\ (forall v x, In x (pprefs h' v) -> In x (pprefs h v)).
Proof.
  induction pairs as [|[a b] pairs IH]; intros h h' T H; simpl in H.
  - injection H as <-. auto.
  - apply bind_Ok_inv in H. destruct H as [[] [h1 [E1 E2]]]. simpl in E1.
    pose proof (table_deletePair a b h h1 T E1) as T1.
    apply deletePair_effect in E1. destruct E1 as [A [B C]].
    destruct (IH h1 h' T1 E2) as [T' [B' [C' S']]].
    split; [exact T'|]. split; [intros v; now rewrite B', B|].
    split; [intros v; now rewrite C', C|].
    intros v x Hx. apply S' in Hx. rewrite A in Hx.
    destruct (value_eqb v b), (value_eqb v a);
      repeat (apply remove_value_In in Hx; destruct Hx as [Hx _]); exact Hx.
Qed.

End SR_table_facts.

(* ================================================================== *)
(** ** Stable Roommates: the proposal phase *)
(* ================================================================== *)

Lemma prefs_length_is_Ok (n : nat) (p : value) (h h' : heap) (b : bool) :
  prefs_length_is n p h = (Ok b, h') ->
  h' = h /\ is_player h p = true /\ b = Nat.eqb (List.length (pprefs h p)) n.
Proof.
  unfold prefs_length_is. intros H. apply bind_Ok_inv in H.
  destruct H as [x [h1 [E1 E2]]]. apply getPlayer_Ok in E1. destruct E1 as [-> E1].
  injection E2 as <- <-. unfold is_player, pprefs. rewrite E1. auto.
Qed.

Lemma prefs_length_gt_Ok (n : nat) (p : value) (h h' : heap) (b : bool) :
  prefs_length_gt n p h = (Ok b, h') ->
  h' = h /\ is_player h p = true /\ b = Nat.ltb n (List.length (pprefs h p)).
Proof.
  unfold prefs_length_gt. intros H. apply bind_Ok_inv in H.
  destruct H as [x [h1 [E1 E2]]]. apply getPlayer_Ok in E1. destruct E1 as [-> E1].
  injection E2 as <- <-. unfold is_player, pprefs. rewrite E1. auto.
Qed.

Section SR_first_phase.

Variable P : list value.

(** The deletions after a proposal to [f]: [f] loses its successors,
    every successor loses [f]; players whose list became empty leave the
    work list. *)
Lemma firstPhase_delete_effect (f : value) (succs : list value) :
  forall free h free' h',
    SR_table P h ->
    firstPhase_delete f succs free h = (Ok free', h') ->
    SR_table P h'
    /\ (forall v, pprefs h' v
                  = if value_eqb v f then remove_all succs (pprefs h v)
                    else if includes succs v then remove_value f (pprefs h v)
                    else pprefs h v)
    /\ (forall v, pmatching h' v = pmatching h v)
    /\ (forall v, is_player h' v = is_player h v)
    /\ (forall x, In x free' -> In x free)
    /\ (forall x, In x free -> ~ In x free' -> pprefs h' x = []).
Proof.
  induction succs as [|s rest IH]; intros free h free' h' T H; simpl in H.
  - injection H as <- <-. split; [exact T|].
    split; [intros v; rewrite remove_all_nil; now destruct (value_eqb v f)|].
    split; [reflexivity|]. split; [reflexivity|]. split; [auto|]. intros; contradiction.
  - apply bind_Ok_inv in H. destruct H as [[] [h1 [E1 E2]]].
    pose proof (table_deletePair P s f h h1 T E1) as T1.
    apply deletePair_effect in E1. destruct E1 as [A1 [B1 C1]].
    apply bind_Ok_inv in E2. destruct E2 as [empty [h2 [E2 E3]]].
    apply prefs_length_is_Ok in E2. destruct E2 as [-> [_ Hempty]].
    destruct (IH _ _ _ _ T1 E3) as [T' [A' [B' [C' [F1 F2]]]]].
    assert (Hsub : forall v, pprefs h' v = [] \/ pprefs h1 v <> []).
    { intros v. destruct (pprefs h1 v) eqn:E; [left|right; discriminate].
      rewrite A', E. now destruct (value_eqb v f), (includes rest v). }
    split; [exact T'|]. split; [|split; [|split; [|split]]].
    + intros v. rewrite A', A1.
      change (includes (s :: rest) v) with (value_eqb v s || includes rest v).
      destruct (value_eqb_spec v f) as [->|Nf].
      * rewrite remove_all_cons. destruct (value_eqb_spec f s) as [->|Ns].
        -- now rewrite remove_value_idem.
        -- reflexivity.
      * destruct (value_eqb_spec v s) as [->|Ns]; simpl.
        -- destruct (includes rest s); [now rewrite remove_value_idem|reflexivity].
        -- reflexivity.
    + intros v. now rewrite B', B1.
    + intros v. now rewrite C', C1.
    + intros x Hx. apply F1 in Hx. destruct (_ && _); auto.
      eapply remove_first_In; eauto.
    + intros x Hx Hn.
      destruct (empty && includes free s) eqn:Eb.
      * destruct (value_eqb_spec x s) as [->|Nxs].
        -- apply andb_true_iff in Eb. destruct Eb as [Eb _]. subst empty.
           apply Nat.eqb_eq in Eb. apply length_zero_iff_nil in Eb.
           destruct (Hsub s) as [Hs|Hs]; [exact Hs|contradiction].
        -- apply F2; auto. now apply remove_first_keeps.
      * now apply F2.
Qed.

Lemma firstPhase_loop_inv (fuel : nat) :
  forall free h h',
    SR_table P h -> SR_matches_in P h -> SR_held P h free -> incl free P ->
    firstPhase_loop fuel free h = (Ok tt, h') ->
    SR_table P h' /\ SR_matches_in P h' /\ SR_held P h' [].
Proof.
  induction fuel as [|fuel IH]; intros free h h' T M Hd Fi H; simpl in H.
  - destruct free; [|discriminate]. injection H as <-. auto.
  - destruct (pop free) as [[pl rest]|] eqn:Ep.
    2:{ apply pop_None in Ep. subst free. injection H as <-. auto. }
    apply pop_Some in Ep. subst free.
    assert (Hpl : In pl P) by (apply Fi; apply in_or_app; right; now left).
    assert (Frest : incl rest P) by (intros y Hy; apply Fi; apply in_or_app; now left).
    apply bind_Ok_inv in H. destruct H as [p [h0 [E1 H]]].
    apply getPlayer_Ok in E1. destruct E1 as [-> Epl].
    assert (Ppl : pprefs h pl = Player.prefs p) by (unfold pprefs; now rewrite Epl).
    rewrite <- Ppl in H.
    destruct (Nat.eqb_spec (List.length (pprefs h pl)) 0) as [E0|N0].
    { apply length_zero_iff_nil in E0.
      apply (IH rest h h' T M); auto.
      intros x Hx Hn Hne. apply Hd; auto.
      intros Hin. apply in_app_or in Hin. destruct Hin as [Hin|[<-|[]]]; auto. }
    assert (Hne : pprefs h pl <> []).
    { intros E. rewrite E in N0. simpl in N0. congruence. }
    assert (EF : Player.getFavourite p = at_index (pprefs h pl) 0).
    { unfold Player.getFavourite. now rewrite Ppl. }
    rewrite EF in H. set (F := at_index (pprefs h pl) 0) in *.
    assert (HFpl : In F (pprefs h pl)) by (now apply at_index_0_In).
    destruct T as [T1 [TN TS]].
    assert (HF : In F P) by (apply (proj2 (T1 pl Hpl)); exact HFpl).
    assert (HplF : In pl (pprefs h F)) by (apply (TS pl F Hpl HFpl)).
    apply bind_Ok_inv in H. destruct H as [f [h0 [E1 H]]].
    apply getPlayer_Ok in E1. destruct E1 as [-> EFo].
    assert (PF : is_player h F = true) by (unfold is_player; now rewrite EFo).
    assert (MF : pmatching h F = Player.matching f) by (unfold pmatching; now rewrite EFo).
    rewrite <- MF in H.
    apply bind_Ok_inv in H. destruct H as [free1 [h1 [E1 H]]].
    assert (S1 : (forall v, pmatching h1 v
                            = if value_eqb v F
                              then (if value_eqb (pmatching h F) null then pmatching h F else null)
                              else pmatching h v)
                 /\ (forall v, pprefs h1 v = pprefs h v)
                 /\ (forall v, is_player h1 v = is_player h v)
                 /\ free1 = (if value_eqb (pmatching h F) null then rest
                             else rest ++ [pmatching h F])).
    { destruct (value_eqb_spec (pmatching h F) null) as [En|Nn]; simpl in E1.
      - injection E1 as <- <-. repeat split; auto.
        intros v. destruct (value_eqb_spec v F) as [->|]; auto.
      - apply bind_Ok_inv in E1. destruct E1 as [[] [h2 [E1 E2]]].
        injection E2 as <- <-.
        destruct (unmatch_effect _ _ _ _ E1 PF) as [A [B C]]. auto. }
    destruct S1 as [M1 [Pr1 [Pl1 Efree1]]].
    apply bind_Ok_inv in H. destruct H as [[] [h2 [E2 H]]].
    assert (PF1 : is_player h1 F = true) by (now rewrite Pl1).
    destruct (match_effect _ _ _ _ E2 PF1) as [M2 [Pr2 Pl2]].
    apply bind_Ok_inv in H. destruct H as [succs [h3 [E3 H]]].
    assert (Esucc : h3 = h2 /\ succs = slice (pprefs h F) (indexOf (pprefs h F) pl + 1)).
    { unfold getSuccessors in E3. apply bind_Ok_inv in E3.
      destruct E3 as [o [h4 [E3 E4]]]. apply load_Ok in E3. destruct E3 as [-> E3].
      assert (PF2 : is_player h2 F = true) by (now rewrite Pl2).
      unfold is_player in PF2. rewrite E3 in PF2. destruct o as [q|]; [|discriminate].
      injection E4 as <- <-. split; [reflexivity|].
      assert (Mq : Player.matching q = pl).
      { pose proof (M2 F) as X. rewrite value_eqb_refl in X.
        unfold pmatching in X at 1. now rewrite E3 in X. }
      assert (Pq : Player.prefs q = pprefs h F).
      { rewrite <- Pr1, <- Pr2. unfold pprefs. now rewrite E3. }
      unfold Player.getSuccessors. rewrite Mq, Pq.
      destruct (is_player_ref h pl) as [a ->]; [unfold is_player; now rewrite Epl|].
      reflexivity. }
    destruct Esucc as [-> Esucc].
    apply bind_Ok_inv in H. destruct H as [free' [h4 [E4 H]]].
    assert (T2 : SR_table P h2).
    { split; [|split].
      - intros x Hx. rewrite Pl2, Pl1, Pr2, Pr1. auto.
      - intros x Hx. rewrite Pr2, Pr1. auto.
      - intros x q Hx. rewrite !Pr2, !Pr1. auto. }
    destruct (firstPhase_delete_effect F succs free1 h2 free' h4 T2 E4)
      as [T4 [A4 [B4 [C4 [F4 G4]]]]].
    assert (Hcur : pmatching h F <> null -> In (pmatching h F) P).
    { intros Hn. destruct (M F HF); [contradiction|assumption]. }
    assert (Hhead_succ : ~ In (at_index (pprefs h F) 0) succs).
    { rewrite Esucc. apply slice_after_no_head; auto. }
    assert (Hpl_succ : ~ In pl succs).
    { rewrite Esucc. apply slice_after_no_self; auto. }
    assert (M4 : forall v, pmatching h4 v = if value_eqb v F then pl else pmatching h v).
    { intros v. rewrite B4, M2, M1. now destruct (value_eqb v F). }
    assert (A4' : forall v, pprefs h4 v
               = if value_eqb v F then remove_all succs (pprefs h v)
                 else if includes succs v then remove_value F (pprefs h v)
                 else pprefs h v).
    { intros v. rewrite A4, Pr2, Pr1. reflexivity. }
    apply (IH free' h4 h' T4); auto.
    + (* matches stay inside the game *)
      intros x Hx. rewrite M4. destruct (value_eqb x F); auto.
    + (* who is not waiting is held by the head of their list *)
      intros x Hx Hn Hne4.
      assert (Hx1 : ~ In x free1).
      { intros Hin. apply Hne4. now apply G4. }
      assert (Hne0 : pprefs h x <> []).
      { rewrite A4' in Hne4.
        destruct (value_eqb x F); [|destruct (includes succs x)];
          try (eapply filter_nonempty; exact Hne4); exact Hne4. }
      assert (Hhead : forall g, g = at_index (pprefs h x) 0 ->
                (x = F \/ g <> F \/ ~ In x succs) ->
                at_index (pprefs h4 x) 0 = g).
      { intros g Eg Hg. rewrite A4'.
        destruct (value_eqb_spec x F) as [ExF|NxF].
        - subst x. unfold remove_all. rewrite filter_head; auto.
          apply negb_true_iff. apply includes_not_In. exact Hhead_succ.
        - destruct Hg as [Hg|[Hg|Hg]]; [contradiction| |].
          + destruct (includes succs x); [|now rewrite Eg].
            unfold remove_value. rewrite filter_head; auto.
            rewrite <- Eg. apply negb_true_iff. now apply value_eqb_neq.
          + apply includes_not_In in Hg. rewrite Hg. now rewrite Eg. }
      destruct (value_eqb_spec x pl) as [Exp|Nxp].
      * subst x. rewrite (Hhead F eq_refl).
        -- rewrite M4. now rewrite value_eqb_refl.
        -- right. right. exact Hpl_succ.
      * assert (Hxfree : ~ In x (rest ++ [pl])).
        { intros Hin. apply in_app_or in Hin. destruct Hin as [Hin|[Hin|[]]]; [|congruence].
          apply Hx1. rewrite Efree1. destruct (value_eqb (pmatching h F) null); auto.
          apply in_or_app. now left. }
        pose proof (Hd x Hx Hxfree Hne0) as Hold.
        set (g := at_index (pprefs h x) 0) in *.
        destruct (value_eqb_spec g F) as [EgF|NgF].
        -- exfalso. rewrite EgF in Hold. apply Hx1. rewrite Efree1, Hold.
           destruct (is_player_ref h x (proj1 (T1 x Hx))) as [a ->]. simpl.
           apply in_or_app. right. now left.
        -- rewrite (Hhead g eq_refl (or_intror (or_introl NgF))). rewrite M4.
           destruct (value_eqb_spec g F); [contradiction|]. exact Hold.
    + intros x Hx. apply F4 in Hx. rewrite Efree1 in Hx.
      destruct (value_eqb_spec (pmatching h F) null) as [En|Nn]; auto.
      apply in_app_or in Hx. destruct Hx as [Hx|[<-|[]]]; auto.
Qed.

End SR_first_phase.

(* ================================================================== *)
(** ** Stable Roommates: rotation elimination and the final matching *)
(* ================================================================== *)

Lemma getPlayer_heap (s : string) (v : value) (h : heap) : snd (getPlayer s v h) = h.
Proof.
  unfold getPlayer, bind, load. destruct v as [| |a]; simpl; auto.
  destruct (nth_error h a) as [[p|x]|]; reflexivity.
Qed.

Lemma bind_heap {A B : Type} (m : M A) (k : A -> M B) (h : heap) :
  snd (m h) = h -> (forall x, snd (k x h) = h) -> snd (bind m k h) = h.
Proof.
  unfold bind. intros Hm Hk. destruct (m h) as [[x|e|] h1]; simpl in *; subst; auto.
Qed.

Lemma locate_loop_heap (fuel : nat) :
  forall current lasts seconds h, snd (locate_loop fuel current lasts seconds h) = h.
Proof.
  induction fuel as [|fuel IH]; intros; simpl; auto.
  apply bind_heap; [apply getPlayer_heap|]. intros c.
  destruct (negb (truthy (at_index (Player.prefs c) 1))); [reflexivity|].
  apply bind_heap; [apply getPlayer_heap|]. intros s.
  destruct (negb (truthy (last (Player.prefs s) undefined))); [reflexivity|].
  destruct (Nat.ltb _ _); [reflexivity|apply IH].
Qed.

Lemma locateAllOrNothingCycle_heap (fuel : nat) (player : value) (h : heap) :
  snd (locateAllOrNothingCycle fuel player h) = h.
Proof.
  unfold locateAllOrNothingCycle. apply bind_heap; [apply locate_loop_heap|].
  intros [[lasts seconds] current]. reflexivity.
Qed.

Lemma getPairsToDelete_loop_heap (n : nat) :
  forall i cycle pairs h, snd (getPairsToDelete_loop n i cycle pairs h) = h.
Proof.
  induction n as [|n IH]; intros; simpl; auto.
  apply bind_heap; [apply getPlayer_heap|]. intros r. apply IH.
Qed.

Lemma filterM_length_is_Ok (n : nat) (l : list value) :
  forall h h' r,
    filterM (prefs_length_is n) l h = (Ok r, h') ->
    h' = h /\ r = filter (fun p => Nat.eqb (List.length (pprefs h p)) n) l.
Proof.
  induction l as [|x l IH]; intros h h' r H; simpl in H.
  - injection H as <- <-. auto.
  - apply bind_Ok_inv in H. destruct H as [b [h1 [E1 H]]].
    apply prefs_length_is_Ok in E1. destruct E1 as [-> [_ ->]].
    apply bind_Ok_inv in H. destruct H as [r' [h2 [E2 H]]].
    apply IH in E2. destruct E2 as [-> ->]. injection H as <- <-.
    split; [reflexivity|]. simpl. reflexivity.
Qed.

Lemma someM_length_gt_Ok (n : nat) (l : list value) :
  forall h h' b,
    someM (prefs_length_gt n) l h = (Ok b, h') ->
    h' = h /\ (b = false -> forall p, In p l -> List.length (pprefs h p) <= n).
Proof.
  induction l as [|x l IH]; intros h h' b H; simpl in H.
  - injection H as <- <-. split; [reflexivity|]. intros _ p [].
  - apply bind_Ok_inv in H. destruct H as [b1 [h1 [E1 H]]].
    apply prefs_length_gt_Ok in E1. destruct E1 as [-> [_ ->]].
    destruct (Nat.ltb_spec n (List.length (pprefs h x))) as [Hlt|Hge].
    + injection H as <- <-. split; [reflexivity|discriminate].
    + apply IH in H. destruct H as [-> H]. split; [reflexivity|].
      intros Hb p [<-|Hp]; auto.
Qed.

Lemma findM_length_gt_Ok (n : nat) (l : list value) :
  forall h h' v,
    findM (prefs_length_gt n) l h = (Ok v, h') ->
    h' = h /\ (truthy v = false -> forall p, In p l -> List.length (pprefs h p) <= n).
Proof.
  induction l as [|x l IH]; intros h h' v H; simpl in H.
  - injection H as <- <-. split; [reflexivity|]. intros _ p [].
  - apply bind_Ok_inv in H. destruct H as [b1 [h1 [E1 H]]].
    apply prefs_length_gt_Ok in E1. destruct E1 as [-> [Px ->]].
    destruct (Nat.ltb_spec n (List.length (pprefs h x))) as [Hlt|Hge].
    + injection H as <- <-. split; [reflexivity|].
      destruct (is_player_ref _ _ Px) as [a ->]. discriminate.
    + apply IH in H. destruct H as [-> H]. split; [reflexivity|].
      intros Hb p [<-|Hp]; auto.
Qed.

Section SR_second_phase.

Variable P : list value.

Lemma secondPhase_loop_inv (inner fuel : nat) :
  forall player h h' ws,
    SR_table P h ->
    (truthy player = false -> forall p, In p P -> List.length (pprefs h p) <= 1) ->
    secondPhase_loop inner fuel P player h = (Ok ws, h') ->
    SR_table P h'
    /\ (forall v, is_player h' v = is_player h v)
    /\ (ws = [] ->
        (forall p, In p P -> List.length (pprefs h' p) <= 1)
        /\ (h' = h \/ forall p, In p P -> pprefs h' p <> [])).
Proof.
  induction fuel as [|fuel IH]; intros player h h' ws T Hp H; simpl in H.
  - destruct (truthy player) eqn:Tp; [discriminate|]. injection H as <- <-. auto.
  - destruct (truthy player) eqn:Tp; simpl in H.
    2:{ injection H as <- <-. auto. }
    apply bind_Ok_inv in H. destruct H as [cycle [h1 [E1 H]]].
    pose proof (locateAllOrNothingCycle_heap inner player h) as Hh1.
    rewrite E1 in Hh1. simpl in Hh1. subst h1.
    apply bind_Ok_inv in H. destruct H as [pairs [h1 [E2 H]]].
    pose proof (getPairsToDelete_loop_heap (List.length cycle) 0 cycle [] h) as Hh1.
    unfold getPairsToDelete in E2. rewrite E2 in Hh1. simpl in Hh1. subst h1.
    apply bind_Ok_inv in H. destruct H as [[] [h1 [E3 H]]].
    destruct (table_forEach_deletePair P pairs h h1 T E3) as [T1 [B1 [C1 S1]]].
    apply bind_Ok_inv in H. destruct H as [emptyPlayers [h2 [E4 H]]].
    apply filterM_length_is_Ok in E4. destruct E4 as [-> Eempty].
    destruct (Nat.ltb_spec 0 (List.length emptyPlayers)) as [Hsome|Hnone].
    + injection H as <- <-. split; [exact T1|]. split; [exact C1|]. discriminate.
    + apply bind_Ok_inv in H. destruct H as [player' [h2 [E5 H]]].
      apply findM_length_gt_Ok in E5. destruct E5 as [-> Hfind].
      destruct (IH player' h1 h' ws T1 Hfind H) as [T' [C' W']].
      split; [exact T'|]. split; [intros v; now rewrite C', C1|].
      intros Hws. destruct (W' Hws) as [W1 W2]. split; [exact W1|].
      right. destruct W2 as [->|W2]; [|exact W2].
      intros p Hin Hnil.
      assert (Hin' : In p emptyPlayers).
      { rewrite Eempty. apply filter_In. split; [exact Hin|]. now rewrite Hnil. }
      destruct emptyPlayers; [destruct Hin'|simpl in Hnone; lia].
Qed.

(** The final loop of [secondPhase] matches every player that still has
    a list to the head of that list. *)
Lemma final_matching_effect (l : list value) :
  forall h h',
    final_matching l h = (Ok tt, h') ->
    (forall v, pmatching h' v
               = if includes l v
                 then (if Nat.ltb 0 (List.length (pprefs h v))
                       then at_index (pprefs h v) 0 else null)
                 else pmatching h v)
    /\ (forall v, pprefs h' v = pprefs h v)
    /\ (forall v, is_player h' v = is_player h v).
Proof.
  unfold final_matching.
  induction l as [|p l IH]; intros h h' H; simpl in H.
  - injection H as <-. auto.
  - apply bind_Ok_inv in H. destruct H as [[] [h3 [H1 H2]]].
    apply bind_Ok_inv in H1. destruct H1 as [[] [h1 [E1 H1]]].
    apply bind_Ok_inv in H1. destruct H1 as [x [h2 [E2 H1]]].
    apply getPlayer_Ok in E2. destruct E2 as [-> E2].
    assert (Pp1 : is_player h1 p = true) by (unfold is_player; now rewrite E2).
    assert (Pp : is_player h p = true).
    { unfold _unmatch in E1. apply bind_Ok_inv in E1. destruct E1 as [o [h0 [L1 L2]]].
      apply load_Ok in L1. destruct L1 as [-> L1]. unfold is_player. rewrite L1.
      destruct o as [q|y]; [reflexivity|].
      exfalso. apply bind_Ok_inv in L2. destruct L2 as [[] [h4 [L2 L3]]].
      apply store_Ok in L2. destruct L2 as [a [-> ->]].
      assert (K : same_players h h1).
      { eapply same_players_trans; [apply same_players_upd_hospital with (x := y); exact L1|].
        destruct (Hospital.cls y).
        - injection L3 as <-. apply same_players_refl.
        - destruct (truthy (Hospital.supervisor y)).
          + unfold Hospital_unmatch in L3. apply bind_Ok_inv in L3.
            destruct L3 as [z [h5 [L3 L4]]]. apply getHospital_Ok in L3.
            destruct L3 as [-> L3]. apply store_Ok in L4. destruct L4 as [b [Eb ->]].
            rewrite Eb in L3. now apply same_players_upd_hospital with (x := z).
          + injection L3 as <-. apply same_players_refl.
        - injection L3 as <-. apply same_players_refl. }
      destruct (K (ref a)) as [_ [_ K3]]. rewrite K3 in Pp1.
      unfold is_player in Pp1. rewrite L1 in Pp1. discriminate. }
    destruct (unmatch_effect _ _ _ _ E1 Pp) as [M1 [Pr1 Pl1]].
    assert (Px : Player.prefs x = pprefs h p).
    { rewrite <- Pr1. unfold pprefs. now rewrite E2. }
    assert (S3 : (forall v, pmatching h3 v
                   = if value_eqb v p
                     then (if Nat.ltb 0 (List.length (pprefs h p))
                           then at_index (pprefs h p) 0 else null)
                     else pmatching h v)
                 /\ (forall v, pprefs h3 v = pprefs h v)
                 /\ (forall v, is_player h3 v = is_player h v)).
    { rewrite Px in H1. destruct (Nat.ltb 0 (List.length (pprefs h p))).
      - destruct (match_effect _ _ _ _ H1 Pp1) as [M3 [Pr3 Pl3]].
        split; [|split]; intros v.
        + rewrite M3, M1. unfold Player.getFavourite. rewrite Px.
          now destruct (value_eqb v p).
        + now rewrite Pr3, Pr1.
        + now rewrite Pl3, Pl1.
      - injection H1 as <-. split; [|split]; intros v; auto. }
    destruct S3 as [M3 [Pr3 Pl3]].
    destruct (IH h3 h' H2) as [M' [Pr' Pl']].
    split; [|split]; intros v.
    + rewrite M', M3, !Pr3.
      change (includes (p :: l) v) with (value_eqb v p || includes l v).
      destruct (includes l v), (value_eqb_spec v p) as [->|]; simpl; auto.
    + now rewrite Pr', Pr3.
    + now rewrite Pl', Pl3.
Qed.

Lemma single_result_Ok (l : list value) :
  forall acc h h' m,
    single_result l acc h = (Ok m, h') ->
    h' = h
    /\ forall a, map_get a m = if includes l a then Some (pmatching h a) else map_get a acc.
Proof.
  induction l as [|s l IH]; intros acc h h' m H; simpl in H.
  - injection H as <- <-. auto.
  - apply bind_Ok_inv in H. destruct H as [p [h1 [E1 H]]].
    apply getPlayer_Ok in E1. destruct E1 as [-> E1].
    apply IH in H. destruct H as [-> H]. split; [reflexivity|].
    intros a. rewrite H.
    change (includes (s :: l) a) with (value_eqb a s || includes l a).
    destruct (includes l a); [now rewrite orb_true_r|]. rewrite orb_false_r.
    assert (G : forall acc0, map_get a (map_set s (Player.matching p) acc0)
                = if value_eqb a s then Some (Player.matching p) else map_get a acc0).
    { induction acc0 as [|[k v] acc0 IHa]; simpl.
      - rewrite (value_eqb_sym s a). reflexivity.
      - destruct (value_eqb_spec k s) as [E|N]; simpl.
        + subst k. rewrite (value_eqb_sym s a). destruct (value_eqb a s); reflexivity.
        + destruct (value_eqb_spec k a) as [E2|N2].
          * subst k. destruct (value_eqb_spec a s); [congruence|reflexivity].
          * exact IHa. }
    rewrite G. destruct (value_eqb_spec a s) as [E|N]; [|reflexivity].
    subst a. unfold pmatching. now rewrite E1.
Qed.

End SR_second_phase.

(* ================================================================== *)
(** ** Stable Roommates: symmetry of the result *)
(* ================================================================== *)

Lemma SR_ready_inv (h : heap) (P : list value) :
  SR_ready h P = true ->
  SR_table P h /\ SR_matches_in P h /\ SR_held P h P.
Proof.
  unfold SR_ready, SR_player_ready. rewrite forallb_forall. intros H.
  assert (H' : forall p, In p P ->
            is_player h p = true /\ pmatching h p = null /\ NoDup (pprefs h p)
            /\ incl (pprefs h p) P
            /\ forall q, In q (pprefs h p) -> In p (pprefs h q)).
  { intros p Hp. specialize (H p Hp). rewrite !andb_true_iff in H.
    destruct H as [[[[H1 H2] H3] H4] H5].
    apply value_eqb_eq in H2. apply nodupb_NoDup in H3.
    apply forallb_includes_incl in H4. rewrite forallb_forall in H5.
    repeat split; auto. intros q Hq. apply includes_In. auto. }
  split; [|split].
  - split; [|split].
    + intros p Hp. destruct (H' p Hp) as [A [_ [_ [B _]]]]. auto.
    + intros p Hp. now destruct (H' p Hp) as [_ [_ [B _]]].
    + intros p q Hp Hq. destruct (H' p Hp) as [_ [_ [_ [_ B]]]]. auto.
  - intros p Hp. left. now destruct (H' p Hp) as [_ [B _]].
  - intros p Hp Hn. contradiction.
Qed.

Lemma singleton_head (l : list value) (x : value) :
  List.length l = 1 -> In x l -> at_index l 0 = x.
Proof.
  destruct l as [|y [|z l]]; simpl; try discriminate. intros _ [<-|[]]. reflexivity.
Qed.

(** When every list has exactly one entry and every player is held by
    that entry, the map from players to matches is symmetric. *)
Lemma symmetric_from_singletons (P : list value) (h : heap) (result : jsmap value) :
  SR_table P h ->
  (forall p, In p P -> List.length (pprefs h p) = 1) ->
  (forall p, In p P -> pmatching h (at_index (pprefs h p) 0) = p) ->
  (forall a, map_get a result = if includes P a then Some (pmatching h a) else None) ->
  symmetric_matching result.
Proof.
  intros [T [N S]] L Hd R a b Hab Tb. rewrite R in Hab.
  destruct (includes P a) eqn:Ia; [|discriminate]. injection Hab as <-.
  apply includes_In in Ia.
  set (q := at_index (pprefs h a) 0).
  assert (Hq : In q (pprefs h a)).
  { apply at_index_0_In. intros E. specialize (L a Ia). rewrite E in L. discriminate. }
  assert (HqP : In q P) by (apply (proj2 (T a Ia)); exact Hq).
  assert (Hhq : at_index (pprefs h q) 0 = a).
  { apply singleton_head; auto. }
  assert (Ma : pmatching h a = q).
  { rewrite <- Hhq at 1. now apply Hd. }
  rewrite Ma, R. rewrite (proj2 (includes_In _ _) HqP).
  f_equal. now apply Hd.
Qed.

(** From a table in which everyone is unmatched and the lists have no
    repetition, rank players of the game and are mutually consistent,
    a run that ends without a no-stable-matching warning returns a
    symmetric map. *)
Lemma stableRoommates_symmetric
    (h : heap) (players : list value) (fuel : nat) (result : jsmap value) (h' : heap) :
  SR_ready h players = true ->
  stableRoommates fuel players h = (Ok (result, []), h') ->
  symmetric_matching result.
Proof.
  intros Hready H. destruct (SR_ready_inv _ _ Hready) as [T [M Hd]].
  unfold stableRoommates in H.
  apply bind_Ok_inv in H. destruct H as [pp [h1 [E1 H]]].
  unfold firstPhase in E1. apply bind_Ok_inv in E1. destruct E1 as [[] [h0 [E1 E1']]].
  injection E1' as <- <-.
  destruct (firstPhase_loop_inv players fuel players h h0 T M Hd (incl_refl _) E1)
    as [T1 [M1 Hd1]].
  apply bind_Ok_inv in H. destruct H as [emptyPlayers [h1 [E2 H]]].
  apply filterM_length_is_Ok in E2. destruct E2 as [-> Eempty].
  apply bind_Ok_inv in H. destruct H as [run2 [h1 [E3 H]]].
  apply someM_length_gt_Ok in E3. destruct E3 as [-> Hrun2].
  apply bind_Ok_inv in H. destruct H as [w2 [h2 [E4 H]]].
  apply bind_Ok_inv in H. destruct H as [res [h3 [E5 H]]].
  injection H as -> Hw <-.
  apply app_eq_nil in Hw. destruct Hw as [Hw1 ->].
  apply single_result_Ok in E5. destruct E5 as [-> Hres].
  assert (Hnonempty0 : forall p, In p players -> pprefs h0 p <> []).
  { intros p Hp Hnil.
    assert (Hin : In p emptyPlayers).
    { rewrite Eempty. apply filter_In. split; [exact Hp|]. now rewrite Hnil. }
    destruct emptyPlayers; [destruct Hin|discriminate]. }
  assert (Hone : forall hh, (forall p, In p players -> List.length (pprefs hh p) <= 1) ->
                 (forall p, In p players -> pprefs hh p <> []) ->
                 forall p, In p players -> List.length (pprefs hh p) = 1).
  { intros hh L1 L2 p Hp. specialize (L1 p Hp). specialize (L2 p Hp).
    destruct (pprefs hh p); [congruence|simpl in *; lia]. }
  destruct run2.
  - (* the second phase ran *)
    unfold secondPhase in E4.
    apply bind_Ok_inv in E4. destruct E4 as [player [h4 [F1 E4]]].
    apply findM_length_gt_Ok in F1. destruct F1 as [-> Hfind].
    apply bind_Ok_inv in E4. destruct E4 as [w [h4 [F2 E4]]].
    apply bind_Ok_inv in E4. destruct E4 as [[] [h5 [F3 E4]]].
    injection E4 as -> ->.
    destruct (secondPhase_loop_inv players fuel fuel player h0 h4 [] T1 Hfind F2)
      as [T4 [_ W4]].
    destruct (W4 eq_refl) as [L4 N4].
    assert (N4' : forall p, In p players -> pprefs h4 p <> []).
    { destruct N4 as [->|N4]; auto. }
    pose proof (Hone h4 L4 N4') as One4.
    destruct (final_matching_effect players h4 h2 F3) as [Mf [Prf Plf]].
    assert (Tf : SR_table players h2).
    { destruct T4 as [A [B C]]. split; [|split].
      - intros p Hp. rewrite Plf, Prf. auto.
      - intros p Hp. rewrite Prf. auto.
      - intros p q Hp. rewrite !Prf. auto. }
    assert (Mp : forall p, In p players -> pmatching h2 p = at_index (pprefs h2 p) 0).
    { intros p Hp. rewrite Mf, Prf. rewrite (proj2 (includes_In _ _) Hp).
      rewrite (One4 p Hp). reflexivity. }
    apply (symmetric_from_singletons players h2 result Tf).
    + intros p Hp. rewrite Prf. auto.
    + intros p Hp.
      assert (Hq : In (at_index (pprefs h2 p) 0) (pprefs h2 p)).
      { apply at_index_0_In. rewrite Prf. auto. }
      assert (HqP : In (at_index (pprefs h2 p) 0) players).
      { apply (proj2 (proj1 Tf p Hp)). exact Hq. }
      rewrite (Mp _ HqP). apply singleton_head.
      * rewrite Prf. auto.
      * apply (proj2 (proj2 Tf) p _ Hp Hq).
    + exact Hres.
  - (* the second phase was skipped *)
    injection E4 as <-.
    apply (symmetric_from_singletons players h0 result T1).
    + apply Hone; auto.
    + intros p Hp. apply Hd1; auto.
    + exact Hres.
Qed.


(* ------------------------------------------------------------------ *)
(** ** A game the constructor's [checkInputs] accepts *)

Lemma dedup_In (x : value) (l : list value) : In x (dedup l) <-> In x l.
Proof.
  induction l as [|y l IH]; simpl; [tauto|].
  rewrite remove_value_In, IH. split.
  - intros [->|[H _]]; auto.
  - intros [->|H]; [now left|].
    destruct (value_eqb x y) eqn:E.
    + apply value_eqb_eq in E. subst. now left.
    + right. split; [assumption|]. intros ->. now rewrite value_eqb_refl in E.
Qed.

Lemma dedup_NoDup (l : list value) : NoDup (dedup l).
Proof.
  induction l as [|y l IH]; simpl; constructor.
  - rewrite remove_value_In. tauto.
  - unfold remove_value. now apply NoDup_filter.
Qed.

(** The two [Set]s compared by the rank checks have the same members. *)
Lemma same_set_spec (prefs others : list value) :
  same_set prefs others = true -> forall x, In x prefs <-> In x others.
Proof.
  unfold same_set. intros H. apply andb_true_iff in H as [L I].
  apply Nat.eqb_eq in L. rewrite forallb_forall in I.
  assert (I1 : incl (dedup prefs) (dedup others)).
  { intros x Hx. apply includes_In. now apply I. }
  assert (I2 : incl (dedup others) (dedup prefs)).
  { apply NoDup_length_incl; [apply dedup_NoDup|lia|exact I1]. }
  intros x. rewrite <- (dedup_In x prefs), <- (dedup_In x others). split; auto.
Qed.

Lemma SR_checkInputs_loop (all l : list value) (h : heap) :
  fst (forEach l (fun player =>
         p <- getPlayer "prefs" player ;;
         if same_set (Player.prefs p) (remove_value player all)
         then ret tt
         else throw (Error "Every player must rank all other players.")) h) = Ok tt ->
  forall p, In p l ->
    exists x, obj_at h p = Some (PlayerObj x)
              /\ same_set (Player.prefs x) (remove_value p all) = true.
Proof.
  induction l as [|q l IH]; simpl; intros H p Hp; [contradiction|].
  unfold bind in H at 1.
  destruct (bind (getPlayer "prefs" q) _ h) as [[[]|e|] h1] eqn:E;
    try (simpl in H; discriminate).
  apply bind_Ok_inv in E. destruct E as [x [h2 [E1 E2]]].
  apply getPlayer_Ok in E1. destruct E1 as [-> E1].
  destruct (same_set _ _) eqn:S; [|discriminate]. injection E2 as <-.
  destruct Hp as [<-|Hp]; [eauto|]. now apply IH.
Qed.

(** What [checkInputs] accepts, when nobody is matched and no list has
    a repetition, is a table Irving's algorithm can start from. *)
Lemma SR_accepted_ready (h : heap) (players : list value) :
  fst (SR_checkInputs players h) = Ok tt ->
  SR_unmatched_distinct h players = true ->
  SR_ready h players = true.
Proof.
  intros Hacc Hud. pose proof (SR_checkInputs_loop players players h Hacc) as A.
  unfold SR_unmatched_distinct in Hud. rewrite forallb_forall in Hud.
  unfold SR_ready. apply forallb_forall. intros p Hp.
  destruct (A p Hp) as [x [Ox Sx]]. specialize (Hud p Hp).
  apply andb_true_iff in Hud as [U D].
  pose proof (same_set_spec _ _ Sx) as Mx.
  unfold SR_player_ready. unfold is_player, pprefs in *. rewrite Ox in *.
  rewrite U, D. simpl. apply andb_true_iff. split.
  - apply forallb_forall. intros q Hq. apply includes_In.
    apply Mx in Hq. apply remove_value_In in Hq. tauto.
  - apply forallb_forall. intros q Hq. apply includes_In.
    apply Mx in Hq. apply remove_value_In in Hq. destruct Hq as [Hq Hne].
    destruct (A q Hq) as [y [Oy Sy]]. rewrite Oy.
    apply (same_set_spec _ _ Sy). apply remove_value_In. split; [assumption|congruence].
Qed.


(* ================================================================== *)
(** ** What the Hospital-Resident constructor builds *)
(* ================================================================== *)

Lemma hoare_ret {A : Type} (P : heap -> Prop) (x : A) :
  hoare P (ret x) (fun y h => y = x /\ P h).
Proof. intros h y h' Hp E. inversion E; subst. auto. Qed.

Lemma hoare_throw {A : Type} (P : heap -> Prop) (e : error) (Q : A -> heap -> Prop) :
  hoare P (throw e) Q.
Proof. intros h y h' Hp E. discriminate. Qed.

Lemma hoare_bind {A B : Type} (P : heap -> Prop) (Q : A -> heap -> Prop)
    (R : B -> heap -> Prop) (m : M A) (k : A -> M B) :
  hoare P m Q -> (forall x, hoare (Q x) (k x) R) -> hoare P (bind m k) R.
Proof.
  intros Hm Hk h y h' Hp E. apply bind_Ok_inv in E. destruct E as [x [h1 [E1 E2]]].
  eapply Hk; [|exact E2]. eapply Hm; eauto.
Qed.

Lemma hoare_conseq {A : Type} (P P' : heap -> Prop) (Q Q' : A -> heap -> Prop) (m : M A) :
  hoare P m Q -> (forall h, P' h -> P h) -> (forall x h, Q x h -> Q' x h) ->
  hoare P' m Q'.
Proof. intros H HP HQ h x h' Hp E. apply HQ. eapply H; eauto. Qed.

(** A computation that leaves the heap as it is keeps every invariant. *)
Lemma hoare_reads {A : Type} (P : heap -> Prop) (m : M A) :
  (forall h, snd (m h) = h) -> hoare P m (fun _ => P).
Proof. intros R h x h' Hp E. specialize (R h). rewrite E in R. simpl in R. now subst. Qed.

Lemma hoare_load (P : heap -> Prop) (s : string) (v : value) :
  hoare P (load s v) (fun o h => P h /\ obj_at h v = Some o).
Proof. intros h o h' Hp E. apply load_Ok in E. destruct E as [-> E]. auto. Qed.

Lemma hoare_getPlayer (P : heap -> Prop) (s : string) (v : value) :
  hoare P (getPlayer s v) (fun p h => P h /\ obj_at h v = Some (PlayerObj p)).
Proof. intros h o h' Hp E. apply getPlayer_Ok in E. destruct E as [-> E]. auto. Qed.

Lemma hoare_getHospital (P : heap -> Prop) (s : string) (v : value) :
  hoare P (getHospital s v) (fun x h => P h /\ obj_at h v = Some (HospitalObj x)).
Proof. intros h o h' Hp E. apply getHospital_Ok in E. destruct E as [-> E]. auto. Qed.

Lemma hoare_store (Q : heap -> Prop) (v : value) (o : obj) :
  hoare (fun h => forall a, v = ref a -> Q (upd a o h)) (store v o) (fun _ => Q).
Proof. intros h [] h' Hp E. apply store_Ok in E. destruct E as [a [-> ->]]. auto. Qed.

Lemma hoare_forEach {A : Type} (I : heap -> Prop) (l : list A) (body : A -> M unit) :
  (forall x, In x l -> hoare I (body x) (fun _ => I)) ->
  hoare I (forEach l body) (fun _ => I).
Proof.
  induction l as [|x l IH]; intros B; simpl.
  - intros h y h' Hp E. inversion E; subst. exact Hp.
  - eapply hoare_bind; [apply B; now left|]. intros u. apply IH.
    intros y Hy. apply B. now right.
Qed.

Lemma hoare_forEachW {A : Type} (I : heap -> Prop) (l : list A)
    (body : A -> M (list warning)) :
  (forall x, In x l -> hoare I (body x) (fun _ => I)) ->
  hoare I (forEachW l body) (fun _ => I).
Proof.
  induction l as [|x l IH]; intros B; simpl.
  - intros h y h' Hp E. inversion E; subst. exact Hp.
  - eapply hoare_bind; [apply B; now left|]. intros w.
    eapply hoare_bind; [apply IH; intros y Hy; apply B; now right|].
    intros ws h y h' Hp E. inversion E; subst. exact Hp.
Qed.

Lemma hoare_forEachG (I : HospitalResident.t -> heap -> Prop) (l : list value)
    (body : HospitalResident.t -> value -> M (HospitalResident.t * list warning)) :
  (forall g x, hoare (I g) (body g x) (fun r => I (fst r))) ->
  forall g, hoare (I g) (forEachG l g body) (fun r => I (fst r)).
Proof.
  intros B. induction l as [|x l IH]; intros g; simpl.
  - intros h y h' Hp E. inversion E; subst. exact Hp.
  - eapply hoare_bind; [apply B|]. intros r.
    eapply hoare_bind; [apply IH|].
    intros r' h y h' Hp E. inversion E; subst. exact Hp.
Qed.

Lemma mapM_heap {A B : Type} (f : A -> M B) (l : list A) :
  (forall x h, snd (f x h) = h) -> forall h, snd (mapM f l h) = h.
Proof.
  intros F. induction l as [|x l IH]; intros h; simpl; [reflexivity|].
  unfold bind at 1. specialize (F x h).
  destruct (f x h) as [[y|e|] h1]; simpl in *; subst; try reflexivity.
  unfold bind. specialize (IH h).
  destruct (mapM f l h) as [[ys|e|] h1]; simpl in *; now subst.
Qed.

Lemma names_of_heap (l : list value) (h : heap) : snd (names_of l h) = h.
Proof.
  unfold names_of. apply mapM_heap. clear. intros v h. unfold bind, load.
  destruct v as [| |a]; simpl; try reflexivity.
  destruct (nth_error h a); reflexivity.
Qed.

(** Names can be read off every element: none of them is [undefined]. *)
Lemma names_of_Ok (l : list value) (h h' : heap) (names : list PlayerName) :
  names_of l h = (Ok names, h') -> forall v, In v l -> truthy v = true.
Proof.
  unfold names_of. revert names h'. induction l as [|w l IH]; intros names h' E v Hv;
    [contradiction|].
  simpl in E. apply bind_Ok_inv in E. destruct E as [y [h1 [E1 E2]]].
  apply bind_Ok_inv in E1. destruct E1 as [o [h2 [E1 E1']]].
  apply load_Ok in E1. destruct E1 as [-> E1]. inversion E1'; subst.
  apply bind_Ok_inv in E2. destruct E2 as [ys [h3 [E2 E2']]].
  destruct Hv as [Hv|Hv].
  - subst w. destruct v; simpl in E1; try discriminate. reflexivity.
  - exact (IH ys h3 E2 v Hv).
Qed.

Lemma HR_built_upd_resident rs hs (h : heap) (a : addr) (p p' : Player.t) :
  HR_built rs hs h ->
  nth_error h a = Some (PlayerObj p) ->
  incl (Player.prefs p') hs -> Player.matching p' = null ->
  HR_built rs hs (upd a (PlayerObj p') h).
Proof.
  intros [W1 W2] E I1 I2. split.
  - intros r Hr. destruct (value_eqb_spec r (ref a)) as [->|N].
    + exists p'. rewrite (obj_at_upd_same _ _ _ _ E). auto.
    + destruct (W1 r Hr) as [q [Eq Hq]]. exists q. rewrite obj_at_upd_other; auto.
  - intros x Hx. destruct (W2 x Hx) as [o [Eo Ho]]. exists o.
    rewrite obj_at_upd_other; auto.
    intros ->. simpl in Eo. congruence.
Qed.

Lemma HR_built_upd_hospital rs hs (h : heap) (a : addr) (x x' : Hospital.t) :
  HR_built rs hs h ->
  nth_error h a = Some (HospitalObj x) ->
  Hospital.cls x' = IsHospital ->
  incl (Hospital.prefs x') rs -> Hospital.matching x' = [] ->
  HR_built rs hs (upd a (HospitalObj x') h).
Proof.
  intros [W1 W2] E C I1 I2. split.
  - intros r Hr. destruct (W1 r Hr) as [q [Eq Hq]]. exists q.
    rewrite obj_at_upd_other; auto.
    intros ->. simpl in Eq. congruence.
  - intros y Hy. destruct (value_eqb_spec y (ref a)) as [->|N].
    + exists x'. rewrite (obj_at_upd_same _ _ _ _ E). auto.
    + destruct (W2 y Hy) as [o [Eo Ho]]. exists o. rewrite obj_at_upd_other; auto.
Qed.

(** A member of either party, by its class. *)
Lemma HR_built_member rs hs (h : heap) (v : value) :
  HR_built rs hs h -> In v rs \/ In v hs ->
  exists a, v = ref a
    /\ ((exists p, nth_error h a = Some (PlayerObj p)
                   /\ incl (Player.prefs p) hs /\ Player.matching p = null /\ In v rs)
        \/ (exists o, nth_error h a = Some (HospitalObj o)
                      /\ Hospital.cls o = IsHospital
                      /\ incl (Hospital.prefs o) rs /\ Hospital.matching o = []
                      /\ In v hs)).
Proof.
  intros [W1 W2] [Hv|Hv].
  - destruct (W1 v Hv) as [p [E Hp]]. destruct v as [| |a]; try discriminate.
    exists a. split; [reflexivity|]. left. exists p. simpl in E. tauto.
  - destruct (W2 v Hv) as [o [E Ho]]. destruct v as [| |a]; try discriminate.
    exists a. split; [reflexivity|]. right. exists o. simpl in E. tauto.
Qed.

(** [_forget] on a member only shortens its list. *)
Lemma hoare_forget rs hs (this other : value) :
  In this rs \/ In this hs ->
  hoare (HR_built rs hs) (_forget this other) (fun _ => HR_built rs hs).
Proof.
  intros Hm h [] h' K E.
  destruct (HR_built_member rs hs h this K Hm) as [a [-> [[p [Ep [I1 [I2 _]]]]|[o [Eo [C [I1 [I2 _]]]]]]]].
  - rewrite (forget_player a other h p Ep) in E. injection E as <-.
    eapply HR_built_upd_resident; eauto. now apply incl_remove_value.
  - rewrite (forget_hospital a other h o Eo C) in E. injection E as <-.
    eapply HR_built_upd_hospital; eauto. now apply incl_remove_value.
Qed.

Lemma Player_setPrefs_Ok (this : value) (l : list value) (h h' : heap) :
  Player_setPrefs this l h = (Ok tt, h') ->
  exists a p names,
    this = ref a /\ nth_error h a = Some (PlayerObj p)
    /\ (forall v, In v l -> truthy v = true)
    /\ h' = upd a (PlayerObj (Player.setPrefs l names (Player.with_prefs l p)))
                (upd a (PlayerObj (Player.with_prefs l p)) h).
Proof.
  unfold Player_setPrefs. intros E.
  apply bind_Ok_inv in E. destruct E as [p [h1 [E1 E]]].
  apply getPlayer_Ok in E1. destruct E1 as [-> E1].
  apply bind_Ok_inv in E. destruct E as [[] [h2 [E2 E]]].
  apply store_Ok in E2. destruct E2 as [a [-> ->]]. simpl in E1.
  apply bind_Ok_inv in E. destruct E as [names [h3 [E3 E]]].
  pose proof (names_of_heap l (upd a (PlayerObj (Player.with_prefs l p)) h)) as Hh.
  rewrite E3 in Hh. simpl in Hh. subst h3.
  apply bind_Ok_inv in E. destruct E as [p' [h4 [E4 E]]].
  apply getPlayer_Ok in E4. destruct E4 as [-> E4].
  rewrite (obj_at_upd_same _ _ _ _ E1) in E4. injection E4 as <-.
  apply store_Ok in E. destruct E as [b [Eb ->]]. injection Eb as <-.
  exists a, p, names. repeat split; auto. eapply names_of_Ok; eauto.
Qed.

Lemma Hospital_setPrefs_Ok (this : value) (l : list value) (h h' : heap) :
  Hospital_setPrefs this l h = (Ok tt, h') ->
  exists a x names,
    this = ref a /\ nth_error h a = Some (HospitalObj x)
    /\ (forall v, In v l -> truthy v = true)
    /\ h' = upd a (HospitalObj (Hospital.setPrefs l names (Hospital.with_prefs l x)))
                (upd a (HospitalObj (Hospital.with_prefs l x)) h).
Proof.
  unfold Hospital_setPrefs. intros E.
  apply bind_Ok_inv in E. destruct E as [p [h1 [E1 E]]].
  apply getHospital_Ok in E1. destruct E1 as [-> E1].
  apply bind_Ok_inv in E. destruct E as [[] [h2 [E2 E]]].
  apply store_Ok in E2. destruct E2 as [a [-> ->]]. simpl in E1.
  apply bind_Ok_inv in E. destruct E as [names [h3 [E3 E]]].
  pose proof (names_of_heap l (upd a (HospitalObj (Hospital.with_prefs l p)) h)) as Hh.
  rewrite E3 in Hh. simpl in Hh. subst h3.
  apply bind_Ok_inv in E. destruct E as [p' [h4 [E4 E]]].
  apply getHospital_Ok in E4. destruct E4 as [-> E4].
  rewrite (obj_at_upd_same _ _ _ _ E1) in E4. injection E4 as <-.
  apply store_Ok in E. destruct E as [b [Eb ->]]. injection Eb as <-.
  exists a, p, names. repeat split; auto. eapply names_of_Ok; eauto.
Qed.

(** [setPrefs] on a member, with a list whose defined entries are
    members of the other party. *)
Lemma hoare_setPrefs rs hs (this : value) (l : list value) :
  (In this rs /\ (forall v, In v l -> truthy v = true -> In v hs))
  \/ (In this hs /\ (forall v, In v l -> truthy v = true -> In v rs)) ->
  hoare (HR_built rs hs) (setPrefs this l) (fun _ => HR_built rs hs).
Proof.
  intros Hm h [] h' K E.
  assert (Hm' : In this rs \/ In this hs) by tauto.
  destruct (HR_built_member rs hs h this K Hm')
    as [a [-> [[p [Ep [I1 [I2 Hr]]]]|[o [Eo [C [I1 [I2 Hh]]]]]]]].
  - unfold setPrefs in E. apply bind_Ok_inv in E. destruct E as [o [h1 [E1 E]]].
    apply load_Ok in E1. destruct E1 as [-> E1]. simpl in E1. rewrite Ep in E1.
    injection E1 as <-.
    apply Player_setPrefs_Ok in E.
    destruct E as [b [p0 [names [Eb [Ep0 [T ->]]]]]]. injection Eb as <-.
    rewrite Ep in Ep0. injection Ep0 as <-.
    assert (Il : incl l hs).
    { intros v Hv. destruct Hm as [[_ Hl]|[Hh _]].
      - auto.
      - exfalso. destruct K as [_ W2]. destruct (W2 _ Hh) as [o [Eo _]].
        simpl in Eo. congruence. }
    eapply HR_built_upd_resident.
    + eapply HR_built_upd_resident; eauto.
    + apply nth_error_upd_same. apply nth_error_Some. congruence.
    + exact Il.
    + exact I2.
  - unfold setPrefs in E. apply bind_Ok_inv in E. destruct E as [o' [h1 [E1 E]]].
    apply load_Ok in E1. destruct E1 as [-> E1]. simpl in E1. rewrite Eo in E1.
    injection E1 as <-. rewrite C in E.
    apply Hospital_setPrefs_Ok in E.
    destruct E as [b [p0 [names [Eb [Ep0 [T ->]]]]]]. injection Eb as <-.
    rewrite Eo in Ep0. injection Ep0 as <-.
    assert (Il : incl l rs).
    { intros v Hv. destruct Hm as [[Hr _]|[_ Hl]].
      - exfalso. destruct K as [W1 _]. destruct (W1 _ Hr) as [p [Ep _]].
        simpl in Ep. congruence.
      - auto. }
    eapply HR_built_upd_hospital.
    + eapply HR_built_upd_hospital; eauto.
    + apply nth_error_upd_same. apply nth_error_Some. congruence.
    + exact C.
    + exact Il.
    + exact I2.
Qed.

Lemma hoare_pre_pure {A : Type} (P : heap -> Prop) (phi : Prop) (m : M A)
    (Q : A -> heap -> Prop) :
  (forall h, P h -> phi) -> (phi -> hoare P m Q) -> hoare P m Q.
Proof. intros H1 H2 h x h' Hp E. exact (H2 (H1 h Hp) h x h' Hp E). Qed.

Lemma hoare_weaken_pre {A : Type} (P P' : heap -> Prop) (m : M A) (Q : A -> heap -> Prop) :
  hoare P m Q -> (forall h, P' h -> P h) -> hoare P' m Q.
Proof. intros H HP. eapply hoare_conseq; eauto. Qed.

Lemma hoare_skip (P : heap -> Prop) {A : Type} (x : A) : hoare P (ret x) (fun _ => P).
Proof. intros h y h' Hp E. inversion E; subst. exact Hp. Qed.

Lemma filterM_heap {A : Type} (f : A -> M bool) (l : list A) :
  (forall x h, snd (f x h) = h) -> forall h, snd (filterM f l h) = h.
Proof.
  intros F. induction l as [|x l IH]; intros h; simpl; [reflexivity|].
  unfold bind at 1. specialize (F x h).
  destruct (f x h) as [[y|e|] h1]; simpl in *; subst; try reflexivity.
  unfold bind. specialize (IH h).
  destruct (filterM f l h) as [[ys|e|] h1]; simpl in *; now subst.
Qed.

Lemma filterM_Ok_incl {A : Type} (f : A -> M bool) (l r : list A) (h h' : heap) :
  filterM f l h = (Ok r, h') -> incl r l.
Proof.
  revert r h h'. induction l as [|x l IH]; intros r h h' E; simpl in E.
  - inversion E; subst. apply incl_refl.
  - apply bind_Ok_inv in E. destruct E as [b [h1 [E1 E]]].
    apply bind_Ok_inv in E. destruct E as [r' [h2 [E2 E]]].
    inversion E; subst. specialize (IH _ _ _ E2).
    destruct b.
    + intros y [->|Hy]; [now left|right; auto].
    + intros y Hy. right. auto.
Qed.

Lemma hoare_filterM_reads {A : Type} (P : heap -> Prop) (f : A -> M bool) (l : list A) :
  (forall x h, snd (f x h) = h) ->
  hoare P (filterM f l) (fun r h => P h /\ incl r l).
Proof.
  intros F h r h' Hp E. split.
  - pose proof (filterM_heap f l F h) as Hh. rewrite E in Hh. simpl in Hh. now subst.
  - eapply filterM_Ok_incl; eauto.
Qed.

Lemma HR_built_prefs rs hs (h : heap) (v : value) (o : obj) :
  HR_built rs hs h -> obj_at h v = Some o ->
  (In v rs -> incl (obj_prefs o) hs) /\ (In v hs -> incl (obj_prefs o) rs).
Proof.
  intros [W1 W2] E. split; intros Hv.
  - destruct (W1 v Hv) as [p [Ep [I1 _]]]. rewrite E in Ep. injection Ep as ->. exact I1.
  - destruct (W2 v Hv) as [x [Ex [_ [I1 _]]]]. rewrite E in Ex. injection Ex as ->. exact I1.
Qed.

Lemma unique_prefs_incl (player : value) (prefs acc : list value) (w : list warning) :
  incl (fst (unique_prefs player prefs acc w)) (acc ++ prefs).
Proof.
  revert acc w. induction prefs as [|other rest IH]; intros acc w; simpl.
  - rewrite app_nil_r. apply incl_refl.
  - destruct (includes acc other); simpl.
    + intros x Hx. apply IH in Hx. apply in_app_iff in Hx. apply in_app_iff.
      destruct Hx; [now left|right; now right].
    + intros x Hx. apply IH in Hx. rewrite <- app_assoc in Hx. exact Hx.
Qed.

Lemma hoare_checkInputsPlayerPrefsUnique rs hs (clean : bool) (players : list value) :
  incl players rs \/ incl players hs ->
  hoare (HR_built rs hs) (checkInputsPlayerPrefsUnique clean players)
        (fun _ => HR_built rs hs).
Proof.
  intros Hm. unfold checkInputsPlayerPrefsUnique. apply hoare_forEachW.
  intros player Hp. eapply hoare_bind; [apply hoare_load|]. intros o.
  pose proof (unique_prefs_incl player (obj_prefs o) [] []) as U. simpl in U.
  destruct (unique_prefs player (obj_prefs o) [] []) as [uniquePrefs w]. simpl in U.
  eapply hoare_bind with (Q := fun _ => HR_built rs hs).
  - destruct clean.
    + apply hoare_pre_pure
        with (phi := (In player rs -> incl (obj_prefs o) hs)
                     /\ (In player hs -> incl (obj_prefs o) rs)).
      * intros h [K E]. eapply HR_built_prefs; eauto.
      * intros [P1 P2]. eapply hoare_weaken_pre; [apply hoare_setPrefs|intros h [K _]; exact K].
        destruct Hm as [Hm|Hm]; [left|right]; (split; [now apply Hm|]);
          intros v Hv _; [apply P1|apply P2]; auto.
    + eapply hoare_weaken_pre; [apply hoare_skip|intros h [K _]; exact K].
  - intros u. apply hoare_skip.
Qed.

Lemma hoare_forget_if rs hs (clean : bool) (this other : value) :
  In this rs \/ In this hs ->
  hoare (HR_built rs hs) (if clean then _forget this other else ret tt)
        (fun _ => HR_built rs hs).
Proof. intros Hm. destruct clean; [now apply hoare_forget|apply hoare_skip]. Qed.

Lemma hoare_checkInputsPlayerPrefsAllInParty rs hs (clean : bool)
    (players others : list value) :
  incl players rs \/ incl players hs ->
  hoare (HR_built rs hs) (checkInputsPlayerPrefsAllInParty clean players others)
        (fun _ => HR_built rs hs).
Proof.
  intros Hm. unfold checkInputsPlayerPrefsAllInParty. apply hoare_forEachW.
  intros player Hp.
  assert (Hmem : In player rs \/ In player hs) by (destruct Hm as [Hm|Hm]; auto).
  eapply hoare_bind with (Q := fun _ => HR_built rs hs).
  { eapply hoare_conseq with (P := HR_built rs hs);
      [apply hoare_load|intros h K; exact K|intros o h [K _]; exact K]. }
  intros o. apply hoare_forEachW. intros other _.
  destruct (negb _); [|apply hoare_skip].
  eapply hoare_bind; [now apply hoare_forget_if|]. intros u. apply hoare_skip.
Qed.

Lemma hoare_prefs_include (P : heap -> Prop) (s : string) (x y : value) :
  hoare P (prefs_include s x y) (fun _ => P).
Proof. apply hoare_reads. apply prefs_include_heap. Qed.

Lemma hoare_checkInputsPlayerPrefsAllReciprocated rs hs (clean : bool)
    (hospitals : list value) :
  incl hospitals rs \/ incl hospitals hs ->
  hoare (HR_built rs hs) (checkInputsPlayerPrefsAllReciprocated clean hospitals)
        (fun _ => HR_built rs hs).
Proof.
  intros Hm. unfold checkInputsPlayerPrefsAllReciprocated. apply hoare_forEachW.
  intros hospital Hp.
  assert (Hmem : In hospital rs \/ In hospital hs) by (destruct Hm as [Hm|Hm]; auto).
  eapply hoare_bind with (Q := fun _ => HR_built rs hs).
  { eapply hoare_conseq with (P := HR_built rs hs);
      [apply hoare_load|intros h K; exact K|intros o h [K _]; exact K]. }
  intros o. apply hoare_forEachW. intros other _.
  eapply hoare_bind; [apply hoare_prefs_include|]. intros ranked.
  destruct (negb _); [|apply hoare_skip].
  eapply hoare_bind; [now apply hoare_forget_if|]. intros u. apply hoare_skip.
Qed.

Lemma hoare_checkInputsPlayerReciprocatedAllPrefs rs hs (clean : bool)
    (hospitals residents : list value) :
  incl residents rs \/ incl residents hs ->
  hoare (HR_built rs hs) (checkInputsPlayerReciprocatedAllPrefs clean hospitals residents)
        (fun _ => HR_built rs hs).
Proof.
  intros Hm. unfold checkInputsPlayerReciprocatedAllPrefs. apply hoare_forEachW.
  intros hospital _.
  eapply hoare_bind.
  { apply hoare_filterM_reads. intros x h. apply prefs_include_heap. }
  intros ranked. apply hoare_pre_pure with (phi := incl ranked residents).
  { intros h [_ I]. exact I. }
  intros I. eapply hoare_weaken_pre with (P := HR_built rs hs); [|intros h [K _]; exact K].
  apply hoare_forEachW. intros resident Hr.
  assert (Hmem : In resident rs \/ In resident hs).
  { apply I in Hr. destruct Hm as [Hm|Hm]; auto. }
  eapply hoare_bind; [apply hoare_prefs_include|]. intros b.
  destruct (negb _); [|apply hoare_skip].
  eapply hoare_bind; [now apply hoare_forget_if|]. intros u. apply hoare_skip.
Qed.

Lemma prefs_include_Ok (s : string) (x y : value) (h h' : heap) (b : bool) :
  prefs_include s x y h = (Ok b, h') ->
  h' = h /\ exists o, obj_at h x = Some o /\ b = includes (obj_prefs o) y.
Proof.
  unfold prefs_include. intros E. apply bind_Ok_inv in E. destruct E as [o [h1 [E1 E]]].
  apply load_Ok in E1. destruct E1 as [-> E1]. inversion E; subst. eauto.
Qed.

(** [_forget] on a member, in full: the new object has [other] deleted
    from its list. *)
Lemma forget_member rs hs (h : heap) (this other : value) :
  HR_built rs hs h -> In this rs \/ In this hs ->
  exists a o o',
    this = ref a /\ nth_error h a = Some o
    /\ _forget this other h = (Ok tt, upd a o' h)
    /\ obj_prefs o' = remove_value other (obj_prefs o)
    /\ HR_built rs hs (upd a o' h).
Proof.
  intros K Hm.
  destruct (HR_built_member rs hs h this K Hm)
    as [a [-> [[p [Ep [I1 [I2 _]]]]|[o [Eo [C [I1 [I2 _]]]]]]]].
  - exists a, (PlayerObj p), (PlayerObj (Player._forget other p)).
    repeat split; auto using forget_player.
    + eapply HR_built_upd_resident; eauto. now apply incl_remove_value.
    + eapply HR_built_upd_resident; eauto. now apply incl_remove_value.
  - exists a, (HospitalObj o), (HospitalObj (Hospital._forget other o)).
    repeat split; auto using forget_hospital.
    + eapply HR_built_upd_hospital; eauto. now apply incl_remove_value.
    + eapply HR_built_upd_hospital; eauto. now apply incl_remove_value.
Qed.

(** The loop of [removePlayer]: afterwards nobody of [others] ranks [player]. *)
Lemma hoare_forget_loop rs hs (player : value) (l done : list value) :
  (forall x, In x l -> In x rs \/ In x hs) ->
  hoare (fun h => HR_built rs hs h
                  /\ forall x o, In x done -> obj_at h x = Some o ->
                                 ~ In player (obj_prefs o))
        (forEach l (fun other =>
           ranked <- prefs_include "prefs" other player ;;
           if ranked then _forget other player else ret tt))
        (fun _ h => HR_built rs hs h
                    /\ forall x o, In x (done ++ l) -> obj_at h x = Some o ->
                                   ~ In player (obj_prefs o)).
Proof.
  revert done. induction l as [|other l IH]; intros done Hm; simpl.
  - intros h y h' Hp E. inversion E; subst. now rewrite app_nil_r.
  - eapply hoare_bind with
      (Q := fun _ h => HR_built rs hs h
                       /\ forall x o, In x (done ++ [other]) -> obj_at h x = Some o ->
                                      ~ In player (obj_prefs o)).
    + intros h [] h' [K D] E.
      apply bind_Ok_inv in E. destruct E as [ranked [h1 [E1 E]]].
      apply prefs_include_Ok in E1. destruct E1 as [-> [o [Eo ->]]].
      destruct (includes (obj_prefs o) player) eqn:R.
      * destruct (forget_member rs hs h other player K (Hm other (or_introl eq_refl)))
          as [a [o1 [o' [-> [E1 [E2 [E3 K']]]]]]].
        rewrite E2 in E. inversion E; subst. split; [exact K'|].
        intros x ox Hx Ex. destruct (value_eqb_spec x (ref a)) as [->|N].
        -- rewrite (obj_at_upd_same _ _ _ _ E1) in Ex. injection Ex as <-.
           rewrite E3. intros Hin. apply remove_value_In in Hin. tauto.
        -- rewrite obj_at_upd_other in Ex by assumption.
           apply in_app_iff in Hx. destruct Hx as [Hx|[<-|[]]]; [eauto|congruence].
      * inversion E; subst. split; [exact K|].
        intros x ox Hx Ex. apply in_app_iff in Hx. destruct Hx as [Hx|[<-|[]]]; [eauto|].
        rewrite Eo in Ex. injection Ex as <-. intros Hin.
        apply includes_In in Hin. congruence.
    + intros u. eapply hoare_conseq; [apply (IH (done ++ [other]))| |].
      * intros x Hx. apply Hm. now right.
      * auto.
      * intros y h [K D]. split; [exact K|]. intros x o Hx. apply D.
        rewrite <- app_assoc. exact Hx.
Qed.

Lemma hoare_removePlayer (g : HospitalResident.t) (player : value) (p q : party) :
  (p = residents_party /\ q = hospitals_party)
  \/ (p = hospitals_party /\ q = residents_party) ->
  hoare (HR_built (HospitalResident.residents g) (HospitalResident.hospitals g))
        (removePlayer g player p q)
        (fun g' => HR_built (HospitalResident.residents g') (HospitalResident.hospitals g')).
Proof.
  intros Hpq h g' h' K E. unfold removePlayer in E.
  apply bind_Ok_inv in E. destruct E as [[] [h1 [E1 E]]]. inversion E; subst. clear E.
  destruct Hpq as [[-> ->]|[-> ->]]; simpl in *.
  - pose proof (hoare_forget_loop (HospitalResident.residents g)
                  (HospitalResident.hospitals g) player (HospitalResident.hospitals g) []
                  (fun x Hx => or_intror Hx) h tt h') as L.
    destruct L as [K1 D]; [split; [exact K|intros x o []]|exact E1|].
    destruct K1 as [W1 W2]. split.
    + intros r Hr. apply remove_value_In in Hr. destruct Hr as [Hr _]. now apply W1.
    + intros x Hx. destruct (W2 x Hx) as [o [Eo [C [I1 I2]]]]. exists o.
      repeat split; auto. intros v Hv. apply remove_value_In. split; [now apply I1|].
      intros ->. exact (D x (HospitalObj o) Hx Eo Hv).
  - pose proof (hoare_forget_loop (HospitalResident.residents g)
                  (HospitalResident.hospitals g) player (HospitalResident.residents g) []
                  (fun x Hx => or_introl Hx) h tt h') as L.
    destruct L as [K1 D]; [split; [exact K|intros x o []]|exact E1|].
    destruct K1 as [W1 W2]. split.
    + intros r Hr. destruct (W1 r Hr) as [o [Eo [I1 I2]]]. exists o.
      repeat split; auto. intros v Hv. apply remove_value_In. split; [now apply I1|].
      intros ->. exact (D r (PlayerObj o) Hr Eo Hv).
    + intros x Hx. apply remove_value_In in Hx. destruct Hx as [Hx _]. now apply W2.
Qed.

Lemma hoare_removePlayer_if (g : HospitalResident.t) (player : value) (p q : party) :
  (p = residents_party /\ q = hospitals_party)
  \/ (p = hospitals_party /\ q = residents_party) ->
  hoare (HR_built (HospitalResident.residents g) (HospitalResident.hospitals g))
        (if HospitalResident.clean g then removePlayer g player p q else ret g)
        (fun g' => HR_built (HospitalResident.residents g') (HospitalResident.hospitals g')).
Proof.
  intros Hpq. destruct (HospitalResident.clean g); [now apply hoare_removePlayer|].
  intros h y h' K E. inversion E; subst. exact K.
Qed.

Lemma hoare_checkInputsPlayerPrefsNonempty (g : HospitalResident.t) (p q : party) :
  (p = residents_party /\ q = hospitals_party)
  \/ (p = hospitals_party /\ q = residents_party) ->
  hoare (HR_built (HospitalResident.residents g) (HospitalResident.hospitals g))
        (checkInputsPlayerPrefsNonempty g p q)
        (fun r => HR_built (HospitalResident.residents (fst r))
                           (HospitalResident.hospitals (fst r))).
Proof.
  intros Hpq. unfold checkInputsPlayerPrefsNonempty.
  apply (hoare_forEachG
           (fun g => HR_built (HospitalResident.residents g) (HospitalResident.hospitals g))).
  clear g. intros g player.
  eapply hoare_bind with
    (Q := fun _ => HR_built (HospitalResident.residents g) (HospitalResident.hospitals g)).
  { eapply hoare_conseq
      with (P := HR_built (HospitalResident.residents g) (HospitalResident.hospitals g));
      [apply hoare_load|intros h K; exact K|intros o h [K _]; exact K]. }
  intros o. destruct (Nat.eqb _ 0).
  - eapply hoare_bind; [now apply hoare_removePlayer_if|].
    intros g' h y h' K E. inversion E; subst. exact K.
  - intros h y h' K E. inversion E; subst. exact K.
Qed.

Lemma hoare_checkInputsPlayerCapacity (g : HospitalResident.t) (p q : party) :
  (p = residents_party /\ q = hospitals_party)
  \/ (p = hospitals_party /\ q = residents_party) ->
  hoare (HR_built (HospitalResident.residents g) (HospitalResident.hospitals g))
        (checkInputsPlayerCapacity g p q)
        (fun r => HR_built (HospitalResident.residents (fst r))
                           (HospitalResident.hospitals (fst r))).
Proof.
  intros Hpq. unfold checkInputsPlayerCapacity.
  apply (hoare_forEachG
           (fun g => HR_built (HospitalResident.residents g) (HospitalResident.hospitals g))).
  clear g. intros g player.
  eapply hoare_bind with
    (Q := fun _ => HR_built (HospitalResident.residents g) (HospitalResident.hospitals g)).
  { eapply hoare_conseq
      with (P := HR_built (HospitalResident.residents g) (HospitalResident.hospitals g));
      [apply hoare_getHospital|intros h K; exact K|intros o h [K _]; exact K]. }
  intros o. destruct (_ <? 1)%Z.
  - eapply hoare_bind; [now apply hoare_removePlayer_if|].
    intros g' h y h' K E. inversion E; subst. exact K.
  - intros h y h' K E. inversion E; subst. exact K.
Qed.

(** [checkInputs] keeps the game well built, in either mode. *)
Lemma hoare_HR_checkInputs (g : HospitalResident.t) :
  hoare (HR_built (HospitalResident.residents g) (HospitalResident.hospitals g))
        (HR_checkInputs g)
        (fun r => HR_built (HospitalResident.residents (fst r))
                           (HospitalResident.hospitals (fst r))).
Proof.
  unfold HR_checkInputs.
  eapply hoare_bind; [apply hoare_checkInputsPlayerPrefsUnique; left; apply incl_refl|].
  intros w1.
  eapply hoare_bind; [apply hoare_checkInputsPlayerPrefsUnique; right; apply incl_refl|].
  intros w2.
  eapply hoare_bind; [apply hoare_checkInputsPlayerPrefsAllInParty; left; apply incl_refl|].
  intros w3.
  eapply hoare_bind; [apply hoare_checkInputsPlayerPrefsAllInParty; right; apply incl_refl|].
  intros w4.
  eapply hoare_bind;
    [apply hoare_checkInputsPlayerPrefsAllReciprocated; right; apply incl_refl|].
  intros w5.
  eapply hoare_bind;
    [apply hoare_checkInputsPlayerReciprocatedAllPrefs; left; apply incl_refl|].
  intros w6.
  eapply hoare_bind; [apply hoare_checkInputsPlayerPrefsNonempty; now left|].
  intros r7.
  eapply hoare_bind; [apply hoare_checkInputsPlayerPrefsNonempty; now right|].
  intros r8.
  eapply hoare_bind; [apply hoare_checkInputsPlayerCapacity; now right|].
  intros r9 h y h' K E. inversion E; subst. exact K.
Qed.

Lemma map_get_set_same {V : Type} (k : value) (v : V) (m : jsmap V) :
  map_get k (map_set k v m) = Some v.
Proof.
  induction m as [|[k' v'] m IH]; simpl.
  - now rewrite value_eqb_refl.
  - destruct (value_eqb k' k) eqn:E; simpl; rewrite E; auto.
Qed.

Lemma map_get_set_other {V : Type} (k k' : value) (v : V) (m : jsmap V) :
  k' <> k -> map_get k' (map_set k v m) = map_get k' m.
Proof.
  intros N. induction m as [|[k0 v0] m IH]; simpl.
  - destruct (value_eqb_spec k k'); [congruence|reflexivity].
  - destruct (value_eqb_spec k0 k) as [->|N0]; simpl.
    + destruct (value_eqb_spec k k'); [congruence|reflexivity].
    + destruct (value_eqb k0 k'); auto.
Qed.

Lemma obj_at_app (h G : heap) (v : value) (o : obj) :
  obj_at h v = Some o -> obj_at (h ++ G) v = Some o.
Proof.
  destruct v as [| |a]; simpl; try discriminate. intros E.
  rewrite nth_error_app1; [exact E|]. apply nth_error_Some. congruence.
Qed.

Lemma obj_at_alloc (h : heap) (o : obj) : obj_at (h ++ [o]) (ref (List.length h)) = Some o.
Proof. simpl. rewrite nth_error_app2 by lia. now rewrite Nat.sub_diag. Qed.

Lemma map_set_keeps {V : Type} (k k' : value) (v : V) (m : jsmap V) :
  map_get k' m <> None -> map_get k' (map_set k v m) <> None.
Proof.
  intros H. destruct (value_eqb_spec k' k) as [->|N].
  - now rewrite map_get_set_same.
  - now rewrite map_get_set_other.
Qed.

(** The first loop of the constructors: every value of the clone map is
    a new player, and every player of the list has a clone. *)
Lemma clone_players_spec (l : list value) (cm : jsmap value) (h : heap)
    (cm' : jsmap value) (h' : heap) :
  clone_players l cm h = (Ok cm', h') ->
  (forall k v, map_get k cm = Some v ->
     exists nm, obj_at h v = Some (PlayerObj (Player.new nm))) ->
  (forall k v, map_get k cm' = Some v ->
     (In k l \/ map_get k cm <> None)
     /\ exists nm, obj_at h' v = Some (PlayerObj (Player.new nm)))
  /\ (forall k, In k l -> map_get k cm' <> None)
  /\ (forall k, map_get k cm <> None -> map_get k cm' <> None)
  /\ (forall v o, obj_at h v = Some o -> obj_at h' v = Some o).
Proof.
  revert cm h. induction l as [|player rest IH]; intros cm h E Hcm; simpl in E.
  - inversion E; subst. split; [|split; [|split]]; auto;
      try (intros k v Hk; split; [right; congruence|eauto]); try (intros k []).
  - apply bind_Ok_inv in E. destruct E as [p [h1 [E1 E]]].
    apply getPlayer_Ok in E1. destruct E1 as [-> E1].
    apply bind_Ok_inv in E. destruct E as [cl [h2 [E2 E]]].
    unfold alloc in E2. inversion E2; subst. clear E2.
    destruct (IH _ _ E) as [A [B [C D]]].
    { intros k v Hk. destruct (value_eqb_spec k player) as [->|N].
      - rewrite map_get_set_same in Hk. injection Hk as <-.
        exists (Player.name p). apply obj_at_alloc.
      - rewrite map_get_set_other in Hk by assumption.
        destruct (Hcm k v Hk) as [nm Hv]. exists nm. now apply obj_at_app. }
    split; [|split; [|split]].
    + intros k v Hk. destruct (A k v Hk) as [[Hin|Hget] Pv]; split; auto.
      * left. now right.
      * destruct (value_eqb_spec k player) as [->|N]; [left; now left|].
        rewrite map_get_set_other in Hget by assumption. now right.
    + intros k [<-|Hk]; [|now apply B].
      apply C. now rewrite map_get_set_same.
    + intros k Hk. apply C. now apply map_set_keeps.
    + intros v o Hv. apply D. now apply obj_at_app.
Qed.

Lemma clone_hospitals_spec (l : list value) (cm : jsmap value) (h : heap)
    (cm' : jsmap value) (h' : heap) :
  clone_hospitals l cm h = (Ok cm', h') ->
  (forall k v, map_get k cm = Some v ->
     exists nm cap, obj_at h v = Some (HospitalObj (Hospital.new IsHospital nm cap))) ->
  (forall k v, map_get k cm' = Some v ->
     (In k l \/ map_get k cm <> None)
     /\ exists nm cap, obj_at h' v = Some (HospitalObj (Hospital.new IsHospital nm cap)))
  /\ (forall k, In k l -> map_get k cm' <> None)
  /\ (forall k, map_get k cm <> None -> map_get k cm' <> None)
  /\ (forall v o, obj_at h v = Some o -> obj_at h' v = Some o).
Proof.
  revert cm h. induction l as [|player rest IH]; intros cm h E Hcm; simpl in E.
  - inversion E; subst. split; [|split; [|split]]; auto;
      try (intros k v Hk; split; [right; congruence|eauto]); try (intros k []).
  - apply bind_Ok_inv in E. destruct E as [p [h1 [E1 E]]].
    apply getHospital_Ok in E1. destruct E1 as [-> E1].
    apply bind_Ok_inv in E. destruct E as [cl [h2 [E2 E]]].
    unfold alloc in E2. inversion E2; subst. clear E2.
    destruct (IH _ _ E) as [A [B [C D]]].
    { intros k v Hk. destruct (value_eqb_spec k player) as [->|N].
      - rewrite map_get_set_same in Hk. injection Hk as <-.
        exists (Hospital.name p), (Hospital.capacity p). apply obj_at_alloc.
      - rewrite map_get_set_other in Hk by assumption.
        destruct (Hcm k v Hk) as [nm [cap Hv]]. exists nm, cap. now apply obj_at_app. }
    split; [|split; [|split]].
    + intros k v Hk. destruct (A k v Hk) as [[Hin|Hget] Pv]; split; auto.
      * left. now right.
      * destruct (value_eqb_spec k player) as [->|N]; [left; now left|].
        rewrite map_get_set_other in Hget by assumption. now right.
    + intros k [<-|Hk]; [|now apply B].
      apply C. now rewrite map_get_set_same.
    + intros k Hk. apply C. now apply map_set_keeps.
    + intros v o Hv. apply D. now apply obj_at_app.
Qed.

Lemma map_get_value_In (m : jsmap value) (l : list value) (k : value) (v : value) :
  In k l -> map_get k m = Some v -> In v (map (fun q => map_get_value q m) l).
Proof.
  intros Hk Hv. apply in_map_iff. exists k. split; [|exact Hk].
  unfold map_get_value. now rewrite Hv.
Qed.

(** The defined entries of a cloned preference list are clones of the
    members of the list the map was built from. *)
Lemma cloned_prefs_members (m : jsmap value) (keys prefs : list value) :
  (forall k v, map_get k m = Some v -> In k keys) ->
  forall v, In v (map (fun q => map_get_value q m) prefs) -> truthy v = true ->
            In v (map (fun q => map_get_value q m) keys).
Proof.
  intros Hk v Hv T. apply in_map_iff in Hv. destruct Hv as [q [<- _]].
  unfold map_get_value in *. destruct (map_get q m) as [w|] eqn:E; [|discriminate].
  apply (map_get_value_In m keys q w); [eapply Hk; eauto|exact E].
Qed.

Lemma hoare_clone_prefs_residents rs hs (rm hm : jsmap value)
    (residents hospitals : list value) :
  rs = map (fun q => map_get_value q rm) residents ->
  hs = map (fun q => map_get_value q hm) hospitals ->
  (forall k v, map_get k hm = Some v -> In k hospitals) ->
  hoare (HR_built rs hs) (clone_prefs rm hm residents) (fun _ => HR_built rs hs).
Proof.
  intros -> -> Hk. unfold clone_prefs. apply hoare_forEach. intros player Hp.
  eapply hoare_bind with
    (Q := fun _ => HR_built (map (fun q => map_get_value q rm) residents)
                            (map (fun q => map_get_value q hm) hospitals)).
  { eapply hoare_conseq; [apply hoare_load|intros h K; exact K|intros o h [K _]; exact K]. }
  intros o. apply hoare_setPrefs. left. split.
  - apply in_map_iff. eauto.
  - apply cloned_prefs_members. exact Hk.
Qed.

Lemma hoare_clone_prefs_hospitals rs hs (rm hm : jsmap value)
    (residents hospitals : list value) :
  rs = map (fun q => map_get_value q rm) residents ->
  hs = map (fun q => map_get_value q hm) hospitals ->
  (forall k v, map_get k rm = Some v -> In k residents) ->
  hoare (HR_built rs hs) (clone_prefs hm rm hospitals) (fun _ => HR_built rs hs).
Proof.
  intros -> -> Hk. unfold clone_prefs. apply hoare_forEach. intros player Hp.
  eapply hoare_bind with
    (Q := fun _ => HR_built (map (fun q => map_get_value q rm) residents)
                            (map (fun q => map_get_value q hm) hospitals)).
  { eapply hoare_conseq; [apply hoare_load|intros h K; exact K|intros o h [K _]; exact K]. }
  intros o. apply hoare_setPrefs. right. split.
  - apply in_map_iff. eauto.
  - apply cloned_prefs_members. exact Hk.
Qed.

(** The game a Hospital-Resident constructor returns, in either mode:
    residents are players ranking hospitals of the game, hospitals are
    plain hospitals ranking residents of the game, nobody is matched. *)
Lemma HospitalResident_new_built (residents hospitals : list value) (clean : bool)
    (c : heap) (g : HospitalResident.t) (w : list warning) (h : heap) :
  HospitalResident_new residents hospitals clean c = (Ok (g, w), h) ->
  HR_built (HospitalResident.residents g) (HospitalResident.hospitals g) h.
Proof.
  unfold HospitalResident_new. intros E.
  apply bind_Ok_inv in E. destruct E as [rm [h1 [E1 E]]].
  apply bind_Ok_inv in E. destruct E as [hm [h2 [E2 E]]].
  apply bind_Ok_inv in E. destruct E as [[] [h3 [E3 E]]].
  apply bind_Ok_inv in E. destruct E as [[] [h4 [E4 E]]].
  destruct (clone_players_spec _ _ _ _ _ E1) as [A1 [B1 [_ D1]]];
    [intros k v Hk; discriminate|].
  destruct (clone_hospitals_spec _ _ _ _ _ E2) as [A2 [B2 [_ D2]]];
    [intros k v Hk; discriminate|].
  set (rs := map (fun q => map_get_value q rm) residents) in *.
  set (hs := map (fun q => map_get_value q hm) hospitals) in *.
  assert (Kr : forall k v, map_get k rm = Some v -> In k residents).
  { intros k v Hk. destruct (A1 k v Hk) as [[Hin|Hn] _]; [exact Hin|].
    simpl in Hn. congruence. }
  assert (Kh : forall k v, map_get k hm = Some v -> In k hospitals).
  { intros k v Hk. destruct (A2 k v Hk) as [[Hin|Hn] _]; [exact Hin|].
    simpl in Hn. congruence. }
  assert (K2 : HR_built rs hs h2).
  { split.
    - intros r Hr. apply in_map_iff in Hr. destruct Hr as [k [<- Hk]].
      unfold map_get_value. destruct (map_get k rm) as [v|] eqn:Ev;
        [|exfalso; exact (B1 k Hk Ev)].
      destruct (A1 k v Ev) as [_ [nm Hv]]. exists (Player.new nm).
      split; [now apply D2|]. split; [intros x []|reflexivity].
    - intros x Hx. apply in_map_iff in Hx. destruct Hx as [k [<- Hk]].
      unfold map_get_value. destruct (map_get k hm) as [v|] eqn:Ev;
        [|exfalso; exact (B2 k Hk Ev)].
      destruct (A2 k v Ev) as [_ [nm [cap Hv]]].
      exists (Hospital.new IsHospital nm cap).
      split; [exact Hv|]. split; [reflexivity|]. split; [intros y []|reflexivity]. }
  pose proof (hoare_clone_prefs_residents rs hs rm hm residents hospitals
                eq_refl eq_refl Kh h2 tt h3 K2 E3) as K3.
  pose proof (hoare_clone_prefs_hospitals rs hs rm hm residents hospitals
                eq_refl eq_refl Kr h3 tt h4 K3 E4) as K4.
  exact (hoare_HR_checkInputs (HospitalResident.mk rs hs clean None None rs hs)
           h4 (g, w) h K4 E).
Qed.

Lemma HR_built_ready (rs hs : list value) (h : heap) :
  HR_built rs hs h -> HR_wf h rs hs = true /\ all_unmatched h rs hs = true.
Proof.
  intros [W1 W2]. split.
  - apply HR_wf_P. split.
    + intros r Hr. destruct (W1 r Hr) as [p [E [I1 I2]]]. exists p. auto.
    + intros x Hx. destruct (W2 x Hx) as [o [E [C [I1 I2]]]]. exists o.
      repeat split; auto. rewrite I2. intros y [].
  - unfold all_unmatched. apply andb_true_iff. split; apply forallb_forall.
    + intros r Hr. destruct (W1 r Hr) as [p [E [I1 I2]]].
      unfold pmatching. rewrite E, I2. reflexivity.
    + intros x Hx. destruct (W2 x Hx) as [o [E [C [I1 I2]]]].
      unfold hmatching. rewrite E, I2. reflexivity.
Qed.

(** C2 (amended): for every Hospital-Resident game the constructor
    returns (in either mode) whose hospitals are listed once and all
    have capacity at least one, no run of [solve]'s algorithm in either
    direction throws, and after any number of loop iterations (the
    state in which a run with that much fuel stops) as well as in the
    final state every hospital holds at most [capacity] matches; the
    lists in the returned map have that bound too. *)
Theorem C2_capacity_respected_when_capacities_positive
    (c : heap) (residents0 hospitals0 : list value) (clean : bool)
    (g : HospitalResident.t) (w : list warning) (h : heap)
    (optimal : HROptimal) (fuel : nat) :
  HospitalResident_new residents0 hospitals0 clean c = (Ok (g, w), h) ->
  capacities_positive h (HospitalResident.hospitals g) = true ->
  nodupb (HospitalResident.hospitals g) = true ->
  (forall e, fst (hospitalResident fuel (HospitalResident.residents g)
                    (HospitalResident.hospitals g) optimal h) <> Throw e)
  /\ capacity_respected
       (snd (hospitalResident fuel (HospitalResident.residents g)
               (HospitalResident.hospitals g) optimal h))
       (HospitalResident.hospitals g) = true
  /\ (forall result x ms,
        fst (hospitalResident fuel (HospitalResident.residents g)
               (HospitalResident.hospitals g) optimal h) = Ok result ->
        map_get x result = Some ms ->
        (Z.of_nat (List.length ms)
         <= hcapacity (snd (hospitalResident fuel (HospitalResident.residents g)
                              (HospitalResident.hospitals g) optimal h)) x)%Z).
Proof.
  intros Hnew CP ND.
  destruct (HR_built_ready _ _ _ (HospitalResident_new_built _ _ _ _ _ _ _ Hnew)) as [W U].
  apply hospitalResident_capacity_respected.
  unfold HR_ready. now rewrite W, U, CP, ND.
Qed.

(** The test-suite example: the constructor accepts the caller's
    entities, the premises hold, and the hospital-optimal run respects
    the capacities. *)
Lemma C2_capacity_respected_witness :
  HospitalResident_new [ref 0; ref 1; ref 2] [ref 3; ref 4] false hr_caller_heap
    = (Ok (hr_example_game, []), hr_example_heap)
  /\ capacities_positive hr_example_heap hr_example_hospitals = true
  /\ nodupb hr_example_hospitals = true
  /\ capacity_respected
       (snd (hospitalResident 10 hr_example_residents hr_example_hospitals
               hospital_optimal hr_example_heap)) hr_example_hospitals = true.
Proof.
  split; [vm_compute; reflexivity|]. split; [vm_compute; reflexivity|].
  split; [vm_compute; reflexivity|].
  apply (C2_capacity_respected_when_capacities_positive
           hr_caller_heap [ref 0; ref 1; ref 2] [ref 3; ref 4] false
           hr_example_game [] hr_example_heap hospital_optimal 10);
    vm_compute; reflexivity.
Defined.

(** C10: for every Hospital-Resident game the constructor returns whose
    hospitals all have capacity at least one, the resident-optimal run
    never throws; in particular, in every state the loop reaches, a
    hospital whose match count equals its capacity has a non-null worst
    match, so the eviction never dereferences [null].  The bound is
    needed: a hospital of capacity 0 passes the constructor with a mere
    warning when clean mode is off, and solving then throws on the
    [null] worst match. *)
Theorem C10_eviction_finds_a_resident
    (c : heap) (residents0 hospitals0 : list value) (clean : bool)
    (g : HospitalResident.t) (w : list warning) (h : heap) (fuel : nat) :
  HospitalResident_new residents0 hospitals0 clean c = (Ok (g, w), h) ->
  capacities_positive h (HospitalResident.hospitals g) = true ->
  (forall e, fst (residentOptimal fuel (HospitalResident.residents g)
                    (HospitalResident.hospitals g) h) <> Throw e)
  /\ (forall x o,
        In x (HospitalResident.hospitals g) ->
        obj_at (snd (residentOptimal_loop fuel (HospitalResident.residents g) h)) x
          = Some (HospitalObj o) ->
        Z.of_nat (List.length (Hospital.matching o)) = Hospital.capacity o ->
        truthy (Hospital.getWorstMatch o) = true)
  /\ (exists g0 h0,
        hr_zero = (Ok (g0, [PlayerExcludedWarning (ref 3)]), h0)
        /\ HospitalResident.hospitals g0 = [ref 3]
        /\ hcapacity h0 (ref 3) = 0%Z
        /\ fst (HospitalResident_solve 1 g0 resident_optimal h0)
           = Throw (TypeError "_unmatch")).
Proof.
  intros Hnew CP.
  destruct (HR_built_ready _ _ _ (HospitalResident_new_built _ _ _ _ _ _ _ Hnew)) as [W U].
  assert (CR : capacity_respected h (HospitalResident.hospitals g) = true).
  { unfold all_unmatched in U. apply andb_true_iff in U as [_ U].
    rewrite forallb_forall in U. unfold capacities_positive in CP.
    rewrite forallb_forall in CP. apply forallb_forall. intros x Hx.
    specialize (U x Hx). specialize (CP x Hx). apply Nat.eqb_eq in U. rewrite U.
    apply Z.leb_le in CP. apply Z.leb_le. simpl. lia. }
  destruct (residentOptimal_eviction h _ _ fuel W CP CR) as [A B].
  split; [exact A|]. split; [exact B|].
  eexists. eexists. split; [vm_compute; reflexivity|].
  split; [reflexivity|]. split; reflexivity.
Qed.

(** The premises of C10 hold of the test-suite example. *)
Lemma C10_eviction_witness :
  HospitalResident_new [ref 0; ref 1; ref 2] [ref 3; ref 4] false hr_caller_heap
    = (Ok (hr_example_game, []), hr_example_heap)
  /\ capacities_positive hr_example_heap hr_example_hospitals = true
  /\ forall e,
       fst (residentOptimal 10 hr_example_residents hr_example_hospitals hr_example_heap)
       <> Throw e.
Proof.
  split; [vm_compute; reflexivity|]. split; [vm_compute; reflexivity|].
  apply (C10_eviction_finds_a_resident
           hr_caller_heap [ref 0; ref 1; ref 2] [ref 3; ref 4] false
           hr_example_game [] hr_example_heap 10);
    vm_compute; reflexivity.
Defined.

(* ------------------------------------------------------------------ *)
(** ** What the Stable Roommates constructor builds *)

Lemma players_built_upd (ps : list value) (h : heap) (a : addr) (p p' : Player.t) :
  players_built ps h ->
  nth_error h a = Some (PlayerObj p) ->
  Player.matching p' = Player.matching p ->
  players_built ps (upd a (PlayerObj p') h).
Proof.
  intros K E M q Hq. destruct (K q Hq) as [x [Ex Mx]].
  destruct (value_eqb_spec q (ref a)) as [->|N].
  - exists p'. rewrite (obj_at_upd_same _ _ _ _ E). split; [reflexivity|].
    simpl in Ex. rewrite E in Ex. injection Ex as <-. congruence.
  - exists x. rewrite obj_at_upd_other; auto.
Qed.

Lemma hoare_setPrefs_player (ps : list value) (this : value) (l : list value) :
  In this ps ->
  hoare (players_built ps) (setPrefs this l) (fun _ => players_built ps).
Proof.
  intros Hm h [] h' K E. destruct (K this Hm) as [x [Ex Mx]].
  unfold setPrefs in E. apply bind_Ok_inv in E. destruct E as [o [h1 [E1 E]]].
  apply load_Ok in E1. destruct E1 as [-> E1]. rewrite Ex in E1. injection E1 as <-.
  apply Player_setPrefs_Ok in E.
  destruct E as [b [p0 [names [-> [Ep0 [T ->]]]]]].
  apply (players_built_upd ps _ b (Player.with_prefs l p0)).
  - apply (players_built_upd ps h b p0); [exact K|exact Ep0|reflexivity].
  - apply nth_error_upd_same. apply nth_error_Some. congruence.
  - reflexivity.
Qed.

Lemma forEach_heap {A : Type} (body : A -> M unit) (l : list A) :
  (forall x h, snd (body x h) = h) -> forall h, snd (forEach l body h) = h.
Proof.
  intros F. induction l as [|x l IH]; intros h; simpl; [reflexivity|].
  unfold bind. specialize (F x h).
  destruct (body x h) as [[y|e|] h1]; simpl in *; subst; auto.
Qed.

Lemma SR_checkInputs_heap (players : list value) (h : heap) :
  snd (SR_checkInputs players h) = h.
Proof.
  unfold SR_checkInputs. apply forEach_heap. clear. intros player h.
  unfold bind, getPlayer, bind, load. destruct player as [| |a]; simpl; try reflexivity.
  destruct (nth_error h a) as [[p|x]|]; simpl; try reflexivity.
  now destruct (same_set _ _).
Qed.

(** The game the Stable Roommates constructor returns passed
    [checkInputs] in the heap it is returned in, and nobody is matched. *)
Lemma StableRoommates_new_built (players0 : list value) (c : heap)
    (g : StableRoommates.t) (h : heap) :
  StableRoommates_new players0 c = (Ok g, h) ->
  fst (SR_checkInputs (StableRoommates.players g) h) = Ok tt
  /\ players_built (StableRoommates.players g) h.
Proof.
  unfold StableRoommates_new. intros E.
  apply bind_Ok_inv in E. destruct E as [cm [h1 [E1 E]]].
  apply bind_Ok_inv in E. destruct E as [[] [h2 [E2 E]]].
  apply bind_Ok_inv in E. destruct E as [[] [h3 [E3 E]]].
  inversion E; subst. clear E. simpl.
  pose proof (SR_checkInputs_heap (map (fun p => map_get_value p cm) players0) h2) as Hh.
  rewrite E3 in Hh. simpl in Hh. subst h2.
  split; [now rewrite E3|].
  destruct (clone_players_spec _ _ _ _ _ E1) as [A1 [B1 [_ D1]]];
    [intros k v Hk; discriminate|].
  assert (K1 : players_built (map (fun p => map_get_value p cm) players0) h1).
  { intros r Hr. apply in_map_iff in Hr. destruct Hr as [k [<- Hk]].
    unfold map_get_value. destruct (map_get k cm) as [v|] eqn:Ev;
      [|exfalso; exact (B1 k Hk Ev)].
    destruct (A1 k v Ev) as [_ [nm Hv]]. exists (Player.new nm). auto. }
  refine (hoare_forEach (players_built (map (fun p => map_get_value p cm) players0))
            players0 _ _ h1 tt h K1 E2).
  intros player Hp.
  eapply hoare_bind with
    (Q := fun _ => players_built (map (fun p => map_get_value p cm) players0)).
  { eapply hoare_conseq; [apply hoare_getPlayer|intros h0 K; exact K|].
    intros o h0 [K _]. exact K. }
  intros o. apply hoare_setPrefs_player. apply in_map_iff. eauto.
Qed.

(** X25. For every Stable Roommates game the constructor accepts whose
    rankings have no repeated entry, whenever the algorithm returns
    without a no-stable-matching warning, the returned map is symmetric:
    if A is matched to B then B is matched to A. *)
Theorem StableRoommates_symmetric_without_warning
    (c : heap) (players0 : list value) (g : StableRoommates.t) (h : heap)
    (fuel : nat) (result : jsmap value) (h' : heap) :
  StableRoommates_new players0 c = (Ok g, h) ->
  rankings_distinct h (StableRoommates.players g) = true ->
  stableRoommates fuel (StableRoommates.players g) h = (Ok (result, []), h') ->
  symmetric_matching result.
Proof.
  intros Hnew Hd H. destruct (StableRoommates_new_built _ _ _ _ Hnew) as [Hacc K].
  apply (stableRoommates_symmetric h (StableRoommates.players g) fuel result h'); [|exact H].
  apply SR_accepted_ready; [exact Hacc|].
  unfold SR_unmatched_distinct. unfold rankings_distinct in Hd.
  rewrite forallb_forall in Hd. apply forallb_forall. intros p Hp.
  destruct (K p Hp) as [x [Ex Mx]]. unfold pmatching. rewrite Ex, Mx. simpl.
  now apply Hd.
Qed.

(** The README game: the constructor accepts the caller's entities, the
    rankings have no repetition, and the result is symmetric. *)
Lemma StableRoommates_symmetric_without_warning_witness :
  StableRoommates_new [ref 0; ref 1; ref 2; ref 3] sr_caller_heap
    = (Ok sr_example_game, sr_example_heap)
  /\ rankings_distinct sr_example_heap sr_example_players = true
  /\ symmetric_matching sr_example_result.
Proof.
  split; [vm_compute; reflexivity|]. split; [vm_compute; reflexivity|].
  apply (StableRoommates_symmetric_without_warning sr_caller_heap [ref 0; ref 1; ref 2; ref 3]
           sr_example_game sr_example_heap 10 sr_example_result (snd sr_example_run)).
  - vm_compute. reflexivity.
  - vm_compute. reflexivity.
  - vm_compute. reflexivity.
Defined.

(* ------------------------------------------------------------------ *)
(** ** Student allocation: the README example *)

(** The example of the README: both directions allocate A and C to P1
    and B to P2, and no blocking pair is found afterwards. *)
Lemma run_SA_readme_example :
  fst (run_SA 20 sa_studentPrefs sa_supervisorPrefs sa_projectSupervisors
         sa_projectCapacities sa_supervisorCapacities false student_optimal [])
    = Ok [("P1", ["A"; "C"]); ("P2", ["B"])]
  /\ fst (run_SA 20 sa_studentPrefs sa_supervisorPrefs sa_projectSupervisors
            sa_projectCapacities sa_supervisorCapacities false supervisor_optimal [])
    = Ok [("P1", ["A"; "C"]); ("P2", ["B"])]
  /\ (exists g,
        fst ((gw <- StudentAllocation_createFromDictionaries sa_studentPrefs
                      sa_supervisorPrefs sa_projectSupervisors sa_projectCapacities
                      sa_supervisorCapacities false ;;
              g <- StudentAllocation_solve 20 (fst gw) student_optimal ;;
              StudentAllocation_checkStability g) [])
        = Ok (true, g)).
Proof.
  split; [vm_compute; reflexivity|]. split; [vm_compute; reflexivity|].
  eexists. vm_compute. reflexivity.
Qed.

(* ------------------------------------------------------------------ *)
(** ** Relocation commutes with the array helpers and the entity methods *)

Section Relocation_pure.
Variables n d : nat.

Local Notation "'shv'" := (sh n d).
Local Notation "'freshv'" := (fresh n).

Lemma sh_inj v w : shv v = shv w -> v = w.
Proof.
  destruct v as [| |a], w as [| |b]; simpl; try congruence;
    try (destruct (Nat.ltb_spec a n); congruence);
    try (destruct (Nat.ltb_spec b n); congruence).
  destruct (Nat.ltb_spec a n), (Nat.ltb_spec b n); intros E; injection E as E;
    f_equal; lia.
Qed.

Lemma value_eqb_sh v w : value_eqb (shv v) (shv w) = value_eqb v w.
Proof.
  destruct (value_eqb v w) eqn:E.
  - apply value_eqb_eq in E. subst. apply value_eqb_refl.
  - destruct (value_eqb (shv v) (shv w)) eqn:E'; [|reflexivity].
    apply value_eqb_eq in E'. apply sh_inj in E'. subst.
    now rewrite value_eqb_refl in E.
Qed.

Lemma sh_undefined : shv undefined = undefined.
Proof. reflexivity. Qed.

Lemma sh_null : shv null = null.
Proof. reflexivity. Qed.

Lemma value_eqb_sh_null v : value_eqb (shv v) null = value_eqb v null.
Proof. now destruct v as [| |a]; simpl; try destruct (Nat.ltb a n). Qed.

Lemma truthy_sh v : truthy (shv v) = truthy v.
Proof. now destruct v as [| |a]; simpl; try destruct (Nat.ltb a n). Qed.

Lemma sh_fresh v : freshv v -> shv v = match v with ref a => ref (a + d) | _ => v end.
Proof.
  destruct v as [| |a]; simpl; try reflexivity.
  intros F. destruct (Nat.ltb_spec a n); [lia|reflexivity].
Qed.

Lemma sh_caller v : callerb n v = true -> shv v = v.
Proof. destruct v as [| |a]; simpl; try reflexivity. now intros ->. Qed.

Lemma map_sh_caller l : forallb (callerb n) l = true -> map shv l = l.
Proof.
  induction l as [|v l IH]; simpl; [reflexivity|].
  intros H. apply andb_true_iff in H as [H1 H2].
  now rewrite sh_caller, IH.
Qed.

Lemma includes_sh l v : includes (map shv l) (shv v) = includes l v.
Proof.
  unfold includes. induction l as [|x l IH]; simpl; [reflexivity|].
  now rewrite value_eqb_sh, IH.
Qed.

Lemma indexOf_from_sh l v i : indexOf_from (map shv l) (shv v) i = indexOf_from l v i.
Proof.
  revert i. induction l as [|x l IH]; intros i; simpl; [reflexivity|].
  now rewrite value_eqb_sh, IH.
Qed.

Lemma indexOf_sh l v : indexOf (map shv l) (shv v) = indexOf l v.
Proof. apply indexOf_from_sh. Qed.

Lemma slice_sh l i : slice (map shv l) i = map shv (slice l i).
Proof. unfold slice. apply skipn_map. Qed.

Lemma remove_value_sh v l : remove_value (shv v) (map shv l) = map shv (remove_value v l).
Proof.
  unfold remove_value. induction l as [|x l IH]; simpl; [reflexivity|].
  rewrite value_eqb_sh, IH. now destruct (value_eqb x v).
Qed.

Lemma pop_sh l :
  pop (map shv l) = option_map (fun xr => (shv (fst xr), map shv (snd xr))) (pop l).
Proof.
  unfold pop. rewrite <- map_rev. destruct (rev l) as [|x r]; simpl; [reflexivity|].
  now rewrite map_rev.
Qed.

Lemma remove_first_sh v l : remove_first (shv v) (map shv l) = map shv (remove_first v l).
Proof.
  induction l as [|x l IH]; simpl; [reflexivity|].
  rewrite value_eqb_sh, IH. now destruct (value_eqb x v).
Qed.

Lemma at_index_sh l i : at_index (map shv l) i = shv (at_index l i).
Proof.
  unfold at_index. change undefined with (shv undefined) at 1. apply map_nth.
Qed.

Lemma dedup_sh l : dedup (map shv l) = map shv (dedup l).
Proof.
  induction l as [|x l IH]; simpl; [reflexivity|].
  now rewrite IH, remove_value_sh.
Qed.

Lemma insert_by_sh prefs x l :
  insert_by (indexOf (map shv prefs)) (shv x) (map shv l)
  = map shv (insert_by (indexOf prefs) x l).
Proof.
  induction l as [|y l IH]; simpl; [reflexivity|].
  rewrite !indexOf_sh, IH. now destruct (_ <=? _)%Z.
Qed.

Lemma sort_by_sh prefs l :
  sort_by (indexOf (map shv prefs)) (map shv l) = map shv (sort_by (indexOf prefs) l).
Proof.
  induction l as [|x l IH]; simpl; [reflexivity|].
  now rewrite IH, insert_by_sh.
Qed.

Lemma last_sh l : last (map shv l) undefined = shv (last l undefined).
Proof.
  induction l as [|x l IH]; [reflexivity|].
  destruct l as [|y l]; [reflexivity|]. exact IH.
Qed.

Lemma find_not_included_sh m l :
  find (fun p => negb (includes (map shv m) p)) (map shv l)
  = option_map shv (find (fun p => negb (includes m p)) l).
Proof.
  induction l as [|x l IH]; simpl; [reflexivity|].
  rewrite includes_sh, IH. now destruct (includes m x).
Qed.

Lemma map_get_sh {V : Type} (f : V -> V) k (m : jsmap V) :
  map_get (shv k) (map (fun kv => (shv (fst kv), f (snd kv))) m)
  = option_map f (map_get k m).
Proof.
  induction m as [|[k' v'] m IH]; simpl; [reflexivity|].
  rewrite value_eqb_sh, IH. now destruct (value_eqb k' k).
Qed.

Lemma map_set_sh {V : Type} (f : V -> V) k v (m : jsmap V) :
  map_set (shv k) (f v) (map (fun kv => (shv (fst kv), f (snd kv))) m)
  = map (fun kv => (shv (fst kv), f (snd kv))) (map_set k v m).
Proof.
  induction m as [|[k' v'] m IH]; simpl; [reflexivity|].
  rewrite value_eqb_sh, IH. now destruct (value_eqb k' k).
Qed.

Lemma map_get_value_sh k (m : jsmap value) :
  map_get_value (shv k) (map (fun kv => (shv (fst kv), shv (snd kv))) m)
  = shv (map_get_value k m).
Proof.
  unfold map_get_value. rewrite (map_get_sh shv). now destruct (map_get k m).
Qed.

(** *** Freshness is kept by the helpers *)

Lemma fresh_nonref v : truthy v = false -> freshv v.
Proof. now destruct v. Qed.

Lemma Forall_fresh_incl l l' :
  incl l' l -> Forall freshv l -> Forall freshv l'.
Proof. intros I F. apply Forall_forall. intros x Hx. eapply Forall_forall; eauto. Qed.

Lemma fresh_remove_value v l : Forall freshv l -> Forall freshv (remove_value v l).
Proof. apply Forall_fresh_incl. intros x Hx. now apply filter_In in Hx. Qed.

Lemma fresh_slice l i : Forall freshv l -> Forall freshv (slice l i).
Proof.
  apply Forall_fresh_incl. intros x Hx. unfold slice in Hx.
  rewrite <- (firstn_skipn (Z.to_nat i) l). apply in_or_app. now right.
Qed.

Lemma fresh_remove_first v l : Forall freshv l -> Forall freshv (remove_first v l).
Proof.
  induction l as [|x l IH]; simpl; intros F; [constructor|].
  inversion F; subst. destruct (value_eqb x v); [assumption|]. constructor; auto.
Qed.

Lemma fresh_at_index l i : Forall freshv l -> freshv (at_index l i).
Proof.
  intros F. unfold at_index. destruct (nth_in_or_default i l undefined) as [H|H].
  - eapply Forall_forall; eauto.
  - now rewrite H.
Qed.

Lemma fresh_insert_by key x l :
  freshv x -> Forall freshv l -> Forall freshv (insert_by key x l).
Proof.
  intros Fx. induction l as [|y l IH]; simpl; intros F.
  - now constructor.
  - inversion F; subst. destruct (_ <=? _)%Z; constructor; auto.
Qed.

Lemma fresh_sort_by key l : Forall freshv l -> Forall freshv (sort_by key l).
Proof.
  induction l as [|x l IH]; simpl; intros F; [constructor|].
  inversion F; subst. apply fresh_insert_by; auto.
Qed.

Lemma fresh_last l : Forall freshv l -> freshv (last l undefined).
Proof.
  induction l as [|x l IH]; intros F; [exact I|].
  inversion F; subst. destruct l as [|y l]; [assumption|]. now apply IH.
Qed.

Lemma fresh_pop l x r :
  pop l = Some (x, r) -> Forall freshv l -> freshv x /\ Forall freshv r.
Proof.
  unfold pop. intros E F. destruct (rev l) as [|y r'] eqn:R; [discriminate|].
  injection E as <- <-.
  assert (F' : Forall freshv (rev l)) by now apply Forall_rev.
  rewrite R in F'. inversion F'; subst. split; [assumption|]. now apply Forall_rev.
Qed.

Lemma fresh_snoc l x : Forall freshv l -> freshv x -> Forall freshv (l ++ [x]).
Proof. intros F Fx. apply Forall_app. split; [assumption|]. now constructor. Qed.

Lemma fresh_find f l x : find f l = Some x -> Forall freshv l -> freshv x.
Proof. intros E F. apply find_some in E. eapply Forall_forall; [exact F|]. tauto. Qed.

Lemma fresh_filter f l : Forall freshv l -> Forall freshv (filter f l).
Proof. apply Forall_fresh_incl. intros x Hx. now apply filter_In in Hx. Qed.

Lemma fresh_dedup l : Forall freshv l -> Forall freshv (dedup l).
Proof.
  induction l as [|x l IH]; simpl; intros F; [constructor|].
  inversion F; subst. constructor; [assumption|]. apply fresh_remove_value; auto.
Qed.

End Relocation_pure.

Section Relocation_entities.
Variables n d : nat.

Local Notation "'shv'" := (sh n d).
Local Notation "'shp'" := (sh_player n d).
Local Notation "'shh'" := (sh_hospital n d).

Lemma Player_forget_sh other p :
  Player._forget (shv other) (shp p) = shp (Player._forget other p).
Proof. unfold Player._forget, Player.with_prefs, sh_player. simpl. now rewrite remove_value_sh. Qed.

Lemma Player_with_prefs_sh l p :
  Player.with_prefs (map shv l) (shp p) = shp (Player.with_prefs l p).
Proof. reflexivity. Qed.

Lemma Player_setPrefs_sh l names p :
  Player.setPrefs (map shv l) names (shp p) = shp (Player.setPrefs l names p).
Proof. unfold Player.setPrefs, sh_player. simpl. now destruct (Player._originalPrefs p). Qed.

Lemma Player_match_sh other p :
  Player._match (shv other) (shp p) = shp (Player._match other p).
Proof. reflexivity. Qed.

Lemma Player_unmatch_sh p : Player._unmatch (shp p) = shp (Player._unmatch p).
Proof. reflexivity. Qed.

Lemma Player_getFavourite_sh p : Player.getFavourite (shp p) = shv (Player.getFavourite p).
Proof. unfold Player.getFavourite. simpl. apply at_index_sh. Qed.

Lemma Player_getSuccessors_sh p :
  Player.getSuccessors (shp p) = map shv (Player.getSuccessors p).
Proof.
  unfold Player.getSuccessors. simpl. rewrite truthy_sh, indexOf_sh, slice_sh.
  now destruct (truthy (Player.matching p)).
Qed.

Lemma Player_new_sh name : shp (Player.new name) = Player.new name.
Proof. reflexivity. Qed.

Lemma Hospital_forget_sh other x :
  Hospital._forget (shv other) (shh x) = shh (Hospital._forget other x).
Proof.
  unfold Hospital._forget, Hospital.with_prefs, sh_hospital. simpl.
  now rewrite remove_value_sh.
Qed.

Lemma Hospital_with_prefs_sh l x :
  Hospital.with_prefs (map shv l) (shh x) = shh (Hospital.with_prefs l x).
Proof. reflexivity. Qed.

Lemma Hospital_with_capacity_sh k x :
  Hospital.with_capacity k (shh x) = shh (Hospital.with_capacity k x).
Proof. reflexivity. Qed.

Lemma Hospital_setPrefs_sh l names x :
  Hospital.setPrefs (map shv l) names (shh x) = shh (Hospital.setPrefs l names x).
Proof. unfold Hospital.setPrefs, sh_hospital. simpl. now destruct (Hospital._originalPrefs x). Qed.

Lemma Hospital_setPrefs_supervisor_sh l names x :
  Hospital.setPrefs_supervisor (map shv l) names (shh x)
  = shh (Hospital.setPrefs_supervisor l names x).
Proof. reflexivity. Qed.

Lemma Hospital_match_sh r x :
  Hospital._match (shv r) (shh x) = shh (Hospital._match r x).
Proof.
  unfold Hospital._match, Hospital.with_matching, sh_hospital. simpl.
  change [shv r] with (map shv [r]). now rewrite <- map_app, sort_by_sh.
Qed.

Lemma Hospital_unmatch_sh r x :
  Hospital._unmatch (shv r) (shh x) = shh (Hospital._unmatch r x).
Proof.
  unfold Hospital._unmatch, Hospital.with_matching, sh_hospital. simpl.
  now rewrite remove_value_sh.
Qed.

Lemma Hospital_getFavourite_sh x :
  Hospital.getFavourite (shh x) = shv (Hospital.getFavourite x).
Proof.
  unfold Hospital.getFavourite. simpl. rewrite find_not_included_sh.
  now destruct (find _ (Hospital.prefs x)).
Qed.

Lemma Hospital_getWorstMatch_sh x :
  Hospital.getWorstMatch (shh x) = shv (Hospital.getWorstMatch x).
Proof.
  unfold Hospital.getWorstMatch. simpl. rewrite last_sh.
  now destruct (Hospital.matching x).
Qed.

Lemma Hospital_getSuccessors_sh x :
  Hospital.getSuccessors (shh x) = map shv (Hospital.getSuccessors x).
Proof.
  unfold Hospital.getSuccessors. rewrite Hospital_getWorstMatch_sh. simpl.
  rewrite truthy_sh, indexOf_sh, slice_sh.
  now destruct (truthy (Hospital.getWorstMatch x)).
Qed.

Lemma Hospital_checkIfOversubscribed_sh x :
  Hospital.checkIfOversubscribed (shh x) = Hospital.checkIfOversubscribed x.
Proof. unfold Hospital.checkIfOversubscribed. simpl. now rewrite length_map. Qed.

Lemma Hospital_new_sh k name cap : shh (Hospital.new k name cap) = Hospital.new k name cap.
Proof. reflexivity. Qed.

Lemma obj_name_sh o : obj_name (sh_obj n d o) = obj_name o.
Proof. now destruct o. Qed.

Lemma obj_prefs_sh o : obj_prefs (sh_obj n d o) = map shv (obj_prefs o).
Proof. now destruct o. Qed.

(** *** Freshness of the entities *)

Lemma fresh_Player_new name : fresh_player n (Player.new name).
Proof. repeat split; constructor. Qed.

Lemma fresh_Hospital_new k name cap : fresh_hospital n (Hospital.new k name cap).
Proof. repeat split; constructor. Qed.

Lemma fresh_Player_forget other p :
  fresh_player n p -> fresh_player n (Player._forget other p).
Proof. intros (F1 & F2 & F3). repeat split; simpl; auto using fresh_remove_value. Qed.

Lemma fresh_Player_with_prefs l p :
  Forall (fresh n) l -> fresh_player n p -> fresh_player n (Player.with_prefs l p).
Proof. intros F (F1 & F2 & F3). repeat split; simpl; auto. Qed.

Lemma fresh_Player_setPrefs l names p :
  Forall (fresh n) l -> fresh_player n p -> fresh_player n (Player.setPrefs l names p).
Proof.
  intros F (F1 & F2 & F3). repeat split; simpl; auto.
  now destruct (Player._originalPrefs p).
Qed.

Lemma fresh_Player_match other p :
  fresh n other -> fresh_player n p -> fresh_player n (Player._match other p).
Proof. intros F (F1 & F2 & F3). repeat split; simpl; auto. Qed.

Lemma fresh_Player_unmatch p : fresh_player n p -> fresh_player n (Player._unmatch p).
Proof. intros (F1 & F2 & F3). repeat split; simpl; auto. Qed.

Lemma fresh_Player_getFavourite p : fresh_player n p -> fresh n (Player.getFavourite p).
Proof. intros (F1 & F2 & F3). now apply fresh_at_index. Qed.

Lemma fresh_Player_getSuccessors p :
  fresh_player n p -> Forall (fresh n) (Player.getSuccessors p).
Proof.
  intros (F1 & F2 & F3). unfold Player.getSuccessors.
  destruct (truthy _); [now apply fresh_slice|constructor].
Qed.

Lemma fresh_Player_prefs p : fresh_player n p -> Forall (fresh n) (Player.prefs p).
Proof. now intros (F1 & F2 & F3). Qed.

Lemma fresh_Player_matching p : fresh_player n p -> fresh n (Player.matching p).
Proof. now intros (F1 & F2 & F3). Qed.

Lemma fresh_Hospital_forget other x :
  fresh_hospital n x -> fresh_hospital n (Hospital._forget other x).
Proof. intros (F1 & F2 & F3 & F4 & F5). repeat split; simpl; auto using fresh_remove_value. Qed.

Lemma fresh_Hospital_with_prefs l x :
  Forall (fresh n) l -> fresh_hospital n x -> fresh_hospital n (Hospital.with_prefs l x).
Proof. intros F (F1 & F2 & F3 & F4 & F5). repeat split; simpl; auto. Qed.

Lemma fresh_Hospital_with_capacity k x :
  fresh_hospital n x -> fresh_hospital n (Hospital.with_capacity k x).
Proof. intros (F1 & F2 & F3 & F4 & F5). repeat split; simpl; auto. Qed.

Lemma fresh_Hospital_setPrefs l names x :
  Forall (fresh n) l -> fresh_hospital n x -> fresh_hospital n (Hospital.setPrefs l names x).
Proof.
  intros F (F1 & F2 & F3 & F4 & F5). repeat split; simpl; auto.
  now destruct (Hospital._originalPrefs x).
Qed.

Lemma fresh_Hospital_setPrefs_supervisor l names x :
  Forall (fresh n) l -> fresh_hospital n x
  -> fresh_hospital n (Hospital.setPrefs_supervisor l names x).
Proof. intros F (F1 & F2 & F3 & F4 & F5). repeat split; simpl; auto. Qed.

Lemma fresh_Hospital_match r x :
  fresh n r -> fresh_hospital n x -> fresh_hospital n (Hospital._match r x).
Proof.
  intros F (F1 & F2 & F3 & F4 & F5). repeat split; simpl; auto.
  apply fresh_sort_by. now apply fresh_snoc.
Qed.

Lemma fresh_Hospital_unmatch r x :
  fresh_hospital n x -> fresh_hospital n (Hospital._unmatch r x).
Proof. intros (F1 & F2 & F3 & F4 & F5). repeat split; simpl; auto using fresh_remove_value. Qed.

Lemma fresh_Hospital_getFavourite x :
  fresh_hospital n x -> fresh n (Hospital.getFavourite x).
Proof.
  intros (F1 & F2 & F3 & F4 & F5). unfold Hospital.getFavourite.
  destruct (find _ _) eqn:E; [|exact I]. eapply fresh_find; eauto.
Qed.

Lemma fresh_Hospital_getWorstMatch x :
  fresh_hospital n x -> fresh n (Hospital.getWorstMatch x).
Proof.
  intros (F1 & F2 & F3 & F4 & F5). unfold Hospital.getWorstMatch.
  destruct (Hospital.matching x) eqn:E; [exact I|]. now apply fresh_last.
Qed.

Lemma fresh_Hospital_getSuccessors x :
  fresh_hospital n x -> Forall (fresh n) (Hospital.getSuccessors x).
Proof.
  intros F. pose proof F as (F1 & F2 & F3 & F4 & F5). unfold Hospital.getSuccessors.
  destruct (truthy _); [now apply fresh_slice|constructor].
Qed.

Lemma fresh_Hospital_prefs x : fresh_hospital n x -> Forall (fresh n) (Hospital.prefs x).
Proof. now intros (F1 & F2 & F3 & F4 & F5). Qed.

Lemma fresh_Hospital_matching x : fresh_hospital n x -> Forall (fresh n) (Hospital.matching x).
Proof. now intros (F1 & F2 & F3 & F4 & F5). Qed.

Lemma fresh_Hospital_supervisor x : fresh_hospital n x -> fresh n (Hospital.supervisor x).
Proof. now intros (F1 & F2 & F3 & F4 & F5). Qed.

Lemma fresh_Hospital_projects x : fresh_hospital n x -> Forall (fresh n) (Hospital.projects x).
Proof. now intros (F1 & F2 & F3 & F4 & F5). Qed.

Lemma fresh_obj_prefs o : fresh_obj n o -> Forall (fresh n) (obj_prefs o).
Proof. destruct o; simpl; [apply fresh_Player_prefs|apply fresh_Hospital_prefs]. Qed.

(** An object all of whose references are to the caller's cells is not
    changed by the relocation. *)
Lemma Hospital_with_supervisor_sh s x :
  Hospital.with_supervisor (shv s) (shh x) = shh (Hospital.with_supervisor s x).
Proof. reflexivity. Qed.

Lemma Hospital_with_projects_sh ps x :
  Hospital.with_projects (map shv ps) (shh x) = shh (Hospital.with_projects ps x).
Proof. reflexivity. Qed.

Lemma fresh_Hospital_with_supervisor s x :
  fresh n s -> fresh_hospital n x -> fresh_hospital n (Hospital.with_supervisor s x).
Proof. intros F (F1 & F2 & F3 & F4 & F5). repeat split; simpl; auto. Qed.

Lemma fresh_Hospital_with_projects ps x :
  Forall (fresh n) ps -> fresh_hospital n x -> fresh_hospital n (Hospital.with_projects ps x).
Proof. intros F (F1 & F2 & F3 & F4 & F5). repeat split; simpl; auto. Qed.

Lemma map_sh_caller_In l :
  (forall v, In v l -> callerb n v = true) -> map shv l = l.
Proof.
  intros H. apply map_sh_caller. apply forallb_forall. exact H.
Qed.

Lemma sh_obj_caller o :
  forallb (callerb n) (obj_refs o) = true -> sh_obj n d o = o.
Proof.
  intros H. rewrite forallb_forall in H.
  destruct o as [[nm pr m pn op]|[k nm cp oc pr pn op m s ps]];
    unfold sh_obj, sh_player, sh_hospital; simpl in *.
  - rewrite (map_sh_caller_In pr), (sh_caller _ _ m).
    + destruct op as [l|]; simpl; [|reflexivity].
      rewrite (map_sh_caller_In l); [reflexivity|].
      intros v Hv. apply H. rewrite in_app_iff. simpl. tauto.
    + apply H. rewrite in_app_iff. simpl. tauto.
    + intros v Hv. apply H. rewrite in_app_iff. tauto.
  - rewrite (map_sh_caller_In pr), (map_sh_caller_In m), (sh_caller _ _ s),
      (map_sh_caller_In ps).
    + destruct op as [l|]; simpl; [|reflexivity].
      rewrite (map_sh_caller_In l); [reflexivity|].
      intros v Hv. apply H. rewrite !in_app_iff. simpl. rewrite in_app_iff. tauto.
    + intros v Hv. apply H. rewrite !in_app_iff. simpl. rewrite in_app_iff. tauto.
    + apply H. rewrite !in_app_iff. simpl. tauto.
    + intros v Hv. apply H. rewrite !in_app_iff. tauto.
    + intros v Hv. apply H. rewrite in_app_iff. tauto.
Qed.

End Relocation_entities.

Create HintDb reloc.
Create Rewrite HintDb reloc.

#[global] Hint Rewrite value_eqb_sh value_eqb_sh_null truthy_sh includes_sh indexOf_sh slice_sh
  remove_value_sh remove_first_sh at_index_sh dedup_sh sort_by_sh last_sh
  map_get_value_sh Player_forget_sh Player_with_prefs_sh Player_setPrefs_sh
  Player_match_sh Player_unmatch_sh Player_getFavourite_sh Player_getSuccessors_sh
  Hospital_forget_sh Hospital_with_prefs_sh Hospital_with_capacity_sh
  Hospital_with_supervisor_sh Hospital_with_projects_sh
  Hospital_setPrefs_sh Hospital_setPrefs_supervisor_sh
  Hospital_match_sh Hospital_unmatch_sh Hospital_getFavourite_sh
  Hospital_getWorstMatch_sh Hospital_getSuccessors_sh Hospital_checkIfOversubscribed_sh
  obj_name_sh obj_prefs_sh length_map : reloc.

#[global] Hint Resolve fresh_nonref fresh_remove_value fresh_slice fresh_remove_first
  fresh_at_index fresh_sort_by fresh_last fresh_snoc fresh_filter fresh_dedup
  fresh_Player_new fresh_Hospital_new fresh_Player_forget fresh_Player_with_prefs
  fresh_Player_setPrefs fresh_Player_match fresh_Player_unmatch
  fresh_Player_getFavourite fresh_Player_getSuccessors fresh_Player_prefs
  fresh_Player_matching fresh_Hospital_forget fresh_Hospital_with_prefs
  fresh_Hospital_with_capacity fresh_Hospital_with_supervisor
  fresh_Hospital_with_projects fresh_Hospital_setPrefs fresh_Hospital_setPrefs_supervisor
  fresh_Hospital_match fresh_Hospital_unmatch fresh_Hospital_getFavourite
  fresh_Hospital_getWorstMatch fresh_Hospital_getSuccessors fresh_Hospital_prefs
  fresh_Hospital_matching fresh_Hospital_supervisor fresh_Hospital_projects
  fresh_obj_prefs : reloc.

(* ------------------------------------------------------------------ *)
(** ** Two runs of the same code in related heaps *)

Lemma upd_app_r (l G : heap) a o : upd (List.length l + a) o (l ++ G) = l ++ upd a o G.
Proof. induction l as [|x l IH]; simpl; [reflexivity|]. now rewrite IH. Qed.

Lemma upd_map (f : obj -> obj) a o (G : heap) : upd a (f o) (map f G) = map f (upd a o G).
Proof.
  revert a. induction G as [|x G IH]; intros [|a]; simpl; try reflexivity.
  now rewrite IH.
Qed.

Lemma Forall_upd (P : obj -> Prop) a o (G : heap) :
  Forall P G -> P o -> Forall P (upd a o G).
Proof.
  intros F Po. revert a. induction F as [|x G Px F IH]; intros [|a]; simpl;
    constructor; auto.
Qed.


Lemma Player_name_sh n d p : Player.name (sh_player n d p) = Player.name p.
Proof. reflexivity. Qed.

Lemma Player_prefs_sh n d p : Player.prefs (sh_player n d p) = map (sh n d) (Player.prefs p).
Proof. reflexivity. Qed.

Lemma Player_matching_sh n d p : Player.matching (sh_player n d p) = sh n d (Player.matching p).
Proof. reflexivity. Qed.

Lemma Player_originalPrefs_sh n d p :
  Player._originalPrefs (sh_player n d p) = option_map (map (sh n d)) (Player._originalPrefs p).
Proof. reflexivity. Qed.

Lemma Hospital_cls_sh n d x : Hospital.cls (sh_hospital n d x) = Hospital.cls x.
Proof. reflexivity. Qed.

Lemma Hospital_name_sh n d x : Hospital.name (sh_hospital n d x) = Hospital.name x.
Proof. reflexivity. Qed.

Lemma Hospital_capacity_sh n d x : Hospital.capacity (sh_hospital n d x) = Hospital.capacity x.
Proof. reflexivity. Qed.

Lemma Hospital_prefs_sh n d x :
  Hospital.prefs (sh_hospital n d x) = map (sh n d) (Hospital.prefs x).
Proof. reflexivity. Qed.

Lemma Hospital_matching_sh n d x :
  Hospital.matching (sh_hospital n d x) = map (sh n d) (Hospital.matching x).
Proof. reflexivity. Qed.

Lemma Hospital_supervisor_sh n d x :
  Hospital.supervisor (sh_hospital n d x) = sh n d (Hospital.supervisor x).
Proof. reflexivity. Qed.

Lemma Hospital_projects_sh n d x :
  Hospital.projects (sh_hospital n d x) = map (sh n d) (Hospital.projects x).
Proof. reflexivity. Qed.

Lemma Hospital_originalPrefs_sh n d x :
  Hospital._originalPrefs (sh_hospital n d x)
  = option_map (map (sh n d)) (Hospital._originalPrefs x).
Proof. reflexivity. Qed.

#[global] Hint Rewrite Player_name_sh Player_prefs_sh Player_matching_sh Player_originalPrefs_sh
  Hospital_cls_sh Hospital_name_sh Hospital_capacity_sh Hospital_prefs_sh
  Hospital_matching_sh Hospital_supervisor_sh Hospital_projects_sh
  Hospital_originalPrefs_sh : reloc.

Section Relocation_run.
Variables c X : heap.

(** The relocation leaves the caller's objects as they are: they refer
    to the caller's cells only, or nothing is relocated. *)
Hypothesis c_stable :
  forall o, In o c -> sh_obj (List.length c) (List.length X) o = o.

Local Notation "'shv'" := (sh (List.length c) (List.length X)).
Local Notation "'sho'" := (sh_obj (List.length c) (List.length X)).
Local Notation "'freshv'" := (fresh (List.length c)).
Local Notation "'rel'" := (rel_run c X).

Lemma heap_rel_refl_ext G :
  Forall (fresh_obj (List.length c)) G ->
  heap_rel c X (c ++ G) (c ++ X ++ map sho G).
Proof. intros F. exists G. auto. Qed.

Lemma rel_ret {A : Type} (shA : A -> A) (frA : A -> Prop) x y :
  y = shA x -> frA x -> rel shA frA (ret x) (ret y).
Proof. intros -> F H1 H2 S. simpl. auto. Qed.

Lemma rel_throw {A : Type} (shA : A -> A) (frA : A -> Prop) e :
  rel shA frA (throw e) (throw e).
Proof. intros H1 H2 S. simpl. auto. Qed.

Lemma rel_timeout {A : Type} (shA : A -> A) (frA : A -> Prop) :
  rel shA frA timeout timeout.
Proof. intros H1 H2 S. simpl. auto. Qed.

Lemma rel_bind {A B : Type} (shA : A -> A) (frA : A -> Prop) (shB : B -> B)
    (frB : B -> Prop) (m1 m2 : M A) (k1 k2 : A -> M B) :
  rel shA frA m1 m2 ->
  (forall x, frA x -> rel shB frB (k1 x) (k2 (shA x))) ->
  rel shB frB (bind m1 k1) (bind m2 k2).
Proof.
  intros R K H1 H2 S. destruct (R H1 H2 S) as [S' O]. unfold bind.
  destruct (m1 H1) as [[x1|e1|] H1'], (m2 H2) as [[x2|e2|] H2'];
    simpl in *; try contradiction; auto.
  destruct O as [-> F]. now apply K.
Qed.

Lemma rel_weaken {A : Type} (shA : A -> A) (frA frA' : A -> Prop) (m1 m2 : M A) :
  rel shA frA m1 m2 -> (forall x, frA x -> frA' x) -> rel shA frA' m1 m2.
Proof.
  intros R W H1 H2 S. destruct (R H1 H2 S) as [S' O]. split; [assumption|].
  destruct (fst (m1 H1)), (fst (m2 H2)); auto. destruct O. auto.
Qed.

Lemma rel_conseq {A : Type} (shA shA' : A -> A) (frA frA' : A -> Prop) (m1 m2 : M A) :
  rel shA frA m1 m2 -> (forall x, frA x -> shA x = shA' x /\ frA' x) ->
  rel shA' frA' m1 m2.
Proof.
  intros R W H1 H2 S. destruct (R H1 H2 S) as [S' O]. split; [assumption|].
  destruct (fst (m1 H1)), (fst (m2 H2)); auto. destruct O as [-> F].
  destruct (W _ F). auto.
Qed.

Lemma caller_cell a o : nth_error c a = Some o -> sho o = o.
Proof.
  intros E. apply c_stable. eapply nth_error_In; eauto.
Qed.

Lemma rel_load site v :
  rel sho (fun o => freshv v -> fresh_obj (List.length c) o)
      (load site v) (load site (shv v)).
Proof.
  intros H1 H2 (G & -> & -> & FG). destruct v as [| |a]; simpl;
    try (split; [now apply heap_rel_refl_ext|reflexivity]).
  destruct (Nat.ltb_spec a (List.length c)) as [L|L]; simpl.
  - rewrite !nth_error_app1 by assumption.
    destruct (nth_error c a) as [o|] eqn:E; simpl.
    + split; [now apply heap_rel_refl_ext|]. split; [|lia].
      symmetry. eapply caller_cell; eauto.
    + apply nth_error_None in E. lia.
  - rewrite (nth_error_app2 c G) by assumption.
    rewrite (nth_error_app2 c) by lia. rewrite (nth_error_app2 X) by lia.
    replace (a + List.length X - List.length c - List.length X) with (a - List.length c) by lia.
    rewrite nth_error_map. destruct (nth_error G (a - List.length c)) as [o|] eqn:E; simpl.
    + split; [now apply heap_rel_refl_ext|]. split; [reflexivity|]. intros _.
      eapply Forall_forall; [exact FG|]. eapply nth_error_In; eauto.
    + split; [now apply heap_rel_refl_ext|reflexivity].
Qed.

Lemma rel_store v o :
  freshv v -> fresh_obj (List.length c) o ->
  rel (fun u : unit => u) (fun _ => True) (store v o) (store (shv v) (sho o)).
Proof.
  intros Fv Fo H1 H2 (G & -> & -> & FG). destruct v as [| |a]; simpl;
    try (split; [now apply heap_rel_refl_ext|reflexivity]).
  simpl in Fv. destruct (Nat.ltb_spec a (List.length c)) as [L|L]; [lia|]. simpl.
  split; [|auto].
  replace a with (List.length c + (a - List.length c)) at 1 by lia.
  replace (a + List.length X)
    with (List.length c + (List.length X + (a - List.length c))) by lia.
  rewrite !upd_app_r, upd_map. apply heap_rel_refl_ext. now apply Forall_upd.
Qed.

Lemma rel_alloc o :
  fresh_obj (List.length c) o ->
  rel shv freshv (alloc o) (alloc (sho o)).
Proof.
  intros Fo H1 H2 (G & -> & -> & FG). unfold alloc. simpl. split.
  - exists (G ++ [o]). rewrite map_app, <- !app_assoc. simpl.
    repeat split; auto. apply Forall_app. split; [assumption|]. now constructor.
  - rewrite !length_app, length_map.
    destruct (Nat.ltb_spec (List.length c + List.length G) (List.length c)); [lia|].
    split; [f_equal; lia|lia].
Qed.

Lemma rel_getPlayer site v :
  rel (sh_player (List.length c) (List.length X))
      (fun p => freshv v -> fresh_player (List.length c) p)
      (getPlayer site v) (getPlayer site (shv v)).
Proof.
  unfold getPlayer. eapply rel_bind; [apply rel_load|].
  intros [p|x] F; simpl; [|apply rel_throw]. now apply rel_ret.
Qed.

Lemma rel_getHospital site v :
  rel (sh_hospital (List.length c) (List.length X))
      (fun x => freshv v -> fresh_hospital (List.length c) x)
      (getHospital site v) (getHospital site (shv v)).
Proof.
  unfold getHospital. eapply rel_bind; [apply rel_load|].
  intros [p|x] F; simpl; [apply rel_throw|]. now apply rel_ret.
Qed.

Lemma rel_forEach {A : Type} (shA : A -> A) (P : A -> Prop) (l : list A)
    (body1 body2 : A -> M unit) :
  Forall P l ->
  (forall x, P x -> rel (fun u : unit => u) (fun _ => True) (body1 x) (body2 (shA x))) ->
  rel (fun u : unit => u) (fun _ => True) (forEach l body1) (forEach (map shA l) body2).
Proof.
  intros F B. induction F as [|x l Px F IH]; simpl.
  - now apply rel_ret.
  - eapply rel_bind; [now apply B|]. intros _ _. exact IH.
Qed.

Lemma rel_mapM {A B : Type} (shA : A -> A) (P : A -> Prop) (shB : B -> B)
    (Q : B -> Prop) (l : list A) (f1 f2 : A -> M B) :
  Forall P l ->
  (forall x, P x -> rel shB Q (f1 x) (f2 (shA x))) ->
  rel (map shB) (Forall Q) (mapM f1 l) (mapM f2 (map shA l)).
Proof.
  intros F B'. induction F as [|x l Px F IH]; simpl.
  - now apply rel_ret.
  - eapply rel_bind; [now apply B'|]. intros y Qy.
    eapply rel_bind; [exact IH|]. intros ys Qys. apply rel_ret; [reflexivity|].
    now constructor.
Qed.

Lemma rel_someM {A : Type} (shA : A -> A) (P : A -> Prop) (l : list A)
    (f1 f2 : A -> M bool) :
  Forall P l ->
  (forall x, P x -> rel (fun b : bool => b) (fun _ => True) (f1 x) (f2 (shA x))) ->
  rel (fun b : bool => b) (fun _ => True) (someM f1 l) (someM f2 (map shA l)).
Proof.
  intros F B. induction F as [|x l Px F IH]; simpl.
  - now apply rel_ret.
  - eapply rel_bind; [now apply B|]. intros [|] _; [now apply rel_ret|exact IH].
Qed.

Lemma rel_filterM {A : Type} (shA : A -> A) (P : A -> Prop) (l : list A)
    (f1 f2 : A -> M bool) :
  Forall P l ->
  (forall x, P x -> rel (fun b : bool => b) (fun _ => True) (f1 x) (f2 (shA x))) ->
  rel (map shA) (Forall P) (filterM f1 l) (filterM f2 (map shA l)).
Proof.
  intros F B. induction F as [|x l Px F IH]; simpl.
  - now apply rel_ret.
  - eapply rel_bind; [now apply B|]. intros b _.
    eapply rel_bind; [exact IH|]. intros r Fr. apply rel_ret.
    + now destruct b.
    + destruct b; [now constructor|assumption].
Qed.

Lemma rel_findM (P : value -> Prop) (l : list value) (f1 f2 : value -> M bool) :
  Forall P l -> P undefined ->
  (forall x, P x -> rel (fun b : bool => b) (fun _ => True) (f1 x) (f2 (shv x))) ->
  rel shv P (findM f1 l) (findM f2 (map shv l)).
Proof.
  intros F U B. induction F as [|x l Px F IH]; simpl.
  - now apply rel_ret.
  - eapply rel_bind; [now apply B|]. intros [|] _; [now apply rel_ret|exact IH].
Qed.

Lemma rel_names_of players :
  rel (fun l : list PlayerName => l) (fun _ => True)
      (names_of players) (names_of (map shv players)).
Proof.
  unfold names_of.
  eapply rel_conseq.
  - apply (rel_mapM shv (fun _ => True) (fun s : PlayerName => s) (fun _ => True)).
    + apply Forall_forall. auto.
    + intros x _. eapply rel_bind; [apply rel_load|]. intros o _.
      apply rel_ret; [|exact I]. now rewrite obj_name_sh.
  - intros l _. split; [apply map_id|exact I].
Qed.

Lemma rel_store_player v p :
  fresh (List.length c) v -> fresh_player (List.length c) p ->
  rel_run c X (fun u : unit => u) (fun _ => True)
    (store v (PlayerObj p))
    (store (sh (List.length c) (List.length X) v)
           (PlayerObj (sh_player (List.length c) (List.length X) p))).
Proof. intros Fv Fp. now apply (rel_store v (PlayerObj p)). Qed.

Lemma rel_store_hospital v x :
  fresh (List.length c) v -> fresh_hospital (List.length c) x ->
  rel_run c X (fun u : unit => u) (fun _ => True)
    (store v (HospitalObj x))
    (store (sh (List.length c) (List.length X) v)
           (HospitalObj (sh_hospital (List.length c) (List.length X) x))).
Proof. intros Fv Fx. now apply (rel_store v (HospitalObj x)). Qed.

(** Use the freshness of what was read. *)
Ltac fresh_facts :=
  repeat match goal with
  | H : fresh ?n ?v -> _ |- _ =>
      let F := fresh "F" in
      assert (F : fresh n v) by (auto with reloc); specialize (H F); clear F
  end.

Ltac rel_call lem :=
  eapply rel_bind;
  [ autorewrite with reloc; eapply lem; auto with reloc
  | cbv beta; intros; fresh_facts; autorewrite with reloc ].

Ltac rel_done := apply rel_ret; [autorewrite with reloc; try reflexivity|auto with reloc].

Lemma rel_Player_setPrefs this players :
  freshv this -> Forall freshv players ->
  rel (fun u : unit => u) (fun _ => True)
      (Player_setPrefs this players) (Player_setPrefs (shv this) (map shv players)).
Proof.
  intros Ft Fp. unfold Player_setPrefs.
  rel_call rel_getPlayer. rel_call rel_store_player.
  rel_call rel_names_of. rel_call rel_getPlayer.
  apply rel_store_player; auto with reloc.
Qed.

Lemma rel_Hospital_setPrefs this players :
  freshv this -> Forall freshv players ->
  rel (fun u : unit => u) (fun _ => True)
      (Hospital_setPrefs this players) (Hospital_setPrefs (shv this) (map shv players)).
Proof.
  intros Ft Fp. unfold Hospital_setPrefs.
  rel_call rel_getHospital. rel_call rel_store_hospital.
  rel_call rel_names_of. rel_call rel_getHospital.
  apply rel_store_hospital; auto with reloc.
Qed.

Lemma rel_prefs_include site x y :
  rel (fun b : bool => b) (fun _ => True)
      (prefs_include site x y) (prefs_include site (shv x) (shv y)).
Proof.
  unfold prefs_include. rel_call rel_load. rel_done.
Qed.

Lemma rel_Supervisor_setPrefs this students :
  freshv this -> Forall freshv students ->
  rel (fun u : unit => u) (fun _ => True)
      (Supervisor_setPrefs this students)
      (Supervisor_setPrefs (shv this) (map shv students)).
Proof.
  intros Ft Fp. unfold Supervisor_setPrefs.
  rel_call rel_getHospital. rel_call rel_store_hospital.
  rel_call rel_names_of. rel_call rel_getHospital.
  rel_call rel_store_hospital.
  apply (rel_forEach shv freshv); [auto with reloc|].
  intros project Fpr.
  eapply rel_bind.
  - apply (rel_filterM shv freshv); [assumption|].
    intros student _. apply rel_prefs_include.
  - intros acceptable Fa. now apply rel_Hospital_setPrefs.
Qed.

Lemma rel_setPrefs this players :
  freshv this -> Forall freshv players ->
  rel (fun u : unit => u) (fun _ => True)
      (setPrefs this players) (setPrefs (shv this) (map shv players)).
Proof.
  intros Ft Fp. unfold setPrefs. rel_call rel_load.
  destruct x as [p|x]; simpl; [now apply rel_Player_setPrefs|].
  destruct (Hospital.cls x);
    auto using rel_Hospital_setPrefs, rel_Supervisor_setPrefs.
Qed.

Lemma rel_Supervisor_forget this student :
  freshv this ->
  rel (fun u : unit => u) (fun _ => True)
      (Supervisor_forget this student) (Supervisor_forget (shv this) (shv student)).
Proof.
  intros Ft. unfold Supervisor_forget. rel_call rel_getHospital.
  eapply rel_bind.
  - apply (rel_someM shv (fun _ => True)); [apply Forall_forall; auto|].
    intros project _. apply rel_prefs_include.
  - intros b _. autorewrite with reloc.
    destruct (includes (Hospital.prefs x) student && negb b); [|rel_done].
    apply rel_store_hospital; auto with reloc.
Qed.

Lemma rel_forget this other :
  freshv this ->
  rel (fun u : unit => u) (fun _ => True)
      (_forget this other) (_forget (shv this) (shv other)).
Proof.
  intros Ft. unfold _forget. rel_call rel_load.
  destruct x as [p|x]; simpl in *; autorewrite with reloc.
  - apply rel_store_player; auto with reloc.
  - destruct (Hospital.cls x).
    + apply rel_store_hospital; auto with reloc.
    + destruct (includes (Hospital.prefs x) other); [|rel_done].
      rel_call rel_store_hospital.
      destruct (truthy (Hospital.supervisor x)); [|rel_done].
      apply rel_Supervisor_forget. auto with reloc.
    + now apply rel_Supervisor_forget.
Qed.

Lemma rel_Hospital_match this resident :
  freshv this -> freshv resident ->
  rel (fun u : unit => u) (fun _ => True)
      (Hospital_match this resident) (Hospital_match (shv this) (shv resident)).
Proof.
  intros Ft Fr. unfold Hospital_match. rel_call rel_getHospital.
  apply rel_store_hospital; auto with reloc.
Qed.

Lemma rel_match this other :
  freshv this -> freshv other ->
  rel (fun u : unit => u) (fun _ => True)
      (_match this other) (_match (shv this) (shv other)).
Proof.
  intros Ft Fo. unfold _match. rel_call rel_load.
  destruct x as [p|x]; simpl in *; autorewrite with reloc.
  - apply rel_store_player; auto with reloc.
  - rel_call rel_store_hospital.
    destruct (Hospital.cls x); try rel_done.
    destruct (truthy (Hospital.supervisor x)); [|rel_done].
    apply rel_Hospital_match; auto with reloc.
Qed.

Lemma rel_Hospital_unmatch this resident :
  freshv this ->
  rel (fun u : unit => u) (fun _ => True)
      (Hospital_unmatch this resident) (Hospital_unmatch (shv this) (shv resident)).
Proof.
  intros Ft. unfold Hospital_unmatch. rel_call rel_getHospital.
  apply rel_store_hospital; auto with reloc.
Qed.

Lemma rel_unmatch this arg :
  freshv this ->
  rel (fun u : unit => u) (fun _ => True)
      (_unmatch this arg) (_unmatch (shv this) (shv arg)).
Proof.
  intros Ft. unfold _unmatch. rel_call rel_load.
  destruct x as [p|x]; simpl in *; autorewrite with reloc.
  - apply rel_store_player; auto with reloc.
  - rel_call rel_store_hospital.
    destruct (Hospital.cls x); try rel_done.
    destruct (truthy (Hospital.supervisor x)); [|rel_done].
    apply rel_Hospital_unmatch; auto with reloc.
Qed.

Lemma rel_getSuccessors this :
  freshv this ->
  rel (map shv) (Forall freshv) (getSuccessors this) (getSuccessors (shv this)).
Proof.
  intros Ft. unfold getSuccessors. rel_call rel_load.
  destruct x as [p|x]; simpl in *; rel_done.
Qed.

Lemma rel_prefers_in original player other :
  rel (fun b : bool => b) (fun _ => True)
      (prefers_in original player other)
      (prefers_in (option_map (map shv) original) (shv player) (shv other)).
Proof.
  unfold prefers_in. destruct original as [l|]; simpl; [rel_done|apply rel_throw].
Qed.

Lemma rel_prefers this player other :
  rel (fun b : bool => b) (fun _ => True)
      (prefers this player other) (prefers (shv this) (shv player) (shv other)).
Proof.
  unfold prefers. rel_call rel_load.
  destruct x as [p|x]; simpl; apply rel_prefers_in.
Qed.

Lemma rel_deletePair player other :
  freshv player -> freshv other ->
  rel (fun u : unit => u) (fun _ => True)
      (deletePair player other) (deletePair (shv player) (shv other)).
Proof.
  intros Fp Fo. unfold deletePair. rel_call rel_forget. now apply rel_forget.
Qed.

Lemma rel_matchPair player other :
  freshv player -> freshv other ->
  rel (fun u : unit => u) (fun _ => True)
      (matchPair player other) (matchPair (shv player) (shv other)).
Proof.
  intros Fp Fo. unfold matchPair. rel_call rel_match. now apply rel_match.
Qed.

(** *** Stable marriage *)

Lemma rel_SM_unmatchPair suitor reviewer :
  freshv suitor -> freshv reviewer ->
  rel (fun u : unit => u) (fun _ => True)
      (SM_unmatchPair suitor reviewer) (SM_unmatchPair (shv suitor) (shv reviewer)).
Proof.
  intros Fs Fr. unfold SM_unmatchPair.
  eapply rel_bind; [now apply (rel_unmatch suitor undefined)|]. intros _ _.
  now apply (rel_unmatch reviewer undefined).
Qed.

Lemma rel_stableMarriage_loop fuel freeSuitors :
  Forall freshv freeSuitors ->
  rel (fun u : unit => u) (fun _ => True)
      (stableMarriage_loop fuel freeSuitors)
      (stableMarriage_loop fuel (map shv freeSuitors)).
Proof.
  revert freeSuitors. induction fuel as [|fuel IH]; intros freeSuitors F; simpl.
  - destruct freeSuitors; simpl; [rel_done|apply rel_timeout].
  - rewrite pop_sh. destruct (pop freeSuitors) as [[suitor rest]|] eqn:E; simpl; [|rel_done].
    destruct (fresh_pop _ _ _ _ E F) as [Fs Fr].
    rel_call rel_getPlayer. rel_call rel_getPlayer.
    eapply rel_bind with (shA := map shv) (frA := Forall freshv).
    + destruct (truthy (Player.matching x0)); [|rel_done].
      rel_call rel_SM_unmatchPair. rel_done. now rewrite map_app.
    + intros free' F'. rel_call rel_matchPair. rel_call rel_getSuccessors.
      eapply rel_bind.
      * apply (rel_forEach shv freshv); [assumption|].
        intros successor Fsu. apply rel_deletePair; auto with reloc.
      * intros _ _. now apply IH.
Qed.


Lemma fresh_values_set k v (m : jsmap value) :
  fresh_values (List.length c) m -> freshv v ->
  fresh_values (List.length c) (map_set k v m).
Proof.
  intros F Fv. induction F as [|[k' v'] m Fk F IH]; simpl.
  - constructor; [assumption|constructor].
  - destruct (value_eqb k' k); constructor; auto.
Qed.

Lemma fresh_values_get k (m : jsmap value) :
  fresh_values (List.length c) m -> freshv (map_get_value k m).
Proof.
  intros F. unfold map_get_value. induction F as [|[k' v'] m Fk F IH]; simpl; [exact I|].
  destruct (value_eqb k' k); auto.
Qed.

Lemma fresh_values_map (m : jsmap value) l :
  fresh_values (List.length c) m ->
  Forall freshv (map (fun p => map_get_value p m) l).
Proof.
  intros F. apply Forall_forall. intros v Hv. apply in_map_iff in Hv as (p & <- & _).
  now apply fresh_values_get.
Qed.

Lemma map_get_values_sh (m : jsmap value) l :
  map (fun p => map_get_value p (sh_map (List.length c) (List.length X) shv m)) (map shv l)
  = map shv (map (fun p => map_get_value p m) l).
Proof.
  rewrite !map_map. apply map_ext. intros p. apply map_get_value_sh.
Qed.

Lemma map_set_shv k v (m : jsmap value) :
  map_set (shv k) (shv v) (sh_map (List.length c) (List.length X) shv m)
  = sh_map (List.length c) (List.length X) shv (map_set k v m).
Proof. apply (map_set_sh _ _ shv). Qed.

Lemma SingleMatching_sh (m : jsmap value) :
  SingleMatching (sh_map (List.length c) (List.length X) shv m)
  = sh_map (List.length c) (List.length X) shv (SingleMatching m).
Proof.
  unfold SingleMatching.
  change (@nil (value * value)) with (sh_map (List.length c) (List.length X) shv []) at 1.
  generalize (@nil (value * value)) as acc.
  induction m as [|[k v] m IH]; intros acc; simpl; [reflexivity|].
  rewrite map_set_shv. apply IH.
Qed.

Lemma forallb_includes_sh l l' :
  forallb (includes (map shv l)) (map shv l') = forallb (includes l) l'.
Proof.
  induction l' as [|x l' IH]; simpl; [reflexivity|]. now rewrite includes_sh, IH.
Qed.

Lemma same_set_sh prefs others :
  same_set (map shv prefs) (map shv others) = same_set prefs others.
Proof.
  unfold same_set. now rewrite !dedup_sh, !length_map, forallb_includes_sh.
Qed.

Lemma rel_single_result players acc :
  Forall freshv players -> fresh_values (List.length c) acc ->
  rel (sh_map (List.length c) (List.length X) shv) (fresh_values (List.length c))
      (single_result players acc)
      (single_result (map shv players) (sh_map (List.length c) (List.length X) shv acc)).
Proof.
  intros F. revert acc. induction F as [|s rest Fs F IH]; intros acc Fa; simpl.
  - now apply rel_ret.
  - rel_call rel_getPlayer. rewrite map_set_shv. apply IH.
    apply fresh_values_set; auto with reloc.
Qed.

Lemma rel_stableMarriage fuel suitors reviewers optimal :
  Forall freshv suitors -> Forall freshv reviewers ->
  rel (sh_map (List.length c) (List.length X) shv) (fresh_values (List.length c))
      (stableMarriage fuel suitors reviewers optimal)
      (stableMarriage fuel (map shv suitors) (map shv reviewers) optimal).
Proof.
  intros Fs Fr. unfold stableMarriage. eapply rel_bind.
  - destruct optimal; apply rel_stableMarriage_loop; assumption.
  - intros _ _. apply (rel_single_result suitors []); [assumption|constructor].
Qed.

Lemma rel_SingleMatching_toRecord (data : jsmap value) result proto :
  rel (fun r : list (string * option string) => r) (fun _ => True)
      (SingleMatching_toRecord data result proto)
      (SingleMatching_toRecord (sh_map (List.length c) (List.length X) shv data)
         result proto).
Proof.
  revert result proto. induction data as [|[key v] data IH]; intros result proto; simpl.
  - now apply rel_ret.
  - rel_call rel_load. eapply rel_bind with (shA := fun e => e) (frA := fun _ => True).
    + destruct (truthy v); [|now apply rel_ret].
      rel_call rel_load. rel_done.
    + intros entry _. destruct (_ && _)%bool; apply IH.
Qed.

Lemma rel_matching_record (matching : option (jsmap value)) :
  rel (fun r : list (string * option string) => r) (fun _ => True)
      (matching_record matching)
      (matching_record (option_map (sh_map (List.length c) (List.length X) shv) matching)).
Proof.
  destruct matching as [data|]; simpl; [apply rel_SingleMatching_toRecord|apply rel_throw].
Qed.

(** *** The constructors' deep copy *)

Lemma rel_clone_players players cloneMap :
  fresh_values (List.length c) cloneMap ->
  rel (sh_map (List.length c) (List.length X) shv) (fresh_values (List.length c))
      (clone_players players cloneMap)
      (clone_players (map shv players) (sh_map (List.length c) (List.length X) shv cloneMap)).
Proof.
  revert cloneMap. induction players as [|player rest IH]; intros cloneMap F; simpl.
  - now apply rel_ret.
  - rel_call rel_getPlayer.
    eapply rel_bind; [apply (rel_alloc (PlayerObj (Player.new (Player.name x)))); simpl; auto with reloc|].
    intros cl Fc. rewrite map_set_shv. apply IH. now apply fresh_values_set.
Qed.

Lemma rel_clone_player_prefs cloneMap players :
  fresh_values (List.length c) cloneMap ->
  rel (fun u : unit => u) (fun _ => True)
      (clone_player_prefs cloneMap players)
      (clone_player_prefs (sh_map (List.length c) (List.length X) shv cloneMap)
                          (map shv players)).
Proof.
  intros F. unfold clone_player_prefs.
  apply (rel_forEach shv (fun _ => True)); [apply Forall_forall; auto|].
  intros player _. rel_call rel_getPlayer.
  rewrite (map_get_values_sh cloneMap (Player.prefs x)).
  unfold sh_map. rewrite map_get_value_sh.
  apply rel_setPrefs; [now apply fresh_values_get|now apply fresh_values_map].
Qed.

Lemma rel_SM_checkPlayerRanks suitors reviewers player :
  rel (fun u : unit => u) (fun _ => True)
      (SM_checkPlayerRanks suitors reviewers player)
      (SM_checkPlayerRanks (map shv suitors) (map shv reviewers) (shv player)).
Proof.
  unfold SM_checkPlayerRanks. rel_call rel_getPlayer.
  replace (if includes suitors player then map shv reviewers else map shv suitors)
    with (map shv (if includes suitors player then reviewers else suitors))
    by now destruct (includes suitors player).
  rewrite same_set_sh. destruct (same_set _ _); [rel_done|apply rel_throw].
Qed.

Lemma rel_SM_checkInputs suitors reviewers :
  rel (fun u : unit => u) (fun _ => True)
      (SM_checkInputs suitors reviewers)
      (SM_checkInputs (map shv suitors) (map shv reviewers)).
Proof.
  unfold SM_checkInputs. rewrite !length_map.
  eapply rel_bind with (shA := fun u : unit => u) (frA := fun _ => True).
  - destruct (Nat.eqb _ _); [now apply rel_ret|apply rel_throw].
  - intros _ _. eapply rel_bind.
    + apply (rel_forEach shv (fun _ => True)); [apply Forall_forall; auto|].
      intros x _. apply rel_SM_checkPlayerRanks.
    + intros _ _. apply (rel_forEach shv (fun _ => True)); [apply Forall_forall; auto|].
      intros x _. apply rel_SM_checkPlayerRanks.
Qed.

Lemma rel_StableMarriage_new suitors reviewers :
  rel (sh_SM (List.length c) (List.length X)) (fresh_SM (List.length c))
      (StableMarriage_new suitors reviewers)
      (StableMarriage_new (map shv suitors) (map shv reviewers)).
Proof.
  unfold StableMarriage_new. rewrite <- map_app.
  eapply rel_bind; [apply (rel_clone_players _ []); constructor|].
  intros cloneMap F. cbv beta.
  eapply rel_bind; [now apply rel_clone_player_prefs|]. intros _ _.
  rewrite !map_get_values_sh.
  eapply rel_bind; [apply rel_SM_checkInputs|]. intros _ _.
  apply rel_ret; [reflexivity|]. split; now apply fresh_values_map.
Qed.

Lemma rel_StableMarriage_solve fuel game optimal :
  fresh_SM (List.length c) game ->
  rel (sh_SM (List.length c) (List.length X)) (fresh_SM (List.length c))
      (StableMarriage_solve fuel game optimal)
      (StableMarriage_solve fuel (sh_SM (List.length c) (List.length X) game) optimal).
Proof.
  intros [Fs Fr]. unfold StableMarriage_solve. simpl.
  eapply rel_bind; [now apply rel_stableMarriage|]. intros result F.
  apply rel_ret; [|now split]. unfold sh_SM. simpl. now rewrite SingleMatching_sh.
Qed.

Lemma rel_SM_new_and_solve fuel suitors reviewers optimal :
  rel (fun r : list (string * option string) => r) (fun _ => True)
      (SM_new_and_solve fuel suitors reviewers optimal)
      (SM_new_and_solve fuel (map shv suitors) (map shv reviewers) optimal).
Proof.
  unfold SM_new_and_solve.
  eapply rel_bind; [apply rel_StableMarriage_new|]. intros g Fg.
  eapply rel_bind; [now apply rel_StableMarriage_solve|]. intros g' Fg'.
  apply rel_matching_record.
Qed.

(** *** Hospital-resident *)

Lemma filter_not_included_sh m l :
  filter (fun p => negb (includes (map shv m) p)) (map shv l)
  = map shv (filter (fun p => negb (includes m p)) l).
Proof.
  induction l as [|x l IH]; simpl; [reflexivity|].
  rewrite includes_sh, IH. now destruct (includes m x).
Qed.

Lemma rel_HR_unmatchPair resident hospital :
  freshv resident -> freshv hospital ->
  rel (fun u : unit => u) (fun _ => True)
      (HR_unmatchPair resident hospital) (HR_unmatchPair (shv resident) (shv hospital)).
Proof.
  intros Fs Fr. unfold HR_unmatchPair.
  eapply rel_bind; [now apply (rel_unmatch resident undefined)|]. intros _ _.
  now apply rel_unmatch.
Qed.

Lemma rel_checkAvailable hospital :
  rel (fun b : bool => b) (fun _ => True)
      (checkAvailable hospital) (checkAvailable (shv hospital)).
Proof.
  unfold checkAvailable. rel_call rel_getHospital.
  rewrite filter_not_included_sh, length_map. now apply rel_ret.
Qed.

Lemma rel_residentOptimal_delete hospital successors freeResidents :
  freshv hospital -> Forall freshv successors -> Forall freshv freeResidents ->
  rel (map shv) (Forall freshv)
      (residentOptimal_delete hospital successors freeResidents)
      (residentOptimal_delete (shv hospital) (map shv successors) (map shv freeResidents)).
Proof.
  intros Fh Fs. revert freeResidents.
  induction Fs as [|successor rest Fsu Fs IH]; intros freeResidents Ff; simpl.
  - now apply rel_ret.
  - rel_call rel_deletePair. rel_call rel_load.
    match goal with
    | |- context [residentOptimal_delete (shv hospital) (map shv rest) ?l] =>
        replace l with (map shv
          (if Nat.eqb (List.length (obj_prefs x0)) 0 && includes freeResidents successor
           then remove_first successor freeResidents else freeResidents))
          by (now destruct (_ && _))
    end.
    apply IH. destruct (_ && _); auto with reloc.
Qed.

Lemma rel_residentOptimal_step resident freeResidents :
  freshv resident -> Forall freshv freeResidents ->
  rel (map shv) (Forall freshv)
      (residentOptimal_step resident freeResidents)
      (residentOptimal_step (shv resident) (map shv freeResidents)).
Proof.
  intros Fr Ff. unfold residentOptimal_step. rel_call rel_getPlayer.
  destruct (Nat.eqb _ 0); [now apply rel_ret|].
  rel_call rel_getHospital.
  eapply rel_bind with (shA := map shv) (frA := Forall freshv).
  - destruct (_ =? _)%Z; [|now apply rel_ret].
    rel_call rel_HR_unmatchPair. apply rel_ret; [now rewrite map_app|auto with reloc].
  - intros free' F'. rel_call rel_matchPair. rel_call rel_getHospital.
    destruct (_ =? _)%Z; [|now apply rel_ret].
    apply rel_residentOptimal_delete; auto with reloc.
Qed.

Lemma rel_residentOptimal_loop fuel freeResidents :
  Forall freshv freeResidents ->
  rel (fun u : unit => u) (fun _ => True)
      (residentOptimal_loop fuel freeResidents)
      (residentOptimal_loop fuel (map shv freeResidents)).
Proof.
  revert freeResidents. induction fuel as [|fuel IH]; intros freeResidents F; simpl.
  - destruct freeResidents; simpl; [now apply rel_ret|apply rel_timeout].
  - rewrite pop_sh. destruct (pop freeResidents) as [[resident rest]|] eqn:E; simpl;
      [|now apply rel_ret].
    destruct (fresh_pop _ _ _ _ E F) as [Fs Fr].
    eapply rel_bind; [now apply rel_residentOptimal_step|]. intros free' F'. now apply IH.
Qed.

Lemma map_set_shl k v (m : jsmap (list value)) :
  map_set (shv k) (map shv v) (sh_map (List.length c) (List.length X) (map shv) m)
  = sh_map (List.length c) (List.length X) (map shv) (map_set k v m).
Proof. apply (map_set_sh _ _ (map shv)). Qed.

Lemma rel_multiple_result hospitals acc :
  rel (sh_map (List.length c) (List.length X) (map shv)) (fun _ => True)
      (multiple_result hospitals acc)
      (multiple_result (map shv hospitals)
         (sh_map (List.length c) (List.length X) (map shv) acc)).
Proof.
  revert acc. induction hospitals as [|x rest IH]; intros acc; simpl.
  - now apply rel_ret.
  - rel_call rel_getHospital. rewrite map_set_shl. apply IH.
Qed.

Lemma rel_residentOptimal fuel residents hospitals :
  Forall freshv residents ->
  rel (sh_map (List.length c) (List.length X) (map shv)) (fun _ => True)
      (residentOptimal fuel residents hospitals)
      (residentOptimal fuel (map shv residents) (map shv hospitals)).
Proof.
  intros F. unfold residentOptimal.
  eapply rel_bind; [now apply rel_residentOptimal_loop|]. intros _ _.
  apply (rel_multiple_result hospitals []).
Qed.

Lemma rel_hospitalOptimal_delete resident successors freeHospitals :
  freshv resident -> Forall freshv successors -> Forall freshv freeHospitals ->
  rel (map shv) (Forall freshv)
      (hospitalOptimal_delete resident successors freeHospitals)
      (hospitalOptimal_delete (shv resident) (map shv successors) (map shv freeHospitals)).
Proof.
  intros Fh Fs. revert freeHospitals.
  induction Fs as [|successor rest Fsu Fs IH]; intros freeHospitals Ff; simpl.
  - now apply rel_ret.
  - rel_call rel_deletePair. rel_call rel_checkAvailable.
    match goal with
    | |- context [hospitalOptimal_delete (shv resident) (map shv rest) ?l] =>
        replace l with (map shv
          (if negb x0 && includes freeHospitals successor
           then remove_first successor freeHospitals else freeHospitals))
          by (now destruct (_ && _))
    end.
    apply IH. destruct (_ && _); auto with reloc.
Qed.

Lemma rel_hospitalOptimal_step hospital freeHospitals :
  freshv hospital -> Forall freshv freeHospitals ->
  rel (map shv) (Forall freshv)
      (hospitalOptimal_step hospital freeHospitals)
      (hospitalOptimal_step (shv hospital) (map shv freeHospitals)).
Proof.
  intros Fr Ff. unfold hospitalOptimal_step. rel_call rel_getHospital.
  destruct (negb _); [now apply rel_ret|].
  rel_call rel_getPlayer.
  eapply rel_bind with (shA := map shv) (frA := Forall freshv).
  - destruct (truthy _); [|now apply rel_ret].
    rel_call rel_HR_unmatchPair. apply rel_ret.
    + destruct (negb _); [now rewrite map_app|reflexivity].
    + destruct (negb _); auto with reloc.
  - intros free' F'. rel_call rel_matchPair. rel_call rel_checkAvailable.
    rel_call rel_getSuccessors.
    match goal with
    | |- context [hospitalOptimal_delete _ _ ?l] =>
        replace l with (map shv (if x2 then free' ++ [hospital] else free'))
          by (destruct x2; [now rewrite map_app|reflexivity])
    end.
    apply rel_hospitalOptimal_delete; auto with reloc.
    destruct x2; auto with reloc.
Qed.

Lemma rel_hospitalOptimal_loop fuel freeHospitals :
  Forall freshv freeHospitals ->
  rel (fun u : unit => u) (fun _ => True)
      (hospitalOptimal_loop fuel freeHospitals)
      (hospitalOptimal_loop fuel (map shv freeHospitals)).
Proof.
  revert freeHospitals. induction fuel as [|fuel IH]; intros freeHospitals F; simpl.
  - destruct freeHospitals; simpl; [now apply rel_ret|apply rel_timeout].
  - rewrite pop_sh. destruct (pop freeHospitals) as [[hospital rest]|] eqn:E; simpl;
      [|now apply rel_ret].
    destruct (fresh_pop _ _ _ _ E F) as [Fs Fr].
    eapply rel_bind; [now apply rel_hospitalOptimal_step|]. intros free' F'. now apply IH.
Qed.

Lemma rel_hospitalResident fuel residents hospitals optimal :
  Forall freshv residents -> Forall freshv hospitals ->
  rel (sh_map (List.length c) (List.length X) (map shv)) (fun _ => True)
      (hospitalResident fuel residents hospitals optimal)
      (hospitalResident fuel (map shv residents) (map shv hospitals) optimal).
Proof.
  intros Fr Fh. destruct optimal; simpl; [now apply rel_residentOptimal|].
  unfold hospitalOptimal.
  eapply rel_bind; [now apply rel_hospitalOptimal_loop|]. intros _ _.
  apply (rel_multiple_result hospitals []).
Qed.

Lemma MultipleMatching_sh (m : jsmap (list value)) :
  MultipleMatching (sh_map (List.length c) (List.length X) (map shv) m)
  = sh_map (List.length c) (List.length X) (map shv) (MultipleMatching m).
Proof.
  unfold MultipleMatching.
  change (@nil (value * list value))
    with (sh_map (List.length c) (List.length X) (map shv) []) at 1.
  generalize (@nil (value * list value)) as acc.
  induction m as [|[k v] m IH]; intros acc; simpl; [reflexivity|].
  rewrite map_set_shl. apply IH.
Qed.

Lemma rel_MultipleMatching_toRecord (data : jsmap (list value)) result :
  rel (fun r : list (string * list string) => r) (fun _ => True)
      (MultipleMatching_toRecord data result)
      (MultipleMatching_toRecord
         (sh_map (List.length c) (List.length X) (map shv) data) result).
Proof.
  revert result. induction data as [|[key v] data IH]; intros result; simpl.
  - now apply rel_ret.
  - rel_call rel_load. rel_call rel_names_of. apply IH.
Qed.

Lemma rel_clone_hospitals hospitals cloneMap :
  fresh_values (List.length c) cloneMap ->
  rel (sh_map (List.length c) (List.length X) shv) (fresh_values (List.length c))
      (clone_hospitals hospitals cloneMap)
      (clone_hospitals (map shv hospitals)
         (sh_map (List.length c) (List.length X) shv cloneMap)).
Proof.
  revert cloneMap. induction hospitals as [|hospital rest IH]; intros cloneMap F; simpl.
  - now apply rel_ret.
  - rel_call rel_getHospital.
    eapply rel_bind;
      [apply (rel_alloc (HospitalObj (Hospital.new IsHospital (Hospital.name x)
                                        (Hospital.capacity x)))); simpl; auto with reloc|].
    intros cl Fc. rewrite map_set_shv. apply IH. now apply fresh_values_set.
Qed.

Lemma rel_clone_prefs ownMap otherMap players :
  fresh_values (List.length c) ownMap -> fresh_values (List.length c) otherMap ->
  rel (fun u : unit => u) (fun _ => True)
      (clone_prefs ownMap otherMap players)
      (clone_prefs (sh_map (List.length c) (List.length X) shv ownMap)
                   (sh_map (List.length c) (List.length X) shv otherMap)
                   (map shv players)).
Proof.
  intros F F'. unfold clone_prefs.
  apply (rel_forEach shv (fun _ => True)); [apply Forall_forall; auto|].
  intros player _. rel_call rel_load.
  rewrite (map_get_values_sh otherMap (obj_prefs x)).
  unfold sh_map. rewrite map_get_value_sh.
  apply rel_setPrefs; [now apply fresh_values_get|now apply fresh_values_map].
Qed.

Lemma unique_prefs_sh player prefs uniquePrefs w :
  unique_prefs (shv player) (map shv prefs) (map shv uniquePrefs)
    (map (sh_warning (List.length c) (List.length X)) w)
  = (map shv (fst (unique_prefs player prefs uniquePrefs w)),
     map (sh_warning (List.length c) (List.length X))
         (snd (unique_prefs player prefs uniquePrefs w))).
Proof.
  revert uniquePrefs w. induction prefs as [|other rest IH]; intros uniquePrefs w; simpl.
  - reflexivity.
  - rewrite includes_sh. destruct (includes uniquePrefs other); simpl.
    + rewrite <- IH. now rewrite map_app.
    + rewrite <- IH. now rewrite map_app.
Qed.

Lemma fresh_unique_prefs player prefs uniquePrefs w :
  Forall freshv prefs -> Forall freshv uniquePrefs ->
  Forall freshv (fst (unique_prefs player prefs uniquePrefs w)).
Proof.
  intros F. revert uniquePrefs w.
  induction F as [|other rest Fo F IH]; intros uniquePrefs w Fu; simpl; [assumption|].
  destruct (includes uniquePrefs other); simpl; apply IH; auto with reloc.
Qed.

Lemma rel_forEachW {A : Type} (shA : A -> A) (P : A -> Prop) (l : list A)
    (body1 body2 : A -> M (list warning)) :
  Forall P l ->
  (forall x, P x ->
     rel (map (sh_warning (List.length c) (List.length X))) (fun _ => True)
         (body1 x) (body2 (shA x))) ->
  rel (map (sh_warning (List.length c) (List.length X))) (fun _ => True)
      (forEachW l body1) (forEachW (map shA l) body2).
Proof.
  intros F B. induction F as [|x l Px F IH]; simpl.
  - now apply rel_ret.
  - eapply rel_bind; [now apply B|]. intros w _.
    eapply rel_bind; [exact IH|]. intros ws _. apply rel_ret; [|exact I].
    now rewrite map_app.
Qed.

Lemma rel_checkInputsPlayerPrefsUnique clean players :
  Forall freshv players ->
  rel (map (sh_warning (List.length c) (List.length X))) (fun _ => True)
      (checkInputsPlayerPrefsUnique clean players)
      (checkInputsPlayerPrefsUnique clean (map shv players)).
Proof.
  intros F. unfold checkInputsPlayerPrefsUnique.
  apply (rel_forEachW shv freshv); [assumption|].
  intros player Fp. rel_call rel_load.
  change (@nil value) with (map shv []) at 2.
  change (@nil warning) with (map (sh_warning (List.length c) (List.length X)) []) at 2.
  rewrite unique_prefs_sh.
  destruct (unique_prefs player (obj_prefs x) [] []) as [uniquePrefs w] eqn:E. simpl.
  eapply rel_bind with (shA := fun u : unit => u) (frA := fun _ => True).
  - destruct clean; [|now apply rel_ret].
    apply rel_setPrefs; [assumption|].
    change uniquePrefs with (fst (uniquePrefs, w)). rewrite <- E.
    apply fresh_unique_prefs; [auto with reloc|constructor].
  - intros _ _. now apply rel_ret.
Qed.

Lemma rel_forget_if (clean : bool) this other :
  freshv this ->
  rel (fun u : unit => u) (fun _ => True)
      (if clean then _forget this other else ret tt)
      (if clean then _forget (shv this) (shv other) else ret tt).
Proof. intros F. destruct clean; [now apply rel_forget|now apply rel_ret]. Qed.

Lemma rel_checkInputsPlayerPrefsAllInParty clean players others :
  Forall freshv players ->
  rel (map (sh_warning (List.length c) (List.length X))) (fun _ => True)
      (checkInputsPlayerPrefsAllInParty clean players others)
      (checkInputsPlayerPrefsAllInParty clean (map shv players) (map shv others)).
Proof.
  intros F. unfold checkInputsPlayerPrefsAllInParty.
  apply (rel_forEachW shv freshv); [assumption|].
  intros player Fp. rel_call rel_load.
  apply (rel_forEachW shv (fun _ => True)); [apply Forall_forall; auto|].
  intros other _. rewrite includes_sh. destruct (negb _); [|now apply rel_ret].
  eapply rel_bind; [now apply rel_forget_if|]. intros _ _. now apply rel_ret.
Qed.

Lemma rel_checkInputsPlayerPrefsAllReciprocated clean hospitals :
  Forall freshv hospitals ->
  rel (map (sh_warning (List.length c) (List.length X))) (fun _ => True)
      (checkInputsPlayerPrefsAllReciprocated clean hospitals)
      (checkInputsPlayerPrefsAllReciprocated clean (map shv hospitals)).
Proof.
  intros F. unfold checkInputsPlayerPrefsAllReciprocated.
  apply (rel_forEachW shv freshv); [assumption|].
  intros hospital Fp. rel_call rel_load.
  apply (rel_forEachW shv (fun _ => True)); [apply Forall_forall; auto|].
  intros other _. eapply rel_bind; [apply rel_prefs_include|]. intros ranked _.
  destruct (negb _); [|now apply rel_ret].
  eapply rel_bind; [now apply rel_forget_if|]. intros _ _. now apply rel_ret.
Qed.

Lemma rel_checkInputsPlayerReciprocatedAllPrefs clean hospitals residents :
  Forall freshv residents ->
  rel (map (sh_warning (List.length c) (List.length X))) (fun _ => True)
      (checkInputsPlayerReciprocatedAllPrefs clean hospitals residents)
      (checkInputsPlayerReciprocatedAllPrefs clean (map shv hospitals) (map shv residents)).
Proof.
  intros F. unfold checkInputsPlayerReciprocatedAllPrefs.
  apply (rel_forEachW shv (fun _ => True)); [apply Forall_forall; auto|].
  intros hospital _. eapply rel_bind.
  - apply (rel_filterM shv freshv); [assumption|].
    intros r _. apply rel_prefs_include.
  - intros ranked Fr. apply (rel_forEachW shv freshv); [assumption|].
    intros resident Fres. eapply rel_bind; [apply rel_prefs_include|]. intros b _.
    destruct (negb _); [|now apply rel_ret].
    eapply rel_bind; [now apply rel_forget_if|]. intros _ _. now apply rel_ret.
Qed.

Lemma fresh_HR_with_parties rs hs g :
  Forall freshv rs -> Forall freshv hs ->
  fresh_HR (List.length c) (HospitalResident.with_parties rs hs g).
Proof. now split. Qed.

Lemma party_of_sh g p :
  party_of (sh_HR (List.length c) (List.length X) g) p = map shv (party_of g p).
Proof. now destruct p. Qed.

Lemma fresh_party_of g p :
  fresh_HR (List.length c) g -> Forall freshv (party_of g p).
Proof. intros [F1 F2]. now destruct p. Qed.

Lemma rel_removePlayer g player playerParty otherParty :
  fresh_HR (List.length c) g ->
  rel (sh_HR (List.length c) (List.length X)) (fresh_HR (List.length c))
      (removePlayer g player playerParty otherParty)
      (removePlayer (sh_HR (List.length c) (List.length X) g) (shv player)
                    playerParty otherParty).
Proof.
  intros Fg. pose proof Fg as [F1 F2]. unfold removePlayer.
  set (g' := match playerParty with
             | residents_party => _
             | hospitals_party => _
             end).
  match goal with
  | |- rel _ _ _ (bind (forEach (party_of ?gg _) _) _) =>
      replace gg with (sh_HR (List.length c) (List.length X) g')
  end.
  - assert (Fg' : fresh_HR (List.length c) g').
    { unfold g'. destruct playerParty; apply fresh_HR_with_parties; auto with reloc. }
    rewrite party_of_sh. eapply rel_bind.
    + apply (rel_forEach shv freshv); [now apply fresh_party_of|].
      intros other Fo. eapply rel_bind; [apply rel_prefs_include|]. intros ranked _.
      destruct ranked; [now apply rel_forget|now apply rel_ret].
    + intros _ _. now apply rel_ret.
  - unfold g', sh_HR, HospitalResident.with_parties. destruct playerParty; simpl;
      now rewrite remove_value_sh.
Qed.

Lemma rel_forEachG (l : list value) g
    (body1 body2 : HospitalResident.t -> value -> M (HospitalResident.t * list warning)) :
  fresh_HR (List.length c) g ->
  (forall g x, fresh_HR (List.length c) g ->
     rel (fun r => (sh_HR (List.length c) (List.length X) (fst r),
                    map (sh_warning (List.length c) (List.length X)) (snd r)))
         (fun r => fresh_HR (List.length c) (fst r))
         (body1 g x) (body2 (sh_HR (List.length c) (List.length X) g) (shv x))) ->
  rel (fun r => (sh_HR (List.length c) (List.length X) (fst r),
                 map (sh_warning (List.length c) (List.length X)) (snd r)))
      (fun r => fresh_HR (List.length c) (fst r))
      (forEachG l g body1)
      (forEachG (map shv l) (sh_HR (List.length c) (List.length X) g) body2).
Proof.
  intros Fg B. revert g Fg. induction l as [|x l IH]; intros g Fg; simpl.
  - now apply rel_ret.
  - eapply rel_bind; [now apply B|]. intros r Fr. simpl.
    eapply rel_bind; [now apply IH|]. intros r' Fr'. simpl.
    apply rel_ret; [|assumption]. simpl. now rewrite map_app.
Qed.

Lemma rel_checkInputsPlayerPrefsNonempty g p otherParty :
  fresh_HR (List.length c) g ->
  rel (fun r => (sh_HR (List.length c) (List.length X) (fst r),
                 map (sh_warning (List.length c) (List.length X)) (snd r)))
      (fun r => fresh_HR (List.length c) (fst r))
      (checkInputsPlayerPrefsNonempty g p otherParty)
      (checkInputsPlayerPrefsNonempty (sh_HR (List.length c) (List.length X) g) p otherParty).
Proof.
  intros Fg. unfold checkInputsPlayerPrefsNonempty. rewrite party_of_sh.
  apply rel_forEachG; [assumption|]. clear g Fg. intros g player Fg.
  rel_call rel_load. destruct (Nat.eqb _ 0); [|now apply rel_ret].
  eapply rel_bind with (shA := sh_HR (List.length c) (List.length X))
                       (frA := fresh_HR (List.length c)).
  - change (HospitalResident.clean (sh_HR (List.length c) (List.length X) g))
      with (HospitalResident.clean g).
    destruct (HospitalResident.clean g); [now apply rel_removePlayer|now apply rel_ret].
  - intros g' Fg'. now apply rel_ret.
Qed.

Lemma rel_checkInputsPlayerCapacity g p otherParty :
  fresh_HR (List.length c) g ->
  rel (fun r => (sh_HR (List.length c) (List.length X) (fst r),
                 map (sh_warning (List.length c) (List.length X)) (snd r)))
      (fun r => fresh_HR (List.length c) (fst r))
      (checkInputsPlayerCapacity g p otherParty)
      (checkInputsPlayerCapacity (sh_HR (List.length c) (List.length X) g) p otherParty).
Proof.
  intros Fg. unfold checkInputsPlayerCapacity.
  change (HospitalResident.hospitals (sh_HR (List.length c) (List.length X) g))
    with (map shv (HospitalResident.hospitals g)).
  apply rel_forEachG; [assumption|]. clear g Fg. intros g hospital Fg.
  rel_call rel_getHospital. destruct (_ <? 1)%Z; [|now apply rel_ret].
  eapply rel_bind with (shA := sh_HR (List.length c) (List.length X))
                       (frA := fresh_HR (List.length c)).
  - change (HospitalResident.clean (sh_HR (List.length c) (List.length X) g))
      with (HospitalResident.clean g).
    destruct (HospitalResident.clean g); [now apply rel_removePlayer|now apply rel_ret].
  - intros g' Fg'. now apply rel_ret.
Qed.

Lemma rel_HR_checkInputs g :
  fresh_HR (List.length c) g ->
  rel (fun r => (sh_HR (List.length c) (List.length X) (fst r),
                 map (sh_warning (List.length c) (List.length X)) (snd r)))
      (fun r => fresh_HR (List.length c) (fst r))
      (HR_checkInputs g) (HR_checkInputs (sh_HR (List.length c) (List.length X) g)).
Proof.
  intros Fg. pose proof Fg as [F1 F2]. unfold HR_checkInputs.
  change (HospitalResident.clean (sh_HR (List.length c) (List.length X) g))
    with (HospitalResident.clean g).
  change (HospitalResident.hospitals (sh_HR (List.length c) (List.length X) g))
    with (map shv (HospitalResident.hospitals g)).
  change (HospitalResident.residents (sh_HR (List.length c) (List.length X) g))
    with (map shv (HospitalResident.residents g)).
  eapply rel_bind; [now apply rel_checkInputsPlayerPrefsUnique|]. intros w1 _.
  eapply rel_bind; [now apply rel_checkInputsPlayerPrefsUnique|]. intros w2 _.
  eapply rel_bind; [now apply rel_checkInputsPlayerPrefsAllInParty|]. intros w3 _.
  eapply rel_bind; [now apply rel_checkInputsPlayerPrefsAllInParty|]. intros w4 _.
  eapply rel_bind; [now apply rel_checkInputsPlayerPrefsAllReciprocated|]. intros w5 _.
  eapply rel_bind; [now apply rel_checkInputsPlayerReciprocatedAllPrefs|]. intros w6 _.
  eapply rel_bind; [now apply rel_checkInputsPlayerPrefsNonempty|]. intros r7 F7. simpl.
  eapply rel_bind; [now apply rel_checkInputsPlayerPrefsNonempty|]. intros r8 F8. simpl.
  eapply rel_bind; [now apply rel_checkInputsPlayerCapacity|]. intros r9 F9. simpl.
  apply rel_ret; [|assumption]. simpl. now rewrite !map_app.
Qed.

Lemma rel_HospitalResident_new residents hospitals clean :
  rel (fun r => (sh_HR (List.length c) (List.length X) (fst r),
                 map (sh_warning (List.length c) (List.length X)) (snd r)))
      (fun r => fresh_HR (List.length c) (fst r))
      (HospitalResident_new residents hospitals clean)
      (HospitalResident_new (map shv residents) (map shv hospitals) clean).
Proof.
  unfold HospitalResident_new.
  eapply rel_bind; [apply (rel_clone_players _ []); constructor|]. intros rm Fr.
  eapply rel_bind; [apply (rel_clone_hospitals _ []); constructor|]. intros hm Fh.
  eapply rel_bind; [now apply rel_clone_prefs|]. intros _ _.
  eapply rel_bind; [now apply rel_clone_prefs|]. intros _ _.
  rewrite !map_get_values_sh.
  apply (rel_HR_checkInputs
           (HospitalResident.mk (map (fun r => map_get_value r rm) residents)
              (map (fun x => map_get_value x hm) hospitals) clean None None
              (map (fun r => map_get_value r rm) residents)
              (map (fun x => map_get_value x hm) hospitals))).
  split; now apply fresh_values_map.
Qed.

Lemma rel_HospitalResident_solve fuel g optimal :
  fresh_HR (List.length c) g ->
  rel (sh_HR (List.length c) (List.length X)) (fresh_HR (List.length c))
      (HospitalResident_solve fuel g optimal)
      (HospitalResident_solve fuel (sh_HR (List.length c) (List.length X) g) optimal).
Proof.
  intros [Fs Fr]. unfold HospitalResident_solve. simpl.
  eapply rel_bind; [now apply rel_hospitalResident|]. intros result F.
  apply rel_ret; [|now split]. unfold sh_HR. simpl. now rewrite MultipleMatching_sh.
Qed.

Lemma rel_HR_new_and_solve fuel residents hospitals clean optimal :
  rel (fun r : list (string * list string) => r) (fun _ => True)
      (HR_new_and_solve fuel residents hospitals clean optimal)
      (HR_new_and_solve fuel (map shv residents) (map shv hospitals) clean optimal).
Proof.
  unfold HR_new_and_solve.
  eapply rel_bind; [apply rel_HospitalResident_new|]. intros gw Fg. simpl.
  eapply rel_bind; [now apply rel_HospitalResident_solve|]. intros g' Fg'.
  unfold multiple_matching_record.
  destruct (HospitalResident.matching g') as [data|] eqn:E;
    unfold sh_HR; simpl; rewrite E; simpl;
    [apply rel_MultipleMatching_toRecord|apply rel_throw].
Qed.

(** *** Stable roommates *)

Lemma rel_prefs_length_is k p :
  rel (fun b : bool => b) (fun _ => True)
      (prefs_length_is k p) (prefs_length_is k (shv p)).
Proof. unfold prefs_length_is. rel_call rel_getPlayer. now apply rel_ret. Qed.

Lemma rel_prefs_length_gt k p :
  rel (fun b : bool => b) (fun _ => True)
      (prefs_length_gt k p) (prefs_length_gt k (shv p)).
Proof. unfold prefs_length_gt. rel_call rel_getPlayer. now apply rel_ret. Qed.

Lemma rel_firstPhase_delete favourite successors freePlayers :
  freshv favourite -> Forall freshv successors -> Forall freshv freePlayers ->
  rel (map shv) (Forall freshv)
      (firstPhase_delete favourite successors freePlayers)
      (firstPhase_delete (shv favourite) (map shv successors) (map shv freePlayers)).
Proof.
  intros Fh Fs. revert freePlayers.
  induction Fs as [|successor rest Fsu Fs IH]; intros freePlayers Ff; simpl.
  - now apply rel_ret.
  - rel_call rel_deletePair. rel_call rel_prefs_length_is.
    match goal with
    | |- context [firstPhase_delete (shv favourite) (map shv rest) ?l] =>
        replace l with (map shv
          (if x0 && includes freePlayers successor
           then remove_first successor freePlayers else freePlayers))
          by (now destruct (_ && _))
    end.
    apply IH. destruct (_ && _); auto with reloc.
Qed.

Lemma rel_firstPhase_loop fuel freePlayers :
  Forall freshv freePlayers ->
  rel (fun u : unit => u) (fun _ => True)
      (firstPhase_loop fuel freePlayers) (firstPhase_loop fuel (map shv freePlayers)).
Proof.
  revert freePlayers. induction fuel as [|fuel IH]; intros freePlayers F; simpl.
  - destruct freePlayers; simpl; [now apply rel_ret|apply rel_timeout].
  - rewrite pop_sh. destruct (pop freePlayers) as [[player rest]|] eqn:E; simpl;
      [|now apply rel_ret].
    destruct (fresh_pop _ _ _ _ E F) as [Fs Fr].
    rel_call rel_getPlayer. destruct (Nat.eqb _ 0); [now apply IH|].
    rel_call rel_getPlayer.
    eapply rel_bind with (shA := map shv) (frA := Forall freshv).
    + destruct (negb _); [|now apply rel_ret].
      eapply rel_bind; [apply (rel_unmatch _ undefined); auto with reloc|].
      intros _ _. apply rel_ret; [now rewrite map_app|auto with reloc].
    + intros free' F'. rel_call rel_match. rel_call rel_getSuccessors.
      eapply rel_bind; [apply rel_firstPhase_delete; auto with reloc|].
      intros free'' F''. now apply IH.
Qed.

Lemma rel_firstPhase fuel players :
  Forall freshv players ->
  rel (map shv) (Forall freshv) (firstPhase fuel players) (firstPhase fuel (map shv players)).
Proof.
  intros F. unfold firstPhase.
  eapply rel_bind; [now apply rel_firstPhase_loop|]. intros _ _. now apply rel_ret.
Qed.

Lemma count_value_sh v l : count_value (shv v) (map shv l) = count_value v l.
Proof.
  unfold count_value. induction l as [|x l IH]; simpl; [reflexivity|].
  rewrite value_eqb_sh. destruct (value_eqb v x); simpl; now rewrite IH.
Qed.

Lemma rel_locate_loop fuel current lasts seconds :
  freshv current -> Forall freshv lasts -> Forall freshv seconds ->
  rel (fun r => (map shv (fst (fst r)), map shv (snd (fst r)), shv (snd r)))
      (fun r => Forall freshv (fst (fst r)) /\ Forall freshv (snd (fst r)) /\ freshv (snd r))
      (locate_loop fuel current lasts seconds)
      (locate_loop fuel (shv current) (map shv lasts) (map shv seconds)).
Proof.
  revert current lasts seconds.
  induction fuel as [|fuel IH]; intros current lasts seconds Fc Fl Fs; simpl.
  - apply rel_timeout.
  - rel_call rel_getPlayer.
    destruct (negb (truthy (at_index (Player.prefs x) 1))); [now apply rel_ret|].
    rel_call rel_getPlayer.
    destruct (negb (truthy (last (Player.prefs x0) undefined))); [now apply rel_ret|].
    change [shv (at_index (Player.prefs x) 1)] with (map shv [at_index (Player.prefs x) 1]).
    change [shv (last (Player.prefs x0) undefined)]
      with (map shv [last (Player.prefs x0) undefined]).
    rewrite <- !map_app, count_value_sh.
    destruct (Nat.ltb 1 _).
    + apply rel_ret; [reflexivity|]. simpl. auto 6 with reloc.
    + apply IH; auto with reloc.
Qed.

Lemma cycle_from_sh i k lasts seconds :
  cycle_from i k (map shv lasts) (map shv seconds)
  = map (sh_pair (List.length c) (List.length X)) (cycle_from i k lasts seconds).
Proof.
  revert i. induction k as [|k IH]; intros i; simpl; [reflexivity|].
  now rewrite !at_index_sh, IH.
Qed.

Lemma fresh_cycle_from i k lasts seconds :
  Forall freshv lasts -> Forall freshv seconds ->
  Forall (fresh_pair (List.length c)) (cycle_from i k lasts seconds).
Proof.
  intros Fl Fs. revert i. induction k as [|k IH]; intros i; simpl; constructor; auto.
  split; simpl; auto with reloc.
Qed.

Lemma rel_locateAllOrNothingCycle fuel player :
  freshv player ->
  rel (map (sh_pair (List.length c) (List.length X))) (Forall (fresh_pair (List.length c)))
      (locateAllOrNothingCycle fuel player) (locateAllOrNothingCycle fuel (shv player)).
Proof.
  intros F. unfold locateAllOrNothingCycle.
  eapply rel_bind.
  - apply (rel_locate_loop fuel player [player] []); auto.
  - intros [[lasts seconds] current] (Fl & Fs & Fc). simpl in *.
    rewrite indexOf_sh, length_map, cycle_from_sh. apply rel_ret; [reflexivity|].
    now apply fresh_cycle_from.
Qed.

Lemma pair_eqb_sh p q :
  pair_eqb (sh_pair (List.length c) (List.length X) p)
           (sh_pair (List.length c) (List.length X) q) = pair_eqb p q.
Proof. unfold pair_eqb, sh_pair. simpl. now rewrite !value_eqb_sh. Qed.

Lemma add_pairs_sh right successors pairs :
  add_pairs (shv right) (map shv successors)
            (map (sh_pair (List.length c) (List.length X)) pairs)
  = map (sh_pair (List.length c) (List.length X)) (add_pairs right successors pairs).
Proof.
  revert pairs. induction successors as [|s rest IH]; intros pairs; simpl; [reflexivity|].
  rewrite <- IH. f_equal.
  assert (E : existsb
            (fun p => pair_eqb p (shv right, shv s) || pair_eqb p (shv s, shv right))
            (map (sh_pair (List.length c) (List.length X)) pairs)
          = existsb (fun p => pair_eqb p (right, s) || pair_eqb p (s, right)) pairs).
  { clear IH. induction pairs as [|p pairs IHp]; simpl; [reflexivity|].
    change (shv right, shv s) with (sh_pair (List.length c) (List.length X) (right, s)).
    change (shv s, shv right) with (sh_pair (List.length c) (List.length X) (s, right)).
    rewrite !pair_eqb_sh. f_equal. exact IHp. }
  rewrite E. destruct (existsb _ pairs); [reflexivity|]. now rewrite map_app.
Qed.

Lemma fresh_add_pairs right successors pairs :
  freshv right -> Forall freshv successors ->
  Forall (fresh_pair (List.length c)) pairs ->
  Forall (fresh_pair (List.length c)) (add_pairs right successors pairs).
Proof.
  intros Fr Fs. revert pairs.
  induction Fs as [|s rest Fsu Fs IH]; intros pairs Fp; simpl; [assumption|].
  apply IH. destruct (existsb _ pairs); [assumption|].
  apply Forall_app. split; [assumption|]. constructor; [|constructor]. now split.
Qed.

Lemma fresh_nth_pair i cycle :
  Forall (fresh_pair (List.length c)) cycle ->
  fresh_pair (List.length c) (nth i cycle (undefined, undefined)).
Proof.
  intros F. destruct (nth_in_or_default i cycle (undefined, undefined)) as [H|H].
  - eapply Forall_forall; eauto.
  - rewrite H. now split.
Qed.

Lemma nth_pair_sh i cycle :
  nth i (map (sh_pair (List.length c) (List.length X)) cycle) (undefined, undefined)
  = sh_pair (List.length c) (List.length X) (nth i cycle (undefined, undefined)).
Proof.
  change (undefined, undefined)
    with (sh_pair (List.length c) (List.length X) (undefined, undefined)) at 1.
  apply map_nth.
Qed.

Lemma rel_getPairsToDelete_loop k i cycle pairs :
  Forall (fresh_pair (List.length c)) cycle -> Forall (fresh_pair (List.length c)) pairs ->
  rel (map (sh_pair (List.length c) (List.length X))) (Forall (fresh_pair (List.length c)))
      (getPairsToDelete_loop k i cycle pairs)
      (getPairsToDelete_loop k i (map (sh_pair (List.length c) (List.length X)) cycle)
         (map (sh_pair (List.length c) (List.length X)) pairs)).
Proof.
  intros Fc. revert i pairs. induction k as [|k IH]; intros i pairs Fp; simpl.
  - now apply rel_ret.
  - rewrite !nth_pair_sh, length_map. simpl.
    pose proof (fresh_nth_pair i cycle Fc) as [_ Fr].
    rel_call rel_getPlayer. rewrite add_pairs_sh. apply IH.
    apply fresh_add_pairs; auto with reloc.
Qed.

Lemma rel_getPairsToDelete cycle :
  Forall (fresh_pair (List.length c)) cycle ->
  rel (map (sh_pair (List.length c) (List.length X))) (Forall (fresh_pair (List.length c)))
      (getPairsToDelete cycle)
      (getPairsToDelete (map (sh_pair (List.length c) (List.length X)) cycle)).
Proof.
  intros F. unfold getPairsToDelete. rewrite length_map.
  apply (rel_getPairsToDelete_loop _ 0 cycle []); [assumption|constructor].
Qed.

Lemma rel_final_matching players :
  Forall freshv players ->
  rel (fun u : unit => u) (fun _ => True)
      (final_matching players) (final_matching (map shv players)).
Proof.
  intros F. unfold final_matching.
  apply (rel_forEach shv freshv); [assumption|]. intros p Fp.
  eapply rel_bind; [now apply (rel_unmatch p undefined)|]. intros _ _.
  rel_call rel_getPlayer.
  destruct (Nat.ltb 0 _); [|now apply rel_ret].
  apply rel_match; auto with reloc.
Qed.

Lemma rel_secondPhase_loop inner fuel players player :
  Forall freshv players -> freshv player ->
  rel (map (sh_warning (List.length c) (List.length X))) (fun _ => True)
      (secondPhase_loop inner fuel players player)
      (secondPhase_loop inner fuel (map shv players) (shv player)).
Proof.
  intros F. revert player. induction fuel as [|fuel IH]; intros player Fp; simpl;
    rewrite truthy_sh.
  - destruct (truthy player); [apply rel_timeout|now apply rel_ret].
  - destruct (negb (truthy player)); [now apply rel_ret|].
    eapply rel_bind; [now apply rel_locateAllOrNothingCycle|]. intros cycle Fc.
    eapply rel_bind; [now apply rel_getPairsToDelete|]. intros pairs Fps.
    eapply rel_bind.
    + apply (rel_forEach (sh_pair (List.length c) (List.length X))
               (fresh_pair (List.length c))); [assumption|].
      intros [p o] [Fp1 Fp2]. simpl in *. now apply rel_deletePair.
    + intros _ _. eapply rel_bind.
      * apply (rel_filterM shv freshv); [assumption|].
        intros x _. apply rel_prefs_length_is.
      * intros emptyPlayers Fe. rewrite length_map.
        destruct (Nat.ltb 0 _); [now apply rel_ret|].
        eapply rel_bind.
        -- apply (rel_findM freshv); [assumption|exact I|].
           intros x _. apply rel_prefs_length_gt.
        -- intros player' Fp'. now apply IH.
Qed.

Lemma rel_secondPhase fuel players :
  Forall freshv players ->
  rel (map (sh_warning (List.length c) (List.length X))) (fun _ => True)
      (secondPhase fuel players) (secondPhase fuel (map shv players)).
Proof.
  intros F. unfold secondPhase. eapply rel_bind.
  - apply (rel_findM freshv); [assumption|exact I|].
    intros x _. apply rel_prefs_length_gt.
  - intros player Fp. eapply rel_bind; [now apply rel_secondPhase_loop|]. intros w _.
    eapply rel_bind; [now apply rel_final_matching|]. intros _ _. now apply rel_ret.
Qed.

Lemma rel_stableRoommates fuel players :
  Forall freshv players ->
  rel (fun r => (sh_map (List.length c) (List.length X) shv (fst r),
                 map (sh_warning (List.length c) (List.length X)) (snd r)))
      (fun _ => True)
      (stableRoommates fuel players) (stableRoommates fuel (map shv players)).
Proof.
  intros F. unfold stableRoommates.
  eapply rel_bind; [now apply rel_firstPhase|]. intros processed Fp.
  eapply rel_bind.
  { apply (rel_filterM shv freshv); [assumption|].
    intros x _. apply rel_prefs_length_is. }
  intros emptyPlayers Fe. eapply rel_bind.
  { apply (rel_someM shv freshv); [assumption|]. intros x _. apply rel_prefs_length_gt. }
  intros run2 _.
  eapply rel_bind with (shA := map (sh_warning (List.length c) (List.length X)))
                       (frA := fun _ => True).
  { destruct run2; [now apply rel_secondPhase|now apply rel_ret]. }
  intros w2 _. eapply rel_bind.
  { apply (rel_single_result players []); [assumption|constructor]. }
  intros result Fr. apply rel_ret; [|exact I]. simpl. rewrite map_app, length_map.
  now destruct (Nat.ltb 0 _).
Qed.

Lemma rel_SR_checkInputs players :
  rel (fun u : unit => u) (fun _ => True)
      (SR_checkInputs players) (SR_checkInputs (map shv players)).
Proof.
  unfold SR_checkInputs.
  apply (rel_forEach shv (fun _ => True)); [apply Forall_forall; auto|].
  intros player _. rel_call rel_getPlayer.
  rewrite same_set_sh. destruct (same_set _ _); [now apply rel_ret|apply rel_throw].
Qed.

Lemma rel_StableRoommates_new players :
  rel (sh_SR (List.length c) (List.length X)) (fresh_SR (List.length c))
      (StableRoommates_new players) (StableRoommates_new (map shv players)).
Proof.
  unfold StableRoommates_new.
  eapply rel_bind; [apply (rel_clone_players _ []); constructor|].
  intros cloneMap F. cbv beta.
  eapply rel_bind; [now apply rel_clone_player_prefs|]. intros _ _.
  rewrite !map_get_values_sh.
  eapply rel_bind; [apply rel_SR_checkInputs|]. intros _ _.
  apply rel_ret; [reflexivity|]. now apply fresh_values_map.
Qed.

Lemma rel_StableRoommates_solve fuel game :
  fresh_SR (List.length c) game ->
  rel (fun r => (sh_SR (List.length c) (List.length X) (fst r),
                 map (sh_warning (List.length c) (List.length X)) (snd r)))
      (fun _ => True)
      (StableRoommates_solve fuel game)
      (StableRoommates_solve fuel (sh_SR (List.length c) (List.length X) game)).
Proof.
  intros F. unfold StableRoommates_solve. simpl.
  eapply rel_bind; [now apply rel_stableRoommates|]. intros r _.
  apply rel_ret; [|exact I]. unfold sh_SR. simpl. now rewrite SingleMatching_sh.
Qed.

Lemma rel_SR_new_and_solve fuel players :
  rel (fun r : list (string * option string) => r) (fun _ => True)
      (SR_new_and_solve fuel players) (SR_new_and_solve fuel (map shv players)).
Proof.
  unfold SR_new_and_solve.
  eapply rel_bind; [apply rel_StableRoommates_new|]. intros g Fg.
  eapply rel_bind; [now apply rel_StableRoommates_solve|]. intros gw _.
  apply rel_matching_record.
Qed.

(** *** The dictionary constructors *)

Lemma record_set_sh k v (dict : list (string * value)) :
  record_set k (shv v) (map (sh_entry (List.length c) (List.length X)) dict)
  = map (sh_entry (List.length c) (List.length X)) (record_set k v dict).
Proof.
  induction dict as [|[k' v'] dict IH]; simpl; [reflexivity|].
  unfold sh_entry at 1 3. simpl. destruct (String.eqb k' k); simpl; [reflexivity|].
  now rewrite IH.
Qed.

Lemma fresh_record_set k v (dict : list (string * value)) :
  Forall (fresh_entry (List.length c)) dict -> freshv v ->
  Forall (fresh_entry (List.length c)) (record_set k v dict).
Proof.
  intros F Fv. induction F as [|[k' v'] dict Fk F IH]; simpl.
  - constructor; [assumption|constructor].
  - destruct (String.eqb k' k); constructor; auto.
Qed.

Lemma dict_get_sh k (dict : list (string * value)) :
  dict_get k (map (sh_entry (List.length c) (List.length X)) dict) = shv (dict_get k dict).
Proof.
  unfold dict_get. induction dict as [|[k' v'] dict IH]; simpl; [reflexivity|].
  destruct (String.eqb k' k); [reflexivity|]. exact IH.
Qed.

Lemma fresh_dict_get k (dict : list (string * value)) :
  Forall (fresh_entry (List.length c)) dict -> freshv (dict_get k dict).
Proof.
  intros F. unfold dict_get. induction F as [|[k' v'] dict Fk F IH]; simpl; [exact I|].
  destruct (String.eqb k' k); [exact Fk|exact IH].
Qed.

Lemma map_snd_sh (dict : list (string * value)) :
  map snd (map (sh_entry (List.length c) (List.length X)) dict) = map shv (map snd dict).
Proof. rewrite !map_map. reflexivity. Qed.

Lemma fresh_map_snd (dict : list (string * value)) :
  Forall (fresh_entry (List.length c)) dict -> Forall freshv (map snd dict).
Proof. intros F. induction F; simpl; constructor; auto. Qed.

Lemma rel_make_dict names dict :
  Forall (fresh_entry (List.length c)) dict ->
  rel (map (sh_entry (List.length c) (List.length X))) (Forall (fresh_entry (List.length c)))
      (make_dict names dict)
      (make_dict names (map (sh_entry (List.length c) (List.length X)) dict)).
Proof.
  revert dict. induction names as [|k rest IH]; intros dict F; simpl.
  - now apply rel_ret.
  - eapply rel_bind;
      [apply (rel_alloc (PlayerObj (Player.new k))); simpl; auto with reloc|].
    intros cl Fc. rewrite record_set_sh. apply IH. now apply fresh_record_set.
Qed.

Lemma rel_make_hospital_dict names capacities dict :
  Forall (fresh_entry (List.length c)) dict ->
  rel (map (sh_entry (List.length c) (List.length X))) (Forall (fresh_entry (List.length c)))
      (make_hospital_dict names capacities dict)
      (make_hospital_dict names capacities
         (map (sh_entry (List.length c) (List.length X)) dict)).
Proof.
  revert dict. induction names as [|k rest IH]; intros dict F; simpl.
  - now apply rel_ret.
  - destruct (record_get k capacities) as [cap|]; [|apply rel_throw].
    eapply rel_bind;
      [apply (rel_alloc (HospitalObj (Hospital.new IsHospital k cap))); simpl;
       auto with reloc|].
    intros cl Fc. rewrite record_set_sh. apply IH. now apply fresh_record_set.
Qed.

Lemma rel_set_dict_prefs dict others prefs :
  Forall (fresh_entry (List.length c)) dict ->
  Forall (fresh_entry (List.length c)) others ->
  rel (fun u : unit => u) (fun _ => True)
      (set_dict_prefs dict others prefs)
      (set_dict_prefs (map (sh_entry (List.length c) (List.length X)) dict)
                      (map (sh_entry (List.length c) (List.length X)) others) prefs).
Proof.
  intros Fd Fo. unfold set_dict_prefs.
  apply (rel_forEach (sh_entry (List.length c) (List.length X))
           (fresh_entry (List.length c))); [assumption|].
  intros [k v] Fe. simpl. destruct (record_get k prefs) as [names|]; [|apply rel_throw].
  replace (map (fun n => dict_get n (map (sh_entry (List.length c) (List.length X)) others))
               names)
    with (map shv (map (fun n => dict_get n others) names)).
  - apply rel_setPrefs; [exact Fe|]. apply Forall_forall. intros x Hx.
    apply in_map_iff in Hx as (k' & <- & _). now apply fresh_dict_get.
  - rewrite map_map. apply map_ext. intros k'. now rewrite dict_get_sh.
Qed.

Lemma rel_SM_makePlayers suitorPrefs reviewerPrefs :
  rel (fun r => (map shv (fst r), map shv (snd r))) (fun _ => True)
      (SM_makePlayers suitorPrefs reviewerPrefs) (SM_makePlayers suitorPrefs reviewerPrefs).
Proof.
  unfold SM_makePlayers.
  eapply rel_bind; [apply (rel_make_dict _ []); constructor|]. intros sd Fs.
  eapply rel_bind; [apply (rel_make_dict _ []); constructor|]. intros rd Fr.
  eapply rel_bind; [now apply rel_set_dict_prefs|]. intros _ _.
  eapply rel_bind; [now apply rel_set_dict_prefs|]. intros _ _.
  apply rel_ret; [|exact I]. simpl. now rewrite !map_snd_sh.
Qed.

Lemma rel_run_SM fuel suitorPrefs reviewerPrefs optimal :
  rel (fun r : list (string * option string) => r) (fun _ => True)
      (run_SM fuel suitorPrefs reviewerPrefs optimal)
      (run_SM fuel suitorPrefs reviewerPrefs optimal).
Proof.
  unfold run_SM, StableMarriage_createFromDictionaries.
  eapply rel_bind.
  - eapply rel_bind; [apply rel_SM_makePlayers|]. intros players _. simpl.
    apply rel_StableMarriage_new.
  - intros g Fg. eapply rel_bind; [now apply rel_StableMarriage_solve|]. intros g' _.
    apply rel_matching_record.
Qed.

Lemma rel_SR_makePlayers playerPrefs :
  rel (map shv) (fun _ => True) (SR_makePlayers playerPrefs) (SR_makePlayers playerPrefs).
Proof.
  unfold SR_makePlayers.
  eapply rel_bind; [apply (rel_make_dict _ []); constructor|]. intros pd Fp.
  eapply rel_bind; [now apply rel_set_dict_prefs|]. intros _ _.
  apply rel_ret; [|exact I]. now rewrite map_snd_sh.
Qed.

Lemma rel_run_SR fuel playerPrefs :
  rel (fun r : list (string * option string) => r) (fun _ => True)
      (run_SR fuel playerPrefs) (run_SR fuel playerPrefs).
Proof.
  unfold run_SR, StableRoommates_createFromDictionary.
  eapply rel_bind.
  - eapply rel_bind; [apply rel_SR_makePlayers|]. intros players _.
    apply rel_StableRoommates_new.
  - intros g Fg. eapply rel_bind; [now apply rel_StableRoommates_solve|]. intros g' _.
    apply rel_matching_record.
Qed.

Lemma rel_HR_makePlayers residentPrefs hospitalPrefs capacities :
  rel (fun r => (map shv (fst r), map shv (snd r))) (fun _ => True)
      (HR_makePlayers residentPrefs hospitalPrefs capacities)
      (HR_makePlayers residentPrefs hospitalPrefs capacities).
Proof.
  unfold HR_makePlayers.
  eapply rel_bind; [apply (rel_make_dict _ []); constructor|]. intros sd Fs.
  eapply rel_bind; [apply (rel_make_hospital_dict _ _ []); constructor|]. intros rd Fr.
  eapply rel_bind; [now apply rel_set_dict_prefs|]. intros _ _.
  eapply rel_bind; [now apply rel_set_dict_prefs|]. intros _ _.
  apply rel_ret; [|exact I]. simpl. now rewrite !map_snd_sh.
Qed.

Lemma rel_multiple_matching_record (matching : option (jsmap (list value))) :
  rel (fun r : list (string * list string) => r) (fun _ => True)
      (multiple_matching_record matching)
      (multiple_matching_record
         (option_map (sh_map (List.length c) (List.length X) (map shv)) matching)).
Proof.
  destruct matching as [data|]; simpl; [apply rel_MultipleMatching_toRecord|apply rel_throw].
Qed.

Lemma rel_run_HR fuel residentPrefs hospitalPrefs capacities clean optimal :
  rel (fun r : list (string * list string) => r) (fun _ => True)
      (run_HR fuel residentPrefs hospitalPrefs capacities clean optimal)
      (run_HR fuel residentPrefs hospitalPrefs capacities clean optimal).
Proof.
  unfold run_HR, HospitalResident_createFromDictionaries.
  eapply rel_bind.
  - eapply rel_bind; [apply rel_HR_makePlayers|]. intros players _. simpl.
    apply rel_HospitalResident_new.
  - intros gw Fg. simpl. eapply rel_bind; [now apply rel_HospitalResident_solve|].
    intros g' _. apply rel_multiple_matching_record.
Qed.

(** *** Student allocation: the algorithm *)

Lemma rel_SA_unmatchPair student project :
  freshv student -> freshv project ->
  rel (fun u : unit => u) (fun _ => True)
      (SA_unmatchPair student project) (SA_unmatchPair (shv student) (shv project)).
Proof.
  intros Fs Fr. unfold SA_unmatchPair.
  eapply rel_bind; [now apply (rel_unmatch student undefined)|]. intros _ _.
  now apply rel_unmatch.
Qed.

Lemma rel_drop_if_exhausted successor freeStudents :
  Forall freshv freeStudents ->
  rel (map shv) (Forall freshv)
      (drop_if_exhausted successor freeStudents)
      (drop_if_exhausted (shv successor) (map shv freeStudents)).
Proof.
  intros F. unfold drop_if_exhausted. rel_call rel_load.
  apply rel_ret; destruct (_ && _); auto with reloc.
Qed.

Lemma rel_studentOptimal_delete project successors freeStudents :
  freshv project -> Forall freshv successors -> Forall freshv freeStudents ->
  rel (map shv) (Forall freshv)
      (studentOptimal_delete project successors freeStudents)
      (studentOptimal_delete (shv project) (map shv successors) (map shv freeStudents)).
Proof.
  intros Fh Fs. revert freeStudents.
  induction Fs as [|successor rest Fsu Fs IH]; intros freeStudents Ff; simpl.
  - now apply rel_ret.
  - rel_call rel_deletePair.
    eapply rel_bind; [now apply rel_drop_if_exhausted|]. intros free' F'. now apply IH.
Qed.

Lemma rel_studentOptimal_delete_supervisor supervisor successors freeStudents :
  freshv supervisor -> Forall freshv successors -> Forall freshv freeStudents ->
  rel (map shv) (Forall freshv)
      (studentOptimal_delete_supervisor supervisor successors freeStudents)
      (studentOptimal_delete_supervisor (shv supervisor) (map shv successors)
         (map shv freeStudents)).
Proof.
  intros Fh Fs. revert freeStudents.
  induction Fs as [|successor rest Fsu Fs IH]; intros freeStudents Ff; simpl.
  - now apply rel_ret.
  - rel_call rel_getHospital.
    eapply rel_bind.
    { apply (rel_filterM shv freshv); [auto with reloc|].
      intros p _. apply rel_prefs_include. }
    intros supervisorProjects Fsp. eapply rel_bind.
    { apply (rel_forEach shv freshv); [assumption|].
      intros proj Fp. now apply rel_deletePair. }
    intros _ _.
    eapply rel_bind; [now apply rel_drop_if_exhausted|]. intros free' F'. now apply IH.
Qed.

Lemma rel_studentOptimal_step student freeStudents :
  freshv student -> Forall freshv freeStudents ->
  rel (map shv) (Forall freshv)
      (studentOptimal_step student freeStudents)
      (studentOptimal_step (shv student) (map shv freeStudents)).
Proof.
  intros Fr Ff. unfold studentOptimal_step. rel_call rel_getPlayer.
  destruct (Nat.eqb _ 0); [now apply rel_ret|].
  rel_call rel_getHospital. rel_call rel_matchPair. rel_call rel_getHospital.
  eapply rel_bind with (shA := map shv) (frA := Forall freshv).
  - destruct (_ <? _)%Z.
    + rel_call rel_SA_unmatchPair. apply rel_ret; [now rewrite map_app|auto with reloc].
    + rel_call rel_getHospital. destruct (_ <? _)%Z; [|now apply rel_ret].
      rel_call rel_getPlayer. rel_call rel_SA_unmatchPair.
      apply rel_ret; [now rewrite map_app|auto with reloc].
  - intros free' F'. rel_call rel_getHospital.
    eapply rel_bind with (shA := map shv) (frA := Forall freshv).
    + destruct (_ =? _)%Z; [|now apply rel_ret].
      apply rel_studentOptimal_delete; auto with reloc.
    + intros free'' F''. rel_call rel_getHospital.
      destruct (_ =? _)%Z; [|now apply rel_ret].
      apply rel_studentOptimal_delete_supervisor; auto with reloc.
Qed.

Lemma rel_studentOptimal_loop fuel freeStudents :
  Forall freshv freeStudents ->
  rel (fun u : unit => u) (fun _ => True)
      (studentOptimal_loop fuel freeStudents)
      (studentOptimal_loop fuel (map shv freeStudents)).
Proof.
  revert freeStudents. induction fuel as [|fuel IH]; intros freeStudents F; simpl.
  - destruct freeStudents; simpl; [now apply rel_ret|apply rel_timeout].
  - rewrite pop_sh. destruct (pop freeStudents) as [[student rest]|] eqn:E; simpl;
      [|now apply rel_ret].
    destruct (fresh_pop _ _ _ _ E F) as [Fs Fr].
    eapply rel_bind; [now apply rel_studentOptimal_step|]. intros free' F'. now apply IH.
Qed.

Lemma find_project_sh pref projects :
  find (fun p => value_eqb p (shv pref)) (map shv projects)
  = option_map shv (find (fun p => value_eqb p pref) projects).
Proof.
  induction projects as [|p projects IH]; simpl; [reflexivity|].
  rewrite value_eqb_sh. now destruct (value_eqb p pref).
Qed.

Lemma rel_favourite_project u student prefs :
  fresh_hospital (List.length c) u -> freshv student ->
  rel (option_map (sh_pair (List.length c) (List.length X))) (fresh_opair (List.length c))
      (favourite_project u student prefs)
      (favourite_project (sh_hospital (List.length c) (List.length X) u) (shv student)
         (map shv prefs)).
Proof.
  intros Fu Fs. induction prefs as [|pref rest IH]; simpl.
  - now apply rel_ret.
  - rewrite ?Hospital_projects_sh, find_project_sh.
    destruct (find _ (Hospital.projects u)) as [project|] eqn:E; simpl; [|exact IH].
    rewrite truthy_sh. destruct (truthy project); [|exact IH].
    assert (Fp : freshv project).
    { eapply fresh_find; [exact E|]. auto with reloc. }
    rel_call rel_getHospital.
    destruct (_ && _); [|exact IH]. apply rel_ret; [reflexivity|]. now split.
Qed.

Lemma rel_favourite_student u students :
  fresh_hospital (List.length c) u -> Forall freshv students ->
  rel (option_map (sh_pair (List.length c) (List.length X))) (fresh_opair (List.length c))
      (favourite_student u students)
      (favourite_student (sh_hospital (List.length c) (List.length X) u) (map shv students)).
Proof.
  intros Fu Fs. induction Fs as [|student rest Fst Fs IH]; simpl.
  - now apply rel_ret.
  - rel_call rel_load.
    eapply rel_bind; [now apply rel_favourite_project|]. intros r Fr.
    destruct r as [pq|]; simpl; [now apply rel_ret|exact IH].
Qed.

Lemma rel_getFavouriteStudentProject this :
  freshv this ->
  rel (option_map (sh_pair (List.length c) (List.length X))) (fresh_opair (List.length c))
      (getFavouriteStudentProject this) (getFavouriteStudentProject (shv this)).
Proof.
  intros F. unfold getFavouriteStudentProject. rel_call rel_getHospital.
  destruct (_ <? _)%Z; [|now apply rel_ret].
  apply rel_favourite_student; auto with reloc.
Qed.

Lemma rel_hasFavourite s :
  freshv s ->
  rel (fun b : bool => b) (fun _ => True) (hasFavourite s) (hasFavourite (shv s)).
Proof.
  intros F. unfold hasFavourite.
  eapply rel_bind; [now apply rel_getFavouriteStudentProject|]. intros f _.
  apply rel_ret; [|exact I]. now destruct f.
Qed.

Lemma rel_supervisorOptimal_step supervisors supervisor freeSupervisors :
  Forall freshv supervisors -> freshv supervisor -> Forall freshv freeSupervisors ->
  rel (map shv) (Forall freshv)
      (supervisorOptimal_step supervisors supervisor freeSupervisors)
      (supervisorOptimal_step (map shv supervisors) (shv supervisor)
         (map shv freeSupervisors)).
Proof.
  intros Fa Fs Ff. unfold supervisorOptimal_step.
  eapply rel_bind; [now apply rel_getFavouriteStudentProject|]. intros fav Ffav.
  destruct fav as [[student project]|]; simpl; [|now apply rel_ret].
  destruct Ffav as [Fst Fpr]. simpl in Fst, Fpr.
  rel_call rel_getPlayer.
  eapply rel_bind with (shA := fun u : unit => u) (frA := fun _ => True).
  { destruct (truthy _); [|now apply rel_ret].
    apply rel_SA_unmatchPair; auto with reloc. }
  intros _ _. rel_call rel_matchPair. rel_call rel_getSuccessors.
  eapply rel_bind.
  { apply (rel_forEach shv freshv); [assumption|].
    intros successor Fsu. now apply rel_deletePair. }
  intros _ _. apply (rel_filterM shv freshv); [assumption|].
  intros s Fs'. now apply rel_hasFavourite.
Qed.

Lemma rel_supervisorOptimal_loop fuel supervisors freeSupervisors :
  Forall freshv supervisors -> Forall freshv freeSupervisors ->
  rel (fun u : unit => u) (fun _ => True)
      (supervisorOptimal_loop fuel supervisors freeSupervisors)
      (supervisorOptimal_loop fuel (map shv supervisors) (map shv freeSupervisors)).
Proof.
  intros Fa. revert freeSupervisors.
  induction fuel as [|fuel IH]; intros freeSupervisors F; simpl.
  - destruct freeSupervisors; simpl; [now apply rel_ret|apply rel_timeout].
  - rewrite pop_sh. destruct (pop freeSupervisors) as [[supervisor rest]|] eqn:E; simpl;
      [|now apply rel_ret].
    destruct (fresh_pop _ _ _ _ E F) as [Fs Fr].
    eapply rel_bind; [now apply rel_supervisorOptimal_step|]. intros free' F'. now apply IH.
Qed.

Lemma rel_studentAllocation fuel students projects supervisors optimal :
  Forall freshv students -> Forall freshv supervisors ->
  rel (sh_map (List.length c) (List.length X) (map shv)) (fun _ => True)
      (studentAllocation fuel students projects supervisors optimal)
      (studentAllocation fuel (map shv students) (map shv projects) (map shv supervisors)
         optimal).
Proof.
  intros Fs Fu. destruct optimal; simpl.
  - unfold studentOptimal.
    eapply rel_bind; [now apply rel_studentOptimal_loop|]. intros _ _.
    apply (rel_multiple_result projects []).
  - unfold supervisorOptimal.
    eapply rel_bind; [now apply rel_supervisorOptimal_loop|]. intros _ _.
    apply (rel_multiple_result projects []).
Qed.

(** *** Student allocation: the game *)

Lemma rel_setSupervisor this supervisor :
  freshv this -> freshv supervisor ->
  rel (fun u : unit => u) (fun _ => True)
      (setSupervisor this supervisor) (setSupervisor (shv this) (shv supervisor)).
Proof.
  intros Ft Fs. unfold setSupervisor. rel_call rel_getHospital.
  rel_call rel_store_hospital. rel_call rel_getHospital.
  destruct (negb _); [|now apply rel_ret].
  change [shv this] with (map shv [this]). rewrite <- map_app.
  rewrite Hospital_with_projects_sh. apply rel_store_hospital; auto with reloc.
Qed.

Lemma rel_clone_capacitated k players cloneMap :
  fresh_values (List.length c) cloneMap ->
  rel (sh_map (List.length c) (List.length X) shv) (fresh_values (List.length c))
      (clone_capacitated k players cloneMap)
      (clone_capacitated k (map shv players)
         (sh_map (List.length c) (List.length X) shv cloneMap)).
Proof.
  revert cloneMap. induction players as [|player rest IH]; intros cloneMap F; simpl.
  - now apply rel_ret.
  - rel_call rel_getHospital.
    eapply rel_bind;
      [apply (rel_alloc (HospitalObj (Hospital.new k (Hospital.name x)
                                        (Hospital.capacity x)))); simpl; auto with reloc|].
    intros cl Fc. rewrite map_set_shv. apply IH. now apply fresh_values_set.
Qed.

Lemma rel_clone_links projectCloneMap supervisorCloneMap projects :
  fresh_values (List.length c) projectCloneMap ->
  fresh_values (List.length c) supervisorCloneMap ->
  rel (fun u : unit => u) (fun _ => True)
      (clone_links projectCloneMap supervisorCloneMap projects)
      (clone_links (sh_map (List.length c) (List.length X) shv projectCloneMap)
                   (sh_map (List.length c) (List.length X) shv supervisorCloneMap)
                   (map shv projects)).
Proof.
  intros Fp Fs. unfold clone_links.
  apply (rel_forEach shv (fun _ => True)); [apply Forall_forall; auto|].
  intros project _. rel_call rel_getHospital.
  destruct (truthy _); [|now apply rel_ret].
  unfold sh_map. rewrite !map_get_value_sh.
  apply rel_setSupervisor; now apply fresh_values_get.
Qed.

Lemma SA_party_of_sh g p :
  SA_party_of (sh_SA (List.length c) (List.length X) g) p = map shv (SA_party_of g p).
Proof. now destruct p. Qed.

Lemma fresh_SA_party_of g p :
  fresh_SA (List.length c) g -> Forall freshv (SA_party_of g p).
Proof. intros (F1 & F2 & F3). now destruct p. Qed.

Lemma rel_forget_everywhere others player :
  Forall freshv others ->
  rel (fun u : unit => u) (fun _ => True)
      (forget_everywhere others player) (forget_everywhere (map shv others) (shv player)).
Proof.
  intros F. unfold forget_everywhere.
  apply (rel_forEach shv freshv); [assumption|].
  intros other Fo. eapply rel_bind; [apply rel_prefs_include|]. intros ranked _.
  destruct ranked; [now apply rel_forget|now apply rel_ret].
Qed.

Lemma rel_removeProject g project :
  fresh_SA (List.length c) g ->
  rel (sh_SA (List.length c) (List.length X)) (fresh_SA (List.length c))
      (removeProject g project)
      (removeProject (sh_SA (List.length c) (List.length X) g) (shv project)).
Proof.
  intros (F1 & F2 & F3). unfold removeProject. simpl.
  eapply rel_bind; [now apply rel_forget_everywhere|]. intros _ _.
  apply rel_ret.
  - unfold sh_SA, SA_with_projects. simpl. now rewrite remove_value_sh.
  - repeat split; simpl; auto with reloc.
Qed.

Lemma rel_removeStudent g student :
  fresh_SA (List.length c) g ->
  rel (sh_SA (List.length c) (List.length X)) (fresh_SA (List.length c))
      (removeStudent g student)
      (removeStudent (sh_SA (List.length c) (List.length X) g) (shv student)).
Proof.
  intros (F1 & F2 & F3). unfold removeStudent. simpl.
  eapply rel_bind; [now apply rel_forget_everywhere|]. intros _ _.
  apply rel_ret.
  - unfold sh_SA, SA_with_students. simpl. now rewrite remove_value_sh.
  - repeat split; simpl; auto with reloc.
Qed.

Lemma rel_removeProjects g projects :
  fresh_SA (List.length c) g ->
  rel (sh_SA (List.length c) (List.length X)) (fresh_SA (List.length c))
      (removeProjects g projects)
      (removeProjects (sh_SA (List.length c) (List.length X) g) (map shv projects)).
Proof.
  revert g. induction projects as [|project rest IH]; intros g Fg; simpl.
  - now apply rel_ret.
  - eapply rel_bind; [now apply rel_removeProject|]. intros g' Fg'. now apply IH.
Qed.

Lemma rel_removeSupervisor g supervisor :
  fresh_SA (List.length c) g ->
  rel (sh_SA (List.length c) (List.length X)) (fresh_SA (List.length c))
      (removeSupervisor g supervisor)
      (removeSupervisor (sh_SA (List.length c) (List.length X) g) (shv supervisor)).
Proof.
  intros (F1 & F2 & F3). unfold removeSupervisor. rel_call rel_getHospital.
  match goal with
  | |- rel _ _ _ (removeProjects ?gg _) =>
      replace gg with (sh_SA (List.length c) (List.length X)
        (SA_with_supervisors (remove_value supervisor (StudentAllocation.supervisors g)) g))
  end.
  - apply rel_removeProjects. repeat split; simpl; auto with reloc.
  - unfold sh_SA, SA_with_supervisors. simpl. now rewrite remove_value_sh.
Qed.

Lemma rel_removePlayerSA g player p :
  fresh_SA (List.length c) g ->
  rel (sh_SA (List.length c) (List.length X)) (fresh_SA (List.length c))
      (removePlayerSA g player p)
      (removePlayerSA (sh_SA (List.length c) (List.length X) g) (shv player) p).
Proof.
  intros F. destruct p; simpl;
    [now apply rel_removeStudent|now apply rel_removeProject|now apply rel_removeSupervisor].
Qed.

Lemma rel_forEachSA (l : list value) g
    (body1 body2 : StudentAllocation.t -> value -> M StudentAllocation.t) :
  fresh_SA (List.length c) g ->
  (forall g x, fresh_SA (List.length c) g ->
     rel (sh_SA (List.length c) (List.length X)) (fresh_SA (List.length c))
         (body1 g x) (body2 (sh_SA (List.length c) (List.length X) g) (shv x))) ->
  rel (sh_SA (List.length c) (List.length X)) (fresh_SA (List.length c))
      (forEachSA l g body1)
      (forEachSA (map shv l) (sh_SA (List.length c) (List.length X) g) body2).
Proof.
  intros Fg B. revert g Fg. induction l as [|x l IH]; intros g Fg; simpl.
  - now apply rel_ret.
  - eapply rel_bind; [now apply B|]. intros g' Fg'. now apply IH.
Qed.

Lemma rel_checkInputsPlayerPrefsNonemptyGeneric g p :
  fresh_SA (List.length c) g ->
  rel (sh_SA (List.length c) (List.length X)) (fresh_SA (List.length c))
      (checkInputsPlayerPrefsNonemptyGeneric g p)
      (checkInputsPlayerPrefsNonemptyGeneric (sh_SA (List.length c) (List.length X) g) p).
Proof.
  intros Fg. unfold checkInputsPlayerPrefsNonemptyGeneric. rewrite SA_party_of_sh.
  apply rel_forEachSA; [assumption|]. clear g Fg. intros g player Fg.
  rel_call rel_load.
  change (StudentAllocation.clean (sh_SA (List.length c) (List.length X) g))
    with (StudentAllocation.clean g).
  destruct (_ && _); [now apply rel_removePlayerSA|now apply rel_ret].
Qed.

Lemma rel_checkInputsPlayerCapacityGeneric g p :
  fresh_SA (List.length c) g ->
  rel (sh_SA (List.length c) (List.length X)) (fresh_SA (List.length c))
      (checkInputsPlayerCapacityGeneric g p)
      (checkInputsPlayerCapacityGeneric (sh_SA (List.length c) (List.length X) g) p).
Proof.
  intros Fg. unfold checkInputsPlayerCapacityGeneric. rewrite SA_party_of_sh.
  apply rel_forEachSA; [assumption|]. clear g Fg. intros g player Fg.
  rel_call rel_getHospital.
  change (StudentAllocation.clean (sh_SA (List.length c) (List.length X) g))
    with (StudentAllocation.clean g).
  destruct (_ && _); [now apply rel_removePlayerSA|now apply rel_ret].
Qed.

Lemma rel_supervisorsPrefsAllReciprocated clean supervisors :
  Forall freshv supervisors ->
  rel (map (sh_warning (List.length c) (List.length X))) (fun _ => True)
      (supervisorsPrefsAllReciprocated clean supervisors)
      (supervisorsPrefsAllReciprocated clean (map shv supervisors)).
Proof.
  intros F. unfold supervisorsPrefsAllReciprocated.
  apply (rel_forEachW shv freshv); [assumption|].
  intros supervisor Fs. rel_call rel_load.
  apply (rel_forEachW shv (fun _ => True)); [apply Forall_forall; auto|].
  intros student _. rel_call rel_load.
  eapply rel_bind.
  { apply (rel_mapM shv (fun _ => True) shv (fun _ => True)); [apply Forall_forall; auto|].
    intros p _. rel_call rel_getHospital. now apply rel_ret. }
  intros sups _. rewrite includes_sh. destruct (negb _); [|now apply rel_ret].
  eapply rel_bind with (shA := fun u : unit => u) (frA := fun _ => True).
  - destruct clean; [|now apply rel_ret].
    rel_call rel_getHospital.
    apply (rel_forEach shv freshv); [auto with reloc|].
    intros project Fp. now apply rel_forget.
  - intros _ _. now apply rel_ret.
Qed.

Lemma rel_supervisorsReciprocatedAllPrefs clean supervisors students :
  Forall freshv students ->
  rel (map (sh_warning (List.length c) (List.length X))) (fun _ => True)
      (supervisorsReciprocatedAllPrefs clean supervisors students)
      (supervisorsReciprocatedAllPrefs clean (map shv supervisors) (map shv students)).
Proof.
  intros F. unfold supervisorsReciprocatedAllPrefs.
  apply (rel_forEachW shv (fun _ => True)); [apply Forall_forall; auto|].
  intros supervisor _. eapply rel_bind.
  { apply (rel_filterM shv freshv); [assumption|].
    intros student _. rel_call rel_getHospital.
    apply (rel_someM shv (fun _ => True)); [apply Forall_forall; auto|].
    intros project _. apply rel_prefs_include. }
  intros ranked Fr. apply (rel_forEachW shv freshv); [assumption|].
  intros student Fst. eapply rel_bind; [apply rel_prefs_include|]. intros b _.
  destruct (negb _); [|now apply rel_ret].
  eapply rel_bind with (shA := fun u : unit => u) (frA := fun _ => True).
  - destruct clean; [|now apply rel_ret].
    rel_call rel_getHospital. eapply rel_bind.
    { apply (rel_filterM shv (fun _ => True)); [apply Forall_forall; auto|].
      intros p _. apply rel_prefs_include. }
    intros common _.
    apply (rel_forEach shv (fun _ => True)); [apply Forall_forall; auto|].
    intros project _. now apply rel_forget.
  - intros _ _. now apply rel_ret.
Qed.

Lemma rel_checkInputsSupervisorCapacitiesSufficient clean supervisors :
  Forall freshv supervisors ->
  rel (map (sh_warning (List.length c) (List.length X))) (fun _ => True)
      (checkInputsSupervisorCapacitiesSufficient clean supervisors)
      (checkInputsSupervisorCapacitiesSufficient clean (map shv supervisors)).
Proof.
  intros F. unfold checkInputsSupervisorCapacitiesSufficient.
  apply (rel_forEachW shv freshv); [assumption|].
  intros supervisor Fs. rel_call rel_getHospital.
  apply (rel_forEachW shv freshv); [auto with reloc|].
  intros project Fp. rel_call rel_getHospital. rel_call rel_getHospital.
  destruct (_ <? _)%Z; [|now apply rel_ret].
  eapply rel_bind with (shA := fun u : unit => u) (frA := fun _ => True).
  - destruct clean; [|now apply rel_ret].
    apply rel_store_hospital; auto with reloc.
  - intros _ _. now apply rel_ret.
Qed.

Lemma rel_totalCapacity projects sum :
  rel (fun z : Z => z) (fun _ => True)
      (totalCapacity projects sum) (totalCapacity (map shv projects) sum).
Proof.
  revert sum. induction projects as [|p rest IH]; intros sum; simpl.
  - now apply rel_ret.
  - rel_call rel_getHospital. apply IH.
Qed.

Lemma rel_checkInputsSupervisorCapacitiesNecessary clean supervisors :
  Forall freshv supervisors ->
  rel (map (sh_warning (List.length c) (List.length X))) (fun _ => True)
      (checkInputsSupervisorCapacitiesNecessary clean supervisors)
      (checkInputsSupervisorCapacitiesNecessary clean (map shv supervisors)).
Proof.
  intros F. unfold checkInputsSupervisorCapacitiesNecessary.
  apply (rel_forEachW shv freshv); [assumption|].
  intros supervisor Fs. rel_call rel_getHospital.
  eapply rel_bind; [apply rel_totalCapacity|]. intros total _.
  destruct (_ <? _)%Z; [|now apply rel_ret].
  eapply rel_bind with (shA := fun u : unit => u) (frA := fun _ => True).
  - destruct clean; [|now apply rel_ret].
    rewrite Hospital_with_capacity_sh. apply rel_store_hospital; auto with reloc.
  - intros _ _. now apply rel_ret.
Qed.

Lemma rel_checkInputsPlayerPrefsUniqueGeneric g p :
  fresh_SA (List.length c) g ->
  rel (map (sh_warning (List.length c) (List.length X))) (fun _ => True)
      (checkInputsPlayerPrefsUniqueGeneric g p)
      (checkInputsPlayerPrefsUniqueGeneric (sh_SA (List.length c) (List.length X) g) p).
Proof.
  intros Fg. unfold checkInputsPlayerPrefsUniqueGeneric. rewrite SA_party_of_sh.
  apply rel_checkInputsPlayerPrefsUnique. now apply fresh_SA_party_of.
Qed.

Lemma rel_checkInputsPlayerPrefsAllInPartyGeneric g p q :
  fresh_SA (List.length c) g ->
  rel (map (sh_warning (List.length c) (List.length X))) (fun _ => True)
      (checkInputsPlayerPrefsAllInPartyGeneric g p q)
      (checkInputsPlayerPrefsAllInPartyGeneric (sh_SA (List.length c) (List.length X) g) p q).
Proof.
  intros Fg. unfold checkInputsPlayerPrefsAllInPartyGeneric. rewrite !SA_party_of_sh.
  apply rel_checkInputsPlayerPrefsAllInParty. now apply fresh_SA_party_of.
Qed.

Lemma rel_checkInputsPlayerPrefsAllReciprocatedSA g p :
  fresh_SA (List.length c) g ->
  rel (map (sh_warning (List.length c) (List.length X))) (fun _ => True)
      (checkInputsPlayerPrefsAllReciprocatedSA g p)
      (checkInputsPlayerPrefsAllReciprocatedSA (sh_SA (List.length c) (List.length X) g) p).
Proof.
  intros (F1 & F2 & F3). unfold checkInputsPlayerPrefsAllReciprocatedSA.
  destruct p; simpl;
    [now apply rel_checkInputsPlayerPrefsAllReciprocated
    |now apply rel_checkInputsPlayerPrefsAllReciprocated
    |now apply rel_supervisorsPrefsAllReciprocated].
Qed.

Lemma rel_checkInputsPlayerReciprocatedAllPrefsSA g p :
  fresh_SA (List.length c) g ->
  rel (map (sh_warning (List.length c) (List.length X))) (fun _ => True)
      (checkInputsPlayerReciprocatedAllPrefsSA g p)
      (checkInputsPlayerReciprocatedAllPrefsSA (sh_SA (List.length c) (List.length X) g) p).
Proof.
  intros (F1 & F2 & F3). unfold checkInputsPlayerReciprocatedAllPrefsSA.
  destruct p; simpl;
    [now apply rel_checkInputsPlayerReciprocatedAllPrefs
    |now apply rel_checkInputsPlayerReciprocatedAllPrefs
    |now apply rel_supervisorsReciprocatedAllPrefs].
Qed.

Lemma rel_SA_checkInputs g :
  fresh_SA (List.length c) g ->
  rel (fun r => (sh_SA (List.length c) (List.length X) (fst r),
                 map (sh_warning (List.length c) (List.length X)) (snd r)))
      (fun r => fresh_SA (List.length c) (fst r))
      (SA_checkInputs g) (SA_checkInputs (sh_SA (List.length c) (List.length X) g)).
Proof.
  intros Fg. unfold SA_checkInputs.
  eapply rel_bind; [now apply rel_checkInputsPlayerPrefsUniqueGeneric|]. intros w1 _.
  eapply rel_bind; [now apply rel_checkInputsPlayerPrefsUniqueGeneric|]. intros w2 _.
  eapply rel_bind; [now apply rel_checkInputsPlayerPrefsUniqueGeneric|]. intros w3 _.
  eapply rel_bind; [now apply rel_checkInputsPlayerPrefsAllInPartyGeneric|]. intros w4 _.
  eapply rel_bind; [now apply rel_checkInputsPlayerPrefsNonemptyGeneric|].
  clear g Fg. intros g Fg.
  eapply rel_bind; [now apply rel_checkInputsPlayerPrefsAllInPartyGeneric|]. intros w5 _.
  eapply rel_bind; [now apply rel_checkInputsPlayerPrefsNonemptyGeneric|].
  clear g Fg. intros g Fg.
  eapply rel_bind; [now apply rel_checkInputsPlayerPrefsAllReciprocatedSA|]. intros w6 _.
  eapply rel_bind; [now apply rel_checkInputsPlayerReciprocatedAllPrefsSA|]. intros w7 _.
  eapply rel_bind; [now apply rel_checkInputsPlayerPrefsNonemptyGeneric|].
  clear g Fg. intros g Fg.
  eapply rel_bind; [now apply rel_checkInputsPlayerPrefsAllReciprocatedSA|]. intros w8 _.
  eapply rel_bind; [now apply rel_checkInputsPlayerReciprocatedAllPrefsSA|]. intros w9 _.
  eapply rel_bind; [now apply rel_checkInputsPlayerPrefsNonemptyGeneric|].
  clear g Fg. intros g Fg.
  eapply rel_bind; [now apply rel_checkInputsPlayerCapacityGeneric|].
  clear g Fg. intros g Fg.
  eapply rel_bind; [now apply rel_checkInputsPlayerCapacityGeneric|].
  clear g Fg. intros g Fg. pose proof Fg as (F1 & F2 & F3).
  change (StudentAllocation.supervisors (sh_SA (List.length c) (List.length X) g))
    with (map shv (StudentAllocation.supervisors g)).
  change (StudentAllocation.clean (sh_SA (List.length c) (List.length X) g))
    with (StudentAllocation.clean g).
  eapply rel_bind; [now apply rel_checkInputsSupervisorCapacitiesSufficient|]. intros w10 _.
  eapply rel_bind; [now apply rel_checkInputsSupervisorCapacitiesNecessary|]. intros w11 _.
  apply rel_ret; [|assumption]. simpl. now rewrite !map_app.
Qed.

Lemma rel_StudentAllocation_new students projects supervisors clean :
  rel (fun r => (sh_SA (List.length c) (List.length X) (fst r),
                 map (sh_warning (List.length c) (List.length X)) (snd r)))
      (fun r => fresh_SA (List.length c) (fst r))
      (StudentAllocation_new students projects supervisors clean)
      (StudentAllocation_new (map shv students) (map shv projects) (map shv supervisors)
         clean).
Proof.
  unfold StudentAllocation_new.
  eapply rel_bind; [apply (rel_clone_players _ []); constructor|]. intros sm Fs.
  eapply rel_bind; [apply (rel_clone_capacitated _ _ []); constructor|]. intros pm Fp.
  eapply rel_bind; [apply (rel_clone_capacitated _ _ []); constructor|]. intros um Fu.
  eapply rel_bind; [now apply rel_clone_links|]. intros _ _.
  eapply rel_bind; [now apply rel_clone_prefs|]. intros _ _.
  eapply rel_bind; [now apply rel_clone_prefs|]. intros _ _.
  rewrite !map_get_values_sh.
  apply (rel_SA_checkInputs
           (StudentAllocation.mk (map (fun s => map_get_value s sm) students)
              (map (fun p => map_get_value p pm) projects)
              (map (fun u => map_get_value u um) supervisors) clean None None)).
  repeat split; now apply fresh_values_map.
Qed.

Lemma rel_StudentAllocation_solve fuel g optimal :
  fresh_SA (List.length c) g ->
  rel (sh_SA (List.length c) (List.length X)) (fresh_SA (List.length c))
      (StudentAllocation_solve fuel g optimal)
      (StudentAllocation_solve fuel (sh_SA (List.length c) (List.length X) g) optimal).
Proof.
  intros (F1 & F2 & F3). unfold StudentAllocation_solve. simpl.
  eapply rel_bind; [now apply rel_studentAllocation|]. intros result F.
  apply rel_ret; [|now repeat split]. unfold sh_SA. simpl. now rewrite MultipleMatching_sh.
Qed.

Lemma rel_SA_new_and_solve fuel students projects supervisors clean optimal :
  rel (fun r : list (string * list string) => r) (fun _ => True)
      (SA_new_and_solve fuel students projects supervisors clean optimal)
      (SA_new_and_solve fuel (map shv students) (map shv projects) (map shv supervisors)
         clean optimal).
Proof.
  unfold SA_new_and_solve.
  eapply rel_bind; [apply rel_StudentAllocation_new|]. intros gw Fg. simpl.
  eapply rel_bind; [now apply rel_StudentAllocation_solve|]. intros g' Fg'.
  apply rel_multiple_matching_record.
Qed.

Lemma rel_make_capacitated_dict k names capacities dict :
  Forall (fresh_entry (List.length c)) dict ->
  rel (map (sh_entry (List.length c) (List.length X))) (Forall (fresh_entry (List.length c)))
      (make_capacitated_dict k names capacities dict)
      (make_capacitated_dict k names capacities
         (map (sh_entry (List.length c) (List.length X)) dict)).
Proof.
  revert dict. induction names as [|nm rest IH]; intros dict F; simpl.
  - now apply rel_ret.
  - destruct (record_get nm capacities) as [cap|]; [|apply rel_throw].
    eapply rel_bind;
      [apply (rel_alloc (HospitalObj (Hospital.new k nm cap))); simpl; auto with reloc|].
    intros cl Fc. rewrite record_set_sh. apply IH. now apply fresh_record_set.
Qed.

Lemma rel_make_supervisor_dict capacities dict :
  Forall (fresh_entry (List.length c)) dict ->
  rel (map (sh_entry (List.length c) (List.length X))) (Forall (fresh_entry (List.length c)))
      (make_supervisor_dict capacities dict)
      (make_supervisor_dict capacities
         (map (sh_entry (List.length c) (List.length X)) dict)).
Proof.
  revert dict. induction capacities as [|[nm cap] rest IH]; intros dict F; simpl.
  - now apply rel_ret.
  - eapply rel_bind;
      [apply (rel_alloc (HospitalObj (Hospital.new IsSupervisor nm cap))); simpl;
       auto with reloc|].
    intros cl Fc. rewrite record_set_sh. apply IH. now apply fresh_record_set.
Qed.

Lemma rel_link_dicts projectDict supervisorDict projectSupervisors :
  Forall (fresh_entry (List.length c)) projectDict ->
  Forall (fresh_entry (List.length c)) supervisorDict ->
  rel (fun u : unit => u) (fun _ => True)
      (link_dicts projectDict supervisorDict projectSupervisors)
      (link_dicts (map (sh_entry (List.length c) (List.length X)) projectDict)
                  (map (sh_entry (List.length c) (List.length X)) supervisorDict)
                  projectSupervisors).
Proof.
  intros Fp Fs. unfold link_dicts.
  rewrite <- (map_id projectSupervisors) at 2.
  apply (rel_forEach (fun e : string * string => e) (fun _ => True));
    [apply Forall_forall; auto|].
  intros entry _. rewrite !dict_get_sh.
  apply rel_setSupervisor; now apply fresh_dict_get.
Qed.

Lemma rel_SA_makePlayers studentPrefs supervisorPrefs projectSupervisors
    projectCapacities supervisorCapacities :
  rel (fun r => (map shv (fst (fst r)), map shv (snd (fst r)), map shv (snd r)))
      (fun _ => True)
      (SA_makePlayers studentPrefs supervisorPrefs projectSupervisors projectCapacities
         supervisorCapacities)
      (SA_makePlayers studentPrefs supervisorPrefs projectSupervisors projectCapacities
         supervisorCapacities).
Proof.
  unfold SA_makePlayers.
  eapply rel_bind; [apply (rel_make_dict _ []); constructor|]. intros sd Fs.
  eapply rel_bind; [apply (rel_make_capacitated_dict _ _ _ []); constructor|]. intros pd Fp.
  eapply rel_bind; [apply (rel_make_supervisor_dict _ []); constructor|]. intros ud Fu.
  eapply rel_bind; [now apply rel_link_dicts|]. intros _ _.
  eapply rel_bind; [now apply rel_set_dict_prefs|]. intros _ _.
  eapply rel_bind; [now apply rel_set_dict_prefs|]. intros _ _.
  apply rel_ret; [|exact I]. simpl. now rewrite !map_snd_sh.
Qed.

Lemma rel_run_SA fuel studentPrefs supervisorPrefs projectSupervisors projectCapacities
    supervisorCapacities clean optimal :
  rel (fun r : list (string * list string) => r) (fun _ => True)
      (run_SA fuel studentPrefs supervisorPrefs projectSupervisors projectCapacities
         supervisorCapacities clean optimal)
      (run_SA fuel studentPrefs supervisorPrefs projectSupervisors projectCapacities
         supervisorCapacities clean optimal).
Proof.
  unfold run_SA, StudentAllocation_createFromDictionaries.
  eapply rel_bind.
  - eapply rel_bind; [apply rel_SA_makePlayers|]. intros players _. simpl.
    apply rel_StudentAllocation_new.
  - intros gw Fg. simpl. eapply rel_bind; [now apply rel_StudentAllocation_solve|].
    intros g' _. apply rel_multiple_matching_record.
Qed.

End Relocation_run.

Lemma sh_zero n v : sh n 0 v = v.
Proof.
  destruct v as [| |a]; simpl; try reflexivity.
  destruct (Nat.ltb a n); [reflexivity|]. f_equal. lia.
Qed.

Lemma map_sh_zero n l : map (sh n 0) l = l.
Proof. rewrite <- (map_id l) at 2. apply map_ext. apply sh_zero. Qed.

Lemma sh_obj_zero n o : sh_obj n 0 o = o.
Proof.
  destruct o as [[nm pr m pn op]|[k nm cp oc pr pn op m s ps]];
    unfold sh_obj, sh_player, sh_hospital; simpl;
    rewrite ?map_sh_zero, ?sh_zero; destruct op; simpl; now rewrite ?map_sh_zero.
Qed.

Lemma stable_nothing_relocated (c : heap) o :
  In o c -> sh_obj (List.length c) (List.length (@nil obj)) o = o.
Proof. intros _. apply sh_obj_zero. Qed.

Lemma stable_closed (c X : heap) :
  heap_closed c = true ->
  forall o, In o c -> sh_obj (List.length c) (List.length X) o = o.
Proof.
  intros Hc o Ho. apply sh_obj_caller. unfold heap_closed in Hc.
  rewrite forallb_forall in Hc. now apply Hc.
Qed.

Lemma heap_rel_start (c X : heap) : heap_rel c X c (c ++ X).
Proof. exists []. simpl. rewrite !app_nil_r. repeat split. constructor. Qed.

(** Code related to itself when nothing is relocated keeps the caller's cells. *)
Lemma rel_preserves_caller {A : Type} (c : heap) (shA : A -> A) (frA : A -> Prop)
    (m1 m2 : M A) :
  rel_run c [] shA frA m1 m2 -> preserves_caller m1 c.
Proof.
  intros R. pose proof (heap_rel_start c []) as S. rewrite app_nil_r in S.
  destruct (R c c S) as [(G & E1 & _ & FG) _]. exists G. auto.
Qed.

Lemma rel_result_fresh {A : Type} (c : heap) (shA : A -> A) (frA : A -> Prop)
    (m1 m2 : M A) g h' :
  rel_run c [] shA frA m1 m2 -> m1 c = (Ok g, h') -> frA g.
Proof.
  intros R E. pose proof (heap_rel_start c []) as S. rewrite app_nil_r in S.
  destruct (R c c S) as [_ O]. rewrite E in O. simpl in O.
  destruct (fst (m2 c)); try contradiction. tauto.
Qed.

(** Code related to itself under every relocation of its own objects
    gives the same outcome when it is run again. *)
Lemma rel_repeatable {A : Type} (c : heap) (m : M A) :
  (forall X, rel_run c X (fun x : A => x) (fun _ => True) m m) -> repeatable m c.
Proof.
  intros R. destruct (rel_preserves_caller c _ _ m m (R [])) as (G & E & _).
  unfold repeatable. rewrite E.
  destruct (R G c (c ++ G) (heap_rel_start c G)) as [_ O].
  destruct (fst (m c)), (fst (m (c ++ G))); try contradiction; try reflexivity.
  - destruct O as [-> _]. reflexivity.
  - now subst.
Qed.

(** C9, for each of the four games [StableMarriage], [StableRoommates],
    [HospitalResident] and [StudentAllocation]: constructing a game from
    the caller's entities (or from dictionaries) and solving it leaves
    every cell of the caller's heap as it was, whatever the outcome; the
    constructor returns a game whose players are new objects, and the
    new objects refer to new objects only (deep copy); and running
    construct-solve-toRecord a second time, on the same entities or on
    the same dictionaries, has the same outcome as the first time. *)
Theorem C9_caller_state_kept_and_runs_repeatable :
  (forall c suitors reviewers fuel optimal suitorPrefs reviewerPrefs,
     copies fresh_SM (StableMarriage_new suitors reviewers) c
     /\ preserves_caller (SM_new_and_solve fuel suitors reviewers optimal) c
     /\ preserves_caller (run_SM fuel suitorPrefs reviewerPrefs optimal) c
     /\ (heap_closed c = true ->
         forallb (callerb (List.length c)) (suitors ++ reviewers) = true ->
         repeatable (SM_new_and_solve fuel suitors reviewers optimal) c)
     /\ (heap_closed c = true ->
         repeatable (run_SM fuel suitorPrefs reviewerPrefs optimal) c))
  /\ (forall c players fuel playerPrefs,
     copies fresh_SR (StableRoommates_new players) c
     /\ preserves_caller (SR_new_and_solve fuel players) c
     /\ preserves_caller (run_SR fuel playerPrefs) c
     /\ (heap_closed c = true ->
         forallb (callerb (List.length c)) players = true ->
         repeatable (SR_new_and_solve fuel players) c)
     /\ (heap_closed c = true -> repeatable (run_SR fuel playerPrefs) c))
  /\ (forall c residents hospitals clean fuel optimal residentPrefs hospitalPrefs capacities,
     copies (fun n gw => fresh_HR n (fst gw)) (HospitalResident_new residents hospitals clean) c
     /\ preserves_caller (HR_new_and_solve fuel residents hospitals clean optimal) c
     /\ preserves_caller
          (run_HR fuel residentPrefs hospitalPrefs capacities clean optimal) c
     /\ (heap_closed c = true ->
         forallb (callerb (List.length c)) (residents ++ hospitals) = true ->
         repeatable (HR_new_and_solve fuel residents hospitals clean optimal) c)
     /\ (heap_closed c = true ->
         repeatable (run_HR fuel residentPrefs hospitalPrefs capacities clean optimal) c))
  /\ (forall c students projects supervisors clean fuel optimal studentPrefs supervisorPrefs
            projectSupervisors projectCapacities supervisorCapacities,
     copies (fun n gw => fresh_SA n (fst gw))
       (StudentAllocation_new students projects supervisors clean) c
     /\ preserves_caller
          (SA_new_and_solve fuel students projects supervisors clean optimal) c
     /\ preserves_caller
          (run_SA fuel studentPrefs supervisorPrefs projectSupervisors projectCapacities
             supervisorCapacities clean optimal) c
     /\ (heap_closed c = true ->
         forallb (callerb (List.length c)) (students ++ projects ++ supervisors) = true ->
         repeatable (SA_new_and_solve fuel students projects supervisors clean optimal) c)
     /\ (heap_closed c = true ->
         repeatable
           (run_SA fuel studentPrefs supervisorPrefs projectSupervisors projectCapacities
              supervisorCapacities clean optimal) c)).
Proof.
  split; [|split; [|split]].
  - intros c suitors reviewers fuel optimal suitorPrefs reviewerPrefs.
    pose proof (stable_nothing_relocated c) as S0.
    split; [split|split; [|split; [|split]]].
    + eapply rel_preserves_caller. now apply rel_StableMarriage_new.
    + intros g h' E. eapply rel_result_fresh; [|exact E].
      now apply rel_StableMarriage_new.
    + eapply rel_preserves_caller. now apply rel_SM_new_and_solve.
    + eapply rel_preserves_caller. now apply rel_run_SM.
    + intros Hc Ha. apply rel_repeatable. intros X.
      rewrite forallb_app in Ha. apply andb_true_iff in Ha as [Hs Hr].
      pose proof (rel_SM_new_and_solve c X (stable_closed c X Hc) fuel suitors reviewers
                    optimal) as R.
      now rewrite !map_sh_caller in R.
    + intros Hc. apply rel_repeatable. intros X. apply rel_run_SM.
      now apply stable_closed.
  - intros c players fuel playerPrefs.
    pose proof (stable_nothing_relocated c) as S0.
    split; [split|split; [|split; [|split]]].
    + eapply rel_preserves_caller. now apply rel_StableRoommates_new.
    + intros g h' E. eapply rel_result_fresh; [|exact E].
      now apply rel_StableRoommates_new.
    + eapply rel_preserves_caller. now apply rel_SR_new_and_solve.
    + eapply rel_preserves_caller. now apply rel_run_SR.
    + intros Hc Ha. apply rel_repeatable. intros X.
      pose proof (rel_SR_new_and_solve c X (stable_closed c X Hc) fuel players) as R.
      now rewrite !map_sh_caller in R.
    + intros Hc. apply rel_repeatable. intros X. apply rel_run_SR.
      now apply stable_closed.
  - intros c residents hospitals clean fuel optimal residentPrefs hospitalPrefs capacities.
    pose proof (stable_nothing_relocated c) as S0.
    split; [split|split; [|split; [|split]]].
    + eapply rel_preserves_caller. now apply rel_HospitalResident_new.
    + intros g h' E.
      apply (rel_result_fresh c _ (fun r => fresh_HR (List.length c) (fst r)) _ _ g h'
               (rel_HospitalResident_new c [] S0 residents hospitals clean) E).
    + eapply rel_preserves_caller. now apply rel_HR_new_and_solve.
    + eapply rel_preserves_caller. now apply rel_run_HR.
    + intros Hc Ha. apply rel_repeatable. intros X.
      rewrite forallb_app in Ha. apply andb_true_iff in Ha as [Hs Hr].
      pose proof (rel_HR_new_and_solve c X (stable_closed c X Hc) fuel residents hospitals
                    clean optimal) as R.
      now rewrite !map_sh_caller in R.
    + intros Hc. apply rel_repeatable. intros X. apply rel_run_HR.
      now apply stable_closed.
  - intros c students projects supervisors clean fuel optimal studentPrefs supervisorPrefs
      projectSupervisors projectCapacities supervisorCapacities.
    pose proof (stable_nothing_relocated c) as S0.
    split; [split|split; [|split; [|split]]].
    + eapply rel_preserves_caller. now apply rel_StudentAllocation_new.
    + intros g h' E.
      apply (rel_result_fresh c _ (fun r => fresh_SA (List.length c) (fst r)) _ _ g h'
               (rel_StudentAllocation_new c [] S0 students projects supervisors clean) E).
    + eapply rel_preserves_caller. now apply rel_SA_new_and_solve.
    + eapply rel_preserves_caller. now apply rel_run_SA.
    + intros Hc Ha. apply rel_repeatable. intros X.
      rewrite !forallb_app in Ha. apply andb_true_iff in Ha as [Hs Hr].
      apply andb_true_iff in Hr as [Hp Hu].
      pose proof (rel_SA_new_and_solve c X (stable_closed c X Hc) fuel students projects
                    supervisors clean optimal) as R.
      now rewrite !map_sh_caller in R.
    + intros Hc. apply rel_repeatable. intros X. apply rel_run_SA.
      now apply stable_closed.
Qed.

(** The README entities, built by the caller, then passed twice to
    [new StableMarriage(..).solve().toRecord()]. *)
Lemma C9_repeatable_witness :
  heap_closed sm_caller_heap = true
  /\ forallb (callerb (List.length sm_caller_heap))
       ([ref 0; ref 1; ref 2] ++ [ref 3; ref 4; ref 5]) = true
  /\ repeatable
       (SM_new_and_solve 10 [ref 0; ref 1; ref 2] [ref 3; ref 4; ref 5] suitor_optimal)
       sm_caller_heap.
Proof.
  split; [vm_compute; reflexivity|]. split; [vm_compute; reflexivity|].
  apply (proj1 C9_caller_state_kept_and_runs_repeatable sm_caller_heap
           [ref 0; ref 1; ref 2] [ref 3; ref 4; ref 5] 10 suitor_optimal [] []);
    vm_compute; reflexivity.
Defined.

(* ================================================================== *)
(** ** Stable Marriage: the proposal loop *)
(* ================================================================== *)

(** *** Positions in a ranking *)

Lemma indexOf_In (l : list value) (v : value) : (0 <= indexOf l v)%Z -> In v l.
Proof.
  intros H. destruct (in_dec (fun a b => match value_eqb_spec a b with
                                          | ReflectT _ e => left e
                                          | ReflectF _ n => right n end) v l) as [I|N]; auto.
  rewrite (indexOf_absent l v N) in H. lia.
Qed.

Lemma indexOf_inj (l : list value) (a b : value) :
  In a l -> indexOf l a = indexOf l b -> a = b.
Proof.
  induction l as [|x l IH]; [intros []|]. intros Ha. rewrite !indexOf_cons.
  destruct (value_eqb_spec x a) as [Ea|Na]; destruct (value_eqb_spec x b) as [Eb|Nb];
    try congruence.
  - destruct (includes l b) eqn:Ib; [|lia].
    apply includes_In in Ib. pose proof (indexOf_nonneg l b Ib). lia.
  - destruct Ha as [Ha|Ha]; [congruence|]. apply includes_In in Ha as Ia. rewrite Ia.
    pose proof (indexOf_nonneg l a Ha). lia.
  - destruct Ha as [Ha|Ha]; [congruence|]. apply includes_In in Ha as Ia. rewrite Ia.
    destruct (includes l b) eqn:Ib.
    + intros H. apply IH; auto. lia.
    + pose proof (indexOf_nonneg l a Ha). lia.
Qed.

(** Deleting entries keeps the relative order of those that remain. *)
Lemma indexOf_filter_lt (f : value -> bool) (l : list value) (a b : value) :
  In a (filter f l) -> In b (filter f l) ->
  ((indexOf (filter f l) a < indexOf (filter f l) b)%Z <-> (indexOf l a < indexOf l b)%Z).
Proof.
  induction l as [|x l IH]; [intros []|]. cbn [filter].
  destruct (f x) eqn:Fx.
  - intros Ha Hb. rewrite !(indexOf_cons x).
    destruct (value_eqb_spec x a) as [Ea|Na]; destruct (value_eqb_spec x b) as [Eb|Nb].
    + tauto.
    + destruct Hb as [Hb|Hb]; [congruence|].
      apply includes_In in Hb as I1. rewrite I1.
      apply filter_In in Hb as Hb'. destruct Hb' as [Hb' _].
      apply includes_In in Hb' as I2. rewrite I2.
      pose proof (indexOf_nonneg _ _ Hb). pose proof (indexOf_nonneg _ _ Hb'). lia.
    + destruct Ha as [Ha|Ha]; [congruence|].
      apply includes_In in Ha as I1. rewrite I1.
      apply filter_In in Ha as Ha'. destruct Ha' as [Ha' _].
      apply includes_In in Ha' as I2. rewrite I2.
      pose proof (indexOf_nonneg _ _ Ha). pose proof (indexOf_nonneg _ _ Ha'). lia.
    + destruct Ha as [Ha|Ha]; [congruence|]. destruct Hb as [Hb|Hb]; [congruence|].
      apply includes_In in Ha as I1. apply includes_In in Hb as I3. rewrite I1, I3.
      apply filter_In in Ha as Ha'. destruct Ha' as [Ha' _].
      apply filter_In in Hb as Hb'. destruct Hb' as [Hb' _].
      apply includes_In in Ha' as I2. apply includes_In in Hb' as I4. rewrite I2, I4.
      specialize (IH Ha Hb). lia.
  - intros Ha Hb. rewrite !(indexOf_cons x).
    apply filter_In in Ha as Ha'. destruct Ha' as [Ha' Fa].
    apply filter_In in Hb as Hb'. destruct Hb' as [Hb' Fb].
    destruct (value_eqb_spec x a) as [Ea|Na]; [congruence|].
    destruct (value_eqb_spec x b) as [Eb|Nb]; [congruence|].
    apply includes_In in Ha' as I2. apply includes_In in Hb' as I4. rewrite I2, I4.
    specialize (IH Ha Hb). lia.
Qed.

(** The entries after [a] are those of a later position. *)
Lemma slice_after_In (l : list value) (a x : value) :
  NoDup l -> In a l ->
  (In x (slice l (indexOf l a + 1)) <-> In x l /\ (indexOf l a < indexOf l x)%Z).
Proof.
  induction l as [|y l IH]; [intros _ []|]. intros ND Ha.
  apply NoDup_cons_iff in ND. destruct ND as [Hy ND].
  rewrite !(indexOf_cons y). unfold slice.
  destruct (value_eqb_spec y a) as [Ea|Na].
  - subst y. change (Z.to_nat (0 + 1)) with 1. cbn [skipn].
    destruct (value_eqb_spec a x) as [Ex|Nx].
    + subst x. split; [intros H; contradiction|intros [_ H]; lia].
    + split.
      * intros H. split; [now right|]. apply includes_In in H as I. rewrite I.
        pose proof (indexOf_nonneg l x H). lia.
      * intros [[H|H] _]; [congruence|exact H].
  - destruct Ha as [Ha|Ha]; [congruence|]. apply includes_In in Ha as Ia. rewrite Ia.
    pose proof (indexOf_nonneg l a Ha) as Hnn.
    replace (Z.to_nat (1 + indexOf l a + 1)) with (S (Z.to_nat (indexOf l a + 1))) by lia.
    cbn [skipn]. fold (slice l (indexOf l a + 1)). rewrite (IH ND Ha).
    destruct (value_eqb_spec y x) as [Ex|Nx].
    + subst y. split; [intros [H _]; contradiction|intros [_ H]; lia].
    + split.
      * intros [H1 H2]. split; [now right|]. apply includes_In in H1 as I. rewrite I. lia.
      * intros [[H|H] H2]; [congruence|]. split; [exact H|].
        apply includes_In in H as Ix. rewrite Ix in H2. lia.
Qed.

Lemma nil_no_members {A : Type} (l : list A) : (forall x, ~ In x l) -> l = [].
Proof. destruct l as [|x l]; auto. intros H. exfalso. apply (H x). now left. Qed.

Lemma at_index_0_indexOf (l : list value) (x : value) :
  In x l -> (indexOf l x = 0%Z <-> at_index l 0 = x).
Proof.
  destruct l as [|y l]; [intros []|]. intros H. rewrite indexOf_cons.
  change (at_index (y :: l) 0) with y.
  destruct (value_eqb_spec y x) as [E|N]; [tauto|].
  destruct H as [H|H]; [congruence|]. apply includes_In in H as I. rewrite I.
  pose proof (indexOf_nonneg l x H). split; [lia|congruence].
Qed.

Lemma remove_value_filter (x : value) (f : value -> bool) (l : list value) :
  remove_value x (filter f l) = filter (fun y => f y && negb (value_eqb y x)) l.
Proof.
  unfold remove_value. induction l as [|y l IH]; [reflexivity|]. cbn [filter].
  destruct (f y); cbn [filter andb]; [|exact IH].
  destruct (value_eqb y x); cbn [negb]; now rewrite IH.
Qed.

Lemma remove_all_filter (d : list value) (f : value -> bool) (l : list value) :
  remove_all d (filter f l) = filter (fun y => f y && negb (includes d y)) l.
Proof.
  unfold remove_all. induction l as [|y l IH]; [reflexivity|]. cbn [filter].
  destruct (f y); cbn [filter andb]; [|exact IH].
  destruct (includes d y); cbn [negb]; now rewrite IH.
Qed.

(** *** Counting *)

Lemma NoDup_map_on {A B : Type} (f : A -> B) (l : list A) :
  NoDup l -> (forall x y, In x l -> In y l -> f x = f y -> x = y) -> NoDup (map f l).
Proof.
  induction 1 as [|x l Hx ND IH]; intros Inj; simpl; constructor.
  - intros H. apply in_map_iff in H. destruct H as [y [E Hy]].
    apply Inj in E; [|now right|now left]. subst. contradiction.
  - apply IH. intros a b Ha Hb. apply Inj; now right.
Qed.

Lemma list_sum_le {A : Type} (f g : A -> nat) (l : list A) :
  (forall x, In x l -> f x <= g x) -> list_sum (map f l) <= list_sum (map g l).
Proof.
  induction l as [|x l IH]; intros H; simpl; [lia|].
  pose proof (H x (or_introl eq_refl)). 
  assert (list_sum (map f l) <= list_sum (map g l)) by (apply IH; intros; apply H; now right).
  lia.
Qed.

Lemma list_sum_lt {A : Type} (f g : A -> nat) (l : list A) (r : A) :
  (forall x, In x l -> f x <= g x) -> In r l -> f r < g r ->
  list_sum (map f l) < list_sum (map g l).
Proof.
  induction l as [|x l IH]; intros H Hr Hlt; [destruct Hr|]. simpl.
  pose proof (H x (or_introl eq_refl)).
  assert (Hle : list_sum (map f l) <= list_sum (map g l))
    by (apply list_sum_le; intros; apply H; now right).
  destruct Hr as [->|Hr]; [lia|].
  assert (list_sum (map f l) < list_sum (map g l)) by (apply IH; auto; intros; apply H; now right).
  lia.
Qed.

(** *** The entity methods on single-match players, as total operations *)

Lemma is_player_obj (h : heap) (v : value) :
  is_player h v = true ->
  exists a p, v = ref a /\ nth_error h a = Some (PlayerObj p).
Proof.
  unfold is_player. destruct v as [| |a]; simpl; try discriminate.
  destruct (nth_error h a) as [[p|x]|] eqn:E; try discriminate. eauto.
Qed.

Ltac player_views a En :=
  repeat split; intros v;
  unfold pmatching, pprefs, is_player, porig;
  (destruct (value_eqb_spec v (ref a)) as [->|N];
   [rewrite (obj_at_upd_same _ _ _ _ En); simpl; rewrite ?En; reflexivity
   |rewrite obj_at_upd_other; auto]).

Lemma unmatch_total (a arg : value) (h : heap) :
  is_player h a = true ->
  exists h', _unmatch a arg h = (Ok tt, h')
    /\ (forall v, pmatching h' v = if value_eqb v a then null else pmatching h v)
    /\ (forall v, pprefs h' v = pprefs h v)
    /\ (forall v, is_player h' v = is_player h v)
    /\ (forall v, porig h' v = porig h v).
Proof.
  intros H. destruct (is_player_obj _ _ H) as [n [p [-> En]]].
  eexists. split; [apply (unmatch_player _ _ _ _ En)|]. player_views n En.
Qed.

Lemma match_total (a b : value) (h : heap) :
  is_player h a = true ->
  exists h', _match a b h = (Ok tt, h')
    /\ (forall v, pmatching h' v = if value_eqb v a then b else pmatching h v)
    /\ (forall v, pprefs h' v = pprefs h v)
    /\ (forall v, is_player h' v = is_player h v)
    /\ (forall v, porig h' v = porig h v).
Proof.
  intros H. destruct (is_player_obj _ _ H) as [n [p [-> En]]].
  eexists. split; [apply (match_player _ _ _ _ En)|]. player_views n En.
Qed.

Lemma forget_total (a b : value) (h : heap) :
  is_player h a = true ->
  exists h', _forget a b h = (Ok tt, h')
    /\ (forall v, pmatching h' v = pmatching h v)
    /\ (forall v, pprefs h' v
                  = if value_eqb v a then remove_value b (pprefs h v) else pprefs h v)
    /\ (forall v, is_player h' v = is_player h v)
    /\ (forall v, porig h' v = porig h v).
Proof.
  intros H. destruct (is_player_obj _ _ H) as [n [p [-> En]]].
  eexists. split; [apply (forget_player _ _ _ _ En)|]. player_views n En.
Qed.

Lemma deletePair_total (a b : value) (h : heap) :
  is_player h a = true -> is_player h b = true ->
  exists h', deletePair a b h = (Ok tt, h')
    /\ (forall v, pmatching h' v = pmatching h v)
    /\ (forall v, pprefs h' v
                  = if value_eqb v b
                    then remove_value a (if value_eqb v a then remove_value b (pprefs h v)
                                         else pprefs h v)
                    else if value_eqb v a then remove_value b (pprefs h v) else pprefs h v)
    /\ (forall v, is_player h' v = is_player h v)
    /\ (forall v, porig h' v = porig h v).
Proof.
  intros Ha Hb. destruct (forget_total a b h Ha) as [h1 [E1 [M1 [P1 [I1 O1]]]]].
  assert (Hb1 : is_player h1 b = true) by now rewrite I1.
  destruct (forget_total b a h1 Hb1) as [h2 [E2 [M2 [P2 [I2 O2]]]]].
  exists h2. split; [unfold deletePair; now rewrite (bind_ok _ _ _ _ _ E1)|].
  repeat split; intros v.
  - now rewrite M2, M1.
  - now rewrite P2, P1.
  - now rewrite I2, I1.
  - now rewrite O2, O1.
Qed.

(** The [for] over [reviewer.getSuccessors()]: the reviewer loses its
    successors and every successor loses the reviewer. *)
Lemma delete_successors_total (r : value) (succs : list value) :
  forall h,
    is_player h r = true -> (forall s, In s succs -> is_player h s = true) ->
    exists h', forEach succs (fun successor => deletePair successor r) h = (Ok tt, h')
      /\ (forall v, pmatching h' v = pmatching h v)
      /\ (forall v, pprefs h' v
                    = if value_eqb v r then remove_all succs (pprefs h v)
                      else if includes succs v then remove_value r (pprefs h v)
                      else pprefs h v)
      /\ (forall v, is_player h' v = is_player h v)
      /\ (forall v, porig h' v = porig h v).
Proof.
  induction succs as [|s rest IH]; intros h Hr Hs; simpl.
  - exists h. split; [reflexivity|]. repeat split; auto.
    intros v. rewrite remove_all_nil. now destruct (value_eqb v r).
  - destruct (deletePair_total s r h (Hs s (or_introl eq_refl)) Hr)
      as [h1 [E1 [M1 [P1 [I1 O1]]]]].
    destruct (IH h1) as [h2 [E2 [M2 [P2 [I2 O2]]]]].
    { now rewrite I1. }
    { intros x Hx. rewrite I1. apply Hs. now right. }
    exists h2. split; [now rewrite (bind_ok _ _ _ _ _ E1)|].
    repeat split; intros v.
    + now rewrite M2, M1.
    + rewrite P2, P1.
      change (includes (s :: rest) v) with (value_eqb v s || includes rest v).
      destruct (value_eqb_spec v r) as [->|Nr].
      * rewrite remove_all_cons. destruct (value_eqb_spec r s) as [->|Ns].
        -- now rewrite remove_value_idem.
        -- reflexivity.
      * destruct (value_eqb_spec v s) as [->|Ns]; simpl.
        -- destruct (includes rest s); [now rewrite remove_value_idem|reflexivity].
        -- reflexivity.
    + now rewrite I2, I1.
    + now rewrite O2, O1.
Qed.

Lemma filter_length_lt {A : Type} (f : A -> bool) (l : list A) (x : A) :
  In x l -> f x = false -> List.length (filter f l) < List.length l.
Proof.
  induction l as [|y l IH]; [intros []|]. intros [->|H] F; simpl.
  - rewrite F. pose proof (filter_length_le f l). lia.
  - destruct (f y); simpl; [apply IH in H; auto; lia|].
    pose proof (filter_length_le f l). lia.
Qed.

Section SM_loop.

Variables P Q : list value.
Variable O : value -> list value.
Hypothesis static : SM_static P Q O.

Lemma SM_disjoint (p q : value) : In p P -> In q Q -> p <> q.
Proof.
  destruct static as [ND _]. intros Hp Hq ->.
  apply NoDup_app_remove_l in ND as NDQ.
  revert Hp Hq ND. clear. induction P as [|x l IH]; [intros []|].
  intros [->|Hp] Hq ND; simpl in ND; apply NoDup_cons_iff in ND; destruct ND as [N ND].
  - apply N. apply in_or_app. now right.
  - now apply IH.
Qed.

Lemma SM_NoDup_P : NoDup P.
Proof. destruct static as [ND _]. now apply NoDup_app_remove_r in ND. Qed.

Lemma SM_NoDup_Q : NoDup Q.
Proof. destruct static as [ND _]. now apply NoDup_app_remove_l in ND. Qed.

Lemma SM_inv_NoDup_prefs (h : heap) (free : list value) (v : value) :
  SM_inv P Q O h free -> In v (P ++ Q) -> NoDup (pprefs h v).
Proof.
  intros [I1 _] Hv. destruct (I1 v Hv) as [_ [_ [f E]]]. rewrite E.
  apply NoDup_filter. destruct static as [_ [_ [N _]]]. now apply N.
Qed.

(** A proposer that waits still has somebody to propose to: otherwise
    every member of the other party would hold a different proposer,
    none of them the one that waits. *)
Lemma SM_free_has_favourite (h : heap) (free : list value) (s : value) :
  SM_inv P Q O h free -> In s free -> pprefs h s <> [].
Proof.
  intros Inv Hs E.
  destruct Inv as [I1 [I2 [I3 [I4 [I5 [I6 [I7 [I8 [I9 I10]]]]]]]]].
  destruct static as [ND [Len [NO Full]]].
  pose proof (I6 s Hs) as HsP.
  assert (Hnull : pmatching h s = null) by (now apply I7).
  assert (Hq : forall q, In q Q ->
            pmatching h q <> null /\ In (pmatching h q) P
            /\ pmatching h (pmatching h q) = q /\ pmatching h q <> s).
  { intros q Hq. destruct (I10 s q HsP Hq) as [Hn _]; [rewrite E; intros []|].
    destruct (I9 q Hq Hn) as [A [B _]]. repeat split; auto.
    intros Es. rewrite Es, Hnull in B. subst q.
    destruct (I1 null) as [Pl _]; [apply in_or_app; now right|]. discriminate. }
  assert (NDm : NoDup (map (pmatching h) Q)).
  { apply NoDup_map_on; [apply SM_NoDup_Q|]. intros x y Hx Hy Exy.
    destruct (Hq x Hx) as [_ [_ [Bx _]]]. destruct (Hq y Hy) as [_ [_ [By _]]].
    rewrite <- Bx, <- By. now rewrite Exy. }
  assert (Incl : incl (map (pmatching h) Q) (remove_value s P)).
  { intros x Hx. apply in_map_iff in Hx. destruct Hx as [q [<- Hq']].
    destruct (Hq q Hq') as [_ [A [_ B]]]. apply remove_value_In. auto. }
  pose proof (NoDup_incl_length NDm Incl) as L. rewrite length_map in L.
  pose proof (remove_value_length_In s P HsP). lia.
Qed.

(** One iteration, on the views of the heap: the proposer [s] is taken
    from the work list, the first entry [r] of its list drops whoever it
    held and holds [s], and [r] and its successors forget each other. *)
Lemma SM_inv_step (h h' : heap) (fr : list value) (s : value) :
  SM_inv P Q O h (fr ++ [s]) ->
  let r := at_index (pprefs h s) 0 in
  let m := pmatching h r in
  let succs := slice (pprefs h r) (indexOf (pprefs h r) s + 1) in
  (forall v, pmatching h' v
             = if value_eqb v r then s
               else if value_eqb v s then r
               else if value_eqb v m then null else pmatching h v) ->
  (forall v, pprefs h' v
             = if value_eqb v r then remove_all succs (pprefs h v)
               else if includes succs v then remove_value r (pprefs h v)
               else pprefs h v) ->
  (forall v, is_player h' v = is_player h v) ->
  (forall v, porig h' v = porig h v) ->
  SM_inv P Q O h' (if truthy m then fr ++ [m] else fr)
  /\ SM_measure Q h' (if truthy m then fr ++ [m] else fr) < SM_measure Q h (fr ++ [s]).
Proof.
  intros Inv r m succs HM HP HI HO.
  assert (Hsfree : In s (fr ++ [s])) by (apply in_or_app; right; now left).
  pose proof (SM_free_has_favourite h (fr ++ [s]) s Inv Hsfree) as Hne.
  pose proof (fun v Hv => SM_inv_NoDup_prefs h _ v Inv Hv) as NDprefs.
  destruct Inv as [I1 [I2 [I3 [I4 [I5 [I6 [I7 [I8 [I9 I10]]]]]]]]].
  assert (HsP : In s P) by (apply I6; apply in_or_app; right; now left).
  assert (Hsnull : pmatching h s = null)
    by (apply I7; auto; apply in_or_app; right; now left).
  assert (Hrs : In r (pprefs h s)) by (now apply at_index_0_In).
  assert (HrQ : In r Q) by (now apply (I2 s HsP)).
  assert (Hsr : In s (pprefs h r)) by (apply (I4 s r HsP HrQ); exact Hrs).
  assert (Nsr : s <> r) by (now apply SM_disjoint).
  assert (NDr : NoDup (pprefs h r)) by (apply NDprefs; apply in_or_app; now right).
  assert (HPl : forall v, In v (P ++ Q) -> v <> null).
  { intros v Hv ->. destruct (I1 null Hv) as [Pl _]. discriminate. }
  assert (HsuccP : incl succs P).
  { intros x Hx. apply (I3 r HrQ). eapply slice_incl; eauto. }
  assert (Hsuccs : forall x, In x succs
            <-> In x (pprefs h r) /\ (indexOf (pprefs h r) s < indexOf (pprefs h r) x)%Z).
  { intros x. now apply slice_after_In. }
  assert (Hs_succ : ~ In s succs) by (rewrite Hsuccs; lia).
  assert (HQ_succ : forall q, In q Q -> includes succs q = false).
  { intros q Hq. apply includes_not_In. intros Hin. apply HsuccP in Hin.
    now apply (SM_disjoint q q). }
  (* whoever [r] held *)
  assert (Hm : m = null
               \/ (In m P /\ pmatching h m = r /\ In m succs /\ m <> s /\ m <> r
                   /\ truthy m = true)).
  { destruct (value_eqb_spec m null) as [E|N]; [now left|right].
    destruct (I9 r HrQ N) as [A [B [C D]]]. fold m in A, B, C, D.
    assert (Nms : m <> s).
    { intros Ems. rewrite Ems, Hsnull in B.
      apply (HPl r); [apply in_or_app; now right|congruence]. }
    repeat split; auto.
    - apply Hsuccs. split; [exact C|].
      assert (Hn : ~ In s (slice (pprefs h r) (indexOf (pprefs h r) m + 1)))
        by (rewrite D; intros []).
      rewrite (slice_after_In _ m s NDr C) in Hn.
      assert (indexOf (pprefs h r) m <> indexOf (pprefs h r) s).
      { intros Ei. apply Nms. now apply (indexOf_inj (pprefs h r)). }
      assert (~ (indexOf (pprefs h r) m < indexOf (pprefs h r) s)%Z) by tauto.
      lia.
    - intros Emr. apply (SM_disjoint m r); auto.
    - destruct (I1 m (in_or_app _ _ _ (or_introl A))) as [Pl _].
      apply is_player_ref in Pl. destruct Pl as [a Ea]. now rewrite Ea. }
  assert (Hfree' : forall x, In x (if truthy m then fr ++ [m] else fr)
                             <-> In x fr \/ (x = m /\ m <> null)).
  { intros x. destruct Hm as [Hm|[_ [_ [_ [_ [_ T]]]]]].
    - rewrite Hm. simpl. split; [auto|]. intros [H|[_ H]]; [auto|congruence].
    - rewrite T, in_app_iff. simpl. split.
      + intros [H|[H|[]]]; [auto|]. right. split; [auto|].
        intros E. rewrite E in T. discriminate.
      + intros [H|[H _]]; auto. }
  assert (NDfr : NoDup fr /\ ~ In s fr).
  { apply NoDup_remove with (l' := []) in I5. rewrite app_nil_r in I5. exact I5. }
  destruct NDfr as [NDfr Nsfr].
  (* the new views on the two parties *)
  assert (HMP : forall p, In p P ->
            pmatching h' p = if value_eqb p s then r
                             else if value_eqb p m then null else pmatching h p).
  { intros p Hp. rewrite HM. destruct (value_eqb_spec p r) as [E|N]; auto.
    subst p. exfalso. now apply (SM_disjoint r r). }
  assert (HMQ : forall q, In q Q ->
            pmatching h' q = if value_eqb q r then s else pmatching h q).
  { intros q Hq. rewrite HM. destruct (value_eqb_spec q r) as [E|N]; auto.
    destruct (value_eqb_spec q s) as [E|N2]; [subst q; exfalso; now apply (SM_disjoint s s)|].
    destruct (value_eqb_spec q m) as [E|N3]; auto.
    destruct Hm as [Hm|[Hm _]].
    - exfalso. apply (HPl q); [apply in_or_app; now right|congruence].
    - subst q. exfalso. now apply (SM_disjoint m m). }
  assert (HPP : forall p, In p P ->
            pprefs h' p = if includes succs p then remove_value r (pprefs h p)
                          else pprefs h p).
  { intros p Hp. rewrite HP. destruct (value_eqb_spec p r) as [E|N]; auto.
    subst p. exfalso. now apply (SM_disjoint r r). }
  assert (HPQ : forall q, In q Q ->
            pprefs h' q = if value_eqb q r then remove_all succs (pprefs h q)
                          else pprefs h q).
  { intros q Hq. rewrite HP. destruct (value_eqb_spec q r) as [E|N]; auto.
    now rewrite (HQ_succ q Hq). }
  assert (HinP : forall p q, In p P -> In q (pprefs h' p)
                   <-> In q (pprefs h p) /\ ~ (q = r /\ In p succs)).
  { intros p q Hp. rewrite (HPP p Hp). destruct (includes succs p) eqn:Ep.
    - apply includes_In in Ep. rewrite remove_value_In. tauto.
    - apply includes_not_In in Ep. tauto. }
  assert (HinQ : forall q p, In q Q -> In p (pprefs h' q)
                   <-> In p (pprefs h q) /\ ~ (q = r /\ In p succs)).
  { intros q p Hq. rewrite (HPQ q Hq). destruct (value_eqb_spec q r) as [->|N].
    - rewrite remove_all_In. tauto.
    - tauto. }
  split.
  - (* the invariant *)
    split; [|split; [|split; [|split; [|split; [|split; [|split; [|split; [|split]]]]]]]].
    + intros v Hv. destruct (I1 v Hv) as [A [B [f C]]].
      rewrite HI, HO. split; [exact A|]. split; [exact B|].
      rewrite HP, C. destruct (value_eqb v r).
      * eexists. apply remove_all_filter.
      * destruct (includes succs v); [eexists; apply remove_value_filter|eauto].
    + intros p Hp x Hx. apply (HinP p x Hp) in Hx. now apply (I2 p Hp).
    + intros q Hq x Hx. apply (HinQ q x Hq) in Hx. now apply (I3 q Hq).
    + intros p q Hp Hq. rewrite (HinP p q Hp), (HinQ q p Hq), (I4 p q Hp Hq). tauto.
    + destruct Hm as [Hm|[Hm1 [Hm2 [_ [_ [_ T]]]]]].
      * rewrite Hm. simpl. exact NDfr.
      * rewrite T. apply NoDup_app; [exact NDfr|repeat constructor; intros []|].
        intros x Hx [E|[]]. rewrite <- E in Hx.
        assert (Hnull : pmatching h m = null)
          by (apply I7; [exact Hm1|apply in_or_app; now left]).
        rewrite Hm2 in Hnull. apply (HPl r); [apply in_or_app; now right|exact Hnull].
    + intros x Hx. apply Hfree' in Hx. destruct Hx as [Hx|[-> Hn]].
      * apply I6. apply in_or_app. now left.
      * destruct Hm as [Hm|[Hm _]]; [congruence|exact Hm].
    + intros p Hp. rewrite Hfree', (HMP p Hp).
      destruct (value_eqb_spec p s) as [->|Ns].
      * split; [intros [H|[H _]]|intros H].
        -- contradiction.
        -- destruct Hm as [Hm|[_ [_ [_ [Hm _]]]]]; [|congruence].
           exfalso. apply (HPl s); [apply in_or_app; now left|congruence].
        -- exfalso. now apply (HPl r); [apply in_or_app; right|].
      * destruct (value_eqb_spec p m) as [->|Nm].
        -- split; [reflexivity|]. intros _. right. split; [reflexivity|].
           apply HPl. apply in_or_app. now left.
        -- rewrite <- (I7 p Hp), in_app_iff. simpl. intuition congruence.
    + intros p Hp. rewrite (HMP p Hp).
      destruct (value_eqb_spec p s) as [->|Ns].
      * intros _. rewrite (HMQ r HrQ), value_eqb_refl.
        assert (E : pprefs h' s = pprefs h s).
        { rewrite (HPP s HsP). apply includes_not_In in Hs_succ. now rewrite Hs_succ. }
        rewrite E. auto.
      * destruct (value_eqb_spec p m) as [->|Nm]; [congruence|].
        intros Hn. destruct (I8 p Hp Hn) as [A [B [C D]]].
        assert (Nqr : pmatching h p <> r).
        { intros E. rewrite E in B. fold m in B. congruence. }
        split; [exact A|]. split.
        { rewrite (HMQ _ A). destruct (value_eqb_spec (pmatching h p) r); [contradiction|auto]. }
        rewrite (HPP p Hp). destruct (includes succs p); [|auto].
        assert (Hf : negb (value_eqb (at_index (pprefs h p) 0) r) = true).
        { rewrite D. apply negb_true_iff. now apply value_eqb_neq. }
        split.
        -- intros E0. assert (Hin : In (pmatching h p) (remove_value r (pprefs h p))).
           { apply remove_value_In. split; [|exact Nqr]. rewrite <- D. now apply at_index_0_In. }
           rewrite E0 in Hin. destruct Hin.
        -- unfold remove_value. rewrite filter_head; auto.
    + intros q Hq. rewrite (HMQ q Hq), (HPQ q Hq).
      destruct (value_eqb_spec q r) as [->|Nr].
      * intros _. split; [exact HsP|]. split.
        { rewrite (HMP s HsP). now rewrite value_eqb_refl. }
        assert (Hin : In s (remove_all succs (pprefs h r)))
          by (apply remove_all_In; auto).
        split; [exact Hin|].
        apply nil_no_members. intros x Hx.
        assert (ND' : NoDup (remove_all succs (pprefs h r)))
          by (unfold remove_all; now apply NoDup_filter).
        apply (slice_after_In _ s x ND' Hin) in Hx. destruct Hx as [Hx1 Hx2].
        unfold remove_all in Hx2, Hin, Hx1.
        rewrite (indexOf_filter_lt _ _ s x Hin Hx1) in Hx2.
        apply filter_In in Hx1. destruct Hx1 as [Hx1 Hx3].
        apply negb_true_iff, includes_not_In in Hx3. apply Hx3. apply Hsuccs. auto.
      * intros Hn. destruct (I9 q Hq Hn) as [A [B [C D]]].
        split; [exact A|]. split; [|auto].
        rewrite (HMP _ A).
        destruct (value_eqb_spec (pmatching h q) s) as [E|Ns].
        { rewrite E, Hsnull in B. exfalso. apply (HPl q); [apply in_or_app; now right|congruence]. }
        destruct (value_eqb_spec (pmatching h q) m) as [E|Nm]; [|exact B].
        destruct Hm as [Hm|[_ [Hm _]]]; [congruence|].
        rewrite E, Hm in B. congruence.
    + intros p q Hp Hq Hn. rewrite (HMQ q Hq).
      rewrite (HinP p q Hp) in Hn.
      destruct (I1 r (in_or_app _ _ _ (or_intror HrQ))) as [_ [_ [f Ef]]].
      assert (Hlt : forall x, In x succs -> (indexOf (O r) s < indexOf (O r) x)%Z).
      { intros x Hx. apply Hsuccs in Hx. destruct Hx as [Hx1 Hx2].
        rewrite Ef in Hx1, Hx2, Hsr. now apply (indexOf_filter_lt f (O r) s x Hsr Hx1). }
      destruct (value_eqb_spec q r) as [->|Nr].
      * split; [now apply HPl; apply in_or_app; left|].
        destruct (in_dec (fun a b => match value_eqb_spec a b with
                                     | ReflectT _ e => left e
                                     | ReflectF _ n => right n end) r (pprefs h p))
          as [Hin|Hout].
        -- apply Hlt. destruct (includes succs p) eqn:Ep; [now apply includes_In|].
           apply includes_not_In in Ep. tauto.
        -- destruct (I10 p r Hp HrQ Hout) as [A B]. fold m in A, B.
           destruct Hm as [Hm|[_ [_ [Hm _]]]]; [congruence|].
           specialize (Hlt m Hm). lia.
      * apply I10; auto. tauto.
  - (* the measure *)
    unfold SM_measure.
    assert (Hle : forall q, In q Q ->
              List.length (pprefs h' q) <= List.length (pprefs h q)).
    { intros q Hq. rewrite (HPQ q Hq). destruct (value_eqb q r); [|lia].
      apply filter_length_le. }
    destruct Hm as [Hm|[_ [_ [Hm [_ [_ T]]]]]].
    + rewrite Hm. simpl. rewrite length_app. simpl.
      pose proof (list_sum_le _ _ Q Hle). lia.
    + rewrite T, !length_app. simpl.
      assert (list_sum (map (fun q => List.length (pprefs h' q)) Q)
              < list_sum (map (fun q => List.length (pprefs h q)) Q)); [|lia].
      apply (list_sum_lt _ _ Q r Hle HrQ).
      rewrite (HPQ r HrQ), value_eqb_refl. unfold remove_all.
      apply (filter_length_lt _ _ m).
      * apply Hsuccs in Hm. tauto.
      * apply negb_false_iff. now apply includes_In.
Qed.

End SM_loop.

Lemma player_view (h : heap) (v : value) :
  is_player h v = true ->
  exists p, obj_at h v = Some (PlayerObj p)
            /\ pprefs h v = Player.prefs p /\ pmatching h v = Player.matching p.
Proof.
  unfold is_player, pprefs, pmatching.
  destruct (obj_at h v) as [[p|x]|]; try discriminate. eauto.
Qed.

Lemma getSuccessors_player (h : heap) (v : value) :
  is_player h v = true ->
  getSuccessors v h
  = (Ok (if truthy (pmatching h v)
         then slice (pprefs h v) (indexOf (pprefs h v) (pmatching h v) + 1)
         else []), h).
Proof.
  intros H. destruct (player_view h v H) as [p [E [-> ->]]].
  unfold getSuccessors. rewrite (bind_ok _ _ _ _ _ (load_at _ _ _ _ E)). reflexivity.
Qed.

Section SM_run.

Variables P Q : list value.
Variable O : value -> list value.
Hypothesis static : SM_static P Q O.

(** One iteration of the [while] loop keeps the invariant and decreases
    the measure. *)
Lemma SM_loop_step (h : heap) (fr : list value) (s : value) :
  SM_inv P Q O h (fr ++ [s]) ->
  exists h' free',
    (forall fuel, stableMarriage_loop (S fuel) (fr ++ [s]) h
                  = stableMarriage_loop fuel free' h')
    /\ SM_inv P Q O h' free'
    /\ SM_measure Q h' free' < SM_measure Q h (fr ++ [s]).
Proof.
  intros Inv.
  assert (Hsfree : In s (fr ++ [s])) by (apply in_or_app; right; now left).
  pose proof (SM_free_has_favourite P Q O static h _ s Inv Hsfree) as Hne.
  pose proof Inv as [I1 [I2 [I3 [I4 [I5 [I6 [I7 [I8 [I9 I10]]]]]]]]].
  assert (HsP : In s P) by (now apply I6).
  set (r := at_index (pprefs h s) 0).
  assert (HrQ : In r Q) by (apply (I2 s HsP); now apply at_index_0_In).
  assert (Nsr : s <> r) by (now apply (SM_disjoint P Q O static)).
  assert (Pls : is_player h s = true) by (apply I1; apply in_or_app; now left).
  assert (Plr : is_player h r = true) by (apply I1; apply in_or_app; now right).
  set (m := pmatching h r).
  destruct (player_view h s Pls) as [ps [Es [Eps Ems]]].
  destruct (player_view h r Plr) as [pr [Er [Epr Emr]]].
  (* whoever the reviewer held is released *)
  assert (Hun : exists h1,
            (if truthy m
             then SM_unmatchPair m r ;; ret (fr ++ [m])
             else ret fr) h = (Ok (if truthy m then fr ++ [m] else fr), h1)
            /\ (forall v, pmatching h1 v
                          = if value_eqb v r then (if truthy m then null else pmatching h v)
                            else if value_eqb v m then null else pmatching h v)
            /\ (forall v, pprefs h1 v = pprefs h v)
            /\ (forall v, is_player h1 v = is_player h v)
            /\ (forall v, porig h1 v = porig h v)).
  { destruct (truthy m) eqn:T.
    - assert (Nm : m <> null) by (intros E; rewrite E in T; discriminate).
      destruct (I9 r HrQ Nm) as [A _]. fold m in A.
      assert (Plm : is_player h m = true) by (apply I1; apply in_or_app; now left).
      destruct (unmatch_total m undefined h Plm) as [ha [Ea [Ma [Pa [Ia Oa]]]]].
      assert (Plr' : is_player ha r = true) by now rewrite Ia.
      destruct (unmatch_total r undefined ha Plr') as [hb [Eb [Mb [Pb [Ib Ob]]]]].
      exists hb. split.
      { unfold SM_unmatchPair, bind. rewrite Ea, Eb. reflexivity. }
      repeat split; intros v.
      + rewrite Mb, Ma. now destruct (value_eqb v r).
      + now rewrite Pb, Pa.
      + now rewrite Ib, Ia.
      + now rewrite Ob, Oa.
    - exists h. split; [reflexivity|]. repeat split; auto. intros v.
      destruct (value_eqb_spec v r) as [E|N]; [reflexivity|].
      destruct (value_eqb_spec v m) as [E|N2]; [|reflexivity].
      subst v. destruct m as [| |a] eqn:Em; try discriminate; reflexivity. }
  destruct Hun as [h1 [E1 [M1 [P1 [J1 O1]]]]].
  assert (Pls1 : is_player h1 s = true) by now rewrite J1.
  destruct (match_total s r h1 Pls1) as [h2 [E2 [M2 [P2 [J2 O2]]]]].
  assert (Plr2 : is_player h2 r = true) by now rewrite J2, J1.
  destruct (match_total r s h2 Plr2) as [h3 [E3 [M3 [P3 [J3 O3]]]]].
  assert (Plr3 : is_player h3 r = true) by now rewrite J3.
  assert (Hm3 : pmatching h3 r = s) by (rewrite M3; now rewrite value_eqb_refl).
  assert (Hp3 : pprefs h3 r = pprefs h r) by now rewrite P3, P2, P1.
  assert (Ts : truthy s = true).
  { destruct (is_player_ref _ _ Pls) as [a Ea]. now rewrite Ea. }
  pose proof (getSuccessors_player h3 r Plr3) as E4.
  rewrite Hm3, Hp3, Ts in E4.
  set (succs := slice (pprefs h r) (indexOf (pprefs h r) s + 1)) in *.
  assert (Hsuccs : forall x, In x succs -> is_player h3 x = true).
  { intros x Hx. rewrite J3, J2, J1. apply I1. apply in_or_app. left.
    apply (I3 r HrQ). eapply slice_incl; eauto. }
  destruct (delete_successors_total r succs h3 Plr3 Hsuccs) as [h4 [E5 [M5 [P5 [J5 O5]]]]].
  exists h4, (if truthy m then fr ++ [m] else fr).
  split.
  { intros fuel. cbn [stableMarriage_loop]. rewrite pop_app.
    rewrite (bind_ok _ _ _ _ _ (getPlayer_at _ _ _ _ Es)).
    unfold Player.getFavourite. rewrite <- Eps. fold r.
    rewrite (bind_ok _ _ _ _ _ (getPlayer_at _ _ _ _ Er)).
    rewrite <- Emr. fold m.
    rewrite (bind_ok _ _ _ _ _ E1).
    assert (E23 : matchPair s r h1 = (Ok tt, h3))
      by (unfold matchPair, bind; rewrite E2; exact E3).
    rewrite (bind_ok _ _ _ _ _ E23).
    rewrite (bind_ok _ _ _ _ _ E4).
    rewrite (bind_ok _ _ _ _ _ E5). reflexivity. }
  apply (SM_inv_step P Q O static h h4 fr s Inv); fold r; fold m; fold succs.
  - intros v. rewrite M5, M3, M2, M1.
    destruct (value_eqb_spec v r) as [E|N]; [reflexivity|].
    destruct (value_eqb_spec v s) as [E|N2]; reflexivity.
  - intros v. rewrite P5, P3, P2, P1. reflexivity.
  - intros v. now rewrite J5, J3, J2, J1.
  - intros v. now rewrite O5, O3, O2, O1.
Qed.

(** With enough fuel the loop ends, without an error, in a state in
    which nobody waits. *)
Lemma SM_loop_total (fuel : nat) :
  forall h free,
    SM_inv P Q O h free -> SM_measure Q h free <= fuel ->
    exists h', stableMarriage_loop fuel free h = (Ok tt, h') /\ SM_inv P Q O h' [].
Proof.
  induction fuel as [|fuel IH]; intros h free Inv Hm.
  - assert (free = []).
    { unfold SM_measure in Hm. destruct free; [reflexivity|simpl in Hm; lia]. }
    subst free. exists h. split; [reflexivity|exact Inv].
  - destruct (pop free) as [[s fr]|] eqn:Ep.
    + apply pop_Some in Ep. subst free.
      destruct (SM_loop_step h fr s Inv) as [h' [free' [E [Inv' Hlt]]]].
      rewrite E. apply IH; [exact Inv'|lia].
    + apply pop_None in Ep. subst free. exists h. split; [reflexivity|exact Inv].
Qed.

End SM_run.

(** *** From the state a constructor leaves to the end of the loop *)

Lemma values_eqb_eq (l l' : list value) : values_eqb l l' = true -> l = l'.
Proof.
  revert l'. induction l as [|x l IH]; intros [|y l']; simpl; try discriminate; auto.
  intros H. apply andb_true_iff in H as [E H]. apply value_eqb_eq in E. apply IH in H.
  congruence.
Qed.

Lemma filter_all {A : Type} (l : list A) : l = filter (fun _ => true) l.
Proof. induction l as [|x l IH]; simpl; congruence. Qed.

Lemma SM_player_ready_inv (h : heap) (others : list value) (p : value) :
  SM_player_ready h others p = true ->
  is_player h p = true /\ pmatching h p = null /\ NoDup (pprefs h p)
  /\ incl (pprefs h p) others /\ incl others (pprefs h p)
  /\ porig h p = Some (pprefs h p).
Proof.
  unfold SM_player_ready. rewrite !andb_true_iff.
  intros [[[[[A B] C] D] E] F].
  apply value_eqb_eq in B. apply nodupb_NoDup in C.
  rewrite forallb_forall in D, E.
  repeat split; auto.
  - intros x Hx. apply includes_In. now apply D.
  - intros x Hx. apply includes_In. now apply E.
  - destruct (porig h p) as [o|]; [|discriminate]. apply values_eqb_eq in F. now subst.
Qed.

Lemma SM_ready_swap (h : heap) (S R : list value) :
  SM_ready h S R = true -> SM_ready h R S = true.
Proof.
  unfold SM_ready. rewrite !andb_true_iff. intros [[[A B] C] D].
  repeat split; auto.
  - apply nodupb_NoDup. apply nodupb_NoDup in A.
    eapply Permutation_NoDup; [apply Permutation_app_comm|exact A].
  - apply Nat.eqb_eq in B. apply Nat.eqb_eq. auto.
Qed.

Lemma list_sum_const {A : Type} (f : A -> nat) (n : nat) (l : list A) :
  (forall x, In x l -> f x = n) -> list_sum (map f l) = List.length l * n.
Proof.
  induction l as [|x l IH]; intros H; simpl; [reflexivity|].
  rewrite (H x (or_introl eq_refl)), IH; auto. intros y Hy. apply H. now right.
Qed.

(** The state a game is solved from satisfies the invariant, with every
    proposer waiting. *)
Lemma SM_ready_inv (h : heap) (P Q : list value) :
  SM_ready h P Q = true ->
  SM_static P Q (pprefs h)
  /\ SM_inv P Q (pprefs h) h P
  /\ SM_measure Q h P = List.length P + List.length P * List.length P.
Proof.
  unfold SM_ready. rewrite !andb_true_iff. intros [[[A B] C] D].
  apply nodupb_NoDup in A. apply Nat.eqb_eq in B. rewrite forallb_forall in C, D.
  assert (HP : forall p, In p P ->
            is_player h p = true /\ pmatching h p = null /\ NoDup (pprefs h p)
            /\ incl (pprefs h p) Q /\ incl Q (pprefs h p)
            /\ porig h p = Some (pprefs h p))
    by (intros p Hp; apply SM_player_ready_inv; auto).
  assert (HQ : forall q, In q Q ->
            is_player h q = true /\ pmatching h q = null /\ NoDup (pprefs h q)
            /\ incl (pprefs h q) P /\ incl P (pprefs h q)
            /\ porig h q = Some (pprefs h q))
    by (intros q Hq; apply SM_player_ready_inv; auto).
  assert (HPQ : forall v, In v (P ++ Q) ->
            is_player h v = true /\ pmatching h v = null /\ NoDup (pprefs h v)
            /\ porig h v = Some (pprefs h v)).
  { intros v Hv. apply in_app_or in Hv. destruct Hv as [Hv|Hv].
    - destruct (HP v Hv) as [a [b [c [_ [_ d]]]]]. auto.
    - destruct (HQ v Hv) as [a [b [c [_ [_ d]]]]]. auto. }
  split; [|split].
  - repeat split; auto.
    + intros v Hv. now apply HPQ.
    + intros p Hp. now apply HP.
  - split; [|split; [|split; [|split; [|split; [|split; [|split; [|split; [|split]]]]]]]].
    + intros v Hv. destruct (HPQ v Hv) as [a [_ [_ d]]]. repeat split; auto.
      eexists. apply filter_all.
    + intros p Hp. now apply HP.
    + intros q Hq. now apply HQ.
    + intros p q Hp Hq. destruct (HP p Hp) as [_ [_ [_ [_ [a _]]]]].
      destruct (HQ q Hq) as [_ [_ [_ [_ [b _]]]]]. split; intros _; auto.
    + now apply NoDup_app_remove_r in A.
    + apply incl_refl.
    + intros p Hp. destruct (HP p Hp) as [_ [a _]]. tauto.
    + intros p Hp Hn. destruct (HP p Hp) as [_ [a _]]. congruence.
    + intros q Hq Hn. destruct (HQ q Hq) as [_ [a _]]. congruence.
    + intros p q Hp Hq Hn. destruct (HP p Hp) as [_ [_ [_ [_ [a _]]]]].
      exfalso. apply Hn. now apply a.
  - unfold SM_measure. f_equal.
    rewrite (list_sum_const _ (List.length P)); [now rewrite B|].
    intros q Hq. destruct (HQ q Hq) as [_ [_ [a [b [c _]]]]].
    apply Nat.le_antisymm.
    + now apply NoDup_incl_length.
    + apply NoDup_incl_length; [|exact c]. now apply NoDup_app_remove_r in A.
Qed.

Section SM_end.

Variables P Q : list value.
Variable O : value -> list value.
Hypothesis static : SM_static P Q O.
Variable h : heap.
Hypothesis final : SM_inv P Q O h [].

(** When nobody waits, everybody is matched, to a member of the other
    party that is matched back and still on the list. *)
Lemma SM_final_P (p : value) :
  In p P ->
  pmatching h p <> null /\ In (pmatching h p) Q /\ pmatching h (pmatching h p) = p
  /\ In (pmatching h p) (pprefs h p).
Proof.
  destruct final as [I1 [I2 [I3 [I4 [I5 [I6 [I7 [I8 [I9 I10]]]]]]]]].
  intros Hp. assert (Hn : pmatching h p <> null).
  { intros E. apply (I7 p Hp) in E. destruct E. }
  destruct (I8 p Hp Hn) as [A [B [C D]]]. repeat split; auto.
  rewrite <- D. now apply at_index_0_In.
Qed.

Lemma SM_final_Q (q : value) :
  In q Q ->
  pmatching h q <> null /\ In (pmatching h q) P /\ pmatching h (pmatching h q) = q
  /\ In (pmatching h q) (pprefs h q).
Proof.
  intros Hq.
  assert (Hin : In q (map (pmatching h) P)).
  { assert (ND : NoDup (map (pmatching h) P)).
    { apply NoDup_map_on; [apply (SM_NoDup_P P Q O static)|]. intros x y Hx Hy E.
      destruct (SM_final_P x Hx) as [_ [_ [Bx _]]].
      destruct (SM_final_P y Hy) as [_ [_ [By _]]].
      rewrite <- Bx, <- By. now rewrite E. }
    assert (Incl : incl (map (pmatching h) P) Q).
    { intros x Hx. apply in_map_iff in Hx. destruct Hx as [p [<- Hp]].
      now apply SM_final_P. }
    assert (Back : incl Q (map (pmatching h) P)).
    { apply NoDup_length_incl; [exact ND| |exact Incl].
      rewrite length_map. destruct static as [_ [L _]]. lia. }
    now apply Back. }
  apply in_map_iff in Hin. destruct Hin as [p [E Hp]].
  destruct (SM_final_P p Hp) as [A [B [C D]]]. rewrite E in C, D.
  destruct final as [I1 [I2 [I3 [I4 [I5 [I6 [I7 [I8 [I9 I10]]]]]]]]].
  assert (Hn : pmatching h q <> null).
  { rewrite C. intros E0. destruct (I1 p) as [Pl _]; [apply in_or_app; now left|].
    rewrite E0 in Pl. discriminate. }
  destruct (I9 q Hq Hn) as [a [b [c d]]]. auto.
Qed.

(** No proposer and member of the other party rank each other above
    the partners they hold. *)
Lemma SM_final_stable (p q : value) :
  In p P -> In q Q ->
  ~ ((indexOf (O p) q < indexOf (O p) (pmatching h p))%Z
     /\ (indexOf (O q) p < indexOf (O q) (pmatching h q))%Z).
Proof.
  intros Hp Hq [H1 H2].
  destruct (SM_final_P p Hp) as [A [B [C D]]].
  destruct final as [I1 [I2 [I3 [I4 [I5 [I6 [I7 [I8 [I9 I10]]]]]]]]].
  destruct (I8 p Hp A) as [_ [_ [Hne Hhead]]].
  destruct (I1 p (in_or_app _ _ _ (or_introl Hp))) as [_ [_ [f Ef]]].
  assert (Hout : ~ In q (pprefs h p)).
  { intros Hin.
    assert (Hlt : (indexOf (pprefs h p) (pmatching h p) < indexOf (pprefs h p) q)%Z).
    { assert (E0 : indexOf (pprefs h p) (pmatching h p) = 0%Z)
        by (apply at_index_0_indexOf; auto).
      pose proof (indexOf_nonneg _ _ Hin).
      assert (indexOf (pprefs h p) q <> 0%Z); [|lia].
      intros E1. apply at_index_0_indexOf in E1; auto.
      rewrite Hhead in E1. rewrite E1 in H1. lia. }
    rewrite Ef in Hlt, Hin, D.
    apply (indexOf_filter_lt f (O p) _ _ D Hin) in Hlt. lia. }
  destruct (I10 p q Hp Hq Hout) as [_ Hlt]. lia.
Qed.

End SM_end.

(** *** The result map *)

Lemma map_set_fresh {V : Type} (k : value) (v : V) (m : jsmap V) :
  ~ In k (map fst m) -> map_set k v m = m ++ [(k, v)].
Proof.
  induction m as [|[k' v'] m IH]; simpl; [reflexivity|]. intros H.
  destruct (value_eqb_spec k' k) as [E|N]; [exfalso; apply H; now left|].
  rewrite IH; auto.
Qed.

Lemma single_result_total (l : list value) :
  forall acc h,
    (forall s, In s l -> is_player h s = true) ->
    NoDup l -> (forall s, In s l -> ~ In s (map fst acc)) ->
    single_result l acc h = (Ok (acc ++ map (fun s => (s, pmatching h s)) l), h).
Proof.
  induction l as [|s l IH]; intros acc h Pl ND Hacc; simpl.
  - now rewrite app_nil_r.
  - destruct (player_view h s (Pl s (or_introl eq_refl))) as [p [E [_ Em]]].
    rewrite (bind_ok _ _ _ _ _ (getPlayer_at _ _ _ _ E)).
    apply NoDup_cons_iff in ND. destruct ND as [Hs ND].
    rewrite map_set_fresh by (apply Hacc; now left).
    rewrite IH; auto.
    + rewrite <- app_assoc. simpl. now rewrite Em.
    + intros x Hx. apply Pl. now right.
    + intros x Hx. rewrite map_app, in_app_iff. simpl. intros [H|[H|[]]].
      * apply (Hacc x); auto. now right.
      * congruence.
Qed.

Lemma fold_map_set_fresh {V : Type} (d : jsmap V) :
  forall acc, NoDup (map fst (acc ++ d)) ->
    fold_left (fun data kv => map_set (fst kv) (snd kv) data) d acc = acc ++ d.
Proof.
  induction d as [|[k v] d IH]; intros acc ND; simpl; [now rewrite app_nil_r|].
  rewrite map_set_fresh.
  - rewrite IH; rewrite <- app_assoc; auto.
  - rewrite map_app in ND. simpl in ND. apply NoDup_remove_2 in ND.
    intros H. apply ND. apply in_or_app. now left.
Qed.

(** Copying a map into a [SingleMatching] keeps its entries. *)
Lemma SingleMatching_copy (d : jsmap value) :
  NoDup (map fst d) -> SingleMatching d = d.
Proof. intros H. unfold SingleMatching. now rewrite fold_map_set_fresh. Qed.

Lemma map_get_pairs (f : value -> value) (l : list value) (k : value) :
  map_get k (map (fun s => (s, f s)) l) = if includes l k then Some (f k) else None.
Proof.
  induction l as [|s l IH]; simpl; [reflexivity|].
  rewrite (value_eqb_sym k s). destruct (value_eqb_spec s k) as [->|N]; [reflexivity|].
  exact IH.
Qed.

(** *** The algorithm, from a ready state *)

(** With fuel for [n + n * n] iterations the algorithm returns, without
    an error, the partner of every suitor, and leaves a solved state. *)
Lemma stableMarriage_solved (h : heap) (S R : list value) (optimal : SMOptimal)
    (fuel : nat) :
  SM_ready h S R = true ->
  List.length S + List.length S * List.length S <= fuel ->
  exists h',
    stableMarriage fuel S R optimal h
    = (Ok (map (fun s => (s, pmatching h' s)) S), h')
    /\ SM_solved h' S R.
Proof.
  intros Hready Hfuel.
  assert (NDS : NoDup S).
  { unfold SM_ready in Hready. rewrite !andb_true_iff in Hready.
    destruct Hready as [[[A _] _] _]. apply nodupb_NoDup in A.
    now apply NoDup_app_remove_r in A. }
  assert (Len : List.length S = List.length R).
  { unfold SM_ready in Hready. rewrite !andb_true_iff in Hready.
    destruct Hready as [[[_ B] _] _]. now apply Nat.eqb_eq in B. }
  destruct optimal.
  - destruct (SM_ready_inv h S R Hready) as [St [Inv Hm]].
    destruct (SM_loop_total S R (pprefs h) St fuel h S Inv) as [h' [E Fin]]; [lia|].
    exists h'. split.
    + unfold stableMarriage. rewrite (bind_ok _ _ _ _ _ E).
      rewrite single_result_total; auto.
      intros s Hs. destruct Fin as [I1 _]. apply I1. apply in_or_app. now left.
    + split; [|split; [|split]].
      * intros v Hv. destruct Fin as [I1 _]. now apply I1.
      * intros s Hs. destruct (SM_final_P S R (pprefs h) h' Fin s Hs) as [_ H]. exact H.
      * intros r Hr. destruct (SM_final_Q S R (pprefs h) St h' Fin r Hr) as [_ H]. exact H.
      * intros s r Hs Hr. exists (pprefs h s), (pprefs h r).
        destruct Fin as [I1 Rest].
        destruct (I1 s (in_or_app _ _ _ (or_introl Hs))) as [_ [Os _]].
        destruct (I1 r (in_or_app _ _ _ (or_intror Hr))) as [_ [Or _]].
        split; [exact Os|]. split; [exact Or|].
        apply (SM_final_stable S R (pprefs h) h' (conj I1 Rest) s r Hs Hr).
  - apply SM_ready_swap in Hready as Hready'.
    destruct (SM_ready_inv h R S Hready') as [St [Inv Hm]].
    destruct (SM_loop_total R S (pprefs h) St fuel h R Inv) as [h' [E Fin]]; [lia|].
    exists h'. split.
    + unfold stableMarriage. rewrite (bind_ok _ _ _ _ _ E).
      rewrite single_result_total; auto.
      intros s Hs. destruct Fin as [I1 _]. apply I1. apply in_or_app. now right.
    + split; [|split; [|split]].
      * intros v Hv. destruct Fin as [I1 _]. apply I1.
        apply in_app_or in Hv. apply in_or_app. tauto.
      * intros s Hs. destruct (SM_final_Q R S (pprefs h) St h' Fin s Hs) as [_ H]. exact H.
      * intros r Hr. destruct (SM_final_P R S (pprefs h) h' Fin r Hr) as [_ H]. exact H.
      * intros s r Hs Hr. exists (pprefs h s), (pprefs h r).
        destruct Fin as [I1 Rest].
        destruct (I1 s (in_or_app _ _ _ (or_intror Hs))) as [_ [Os _]].
        destruct (I1 r (in_or_app _ _ _ (or_introl Hr))) as [_ [Or _]].
        split; [exact Os|]. split; [exact Or|].
        pose proof (SM_final_stable R S (pprefs h) h' (conj I1 Rest) r s Hr Hs). tauto.
Qed.

(** *** The checks on a solved state *)

Lemma issues_of_none {A : Type} (l : list A) (body : A -> M (list string)) (h : heap) :
  (forall x, In x l -> body x h = (Ok [], h)) -> issues_of l body h = (Ok [], h).
Proof.
  induction l as [|x l IH]; intros H; simpl; [reflexivity|].
  rewrite (bind_ok _ _ _ _ _ (H x (or_introl eq_refl))).
  rewrite (bind_ok _ _ _ _ _ (IH (fun y Hy => H y (or_intror Hy)))). reflexivity.
Qed.

Lemma Player_acceptable (h : heap) (v : value) (unmatchedOkay : bool) :
  is_player h v = true -> pmatching h v <> null -> In (pmatching h v) (pprefs h v) ->
  Player_checkIfMatchIsUnacceptable v unmatchedOkay h = (Ok None, h).
Proof.
  intros Pl Hn Hin. destruct (player_view h v Pl) as [p [E [Ep Em]]].
  unfold Player_checkIfMatchIsUnacceptable.
  rewrite (bind_ok _ _ _ _ _ (getPlayer_at _ _ _ _ E)). cbv zeta.
  rewrite <- Em, <- Ep.
  destruct (value_eqb_spec (pmatching h v) null) as [E0|N]; [contradiction|]. simpl.
  apply includes_In in Hin. rewrite Hin. reflexivity.
Qed.

Lemma blocking_inner_none (blocks : value -> value -> M bool) (x : value) (ys : list value)
    (h : heap) :
  (forall y, In y ys -> blocks x y h = (Ok false, h)) ->
  forall bp, blocking_inner blocks x ys bp h = (Ok bp, h).
Proof.
  induction ys as [|y ys IH]; intros H bp; simpl; [reflexivity|].
  rewrite (bind_ok _ _ _ _ _ (H y (or_introl eq_refl))). apply IH.
  intros z Hz. apply H. now right.
Qed.

Lemma blocking_outer_none (blocks : value -> value -> M bool) (xs ys : list value)
    (h : heap) :
  (forall x y, In x xs -> In y ys -> blocks x y h = (Ok false, h)) ->
  forall bp, blocking_outer blocks xs ys bp h = (Ok bp, h).
Proof.
  induction xs as [|x xs IH]; intros H bp; simpl; [reflexivity|].
  rewrite (bind_ok _ _ _ _ _ (blocking_inner_none blocks x ys h
                                 (fun y Hy => H x y (or_introl eq_refl) Hy) bp)).
  apply IH. intros z y Hz Hy. apply H; auto. now right.
Qed.

Lemma prefers_player_value (h : heap) (v a b : value) (o : list value) :
  is_player h v = true -> porig h v = Some o ->
  prefers v a b h = (Ok (indexOf o a <? indexOf o b)%Z, h).
Proof.
  intros Pl Ho. destruct (player_view h v Pl) as [p [E _]].
  unfold porig in Ho. rewrite E in Ho.
  unfold prefers. rewrite (bind_ok _ _ _ _ _ (load_at _ _ _ _ E)).
  unfold prefers_in. rewrite Ho. reflexivity.
Qed.

Section SM_checks.

Variable h : heap.
Variables S R : list value.
Hypothesis solved : SM_solved h S R.

Lemma SM_solved_truthy (v : value) : In v (S ++ R) -> truthy v = true /\ v <> null.
Proof.
  intros Hv. destruct solved as [Pl _]. specialize (Pl v Hv).
  apply is_player_ref in Pl. destruct Pl as [a ->]. split; [reflexivity|discriminate].
Qed.

Lemma SM_solved_matched (v : value) :
  In v (S ++ R) ->
  is_player h v = true /\ In (pmatching h v) (S ++ R)
  /\ In (pmatching h v) (pprefs h v).
Proof.
  intros Hv. destruct solved as [Pl [HS [HR _]]]. split; [now apply Pl|].
  apply in_app_or in Hv. destruct Hv as [Hv|Hv].
  - destruct (HS v Hv) as [A [_ B]]. split; [apply in_or_app; now right|exact B].
  - destruct (HR v Hv) as [A [_ B]]. split; [apply in_or_app; now left|exact B].
Qed.

(** No pair blocks a solved state. *)
Lemma SM_solved_no_blocking (bp : list (value * value)) :
  blocking_outer SM_blocks S R bp h = (Ok bp, h).
Proof.
  apply blocking_outer_none. intros s r Hs Hr.
  destruct solved as [Pl [HS [HR St]]].
  assert (Hs' : In s (S ++ R)) by (apply in_or_app; now left).
  assert (Hr' : In r (S ++ R)) by (apply in_or_app; now right).
  destruct (player_view h s (Pl s Hs')) as [ps [Es [_ Ems]]].
  destruct (player_view h r (Pl r Hr')) as [pr [Er [_ Emr]]].
  destruct (HS s Hs) as [A1 _]. destruct (HR r Hr) as [A2 _].
  unfold SM_blocks.
  rewrite (bind_ok _ _ _ _ _ (getPlayer_at _ _ _ _ Es)). rewrite <- Ems.
  destruct (SM_solved_truthy (pmatching h s)) as [T1 _]; [apply in_or_app; now right|].
  rewrite T1. cbn [negb].
  rewrite (bind_ok _ _ _ _ _ (getPlayer_at _ _ _ _ Er)). rewrite <- Emr.
  destruct (SM_solved_truthy (pmatching h r)) as [T2 _]; [apply in_or_app; now left|].
  rewrite T2. cbn [negb].
  destruct (St s r Hs Hr) as [o [o' [Os [Or Hnot]]]].
  unfold andM.
  rewrite (bind_ok _ _ _ _ _ (prefers_player_value h s _ _ o (Pl s Hs') Os)).
  destruct (Z.ltb_spec (indexOf o r) (indexOf o (pmatching h s))) as [L1|L1]; [|reflexivity].
  rewrite (prefers_player_value h r _ _ o' (Pl r Hr') Or).
  destruct (Z.ltb_spec (indexOf o' s) (indexOf o' (pmatching h r))) as [L2|L2]; [|reflexivity].
  exfalso. apply Hnot. auto.
Qed.

(** A solved state passes the three validity checks. *)
Lemma SM_solved_valid (bp : option (list (value * value))) :
  NoDup S ->
  StableMarriage_checkValidity
    (StableMarriage.mk S R
       (Some (SingleMatching (map (fun s => (s, pmatching h s)) S))) bp) h
  = (Ok true, h).
Proof.
  intros NDS.
  assert (Ecopy : SingleMatching (map (fun s => (s, pmatching h s)) S)
                  = map (fun s => (s, pmatching h s)) S).
  { apply SingleMatching_copy. rewrite map_map. simpl. now rewrite map_id. }
  unfold StableMarriage_checkValidity.
  assert (E1 : SM_checkForUnmatchedPlayers
                 (StableMarriage.mk S R
                    (Some (SingleMatching (map (fun s => (s, pmatching h s)) S))) bp) h
               = (Ok [], h)).
  { unfold SM_checkForUnmatchedPlayers. simpl. apply issues_of_none. intros v Hv.
    destruct (SM_solved_matched v Hv) as [Pl [A B]].
    destruct (SM_solved_truthy _ A) as [_ Hn].
    rewrite (bind_ok _ _ _ _ _ (Player_acceptable h v false Pl Hn B)). reflexivity. }
  assert (E2 : SM_checkForPlayersNotInMatching
                 (StableMarriage.mk S R
                    (Some (SingleMatching (map (fun s => (s, pmatching h s)) S))) bp) h
               = (Ok [], h)).
  { unfold SM_checkForPlayersNotInMatching. simpl. rewrite Ecopy.
    apply issues_of_none. intros v Hv.
    assert (Hin : In v (playersInMatching (map (fun s => (s, pmatching h s)) S))).
    { unfold playersInMatching. apply in_flat_map.
      destruct solved as [_ [HS [HR _]]].
      apply in_app_or in Hv. destruct Hv as [Hv|Hv].
      - exists (v, pmatching h v). split; [apply in_map_iff; eauto|]. now left.
      - destruct (HR v Hv) as [A [B _]].
        exists (pmatching h v, pmatching h (pmatching h v)).
        split; [apply in_map_iff; eauto|]. simpl. rewrite B.
        destruct (SM_solved_truthy v) as [T _]; [apply in_or_app; now right|].
        rewrite T. right. now left. }
    apply includes_In in Hin. rewrite Hin. reflexivity. }
  assert (E3 : SM_checkForInconsistentMatches
                 (StableMarriage.mk S R
                    (Some (SingleMatching (map (fun s => (s, pmatching h s)) S))) bp) h
               = (Ok [], h)).
  { unfold SM_checkForInconsistentMatches. simpl. rewrite Ecopy.
    apply issues_of_none. intros [s v] Hsv. apply in_map_iff in Hsv.
    destruct Hsv as [s' [E Hs]]. injection E as <- <-. simpl.
    destruct solved as [Pl _].
    destruct (player_view h s' (Pl s' (in_or_app _ _ _ (or_introl Hs)))) as [p [Ep [_ Em]]].
    rewrite (bind_ok _ _ _ _ _ (getPlayer_at _ _ _ _ Ep)).
    rewrite <- Em, value_eqb_refl. reflexivity. }
  rewrite (bind_ok _ _ _ _ _ E1), (bind_ok _ _ _ _ _ E2), (bind_ok _ _ _ _ _ E3).
  reflexivity.
Qed.

End SM_checks.

(** *** What the Stable Marriage constructor builds *)

Lemma values_eqb_refl (l : list value) : values_eqb l l = true.
Proof. induction l as [|x l IH]; simpl; [reflexivity|]. now rewrite value_eqb_refl. Qed.

(** The second loop of the constructor gives every clone, once, the
    ranking it keeps as its original one. *)
Lemma clone_player_prefs_set (cm : jsmap value) (clones : list value) (l : list value) :
  forall h h',
    NoDup (map (fun p => map_get_value p cm) l) ->
    incl (map (fun p => map_get_value p cm) l) clones ->
    clones_set clones (map (fun p => map_get_value p cm) l) h ->
    clone_player_prefs cm l h = (Ok tt, h') ->
    clones_set clones [] h'.
Proof.
  unfold clone_player_prefs.
  induction l as [|x l IH]; intros h h' ND Incl G E; simpl in E.
  - inversion E; subst. exact G.
  - apply bind_Ok_inv in E. destruct E as [[] [h1 [E1 E]]].
    simpl in ND. apply NoDup_cons_iff in ND. destruct ND as [Nx ND].
    apply (IH h1 h' ND); [intros c Hc; apply Incl; now right| |exact E].
    clear IH E.
    apply bind_Ok_inv in E1. destruct E1 as [p0 [h0 [E0 E1]]].
    apply getPlayer_Ok in E0. destruct E0 as [-> _].
    set (clone := map_get_value x cm) in *.
    destruct (G clone) as [pc [Oc [Mc Fc]]]; [apply Incl; now left|].
    simpl in Fc. rewrite value_eqb_refl in Fc. simpl in Fc.
    unfold setPrefs in E1. rewrite (bind_ok _ _ _ _ _ (load_at _ _ _ _ Oc)) in E1.
    apply Player_setPrefs_Ok in E1.
    destruct E1 as [a [p [names [Ea [Ep [_ ->]]]]]].
    rewrite Ea in Oc. simpl in Oc. rewrite Ep in Oc. injection Oc as ->.
    assert (Ep' : nth_error (upd a (PlayerObj (Player.with_prefs
                     (map (fun q => map_get_value q cm) (Player.prefs p0)) pc)) h) a
                  = Some (PlayerObj (Player.with_prefs
                     (map (fun q => map_get_value q cm) (Player.prefs p0)) pc))).
    { apply nth_error_upd_same. apply nth_error_Some. congruence. }
    intros c Hc. destruct (value_eqb_spec c (ref a)) as [->|N].
    + eexists. split; [apply (obj_at_upd_same _ _ _ _ Ep')|]. simpl.
      split; [exact Mc|].
      rewrite <- Ea. apply includes_not_In in Nx. rewrite Nx. now rewrite Fc.
    + destruct (G c Hc) as [q [Oq [Mq Fq]]]. exists q.
      rewrite !obj_at_upd_other by exact N. split; [exact Oq|]. split; [exact Mq|].
      unfold includes in Fq. cbn [map existsb] in Fq. fold clone in Fq. rewrite Ea in Fq.
      destruct (value_eqb_spec c (ref a)) as [E|_]; [congruence|exact Fq].
Qed.

Lemma SM_checkPlayerRanks_heap (S R : list value) (p : value) (h : heap) :
  snd (SM_checkPlayerRanks S R p h) = h.
Proof.
  unfold SM_checkPlayerRanks, bind, getPlayer, bind, load.
  destruct p as [| |a]; simpl; try reflexivity.
  destruct (nth_error h a) as [[x|x]|]; simpl; try reflexivity.
  now destruct (same_set _ _).
Qed.

Lemma SM_checkInputs_heap (S R : list value) (h : heap) :
  snd (SM_checkInputs S R h) = h.
Proof.
  unfold SM_checkInputs, bind at 1.
  destruct (Nat.eqb _ _); simpl; [|reflexivity].
  unfold bind.
  pose proof (forEach_heap (SM_checkPlayerRanks S R) S (SM_checkPlayerRanks_heap S R) h) as H1.
  destruct (forEach S (SM_checkPlayerRanks S R) h) as [[[]|e|] h1]; simpl in *; subst; auto.
  apply forEach_heap. apply SM_checkPlayerRanks_heap.
Qed.

Lemma SM_checkPlayerRanks_loop (S R l : list value) (h : heap) :
  fst (forEach l (SM_checkPlayerRanks S R) h) = Ok tt ->
  forall p, In p l ->
    exists x, obj_at h p = Some (PlayerObj x)
              /\ same_set (Player.prefs x) (if includes S p then R else S) = true.
Proof.
  induction l as [|q l IH]; simpl; intros H p Hp; [contradiction|].
  unfold bind in H at 1.
  pose proof (SM_checkPlayerRanks_heap S R q h) as Hh.
  destruct (SM_checkPlayerRanks S R q h) as [[[]|e|] h1] eqn:E;
    try (simpl in H; discriminate).
  simpl in Hh. subst h1.
  destruct Hp as [<-|Hp]; [|now apply IH].
  unfold SM_checkPlayerRanks in E.
  apply bind_Ok_inv in E. destruct E as [x [h2 [E1 E2]]].
  apply getPlayer_Ok in E1. destruct E1 as [-> E1].
  destruct (same_set _ _) eqn:Es; [|discriminate]. eauto.
Qed.

Lemma SM_checkInputs_Ok (S R : list value) (h : heap) :
  fst (SM_checkInputs S R h) = Ok tt ->
  List.length S = List.length R
  /\ forall p, In p (S ++ R) ->
       exists x, obj_at h p = Some (PlayerObj x)
                 /\ same_set (Player.prefs x) (if includes S p then R else S) = true.
Proof.
  unfold SM_checkInputs, bind at 1.
  destruct (Nat.eqb_spec (List.length S) (List.length R)) as [L|L]; simpl; [|discriminate].
  intros H. split; [exact L|].
  unfold bind in H.
  pose proof (forEach_heap (SM_checkPlayerRanks S R) S (SM_checkPlayerRanks_heap S R) h) as H1.
  destruct (forEach S (SM_checkPlayerRanks S R) h) as [[[]|e|] h1] eqn:E1;
    try (simpl in H; discriminate).
  simpl in H1. subst h1.
  intros p Hp. apply in_app_or in Hp. destruct Hp as [Hp|Hp].
  - apply (SM_checkPlayerRanks_loop S R S h); [now rewrite E1|exact Hp].
  - apply (SM_checkPlayerRanks_loop S R R h); [exact H|exact Hp].
Qed.

(** The game the constructor returns, when its players are listed once
    and no ranking has a repeated entry, is ready to be solved. *)
Lemma StableMarriage_new_ready (suitors0 reviewers0 : list value) (c : heap)
    (g : StableMarriage.t) (h : heap) :
  StableMarriage_new suitors0 reviewers0 c = (Ok g, h) ->
  nodupb (StableMarriage.suitors g ++ StableMarriage.reviewers g) = true ->
  rankings_distinct h (StableMarriage.suitors g ++ StableMarriage.reviewers g) = true ->
  SM_ready h (StableMarriage.suitors g) (StableMarriage.reviewers g) = true
  /\ StableMarriage.matching g = None.
Proof.
  unfold StableMarriage_new. intros E ND RD.
  apply bind_Ok_inv in E. destruct E as [cm [h1 [E1 E]]].
  apply bind_Ok_inv in E. destruct E as [[] [h2 [E2 E]]].
  apply bind_Ok_inv in E. destruct E as [[] [h3 [E3 E]]].
  inversion E; subst. clear E. simpl in *. split; [|reflexivity].
  set (S := map (fun p => map_get_value p cm) suitors0) in *.
  set (R := map (fun p => map_get_value p cm) reviewers0) in *.
  pose proof (SM_checkInputs_heap S R h2) as Hh. rewrite E3 in Hh. simpl in Hh. subst h2.
  assert (Hacc : fst (SM_checkInputs S R h) = Ok tt) by now rewrite E3.
  destruct (SM_checkInputs_Ok S R h Hacc) as [Len Acc].
  apply nodupb_NoDup in ND.
  assert (Eall : S ++ R = map (fun p => map_get_value p cm) (suitors0 ++ reviewers0))
    by (unfold S, R; now rewrite map_app).
  destruct (clone_players_spec _ _ _ _ _ E1) as [A1 [B1 [_ D1]]];
    [intros k v Hk; discriminate|].
  assert (G1 : clones_set (S ++ R) (S ++ R) h1).
  { intros x Hx. apply includes_In in Hx as Ix. rewrite Ix.
    rewrite Eall in Hx. apply in_map_iff in Hx. destruct Hx as [k [<- Hk]].
    unfold map_get_value. destruct (map_get k cm) as [v|] eqn:Ev;
      [|exfalso; exact (B1 k Hk Ev)].
    destruct (A1 k v Ev) as [_ [nm Hv]]. exists (Player.new nm). auto. }
  assert (G : clones_set (S ++ R) [] h).
  { apply (clone_player_prefs_set cm (S ++ R) (suitors0 ++ reviewers0) h1 h).
    - now rewrite <- Eall.
    - rewrite <- Eall. apply incl_refl.
    - now rewrite <- Eall.
    - exact E2. }
  unfold rankings_distinct in RD. rewrite forallb_forall in RD.
  assert (Hdis : forall r, In r R -> includes S r = false).
  { intros r Hr. apply includes_not_In. intros Hs.
    revert ND Hs Hr. clear. induction S as [|x l IH]; [intros _ []|].
    intros ND [->|Hs] Hr; simpl in ND; apply NoDup_cons_iff in ND; destruct ND as [N ND].
    - apply N. apply in_or_app. now right.
    - now apply IH. }
  assert (Hready : forall v, In v (S ++ R) ->
            SM_player_ready h (if includes S v then R else S) v = true).
  { intros v Hv. destruct (G v Hv) as [p [Op [Mp Fp]]]. simpl in Fp.
    destruct (Acc v Hv) as [x [Ox Sx]]. rewrite Op in Ox. injection Ox as <-.
    pose proof (same_set_spec _ _ Sx) as Mx. specialize (RD v Hv).
    unfold SM_player_ready, is_player, pmatching, pprefs, porig in *. rewrite Op in *.
    rewrite Mp, RD, Fp, values_eqb_refl. simpl. rewrite andb_true_r.
    apply andb_true_iff. split; apply forallb_forall; intros y Hy; apply includes_In;
      now apply Mx. }
  unfold SM_ready. rewrite !andb_true_iff. repeat split.
  - now apply nodupb_NoDup.
  - now apply Nat.eqb_eq.
  - apply forallb_forall. intros s Hs.
    assert (Hs' : In s (S ++ R)) by (apply in_or_app; now left).
    specialize (Hready s Hs'). apply includes_In in Hs. now rewrite Hs in Hready.
  - apply forallb_forall. intros r Hr.
    assert (Hr' : In r (S ++ R)) by (apply in_or_app; now right).
    specialize (Hready r Hr'). now rewrite (Hdis r Hr) in Hready.
Qed.

(** *** Solving a constructed game *)

(** A game the constructor returned, with its players listed once and
    rankings without repetition, is solved within [n + n * n]
    iterations; the state is a solved one and the game holds the
    partner of every suitor. *)
Lemma StableMarriage_solve_solved
    (c : heap) (suitors0 reviewers0 : list value) (g : StableMarriage.t) (h : heap)
    (optimal : SMOptimal) (fuel : nat) :
  StableMarriage_new suitors0 reviewers0 c = (Ok g, h) ->
  nodupb (StableMarriage.suitors g ++ StableMarriage.reviewers g) = true ->
  rankings_distinct h (StableMarriage.suitors g ++ StableMarriage.reviewers g) = true ->
  List.length (StableMarriage.suitors g)
    + List.length (StableMarriage.suitors g) * List.length (StableMarriage.suitors g)
    <= fuel ->
  exists h',
    StableMarriage_solve fuel g optimal h
    = (Ok (StableMarriage.mk (StableMarriage.suitors g) (StableMarriage.reviewers g)
             (Some (map (fun s => (s, pmatching h' s)) (StableMarriage.suitors g)))
             (StableMarriage.blockingPairs g)), h')
    /\ SM_solved h' (StableMarriage.suitors g) (StableMarriage.reviewers g)
    /\ NoDup (StableMarriage.suitors g).
Proof.
  intros Hnew ND RD Hfuel.
  destruct (StableMarriage_new_ready _ _ _ _ _ Hnew ND RD) as [Hready _].
  destruct (stableMarriage_solved h _ _ optimal fuel Hready Hfuel) as [h' [E Hs]].
  assert (NDS : NoDup (StableMarriage.suitors g)).
  { apply nodupb_NoDup in ND. now apply NoDup_app_remove_r in ND. }
  exists h'. split; [|split; [exact Hs|exact NDS]].
  unfold StableMarriage_solve. rewrite (bind_ok _ _ _ _ _ E).
  rewrite SingleMatching_copy; [reflexivity|].
  rewrite map_map. simpl. now rewrite map_id.
Qed.

(** X1. Stable Marriage: for a game returned by the constructor whose
    players are listed once and whose rankings have no repeated entry,
    [solve] (in either direction) returns without an error once it is
    given fuel for [n + n * n] iterations of its loop, [n] the number of
    suitors; the matching it returns and stores is one-to-one between
    the suitors and the reviewers, and agrees with the [matching] fields
    of the players. *)
Theorem StableMarriage_solve_perfect_matching
    (c : heap) (suitors0 reviewers0 : list value) (g : StableMarriage.t) (h : heap)
    (optimal : SMOptimal) (fuel : nat) :
  StableMarriage_new suitors0 reviewers0 c = (Ok g, h) ->
  nodupb (StableMarriage.suitors g ++ StableMarriage.reviewers g) = true ->
  rankings_distinct h (StableMarriage.suitors g ++ StableMarriage.reviewers g) = true ->
  List.length (StableMarriage.suitors g)
    + List.length (StableMarriage.suitors g) * List.length (StableMarriage.suitors g)
    <= fuel ->
  exists g' h' m,
    StableMarriage_solve fuel g optimal h = (Ok g', h')
    /\ StableMarriage.matching g' = Some m
    /\ perfect_matching m (StableMarriage.suitors g) (StableMarriage.reviewers g)
    /\ (forall s r, map_get s m = Some r -> pmatching h' s = r /\ pmatching h' r = s).
Proof.
  intros Hnew ND RD Hfuel.
  destruct (StableMarriage_solve_solved c _ _ g h optimal fuel Hnew ND RD Hfuel)
    as [h' [E [[Pl [HS [HR _]]] NDS]]].
  eexists. exists h'. eexists. split; [exact E|]. split; [reflexivity|].
  split; [split; [|split]|].
  - intros x Hx. exists (pmatching h' x). rewrite map_get_pairs.
    apply includes_In in Hx as Ix. rewrite Ix. split; [reflexivity|]. now apply HS.
  - intros x x' y Hx Hx'. rewrite !map_get_pairs.
    apply includes_In in Hx as Ix. apply includes_In in Hx' as Ix'. rewrite Ix, Ix'.
    intros E1 E2. injection E1 as E1. injection E2 as E2.
    destruct (HS x Hx) as [_ [Bx _]]. destruct (HS x' Hx') as [_ [Bx' _]].
    rewrite <- Bx, <- Bx'. congruence.
  - intros y Hy. destruct (HR y Hy) as [A [B _]]. exists (pmatching h' y).
    split; [exact A|]. rewrite map_get_pairs. apply includes_In in A. now rewrite A, B.
  - intros s r. rewrite map_get_pairs.
    destruct (includes (StableMarriage.suitors g) s) eqn:Is; [|discriminate].
    apply includes_In in Is. intros E1. injection E1 as <-.
    destruct (HS s Is) as [_ [B _]]. auto.
Qed.

Lemma StableMarriage_solve_perfect_matching_witness :
  StableMarriage_new [ref 0; ref 1; ref 2] [ref 3; ref 4; ref 5] sm_caller_heap
    = (Ok sm_built_game, sm_built_heap)
  /\ nodupb (StableMarriage.suitors sm_built_game ++ StableMarriage.reviewers sm_built_game)
     = true
  /\ rankings_distinct sm_built_heap
       (StableMarriage.suitors sm_built_game ++ StableMarriage.reviewers sm_built_game)
     = true
  /\ exists g' h' m,
       StableMarriage_solve 12 sm_built_game reviewer_optimal sm_built_heap = (Ok g', h')
       /\ StableMarriage.matching g' = Some m
       /\ perfect_matching m (StableMarriage.suitors sm_built_game)
            (StableMarriage.reviewers sm_built_game)
       /\ (forall s r, map_get s m = Some r -> pmatching h' s = r /\ pmatching h' r = s).
Proof.
  split; [vm_compute; reflexivity|]. split; [vm_compute; reflexivity|].
  split; [vm_compute; reflexivity|].
  apply (StableMarriage_solve_perfect_matching sm_caller_heap
           [ref 0; ref 1; ref 2] [ref 3; ref 4; ref 5] sm_built_game sm_built_heap
           reviewer_optimal 12).
  - vm_compute. reflexivity.
  - vm_compute. reflexivity.
  - vm_compute. reflexivity.
  - simpl. lia.
Defined.

(** X2. Stable Marriage: the game [solve] leaves (same hypotheses as
    for X1) passes [checkValidity]: it returns [true] instead of
    throwing a [MatchingError], and changes nothing. *)
Theorem StableMarriage_solved_game_is_valid
    (c : heap) (suitors0 reviewers0 : list value) (g : StableMarriage.t) (h : heap)
    (optimal : SMOptimal) (fuel : nat) :
  StableMarriage_new suitors0 reviewers0 c = (Ok g, h) ->
  nodupb (StableMarriage.suitors g ++ StableMarriage.reviewers g) = true ->
  rankings_distinct h (StableMarriage.suitors g ++ StableMarriage.reviewers g) = true ->
  List.length (StableMarriage.suitors g)
    + List.length (StableMarriage.suitors g) * List.length (StableMarriage.suitors g)
    <= fuel ->
  exists g' h',
    StableMarriage_solve fuel g optimal h = (Ok g', h')
    /\ StableMarriage_checkValidity g' h' = (Ok true, h').
Proof.
  intros Hnew ND RD Hfuel.
  destruct (StableMarriage_solve_solved c _ _ g h optimal fuel Hnew ND RD Hfuel)
    as [h' [E [Hs NDS]]].
  eexists. exists h'. split; [exact E|].
  pose proof (SM_solved_valid h' _ _ Hs (StableMarriage.blockingPairs g) NDS) as V.
  rewrite SingleMatching_copy in V; [exact V|].
  rewrite map_map. simpl. now rewrite map_id.
Qed.

Lemma StableMarriage_solved_game_is_valid_witness :
  StableMarriage_new [ref 0; ref 1; ref 2] [ref 3; ref 4; ref 5] sm_caller_heap
    = (Ok sm_built_game, sm_built_heap)
  /\ exists g' h',
       StableMarriage_solve 12 sm_built_game suitor_optimal sm_built_heap = (Ok g', h')
       /\ StableMarriage_checkValidity g' h' = (Ok true, h').
Proof.
  split; [vm_compute; reflexivity|].
  apply (StableMarriage_solved_game_is_valid sm_caller_heap
           [ref 0; ref 1; ref 2] [ref 3; ref 4; ref 5] sm_built_game sm_built_heap
           suitor_optimal 12).
  - vm_compute. reflexivity.
  - vm_compute. reflexivity.
  - vm_compute. reflexivity.
  - simpl. lia.
Defined.

(** X3. Stable Marriage: the matching [solve] leaves (same hypotheses
    as for X1) is stable: [checkStability] returns [true] and records an
    empty list of blocking pairs, in either direction of optimality. *)
Theorem StableMarriage_solved_game_is_stable
    (c : heap) (suitors0 reviewers0 : list value) (g : StableMarriage.t) (h : heap)
    (optimal : SMOptimal) (fuel : nat) :
  StableMarriage_new suitors0 reviewers0 c = (Ok g, h) ->
  nodupb (StableMarriage.suitors g ++ StableMarriage.reviewers g) = true ->
  rankings_distinct h (StableMarriage.suitors g ++ StableMarriage.reviewers g) = true ->
  List.length (StableMarriage.suitors g)
    + List.length (StableMarriage.suitors g) * List.length (StableMarriage.suitors g)
    <= fuel ->
  exists g' h',
    StableMarriage_solve fuel g optimal h = (Ok g', h')
    /\ StableMarriage_checkStability g' h'
       = (Ok (true, StableMarriage.mk (StableMarriage.suitors g') (StableMarriage.reviewers g')
                      (StableMarriage.matching g') (Some [])), h').
Proof.
  intros Hnew ND RD Hfuel.
  destruct (StableMarriage_solve_solved c _ _ g h optimal fuel Hnew ND RD Hfuel)
    as [h' [E [Hs NDS]]].
  eexists. exists h'. split; [exact E|].
  unfold StableMarriage_checkStability. simpl.
  rewrite (bind_ok _ _ _ _ _ (SM_solved_no_blocking h' _ _ Hs [])). reflexivity.
Qed.

Lemma StableMarriage_solved_game_is_stable_witness :
  StableMarriage_new [ref 0; ref 1; ref 2] [ref 3; ref 4; ref 5] sm_caller_heap
    = (Ok sm_built_game, sm_built_heap)
  /\ exists g' h',
       StableMarriage_solve 12 sm_built_game reviewer_optimal sm_built_heap = (Ok g', h')
       /\ StableMarriage_checkStability g' h'
          = (Ok (true, StableMarriage.mk (StableMarriage.suitors g')
                         (StableMarriage.reviewers g')
                         (StableMarriage.matching g') (Some [])), h').
Proof.
  split; [vm_compute; reflexivity|].
  apply (StableMarriage_solved_game_is_stable sm_caller_heap
           [ref 0; ref 1; ref 2] [ref 3; ref 4; ref 5] sm_built_game sm_built_heap
           reviewer_optimal 12).
  - vm_compute. reflexivity.
  - vm_compute. reflexivity.
  - vm_compute. reflexivity.
  - simpl. lia.
Defined.

(* ================================================================== *)
(** ** The matching classes *)
(* ================================================================== *)

Lemma set_matching_total (a b : value) (h : heap) :
  is_player h a = true ->
  exists h', set_matching a b h = (Ok tt, h')
    /\ (forall v, pmatching h' v = if value_eqb v a then b else pmatching h v)
    /\ (forall v, pprefs h' v = pprefs h v)
    /\ (forall v, is_player h' v = is_player h v)
    /\ (forall v, porig h' v = porig h v)
    /\ (forall v, v <> a -> obj_at h' v = obj_at h v).
Proof.
  intros H. destruct (is_player_obj _ _ H) as [n [p [-> En]]].
  exists (upd n (PlayerObj (Player.with_matching b p)) h). split.
  { unfold set_matching. rewrite (bind_ok _ _ _ _ _ (getPlayer_at "matching" (ref n) h p En)).
    reflexivity. }
  split; [|split; [|split; [|split]]]; try (player_views n En).
  intros v N. now apply obj_at_upd_other.
Qed.

Lemma map_set_keys {V : Type} (k : value) (v : V) (m : jsmap V) :
  map_get k m <> None -> map fst (map_set k v m) = map fst m.
Proof.
  induction m as [|[k' v'] m IH]; simpl; [congruence|].
  destruct (value_eqb_spec k' k) as [->|N]; simpl; [reflexivity|].
  intros H. now rewrite IH.
Qed.

(** X4. [SingleMatching.set]: for a player that is not a key it throws
    an [Error] naming the player and changes nothing.  For a key it
    makes the player and the new match (unless [null]) point at each
    other and stores the new match under the key; the keys, their order
    and every other entry stay as they are, and so does every entity
    other than the two, the previous partner of either included. *)
Theorem SingleMatching_set_spec (data : jsmap value) (player newMatch : value) (h : heap) :
  is_player h player = true ->
  newMatch = null \/ is_player h newMatch = true ->
  (SingleMatching_has data player = false ->
     exists p, obj_at h player = Some (PlayerObj p)
       /\ SingleMatching_set data player newMatch h
          = (Throw (Error (Player.name p ++ " is not a key in this matching.")%string), h))
  /\ (SingleMatching_has data player = true ->
     exists data' h',
       SingleMatching_set data player newMatch h = (Ok data', h')
       /\ SingleMatching_get data' player = Some newMatch
       /\ (forall k, k <> player -> SingleMatching_get data' k = SingleMatching_get data k)
       /\ SingleMatching_keys data' = SingleMatching_keys data
       /\ pmatching h' player = newMatch
       /\ (newMatch <> null -> pmatching h' newMatch = player)
       /\ (forall v, v <> player -> v <> newMatch -> obj_at h' v = obj_at h v)
       /\ (forall v, pprefs h' v = pprefs h v)).
Proof.
  intros Pl Hnew. split; intros Hhas; unfold SingleMatching_set; rewrite Hhas; cbn [negb].
  - destruct (player_view h player Pl) as [p [E _]]. exists p. split; [exact E|].
    destruct (is_player_ref _ _ Pl) as [a ->]. unfold show, toString.
    rewrite (bind_ok _ _ _ _ _ (bind_ok _ _ _ _ _ (load_at _ _ _ _ E))). reflexivity.
  - destruct (set_matching_total player newMatch h Pl) as [h1 [E1 [M1 [P1 [I1 [_ F1]]]]]].
    rewrite (bind_ok _ _ _ _ _ E1).
    assert (Hkey : map_get player data <> None).
    { unfold SingleMatching_has in Hhas. destruct (map_get player data); congruence. }
    destruct (value_eqb_spec newMatch null) as [->|Nn]; cbn [negb].
    + exists (map_set player null data), h1. split; [reflexivity|].
      split; [apply map_get_set_same|]. split; [intros k Hk; now apply map_get_set_other|].
      split; [now apply map_set_keys|]. split.
      { rewrite M1. now rewrite value_eqb_refl. }
      split; [congruence|]. split; [intros v N _; now apply F1|exact P1].
    + destruct Hnew as [Hnew|Hnew]; [contradiction|].
      assert (Pl1 : is_player h1 newMatch = true) by now rewrite I1.
      destruct (set_matching_total newMatch player h1 Pl1) as [h2 [E2 [M2 [P2 [I2 [_ F2]]]]]].
      rewrite (bind_ok _ _ _ _ _ E2).
      exists (map_set player newMatch data), h2. split; [reflexivity|].
      split; [apply map_get_set_same|]. split; [intros k Hk; now apply map_get_set_other|].
      split; [now apply map_set_keys|]. split.
      { rewrite M2, M1, value_eqb_refl.
        destruct (value_eqb_spec player newMatch) as [E|_]; [exact E|reflexivity]. }
      split; [intros _; rewrite M2; now rewrite value_eqb_refl|].
      split; [intros v N1 N2; rewrite F2, F1; auto|].
      intros v. now rewrite P2, P1.
Qed.

Lemma SingleMatching_set_spec_witness :
  is_player sm_built_heap (ref 6) = true
  /\ is_player sm_built_heap (ref 9) = true
  /\ SingleMatching_has [(ref 6, null); (ref 7, null)] (ref 6) = true
  /\ exists data' h',
        SingleMatching_set [(ref 6, null); (ref 7, null)] (ref 6) (ref 9) sm_built_heap
        = (Ok data', h')
        /\ SingleMatching_get data' (ref 6) = Some (ref 9)
        /\ (forall k, k <> ref 6 ->
              SingleMatching_get data' k
              = SingleMatching_get [(ref 6, null); (ref 7, null)] k)
        /\ SingleMatching_keys data' = SingleMatching_keys [(ref 6, null); (ref 7, null)]
        /\ pmatching h' (ref 6) = ref 9
        /\ (ref 9 <> null -> pmatching h' (ref 9) = ref 6)
        /\ (forall v, v <> ref 6 -> v <> ref 9 -> obj_at h' v = obj_at sm_built_heap v)
        /\ (forall v, pprefs h' v = pprefs sm_built_heap v).
Proof.
  split; [vm_compute; reflexivity|]. split; [vm_compute; reflexivity|].
  split; [vm_compute; reflexivity|].
  apply (proj2 (SingleMatching_set_spec [(ref 6, null); (ref 7, null)] (ref 6) (ref 9)
                  sm_built_heap eq_refl (or_intror eq_refl))).
  vm_compute. reflexivity.
Defined.

Lemma set_matching_all_total (x : value) (l : list value) :
  forall h,
    (forall p, In p l -> is_player h p = true) ->
    exists h', forEach l (fun player => set_matching player x) h = (Ok tt, h')
      /\ (forall v, pmatching h' v = if includes l v then x else pmatching h v)
      /\ (forall v, is_player h' v = is_player h v)
      /\ (forall v, ~ In v l -> obj_at h' v = obj_at h v).
Proof.
  induction l as [|p l IH]; intros h Pl; simpl.
  - exists h. repeat split; auto.
  - destruct (set_matching_total p x h (Pl p (or_introl eq_refl)))
      as [h1 [E1 [M1 [_ [I1 [_ F1]]]]]].
    destruct (IH h1) as [h2 [E2 [M2 [I2 F2]]]].
    { intros q Hq. rewrite I1. apply Pl. now right. }
    exists h2. split; [now rewrite (bind_ok _ _ _ _ _ E1)|]. repeat split.
    + intros v. rewrite M2, M1.
      change (includes (p :: l) v) with (value_eqb v p || includes l v).
      destruct (includes l v); [now rewrite orb_true_r|]. now rewrite orb_false_r.
    + intros v. now rewrite I2, I1.
    + intros v Hv. rewrite F2 by (intros Hin; apply Hv; now right).
      apply F1. intros E. apply Hv. now left.
Qed.

(** X5. [MultipleMatching.set]: for a hospital that is not a key it
    throws an [Error] naming the hospital and changes nothing.  For a
    key it gives the hospital the new list of matches, points every
    player of that list at the hospital, and stores the list under the
    key; keys, other entries and all other entities (the players the
    hospital held before included) stay as they are. *)
Theorem MultipleMatching_set_spec (data : jsmap (list value)) (hospital : value)
    (newMatches : list value) (h : heap) (x : Hospital.t) :
  obj_at h hospital = Some (HospitalObj x) ->
  (forall p, In p newMatches -> is_player h p = true) ->
  (MultipleMatching_has data hospital = false ->
     MultipleMatching_set data hospital newMatches h
     = (Throw (Error (Hospital.name x ++ " is not a key in this matching.")%string), h))
  /\ (MultipleMatching_has data hospital = true ->
     exists data' h',
       MultipleMatching_set data hospital newMatches h = (Ok data', h')
       /\ MultipleMatching_get data' hospital = Some newMatches
       /\ (forall k, k <> hospital ->
             MultipleMatching_get data' k = MultipleMatching_get data k)
       /\ MultipleMatching_keys data' = MultipleMatching_keys data
       /\ obj_at h' hospital = Some (HospitalObj (Hospital.with_matching newMatches x))
       /\ (forall p, In p newMatches -> pmatching h' p = hospital)
       /\ (forall v, v <> hospital -> ~ In v newMatches -> obj_at h' v = obj_at h v)).
Proof.
  intros Ex Pl. destruct (obj_at_ref _ _ _ Ex) as [a [-> Ea]].
  split; intros Hhas; unfold MultipleMatching_set; rewrite Hhas; cbn [negb].
  - unfold show, toString.
    rewrite (bind_ok _ _ _ _ _ (bind_ok _ _ _ _ _ (load_at _ _ _ _ Ex))). reflexivity.
  - rewrite (bind_ok _ _ _ _ _ (getHospital_at _ _ _ _ Ex)).
    set (h1 := upd a (HospitalObj (Hospital.with_matching newMatches x)) h).
    assert (E1 : store (ref a) (HospitalObj (Hospital.with_matching newMatches x)) h
                 = (Ok tt, h1)) by reflexivity.
    rewrite (bind_ok _ _ _ _ _ E1).
    assert (Hnot : ~ In (ref a) newMatches).
    { intros Hin. specialize (Pl _ Hin). unfold is_player in Pl. rewrite Ex in Pl.
      discriminate. }
    assert (Pl1 : forall p, In p newMatches -> is_player h1 p = true).
    { intros p Hp. unfold is_player, h1. rewrite obj_at_upd_other; [now apply Pl|].
      intros E. subst p. contradiction. }
    destruct (set_matching_all_total (ref a) newMatches h1 Pl1) as [h2 [E2 [M2 [I2 F2]]]].
    rewrite (bind_ok _ _ _ _ _ E2).
    assert (Hkey : map_get (ref a) data <> None).
    { unfold MultipleMatching_has in Hhas. destruct (map_get (ref a) data); congruence. }
    exists (map_set (ref a) newMatches data), h2. split; [reflexivity|].
    split; [apply map_get_set_same|]. split; [intros k Hk; now apply map_get_set_other|].
    split; [now apply map_set_keys|]. split; [|split].
    + rewrite (F2 _ Hnot). unfold h1. apply (obj_at_upd_same _ _ _ _ Ea).
    + intros p Hp. rewrite M2. apply includes_In in Hp. now rewrite Hp.
    + intros v N1 N2. rewrite (F2 _ N2). unfold h1. now apply obj_at_upd_other.
Qed.

Lemma MultipleMatching_set_spec_witness :
  MultipleMatching_has [(ref 3, [ref 0]); (ref 4, [])] (ref 4) = true
  /\ exists data' h',
       MultipleMatching_set [(ref 3, [ref 0]); (ref 4, [])] (ref 4) [ref 1; ref 2]
         hr_caller_heap = (Ok data', h')
       /\ MultipleMatching_get data' (ref 4) = Some [ref 1; ref 2]
       /\ (forall k, k <> ref 4 ->
             MultipleMatching_get data' k
             = MultipleMatching_get [(ref 3, [ref 0]); (ref 4, [])] k)
       /\ MultipleMatching_keys data'
          = MultipleMatching_keys [(ref 3, [ref 0]); (ref 4, [])]
       /\ obj_at h' (ref 4)
          = Some (HospitalObj (Hospital.with_matching [ref 1; ref 2]
                    (Hospital.mk IsHospital "Y" 1 1 [ref 1; ref 0; ref 2] ["B"; "A"; "C"]
                       (Some [ref 1; ref 0; ref 2]) [] null [])))
       /\ (forall p, In p [ref 1; ref 2] -> pmatching h' p = ref 4)
       /\ (forall v, v <> ref 4 -> ~ In v [ref 1; ref 2] ->
             obj_at h' v = obj_at hr_caller_heap v).
Proof.
  split; [vm_compute; reflexivity|].
  assert (H1 : obj_at hr_caller_heap (ref 4)
               = Some (HospitalObj
                         (Hospital.mk IsHospital "Y" 1 1 [ref 1; ref 0; ref 2]
                            ["B"; "A"; "C"] (Some [ref 1; ref 0; ref 2]) [] null [])))
    by (vm_compute; reflexivity).
  assert (H2 : forall p, In p [ref 1; ref 2] -> is_player hr_caller_heap p = true)
    by (intros p [<-|[<-|[]]]; vm_compute; reflexivity).
  apply (proj2 (MultipleMatching_set_spec [(ref 3, [ref 0]); (ref 4, [])] (ref 4)
                  [ref 1; ref 2] hr_caller_heap _ H1 H2)).
  vm_compute. reflexivity.
Defined.
Lemma record_set_fresh {V : Type} (k : string) (v : V) (r : list (string * V)) :
  ~ In k (map fst r) -> record_set k v r = r ++ [(k, v)].
Proof.
  induction r as [|[k' v'] r IH]; simpl; [reflexivity|]. intros H.
  destruct (String.eqb_spec k' k) as [E|N]; [exfalso; apply H; now left|].
  rewrite IH; auto.
Qed.

Lemma names_of_total (l : list value) (h : heap) :
  (forall x, In x l -> obj_at h x <> None) ->
  names_of l h = (Ok (map (name_at h) l), h).
Proof.
  unfold names_of. induction l as [|x l IH]; intros H; simpl; [reflexivity|].
  destruct (obj_at h x) as [o|] eqn:E; [|exfalso; now apply (H x (or_introl eq_refl))].
  assert (Hn : name_at h x = obj_name o) by (unfold name_at; now rewrite E).
  assert (E1 : (o <- load "name" x ;; ret (obj_name o)) h = (Ok (obj_name o), h))
    by now rewrite (bind_ok _ _ _ _ _ (load_at "name" _ _ _ E)).
  rewrite (bind_ok _ _ _ _ _ E1).
  rewrite (bind_ok _ _ _ _ _ (IH (fun y Hy => H y (or_intror Hy)))).
  now rewrite Hn.
Qed.

(** *** Plain objects: where a new property goes *)

Section Plain_object.

Context {V : Type}.

Lemma record_get_fresh (k : string) (r : list (string * V)) :
  ~ In k (map fst r) -> record_get k r = None.
Proof.
  induction r as [|[k' v'] r IH]; simpl; [reflexivity|]. intros H.
  destruct (String.eqb_spec k' k) as [E|N]; [exfalso; apply H; now left|].
  apply IH. intros Hin. apply H. now right.
Qed.

Lemma object_set_fresh (k : string) (v : V) (r : list (string * V)) :
  ~ In k (map fst r) -> object_set k v r = object_add k v r.
Proof. intros H. unfold object_set. now rewrite record_get_fresh. Qed.

Lemma object_add_perm (k : string) (v : V) (r : list (string * V)) :
  Permutation (r ++ [(k, v)]) (object_add k v r).
Proof.
  induction r as [|[k' v'] r IH]; [reflexivity|]. cbn [object_add app].
  assert (Front : Permutation ((k', v') :: r ++ [(k, v)]) ((k, v) :: (k', v') :: r)).
  { change ((k', v') :: r ++ [(k, v)]) with (((k', v') :: r) ++ [(k, v)]).
    apply Permutation_sym, Permutation_cons_append. }
  destruct (array_index k) as [n|]; [|now constructor].
  destruct (array_index k') as [n'|]; [|exact Front].
  destruct (N.ltb n n'); [exact Front|now constructor].
Qed.

Lemma record_set_keys (k : string) (v : V) (r : list (string * V)) (x : string) :
  In x (map fst (record_set k v r)) -> x = k \/ In x (map fst r).
Proof.
  induction r as [|[k' v'] r IH]; simpl.
  - intros [H|[]]. now left.
  - destruct (String.eqb k' k); simpl; [tauto|].
    intros [H|H]; [tauto|]. destruct (IH H); tauto.
Qed.

Lemma object_set_keys (k : string) (v : V) (r : list (string * V)) (x : string) :
  In x (map fst (object_set k v r)) -> x = k \/ In x (map fst r).
Proof.
  unfold object_set. destruct (record_get k r); [apply record_set_keys|].
  intros H. apply (Permutation_in _ (Permutation_map fst
                     (Permutation_sym (object_add_perm k v r)))) in H.
  rewrite map_app in H. apply in_app_or in H.
  destruct H as [H|[H|[]]]; [now right|left; now symmetry].
Qed.

Lemma key_before_trans (a b c : string) :
  key_before a b -> key_before b c -> key_before a c.
Proof.
  unfold key_before.
  destruct (array_index a), (array_index b), (array_index c); try tauto. lia.
Qed.

(** A new property goes where the order of the keys wants it. *)
Lemma object_add_sorted (k : string) (v : V) (r : list (string * V)) :
  StronglySorted key_before (map fst r) ->
  StronglySorted key_before (map fst (object_add k v r)).
Proof.
  induction r as [|[k' v'] r IH]; intros S; [repeat constructor|].
  cbn [map fst] in S. apply StronglySorted_inv in S. destruct S as [S F].
  assert (Before : key_before k k' ->
            StronglySorted key_before (map fst ((k, v) :: (k', v') :: r))).
  { intros B. cbn [map fst]. constructor; [now constructor|].
    constructor; [exact B|]. rewrite Forall_forall in *.
    intros x Hx. exact (key_before_trans _ _ _ B (F x Hx)). }
  assert (After : key_before k' k ->
            StronglySorted key_before (map fst ((k', v') :: object_add k v r))).
  { intros B. cbn [map fst]. constructor; [now apply IH|].
    rewrite Forall_forall in *. intros x Hx.
    apply (Permutation_in _ (Permutation_map fst
             (Permutation_sym (object_add_perm k v r)))) in Hx.
    rewrite map_app in Hx. apply in_app_or in Hx.
    destruct Hx as [Hx|[<-|[]]]; [now apply F|exact B]. }
  cbn [object_add]. unfold key_before in Before, After.
  destruct (array_index k) as [n|]; destruct (array_index k') as [n'|].
  - destruct (N.ltb_spec n n'); [apply Before|apply After]; lia.
  - now apply Before.
  - now apply After.
  - now apply After.
Qed.

(** Among the keys of one class, a new property goes last. *)
Lemma object_add_stable (c : option N) (k : string) (v : V) (r : list (string * V)) :
  StronglySorted key_before (map fst r) ->
  filter (key_class_is c) (object_add k v r) = filter (key_class_is c) (r ++ [(k, v)]).
Proof.
  induction r as [|[k' v'] r IH]; intros S; [reflexivity|].
  cbn [map fst] in S. apply StronglySorted_inv in S. destruct S as [S F].
  assert (After : filter (key_class_is c) ((k', v') :: object_add k v r)
                  = filter (key_class_is c) (((k', v') :: r) ++ [(k, v)])).
  { cbn [filter app]. now rewrite IH. }
  assert (Before : (forall e, In e ((k', v') :: r) -> key_class_is c (k, v) = true ->
                      key_class_is c e = false) ->
                   filter (key_class_is c) ((k, v) :: (k', v') :: r)
                   = filter (key_class_is c) (((k', v') :: r) ++ [(k, v)])).
  { intros H. remember ((k', v') :: r) as L eqn:EL. rewrite filter_app. simpl.
    destruct (key_class_is c (k, v)) eqn:Ek.
    - assert (E0 : filter (key_class_is c) L = []).
      { apply nil_no_members. intros e He. apply filter_In in He. destruct He as [He Ce].
        rewrite (H e He eq_refl) in Ce. discriminate. }
      now rewrite E0.
    - now rewrite app_nil_r. }
  assert (Later : forall e, In e ((k', v') :: r) -> key_before k' (fst e)).
  { intros e [<-|He].
    - unfold key_before. simpl. destruct (array_index k'); [lia|exact I].
    - rewrite Forall_forall in F. apply F. now apply in_map. }
  cbn [object_add].
  destruct (array_index k) as [n|] eqn:Ak; destruct (array_index k') as [n'|] eqn:Ak';
    [|apply Before| |]; [|intros e He Ce|exact After|exact After].
  - destruct (N.ltb_spec n n') as [Lt|Ge]; [apply Before|exact After].
    intros e He Ce. specialize (Later e He).
    unfold key_before in Later. rewrite Ak' in Later. unfold key_class_is in *.
    simpl in Ce. rewrite Ak in Ce.
    destruct c as [m|]; [|discriminate]. apply N.eqb_eq in Ce. subst m.
    destruct (array_index (fst e)) as [ne|]; [|reflexivity].
    apply N.eqb_neq. lia.
  - specialize (Later e He).
    unfold key_before in Later. rewrite Ak' in Later. unfold key_class_is in *.
    simpl in Ce. rewrite Ak in Ce.
    destruct c as [m|]; [|discriminate].
    destruct (array_index (fst e)) as [ne|]; [destruct Later|reflexivity].
Qed.

End Plain_object.

(** *** [toRecord] *)

Lemma SingleMatching_toRecord_ordered (h : heap) (data : jsmap value) :
  forall result,
    (forall kv, In kv data ->
       obj_at h (fst kv) <> None
       /\ (truthy (snd kv) = true -> obj_at h (snd kv) <> None)) ->
    NoDup (map fst result ++ map (fun kv => name_at h (fst kv)) data) ->
    ~ In "__proto__" (map (fun kv => name_at h (fst kv)) data) ->
    StronglySorted key_before (map fst result) ->
    exists r,
      SingleMatching_toRecord data result true h = (Ok r, h)
      /\ Permutation (result ++ map (single_entry h) data) r
      /\ StronglySorted key_before (map fst r)
      /\ (forall c, filter (key_class_is c) r
                    = filter (key_class_is c) (result ++ map (single_entry h) data)).
Proof.
  induction data as [|[k v] data IH]; intros result Hd ND Np S; simpl.
  - exists result. rewrite app_nil_r. repeat split; auto.
  - destruct (Hd (k, v) (or_introl eq_refl)) as [Hk Hv]. simpl in Hk, Hv.
    destruct (obj_at h k) as [ok|] eqn:Ek; [|congruence].
    rewrite (bind_ok _ _ _ _ _ (load_at "name" _ _ _ Ek)).
    assert (Ev : (if truthy v
                  then o <- load "name" v ;; ret (Some (obj_name o))
                  else ret None) h
                 = (Ok (if truthy v then Some (name_at h v) else None), h)).
    { destruct (truthy v); [|reflexivity].
      destruct (obj_at h v) as [ov|] eqn:Eov; [|exfalso; now apply Hv].
      rewrite (bind_ok _ _ _ _ _ (load_at "name" _ _ _ Eov)).
      unfold name_at. now rewrite Eov. }
    rewrite (bind_ok _ _ _ _ _ Ev).
    assert (Hn : name_at h k = obj_name ok) by (unfold name_at; now rewrite Ek).
    simpl in ND, Np. rewrite Hn in ND, Np.
    assert (Ekey : String.eqb (obj_name ok) "__proto__" = false).
    { apply String.eqb_neq. intros E. apply Np. left. now symmetry. }
    rewrite Ekey. cbn [andb].
    assert (Fresh : ~ In (obj_name ok) (map fst result)).
    { apply NoDup_remove_2 in ND. intros Hin. apply ND. apply in_or_app. now left. }
    rewrite (object_set_fresh _ _ _ Fresh).
    set (e := (obj_name ok, if truthy v then Some (name_at h v) else None)).
    assert (Ee : single_entry h (k, v) = e).
    { unfold single_entry, e. cbn [fst snd]. now rewrite Hn. }
    pose proof (object_add_perm (obj_name ok) (snd e) result) as P. fold e in P.
    change (obj_name ok, snd e) with e in P.
    destruct (IH (object_add (obj_name ok) (snd e) result)) as [r [E [Pr [Sr St]]]].
    + intros kv Hkv. apply Hd. now right.
    + apply (Permutation_NoDup
               (l := (map fst result ++ [obj_name ok])
                     ++ map (fun kv => name_at h (fst kv)) data)).
      * apply Permutation_app_tail.
        change [obj_name ok] with (map fst [e]). rewrite <- map_app.
        now apply Permutation_map.
      * rewrite <- app_assoc. exact ND.
    + intros H. apply Np. now right.
    + now apply object_add_sorted.
    + exists r. split; [exact E|]. cbn [map]. rewrite Ee. split; [|split; [exact Sr|]].
      * eapply Permutation_trans; [|exact Pr].
        change (result ++ e :: map (single_entry h) data)
          with (result ++ [e] ++ map (single_entry h) data).
        rewrite app_assoc. now apply Permutation_app_tail.
      * intros c. rewrite St, filter_app, (object_add_stable c _ _ _ S).
        change (obj_name ok, snd e) with e. rewrite <- filter_app, <- app_assoc.
        reflexivity.
Qed.

Lemma MultipleMatching_toRecord_ordered (h : heap) (data : jsmap (list value)) :
  forall result,
    (forall kv, In kv data ->
       obj_at h (fst kv) <> None /\ (forall p, In p (snd kv) -> obj_at h p <> None)) ->
    NoDup (map fst result ++ map (fun kv => name_at h (fst kv)) data) ->
    ~ In "__proto__" (map (fun kv => name_at h (fst kv)) data) ->
    StronglySorted key_before (map fst result) ->
    exists r,
      MultipleMatching_toRecord data result h = (Ok r, h)
      /\ Permutation (result ++ map (multiple_entry h) data) r
      /\ StronglySorted key_before (map fst r)
      /\ (forall c, filter (key_class_is c) r
                    = filter (key_class_is c) (result ++ map (multiple_entry h) data)).
Proof.
  induction data as [|[k v] data IH]; intros result Hd ND Np S; simpl.
  - exists result. rewrite app_nil_r. repeat split; auto.
  - destruct (Hd (k, v) (or_introl eq_refl)) as [Hk Hv]. simpl in Hk, Hv.
    destruct (obj_at h k) as [ok|] eqn:Ek; [|congruence].
    rewrite (bind_ok _ _ _ _ _ (load_at "name" _ _ _ Ek)).
    rewrite (bind_ok _ _ _ _ _ (names_of_total v h Hv)).
    assert (Hn : name_at h k = obj_name ok) by (unfold name_at; now rewrite Ek).
    simpl in ND, Np. rewrite Hn in ND, Np.
    assert (Ekey : String.eqb (obj_name ok) "__proto__" = false).
    { apply String.eqb_neq. intros E. apply Np. left. now symmetry. }
    rewrite Ekey.
    assert (Fresh : ~ In (obj_name ok) (map fst result)).
    { apply NoDup_remove_2 in ND. intros Hin. apply ND. apply in_or_app. now left. }
    rewrite (object_set_fresh _ _ _ Fresh).
    set (e := (obj_name ok, map (name_at h) v)).
    assert (Ee : multiple_entry h (k, v) = e).
    { unfold multiple_entry, e. cbn [fst snd]. now rewrite Hn. }
    pose proof (object_add_perm (obj_name ok) (snd e) result) as P.
    change (obj_name ok, snd e) with e in P.
    destruct (IH (object_add (obj_name ok) (snd e) result)) as [r [E [Pr [Sr St]]]].
    + intros kv Hkv. apply Hd. now right.
    + apply (Permutation_NoDup
               (l := (map fst result ++ [obj_name ok])
                     ++ map (fun kv => name_at h (fst kv)) data)).
      * apply Permutation_app_tail.
        change [obj_name ok] with (map fst [e]). rewrite <- map_app.
        now apply Permutation_map.
      * rewrite <- app_assoc. exact ND.
    + intros H. apply Np. now right.
    + now apply object_add_sorted.
    + exists r. split; [exact E|]. cbn [map]. rewrite Ee. split; [|split; [exact Sr|]].
      * eapply Permutation_trans; [|exact Pr].
        change (result ++ e :: map (multiple_entry h) data)
          with (result ++ [e] ++ map (multiple_entry h) data).
        rewrite app_assoc. now apply Permutation_app_tail.
      * intros c. rewrite St, filter_app, (object_add_stable c _ _ _ S).
        change (obj_name ok, snd e) with e. rewrite <- filter_app, <- app_assoc.
        reflexivity.
Qed.

(** A key named [__proto__] never becomes an entry of the record of a
    [MultipleMatching]. *)
Lemma MultipleMatching_toRecord_no_proto (data : jsmap (list value)) :
  forall result h r h',
    MultipleMatching_toRecord data result h = (Ok r, h') ->
    ~ In "__proto__" (map fst result) -> ~ In "__proto__" (map fst r).
Proof.
  induction data as [|[k v] data IH]; intros result h r h' E Hr; simpl in E.
  - injection E as <- _. exact Hr.
  - apply bind_Ok_inv in E. destruct E as [ok [h1 [_ E]]].
    apply bind_Ok_inv in E. destruct E as [names [h2 [_ E]]].
    apply (IH _ _ _ _ E).
    destruct (String.eqb_spec (obj_name ok) "__proto__") as [Ek|Nk]; [exact Hr|].
    intros H. apply object_set_keys in H. destruct H as [H|H]; [now apply Nk|now apply Hr].
Qed.

(** X6. [toRecord] of both matching classes, when the keys have
    pairwise different names, none of them [__proto__]: the record has
    one entry per key, giving under the key's name the name of its match
    ([null] for an unmatched player), respectively the names of its
    matches in order.  The entries come in the order in which JavaScript
    lists the properties of an object: those whose name is an array index
    first, by ascending index, then the others; entries of one kind (one
    and the same index, or no index) keep the order of the map, so that
    without a name that is an array index the record is in the order of
    the map.  Nothing is changed.  In the record of a [MultipleMatching]
    no entry is named [__proto__], whatever the names of the keys. *)
Theorem toRecord_entries (h : heap) :
  (forall data : jsmap value,
     (forall kv, In kv data ->
        obj_at h (fst kv) <> None
        /\ (truthy (snd kv) = true -> obj_at h (snd kv) <> None)) ->
     NoDup (map (fun kv => name_at h (fst kv)) data) ->
     ~ In "__proto__" (map (fun kv => name_at h (fst kv)) data) ->
     exists r,
       SingleMatching_toRecord data [] true h = (Ok r, h)
       /\ Permutation (map (single_entry h) data) r
       /\ StronglySorted key_before (map fst r)
       /\ (forall c, filter (key_class_is c) r
                     = filter (key_class_is c) (map (single_entry h) data))
       /\ (forallb (key_class_is None) (map (single_entry h) data) = true ->
           r = map (single_entry h) data))
  /\ (forall data : jsmap (list value),
     (forall kv, In kv data ->
        obj_at h (fst kv) <> None /\ (forall p, In p (snd kv) -> obj_at h p <> None)) ->
     NoDup (map (fun kv => name_at h (fst kv)) data) ->
     ~ In "__proto__" (map (fun kv => name_at h (fst kv)) data) ->
     exists r,
       MultipleMatching_toRecord data [] h = (Ok r, h)
       /\ Permutation (map (multiple_entry h) data) r
       /\ StronglySorted key_before (map fst r)
       /\ (forall c, filter (key_class_is c) r
                     = filter (key_class_is c) (map (multiple_entry h) data))
       /\ (forallb (key_class_is None) (map (multiple_entry h) data) = true ->
           r = map (multiple_entry h) data))
  /\ (forall (data : jsmap (list value)) r h',
        MultipleMatching_toRecord data [] h = (Ok r, h') -> ~ In "__proto__" (map fst r)).
Proof.
  assert (All : forall (V : Type) (l r : list (string * V)),
            Permutation l r ->
            filter (key_class_is None) r = filter (key_class_is None) l ->
            forallb (key_class_is None) l = true -> r = l).
  { intros V l r P F A.
    assert (Fl : filter (key_class_is None) l = l).
    { clear P F. induction l as [|e l IHl]; [reflexivity|]. simpl in *.
      apply andb_true_iff in A. destruct A as [A1 A2]. rewrite A1. f_equal. now apply IHl. }
    assert (Fr : filter (key_class_is None) r = r).
    { rewrite forallb_forall in A. clear F Fl.
      assert (Ar : forall e, In e r -> key_class_is None e = true).
      { intros e He. apply A. exact (Permutation_in _ (Permutation_sym P) He). }
      clear P A. induction r as [|e r IHr]; [reflexivity|]. simpl.
      rewrite (Ar e (or_introl eq_refl)). f_equal. apply IHr.
      intros x Hx. apply Ar. now right. }
    congruence. }
  split; [|split].
  - intros data Hd ND Np.
    destruct (SingleMatching_toRecord_ordered h data [] Hd ND Np (SSorted_nil _))
      as [r [E [P [S St]]]].
    exists r. split; [exact E|]. split; [exact P|]. split; [exact S|]. split; [exact St|].
    apply (All _ _ _ P (St None)).
  - intros data Hd ND Np.
    destruct (MultipleMatching_toRecord_ordered h data [] Hd ND Np (SSorted_nil _))
      as [r [E [P [S St]]]].
    exists r. split; [exact E|]. split; [exact P|]. split; [exact S|]. split; [exact St|].
    apply (All _ _ _ P (St None)).
  - intros data r h' E. apply (MultipleMatching_toRecord_no_proto data [] h r h' E).
    intros [].
Qed.

Lemma toRecord_entries_witness :
  NoDup (map (fun kv => name_at sm_built_heap (fst kv)) [(ref 6, ref 9); (ref 7, null)])
  /\ ~ In "__proto__"
         (map (fun kv => name_at sm_built_heap (fst kv)) [(ref 6, ref 9); (ref 7, null)])
  /\ exists r,
       SingleMatching_toRecord [(ref 6, ref 9); (ref 7, null)] [] true sm_built_heap
       = (Ok r, sm_built_heap)
       /\ Permutation (map (single_entry sm_built_heap) [(ref 6, ref 9); (ref 7, null)]) r
       /\ StronglySorted key_before (map fst r)
       /\ (forall c, filter (key_class_is c) r
                     = filter (key_class_is c)
                         (map (single_entry sm_built_heap) [(ref 6, ref 9); (ref 7, null)]))
       /\ (forallb (key_class_is None)
             (map (single_entry sm_built_heap) [(ref 6, ref 9); (ref 7, null)]) = true ->
           r = map (single_entry sm_built_heap) [(ref 6, ref 9); (ref 7, null)]).
Proof.
  assert (ND : NoDup (map (fun kv => name_at sm_built_heap (fst kv))
                        [(ref 6, ref 9); (ref 7, null)])).
  { vm_compute. repeat constructor; simpl; intuition congruence. }
  assert (Np : ~ In "__proto__"
                 (map (fun kv => name_at sm_built_heap (fst kv))
                    [(ref 6, ref 9); (ref 7, null)])).
  { vm_compute. intuition congruence. }
  split; [exact ND|]. split; [exact Np|].
  apply (proj1 (toRecord_entries sm_built_heap) [(ref 6, ref 9); (ref 7, null)]).
  - intros kv [<-|[<-|[]]]; split; vm_compute; congruence.
  - exact ND.
  - exact Np.
Defined.

(* ================================================================== *)
(** ** The original rankings *)
(* ================================================================== *)

Lemma same_originals_refl (h : heap) : same_originals h h.
Proof. intros v. tauto. Qed.

Lemma same_originals_trans (h1 h2 h3 : heap) :
  same_originals h1 h2 -> same_originals h2 h3 -> same_originals h1 h3.
Proof.
  intros A B v. destruct (A v) as [A1 A2]. destruct (B v) as [B1 B2].
  split; [congruence|tauto].
Qed.

Lemma same_originals_upd (a : addr) (o o' : obj) (h : heap) :
  nth_error h a = Some o ->
  originalPrefs_at (upd a o' h) (ref a) = originalPrefs_at h (ref a) ->
  same_originals h (upd a o' h).
Proof.
  intros E H v. destruct (value_eqb_spec v (ref a)) as [->|N].
  - split; [exact H|]. rewrite (obj_at_upd_same _ _ _ _ E). simpl. rewrite E.
    split; discriminate.
  - rewrite (obj_at_upd_other _ _ _ _ N). unfold originalPrefs_at.
    rewrite (obj_at_upd_other _ _ _ _ N). tauto.
Qed.

Lemma same_originals_player (a : addr) (p p' : Player.t) (h : heap) :
  nth_error h a = Some (PlayerObj p) ->
  Player._originalPrefs p' = Player._originalPrefs p ->
  same_originals h (upd a (PlayerObj p') h).
Proof.
  intros E H. apply (same_originals_upd a _ _ h E).
  unfold originalPrefs_at. rewrite (obj_at_upd_same _ _ _ _ E). simpl. now rewrite E.
Qed.

Lemma same_originals_hospital (a : addr) (x x' : Hospital.t) (h : heap) :
  nth_error h a = Some (HospitalObj x) ->
  Hospital._originalPrefs x' = Hospital._originalPrefs x ->
  same_originals h (upd a (HospitalObj x') h).
Proof.
  intros E H. apply (same_originals_upd a _ _ h E).
  unfold originalPrefs_at. rewrite (obj_at_upd_same _ _ _ _ E). simpl. now rewrite E.
Qed.

Lemma getHospital_cases (s : string) (v : value) (h : heap) :
  (exists a x, v = ref a /\ nth_error h a = Some (HospitalObj x)
               /\ getHospital s v h = (Ok x, h))
  \/ (exists e, getHospital s v h = (Throw e, h)).
Proof.
  unfold getHospital, bind, load. destruct v as [| |a]; simpl;
    try (right; eexists; reflexivity).
  destruct (nth_error h a) as [[p|x]|] eqn:E; simpl;
    try (right; eexists; reflexivity).
  left. exists a, x. auto.
Qed.

Lemma Supervisor_forget_originals (this student : value) (h : heap) :
  same_originals h (snd (Supervisor_forget this student h)).
Proof.
  unfold Supervisor_forget.
  destruct (getHospital_cases "_forget" this h) as [[a [x [-> [Ea E]]]]|[e E]].
  - rewrite (bind_ok _ _ _ _ _ E). unfold bind.
    pose proof (someM_heap (fun project => prefs_include "prefs" project student)
                  (Hospital.projects x) (fun y h0 => prefs_include_heap _ _ _ h0) h) as Hs.
    destruct (someM _ (Hospital.projects x) h) as [[b| |] h2]; simpl in Hs; subst h2;
      simpl; try apply same_originals_refl.
    destruct (_ && _); simpl; [|apply same_originals_refl].
    now apply (same_originals_hospital a x).
  - rewrite (bind_throw _ _ _ _ _ E). apply same_originals_refl.
Qed.

Lemma Hospital_match_originals (this r : value) (h : heap) :
  same_originals h (snd (Hospital_match this r h)).
Proof.
  unfold Hospital_match.
  destruct (getHospital_cases "_match" this h) as [[a [x [-> [Ea E]]]]|[e E]].
  - rewrite (bind_ok _ _ _ _ _ E). simpl. now apply (same_originals_hospital a x).
  - rewrite (bind_throw _ _ _ _ _ E). apply same_originals_refl.
Qed.

Lemma Hospital_unmatch_originals (this r : value) (h : heap) :
  same_originals h (snd (Hospital_unmatch this r h)).
Proof.
  unfold Hospital_unmatch.
  destruct (getHospital_cases "_unmatch" this h) as [[a [x [-> [Ea E]]]]|[e E]].
  - rewrite (bind_ok _ _ _ _ _ E). simpl. now apply (same_originals_hospital a x).
  - rewrite (bind_throw _ _ _ _ _ E). apply same_originals_refl.
Qed.

Lemma forget_originals (this other : value) (h : heap) :
  same_originals h (snd (_forget this other h)).
Proof.
  unfold _forget, bind, load. destruct this as [| |a]; simpl; try apply same_originals_refl.
  destruct (nth_error h a) as [[p|x]|] eqn:E; simpl; try apply same_originals_refl.
  - now apply (same_originals_player a p).
  - destruct (Hospital.cls x); simpl.
    + now apply (same_originals_hospital a x).
    + destruct (includes (Hospital.prefs x) other); simpl; [|apply same_originals_refl].
      destruct (truthy (Hospital.supervisor x)); simpl.
      * eapply same_originals_trans; [|apply Supervisor_forget_originals].
        now apply (same_originals_hospital a x).
      * now apply (same_originals_hospital a x).
    + apply Supervisor_forget_originals.
Qed.

Lemma match_originals (this other : value) (h : heap) :
  same_originals h (snd (_match this other h)).
Proof.
  unfold _match, bind, load. destruct this as [| |a]; simpl; try apply same_originals_refl.
  destruct (nth_error h a) as [[p|x]|] eqn:E; simpl; try apply same_originals_refl.
  - now apply (same_originals_player a p).
  - destruct (Hospital.cls x); simpl; try (now apply (same_originals_hospital a x)).
    destruct (truthy (Hospital.supervisor x)); simpl.
    + eapply same_originals_trans; [|apply Hospital_match_originals].
      now apply (same_originals_hospital a x).
    + now apply (same_originals_hospital a x).
Qed.

Lemma unmatch_originals (this arg : value) (h : heap) :
  same_originals h (snd (_unmatch this arg h)).
Proof.
  unfold _unmatch, bind, load. destruct this as [| |a]; simpl; try apply same_originals_refl.
  destruct (nth_error h a) as [[p|x]|] eqn:E; simpl; try apply same_originals_refl.
  - now apply (same_originals_player a p).
  - destruct (Hospital.cls x); simpl; try (now apply (same_originals_hospital a x)).
    destruct (truthy (Hospital.supervisor x)); simpl.
    + eapply same_originals_trans; [|apply Hospital_unmatch_originals].
      now apply (same_originals_hospital a x).
    + now apply (same_originals_hospital a x).
Qed.

Lemma bind_originals {A B : Type} (m : M A) (k : A -> M B) (h : heap) :
  same_originals h (snd (m h)) ->
  (forall x h1, same_originals h1 (snd (k x h1))) ->
  same_originals h (snd (bind m k h)).
Proof.
  intros Hm Hk. unfold bind. destruct (m h) as [[x|e|] h1]; simpl in *; auto.
  eapply same_originals_trans; [exact Hm|apply Hk].
Qed.

Lemma prefers_same_originals (h h' : heap) (v a b : value) :
  same_originals h h' -> fst (prefers v a b h') = fst (prefers v a b h).
Proof.
  intros S. destruct (S v) as [O A].
  unfold prefers, bind, load. destruct v as [| |n]; simpl; try reflexivity.
  unfold originalPrefs_at in O. simpl in O, A.
  destruct (nth_error h' n) as [o'|], (nth_error h n) as [o|]; simpl.
  - destruct o' as [p'|x'], o as [p|x]; simpl in *; rewrite O;
      unfold prefers_in; match goal with |- context [match ?z with _ => _ end] =>
                                           destruct z end; reflexivity.
  - exfalso. assert (Some o' = None) by (apply A; reflexivity). discriminate.
  - exfalso. assert (Some o = None) by (apply A; reflexivity). discriminate.
  - reflexivity.
Qed.

(** X7. The original rankings are never touched by the operations the
    algorithms use: whatever the classes of the entities and whatever
    the outcome, [_forget], [_match], [_unmatch], [deletePair] and
    [matchPair] leave [_originalPrefs] of every entity as it was, so
    that [prefers] answers (or throws) after them as it did before. *)
Theorem originals_survive_the_algorithms (this other : value) (h : heap) :
  same_originals h (snd (_forget this other h))
  /\ same_originals h (snd (_match this other h))
  /\ same_originals h (snd (_unmatch this other h))
  /\ same_originals h (snd (deletePair this other h))
  /\ same_originals h (snd (matchPair this other h))
  /\ (forall h', same_originals h h' ->
        forall v a b, fst (prefers v a b h') = fst (prefers v a b h)).
Proof.
  split; [apply forget_originals|]. split; [apply match_originals|].
  split; [apply unmatch_originals|]. split; [|split].
  - unfold deletePair. apply bind_originals; [apply forget_originals|].
    intros _ h1. apply forget_originals.
  - unfold matchPair. apply bind_originals; [apply match_originals|].
    intros _ h1. apply match_originals.
  - intros h' S v a b. now apply prefers_same_originals.
Qed.

(* ================================================================== *)
(** ** Stable Roommates: validity of a result without warning *)
(* ================================================================== *)

(** When every list has exactly one entry and everybody is held by that
    entry, everybody holds the entry of its list. *)
Lemma matched_from_singletons (P : list value) (h : heap) :
  SR_table P h ->
  (forall p, In p P -> List.length (pprefs h p) = 1) ->
  (forall p, In p P -> pmatching h (at_index (pprefs h p) 0) = p) ->
  SR_all_matched h P.
Proof.
  intros [T [N S]] L Hd p Hp.
  set (q := at_index (pprefs h p) 0).
  assert (Hq : In q (pprefs h p)).
  { apply at_index_0_In. intros E. specialize (L p Hp). rewrite E in L. discriminate. }
  assert (HqP : In q P) by (apply (proj2 (T p Hp)); exact Hq).
  assert (Hhq : at_index (pprefs h q) 0 = p) by (apply singleton_head; auto).
  assert (Mp : pmatching h p = q).
  { rewrite <- Hhq at 1. now apply Hd. }
  split; [apply (proj1 (T p Hp))|]. rewrite Mp. split; [|exact Hq].
  intros E. destruct (T q HqP) as [Pl _]. rewrite E in Pl. discriminate.
Qed.

Lemma stableRoommates_all_matched
    (h : heap) (players : list value) (fuel : nat) (result : jsmap value) (h' : heap) :
  SR_ready h players = true ->
  stableRoommates fuel players h = (Ok (result, []), h') ->
  SR_all_matched h' players.
Proof.
  intros Hready H. destruct (SR_ready_inv _ _ Hready) as [T [M Hd]].
  unfold stableRoommates in H.
  apply bind_Ok_inv in H. destruct H as [pp [h1 [E1 H]]].
  unfold firstPhase in E1. apply bind_Ok_inv in E1. destruct E1 as [[] [h0 [E1 E1']]].
  injection E1' as <- <-.
  destruct (firstPhase_loop_inv players fuel players h h0 T M Hd (incl_refl _) E1)
    as [T1 [M1 Hd1]].
  apply bind_Ok_inv in H. destruct H as [emptyPlayers [h1 [E2 H]]].
  apply filterM_length_is_Ok in E2. destruct E2 as [-> Eempty].
  apply bind_Ok_inv in H. destruct H as [run2 [h1 [E3 H]]].
  apply someM_length_gt_Ok in E3. destruct E3 as [-> Hrun2].
  apply bind_Ok_inv in H. destruct H as [w2 [h2 [E4 H]]].
  apply bind_Ok_inv in H. destruct H as [res [h3 [E5 H]]].
  injection H as -> Hw <-.
  apply app_eq_nil in Hw. destruct Hw as [Hw1 ->].
  apply single_result_Ok in E5. destruct E5 as [-> Hres].
  assert (Hnonempty0 : forall p, In p players -> pprefs h0 p <> []).
  { intros p Hp Hnil.
    assert (Hin : In p emptyPlayers).
    { rewrite Eempty. apply filter_In. split; [exact Hp|]. now rewrite Hnil. }
    destruct emptyPlayers; [destruct Hin|discriminate]. }
  assert (Hone : forall hh, (forall p, In p players -> List.length (pprefs hh p) <= 1) ->
                 (forall p, In p players -> pprefs hh p <> []) ->
                 forall p, In p players -> List.length (pprefs hh p) = 1).
  { intros hh L1 L2 p Hp. specialize (L1 p Hp). specialize (L2 p Hp).
    destruct (pprefs hh p); [congruence|simpl in *; lia]. }
  destruct run2.
  - unfold secondPhase in E4.
    apply bind_Ok_inv in E4. destruct E4 as [player [h4 [F1 E4]]].
    apply findM_length_gt_Ok in F1. destruct F1 as [-> Hfind].
    apply bind_Ok_inv in E4. destruct E4 as [w [h4 [F2 E4]]].
    apply bind_Ok_inv in E4. destruct E4 as [[] [h5 [F3 E4]]].
    injection E4 as -> ->.
    destruct (secondPhase_loop_inv players fuel fuel player h0 h4 [] T1 Hfind F2)
      as [T4 [_ W4]].
    destruct (W4 eq_refl) as [L4 N4].
    assert (N4' : forall p, In p players -> pprefs h4 p <> []).
    { destruct N4 as [->|N4]; auto. }
    pose proof (Hone h4 L4 N4') as One4.
    destruct (final_matching_effect players h4 h2 F3) as [Mf [Prf Plf]].
    assert (Tf : SR_table players h2).
    { destruct T4 as [A [B C]]. split; [|split].
      - intros p Hp. rewrite Plf, Prf. auto.
      - intros p Hp. rewrite Prf. auto.
      - intros p q Hp. rewrite !Prf. auto. }
    assert (Mp : forall p, In p players -> pmatching h2 p = at_index (pprefs h2 p) 0).
    { intros p Hp. rewrite Mf, Prf. rewrite (proj2 (includes_In _ _) Hp).
      rewrite (One4 p Hp). reflexivity. }
    apply (matched_from_singletons players h2 Tf).
    + intros p Hp. rewrite Prf. auto.
    + intros p Hp.
      assert (Hq : In (at_index (pprefs h2 p) 0) (pprefs h2 p)).
      { apply at_index_0_In. rewrite Prf. auto. }
      assert (HqP : In (at_index (pprefs h2 p) 0) players).
      { apply (proj2 (proj1 Tf p Hp)). exact Hq. }
      rewrite (Mp _ HqP). apply singleton_head.
      * rewrite Prf. auto.
      * apply (proj2 (proj2 Tf) p _ Hp Hq).
  - injection E4 as <-.
    apply (matched_from_singletons players h0 T1).
    + apply Hone; auto.
    + intros p Hp. apply Hd1; auto.
Qed.

(** X8. Stable Roommates: for a game the constructor accepted whose
    rankings have no repeated entry, when [solve] returns without a
    no-stable-matching warning everybody is matched to somebody who is
    still on its list, and [checkValidity] returns [true] (it throws no
    [MatchingError]) and changes nothing. *)
Theorem StableRoommates_no_warning_is_valid
    (c : heap) (players0 : list value) (g : StableRoommates.t) (h : heap)
    (fuel : nat) (g' : StableRoommates.t) (h' : heap) :
  StableRoommates_new players0 c = (Ok g, h) ->
  rankings_distinct h (StableRoommates.players g) = true ->
  StableRoommates_solve fuel g h = (Ok (g', []), h') ->
  SR_all_matched h' (StableRoommates.players g')
  /\ StableRoommates_checkValidity g' h' = (Ok true, h').
Proof.
  intros Hnew Hd H. destruct (StableRoommates_new_built _ _ _ _ Hnew) as [Hacc K].
  assert (Hready : SR_ready h (StableRoommates.players g) = true).
  { apply SR_accepted_ready; [exact Hacc|].
    unfold SR_unmatched_distinct. unfold rankings_distinct in Hd.
    rewrite forallb_forall in Hd. apply forallb_forall. intros p Hp.
    destruct (K p Hp) as [x [Ex Mx]]. unfold pmatching. rewrite Ex, Mx. simpl.
    now apply Hd. }
  unfold StableRoommates_solve in H.
  apply bind_Ok_inv in H. destruct H as [[result w] [h1 [E H]]].
  simpl in H. injection H as <- -> <-. simpl.
  pose proof (stableRoommates_all_matched h _ fuel result h1 Hready E) as A.
  split; [exact A|].
  unfold StableRoommates_checkValidity.
  assert (E1 : SR_unmatchedPlayers
                 (StableRoommates.mk (StableRoommates.players g)
                    (Some (SingleMatching result)) (StableRoommates.blockingPairs g)) h1
               = (Ok [], h1)).
  { unfold SR_unmatchedPlayers. simpl. apply issues_of_none. intros p Hp.
    destruct (A p Hp) as [Pl [Hn Hin]].
    rewrite (bind_ok _ _ _ _ _ (Player_acceptable h1 p false Pl Hn Hin)). reflexivity. }
  rewrite (bind_ok _ _ _ _ _ E1). reflexivity.
Qed.

Lemma StableRoommates_no_warning_is_valid_witness :
  StableRoommates_new [ref 0; ref 1; ref 2; ref 3] sr_caller_heap
    = (Ok sr_example_game, sr_example_heap)
  /\ rankings_distinct sr_example_heap sr_example_players = true
  /\ SR_all_matched (snd (StableRoommates_solve 10 sr_example_game sr_example_heap))
       (StableRoommates.players sr_example_game)
  /\ StableRoommates_checkValidity
       (StableRoommates.mk sr_example_players (Some sr_example_result) None)
       (snd (StableRoommates_solve 10 sr_example_game sr_example_heap))
     = (Ok true, snd (StableRoommates_solve 10 sr_example_game sr_example_heap)).
Proof.
  split; [vm_compute; reflexivity|]. split; [vm_compute; reflexivity|].
  apply (StableRoommates_no_warning_is_valid sr_caller_heap [ref 0; ref 1; ref 2; ref 3]
           sr_example_game sr_example_heap 10
           (StableRoommates.mk sr_example_players (Some sr_example_result) None)
           (snd (StableRoommates_solve 10 sr_example_game sr_example_heap))).
  - vm_compute. reflexivity.
  - vm_compute. reflexivity.
  - vm_compute. reflexivity.
Defined.

(* ================================================================== *)
(** ** The constructors of the one-to-one games copy their players *)
(* ================================================================== *)

Lemma map_get_value_Some (k v : value) (cm : jsmap value) :
  map_get k cm = Some v -> map_get_value k cm = v.
Proof. unfold map_get_value. now intros ->. Qed.

(** The first loop of a constructor extends a clone map by the players
    it is given. *)
Lemma clone_players_ok (c : heap) (l : list value) :
  forall keys cm h cm' h',
    (forall k, In k l -> is_player c k = true) ->
    clone_map_ok c keys cm h ->
    (forall k v, map_get k cm = Some v ->
       obj_at h v = Some (PlayerObj (Player.new (name_at c k)))) ->
    clone_players l cm h = (Ok cm', h') ->
    clone_map_ok c (keys ++ l) cm' h'
    /\ (forall k v, map_get k cm' = Some v ->
          obj_at h' v = Some (PlayerObj (Player.new (name_at c k))))
    /\ List.length h' = List.length h + List.length l.
Proof.
  induction l as [|player rest IH]; intros keys cm h cm' h' Pl Ok1 Hnew E; simpl in E.
  - inversion E; subst. rewrite app_nil_r. simpl. split; [exact Ok1|]. split; [exact Hnew|lia].
  - apply bind_Ok_inv in E. destruct E as [p [h1 [E1 E]]].
    apply getPlayer_Ok in E1. destruct E1 as [-> E1].
    apply bind_Ok_inv in E. destruct E as [cl [h2 [E2 E]]].
    unfold alloc in E2. inversion E2; subst. clear E2.
    destruct Ok1 as [K1 [K2 [K3 [K4 K5]]]].
    assert (Hp : is_player c player = true) by (apply Pl; now left).
    destruct (is_player_obj _ _ Hp) as [n [p0 [En Ep0]]].
    assert (Hn : n < List.length c) by (apply nth_error_Some; congruence).
    assert (Epp : p = p0).
    { rewrite En in E1. simpl in E1. rewrite (K4 n Hn), Ep0 in E1. congruence. }
    assert (Ename : Player.name p = name_at c player).
    { unfold name_at. rewrite En. simpl. rewrite Ep0. now rewrite Epp. }
    destruct (IH (keys ++ [player]) (map_set player (ref (List.length h)) cm)
                 (h ++ [PlayerObj (Player.new (Player.name p))]) cm' h') as [A [B C]].
    + intros k Hk. apply Pl. now right.
    + split; [|split; [|split; [|split]]].
      * intros k. rewrite in_app_iff. simpl.
        destruct (value_eqb_spec k player) as [->|N].
        -- rewrite map_get_set_same. split; [auto|discriminate].
        -- rewrite map_get_set_other by exact N. rewrite K1. intuition congruence.
      * intros k v Hk. rewrite length_app. simpl.
        destruct (value_eqb_spec k player) as [->|N].
        -- rewrite map_get_set_same in Hk. injection Hk as <-.
           exists (List.length h). split; [reflexivity|lia].
        -- rewrite map_get_set_other in Hk by exact N.
           destruct (K2 k v Hk) as [a [-> Ha]]. exists a. split; [reflexivity|lia].
      * intros k k' v Hk Hk'.
        destruct (value_eqb_spec k player) as [->|N];
          destruct (value_eqb_spec k' player) as [->|N']; auto.
        -- rewrite map_get_set_same in Hk. injection Hk as <-.
           rewrite map_get_set_other in Hk' by exact N'.
           destruct (K2 k' _ Hk') as [a [Ea Ha]]. injection Ea as <-. lia.
        -- rewrite map_get_set_same in Hk'. injection Hk' as <-.
           rewrite map_get_set_other in Hk by exact N.
           destruct (K2 k _ Hk) as [a [Ea Ha]]. injection Ea as <-. lia.
        -- rewrite map_get_set_other in Hk by exact N.
           rewrite map_get_set_other in Hk' by exact N'. eapply K3; eauto.
      * intros a Ha. rewrite nth_error_app1 by lia. now apply K4.
      * rewrite length_app. simpl. lia.
    + intros k v Hk. destruct (value_eqb_spec k player) as [->|N].
      * rewrite map_get_set_same in Hk. injection Hk as <-.
        rewrite Ename. apply obj_at_alloc.
      * rewrite map_get_set_other in Hk by exact N. apply obj_at_app. now apply Hnew.
    + exact E.
    + split; [|split; [exact B|]].
      * rewrite <- app_assoc in A. exact A.
      * rewrite C, length_app. simpl. lia.
Qed.

Lemma includes_cons (x : value) (l : list value) (v : value) :
  includes (x :: l) v = value_eqb v x || includes l v.
Proof. reflexivity. Qed.

(** The second loop gives every clone the image of its player's ranking. *)
Lemma clone_player_prefs_ok (c : heap) (keys : list value) (cm : jsmap value)
    (l : list value) :
  let f := fun q => map_get_value q cm in
  let ranking := fun k => map f (pprefs c k) in
  forall done h h',
    (forall k, In k l -> In k keys /\ is_player c k = true) ->
    clone_map_ok c keys cm h ->
    (forall k, In k keys -> clone_state c ranking done h k (f k)) ->
    clone_player_prefs cm l h = (Ok tt, h') ->
    clone_map_ok c keys cm h'
    /\ (forall k, In k keys -> clone_state c ranking (l ++ done) h' k (f k))
    /\ (forall k, In k l -> forall q, In q (pprefs c k) -> In q keys).
Proof.
  intros f ranking. unfold clone_player_prefs.
  induction l as [|x l IH]; intros done h h' Hl Ok1 St E; simpl in E.
  - inversion E; subst. split; [exact Ok1|]. split; [exact St|]. intros k [].
  - apply bind_Ok_inv in E. destruct E as [[] [h1 [E1 E]]].
    destruct (Hl x (or_introl eq_refl)) as [Hx Plx].
    apply bind_Ok_inv in E1. destruct E1 as [p0 [h0 [E0 E1]]].
    apply getPlayer_Ok in E0. destruct E0 as [-> E0].
    pose proof Ok1 as [K1 [K2 [K3 [K4 K5]]]].
    destruct (is_player_obj _ _ Plx) as [n [px [En Epx]]].
    assert (Hn : n < List.length c) by (apply nth_error_Some; congruence).
    assert (Epp : p0 = px).
    { rewrite En in E0. simpl in E0. rewrite (K4 n Hn), Epx in E0. congruence. }
    assert (Eprefs : Player.prefs p0 = pprefs c x).
    { unfold pprefs. rewrite En. simpl. rewrite Epx. now rewrite Epp. }
    rewrite Eprefs in E1. fold f in E1. fold (ranking x) in E1.
    destruct (St x Hx) as [y [Oy [Ny [My Fy]]]].
    unfold setPrefs in E1. rewrite (bind_ok _ _ _ _ _ (load_at _ _ _ _ Oy)) in E1.
    apply Player_setPrefs_Ok in E1.
    destruct E1 as [a [y' [names [Ea [Ey' [Tr ->]]]]]].
    change (map_get_value x cm) with (f x) in Ea.
    rewrite Ea in Oy. simpl in Oy. rewrite Ey' in Oy. injection Oy as ->.
    assert (Hkey : map_get x cm = Some (ref a)).
    { apply K1 in Hx. unfold f, map_get_value in Ea.
      destruct (map_get x cm) as [v|]; [congruence|contradiction]. }
    destruct (K2 x _ Hkey) as [a' [Ea' Ha]]. injection Ea' as <-.
    set (y1 := Player.with_prefs (ranking x) y) in *.
    set (h1 := upd a (PlayerObj y1) h) in *.
    assert (Ey1 : nth_error h1 a = Some (PlayerObj y1)).
    { apply nth_error_upd_same. lia. }
    set (y2 := Player.setPrefs (ranking x) names y1) in *.
    assert (Hclosed : forall q, In q (pprefs c x) -> In q keys).
    { intros q Hq. apply K1. intros Hnone.
      assert (Tq : truthy (f q) = true) by (apply Tr; unfold ranking; now apply in_map).
      unfold f, map_get_value in Tq. rewrite Hnone in Tq. discriminate. }
    destruct (IH (x :: done) (upd a (PlayerObj y2) h1) h') as [A [B C]].
    + intros k Hk. apply Hl. now right.
    + split; [exact K1|]. split; [|split; [exact K3|split]].
      * intros k v Hk. destruct (K2 k v Hk) as [b [Eb Hb]]. exists b.
        unfold h1. rewrite !upd_length. auto.
      * intros b Hb. unfold h1. rewrite !nth_error_upd_other by lia. now apply K4.
      * unfold h1. rewrite !upd_length. exact K5.
    + intros k Hk. destruct (value_eqb_spec k x) as [->|N].
      * exists y2. rewrite Ea. split; [apply (obj_at_upd_same _ _ _ _ Ey1)|].
        split; [exact Ny|]. split; [exact My|].
        rewrite includes_cons, value_eqb_refl. simpl.
        split; [reflexivity|]. destruct (includes done x); destruct Fy as [F1 F2];
          rewrite F2; reflexivity.
      * destruct (St k Hk) as [z [Oz [Nz [Mz Fz]]]]. exists z.
        assert (Nk : f k <> ref a).
        { intros Ek. apply N. apply K1 in Hk. unfold f, map_get_value in Ek.
          destruct (map_get k cm) as [v|] eqn:Ev; [|contradiction].
          subst v. eapply K3; eauto. }
        unfold h1. rewrite !obj_at_upd_other by exact Nk.
        split; [exact Oz|]. split; [exact Nz|]. split; [exact Mz|].
        rewrite includes_cons. destruct (value_eqb_spec k x) as [Ekx|_]; [contradiction|].
        exact Fz.
    + exact E.
    + split; [exact A|]. split.
      * intros k Hk. specialize (B k Hk). unfold clone_state in *.
        destruct B as [z [Oz [Nz [Mz Fz]]]]. exists z. repeat split; auto.
        assert (Ei : includes ((x :: l) ++ done) k = includes (l ++ x :: done) k).
        { unfold includes. rewrite !existsb_app. simpl.
          destruct (value_eqb k x), (existsb (value_eqb k) l); reflexivity. }
        rewrite Ei. exact Fz.
      * intros k [<-|Hk]; [exact Hclosed|now apply C].
Qed.

Lemma clone_game_copy (c : heap) (all : list value) (cm : jsmap value) (h1 h2 : heap) :
  (forall k, In k all -> is_player c k = true) ->
  clone_players all [] c = (Ok cm, h1) ->
  clone_player_prefs cm all h1 = (Ok tt, h2) ->
  copy_of c all (fun q => map_get_value q cm) h2.
Proof.
  intros Pl E1 E2.
  destruct (clone_players_ok c all [] [] c cm h1 Pl) as [A [B _]]; auto.
  { split; [|split; [|split; [|split]]]; simpl; auto; try discriminate.
    intros k. split; [congruence|intros []]. }
  { intros k v Hk. discriminate. }
  simpl in A.
  destruct (clone_player_prefs_ok c all cm all [] h1 h2) as [A2 [B2 C2]]; auto.
  { intros k Hk. pose proof A as [K1 _]. apply K1 in Hk.
    destruct (map_get k cm) as [v|] eqn:Ev; [|contradiction].
    exists (Player.new (name_at c k)). unfold map_get_value. rewrite Ev.
    split; [now apply B|]. simpl. auto. }
  destruct A2 as [K1 [K2 [K3 [K4 K5]]]].
  split; [|split; [|exact K4]].
  - intros p0 Hp. destruct (B2 p0 Hp) as [x [Ox [Nx [Mx Fx]]]].
    rewrite app_nil_r in Fx. apply includes_In in Hp as Ip. rewrite Ip in Fx.
    destruct Fx as [F1 F2].
    assert (Hkey : map_get p0 cm <> None) by now apply K1.
    destruct (map_get p0 cm) as [v|] eqn:Ev; [|contradiction].
    destruct (K2 p0 v Ev) as [a [Ea Ha]].
    unfold is_player, name_at, pprefs, porig, pmatching at 1. rewrite Ox. simpl.
    repeat split; auto.
    + exists a. unfold map_get_value. rewrite Ev. split; [exact Ea|lia].
    + intros q Hq. now apply (C2 p0 Hp).
  - intros p0 p1 H0 H1 E.
    assert (Hk0 : map_get p0 cm <> None) by now apply K1.
    assert (Hk1 : map_get p1 cm <> None) by now apply K1.
    unfold map_get_value in E.
    destruct (map_get p0 cm) as [v0|] eqn:E0; [|contradiction].
    destruct (map_get p1 cm) as [v1|] eqn:E1'; [|contradiction].
    subst v1. eapply K3; eauto.
Qed.

(** X9. The constructors of the one-to-one games copy what they are
    given: when [new StableRoommates(players)] or
    [new StableMarriage(suitors, reviewers)] returns, the game holds, in
    the order given, new players with the names of the caller's, every
    one unmatched (whatever the caller's players were matched to) and
    with the caller's ranking, translated player by player, as its
    ranking and as its original ranking; different players have
    different copies, every ranking lists players of the game only, and
    the caller's objects are as they were. *)
Theorem one_to_one_constructors_copy (c : heap) :
  (forall players0 g h,
     forallb (is_player c) players0 = true ->
     StableRoommates_new players0 c = (Ok g, h) ->
     exists f, StableRoommates.players g = map f players0
               /\ StableRoommates.matching g = None
               /\ copy_of c players0 f h)
  /\ (forall suitors0 reviewers0 g h,
        forallb (is_player c) (suitors0 ++ reviewers0) = true ->
        StableMarriage_new suitors0 reviewers0 c = (Ok g, h) ->
        exists f, StableMarriage.suitors g = map f suitors0
                  /\ StableMarriage.reviewers g = map f reviewers0
                  /\ StableMarriage.matching g = None
                  /\ copy_of c (suitors0 ++ reviewers0) f h).
Proof.
  split.
  - intros players0 g h Pl E. rewrite forallb_forall in Pl.
    unfold StableRoommates_new in E.
    apply bind_Ok_inv in E. destruct E as [cm [h1 [E1 E]]].
    apply bind_Ok_inv in E. destruct E as [[] [h2 [E2 E]]].
    apply bind_Ok_inv in E. destruct E as [[] [h3 [E3 E]]].
    inversion E; subst. clear E.
    pose proof (SR_checkInputs_heap (map (fun p => map_get_value p cm) players0) h2) as Hh.
    rewrite E3 in Hh. simpl in Hh. subst h2.
    exists (fun q => map_get_value q cm). split; [reflexivity|]. split; [reflexivity|].
    now apply (clone_game_copy c players0 cm h1 h).
  - intros suitors0 reviewers0 g h Pl E. rewrite forallb_forall in Pl.
    unfold StableMarriage_new in E.
    apply bind_Ok_inv in E. destruct E as [cm [h1 [E1 E]]].
    apply bind_Ok_inv in E. destruct E as [[] [h2 [E2 E]]].
    apply bind_Ok_inv in E. destruct E as [[] [h3 [E3 E]]].
    inversion E; subst. clear E.
    pose proof (SM_checkInputs_heap (map (fun p => map_get_value p cm) suitors0)
                  (map (fun p => map_get_value p cm) reviewers0) h2) as Hh.
    rewrite E3 in Hh. simpl in Hh. subst h2.
    exists (fun q => map_get_value q cm). split; [reflexivity|]. split; [reflexivity|].
    split; [reflexivity|].
    now apply (clone_game_copy c (suitors0 ++ reviewers0) cm h1 h).
Qed.

Lemma one_to_one_constructors_copy_witness :
  forallb (is_player sr_caller_heap) [ref 0; ref 1; ref 2; ref 3] = true
  /\ exists f, StableRoommates.players sr_example_game = map f [ref 0; ref 1; ref 2; ref 3]
               /\ StableRoommates.matching sr_example_game = None
               /\ copy_of sr_caller_heap [ref 0; ref 1; ref 2; ref 3] f sr_example_heap.
Proof.
  split; [vm_compute; reflexivity|].
  apply (proj1 (one_to_one_constructors_copy sr_caller_heap)
           [ref 0; ref 1; ref 2; ref 3] sr_example_game sr_example_heap).
  - vm_compute. reflexivity.
  - vm_compute. reflexivity.
Defined.

(* ================================================================== *)
(** ** What the constructors of the one-to-one games answer *)
(* ================================================================== *)

Lemma same_set_iff (a b : list value) :
  same_set a b = true <-> (forall x, In x a <-> In x b).
Proof.
  split; [apply same_set_spec|]. intros H. unfold same_set.
  assert (I1 : incl (dedup a) (dedup b)).
  { intros x Hx. apply dedup_In. apply H. apply dedup_In. exact Hx. }
  assert (I2 : incl (dedup b) (dedup a)).
  { intros x Hx. apply dedup_In. apply H. apply dedup_In. exact Hx. }
  apply andb_true_iff. split.
  - apply Nat.eqb_eq. apply Nat.le_antisymm; apply NoDup_incl_length; auto using dedup_NoDup.
  - apply forallb_forall. intros x Hx. apply includes_In. now apply I1.
Qed.

Lemma same_set_map (f : value -> value) (a b keys : list value) :
  (forall x y, In x keys -> In y keys -> f x = f y -> x = y) ->
  incl a keys -> incl b keys ->
  same_set (map f a) (map f b) = same_set a b.
Proof.
  intros Inj Ia Ib. apply eq_true_iff_eq. rewrite !same_set_iff. split; intros H x.
  - split; intros Hx.
    + assert (Hfx : In (f x) (map f b)) by (apply H; now apply in_map).
      apply in_map_iff in Hfx. destruct Hfx as [y [E Hy]].
      apply Inj in E; auto. now subst.
    + assert (Hfx : In (f x) (map f a)) by (apply H; now apply in_map).
      apply in_map_iff in Hfx. destruct Hfx as [y [E Hy]].
      apply Inj in E; auto. now subst.
  - rewrite !in_map_iff. split; intros [y [E Hy]]; exists y; split; auto; now apply H.
Qed.

Lemma remove_value_map (f : value -> value) (p : value) (l keys : list value) :
  (forall x y, In x keys -> In y keys -> f x = f y -> x = y) ->
  In p keys -> incl l keys ->
  remove_value (f p) (map f l) = map f (remove_value p l).
Proof.
  intros Inj Hp Il. unfold remove_value. induction l as [|x l IH]; [reflexivity|].
  assert (Hx : In x keys) by (apply Il; now left).
  assert (Il' : incl l keys) by (intros y Hy; apply Il; now right).
  specialize (IH Il'). cbn [map filter]. rewrite IH.
  destruct (value_eqb (f x) (f p)) eqn:E; destruct (value_eqb x p) eqn:E'; cbn [negb map];
    try reflexivity.
  - apply value_eqb_eq in E. apply Inj in E; auto.
    apply value_eqb_neq in E'. contradiction.
  - apply value_eqb_eq in E'. subst x. rewrite value_eqb_refl in E. discriminate.
Qed.

Lemma clone_players_total (c : heap) (l : list value) :
  (forall k, In k l -> is_player c k = true) ->
  forall cm G, exists cm' G', clone_players l cm (c ++ G) = (Ok cm', c ++ G').
Proof.
  induction l as [|player rest IH]; intros Pl cm G; simpl.
  - exists cm, G. reflexivity.
  - destruct (is_player_obj _ _ (Pl player (or_introl eq_refl))) as [n [p [-> En]]].
    assert (E : getPlayer "name" (ref n) (c ++ G) = (Ok p, c ++ G)).
    { apply getPlayer_at. simpl. rewrite nth_error_app1; [exact En|].
      apply nth_error_Some. congruence. }
    rewrite (bind_ok _ _ _ _ _ E). unfold alloc at 1.
    unfold bind at 1. rewrite <- app_assoc.
    apply IH. intros k Hk. apply Pl. now right.
Qed.

Lemma names_of_undefined (l : list value) (h : heap) :
  (forall v, In v l -> v = undefined \/ obj_at h v <> None) ->
  In undefined l ->
  names_of l h = (Throw (TypeError "name"), h).
Proof.
  unfold names_of. induction l as [|x l IH]; intros H Hin; [destruct Hin|]. simpl.
  destruct (H x (or_introl eq_refl)) as [->|Hx]; [reflexivity|].
  destruct Hin as [->|Hin]; [reflexivity|].
  destruct (obj_at h x) as [o|] eqn:E; [|contradiction].
  assert (E1 : (o <- load "name" x ;; ret (obj_name o)) h = (Ok (obj_name o), h))
    by now rewrite (bind_ok _ _ _ _ _ (load_at "name" _ _ _ E)).
  rewrite (bind_ok _ _ _ _ _ E1).
  rewrite (bind_throw _ _ _ _ _ (IH (fun v Hv => H v (or_intror Hv)) Hin)). reflexivity.
Qed.

Lemma obj_at_upd_allocated (a : addr) (o : obj) (h : heap) (v : value) :
  obj_at h v <> None -> obj_at (upd a o h) v <> None.
Proof.
  destruct v as [| |b]; simpl; auto. intros H.
  apply nth_error_Some. rewrite upd_length. now apply nth_error_Some.
Qed.

(** [setPrefs] on a player: it returns when every entry of the list is
    an entity, and throws a [TypeError] when one is [undefined]. *)
Lemma Player_setPrefs_cases (a : addr) (y : Player.t) (l : list value) (h : heap) :
  nth_error h a = Some (PlayerObj y) ->
  (forall v, In v l -> v = undefined \/ obj_at h v <> None) ->
  (~ In undefined l -> exists h', setPrefs (ref a) l h = (Ok tt, h'))
  /\ (In undefined l -> exists h', setPrefs (ref a) l h = (Throw (TypeError "name"), h')).
Proof.
  intros Ea Hl.
  assert (E0 : load "setPrefs" (ref a) h = (Ok (PlayerObj y), h)) by now apply load_at.
  set (h1 := upd a (PlayerObj (Player.with_prefs l y)) h).
  assert (E1 : getPlayer "setPrefs" (ref a) h = (Ok y, h)) by now apply getPlayer_at.
  assert (E2 : nth_error h1 a = Some (PlayerObj (Player.with_prefs l y))).
  { apply nth_error_upd_same. apply nth_error_Some. congruence. }
  assert (Hl1 : forall v, In v l -> v = undefined \/ obj_at h1 v <> None).
  { intros v Hv. destruct (Hl v Hv) as [->|H]; [now left|right].
    now apply obj_at_upd_allocated. }
  split; intros Hu.
  - eexists. unfold setPrefs. rewrite (bind_ok _ _ _ _ _ E0). unfold Player_setPrefs.
    rewrite (bind_ok _ _ _ _ _ E1).
    assert (Es : store (ref a) (PlayerObj (Player.with_prefs l y)) h = (Ok tt, h1))
      by reflexivity.
    rewrite (bind_ok _ _ _ _ _ Es).
    assert (Hl2 : forall v, In v l -> obj_at h1 v <> None).
    { intros v Hv. destruct (Hl1 v Hv) as [E|N]; [|exact N]. subst v. contradiction. }
    rewrite (bind_ok _ _ _ _ _ (names_of_total l h1 Hl2)).
    rewrite (bind_ok _ _ _ _ _ (getPlayer_at "setPrefs" (ref a) h1 _ E2)). reflexivity.
  - exists h1. unfold setPrefs. rewrite (bind_ok _ _ _ _ _ E0). unfold Player_setPrefs.
    rewrite (bind_ok _ _ _ _ _ E1).
    assert (Es : store (ref a) (PlayerObj (Player.with_prefs l y)) h = (Ok tt, h1))
      by reflexivity.
    rewrite (bind_ok _ _ _ _ _ Es).
    rewrite (bind_throw _ _ _ _ _ (names_of_undefined l h1 Hl1 Hu)). reflexivity.
Qed.

(** The second loop of a constructor returns when the rankings of the
    players it handles stay among the keys of the clone map, and throws
    the [TypeError] of [setPrefs] otherwise. *)
Lemma clone_player_prefs_cases (c : heap) (keys : list value) (cm : jsmap value)
    (l : list value) :
  let f := fun q => map_get_value q cm in
  let ranking := fun k => map f (pprefs c k) in
  forall done h,
    (forall k, In k l -> In k keys /\ is_player c k = true) ->
    clone_map_ok c keys cm h ->
    (forall k, In k keys -> clone_state c ranking done h k (f k)) ->
    (forallb (fun p => forallb (includes keys) (pprefs c p)) l = true
     /\ exists h', clone_player_prefs cm l h = (Ok tt, h'))
    \/ (forallb (fun p => forallb (includes keys) (pprefs c p)) l = false
        /\ exists h', clone_player_prefs cm l h = (Throw (TypeError "name"), h')).
Proof.
  intros f ranking.
  induction l as [|x l IH]; intros done h Hl Ok1 St.
  - left. split; [reflexivity|]. exists h. reflexivity.
  - destruct (Hl x (or_introl eq_refl)) as [Hx Plx].
    pose proof Ok1 as [K1 [K2 [K3 [K4 K5]]]].
    destruct (is_player_obj _ _ Plx) as [n [px [En Epx]]].
    assert (Hn : n < List.length c) by (apply nth_error_Some; congruence).
    assert (E0 : getPlayer "prefs" x h = (Ok px, h)).
    { apply getPlayer_at. rewrite En. simpl. now rewrite (K4 n Hn). }
    assert (Eprefs : Player.prefs px = pprefs c x).
    { unfold pprefs. rewrite En. simpl. now rewrite Epx. }
    destruct (St x Hx) as [y [Oy _]].
    destruct (f x) as [| |a] eqn:Ea; try discriminate.
    simpl in Oy.
    assert (Hent : forall v, In v (ranking x) -> v = undefined \/ obj_at h v <> None).
    { intros v Hv. apply in_map_iff in Hv. destruct Hv as [q [<- Hq]].
      unfold f, map_get_value. destruct (map_get q cm) as [v|] eqn:Eq; [right|now left].
      assert (Hk : In q keys) by (apply K1; congruence).
      destruct (St q Hk) as [z [Oz _]]. unfold f, map_get_value in Oz.
      rewrite Eq in Oz. congruence. }
    destruct (Player_setPrefs_cases a y (ranking x) h Oy Hent) as [Good Bad].
    assert (Body : forall r h1,
              setPrefs (ref a) (ranking x) h = (r, h1) ->
              (p <- getPlayer "prefs" x ;;
               setPrefs (map_get_value x cm)
                        (map (fun q => map_get_value q cm) (Player.prefs p))) h = (r, h1)).
    { intros r h1 E. rewrite (bind_ok _ _ _ _ _ E0). rewrite Eprefs.
      change (map_get_value x cm) with (f x). rewrite Ea. exact E. }
    destruct (forallb (includes keys) (pprefs c x)) eqn:Cx.
    + destruct Good as [h1 E1].
      { intros Hu. apply in_map_iff in Hu. destruct Hu as [q [Eq Hq]].
        rewrite forallb_forall in Cx. apply Cx in Hq. apply includes_In in Hq.
        destruct (St q Hq) as [z [Oz _]]. rewrite Eq in Oz. discriminate. }
      apply Body in E1.
      assert (E1x : clone_player_prefs cm [x] h = (Ok tt, h1)).
      { unfold clone_player_prefs. simpl. now rewrite (bind_ok _ _ _ _ _ E1). }
      destruct (clone_player_prefs_ok c keys cm [x] done h h1) as [A [B _]]; auto.
      { intros k [<-|[]]. now split. }
      destruct (IH ([x] ++ done) h1) as [[F [h' E]]|[F [h' E]]]; auto.
      { intros k Hk. apply Hl. now right. }
      * left. simpl. rewrite Cx, F. split; [reflexivity|]. exists h'.
        unfold clone_player_prefs in *. simpl. now rewrite (bind_ok _ _ _ _ _ E1).
      * right. simpl. rewrite Cx, F. split; [reflexivity|]. exists h'.
        unfold clone_player_prefs in *. simpl. now rewrite (bind_ok _ _ _ _ _ E1).
    + right. simpl. rewrite Cx. split; [reflexivity|].
      destruct Bad as [h1 E1].
      { assert (Hq : exists q, In q (pprefs c x) /\ includes keys q = false).
        { clear -Cx. induction (pprefs c x) as [|q r IHr]; [discriminate|].
          simpl in Cx. destruct (includes keys q) eqn:Eq.
          - destruct (IHr Cx) as [q' [H1 H2]]. exists q'. split; [now right|exact H2].
          - exists q. split; [now left|exact Eq]. }
        destruct Hq as [q [Hq Nq]]. apply in_map_iff. exists q. split; [|exact Hq].
        unfold f, map_get_value. destruct (map_get q cm) as [v|] eqn:Eq; [|reflexivity].
        assert (Hk : In q keys) by (apply K1; congruence).
        apply includes_In in Hk. congruence. }
      apply Body in E1. exists h1.
      unfold clone_player_prefs. simpl. now rewrite (bind_throw _ _ _ _ _ E1).
Qed.

(** The two loops of a constructor, run on players of the caller. *)
Lemma clone_phase_cases (c : heap) (all : list value) :
  (forall k, In k all -> is_player c k = true) ->
  exists cm h1, clone_players all [] c = (Ok cm, h1)
    /\ ((rankings_closed c all = true
         /\ exists h2, clone_player_prefs cm all h1 = (Ok tt, h2)
                       /\ copy_of c all (fun q => map_get_value q cm) h2)
        \/ (rankings_closed c all = false
            /\ exists h2, clone_player_prefs cm all h1 = (Throw (TypeError "name"), h2))).
Proof.
  intros Pl.
  destruct (clone_players_total c all Pl [] []) as [cm [G E1]].
  rewrite app_nil_r in E1. exists cm, (c ++ G). split; [exact E1|].
  destruct (clone_players_ok c all [] [] c cm (c ++ G) Pl) as [A [B _]]; auto.
  { split; [|split; [|split; [|split]]]; simpl; auto; try discriminate.
    intros k. split; [congruence|intros []]. }
  { intros k v Hk. discriminate. }
  simpl in A.
  destruct (clone_player_prefs_cases c all cm all [] (c ++ G))
    as [[F [h2 E2]]|[F [h2 E2]]]; auto.
  { intros k Hk. pose proof A as [K1 _]. apply K1 in Hk.
    destruct (map_get k cm) as [v|] eqn:Ev; [|contradiction].
    exists (Player.new (name_at c k)). unfold map_get_value. rewrite Ev.
    split; [now apply B|]. simpl. auto. }
  - left. split; [exact F|]. exists h2. split; [exact E2|].
    now apply (clone_game_copy c all cm (c ++ G) h2).
  - right. split; [exact F|]. now exists h2.
Qed.

Lemma forEach_map_test {A : Type} (f : A -> value) (l : list A) (body : value -> M unit)
    (test : A -> bool) (e : error) (h : heap) :
  (forall x, In x l ->
     body (f x) h = if test x then (Ok tt, h) else (Throw e, h)) ->
  forEach (map f l) body h = if forallb test l then (Ok tt, h) else (Throw e, h).
Proof.
  induction l as [|x l IH]; intros H; simpl; [reflexivity|].
  pose proof (H x (or_introl eq_refl)) as Hx. destruct (test x); simpl.
  - rewrite (bind_ok _ _ _ _ _ Hx). apply IH. intros y Hy. apply H. now right.
  - now rewrite (bind_throw _ _ _ _ _ Hx).
Qed.

Lemma includes_map (f : value -> value) (l keys : list value) (p : value) :
  (forall x y, In x keys -> In y keys -> f x = f y -> x = y) ->
  In p keys -> incl l keys ->
  includes (map f l) (f p) = includes l p.
Proof.
  intros Inj Hp Il. apply eq_true_iff_eq. rewrite !includes_In, in_map_iff. split.
  - intros [q [E Hq]]. apply Inj in E; auto. now subst.
  - intros H. now exists p.
Qed.

Lemma remove_value_incl (p : value) (l : list value) : incl (remove_value p l) l.
Proof. intros x Hx. now apply remove_value_In in Hx. Qed.

Lemma ranks_all_others_closed (c : heap) (players : list value) :
  ranks_all_others c players = true -> rankings_closed c players = true.
Proof.
  unfold ranks_all_others, rankings_closed. rewrite !forallb_forall.
  intros H p Hp. apply forallb_forall. intros q Hq. apply includes_In.
  apply (same_set_spec _ _ (H p Hp)) in Hq. now apply remove_value_In in Hq.
Qed.

(** [checkInputs] of a new roommates game answers as the test on the
    caller's players does. *)
Lemma SR_checkInputs_copy (c : heap) (players0 : list value) (f : value -> value)
    (h : heap) :
  copy_of c players0 f h ->
  SR_checkInputs (map f players0) h
  = if ranks_all_others c players0
    then (Ok tt, h)
    else (Throw (Error "Every player must rank all other players."), h).
Proof.
  intros [Cp [Inj _]]. unfold SR_checkInputs, ranks_all_others.
  apply forEach_map_test. intros p Hp.
  destruct (Cp p Hp) as [Pl [_ [_ [Pr [_ [_ Cl]]]]]].
  destruct (is_player_obj _ _ Pl) as [a [x [Ea Ex]]].
  assert (E : getPlayer "prefs" (f p) h = (Ok x, h)).
  { apply getPlayer_at. rewrite Ea. exact Ex. }
  rewrite (bind_ok _ _ _ _ _ E).
  assert (Ep : Player.prefs x = map f (pprefs c p)).
  { rewrite <- Pr. unfold pprefs. rewrite Ea. simpl. now rewrite Ex. }
  rewrite Ep, (remove_value_map f p players0 players0 Inj Hp (incl_refl _)).
  rewrite (same_set_map f _ _ players0 Inj Cl (remove_value_incl _ _)).
  now destruct (same_set _ _).
Qed.

(** X10. What [new StableRoommates(players)] answers, for players of
    the caller.  It returns a game exactly when every player ranks
    exactly the other players of the list (as sets: repetitions in a
    ranking do not count).  When some ranking mentions a player that is
    not in the list, the constructor throws a [TypeError], raised by
    [setPrefs] on reading [name] of the missing clone, and [checkInputs]
    is never reached.  When every ranking stays inside the list but some
    player ranks too few players, or themselves, it throws the [Error]
    of [checkInputs], whose message begins with the sentence below. *)
Theorem StableRoommates_new_outcome (c : heap) (players0 : list value) :
  forallb (is_player c) players0 = true ->
  (ranks_all_others c players0 = true ->
     exists g, fst (StableRoommates_new players0 c) = Ok g)
  /\ (rankings_closed c players0 = false ->
        fst (StableRoommates_new players0 c) = Throw (TypeError "name"))
  /\ (rankings_closed c players0 = true -> ranks_all_others c players0 = false ->
        fst (StableRoommates_new players0 c)
        = Throw (Error "Every player must rank all other players.")).
Proof.
  intros Pl. rewrite forallb_forall in Pl.
  destruct (clone_phase_cases c players0 Pl)
    as [cm [h1 [E1 [[F [h2 [E2 Cp]]]|[F [h2 E2]]]]]];
    unfold StableRoommates_new; rewrite (bind_ok _ _ _ _ _ E1).
  - rewrite (bind_ok _ _ _ _ _ E2).
    pose proof (SR_checkInputs_copy c players0 _ h2 Cp) as E3.
    destruct (ranks_all_others c players0).
    + rewrite (bind_ok _ _ _ _ _ E3). split; [intros _; eexists; reflexivity|].
      split; [congruence|discriminate].
    + rewrite (bind_throw _ _ _ _ _ E3). split; [discriminate|].
      split; [congruence|reflexivity].
  - rewrite (bind_throw _ _ _ _ _ E2). split; [|split; [reflexivity|congruence]].
    intros R. apply ranks_all_others_closed in R. congruence.
Qed.

Lemma StableRoommates_new_outcome_witness :
  forallb (is_player sr_caller_heap) [ref 0; ref 1; ref 2; ref 3] = true
  /\ exists g, fst (StableRoommates_new [ref 0; ref 1; ref 2; ref 3] sr_caller_heap) = Ok g.
Proof.
  split; [vm_compute; reflexivity|].
  apply (proj1 (StableRoommates_new_outcome sr_caller_heap
                  [ref 0; ref 1; ref 2; ref 3] eq_refl)).
  vm_compute. reflexivity.
Defined.

Lemma ranks_other_group_closed (c : heap) (suitors reviewers : list value) :
  ranks_other_group c suitors reviewers = true ->
  rankings_closed c (suitors ++ reviewers) = true.
Proof.
  unfold ranks_other_group, rankings_closed. rewrite !forallb_forall.
  intros H p Hp. apply forallb_forall. intros q Hq. apply includes_In.
  apply (same_set_spec _ _ (H p Hp)) in Hq. apply in_or_app.
  destruct (includes suitors p); auto.
Qed.

(** [checkPlayerRanks] on the clone of a player answers as the test on
    the caller's player does. *)
Lemma SM_checkPlayerRanks_copy (c : heap) (suitors0 reviewers0 : list value)
    (f : value -> value) (h : heap) (p : value) :
  copy_of c (suitors0 ++ reviewers0) f h ->
  In p (suitors0 ++ reviewers0) ->
  SM_checkPlayerRanks (map f suitors0) (map f reviewers0) (f p) h
  = if same_set (pprefs c p) (if includes suitors0 p then reviewers0 else suitors0)
    then (Ok tt, h)
    else (Throw (Error "Every player must rank each name from the other group."), h).
Proof.
  intros [Cp [Inj _]] Hp. unfold SM_checkPlayerRanks.
  destruct (Cp p Hp) as [Pl [_ [_ [Pr [_ [_ Cl]]]]]].
  destruct (is_player_obj _ _ Pl) as [a [x [Ea Ex]]].
  assert (E : getPlayer "prefs" (f p) h = (Ok x, h)).
  { apply getPlayer_at. rewrite Ea. exact Ex. }
  rewrite (bind_ok _ _ _ _ _ E).
  assert (Ep : Player.prefs x = map f (pprefs c p)).
  { rewrite <- Pr. unfold pprefs. rewrite Ea. simpl. now rewrite Ex. }
  assert (IS : incl suitors0 (suitors0 ++ reviewers0)) by (apply incl_appl, incl_refl).
  assert (IR : incl reviewers0 (suitors0 ++ reviewers0)) by (apply incl_appr, incl_refl).
  rewrite Ep, (includes_map f suitors0 _ p Inj Hp IS).
  destruct (includes suitors0 p).
  - rewrite (same_set_map f _ _ _ Inj Cl IR). now destruct (same_set _ _).
  - rewrite (same_set_map f _ _ _ Inj Cl IS). now destruct (same_set _ _).
Qed.

(** X11. What [new StableMarriage(suitors, reviewers)] answers, for
    players of the caller.  It returns a game exactly when the two lists
    have the same length and every player ranks exactly the other group
    (as sets; a player found among the suitors is held to the
    reviewers).  Otherwise it throws, in this order of precedence: a
    [TypeError], raised by [setPrefs] on reading [name] of a missing
    clone, when some ranking mentions a player that is in neither list;
    the [Error] of [checkNumPlayers] when the lists differ in length; the
    [Error] of [checkPlayerRanks], whose message begins with the
    sentence below. *)
Theorem StableMarriage_new_outcome (c : heap) (suitors0 reviewers0 : list value) :
  forallb (is_player c) (suitors0 ++ reviewers0) = true ->
  let same_size := Nat.eqb (List.length suitors0) (List.length reviewers0) in
  (same_size = true -> ranks_other_group c suitors0 reviewers0 = true ->
     exists g, fst (StableMarriage_new suitors0 reviewers0 c) = Ok g)
  /\ (rankings_closed c (suitors0 ++ reviewers0) = false ->
        fst (StableMarriage_new suitors0 reviewers0 c) = Throw (TypeError "name"))
  /\ (rankings_closed c (suitors0 ++ reviewers0) = true -> same_size = false ->
        fst (StableMarriage_new suitors0 reviewers0 c)
        = Throw (Error "There must be an equal number of suitors and reviewers."))
  /\ (rankings_closed c (suitors0 ++ reviewers0) = true -> same_size = true ->
      ranks_other_group c suitors0 reviewers0 = false ->
        fst (StableMarriage_new suitors0 reviewers0 c)
        = Throw (Error "Every player must rank each name from the other group.")).
Proof.
  intros Pl same_size. rewrite forallb_forall in Pl.
  destruct (clone_phase_cases c (suitors0 ++ reviewers0) Pl)
    as [cm [h1 [E1 [[F [h2 [E2 Cp]]]|[F [h2 E2]]]]]];
    unfold StableMarriage_new; rewrite (bind_ok _ _ _ _ _ E1).
  - rewrite (bind_ok _ _ _ _ _ E2).
    set (f := fun q => map_get_value q cm) in *.
    set (e := Error "Every player must rank each name from the other group.").
    set (test := fun p => same_set (pprefs c p)
                            (if includes suitors0 p then reviewers0 else suitors0)).
    assert (ES : forEach (map f suitors0)
                   (SM_checkPlayerRanks (map f suitors0) (map f reviewers0)) h2
                 = if forallb test suitors0 then (Ok tt, h2) else (Throw e, h2)).
    { apply forEach_map_test. intros p Hp.
      apply (SM_checkPlayerRanks_copy c suitors0 reviewers0 f h2 p Cp).
      apply in_or_app. now left. }
    assert (ER : forEach (map f reviewers0)
                   (SM_checkPlayerRanks (map f suitors0) (map f reviewers0)) h2
                 = if forallb test reviewers0 then (Ok tt, h2) else (Throw e, h2)).
    { apply forEach_map_test. intros p Hp.
      apply (SM_checkPlayerRanks_copy c suitors0 reviewers0 f h2 p Cp).
      apply in_or_app. now right. }
    assert (E3 : SM_checkInputs (map f suitors0) (map f reviewers0) h2
                 = if same_size
                   then if ranks_other_group c suitors0 reviewers0
                        then (Ok tt, h2) else (Throw e, h2)
                   else (Throw (Error "There must be an equal number of suitors and reviewers."), h2)).
    { unfold SM_checkInputs, ranks_other_group. rewrite !length_map. fold same_size.
      destruct same_size; [|reflexivity].
      unfold bind at 1. unfold ret at 1. rewrite forallb_app. fold test.
      destruct (forallb test suitors0).
      - rewrite (bind_ok _ _ _ _ _ ES). exact ER.
      - now rewrite (bind_throw _ _ _ _ _ ES). }
    destruct same_size.
    + destruct (ranks_other_group c suitors0 reviewers0).
      * rewrite (bind_ok _ _ _ _ _ E3). split; [intros _ _; eexists; reflexivity|].
        split; [congruence|]. split; [discriminate|discriminate].
      * rewrite (bind_throw _ _ _ _ _ E3). split; [discriminate|].
        split; [congruence|]. split; [discriminate|reflexivity].
    + rewrite (bind_throw _ _ _ _ _ E3). split; [discriminate|].
      split; [congruence|]. split; [reflexivity|discriminate].
  - rewrite (bind_throw _ _ _ _ _ E2).
    split; [|split; [reflexivity|split; congruence]].
    intros _ R. apply ranks_other_group_closed in R. congruence.
Qed.

Lemma StableMarriage_new_outcome_witness :
  forallb (is_player sm_caller_heap) ([ref 0; ref 1; ref 2] ++ [ref 3; ref 4; ref 5]) = true
  /\ exists g, fst (StableMarriage_new [ref 0; ref 1; ref 2] [ref 3; ref 4; ref 5]
                      sm_caller_heap) = Ok g.
Proof.
  split; [vm_compute; reflexivity|].
  apply (proj1 (StableMarriage_new_outcome sm_caller_heap
                  [ref 0; ref 1; ref 2] [ref 3; ref 4; ref 5] eq_refl));
    vm_compute; reflexivity.
Defined.

(* ================================================================== *)
(** ** [prefers] as an order *)
(* ================================================================== *)

Lemma prefers_with_original (h : heap) (this : value) (o : list value) (a b : value) :
  originalPrefs_at h this = Some o ->
  prefers this a b h = (Ok (indexOf o a <? indexOf o b)%Z, h).
Proof.
  unfold originalPrefs_at, prefers. intros H.
  destruct (obj_at h this) as [ob|] eqn:E; [|discriminate].
  rewrite (bind_ok _ _ _ _ _ (load_at "prefers" _ _ _ E)).
  destruct ob as [p|x]; rewrite H; reflexivity.
Qed.

Lemma indexOf_before (l1 l2 : list value) (a b : value) :
  ~ In b l1 -> b <> a -> In b l2 ->
  (indexOf (l1 ++ a :: l2) a < indexOf (l1 ++ a :: l2) b)%Z.
Proof.
  intros Hb Nab Hin. induction l1 as [|x l1 IH]; simpl.
  - rewrite !indexOf_cons, value_eqb_refl.
    destruct (value_eqb_spec a b) as [E|_]; [congruence|].
    apply includes_In in Hin as Hi. rewrite Hi.
    pose proof (indexOf_nonneg l2 b Hin). lia.
  - assert (Nx : x <> b) by (intros ->; apply Hb; now left).
    assert (Hb' : ~ In b l1) by (intros H; apply Hb; now right).
    specialize (IH Hb'). rewrite !indexOf_cons.
    assert (Ib : In b (l1 ++ a :: l2)) by (apply in_or_app; right; now right).
    assert (Ia : In a (l1 ++ a :: l2)) by (apply in_or_app; right; now left).
    apply includes_In in Ib as Ib'. apply includes_In in Ia as Ia'. rewrite Ib', Ia'.
    destruct (value_eqb_spec x b) as [E|_]; [congruence|].
    pose proof (indexOf_nonneg _ b Ib).
    destruct (value_eqb x a); lia.
Qed.

(** X12. [prefers] of an entity of any class.  Before a ranking has
    been set it throws the [Error] [Preferences not set].  Afterwards it
    compares by the original ranking [o], changes nothing, and is a
    strict order: nothing is preferred to itself, and preference is
    asymmetric and transitive.  Of two different ranked entities one is
    preferred to the other, and an entity is preferred to those that
    first occur after it in [o].  An entity that is not ranked is
    preferred to every ranked one, and nothing is preferred to it. *)
Theorem prefers_is_a_strict_order (h : heap) (this : value) :
  obj_at h this <> None ->
  (originalPrefs_at h this = None ->
     forall a b, prefers this a b h = (Throw (Error "Preferences not set"), h))
  /\ (forall o, originalPrefs_at h this = Some o ->
        (forall a b, exists r, prefers this a b h = (Ok r, h))
        /\ (forall a, prefers this a a h = (Ok false, h))
        /\ (forall a b, prefers this a b h = (Ok true, h) ->
                        prefers this b a h = (Ok false, h))
        /\ (forall a b c, prefers this a b h = (Ok true, h) ->
                          prefers this b c h = (Ok true, h) ->
                          prefers this a c h = (Ok true, h))
        /\ (forall a b, In a o -> In b o -> a <> b ->
                        prefers this a b h = (Ok true, h)
                        \/ prefers this b a h = (Ok true, h))
        /\ (forall l1 l2 a b, o = l1 ++ a :: l2 -> ~ In b l1 -> b <> a -> In b l2 ->
                              prefers this a b h = (Ok true, h))
        /\ (forall a b, ~ In a o -> In b o -> prefers this a b h = (Ok true, h))
        /\ (forall a b, ~ In b o -> prefers this a b h = (Ok false, h))).
Proof.
  intros Al. split.
  - intros H a b. unfold originalPrefs_at in H. unfold prefers.
    destruct (obj_at h this) as [ob|] eqn:E; [|contradiction].
    rewrite (bind_ok _ _ _ _ _ (load_at "prefers" _ _ _ E)).
    destruct ob as [p|x]; rewrite H; reflexivity.
  - intros o H.
    assert (P : forall a b, prefers this a b h = (Ok (indexOf o a <? indexOf o b)%Z, h))
      by (intros; now apply prefers_with_original).
    assert (T : forall a b, prefers this a b h = (Ok true, h) <->
                            (indexOf o a < indexOf o b)%Z).
    { intros a b. rewrite P. split.
      - intros E. injection E as E. now apply Z.ltb_lt.
      - intros E. apply Z.ltb_lt in E. now rewrite E. }
    assert (F : forall a b, (indexOf o b <= indexOf o a)%Z ->
                            prefers this a b h = (Ok false, h)).
    { intros a b E. rewrite P. apply Z.ltb_ge in E. now rewrite E. }
    repeat split.
    + intros a b. rewrite P. eexists. reflexivity.
    + intros a. apply F. lia.
    + intros a b E. apply T in E. apply F. lia.
    + intros a b c E1 E2. apply T in E1, E2. apply T. lia.
    + intros a b Ha Hb N.
      destruct (Z.lt_trichotomy (indexOf o a) (indexOf o b)) as [L|[E|L]].
      * left. now apply T.
      * apply indexOf_inj in E; [contradiction|exact Ha].
      * right. now apply T.
    + intros l1 l2 a b -> N1 N2 Hin. apply T. now apply indexOf_before.
    + intros a b Na Hb. apply T. rewrite (indexOf_absent o a Na).
      pose proof (indexOf_nonneg o b Hb). lia.
    + intros a b Nb. apply F. rewrite (indexOf_absent o b Nb).
      destruct (in_dec (fun x y => match value_eqb_spec x y with
                                   | ReflectT _ e => left e
                                   | ReflectF _ n => right n end) a o) as [I|N].
      * pose proof (indexOf_nonneg o a I). lia.
      * rewrite (indexOf_absent o a N). lia.
Qed.

Lemma prefers_is_a_strict_order_witness :
  obj_at sm_built_heap (ref 6) <> None
  /\ prefers (ref 6) (ref 9) (ref 10) sm_built_heap = (Ok true, sm_built_heap)
  /\ prefers (ref 6) (ref 0) (ref 9) sm_built_heap = (Ok true, sm_built_heap).
Proof.
  assert (A : obj_at sm_built_heap (ref 6) <> None) by (vm_compute; discriminate).
  split; [exact A|].
  destruct (proj2 (prefers_is_a_strict_order sm_built_heap (ref 6) A)
              [ref 9; ref 10; ref 11] eq_refl) as [_ [_ [_ [_ [_ [B [C _]]]]]]].
  split.
  - apply (B [] [ref 10; ref 11] (ref 9) (ref 10) eq_refl).
    + intros [].
    + discriminate.
    + now left.
  - apply C.
    + intros [E|[E|[E|[]]]]; discriminate.
    + now left.
Defined.

(* ================================================================== *)
(** ** Games made from dictionaries *)
(* ================================================================== *)

Lemma knows_In (names : list string) (n : string) : knows names n = true <-> In n names.
Proof.
  unfold knows. rewrite existsb_exists. split.
  - intros [x [Hx E]]. apply String.eqb_eq in E. now subst.
  - intros H. exists n. split; [exact H|apply String.eqb_refl].
Qed.

Lemma dict_closed_known (keys : list string) (d : prefs_dict) :
  dict_closed keys d = true <-> names_known keys d.
Proof.
  unfold dict_closed, names_known. rewrite forallb_forall. split.
  - intros H k l n Hkl Hn. specialize (H (k, l) Hkl). simpl in H.
    rewrite forallb_forall in H. apply knows_In. now apply H.
  - intros H [k l] Hkl. simpl. apply forallb_forall. intros n Hn.
    apply knows_In. now apply (H k l).
Qed.

Lemma refs_from_length (a n : nat) : List.length (refs_from a n) = n.
Proof. unfold refs_from. now rewrite length_map, length_seq. Qed.

Lemma refs_from_S (a n : nat) : refs_from a (S n) = ref a :: refs_from (S a) n.
Proof. reflexivity. Qed.

Lemma refs_from_In (a n : nat) (v : value) :
  In v (refs_from a n) <-> exists i, i < n /\ v = ref (a + i).
Proof.
  unfold refs_from. rewrite in_map_iff. split.
  - intros [b [<- Hb]]. apply in_seq in Hb. exists (b - a). split; [lia|]. f_equal. lia.
  - intros [i [Hi ->]]. exists (a + i). split; [reflexivity|]. apply in_seq. lia.
Qed.

Lemma dict_at_cons (a : nat) (n : string) (names : list string) :
  dict_at a (n :: names) = (n, ref a) :: dict_at (S a) names.
Proof. reflexivity. Qed.

Lemma dict_at_keys (a : nat) (names : list string) : map fst (dict_at a names) = names.
Proof.
  revert a. induction names as [|n names IH]; intros a; [reflexivity|].
  rewrite dict_at_cons. simpl. f_equal. apply IH.
Qed.

Lemma dict_at_values (a : nat) (names : list string) :
  map snd (dict_at a names) = refs_from a (List.length names).
Proof.
  revert a. induction names as [|n names IH]; intros a; [reflexivity|].
  rewrite dict_at_cons. simpl List.length. rewrite refs_from_S. simpl. f_equal. apply IH.
Qed.

(** The first loop of [makePlayers]. *)
Lemma make_dict_spec (names : list string) :
  NoDup names ->
  forall dict h,
    (forall n, In n names -> ~ In n (map fst dict)) ->
    make_dict names dict h
    = (Ok (dict ++ dict_at (List.length h) names),
       h ++ map (fun n => PlayerObj (Player.new n)) names).
Proof.
  induction 1 as [|n names Hn ND IH]; intros dict h Fr; simpl.
  - unfold ret. now rewrite !app_nil_r.
  - unfold bind at 1, alloc at 1.
    rewrite record_set_fresh by (apply Fr; now left).
    rewrite IH.
    + rewrite length_app, Nat.add_1_r, <- !app_assoc. reflexivity.
    + intros m Hm. rewrite map_app, in_app_iff. simpl.
      intros [H1|[H1|[]]].
      * apply (Fr m); [now right|exact H1].
      * subst m. contradiction.
Qed.

Lemma dict_get_absent (n : string) (a : nat) (names : list string) :
  ~ In n names -> dict_get n (dict_at a names) = undefined.
Proof.
  unfold dict_get. revert a. induction names as [|k names IH]; intros a H; [reflexivity|].
  rewrite dict_at_cons. simpl.
  destruct (String.eqb_spec k n) as [E|N]; [exfalso; apply H; now left|].
  apply IH. intros Hin. apply H. now right.
Qed.

Lemma dict_get_present (n : string) (a : nat) (names : list string) :
  In n names ->
  exists i, i < List.length names /\ nth_error names i = Some n
            /\ dict_get n (dict_at a names) = ref (a + i).
Proof.
  unfold dict_get. revert a. induction names as [|k names IH]; intros a H; [destruct H|].
  rewrite dict_at_cons. simpl.
  destruct (String.eqb_spec k n) as [E|N].
  - exists 0. subst k. simpl. split; [lia|]. split; [reflexivity|]. f_equal. lia.
  - destruct H as [H|H]; [contradiction|].
    destruct (IH (S a) H) as [i [Hi [Ei Eg]]]. exists (S i). simpl.
    split; [lia|]. split; [exact Ei|]. rewrite Eg. f_equal. lia.
Qed.

Lemma dict_get_inj (a : nat) (names : list string) (n m : string) :
  In n names -> In m names ->
  dict_get n (dict_at a names) = dict_get m (dict_at a names) -> n = m.
Proof.
  intros Hn Hm E.
  destruct (dict_get_present n a names Hn) as [i [_ [Ei Gi]]].
  destruct (dict_get_present m a names Hm) as [j [_ [Ej Gj]]].
  rewrite Gi, Gj in E. injection E as E. assert (i = j) by lia. subst j. congruence.
Qed.

Lemma dict_get_keys (a : nat) (names : list string) :
  NoDup names ->
  map (fun n => dict_get n (dict_at a names)) names = refs_from a (List.length names).
Proof.
  intros ND. revert a. induction ND as [|k names Hk ND IH]; intros a; [reflexivity|].
  simpl. rewrite refs_from_S. f_equal.
  - unfold dict_get. rewrite dict_at_cons. simpl. now rewrite String.eqb_refl.
  - rewrite <- IH. apply map_ext_in. intros n Hn.
    unfold dict_get. rewrite dict_at_cons. simpl.
    destruct (String.eqb_spec k n) as [E|N]; [subst; contradiction|reflexivity].
Qed.

Lemma record_get_NoDup {V : Type} (k : string) (v : V) (r : list (string * V)) :
  NoDup (map fst r) -> In (k, v) r -> record_get k r = Some v.
Proof.
  induction r as [|[k' v'] r IH]; simpl; [intros _ []|].
  intros ND [E|H].
  - injection E as -> ->. now rewrite String.eqb_refl.
  - inversion ND as [|? ? Hk ND']; subst.
    destruct (String.eqb_spec k' k) as [E|N].
    + subst k'. exfalso. apply Hk. apply in_map_iff. now exists (k, v).
    + now apply IH.
Qed.

Lemma upd_upd (a : addr) (o o' : obj) (h : heap) : upd a o (upd a o' h) = upd a o h.
Proof. revert a. induction h as [|x h IH]; intros [|a]; simpl; auto. now rewrite IH. Qed.

Lemma name_at_upd (a : addr) (o o' : obj) (h : heap) (v : value) :
  nth_error h a = Some o -> obj_name o' = obj_name o ->
  name_at (upd a o' h) v = name_at h v.
Proof.
  intros E N. unfold name_at. destruct (value_eqb_spec v (ref a)) as [->|D].
  - rewrite (obj_at_upd_same _ _ _ _ E). simpl. now rewrite E.
  - now rewrite obj_at_upd_other.
Qed.

(** [setPrefs] on a player, for a list of entities: the heap it leaves. *)
Lemma Player_setPrefs_exact (a : addr) (y : Player.t) (l : list value) (h : heap) :
  nth_error h a = Some (PlayerObj y) ->
  (forall v, In v l -> obj_at h v <> None) ->
  setPrefs (ref a) l h
  = (Ok tt, upd a (PlayerObj (Player.setPrefs l (map (name_at h) l)
                                (Player.with_prefs l y))) h).
Proof.
  intros Ea Hl.
  assert (E0 : load "setPrefs" (ref a) h = (Ok (PlayerObj y), h)) by now apply load_at.
  set (h1 := upd a (PlayerObj (Player.with_prefs l y)) h).
  assert (E1 : getPlayer "setPrefs" (ref a) h = (Ok y, h)) by now apply getPlayer_at.
  assert (E2 : nth_error h1 a = Some (PlayerObj (Player.with_prefs l y))).
  { apply nth_error_upd_same. apply nth_error_Some. congruence. }
  assert (Hl1 : forall v, In v l -> obj_at h1 v <> None).
  { intros v Hv. apply obj_at_upd_allocated. now apply Hl. }
  unfold setPrefs. rewrite (bind_ok _ _ _ _ _ E0). unfold Player_setPrefs.
  rewrite (bind_ok _ _ _ _ _ E1).
  assert (Es : store (ref a) (PlayerObj (Player.with_prefs l y)) h = (Ok tt, h1))
    by reflexivity.
  rewrite (bind_ok _ _ _ _ _ Es).
  rewrite (bind_ok _ _ _ _ _ (names_of_total l h1 Hl1)).
  rewrite (bind_ok _ _ _ _ _ (getPlayer_at "setPrefs" (ref a) h1 _ E2)).
  unfold store, h1. rewrite upd_upd. f_equal. f_equal. f_equal. f_equal.
  apply map_ext. intros v. now apply (name_at_upd a (PlayerObj y)).
Qed.

Lemma record_get_None {V : Type} (k : string) (r : list (string * V)) :
  record_get k r = None <-> ~ In k (map fst r).
Proof.
  induction r as [|[k' v'] r IH]; simpl; [tauto|].
  destruct (String.eqb_spec k' k) as [E|N].
  - split; [discriminate|]. intros H. exfalso. apply H. now left.
  - rewrite IH. tauto.
Qed.

Section Dict_prefs.

Variables (A B : heap) (d : prefs_dict) (others : list (string * value)).

Let fin := dict_player others.
Let H (pre suf : prefs_dict) : heap := A ++ map fin pre ++ map dict_new suf ++ B.
Let body := fun entry : string * value =>
  match record_get (fst entry) d with
  | Some names => setPrefs (snd entry) (map (fun n => dict_get n others) names)
  | None => throw (TypeError "map")
  end.

Hypothesis ND : NoDup (map fst d).
Hypothesis Named : forall pre suf, d = pre ++ suf ->
  forall n v, record_get n others = Some v ->
    exists o, obj_at (H pre suf) v = Some o /\ obj_name o = n.

(** The second loop of [makePlayers], entry by entry. *)
Lemma set_dict_prefs_loop (suf : prefs_dict) :
  forall pre, d = pre ++ suf ->
    (dict_closed (map fst others) suf = true ->
       forEach (dict_at (List.length A + List.length pre) (map fst suf)) body (H pre suf)
       = (Ok tt, H (pre ++ suf) []))
    /\ (dict_closed (map fst others) suf = false ->
          exists h', forEach (dict_at (List.length A + List.length pre) (map fst suf)) body
                       (H pre suf)
                     = (Throw (TypeError "name"), h')).
Proof.
  induction suf as [|[k l] suf IH]; intros pre Ed.
  - split; [|discriminate]. intros _. simpl. now rewrite app_nil_r.
  - set (a := List.length A + List.length pre).
    set (L := map (fun n => dict_get n others) l).
    assert (Ek : record_get k d = Some l).
    { apply record_get_NoDup; [exact ND|]. rewrite Ed. apply in_or_app. right. now left. }
    assert (Ecell : nth_error (H pre ((k, l) :: suf)) a = Some (PlayerObj (Player.new k))).
    { unfold H, a. rewrite nth_error_app2 by lia.
      replace (List.length A + List.length pre - List.length A) with (List.length pre) by lia.
      rewrite nth_error_app2 by (rewrite length_map; lia).
      rewrite length_map, Nat.sub_diag. reflexivity. }
    assert (Hent : forall v, In v L -> v = undefined \/ obj_at (H pre ((k, l) :: suf)) v <> None).
    { intros v Hv. apply in_map_iff in Hv. destruct Hv as [n [<- Hn]].
      unfold dict_get. destruct (record_get n others) as [v|] eqn:En; [right|now left].
      destruct (Named pre _ Ed n v En) as [o [Eo _]]. congruence. }
    assert (Hbody : forEach (dict_at a (map fst ((k, l) :: suf))) body (H pre ((k, l) :: suf))
                    = bind (setPrefs (ref a) L)
                           (fun _ => forEach (dict_at (S a) (map fst suf)) body)
                           (H pre ((k, l) :: suf))).
    { simpl map. rewrite dict_at_cons. simpl forEach. unfold body at 1. simpl fst.
      rewrite Ek. reflexivity. }
    rewrite Hbody. simpl dict_closed.
    destruct (forallb (knows (map fst others)) l) eqn:Cl; simpl.
    + assert (Hall : forall v, In v L -> obj_at (H pre ((k, l) :: suf)) v <> None).
      { intros v Hv. apply in_map_iff in Hv. destruct Hv as [n [<- Hn]].
        rewrite forallb_forall in Cl. specialize (Cl n Hn). apply knows_In in Cl.
        unfold dict_get. destruct (record_get n others) as [v|] eqn:En.
        - destruct (Named pre _ Ed n v En) as [o [Eo _]]. congruence.
        - apply record_get_None in En. contradiction. }
      assert (Hnames : map (name_at (H pre ((k, l) :: suf))) L = l).
      { unfold L. rewrite map_map. rewrite <- (map_id l) at 2. apply map_ext_in.
        intros n Hn. rewrite forallb_forall in Cl. specialize (Cl n Hn).
        apply knows_In in Cl. unfold dict_get.
        destruct (record_get n others) as [v|] eqn:En.
        - destruct (Named pre _ Ed n v En) as [o [Eo No]]. unfold name_at. now rewrite Eo.
        - apply record_get_None in En. contradiction. }
      pose proof (Player_setPrefs_exact a _ L _ Ecell Hall) as E1.
      rewrite Hnames in E1.
      assert (Eh : upd a (PlayerObj (Player.setPrefs L l (Player.with_prefs L (Player.new k))))
                     (H pre ((k, l) :: suf))
                   = H (pre ++ [(k, l)]) suf).
      { unfold H, a. rewrite upd_app_r.
        replace (List.length pre) with (List.length (map fin pre) + 0)
          by (rewrite length_map; lia).
        rewrite upd_app_r. simpl. rewrite map_app, <- !app_assoc. reflexivity. }
      rewrite Eh in E1. rewrite (bind_ok _ _ _ _ _ E1).
      destruct (IH (pre ++ [(k, l)])) as [IH1 IH2].
      { rewrite Ed, <- app_assoc. reflexivity. }
      replace (List.length A + List.length (pre ++ [(k, l)])) with (S a) in IH1, IH2
        by (rewrite length_app; simpl; unfold a; lia).
      rewrite <- app_assoc in IH1. simpl in IH1. split; [exact IH1|exact IH2].
    + split; [discriminate|]. intros _.
      assert (Hu : In undefined L).
      { assert (Hq : exists n, In n l /\ knows (map fst others) n = false).
        { clear -Cl. induction l as [|n r IHr]; [discriminate|].
          simpl in Cl. destruct (knows (map fst others) n) eqn:En.
          - destruct (IHr Cl) as [q [H1 H2]]. exists q. split; [now right|exact H2].
          - exists n. split; [now left|exact En]. }
        destruct Hq as [n [Hn Kn]]. apply in_map_iff. exists n. split; [|exact Hn].
        unfold dict_get. destruct (record_get n others) as [v|] eqn:En; [|reflexivity].
        assert (Hk : In n (map fst others)).
        { destruct (in_dec string_dec n (map fst others)) as [I|N]; [exact I|].
          apply record_get_None in N. congruence. }
        apply knows_In in Hk. congruence. }
      destruct (proj2 (Player_setPrefs_cases a _ L _ Ecell Hent) Hu) as [h' E1].
      exists h'. now rewrite (bind_throw _ _ _ _ _ E1).
Qed.

End Dict_prefs.

Lemma record_get_dict_at (n : string) (a : nat) (names : list string) (v : value) :
  record_get n (dict_at a names) = Some v ->
  exists i, nth_error names i = Some n /\ v = ref (a + i).
Proof.
  intros E.
  assert (Hin : In n names).
  { destruct (in_dec string_dec n names) as [I|N]; [exact I|].
    rewrite <- (dict_at_keys a names) in N. apply record_get_None in N. congruence. }
  destruct (dict_get_present n a names Hin) as [i [_ [Ei Eg]]].
  exists i. split; [exact Ei|]. unfold dict_get in Eg. rewrite E in Eg. exact Eg.
Qed.

(** The players of a dictionary keep their names while their rankings
    are being set. *)
Lemma named_region (X Y : heap) (others : list (string * value)) (d pre suf : prefs_dict)
    (n : string) (v : value) :
  d = pre ++ suf ->
  record_get n (dict_at (List.length X) (map fst d)) = Some v ->
  exists o, obj_at (X ++ (map (dict_player others) pre ++ map dict_new suf) ++ Y) v = Some o
            /\ obj_name o = n.
Proof.
  intros Ed E. destruct (record_get_dict_at _ _ _ _ E) as [i [Ei ->]].
  rewrite nth_error_map in Ei. destruct (nth_error d i) as [e|] eqn:Ee; [|discriminate].
  injection Ei as <-. simpl.
  rewrite nth_error_app2 by lia.
  replace (List.length X + i - List.length X) with i by lia.
  assert (Hi : i < List.length d) by (apply nth_error_Some; congruence).
  rewrite nth_error_app1.
  2:{ rewrite length_app, !length_map, <- length_app, <- Ed. exact Hi. }
  rewrite Ed in Ee. destruct (Nat.lt_ge_cases i (List.length pre)) as [Lt|Ge].
  - rewrite nth_error_app1 by (rewrite length_map; exact Lt).
    rewrite nth_error_app1 in Ee by exact Lt.
    rewrite nth_error_map, Ee. simpl. eexists. split; reflexivity.
  - rewrite nth_error_app2 by (rewrite length_map; exact Ge).
    rewrite nth_error_app2 in Ee by exact Ge.
    rewrite length_map, nth_error_map, Ee. simpl. eexists. split; reflexivity.
Qed.

(** What [makePlayers] of stable-roommates.ts leaves in the heap. *)
Lemma SR_makePlayers_spec (d : prefs_dict) (h : heap) :
  NoDup (map fst d) ->
  let dict := dict_at (List.length h) (map fst d) in
  (dict_closed (map fst d) d = true ->
     SR_makePlayers d h
     = (Ok (refs_from (List.length h) (List.length d)), h ++ map (dict_player dict) d))
  /\ (dict_closed (map fst d) d = false ->
        exists h', SR_makePlayers d h = (Throw (TypeError "name"), h')).
Proof.
  intros ND dict.
  assert (E1 : make_dict (map fst d) [] h = (Ok dict, h ++ map dict_new d)).
  { rewrite (make_dict_spec _ ND) by (intros n _ []). simpl. now rewrite map_map. }
  destruct (set_dict_prefs_loop h [] d dict ND) with (suf := d) (pre := @nil (string * list string))
    as [Good Bad].
  { intros pre suf Ed n v E.
    destruct (named_region h [] dict d pre suf n v Ed E) as [o [Eo No]].
    exists o. split; [|exact No]. rewrite app_nil_r in Eo. rewrite app_nil_r. exact Eo. }
  { reflexivity. }
  simpl in Good, Bad. rewrite Nat.add_0_r, !app_nil_r in Good, Bad.
  unfold dict in *. rewrite dict_at_keys in Good, Bad.
  unfold SR_makePlayers. rewrite (bind_ok _ _ _ _ _ E1). fold dict.
  split; intros C.
  - unfold set_dict_prefs. unfold dict. rewrite (bind_ok _ _ _ _ _ (Good C)).
    unfold ret. rewrite dict_at_values, length_map, app_nil_r. reflexivity.
  - destruct (Bad C) as [h' E2]. exists h'.
    unfold set_dict_prefs. unfold dict. now rewrite (bind_throw _ _ _ _ _ E2).
Qed.

Section Dict_heap.

Variables (d : prefs_dict) (h : heap).
Hypothesis ND : NoDup (map fst d).

Let dict := dict_at (List.length h) (map fst d).
Let c1 := h ++ map (dict_player dict) d.
Let players := refs_from (List.length h) (List.length d).
Let iota := fun n => dict_get n dict.

Lemma dict_entry_player (k : string) (l : list string) :
  In (k, l) d ->
  In (iota k) players /\ obj_at c1 (iota k) = Some (dict_player dict (k, l)).
Proof.
  intros Hin. destruct (In_nth_error _ _ Hin) as [i Ei].
  assert (Hi : i < List.length d) by (apply nth_error_Some; congruence).
  assert (Hk : In k (map fst d)) by (apply in_map_iff; now exists (k, l)).
  destruct (dict_get_present k (List.length h) (map fst d) Hk) as [j [Hj [Ej Eg]]].
  assert (Ei' : nth_error (map fst d) i = Some k) by (rewrite nth_error_map, Ei; reflexivity).
  assert (i = j).
  { apply (proj1 (NoDup_nth_error (map fst d)) ND i j).
    - rewrite length_map. exact Hi.
    - congruence. }
  subst j. unfold iota, dict. rewrite Eg. split.
  - apply refs_from_In. now exists i.
  - unfold c1. simpl. rewrite nth_error_app2 by lia.
    replace (List.length h + i - List.length h) with i by lia.
    rewrite nth_error_map, Ei. reflexivity.
Qed.

Lemma dict_player_entry (p : value) :
  In p players -> exists k l, In (k, l) d /\ p = iota k.
Proof.
  intros Hp. apply refs_from_In in Hp. destruct Hp as [i [Hi ->]].
  destruct (nth_error d i) as [[k l]|] eqn:Ei.
  2:{ apply nth_error_None in Ei. lia. }
  exists k, l. assert (Hin : In (k, l) d) by (eapply nth_error_In; eassumption).
  split; [exact Hin|].
  assert (Hk : In k (map fst d)) by (apply in_map_iff; now exists (k, l)).
  destruct (dict_get_present k (List.length h) (map fst d) Hk) as [j [Hj [Ej Eg]]].
  assert (Ei' : nth_error (map fst d) i = Some k) by (rewrite nth_error_map, Ei; reflexivity).
  assert (i = j).
  { apply (proj1 (NoDup_nth_error (map fst d)) ND i j).
    - rewrite length_map. exact Hi.
    - congruence. }
  subst j. unfold iota, dict. now rewrite Eg.
Qed.

Lemma dict_players_keys : players = map iota (map fst d).
Proof.
  unfold players, iota, dict. rewrite (dict_get_keys _ _ ND). now rewrite length_map.
Qed.

Lemma dict_players_are_players (p : value) : In p players -> is_player c1 p = true.
Proof.
  intros Hp. destruct (dict_player_entry p Hp) as [k [l [Hin ->]]].
  destruct (dict_entry_player k l Hin) as [_ E]. unfold is_player. now rewrite E.
Qed.

Lemma dict_player_prefs (k : string) (l : list string) :
  In (k, l) d -> pprefs c1 (iota k) = map iota l.
Proof.
  intros Hin. destruct (dict_entry_player k l Hin) as [_ E]. unfold pprefs. now rewrite E.
Qed.

Lemma dict_player_name (k : string) :
  In k (map fst d) -> name_at c1 (iota k) = k.
Proof.
  intros Hk. apply in_map_iff in Hk. destruct Hk as [[k' l] [<- Hin]].
  destruct (dict_entry_player k' l Hin) as [_ E]. unfold name_at. simpl. now rewrite E.
Qed.

Lemma dict_rankings_closed :
  names_known (map fst d) d -> rankings_closed c1 players = true.
Proof.
  intros K. unfold rankings_closed. apply forallb_forall. intros p Hp.
  destruct (dict_player_entry p Hp) as [k [l [Hin ->]]].
  rewrite (dict_player_prefs k l Hin). apply forallb_forall. intros v Hv.
  apply in_map_iff in Hv. destruct Hv as [n [<- Hn]]. apply includes_In.
  rewrite dict_players_keys. apply in_map. now apply (K k l).
Qed.

Lemma dict_ranks_all_others :
  names_known (map fst d) d ->
  (ranks_all_others c1 players = true <-> ranks_all_other_names d).
Proof.
  intros K. unfold ranks_all_others, ranks_all_other_names. rewrite forallb_forall.
  assert (Inj : forall n m, In n (map fst d) -> In m (map fst d) -> iota n = iota m -> n = m).
  { intros n m. apply dict_get_inj. }
  split.
  - intros Hs k l Hin n.
    assert (Hk : In k (map fst d)) by (apply in_map_iff; now exists (k, l)).
    destruct (dict_entry_player k l Hin) as [Hp _].
    specialize (Hs _ Hp). rewrite same_set_iff in Hs.
    rewrite (dict_player_prefs k l Hin) in Hs. split.
    + intros Hn. assert (Kn : In n (map fst d)) by now apply (K k l).
      split; [exact Kn|]. intros ->.
      assert (Hv : In (iota k) (map iota l)) by now apply in_map.
      apply Hs in Hv. apply remove_value_In in Hv. now destruct Hv.
    + intros [Kn Nk].
      assert (Hv : In (iota n) (remove_value (iota k) players)).
      { apply remove_value_In. split.
        - rewrite dict_players_keys. now apply in_map.
        - intros E. apply Inj in E; auto. }
      apply Hs in Hv. apply in_map_iff in Hv. destruct Hv as [m [E Hm]].
      apply Inj in E; [now subst|now apply (K k l)|exact Kn].
  - intros Hc p Hp. destruct (dict_player_entry p Hp) as [k [l [Hin ->]]].
    assert (Hk : In k (map fst d)) by (apply in_map_iff; now exists (k, l)).
    rewrite (dict_player_prefs k l Hin). apply same_set_iff. intros v.
    rewrite remove_value_In, dict_players_keys, !in_map_iff. split.
    + intros [n [<- Hn]]. apply (Hc k l Hin) in Hn. destruct Hn as [Kn Nk]. split.
      * now exists n.
      * intros E. apply Inj in E; auto.
    + intros [[n [<- Kn]] Nv]. exists n. split; [reflexivity|].
      apply (Hc k l Hin). split; [exact Kn|]. intros ->. now apply Nv.
Qed.

End Dict_heap.

Lemma ranks_all_other_names_known (d : prefs_dict) :
  ranks_all_other_names d -> names_known (map fst d) d.
Proof. intros H k l n Hkl Hn. now apply (H k l Hkl). Qed.

(** X13. What [StableRoommates.createFromDictionary] answers for a
    dictionary (its keys are pairwise different).  When some list
    mentions a name that is not a key, [makePlayers] throws a
    [TypeError], raised by [setPrefs] on reading [name] of [undefined].
    When all names are keys but some key does not list exactly the other
    keys, the constructor throws the [Error] of [checkInputs].
    Otherwise a game is returned, and reading it back gives the
    dictionary: the names of its players are the keys, in order, the
    names of the players each one ranks are the list of its key, in
    order, and everybody is unmatched. *)
Theorem StableRoommates_createFromDictionary_outcome (d : prefs_dict) (h : heap) :
  NoDup (map fst d) ->
  (~ names_known (map fst d) d ->
     fst (StableRoommates_createFromDictionary d h) = Throw (TypeError "name"))
  /\ (names_known (map fst d) d -> ~ ranks_all_other_names d ->
        fst (StableRoommates_createFromDictionary d h)
        = Throw (Error "Every player must rank all other players."))
  /\ (ranks_all_other_names d ->
        exists g h',
          StableRoommates_createFromDictionary d h = (Ok g, h')
          /\ map (name_at h') (StableRoommates.players g) = map fst d
          /\ map (fun p => map (name_at h') (pprefs h' p)) (StableRoommates.players g)
             = map snd d
          /\ (forall p, In p (StableRoommates.players g) -> pmatching h' p = null)).
Proof.
  intros ND. destruct (SR_makePlayers_spec d h ND) as [Good Bad].
  unfold StableRoommates_createFromDictionary.
  destruct (dict_closed (map fst d) d) eqn:C.
  2:{ destruct (Bad eq_refl) as [h' E]. rewrite (bind_throw _ _ _ _ _ E).
      assert (NK : ~ names_known (map fst d) d).
      { intros K. apply dict_closed_known in K. congruence. }
      split; [reflexivity|]. split; [contradiction|].
      intros R. apply ranks_all_other_names_known in R. contradiction. }
  specialize (Good eq_refl). rewrite (bind_ok _ _ _ _ _ Good).
  apply dict_closed_known in C.
  set (dict := dict_at (List.length h) (map fst d)) in *.
  set (c1 := h ++ map (dict_player dict) d) in *.
  set (players := refs_from (List.length h) (List.length d)) in *.
  pose proof (dict_rankings_closed d h ND C) as RC. fold dict c1 players in RC.
  pose proof (dict_ranks_all_others d h ND C) as RA. fold dict c1 players in RA.
  destruct (clone_phase_cases c1 players (dict_players_are_players d h ND))
    as [cm [h1 [E1 [[_ [h2 [E2 Cp]]]|[F _]]]]]; [|congruence].
  unfold StableRoommates_new. rewrite (bind_ok _ _ _ _ _ E1), (bind_ok _ _ _ _ _ E2).
  pose proof (SR_checkInputs_copy c1 players _ h2 Cp) as E3.
  split; [intros NK; contradiction|].
  destruct (ranks_all_others c1 players).
  - rewrite (bind_ok _ _ _ _ _ E3). split.
    + intros _ NR. exfalso. apply NR. now apply RA.
    + intros _. eexists. eexists. split; [reflexivity|]. simpl.
      set (f := fun q => map_get_value q cm) in *.
      destruct Cp as [Cp _].
      assert (Nm : forall k, In k (map fst d) ->
                             name_at h2 (f (dict_get k dict)) = k).
      { intros k Hk. apply in_map_iff in Hk as Hk'. destruct Hk' as [[k' l] [Ek Hin]].
        simpl in Ek. subst k'.
        destruct (dict_entry_player d h ND k l Hin) as [Hp _].
        destruct (Cp _ Hp) as [_ [_ [N _]]]. fold dict in N. rewrite N.
        now apply (dict_player_name d h ND). }
      split; [|split].
      * unfold players. rewrite (dict_players_keys d h ND). fold dict.
        rewrite !map_map. apply map_ext_in. intros [k l] Hin. simpl. apply Nm.
        apply in_map_iff. now exists (k, l).
      * unfold players. rewrite (dict_players_keys d h ND). fold dict.
        rewrite !map_map. apply map_ext_in. intros [k l] Hin. simpl.
        destruct (dict_entry_player d h ND k l Hin) as [Hp _].
        destruct (Cp _ Hp) as [_ [_ [_ [Pr _]]]]. fold dict in Pr. rewrite Pr.
        pose proof (dict_player_prefs d h ND k l Hin) as Pp. fold dict c1 in Pp.
        rewrite Pp. rewrite !map_map. rewrite <- (map_id l) at 2. apply map_ext_in.
        intros n Hn. apply Nm. now apply (C k l).
      * intros p Hp. apply in_map_iff in Hp. destruct Hp as [p0 [<- Hp0]].
        now destruct (Cp _ Hp0) as [_ [_ [_ [_ [_ [M _]]]]]].
  - rewrite (bind_throw _ _ _ _ _ E3). split; [reflexivity|].
    intros R. apply RA in R. discriminate.
Qed.

Lemma StableRoommates_createFromDictionary_outcome_witness :
  NoDup (map fst [("A", ["B"; "C"]); ("B", ["A"])]%string)
  /\ fst (StableRoommates_createFromDictionary [("A", ["B"; "C"]); ("B", ["A"])]%string [])
     = Throw (TypeError "name").
Proof.
  assert (ND : NoDup (map fst [("A", ["B"; "C"]); ("B", ["A"])]%string)).
  { simpl. repeat constructor; simpl; intuition discriminate. }
  split; [exact ND|].
  apply (proj1 (StableRoommates_createFromDictionary_outcome _ [] ND)).
  intros K. specialize (K "A"%string ["B"; "C"]%string "C"%string).
  simpl in K. destruct K as [E|[E|[]]]; auto; discriminate.
Defined.

(* ================================================================== *)
(** ** Hospital-Resident: the resident-optimal algorithm *)
(* ================================================================== *)

(** *** The entity methods, as total operations on the views *)

Lemma is_hospital_obj (h : heap) (v : value) :
  is_hospital h v = true ->
  exists a x, v = ref a /\ nth_error h a = Some (HospitalObj x)
              /\ Hospital.cls x = IsHospital.
Proof.
  unfold is_hospital. destruct v as [| |a]; simpl; try discriminate.
  destruct (nth_error h a) as [[p|x]|] eqn:E; try discriminate.
  destruct (Hospital.cls x) eqn:C; try discriminate. eauto.
Qed.

Ltac hr_views a En :=
  repeat split; intros v;
  unfold pmatching, pprefs, is_player, porig, hmatching, hprefs, hcapacity, is_hospital;
  (destruct (value_eqb_spec v (ref a)) as [->|N];
   [rewrite (obj_at_upd_same _ _ _ _ En); simpl; rewrite ?En; reflexivity
   |rewrite obj_at_upd_other; auto]).

Lemma frame_refl (h : heap) : frame h h.
Proof. repeat split. Qed.

Lemma frame_trans (h1 h2 h3 : heap) : frame h1 h2 -> frame h2 h3 -> frame h1 h3.
Proof.
  intros [A1 [A2 [A3 A4]]] [B1 [B2 [B3 B4]]].
  repeat split; intros v; [rewrite B1|rewrite B2|rewrite B3|rewrite B4]; auto.
Qed.

Lemma r_unmatch_total (a arg : value) (h : heap) :
  is_player h a = true ->
  exists h', _unmatch a arg h = (Ok tt, h') /\ frame h h'
    /\ (forall v, pmatching h' v = if value_eqb v a then null else pmatching h v)
    /\ (forall v, pprefs h' v = pprefs h v)
    /\ (forall v, hprefs h' v = hprefs h v)
    /\ (forall v, hmatching h' v = hmatching h v).
Proof.
  intros H. destruct (is_player_obj _ _ H) as [n [p [-> En]]].
  eexists. split; [apply (unmatch_player _ _ _ _ En)|]. hr_views n En.
Qed.

Lemma r_match_total (a b : value) (h : heap) :
  is_player h a = true ->
  exists h', _match a b h = (Ok tt, h') /\ frame h h'
    /\ (forall v, pmatching h' v = if value_eqb v a then b else pmatching h v)
    /\ (forall v, pprefs h' v = pprefs h v)
    /\ (forall v, hprefs h' v = hprefs h v)
    /\ (forall v, hmatching h' v = hmatching h v).
Proof.
  intros H. destruct (is_player_obj _ _ H) as [n [p [-> En]]].
  eexists. split; [apply (match_player _ _ _ _ En)|]. hr_views n En.
Qed.

Lemma r_forget_total (a b : value) (h : heap) :
  is_player h a = true ->
  exists h', _forget a b h = (Ok tt, h') /\ frame h h'
    /\ (forall v, pmatching h' v = pmatching h v)
    /\ (forall v, pprefs h' v
                  = if value_eqb v a then remove_value b (pprefs h v) else pprefs h v)
    /\ (forall v, hprefs h' v = hprefs h v)
    /\ (forall v, hmatching h' v = hmatching h v).
Proof.
  intros H. destruct (is_player_obj _ _ H) as [n [p [-> En]]].
  eexists. split; [apply (forget_player _ _ _ _ En)|]. hr_views n En.
Qed.

Lemma h_unmatch_total (x r : value) (h : heap) :
  is_hospital h x = true ->
  exists h', _unmatch x r h = (Ok tt, h') /\ frame h h'
    /\ (forall v, pmatching h' v = pmatching h v)
    /\ (forall v, pprefs h' v = pprefs h v)
    /\ (forall v, hprefs h' v = hprefs h v)
    /\ (forall v, hmatching h' v
                  = if value_eqb v x then remove_value r (hmatching h v) else hmatching h v).
Proof.
  intros H. destruct (is_hospital_obj _ _ H) as [n [o [-> [En C]]]].
  eexists. split; [apply (unmatch_hospital _ _ _ _ En C)|]. hr_views n En.
Qed.

Lemma h_match_total (x r : value) (h : heap) :
  is_hospital h x = true ->
  exists h', _match x r h = (Ok tt, h') /\ frame h h'
    /\ (forall v, pmatching h' v = pmatching h v)
    /\ (forall v, pprefs h' v = pprefs h v)
    /\ (forall v, hprefs h' v = hprefs h v)
    /\ (forall v, hmatching h' v
                  = if value_eqb v x
                    then sort_by (indexOf (hprefs h v)) (hmatching h v ++ [r])
                    else hmatching h v).
Proof.
  intros H. destruct (is_hospital_obj _ _ H) as [n [o [-> [En C]]]].
  eexists. split; [apply (match_hospital _ _ _ _ En C)|]. hr_views n En.
Qed.

Lemma h_forget_total (x r : value) (h : heap) :
  is_hospital h x = true ->
  exists h', _forget x r h = (Ok tt, h') /\ frame h h'
    /\ (forall v, pmatching h' v = pmatching h v)
    /\ (forall v, pprefs h' v = pprefs h v)
    /\ (forall v, hprefs h' v
                  = if value_eqb v x then remove_value r (hprefs h v) else hprefs h v)
    /\ (forall v, hmatching h' v = hmatching h v).
Proof.
  intros H. destruct (is_hospital_obj _ _ H) as [n [o [-> [En C]]]].
  eexists. split; [apply (forget_hospital _ _ _ _ En C)|]. hr_views n En.
Qed.

Lemma hospital_view (h : heap) (v : value) :
  is_hospital h v = true ->
  exists o, obj_at h v = Some (HospitalObj o)
            /\ hprefs h v = Hospital.prefs o /\ hmatching h v = Hospital.matching o
            /\ hcapacity h v = Hospital.capacity o.
Proof.
  unfold is_hospital, hprefs, hmatching, hcapacity.
  destruct (obj_at h v) as [[p|x]|]; try discriminate. eauto.
Qed.

Lemma is_hospital_not_player (h : heap) (v : value) :
  is_hospital h v = true -> is_player h v = false.
Proof.
  unfold is_hospital, is_player. destruct (obj_at h v) as [[p|x]|]; congruence.
Qed.

(** [deletePair(hospital, resident)] *)
Lemma HR_deletePair_total (x s : value) (h : heap) :
  is_hospital h x = true -> is_player h s = true ->
  exists h', deletePair x s h = (Ok tt, h') /\ frame h h'
    /\ (forall v, pmatching h' v = pmatching h v)
    /\ (forall v, hmatching h' v = hmatching h v)
    /\ (forall v, hprefs h' v
                  = if value_eqb v x then remove_value s (hprefs h v) else hprefs h v)
    /\ (forall v, pprefs h' v
                  = if value_eqb v s then remove_value x (pprefs h v) else pprefs h v).
Proof.
  intros Hx Hs.
  destruct (h_forget_total x s h Hx) as [h1 [E1 [F1 [A1 [B1 [C1 D1]]]]]].
  assert (Hs1 : is_player h1 s = true) by (destruct F1 as [F _]; now rewrite F).
  destruct (r_forget_total s x h1 Hs1) as [h2 [E2 [F2 [A2 [B2 [C2 D2]]]]]].
  exists h2. split; [unfold deletePair; now rewrite (bind_ok _ _ _ _ _ E1)|].
  split; [exact (frame_trans _ _ _ F1 F2)|].
  repeat split; intros v.
  - now rewrite A2, A1.
  - now rewrite D2, D1.
  - now rewrite C2, C1.
  - rewrite B2, B1. reflexivity.
Qed.

Lemma prune_free_ext (f g : value -> list value) (S free : list value) :
  (forall s, In s S -> f s = g s) -> prune_free f S free = prune_free g S free.
Proof.
  revert free. induction S as [|s S IH]; intros free H; simpl; [reflexivity|].
  rewrite (H s (or_introl eq_refl)). apply IH. intros t Ht. apply H. now right.
Qed.

(** The [for] over the successors of a hospital that has become full. *)
Lemma residentOptimal_delete_total (x : value) (S : list value) :
  forall free h,
    is_hospital h x = true -> (forall s, In s S -> is_player h s = true) ->
    exists h',
      residentOptimal_delete x S free h
      = (Ok (prune_free (fun s => remove_value x (pprefs h s)) S free), h')
      /\ frame h h'
      /\ (forall v, pmatching h' v = pmatching h v)
      /\ (forall v, hmatching h' v = hmatching h v)
      /\ (forall v, hprefs h' v
                    = if value_eqb v x then remove_all S (hprefs h v) else hprefs h v)
      /\ (forall v, pprefs h' v
                    = if includes S v then remove_value x (pprefs h v) else pprefs h v).
Proof.
  induction S as [|s S IH]; intros free h Hx HS; simpl.
  - exists h. split; [reflexivity|]. split; [apply frame_refl|].
    repeat split; auto. intros v. rewrite remove_all_nil. now destruct (value_eqb v x).
  - assert (Hs : is_player h s = true) by (apply HS; now left).
    destruct (HR_deletePair_total x s h Hx Hs) as [h1 [E1 [F1 [A1 [B1 [C1 D1]]]]]].
    rewrite (bind_ok _ _ _ _ _ E1).
    assert (Hs1 : is_player h1 s = true) by (destruct F1 as [F _]; now rewrite F).
    destruct (player_view h1 s Hs1) as [p [Ep [Pp _]]].
    rewrite (bind_ok _ _ _ _ _ (load_at "prefs" _ _ _ Ep)).
    assert (Eprefs : obj_prefs (PlayerObj p) = remove_value x (pprefs h s)).
    { simpl. rewrite <- Pp, D1, value_eqb_refl. reflexivity. }
    rewrite Eprefs.
    destruct (IH (if Nat.eqb (List.length (remove_value x (pprefs h s))) 0 && includes free s
                  then remove_first s free else free) h1)
      as [h2 [E2 [F2 [A2 [B2 [C2 D2]]]]]].
    { destruct F1 as [_ [_ [F _]]]. now rewrite F. }
    { intros t Ht. destruct F1 as [F _]. rewrite F. apply HS. now right. }
    exists h2. split.
    { rewrite E2. f_equal. f_equal. apply prune_free_ext. intros t Ht.
      rewrite D1. destruct (value_eqb t s); [apply remove_value_idem|reflexivity]. }
    split; [exact (frame_trans _ _ _ F1 F2)|].
    repeat split; intros v.
    + now rewrite A2, A1.
    + now rewrite B2, B1.
    + rewrite C2, C1. destruct (value_eqb v x); [|reflexivity].
      now rewrite remove_all_cons.
    + rewrite D2, D1.
      change (includes (s :: S) v) with (value_eqb v s || includes S v).
      destruct (value_eqb v s); simpl; [|reflexivity].
      destruct (includes S v); [apply remove_value_idem|reflexivity].
Qed.

(** [unmatchPair(resident, hospital)] of hospital-resident.ts *)
Lemma HR_unmatchPair_total (w x : value) (h : heap) :
  is_player h w = true -> is_hospital h x = true ->
  exists h', HR_unmatchPair w x h = (Ok tt, h') /\ frame h h'
    /\ (forall v, pmatching h' v = if value_eqb v w then null else pmatching h v)
    /\ (forall v, hmatching h' v
                  = if value_eqb v x then remove_value w (hmatching h v) else hmatching h v)
    /\ (forall v, hprefs h' v = hprefs h v)
    /\ (forall v, pprefs h' v = pprefs h v).
Proof.
  intros Hw Hx.
  destruct (r_unmatch_total w undefined h Hw) as [h1 [E1 [F1 [A1 [B1 [C1 D1]]]]]].
  assert (Hx1 : is_hospital h1 x = true) by (destruct F1 as [_ [_ [F _]]]; now rewrite F).
  destruct (h_unmatch_total x w h1 Hx1) as [h2 [E2 [F2 [A2 [B2 [C2 D2]]]]]].
  exists h2. split; [unfold HR_unmatchPair; now rewrite (bind_ok _ _ _ _ _ E1)|].
  split; [exact (frame_trans _ _ _ F1 F2)|].
  repeat split; intros v.
  - now rewrite A2, A1.
  - now rewrite D2, D1.
  - now rewrite C2, C1.
  - now rewrite B2, B1.
Qed.

(** [matchPair(resident, hospital)] *)
Lemma HR_matchPair_total (r x : value) (h : heap) :
  is_player h r = true -> is_hospital h x = true ->
  exists h', matchPair r x h = (Ok tt, h') /\ frame h h'
    /\ (forall v, pmatching h' v = if value_eqb v r then x else pmatching h v)
    /\ (forall v, hmatching h' v
                  = if value_eqb v x
                    then sort_by (indexOf (hprefs h v)) (hmatching h v ++ [r])
                    else hmatching h v)
    /\ (forall v, hprefs h' v = hprefs h v)
    /\ (forall v, pprefs h' v = pprefs h v).
Proof.
  intros Hr Hx.
  destruct (r_match_total r x h Hr) as [h1 [E1 [F1 [A1 [B1 [C1 D1]]]]]].
  assert (Hx1 : is_hospital h1 x = true) by (destruct F1 as [_ [_ [F _]]]; now rewrite F).
  destruct (h_match_total x r h1 Hx1) as [h2 [E2 [F2 [A2 [B2 [C2 D2]]]]]].
  exists h2. split; [unfold matchPair; now rewrite (bind_ok _ _ _ _ _ E1)|].
  split; [exact (frame_trans _ _ _ F1 F2)|].
  repeat split; intros v.
  - now rewrite A2, A1.
  - rewrite D2, D1, C1. reflexivity.
  - now rewrite C2, C1.
  - now rewrite B2, B1.
Qed.

Lemma getHospital_view (site : string) (h : heap) (v : value) :
  is_hospital h v = true ->
  exists o, getHospital site v h = (Ok o, h)
            /\ Hospital.prefs o = hprefs h v /\ Hospital.matching o = hmatching h v
            /\ Hospital.capacity o = hcapacity h v.
Proof.
  intros H. destruct (hospital_view h v H) as [o [E [A [B C]]]].
  exists o. split; [now apply getHospital_at|]. auto.
Qed.

Lemma sort_by_nonempty (key : value -> Z) (l : list value) (x : value) :
  sort_by key (l ++ [x]) <> [].
Proof.
  intros E. pose proof (sort_by_perm key (l ++ [x])) as P. rewrite E in P.
  apply Permutation_sym, Permutation_nil in P. destruct l; discriminate.
Qed.

(** One iteration of the loop of [residentOptimal] for a resident that
    still has a hospital to apply to: what it returns and the state it
    leaves, in closed form. *)
Lemma residentOptimal_step_total (r : value) (free : list value) (h : heap)
    (x w : value) (full full' : bool) (M0 M1 S free1 : list value) :
  is_player h r = true -> pprefs h r <> [] ->
  x = at_index (pprefs h r) 0 -> is_hospital h x = true ->
  (1 <= hcapacity h x)%Z ->
  (forall m, In m (hmatching h x) -> is_player h m = true) ->
  (forall s, In s (hprefs h x) -> is_player h s = true) ->
  full = (Z.of_nat (List.length (hmatching h x)) =? hcapacity h x)%Z ->
  w = last (hmatching h x) undefined ->
  M0 = (if full then remove_value w (hmatching h x) else hmatching h x) ->
  free1 = (if full then free ++ [w] else free) ->
  M1 = sort_by (indexOf (hprefs h x)) (M0 ++ [r]) ->
  full' = (Z.of_nat (List.length M1) =? hcapacity h x)%Z ->
  S = (if full'
       then slice (hprefs h x) (indexOf (hprefs h x) (last M1 undefined) + 1)
       else []) ->
  exists h',
    residentOptimal_step r free h
    = (Ok (prune_free (fun s => remove_value x (pprefs h s)) S free1), h')
    /\ frame h h'
    /\ (forall v, pmatching h' v
                  = if value_eqb v r then x
                    else if full && value_eqb v w then null else pmatching h v)
    /\ (forall v, hmatching h' v = if value_eqb v x then M1 else hmatching h v)
    /\ (forall v, hprefs h' v
                  = if value_eqb v x then remove_all S (hprefs h v) else hprefs h v)
    /\ (forall v, pprefs h' v
                  = if includes S v then remove_value x (pprefs h v) else pprefs h v).
Proof.
  intros Hr Hne Ex Hx Cap Hm Hp Efull Ew EM0 Efree1 EM1 Efull' ES.
  unfold residentOptimal_step.
  destruct (player_view h r Hr) as [p [Ep [Pp Pm]]].
  rewrite (bind_ok _ _ _ _ _ (getPlayer_at "prefs" r h p Ep)).
  rewrite <- Pp.
  destruct (Nat.eqb_spec (List.length (pprefs h r)) 0) as [E0|_].
  { destruct (pprefs h r); [congruence|discriminate]. }
  unfold Player.getFavourite. rewrite <- Pp, <- Ex.
  destruct (getHospital_view "matching" h x Hx) as [o [Eo [Op [Om Oc]]]].
  rewrite (bind_ok _ _ _ _ _ Eo). rewrite Om, Oc, <- Efull.
  (* the eviction *)
  assert (Step1 : exists h1,
    (if full
     then HR_unmatchPair (Hospital.getWorstMatch o) x ;; ret (free ++ [Hospital.getWorstMatch o])
     else ret free)%M h = (Ok free1, h1)
    /\ frame h h1
    /\ (forall v, pmatching h1 v = if full && value_eqb v w then null else pmatching h v)
    /\ (forall v, hmatching h1 v = if value_eqb v x then M0 else hmatching h v)
    /\ (forall v, hprefs h1 v = hprefs h v)
    /\ (forall v, pprefs h1 v = pprefs h v)).
  { destruct full.
    - assert (Hn : hmatching h x <> []).
      { intros E. rewrite E in Efull. symmetry in Efull.
        apply Z.eqb_eq in Efull. simpl in Efull. lia. }
      assert (Ew' : Hospital.getWorstMatch o = w).
      { unfold Hospital.getWorstMatch. rewrite Om, Ew.
        destruct (hmatching h x); [congruence|reflexivity]. }
      rewrite Ew'.
      assert (Hw : is_player h w = true).
      { apply Hm. rewrite Ew. now apply last_In. }
      destruct (HR_unmatchPair_total w x h Hw Hx) as [h1 [E1 [F1 [A1 [B1 [C1 D1]]]]]].
      exists h1. split; [rewrite (bind_ok _ _ _ _ _ E1), Efree1; reflexivity|].
      split; [exact F1|]. repeat split; intros v; auto.
      rewrite B1, EM0. destruct (value_eqb_spec v x) as [->|]; reflexivity.
    - exists h. split; [rewrite Efree1; reflexivity|]. split; [apply frame_refl|].
      repeat split; intros v; auto.
      rewrite EM0. destruct (value_eqb_spec v x) as [->|]; reflexivity. }
  destruct Step1 as [h1 [E1 [F1 [A1 [B1 [C1 D1]]]]]].
  rewrite (bind_ok _ _ _ _ _ E1).
  assert (Hr1 : is_player h1 r = true) by (destruct F1 as [F _]; now rewrite F).
  assert (Hx1 : is_hospital h1 x = true) by (destruct F1 as [_ [_ [F _]]]; now rewrite F).
  destruct (HR_matchPair_total r x h1 Hr1 Hx1) as [h2 [E2 [F2 [A2 [B2 [C2 D2]]]]]].
  rewrite (bind_ok _ _ _ _ _ E2).
  assert (Hx2 : is_hospital h2 x = true) by (destruct F2 as [_ [_ [F _]]]; now rewrite F).
  assert (EM : hmatching h2 x = M1).
  { rewrite B2, value_eqb_refl, C1, B1, value_eqb_refl. now rewrite EM1. }
  assert (Ecap : hcapacity h2 x = hcapacity h x).
  { destruct F1 as [_ [_ [_ G1]]]. destruct F2 as [_ [_ [_ G2]]]. now rewrite G2, G1. }
  assert (Eprefs : hprefs h2 x = hprefs h x) by now rewrite C2, C1.
  destruct (getHospital_view "matching" h2 x Hx2) as [o2 [Eo2 [Op2 [Om2 Oc2]]]].
  rewrite (bind_ok _ _ _ _ _ Eo2). rewrite Om2, Oc2, EM, Ecap, <- Efull'.
  assert (F12 : frame h h2) by exact (frame_trans _ _ _ F1 F2).
  assert (V2m : forall v, pmatching h2 v
                          = if value_eqb v r then x
                            else if full && value_eqb v w then null else pmatching h v).
  { intros v. now rewrite A2, A1. }
  assert (V2h : forall v, hmatching h2 v = if value_eqb v x then M1 else hmatching h v).
  { intros v. rewrite B2. destruct (value_eqb_spec v x) as [->|N].
    - rewrite C1, B1, value_eqb_refl. now rewrite EM1.
    - rewrite B1. destruct (value_eqb_spec v x); [contradiction|reflexivity]. }
  destruct full'.
  - assert (ES' : Hospital.getSuccessors o2 = S).
    { unfold Hospital.getSuccessors, Hospital.getWorstMatch. rewrite Om2, Op2, EM, Eprefs.
      assert (Hn : M1 <> []) by (rewrite EM1; apply sort_by_nonempty).
      destruct M1 as [|m0 M1'] eqn:EMM; [congruence|]. rewrite <- EMM in *.
      assert (Hl : In (last M1 undefined) (M0 ++ [r])).
      { apply (Permutation_in _ (Permutation_sym (sort_by_perm (indexOf (hprefs h x)) _))).
        rewrite <- EM1. now apply last_In. }
      assert (Pl : is_player h (last M1 undefined) = true).
      { apply in_app_or in Hl. destruct Hl as [Hl|[<-|[]]]; [|exact Hr].
        apply Hm. rewrite EM0 in Hl. destruct full; [|exact Hl].
        now apply remove_value_In in Hl. }
      rewrite EMM in Pl at 1. rewrite EMM at 1.
      destruct (is_player_obj _ _ Pl) as [n [q [En _]]].
      rewrite <- EMM at 1. rewrite <- EMM in En. rewrite En. simpl truthy. cbv iota.
      rewrite ES, <- En. reflexivity. }
    rewrite ES'.
    destruct (residentOptimal_delete_total x S free1 h2 Hx2) as [h3 [E3 [F3 [A3 [B3 [C3 D3]]]]]].
    { intros s Hs. destruct F12 as [F _]. rewrite F. apply Hp.
      rewrite ES in Hs. now apply slice_incl in Hs. }
    exists h3. split.
    { rewrite E3. f_equal. f_equal. apply prune_free_ext. intros s _.
      now rewrite D2, D1. }
    split; [exact (frame_trans _ _ _ F12 F3)|].
    repeat split; intros v.
    + now rewrite A3.
    + now rewrite B3.
    + rewrite C3, C2, C1. reflexivity.
    + rewrite D3, D2, D1. reflexivity.
  - exists h2. rewrite ES. split; [reflexivity|]. split; [exact F12|].
    repeat split; intros v; auto.
    + rewrite C2, C1, remove_all_nil. now destruct (value_eqb v x).
    + simpl. now rewrite D2, D1.
Qed.

(** *** Lists: counting, order and the work list *)

Lemma remove_value_length_NoDup (v : value) (l : list value) :
  NoDup l -> In v l -> List.length (remove_value v l) + 1 = List.length l.
Proof.
  induction 1 as [|x l Hx ND IH]; [intros []|]. intros [->|H]; unfold remove_value; simpl.
  - rewrite value_eqb_refl. simpl. fold (remove_value v l).
    rewrite remove_value_absent by exact Hx. lia.
  - destruct (value_eqb_spec x v) as [->|N]; [contradiction|]. simpl.
    fold (remove_value v l). specialize (IH H). lia.
Qed.

Lemma indexOf_filter_le (f : value -> bool) (l : list value) (a b : value) :
  In a (filter f l) -> In b (filter f l) ->
  ((indexOf (filter f l) a <= indexOf (filter f l) b)%Z <-> (indexOf l a <= indexOf l b)%Z).
Proof.
  intros Ha Hb. pose proof (indexOf_filter_lt f l b a Hb Ha). lia.
Qed.

Lemma sorted_by_filter (f : value -> bool) (prefs l : list value) :
  (forall m, In m l -> In m (filter f prefs)) ->
  sorted_by prefs l -> sorted_by (filter f prefs) l.
Proof.
  unfold sorted_by. intros Hin S. induction S as [|x l Sl IH Hx]; constructor.
  - apply IH. intros m Hm. apply Hin. now right.
  - rewrite Forall_forall in *. intros y Hy.
    apply indexOf_filter_le; [apply Hin; now left|apply Hin; now right|]. now apply Hx.
Qed.

Lemma remove_first_length (v : value) (l : list value) :
  List.length (remove_first v l) <= List.length l.
Proof.
  induction l as [|x l IH]; simpl; [lia|]. destruct (value_eqb x v); simpl; lia.
Qed.

Lemma prune_free_In (P : value -> list value) (S : list value) :
  forall free a, In a (prune_free P S free) -> In a free.
Proof.
  induction S as [|s S IH]; intros free a H; simpl in H; [exact H|].
  apply IH in H. destruct (_ && _) in H; [now apply remove_first_In in H|exact H].
Qed.

Lemma prune_free_NoDup (P : value -> list value) (S : list value) :
  forall free, NoDup free -> NoDup (prune_free P S free).
Proof.
  induction S as [|s S IH]; intros free ND; simpl; [exact ND|].
  apply IH. destruct (_ && _); [now apply remove_first_NoDup|exact ND].
Qed.

Lemma prune_free_length (P : value -> list value) (S : list value) :
  forall free, List.length (prune_free P S free) <= List.length free.
Proof.
  induction S as [|s S IH]; intros free; simpl; [lia|].
  etransitivity; [apply IH|]. destruct (_ && _); [apply remove_first_length|lia].
Qed.

Lemma prune_free_keeps (P : value -> list value) (S : list value) (a : value) :
  (In a S -> P a <> []) ->
  forall free, In a free -> In a (prune_free P S free).
Proof.
  induction S as [|s S IH]; intros Ha free H; simpl; [exact H|].
  apply IH; [intros Hin; apply Ha; now right|].
  destruct (Nat.eqb_spec (List.length (P s)) 0) as [E|N]; simpl; [|exact H].
  destruct (includes free s); [|exact H].
  apply remove_first_keeps; [exact H|]. intros ->.
  apply Ha; [now left|]. destruct (P s); [reflexivity|discriminate].
Qed.

(** A resident with nobody left to apply to is dropped from the work
    list, and nothing else happens. *)
Lemma residentOptimal_step_empty (r : value) (free : list value) (h : heap) :
  is_player h r = true -> pprefs h r = [] ->
  residentOptimal_step r free h = (Ok free, h).
Proof.
  intros Hr E. unfold residentOptimal_step.
  destruct (player_view h r Hr) as [p [Ep [Pp _]]].
  rewrite (bind_ok _ _ _ _ _ (getPlayer_at "prefs" r h p Ep)).
  rewrite <- Pp, E. reflexivity.
Qed.

Lemma is_hospital_not_null (h : heap) (x : value) : is_hospital h x = true -> x <> null.
Proof. intros H ->. discriminate. Qed.

Lemma sorted_by_last_max (prefs l : list value) (m : value) :
  sorted_by prefs l -> In m l ->
  (indexOf prefs m <= indexOf prefs (last l undefined))%Z.
Proof. intros S H. now apply (sorted_last_max (indexOf prefs) l undefined S). Qed.

Section HR_loop.

Variables Rs Hs : list value.
Variables O OH : value -> list value.
Variable Oo : value -> option (list value).
Hypothesis static : HR_static Rs Hs O OH.

Lemma HR_inv_resident (h : heap) (free : list value) (r : value) :
  HR_inv Rs Hs O OH Oo h free -> In r Rs ->
  is_player h r = true /\ incl (pprefs h r) Hs /\ NoDup (pprefs h r).
Proof.
  intros [I1 _] Hr. destruct static as [_ [_ [SO _]]].
  destruct (I1 r Hr) as [P [_ [f E]]]. destruct (SO r Hr) as [ND In].
  split; [exact P|]. rewrite E. split.
  - intros x Hx. apply In. now apply filter_In in Hx.
  - now apply NoDup_filter.
Qed.

Lemma HR_inv_hospital (h : heap) (free : list value) (x : value) :
  HR_inv Rs Hs O OH Oo h free -> In x Hs ->
  is_hospital h x = true /\ incl (hprefs h x) Rs /\ NoDup (hprefs h x).
Proof.
  intros [_ [I2 _]] Hx. destruct static as [_ [_ [_ SOH]]].
  destruct (I2 x Hx) as [P [_ [f E]]]. destruct (SOH x Hx) as [ND In].
  split; [exact P|]. rewrite E. split.
  - intros r Hr. apply In. now apply filter_In in Hr.
  - now apply NoDup_filter.
Qed.

(** Whoever a hospital holds is a resident that holds the hospital, and
    that the hospital still ranks. *)
Lemma HR_inv_match (h : heap) (free : list value) (x m : value) :
  HR_inv Rs Hs O OH Oo h free -> In x Hs -> In m (hmatching h x) ->
  In m Rs /\ pmatching h m = x /\ In m (hprefs h x) /\ In x (pprefs h m).
Proof.
  intros Inv Hx Hm. pose proof Inv as [I1 [I2 [I3 [I4 [I5 [I6 _]]]]]].
  destruct (I5 x Hx) as [Inc _]. assert (HmR : In m Rs) by now apply Inc.
  assert (Pm : pmatching h m = x) by now apply (I4 m x HmR Hx).
  assert (Hxn : x <> null).
  { destruct (I2 x Hx) as [P _]. now apply (is_hospital_not_null h). }
  assert (Px : In x (pprefs h m)).
  { destruct (I6 m HmR) as [N|[rest E]]; [congruence|]. rewrite E, Pm. now left. }
  repeat split; auto. now apply (I3 m x HmR Hx).
Qed.

(** One iteration of the [while] loop keeps the invariant and decreases
    the measure. *)
Lemma HR_inv_step (h : heap) (free0 : list value) (r : value) :
  HR_inv Rs Hs O OH Oo h (free0 ++ [r]) ->
  exists free' h',
    residentOptimal_step r free0 h = (Ok free', h')
    /\ HR_inv Rs Hs O OH Oo h' free'
    /\ HR_measure Rs h' free' < HR_measure Rs h (free0 ++ [r]).
Proof.
  intros Inv. pose proof Inv as [I1 [I2 [I3 [I4 [I5 [I6 [I7 [[F1 [F2 F3]] I9]]]]]]]].
  assert (HrR : In r Rs) by (apply F2, in_or_app; right; now left).
  assert (Hnull : pmatching h r = null) by (apply F3, in_or_app; right; now left).
  apply NoDup_snoc in F1. destruct F1 as [F1 Hrf].
  destruct (HR_inv_resident h _ r Inv HrR) as [Pr [Ir NDr]].
  destruct (pprefs h r) as [|x rest0] eqn:Eprefs.
  { (* nobody left to apply to *)
    exists free0, h. split; [now apply residentOptimal_step_empty|]. split.
    - split; [exact I1|]. split; [exact I2|]. split; [exact I3|]. split; [exact I4|].
      split; [exact I5|]. split; [exact I6|]. split; [exact I7|]. split.
      + split; [exact F1|]. split.
        * intros y Hy. apply F2, in_or_app. now left.
        * intros y Hy. apply F3, in_or_app. now left.
      + intros y Hy Ny Py. specialize (I9 y Hy Ny Py).
        apply in_app_or in I9. destruct I9 as [H|[<-|[]]]; [exact H|congruence].
    - unfold HR_measure. rewrite length_app. simpl. lia. }
  (* an application to the favourite [x] *)
  assert (HxH : In x Hs) by (apply Ir; now left).
  destruct (HR_inv_hospital h _ x Inv HxH) as [Px [Ix NDx]].
  destruct (I2 x HxH) as [_ [Cap _]].
  assert (Hxn : x <> null) by now apply (is_hospital_not_null h).
  assert (Hrx : In r (hprefs h x)) by (apply (I3 r x HrR HxH); rewrite Eprefs; now left).
  destruct (I5 x HxH) as [IMx [LMx [SMx NDMx]]].
  assert (HrM : ~ In r (hmatching h x)).
  { intros H. apply (I4 r x HrR HxH) in H. congruence. }
  set (Mx := hmatching h x) in *.
  set (key := indexOf (hprefs h x)).
  remember (Z.of_nat (List.length Mx) =? hcapacity h x)%Z as full eqn:Efull.
  remember (last Mx undefined) as w eqn:Ew.
  remember (if full then remove_value w Mx else Mx) as M0 eqn:EM0.
  remember (if full then free0 ++ [w] else free0) as free1 eqn:Efree1.
  remember (sort_by key (M0 ++ [r])) as M1 eqn:EM1.
  remember (Z.of_nat (List.length M1) =? hcapacity h x)%Z as full' eqn:Efull'.
  remember (if full' then slice (hprefs h x) (key (last M1 undefined) + 1) else [])
    as S eqn:ES.
  assert (Mranked : forall m, In m Mx ->
            In m Rs /\ pmatching h m = x /\ In m (hprefs h x) /\ In x (pprefs h m)).
  { intros m Hm. now apply (HR_inv_match h _ x m Inv HxH). }
  (* the evicted resident *)
  assert (Full : full = true ->
            Mx <> [] /\ In w Mx /\ w <> r
            /\ List.length M0 + 1 = List.length Mx
            /\ (forall m, In m Mx -> (key m <= key w)%Z)).
  { intros Efb.
    assert (Ef : Z.of_nat (List.length Mx) = hcapacity h x) by (apply Z.eqb_eq; congruence).
    assert (Hn : Mx <> []) by (intros E; rewrite E in Ef; simpl in Ef; lia).
    assert (Hw : In w Mx) by (rewrite Ew; now apply last_In).
    split; [exact Hn|]. split; [exact Hw|]. split; [intros E; rewrite E in Hw; contradiction|].
    split.
    - rewrite EM0, Efb. now apply remove_value_length_NoDup.
    - intros m Hm. rewrite Ew. now apply (sorted_by_last_max (hprefs h x) Mx m SMx). }
  assert (InM0 : forall m, In m M0 <-> In m Mx /\ (full = true -> m <> w)).
  { intros m. rewrite EM0. destruct full.
    - rewrite remove_value_In. intuition congruence.
    - intuition congruence. }
  assert (PermM1 : Permutation (M0 ++ [r]) M1) by (rewrite EM1; apply sort_by_perm).
  assert (InM1 : forall m, In m M1 <-> In m M0 \/ m = r).
  { intros m. split.
    - intros H. apply (Permutation_in _ (Permutation_sym PermM1)) in H.
      apply in_app_or in H. destruct H as [H|[H|[]]]; auto.
    - intros H. apply (Permutation_in _ PermM1). apply in_or_app.
      destruct H as [H|H]; [now left|right; now left]. }
  assert (LenM1 : List.length M1 = List.length M0 + 1).
  { rewrite <- (Permutation_length PermM1), length_app. reflexivity. }
  assert (M1ranked : forall m, In m M1 -> In m (hprefs h x) /\ In m Rs).
  { intros m Hm. apply InM1 in Hm. destruct Hm as [Hm| ->]; [|now split].
    apply InM0 in Hm. destruct Hm as [Hm _]. destruct (Mranked m Hm) as [A [_ [B _]]].
    now split. }
  assert (SM1 : sorted_by (hprefs h x) M1) by (rewrite EM1; apply sort_by_sorted).
  assert (NDM0 : NoDup M0).
  { rewrite EM0. destruct full; [|exact NDMx]. unfold remove_value. now apply NoDup_filter. }
  assert (NDM1 : NoDup M1).
  { apply (Permutation_NoDup PermM1). apply NoDup_snoc. split; [exact NDM0|].
    intros H. apply InM0 in H. now destruct H. }
  assert (LenOK : (Z.of_nat (List.length M1) <= hcapacity h x)%Z).
  { rewrite LenM1. destruct full.
    - destruct (Full eq_refl) as [_ [_ [_ [L _]]]]. lia.
    - symmetry in Efull. apply Z.eqb_neq in Efull. rewrite EM0. lia. }
  assert (Full' : full = true -> full' = true).
  { intros Efb. destruct (Full Efb) as [_ [_ [_ [L _]]]].
    assert (Ef : Z.of_nat (List.length Mx) = hcapacity h x) by (apply Z.eqb_eq; congruence).
    rewrite Efull'. apply Z.eqb_eq. lia. }
  assert (HM1n : M1 <> []) by (rewrite EM1; apply sort_by_nonempty).
  assert (HlastM1 : In (last M1 undefined) M1) by now apply last_In.
  assert (S_in : forall s, In s S <->
            full' = true /\ In s (hprefs h x) /\ (key (last M1 undefined) < key s)%Z).
  { intros s. rewrite ES. unfold key. destruct full'.
    - rewrite (slice_after_In (hprefs h x) (last M1 undefined) s NDx).
      + tauto.
      + now apply M1ranked.
    - simpl. intuition discriminate. }
  assert (S2 : forall m, In m M1 -> ~ In m S).
  { intros m Hm Hss. apply S_in in Hss. destruct Hss as [_ [_ Hlt]].
    pose proof (sorted_by_last_max (hprefs h x) M1 m SM1 Hm) as Hle.
    unfold key in Hlt. lia. }
  assert (S3 : full = true -> In w S).
  { intros Efb. destruct (Full Efb) as [_ [Hw [Nwr [_ Hmax]]]].
    apply S_in. split; [now apply Full'|]. split; [now apply Mranked|].
    assert (Hl : In (last M1 undefined) M0 \/ last M1 undefined = r) by now apply InM1.
    assert (Kinj : forall a, In a (hprefs h x) -> key a = key w -> a = w).
    { intros a Ha E. now apply (indexOf_inj (hprefs h x) a w Ha). }
    destruct Hl as [Hl|Hl].
    - apply InM0 in Hl. destruct Hl as [Hl Nl]. specialize (Nl Efb).
      pose proof (Hmax _ Hl) as Hle.
      assert (key (last M1 undefined) <> key w).
      { intros E. apply Nl. apply Kinj; [now apply Mranked|exact E]. }
      lia.
    - rewrite Hl.
      assert (Hle : (key r <= key w)%Z).
      { rewrite Ew. apply I7; [exact HxH| |exact Hrx]. apply Z.eqb_eq. fold Mx. congruence. }
      assert (key r <> key w).
      { intros E. apply Nwr. symmetry. now apply Kinj. }
      lia. }
  assert (SR : forall s, In s S -> In s Rs).
  { intros s Hss. apply S_in in Hss. apply Ix. tauto. }
  destruct (residentOptimal_step_total r free0 h x w full full' M0 M1 S free1)
    as [h' [E [Fr [Vm [Vh [Vhp Vpp]]]]]]; auto.
  { rewrite Eprefs. discriminate. }
  { rewrite Eprefs. reflexivity. }
  { intros m Hm. destruct (Mranked m Hm) as [A _]. now destruct (I1 m A). }
  { intros s Hss. destruct (I1 s (Ix s Hss)) as [A _]. exact A. }
  destruct Fr as [FrP [FrO [FrH FrC]]].
  exists (prune_free (fun s => remove_value x (pprefs h s)) S free1), h'.
  split; [exact E|].
  (* the work list *)
  assert (NDfree1 : NoDup free1).
  { rewrite Efree1. destruct full eqn:Ef; [|exact F1].
    apply NoDup_snoc. split; [exact F1|]. intros Hin.
    destruct (Full eq_refl) as [_ [Hw _]]. destruct (Mranked w Hw) as [_ [Pw _]].
    assert (pmatching h w = null) by (apply F3, in_or_app; now left). congruence. }
  assert (Infree1 : forall a, In a free1 -> In a free0 \/ (full = true /\ a = w)).
  { intros a Ha. rewrite Efree1 in Ha. destruct full; [|now left].
    apply in_app_or in Ha. destruct Ha as [Ha|[<-|[]]]; [now left|right; now split]. }
  assert (Sub : forall v, List.length (pprefs h' v) <= List.length (pprefs h v)).
  { intros v. rewrite Vpp. destruct (includes S v); [apply remove_value_length|lia]. }
  split.
  - (* the invariant *)
    split.
    { intros y Hy. destruct (I1 y Hy) as [A [B [f C]]].
      rewrite FrP, FrO. split; [exact A|]. split; [exact B|].
      rewrite Vpp. destruct (includes S y).
      - rewrite C, remove_value_filter. eexists. reflexivity.
      - now exists f. }
    split.
    { intros y Hy. destruct (I2 y Hy) as [A [B [f C]]].
      rewrite FrH, FrC. split; [exact A|]. split; [exact B|].
      rewrite Vhp. destruct (value_eqb_spec y x) as [->|N].
      - rewrite C, remove_all_filter. eexists. reflexivity.
      - now exists f. }
    split.
    { intros y z Hy Hz. rewrite Vpp, Vhp.
      destruct (value_eqb_spec z x) as [->|N].
      - rewrite remove_all_In. destruct (includes S y) eqn:Sy.
        + apply includes_In in Sy. rewrite remove_value_In. tauto.
        + apply includes_not_In in Sy. rewrite (I3 y x Hy Hz). tauto.
      - destruct (includes S y).
        + rewrite remove_value_In. rewrite (I3 y z Hy Hz). tauto.
        + apply I3; auto. }
    split.
    { intros y z Hy Hz. rewrite Vm, Vh.
      assert (Hzn : z <> null).
      { destruct (I2 z Hz) as [P _]. now apply (is_hospital_not_null h). }
      destruct (value_eqb_spec z x) as [->|N].
      - rewrite InM1, InM0. destruct (value_eqb_spec y r) as [->|Nr]; [tauto|].
        destruct full eqn:Ef; simpl.
        + destruct (value_eqb_spec y w) as [->|Nw].
          * split; [congruence|]. intros [[_ H]|H]; [now destruct H|contradiction].
          * rewrite (I4 y x Hy Hz). fold Mx. intuition congruence.
        + rewrite (I4 y x Hy Hz). fold Mx. intuition congruence.
      - destruct (value_eqb_spec y r) as [->|Nr].
        + split; [congruence|]. intros H. apply (I4 r z Hy Hz) in H. congruence.
        + destruct full eqn:Ef; simpl.
          * destruct (value_eqb_spec y w) as [->|Nw]; [|now apply I4].
            split; [congruence|]. intros H. apply (I4 w z Hy Hz) in H.
            destruct (Full eq_refl) as [_ [Hw _]]. destruct (Mranked w Hw) as [_ [Pw _]].
            congruence.
          * now apply I4. }
    split.
    { intros y Hy. rewrite Vh, Vhp, FrC.
      destruct (value_eqb_spec y x) as [->|N].
      - split; [intros m Hm; now apply M1ranked|]. split; [exact LenOK|].
        split; [|exact NDM1].
        unfold remove_all. apply sorted_by_filter; [|exact SM1].
        intros m Hm. fold (remove_all S (hprefs h x)). apply remove_all_In.
        split; [now apply M1ranked|now apply S2].
      - now apply I5. }
    split.
    { intros y Hy. rewrite Vm, Vpp.
      destruct (value_eqb_spec y r) as [->|Nr].
      - right. assert (Sr : includes S r = false).
        { apply includes_not_In. apply S2. apply InM1. now right. }
        rewrite Sr, Eprefs. now exists rest0.
      - destruct (full && value_eqb y w) eqn:T; [now left|].
        destruct (I6 y Hy) as [Nn|[rest Er]]; [now left|]. right.
        destruct (includes S y) eqn:Sy; [|now exists rest].
        apply includes_In in Sy.
        assert (Ny : pmatching h y <> x).
        { intros Eq. apply (I4 y x Hy HxH) in Eq. fold Mx in Eq.
          apply (S2 y); [|exact Sy]. apply InM1. left. apply InM0. split; [exact Eq|].
          intros Ef ->. rewrite Ef, value_eqb_refl in T. discriminate. }
        rewrite Er. unfold remove_value. simpl.
        destruct (value_eqb_spec (pmatching h y) x) as [Eq|_]; [contradiction|].
        simpl. eexists. reflexivity. }
    split.
    { intros y Hy. rewrite Vh, Vhp, FrC.
      destruct (value_eqb_spec y x) as [->|N]; [|now apply I7].
      intros Ec s Hss. apply remove_all_In in Hss. destruct Hss as [Hss NS].
      assert (Ef' : full' = true) by (rewrite Efull'; now apply Z.eqb_eq).
      unfold remove_all. apply indexOf_filter_le.
      - fold (remove_all S (hprefs h x)). apply remove_all_In. now split.
      - fold (remove_all S (hprefs h x)). apply remove_all_In.
        split; [now apply M1ranked|now apply S2].
      - destruct (Z.le_gt_cases (key s) (key (last M1 undefined))) as [L|G]; [exact L|].
        exfalso. apply NS. apply S_in. split; [exact Ef'|]. split; [exact Hss|lia]. }
    split.
    { split; [now apply prune_free_NoDup|]. split.
      - intros a Ha. apply prune_free_In in Ha. apply Infree1 in Ha.
        destruct Ha as [Ha|[Ef ->]].
        + apply F2, in_or_app. now left.
        + destruct (Full Ef) as [_ [Hw _]]. now apply Mranked.
      - intros a Ha. apply prune_free_In in Ha. apply Infree1 in Ha. rewrite Vm.
        destruct Ha as [Ha|[Ef ->]].
        + destruct (value_eqb_spec a r) as [->|Nr]; [contradiction|].
          destruct (full && value_eqb a w); [reflexivity|].
          apply F3, in_or_app. now left.
        + destruct (Full Ef) as [_ [_ [Nwr _]]].
          destruct (value_eqb_spec w r) as [Eq|_]; [contradiction|].
          now rewrite Ef, value_eqb_refl. }
    { intros y Hy Ny Py. rewrite Vm in Ny.
      destruct (value_eqb_spec y r) as [->|Nr]; [contradiction|].
      apply prune_free_keeps.
      - intros Sy. apply includes_In in Sy. rewrite Vpp, Sy in Py. exact Py.
      - destruct (full && value_eqb y w) eqn:T.
        + apply andb_true_iff in T. destruct T as [Ef T]. apply value_eqb_eq in T. subst y.
          rewrite Efree1, Ef. apply in_or_app. right. now left.
        + assert (Py0 : pprefs h y <> []).
          { intros E0. apply Py. rewrite Vpp, E0. now destruct (includes S y). }
          specialize (I9 y Hy Ny Py0). apply in_app_or in I9.
          destruct I9 as [H|[H|[]]]; [|congruence].
          rewrite Efree1. destruct full; [apply in_or_app; now left|exact H]. }
  - (* the measure *)
    unfold HR_measure. rewrite length_app. simpl.
    pose proof (prune_free_length (fun s => remove_value x (pprefs h s)) S free1) as L1.
    destruct full eqn:Ef.
    + destruct (Full eq_refl) as [_ [Hw _]]. destruct (Mranked w Hw) as [HwR [_ [_ Hxw]]].
      assert (Lt : list_sum (map (fun y => List.length (pprefs h' y)) Rs)
                   < list_sum (map (fun y => List.length (pprefs h y)) Rs)).
      { apply (list_sum_lt _ _ Rs w); [intros y _; apply Sub|exact HwR|].
        rewrite Vpp. specialize (S3 eq_refl). apply includes_In in S3. rewrite S3.
        now apply remove_value_length_In. }
      assert (Lf : List.length free1 = List.length free0 + 1)
        by (rewrite Efree1, length_app; simpl; lia).
      lia.
    + assert (Le : list_sum (map (fun y => List.length (pprefs h' y)) Rs)
                   <= list_sum (map (fun y => List.length (pprefs h y)) Rs)).
      { apply list_sum_le. intros y _. apply Sub. }
      assert (Lf : List.length free1 = List.length free0) by now rewrite Efree1.
      lia.
Qed.

End HR_loop.

Section HR_run.

Variables Rs Hs : list value.
Variables O OH : value -> list value.
Variable Oo : value -> option (list value).
Hypothesis static : HR_static Rs Hs O OH.

(** With fuel for as many iterations as the measure allows, the loop
    returns, and leaves a state with an empty work list. *)
Lemma HR_loop_total (fuel : nat) :
  forall free h,
    HR_inv Rs Hs O OH Oo h free -> HR_measure Rs h free <= fuel ->
    exists h', residentOptimal_loop fuel free h = (Ok tt, h')
               /\ HR_inv Rs Hs O OH Oo h' [].
Proof.
  induction fuel as [|fuel IH]; intros free h Inv Hm.
  - assert (free = []).
    { unfold HR_measure in Hm. destruct free; [reflexivity|simpl in Hm; lia]. }
    subst free. exists h. split; [reflexivity|exact Inv].
  - simpl. destruct (pop free) as [[r free0]|] eqn:Ep.
    + apply pop_Some in Ep. subst free.
      destruct (HR_inv_step Rs Hs O OH Oo static h free0 r Inv)
        as [free' [h1 [E [Inv1 Lt]]]].
      rewrite (bind_ok _ _ _ _ _ E). apply IH; [exact Inv1|lia].
    + apply pop_None in Ep. subst free. exists h. split; [reflexivity|exact Inv].
Qed.

(** What the invariant says when the work list is empty. *)
Lemma HR_inv_solved (h : heap) :
  HR_inv Rs Hs O OH Oo h [] -> HR_solved h Rs Hs.
Proof.
  intros Inv. pose proof Inv as [I1 [I2 [I3 [I4 [I5 [I6 [I7 [I8 I9]]]]]]]].
  split; [intros r Hr; now destruct (I1 r Hr)|].
  split; [intros x Hx; now destruct (I2 x Hx)|].
  split; [exact I4|]. split; [exact I3|]. split.
  - intros x Hx. destruct (I5 x Hx) as [A [B [_ D]]].
    split; [exact A|]. split; [|split; [exact B|exact D]].
    intros m Hm. now destruct (HR_inv_match Rs Hs O OH Oo h [] x m Inv Hx Hm) as [_ [_ [H _]]].
  - intros r Hr. destruct (I6 r Hr) as [N|[rest E]].
    + left. split; [exact N|].
      destruct (pprefs h r) as [|y l] eqn:Ep; [reflexivity|].
      exfalso. apply (I9 r Hr N). rewrite Ep. discriminate.
    + right. split; [|now exists rest].
      destruct (HR_inv_resident Rs Hs O OH Oo static h [] r Inv Hr) as [_ [Inc _]].
      apply Inc. rewrite E. now left.
Qed.

End HR_run.

Lemma forallb_In {A : Type} (f : A -> bool) (l : list A) (x : A) :
  forallb f l = true -> In x l -> f x = true.
Proof. intros H Hx. rewrite forallb_forall in H. now apply H. Qed.

(** A consistent game is a state of the loop, with every resident on
    the work list. *)
Lemma HR_consistent_inv (h : heap) (Rs Hs : list value) :
  HR_consistent h Rs Hs = true ->
  HR_static Rs Hs (pprefs h) (hprefs h)
  /\ HR_inv Rs Hs (pprefs h) (hprefs h) (porig h) h Rs
  /\ HR_measure Rs h Rs <= List.length Rs + List.length Rs * List.length Hs.
Proof.
  unfold HR_consistent, HR_ready, all_unmatched. rewrite !andb_true_iff.
  intros [[[[[[[[W [U1 U2]] CP] NDH] NDR] N1] N2] R1] R2].
  apply HR_wf_P in W. destruct W as [W1 W2].
  apply nodupb_NoDup in NDH. apply nodupb_NoDup in NDR.
  assert (Pl : forall r, In r Rs ->
            is_player h r = true /\ incl (pprefs h r) Hs /\ pmatching h r = null
            /\ NoDup (pprefs h r)).
  { intros r Hr. destruct (W1 r Hr) as [p [E [A _]]].
    unfold is_player, pprefs, pmatching. rewrite E. split; [reflexivity|].
    split; [exact A|]. split.
    - pose proof (forallb_In _ _ r U1 Hr) as U. apply value_eqb_eq in U.
      unfold pmatching in U. now rewrite E in U.
    - pose proof (forallb_In _ _ r N1 Hr) as N. apply nodupb_NoDup in N.
      unfold pprefs in N. now rewrite E in N. }
  assert (Ho : forall x, In x Hs ->
            is_hospital h x = true /\ incl (hprefs h x) Rs /\ hmatching h x = []
            /\ NoDup (hprefs h x) /\ (1 <= hcapacity h x)%Z).
  { intros x Hx. destruct (W2 x Hx) as [o [E [C [A _]]]].
    unfold is_hospital, hprefs, hmatching, hcapacity. rewrite E, C. split; [reflexivity|].
    split; [exact A|]. split; [|split].
    - pose proof (forallb_In _ _ x U2 Hx) as U. apply Nat.eqb_eq in U.
      unfold hmatching in U. rewrite E in U. now destruct (Hospital.matching o).
    - pose proof (forallb_In _ _ x N2 Hx) as N. apply nodupb_NoDup in N.
      unfold hprefs in N. now rewrite E in N.
    - pose proof (forallb_In _ _ x CP Hx) as C1. apply Z.leb_le in C1.
      unfold hcapacity in C1. now rewrite E in C1. }
  split; [|split].
  - split; [exact NDR|]. split; [exact NDH|]. split.
    + intros r Hr. destruct (Pl r Hr) as [_ [A [_ B]]]. now split.
    + intros x Hx. destruct (Ho x Hx) as [_ [A [_ [B _]]]]. now split.
  - split.
    { intros r Hr. destruct (Pl r Hr) as [A _]. split; [exact A|]. split; [reflexivity|].
      exists (fun _ => true). apply filter_all. }
    split.
    { intros x Hx. destruct (Ho x Hx) as [A [_ [_ [_ B]]]]. split; [exact A|].
      split; [exact B|]. exists (fun _ => true). apply filter_all. }
    split.
    { intros r x Hr Hx. split; intros H.
      - apply includes_In. apply (forallb_In _ _ x (forallb_In _ _ r R1 Hr) H).
      - apply includes_In. apply (forallb_In _ _ r (forallb_In _ _ x R2 Hx) H). }
    split.
    { intros r x Hr Hx. destruct (Pl r Hr) as [_ [_ [N _]]].
      destruct (Ho x Hx) as [A [_ [M _]]]. rewrite N, M. split.
      - intros <-. discriminate.
      - intros []. }
    split.
    { intros x Hx. destruct (Ho x Hx) as [_ [_ [M [_ C]]]]. rewrite M.
      split; [intros y []|]. split; [simpl; lia|]. split; constructor. }
    split.
    { intros r Hr. left. now destruct (Pl r Hr) as [_ [_ [N _]]]. }
    split.
    { intros x Hx. destruct (Ho x Hx) as [_ [_ [M [_ C]]]]. rewrite M. simpl. lia. }
    split.
    { split; [exact NDR|]. split; [apply incl_refl|].
      intros r Hr. now destruct (Pl r Hr) as [_ [_ [N _]]]. }
    { intros r Hr _ _. exact Hr. }
  - unfold HR_measure. apply Nat.add_le_mono_l.
    rewrite <- (list_sum_const (fun _ : value => List.length Hs) (List.length Hs) Rs)
      by reflexivity.
    apply list_sum_le. intros r Hr. destruct (Pl r Hr) as [_ [A [_ B]]].
    now apply NoDup_incl_length.
Qed.

(** The result map of the many-to-one solvers. *)
Lemma multiple_result_total (l : list value) :
  forall acc h,
    (forall x, In x l -> is_hospital h x = true) ->
    NoDup l -> (forall x, In x l -> ~ In x (map fst acc)) ->
    multiple_result l acc h = (Ok (acc ++ map (fun x => (x, hmatching h x)) l), h).
Proof.
  induction l as [|x l IH]; intros acc h Pl ND Hacc; simpl.
  - now rewrite app_nil_r.
  - destruct (getHospital_view "matching" h x (Pl x (or_introl eq_refl)))
      as [o [E [_ [Em _]]]].
    rewrite (bind_ok _ _ _ _ _ E).
    apply NoDup_cons_iff in ND. destruct ND as [Hx ND].
    rewrite map_set_fresh by (apply Hacc; now left).
    rewrite IH; auto.
    + rewrite <- app_assoc. simpl. now rewrite Em.
    + intros y Hy. apply Pl. now right.
    + intros y Hy. rewrite map_app, in_app_iff. simpl. intros [H|[H|[]]].
      * apply (Hacc y); auto. now right.
      * congruence.
Qed.

(** With fuel for [n + n * m] iterations, [n] residents and [m]
    hospitals, the resident-optimal algorithm returns the matches of
    every hospital and leaves a solved state. *)
Lemma residentOptimal_solved (h : heap) (Rs Hs : list value) (fuel : nat) :
  HR_consistent h Rs Hs = true ->
  List.length Rs + List.length Rs * List.length Hs <= fuel ->
  exists h',
    hospitalResident fuel Rs Hs resident_optimal h
    = (Ok (map (fun x => (x, hmatching h' x)) Hs), h')
    /\ HR_solved h' Rs Hs
    /\ (forall r, In r Rs ->
          porig h' r = porig h r /\ exists f, pprefs h' r = filter f (pprefs h r)).
Proof.
  intros C Hfuel. destruct (HR_consistent_inv h Rs Hs C) as [St [Inv Hm]].
  destruct (HR_loop_total Rs Hs _ _ _ St fuel Rs h Inv) as [h' [E Fin]]; [lia|].
  pose proof (HR_inv_solved Rs Hs _ _ _ St h' Fin) as Sol.
  exists h'. split; [|split; [exact Sol|]].
  - unfold hospitalResident, residentOptimal. rewrite (bind_ok _ _ _ _ _ E).
    rewrite multiple_result_total; auto.
    + destruct Sol as [_ [H _]]. exact H.
    + now destruct St as [_ [H _]].
  - intros r Hr. destruct Fin as [I1 _]. destruct (I1 r Hr) as [_ [A B]]. now split.
Qed.

(** *** The checks on a solved Hospital-Resident state *)

Lemma Player_unmatched_ok (h : heap) (v : value) :
  is_player h v = true -> pmatching h v = null ->
  Player_checkIfMatchIsUnacceptable v true h = (Ok None, h).
Proof.
  intros Pl Hn. destruct (player_view h v Pl) as [p [E [Ep Em]]].
  unfold Player_checkIfMatchIsUnacceptable.
  rewrite (bind_ok _ _ _ _ _ (getPlayer_at _ _ _ _ E)). cbv zeta.
  rewrite <- Em, Hn. reflexivity.
Qed.

Lemma Hospital_acceptable (h : heap) (x : value) :
  is_hospital h x = true -> incl (hmatching h x) (hprefs h x) ->
  Hospital_checkIfMatchIsUnacceptable x h = (Ok [], h).
Proof.
  intros Hx Inc. unfold Hospital_checkIfMatchIsUnacceptable.
  destruct (getHospital_view "matching" h x Hx) as [o [E [_ [Em _]]]].
  rewrite (bind_ok _ _ _ _ _ E). rewrite Em.
  apply issues_of_none. intros m Hm.
  destruct (getHospital_view "prefs" h x Hx) as [o' [E' [Ep' _]]].
  rewrite (bind_ok _ _ _ _ _ E'). rewrite Ep'.
  assert (I : includes (hprefs h x) m = true) by (apply includes_In; now apply Inc).
  rewrite I. reflexivity.
Qed.

Lemma Hospital_not_oversubscribed (h : heap) (x : value) :
  is_hospital h x = true ->
  (Z.of_nat (List.length (hmatching h x)) <= hcapacity h x)%Z ->
  Hospital_checkIfOversubscribed x h = (Ok None, h).
Proof.
  intros Hx L. unfold Hospital_checkIfOversubscribed.
  destruct (getHospital_view "matching" h x Hx) as [o [E [_ [Em Ec]]]].
  rewrite (bind_ok _ _ _ _ _ E). rewrite Em, Ec.
  assert (T : (hcapacity h x <? Z.of_nat (List.length (hmatching h x)))%Z = false)
    by (apply Z.ltb_ge; exact L).
  rewrite T. reflexivity.
Qed.

(** [checkValidity] accepts a solved state. *)
Lemma HR_solved_valid (g : HospitalResident.t) (h : heap) :
  HR_solved h (HospitalResident.residents g) (HospitalResident.hospitals g) ->
  HospitalResident_checkValidity g h = (Ok true, h).
Proof.
  intros [S1 [S2 [S3 [S4 [S5 S6]]]]]. unfold HospitalResident_checkValidity.
  assert (E1 : HR_checkForUnacceptableMatches g residents_party h = (Ok [], h)).
  { unfold HR_checkForUnacceptableMatches. apply issues_of_none. intros r Hr. simpl in Hr.
    destruct (player_view h r (S1 r Hr)) as [p [E _]].
    rewrite (bind_ok _ _ _ _ _ (load_at _ _ _ _ E)).
    assert (A : Player_checkIfMatchIsUnacceptable r true h = (Ok None, h)).
    { destruct (S6 r Hr) as [[N _]|[Hm [rest Ep]]].
      - apply Player_unmatched_ok; [now apply S1|exact N].
      - apply Player_acceptable; [now apply S1| |rewrite Ep; now left].
        intros N. rewrite N in Hm. specialize (S2 null Hm). discriminate. }
    rewrite (bind_ok _ _ _ _ _ A). reflexivity. }
  assert (E2 : HR_checkForUnacceptableMatches g hospitals_party h = (Ok [], h)).
  { unfold HR_checkForUnacceptableMatches. apply issues_of_none. intros x Hx. simpl in Hx.
    destruct (hospital_view h x (S2 x Hx)) as [o [E _]].
    rewrite (bind_ok _ _ _ _ _ (load_at _ _ _ _ E)).
    apply Hospital_acceptable; [now apply S2|]. now destruct (S5 x Hx) as [_ [A _]]. }
  assert (E3 : checkForOversubscribedPlayers (HospitalResident.hospitals g) h = (Ok [], h)).
  { unfold checkForOversubscribedPlayers. apply issues_of_none. intros x Hx.
    rewrite (bind_ok _ _ _ _ _ (Hospital_not_oversubscribed h x (S2 x Hx)
                                   (proj1 (proj2 (proj2 (S5 x Hx)))))).
    reflexivity. }
  rewrite (bind_ok _ _ _ _ _ E1), (bind_ok _ _ _ _ _ E2), (bind_ok _ _ _ _ _ E3).
  reflexivity.
Qed.

(** Positions in a list with repetitions and in the list of its first
    occurrences compare alike. *)
Lemma indexOf_dedup_le (o : list value) (a b : value) :
  In a o -> In b o ->
  ((indexOf (dedup o) a <= indexOf (dedup o) b)%Z <-> (indexOf o a <= indexOf o b)%Z).
Proof.
  induction o as [|y o IH]; [intros []|]. intros Ha Hb. simpl dedup.
  rewrite !(indexOf_cons y).
  destruct (value_eqb_spec y a) as [Ea|Na]; destruct (value_eqb_spec y b) as [Eb|Nb].
  - tauto.
  - destruct Hb as [Hb|Hb]; [congruence|].
    assert (Hb' : In b (remove_value y (dedup o))).
    { apply remove_value_In. split; [now apply dedup_In|congruence]. }
    apply includes_In in Hb as I1. apply includes_In in Hb' as I2. rewrite I1, I2.
    pose proof (indexOf_nonneg _ _ Hb). pose proof (indexOf_nonneg _ _ Hb'). lia.
  - destruct Ha as [Ha|Ha]; [congruence|].
    assert (Ha' : In a (remove_value y (dedup o))).
    { apply remove_value_In. split; [now apply dedup_In|congruence]. }
    apply includes_In in Ha as I1. apply includes_In in Ha' as I2. rewrite I1, I2.
    pose proof (indexOf_nonneg _ _ Ha). pose proof (indexOf_nonneg _ _ Ha'). lia.
  - destruct Ha as [Ha|Ha]; [congruence|]. destruct Hb as [Hb|Hb]; [congruence|].
    assert (Ha' : In a (remove_value y (dedup o))).
    { apply remove_value_In. split; [now apply dedup_In|congruence]. }
    assert (Hb' : In b (remove_value y (dedup o))).
    { apply remove_value_In. split; [now apply dedup_In|congruence]. }
    apply includes_In in Ha as I1. apply includes_In in Ha' as I2.
    apply includes_In in Hb as I3. apply includes_In in Hb' as I4.
    rewrite I1, I2, I3, I4.
    pose proof (indexOf_filter_le (fun p => negb (value_eqb p y)) (dedup o) a b Ha' Hb') as F.
    fold (remove_value y (dedup o)) in F. specialize (IH Ha Hb). lia.
Qed.

Lemma prefs_include_hospital (site : string) (h : heap) (x r : value) :
  is_hospital h x = true ->
  prefs_include site x r h = (Ok (includes (hprefs h x) r), h).
Proof.
  intros Hx. destruct (hospital_view h x Hx) as [o [E [Ep _]]].
  unfold prefs_include. rewrite (bind_ok _ _ _ _ _ (load_at _ _ _ _ E)).
  simpl. now rewrite Ep.
Qed.

Lemma prefs_include_player (site : string) (h : heap) (r x : value) :
  is_player h r = true ->
  prefs_include site r x h = (Ok (includes (pprefs h r) x), h).
Proof.
  intros Hr. destruct (player_view h r Hr) as [p [E [Ep _]]].
  unfold prefs_include. rewrite (bind_ok _ _ _ _ _ (load_at _ _ _ _ E)).
  simpl. now rewrite Ep.
Qed.

(** In a solved state whose lists are the original rankings with
    entries deleted, no resident and hospital that still rank each other
    block the matching. *)
Lemma HR_solved_no_blocking (h : heap) (Rs Hs : list value) (r x : value) :
  HR_solved h Rs Hs ->
  (forall r, In r Rs ->
     exists o, porig h r = Some o
       /\ forall a b, In a (pprefs h r) -> In b (pprefs h r) ->
            (indexOf (pprefs h r) a <= indexOf (pprefs h r) b)%Z ->
            (indexOf o a <= indexOf o b)%Z) ->
  In r Rs -> In x Hs ->
  HR_blocks r x h = (Ok false, h).
Proof.
  intros [S1 [S2 [S3 [S4 [S5 S6]]]]] Ord Hr Hx.
  assert (Emut : checkMutualPreference r x h
                 = (Ok (includes (hprefs h x) r && includes (pprefs h r) x), h)).
  { unfold checkMutualPreference, andM.
    rewrite (bind_ok _ _ _ _ _ (prefs_include_hospital "prefs" h x r (S2 x Hx))).
    destruct (includes (hprefs h x) r); [|reflexivity].
    apply (prefs_include_player "prefs" h r x (S1 r Hr)). }
  unfold HR_blocks, andM at 1. rewrite (bind_ok _ _ _ _ _ Emut).
  destruct (includes (hprefs h x) r) eqn:I1; [|reflexivity].
  assert (I2 : In x (pprefs h r)).
  { apply (S4 r x Hr Hx). now apply includes_In. }
  apply includes_In in I2 as I2'. rewrite I2'. cbn [andb].
  destruct (S6 r Hr) as [[_ E]|[Hm [rest Ep]]]; [rewrite E in I2; destruct I2|].
  assert (Hn : pmatching h r <> null).
  { intros N. rewrite N in Hm. specialize (S2 null Hm). discriminate. }
  destruct (player_view h r (S1 r Hr)) as [p [E [Pp Pm]]].
  destruct (Ord r Hr) as [o [Eo Emb]].
  assert (L : (indexOf o (pmatching h r) <= indexOf o x)%Z).
  { apply Emb; [rewrite Ep; now left|exact I2|].
    rewrite Ep at 1. rewrite indexOf_cons, value_eqb_refl.
    now apply indexOf_nonneg. }
  assert (Eun : checkResidentUnhappy r x h = (Ok false, h)).
  { unfold checkResidentUnhappy.
    rewrite (bind_ok _ _ _ _ _ (getPlayer_at _ _ _ _ E)). rewrite <- Pm.
    destruct (value_eqb_spec (pmatching h r) null) as [N|_]; [contradiction|].
    rewrite (prefers_player_value h r x (pmatching h r) o (S1 r Hr) Eo).
    apply Z.ltb_ge in L. now rewrite L. }
  unfold andM. rewrite (bind_ok _ _ _ _ _ Eun). reflexivity.
Qed.

Lemma map_get_entries {V : Type} (f : value -> V) (l : list value) (k : value) :
  map_get k (map (fun s => (s, f s)) l) = if includes l k then Some (f k) else None.
Proof.
  induction l as [|s l IH]; simpl; [reflexivity|].
  rewrite (value_eqb_sym k s). destruct (value_eqb_spec s k) as [->|N]; [reflexivity|].
  exact IH.
Qed.

Lemma MultipleMatching_copy (d : jsmap (list value)) :
  NoDup (map fst d) -> MultipleMatching d = d.
Proof. intros H. unfold MultipleMatching. now rewrite fold_map_set_fresh. Qed.

(** [solve('resident')] on a consistent game. *)
Lemma HospitalResident_solve_solved (g : HospitalResident.t) (h : heap) (fuel : nat) :
  HR_consistent h (HospitalResident.residents g) (HospitalResident.hospitals g) = true ->
  List.length (HospitalResident.residents g)
    + List.length (HospitalResident.residents g) * List.length (HospitalResident.hospitals g)
    <= fuel ->
  exists h',
    HospitalResident_solve fuel g resident_optimal h
    = (Ok (HospitalResident.mk (HospitalResident.residents g) (HospitalResident.hospitals g)
             (HospitalResident.clean g)
             (Some (map (fun x => (x, hmatching h' x)) (HospitalResident.hospitals g)))
             (HospitalResident.blockingPairs g)
             (HospitalResident._allResidents g) (HospitalResident._allHospitals g)), h')
    /\ HR_solved h' (HospitalResident.residents g) (HospitalResident.hospitals g)
    /\ (forall r, In r (HospitalResident.residents g) ->
          porig h' r = porig h r /\ exists f, pprefs h' r = filter f (pprefs h r)).
Proof.
  intros C Hfuel.
  destruct (residentOptimal_solved h _ _ fuel C Hfuel) as [h' [E [Sol Keep]]].
  exists h'. split; [|split; [exact Sol|exact Keep]].
  unfold HospitalResident_solve. rewrite (bind_ok _ _ _ _ _ E).
  rewrite MultipleMatching_copy; [reflexivity|].
  rewrite map_map. simpl. rewrite map_id.
  destruct (HR_consistent_inv _ _ _ C) as [[_ [ND _]] _]. exact ND.
Qed.

(** X14. Hospital-Resident, resident-optimal: for a game that is
    consistent (well typed and unmatched, capacities of at least one,
    parties and rankings without repetition, rankings reciprocated),
    [solve('resident')] returns without an error once it has fuel for
    [n + n * m] iterations of its loop, [n] residents and [m] hospitals.
    The matching it stores has the hospitals as keys, in order, each
    with the residents it holds.  A resident holds a hospital exactly
    when the hospital holds the resident; a hospital holds residents it
    still ranks, each once, and at most [capacity] of them; a resident
    is unmatched only if every hospital of its list has turned it down,
    and otherwise holds the first hospital left on its list. *)
Theorem HospitalResident_solve_resident_optimal
    (g : HospitalResident.t) (h : heap) (fuel : nat) :
  HR_consistent h (HospitalResident.residents g) (HospitalResident.hospitals g) = true ->
  List.length (HospitalResident.residents g)
    + List.length (HospitalResident.residents g) * List.length (HospitalResident.hospitals g)
    <= fuel ->
  exists g' h' m,
    HospitalResident_solve fuel g resident_optimal h = (Ok g', h')
    /\ HospitalResident.matching g' = Some m
    /\ HospitalResident.residents g' = HospitalResident.residents g
    /\ HospitalResident.hospitals g' = HospitalResident.hospitals g
    /\ map fst m = HospitalResident.hospitals g
    /\ (forall x, In x (HospitalResident.hospitals g) ->
          map_get x m = Some (hmatching h' x))
    /\ HR_solved h' (HospitalResident.residents g) (HospitalResident.hospitals g).
Proof.
  intros C Hfuel.
  destruct (HospitalResident_solve_solved g h fuel C Hfuel) as [h' [E [Sol _]]].
  eexists. exists h'. eexists. split; [exact E|]. simpl.
  split; [reflexivity|]. split; [reflexivity|]. split; [reflexivity|].
  split; [|split; [|exact Sol]].
  - rewrite map_map. simpl. apply map_id.
  - intros x Hx. rewrite map_get_entries.
    apply includes_In in Hx. now rewrite Hx.
Qed.

Lemma HospitalResident_solve_resident_optimal_witness :
  HR_consistent hr_example_heap hr_example_residents hr_example_hospitals = true
  /\ exists g' h' m,
       HospitalResident_solve 9 hr_example_game resident_optimal hr_example_heap = (Ok g', h')
       /\ HospitalResident.matching g' = Some m
       /\ HospitalResident.residents g' = hr_example_residents
       /\ HospitalResident.hospitals g' = hr_example_hospitals
       /\ map fst m = hr_example_hospitals
       /\ (forall x, In x hr_example_hospitals -> map_get x m = Some (hmatching h' x))
       /\ HR_solved h' hr_example_residents hr_example_hospitals.
Proof.
  split; [vm_compute; reflexivity|].
  apply (HospitalResident_solve_resident_optimal hr_example_game hr_example_heap 9).
  - vm_compute. reflexivity.
  - vm_compute. lia.
Defined.

(** X15. Hospital-Resident: the game [solve('resident')] leaves (same
    hypotheses as for X14) passes [checkValidity]: it returns [true]
    instead of throwing a [MatchingError], and changes nothing. *)
Theorem HospitalResident_solved_game_is_valid
    (g : HospitalResident.t) (h : heap) (fuel : nat) :
  HR_consistent h (HospitalResident.residents g) (HospitalResident.hospitals g) = true ->
  List.length (HospitalResident.residents g)
    + List.length (HospitalResident.residents g) * List.length (HospitalResident.hospitals g)
    <= fuel ->
  exists g' h',
    HospitalResident_solve fuel g resident_optimal h = (Ok g', h')
    /\ HospitalResident_checkValidity g' h' = (Ok true, h').
Proof.
  intros C Hfuel.
  destruct (HospitalResident_solve_solved g h fuel C Hfuel) as [h' [E [Sol _]]].
  eexists. exists h'. split; [exact E|]. now apply HR_solved_valid.
Qed.

Lemma HospitalResident_solved_game_is_valid_witness :
  HR_consistent hr_example_heap hr_example_residents hr_example_hospitals = true
  /\ exists g' h',
       HospitalResident_solve 9 hr_example_game resident_optimal hr_example_heap = (Ok g', h')
       /\ HospitalResident_checkValidity g' h' = (Ok true, h').
Proof.
  split; [vm_compute; reflexivity|].
  apply (HospitalResident_solved_game_is_valid hr_example_game hr_example_heap 9).
  - vm_compute. reflexivity.
  - vm_compute. lia.
Defined.

(** Positions in a list that is an original ranking with entries
    deleted compare as in the original ranking, also after more entries
    have been deleted. *)
Lemma kept_order (o l l' : list value) (f : value -> bool) :
  subseqb l (dedup o) = true -> l' = filter f l ->
  forall a b, In a l' -> In b l' ->
    (indexOf l' a <= indexOf l' b)%Z -> (indexOf o a <= indexOf o b)%Z.
Proof.
  intros K -> a b Ha Hb L.
  apply (indexOf_filter_le f l a b Ha Hb) in L.
  apply filter_In in Ha. destruct Ha as [Ha _].
  apply filter_In in Hb. destruct Hb as [Hb _].
  pose proof (subseqb_rank_le _ _ K (dedup_NoDup o) a b Ha Hb L) as L2.
  unfold rank_le in L2.
  assert (Hao : In a o) by (apply dedup_In; now apply (subseqb_In _ _ _ K)).
  assert (Hbo : In b o) by (apply dedup_In; now apply (subseqb_In _ _ _ K)).
  exact (proj1 (indexOf_dedup_le o a b Hao Hbo) L2).
Qed.

(** [checkStability] after [solve('resident')]. *)
Lemma HR_resident_solve_stable (g : HospitalResident.t) (h : heap) (fuel : nat) :
  HR_consistent h (HospitalResident.residents g) (HospitalResident.hospitals g) = true ->
  HR_rankings_kept h (HospitalResident.residents g) = true ->
  List.length (HospitalResident.residents g)
    + List.length (HospitalResident.residents g) * List.length (HospitalResident.hospitals g)
    <= fuel ->
  exists g' h',
    HospitalResident_solve fuel g resident_optimal h = (Ok g', h')
    /\ HospitalResident_checkValidity g' h' = (Ok true, h')
    /\ HospitalResident_checkStability g' h'
       = (Ok (true, HospitalResident.mk (HospitalResident.residents g')
                      (HospitalResident.hospitals g') (HospitalResident.clean g')
                      (HospitalResident.matching g') (Some [])
                      (HospitalResident._allResidents g')
                      (HospitalResident._allHospitals g')), h').
Proof.
  intros C K Hfuel.
  destruct (HospitalResident_solve_solved g h fuel C Hfuel) as [h' [E [Sol Keep]]].
  eexists. exists h'. split; [exact E|]. split; [now apply HR_solved_valid|].
  unfold HospitalResident_checkStability. simpl.
  assert (Ord : forall r, In r (HospitalResident.residents g) ->
            exists o, porig h' r = Some o
              /\ forall a b, In a (pprefs h' r) -> In b (pprefs h' r) ->
                   (indexOf (pprefs h' r) a <= indexOf (pprefs h' r) b)%Z ->
                   (indexOf o a <= indexOf o b)%Z).
  { intros r Hr. destruct (Keep r Hr) as [Eo [f Ef]].
    pose proof (forallb_In _ _ r K Hr) as Kr. simpl in Kr.
    destruct (porig h r) as [o|] eqn:Eor; [|discriminate].
    exists o. split; [exact Eo|]. exact (kept_order o _ _ f Kr Ef). }
  rewrite (bind_ok _ _ _ _ _
             (blocking_outer_none HR_blocks _ _ h'
                (fun r x Hr Hx => HR_solved_no_blocking h' _ _ r x Sol Ord Hr Hx) [])).
  reflexivity.
Qed.

(** X16. Hospital-Resident: after [solve('resident')] on a consistent
    game whose residents' lists are their original rankings with entries
    deleted, [checkStability] returns [true] and records an empty list
    of blocking pairs. *)
Theorem HospitalResident_solved_game_is_stable
    (g : HospitalResident.t) (h : heap) (fuel : nat) :
  HR_consistent h (HospitalResident.residents g) (HospitalResident.hospitals g) = true ->
  HR_rankings_kept h (HospitalResident.residents g) = true ->
  List.length (HospitalResident.residents g)
    + List.length (HospitalResident.residents g) * List.length (HospitalResident.hospitals g)
    <= fuel ->
  exists g' h',
    HospitalResident_solve fuel g resident_optimal h = (Ok g', h')
    /\ HospitalResident_checkStability g' h'
       = (Ok (true, HospitalResident.mk (HospitalResident.residents g')
                      (HospitalResident.hospitals g') (HospitalResident.clean g')
                      (HospitalResident.matching g') (Some [])
                      (HospitalResident._allResidents g')
                      (HospitalResident._allHospitals g')), h').
Proof.
  intros C K Hfuel.
  destruct (HR_resident_solve_stable g h fuel C K Hfuel) as [g' [h' [E [_ St]]]].
  exists g', h'. now split.
Qed.

Lemma HospitalResident_solved_game_is_stable_witness :
  HR_consistent hr_example_heap hr_example_residents hr_example_hospitals = true
  /\ HR_rankings_kept hr_example_heap hr_example_residents = true
  /\ exists g' h',
       HospitalResident_solve 9 hr_example_game resident_optimal hr_example_heap = (Ok g', h')
       /\ HospitalResident_checkStability g' h'
          = (Ok (true, HospitalResident.mk (HospitalResident.residents g')
                         (HospitalResident.hospitals g') (HospitalResident.clean g')
                         (HospitalResident.matching g') (Some [])
                         (HospitalResident._allResidents g')
                         (HospitalResident._allHospitals g')), h').
Proof.
  split; [vm_compute; reflexivity|]. split; [vm_compute; reflexivity|].
  apply (HospitalResident_solved_game_is_stable hr_example_game hr_example_heap 9).
  - vm_compute. reflexivity.
  - vm_compute. reflexivity.
  - vm_compute. lia.
Defined.

(* ================================================================== *)
(** ** Hospital-Resident: a constructor that has nothing to report *)
(* ================================================================== *)

(** A loop of checks that logs nothing has changed nothing, and every
    element has passed its check. *)
Lemma forEachW_quiet {A : Type} (P : A -> heap -> Prop) (l : list A)
    (body : A -> M (list warning)) :
  (forall x h w h', In x l -> body x h = (Ok w, h') -> h' = h /\ (w = [] -> P x h)) ->
  forall h w h', forEachW l body h = (Ok w, h') ->
    h' = h /\ (w = [] -> forall x, In x l -> P x h).
Proof.
  induction l as [|x l IH]; intros B h w h' E; simpl in E.
  - inversion E; subst. split; [reflexivity|]. intros _ x [].
  - apply bind_Ok_inv in E. destruct E as [w1 [h1 [E1 E]]].
    apply bind_Ok_inv in E. destruct E as [ws [h2 [E2 E]]].
    inversion E; subst. clear E.
    destruct (B x h w1 h1 (or_introl eq_refl) E1) as [-> P1].
    destruct (IH (fun y h0 w0 h0' Hy => B y h0 w0 h0' (or_intror Hy)) h ws h' E2) as [-> P2].
    split; [reflexivity|]. intros Enil y [<-|Hy].
    + apply P1. now destruct (app_eq_nil _ _ Enil).
    + apply P2; auto. now destruct (app_eq_nil _ _ Enil).
Qed.

Lemma forEachG_quiet (P : value -> heap -> Prop) (l : list value) (g : HospitalResident.t)
    (body : HospitalResident.t -> value -> M (HospitalResident.t * list warning)) :
  (forall x h r h', In x l -> body g x h = (Ok r, h') ->
     h' = h /\ fst r = g /\ (snd r = [] -> P x h)) ->
  forall h r h', forEachG l g body h = (Ok r, h') ->
    h' = h /\ fst r = g /\ (snd r = [] -> forall x, In x l -> P x h).
Proof.
  induction l as [|x l IH]; intros B h r h' E; simpl in E.
  - inversion E; subst. split; [reflexivity|]. split; [reflexivity|]. intros _ x [].
  - apply bind_Ok_inv in E. destruct E as [r1 [h1 [E1 E]]].
    apply bind_Ok_inv in E. destruct E as [r2 [h2 [E2 E]]].
    inversion E; subst. clear E.
    destruct (B x h r1 h1 (or_introl eq_refl) E1) as [-> [G1 P1]].
    rewrite G1 in E2.
    destruct (IH (fun y h0 r0 h0' Hy => B y h0 r0 h0' (or_intror Hy)) h r2 h' E2)
      as [-> [G2 P2]].
    split; [reflexivity|]. split; [exact G2|]. simpl. intros Enil y [<-|Hy].
    + apply P1. now destruct (app_eq_nil _ _ Enil).
    + apply P2; auto. now destruct (app_eq_nil _ _ Enil).
Qed.

Lemma unique_prefs_warns (player : value) (prefs : list value) :
  forall acc w, snd (unique_prefs player prefs acc w) = [] -> w = [].
Proof.
  induction prefs as [|other rest IH]; intros acc w H; simpl in H; [exact H|].
  destruct (negb (includes acc other)).
  - now apply IH in H.
  - apply IH in H. now destruct (app_eq_nil _ _ H).
Qed.

Lemma unique_prefs_quiet (player : value) (prefs : list value) :
  forall acc w, snd (unique_prefs player prefs acc w) = [] ->
                NoDup acc -> NoDup (acc ++ prefs).
Proof.
  induction prefs as [|other rest IH]; intros acc w H ND; simpl in H.
  - now rewrite app_nil_r.
  - destruct (includes acc other) eqn:I; simpl in H.
    + apply unique_prefs_warns in H. now destruct (app_eq_nil _ _ H).
    + apply includes_not_In in I.
      replace (acc ++ other :: rest) with ((acc ++ [other]) ++ rest)
        by (rewrite <- app_assoc; reflexivity).
      apply (IH _ _ H). apply NoDup_snoc. now split.
Qed.

Lemma quiet_PrefsUnique (players : list value) (h : heap) (w : list warning) (h' : heap) :
  checkInputsPlayerPrefsUnique false players h = (Ok w, h') ->
  h' = h /\ (w = [] -> forall p, In p players ->
               forall o, obj_at h p = Some o -> NoDup (obj_prefs o)).
Proof.
  unfold checkInputsPlayerPrefsUnique.
  apply (forEachW_quiet (fun p h => forall o, obj_at h p = Some o -> NoDup (obj_prefs o))).
  clear. intros p h w h' _ E.
  apply bind_Ok_inv in E. destruct E as [o [h1 [E1 E]]].
  apply load_Ok in E1. destruct E1 as [-> E1].
  destruct (unique_prefs p (obj_prefs o) [] []) as [u w0] eqn:U.
  apply bind_Ok_inv in E. destruct E as [[] [h2 [E2 E]]].
  inversion E2; subst. inversion E; subst. split; [reflexivity|].
  intros -> o' Eo'. rewrite E1 in Eo'. injection Eo' as <-.
  apply (unique_prefs_quiet p (obj_prefs o) [] []); [now rewrite U|constructor].
Qed.

Lemma quiet_AllInParty (players others : list value) (h : heap) (w : list warning)
    (h' : heap) :
  checkInputsPlayerPrefsAllInParty false players others h = (Ok w, h') -> h' = h.
Proof.
  unfold checkInputsPlayerPrefsAllInParty. intros E.
  apply (forEachW_quiet (fun _ _ => True)) in E; [now destruct E|].
  clear. intros p h w h' _ E.
  apply bind_Ok_inv in E. destruct E as [o [h1 [E1 E]]].
  apply load_Ok in E1. destruct E1 as [-> E1].
  apply (forEachW_quiet (fun _ _ => True)) in E; [destruct E; auto|].
  clear. intros other h w h' _ E. destruct (negb (includes others other)).
  - apply bind_Ok_inv in E. destruct E as [[] [h1 [E1 E]]].
    inversion E1; subst. inversion E; subst. auto.
  - inversion E; subst. auto.
Qed.

Lemma quiet_AllReciprocated (hospitals : list value) (h : heap) (w : list warning)
    (h' : heap) :
  checkInputsPlayerPrefsAllReciprocated false hospitals h = (Ok w, h') ->
  h' = h /\ (w = [] -> forall x, In x hospitals ->
               forall o, obj_at h x = Some o ->
               forall r, In r (obj_prefs o) ->
               exists p, obj_at h r = Some p /\ includes (obj_prefs p) x = true).
Proof.
  unfold checkInputsPlayerPrefsAllReciprocated.
  apply (forEachW_quiet
           (fun x h => forall o, obj_at h x = Some o ->
                       forall r, In r (obj_prefs o) ->
                       exists p, obj_at h r = Some p /\ includes (obj_prefs p) x = true)).
  clear. intros x h w h' _ E.
  apply bind_Ok_inv in E. destruct E as [o [h1 [E1 E]]].
  apply load_Ok in E1. destruct E1 as [-> E1].
  apply (forEachW_quiet
           (fun r h => exists p, obj_at h r = Some p /\ includes (obj_prefs p) x = true)) in E.
  - destruct E as [-> Pr]. split; [reflexivity|].
    intros Enil o' Eo' r Hr. rewrite E1 in Eo'. injection Eo' as <-. now apply Pr.
  - clear. intros r h w h' _ E.
    apply bind_Ok_inv in E. destruct E as [b [h1 [E1 E]]].
    apply prefs_include_Ok in E1. destruct E1 as [-> [p [Ep ->]]].
    destruct (includes (obj_prefs p) x) eqn:I; simpl in E.
    + inversion E; subst. split; [reflexivity|]. intros _. now exists p.
    + apply bind_Ok_inv in E. destruct E as [[] [h1 [E1 E]]].
      inversion E1; subst. inversion E; subst. split; [reflexivity|]. discriminate.
Qed.

Lemma filterM_Ok_In (f : value -> M bool) (l : list value) :
  (forall x h, snd (f x h) = h) ->
  forall h res h', filterM f l h = (Ok res, h') ->
    forall x, In x l -> f x h = (Ok true, h) -> In x res.
Proof.
  intros F. induction l as [|y l IH]; intros h res h' E x Hx Fx; [destruct Hx|].
  simpl in E. apply bind_Ok_inv in E. destruct E as [b [h1 [E1 E]]].
  apply bind_Ok_inv in E. destruct E as [r' [h2 [E2 E]]].
  inversion E; subst. clear E.
  assert (h1 = h) by (pose proof (F y h) as H; rewrite E1 in H; exact H). subst h1.
  destruct Hx as [->|Hx].
  - rewrite Fx in E1. injection E1 as <-. now left.
  - specialize (IH h r' h' E2 x Hx Fx). destruct b; [now right|exact IH].
Qed.

Lemma quiet_ReciprocatedAllPrefs (hospitals residents : list value) (h : heap)
    (w : list warning) (h' : heap) :
  checkInputsPlayerReciprocatedAllPrefs false hospitals residents h = (Ok w, h') ->
  h' = h /\ (w = [] -> forall x, In x hospitals ->
               forall r p, In r residents -> obj_at h r = Some p ->
               includes (obj_prefs p) x = true ->
               exists o, obj_at h x = Some o /\ includes (obj_prefs o) r = true).
Proof.
  unfold checkInputsPlayerReciprocatedAllPrefs.
  apply (forEachW_quiet
           (fun x h => forall r p, In r residents -> obj_at h r = Some p ->
                       includes (obj_prefs p) x = true ->
                       exists o, obj_at h x = Some o /\ includes (obj_prefs o) r = true)).
  clear h w h'. intros x h w h' _ E.
  apply bind_Ok_inv in E. destruct E as [rs [h1 [E1 E]]].
  assert (h1 = h).
  { pose proof (filterM_heap (fun r => prefs_include "prefs" r x) residents
                  (fun y h0 => prefs_include_heap "prefs" y x h0) h) as H.
    rewrite E1 in H. exact H. }
  subst h1.
  apply (forEachW_quiet
           (fun r h => exists o, obj_at h x = Some o /\ includes (obj_prefs o) r = true)) in E.
  - destruct E as [-> Pr]. split; [reflexivity|].
    intros Enil r p Hr Ep I. apply (Pr Enil).
    apply (filterM_Ok_In (fun r => prefs_include "prefs" r x) residents
             (fun y h0 => prefs_include_heap "prefs" y x h0) h rs h E1 r Hr).
    unfold prefs_include. rewrite (bind_ok _ _ _ _ _ (load_at "prefs" r h p Ep)).
    now rewrite I.
  - clear. intros r h w h' _ E.
    apply bind_Ok_inv in E. destruct E as [b [h1 [E1 E]]].
    apply prefs_include_Ok in E1. destruct E1 as [-> [o [Eo ->]]].
    destruct (includes (obj_prefs o) r) eqn:I; simpl in E.
    + inversion E; subst. split; [reflexivity|]. intros _. now exists o.
    + apply bind_Ok_inv in E. destruct E as [[] [h1 [E1 E]]].
      inversion E1; subst. inversion E; subst. split; [reflexivity|]. discriminate.
Qed.

Lemma quiet_PrefsNonempty (g : HospitalResident.t) (p q : party) (h : heap)
    (r : HospitalResident.t * list warning) (h' : heap) :
  HospitalResident.clean g = false ->
  checkInputsPlayerPrefsNonempty g p q h = (Ok r, h') -> h' = h /\ fst r = g.
Proof.
  intros C E. unfold checkInputsPlayerPrefsNonempty in E.
  apply (forEachG_quiet (fun _ _ => True)) in E; [destruct E as [A [B _]]; now split|].
  clear E. intros x h0 r0 h0' _ E.
  apply bind_Ok_inv in E. destruct E as [o [h1 [E1 E]]].
  apply load_Ok in E1. destruct E1 as [-> E1].
  destruct (Nat.eqb _ 0).
  - rewrite C in E. apply bind_Ok_inv in E. destruct E as [g' [h1 [E2 E]]].
    inversion E2; subst. inversion E; subst. auto.
  - inversion E; subst. auto.
Qed.

Lemma quiet_Capacity (g : HospitalResident.t) (p q : party) (h : heap)
    (r : HospitalResident.t * list warning) (h' : heap) :
  HospitalResident.clean g = false ->
  checkInputsPlayerCapacity g p q h = (Ok r, h') ->
  h' = h /\ fst r = g
  /\ (snd r = [] -> forall x, In x (HospitalResident.hospitals g) ->
        forall o, obj_at h x = Some (HospitalObj o) -> (1 <= Hospital.capacity o)%Z).
Proof.
  intros C E. unfold checkInputsPlayerCapacity in E.
  apply (forEachG_quiet
           (fun x h => forall o, obj_at h x = Some (HospitalObj o) ->
                       (1 <= Hospital.capacity o)%Z)) in E; [exact E|].
  clear E. intros x h0 r0 h0' _ E.
  apply bind_Ok_inv in E. destruct E as [o [h1 [E1 E]]].
  apply getHospital_Ok in E1. destruct E1 as [-> E1].
  destruct (Z.ltb_spec (Hospital.capacity o) 1) as [Lt|Ge].
  - rewrite C in E. apply bind_Ok_inv in E. destruct E as [g' [h1 [E2 E]]].
    inversion E2; subst. inversion E; subst. split; [reflexivity|].
    split; [reflexivity|]. discriminate.
  - inversion E; subst. split; [reflexivity|]. split; [reflexivity|].
    intros _ o' Eo'. rewrite E1 in Eo'. injection Eo' as <-. exact Ge.
Qed.

(** *** The clone phase of the constructor *)

Lemma clone_players_refs (l : list value) :
  forall cm h cm' h', clone_players l cm h = (Ok cm', h') ->
    (forall k, ~ In k l -> map_get k cm' = map_get k cm)
    /\ (NoDup l ->
        map (fun q => map_get_value q cm') l = refs_from (List.length h) (List.length l)).
Proof.
  induction l as [|player rest IH]; intros cm h cm' h' E; simpl in E.
  - inversion E; subst. split; [reflexivity|]. intros _. reflexivity.
  - apply bind_Ok_inv in E. destruct E as [p [h1 [E1 E]]].
    apply getPlayer_Ok in E1. destruct E1 as [-> E1].
    apply bind_Ok_inv in E. destruct E as [cl [h2 [E2 E]]].
    unfold alloc in E2. inversion E2; subst. clear E2.
    destruct (IH _ _ _ _ E) as [A B]. split.
    + intros k Hk. rewrite A by (intros Hin; apply Hk; now right).
      apply map_get_set_other. intros ->. apply Hk. now left.
    + intros ND. inversion ND as [|? ? Hn ND']; subst.
      simpl List.length. rewrite refs_from_S. simpl map. f_equal.
      * unfold map_get_value. rewrite (A player Hn), map_get_set_same. reflexivity.
      * rewrite (B ND'). rewrite length_app. simpl. f_equal. lia.
Qed.

Lemma clone_hospitals_refs (l : list value) :
  forall cm h cm' h', clone_hospitals l cm h = (Ok cm', h') ->
    (forall k, ~ In k l -> map_get k cm' = map_get k cm)
    /\ (NoDup l ->
        map (fun q => map_get_value q cm') l = refs_from (List.length h) (List.length l)).
Proof.
  induction l as [|player rest IH]; intros cm h cm' h' E; simpl in E.
  - inversion E; subst. split; [reflexivity|]. intros _. reflexivity.
  - apply bind_Ok_inv in E. destruct E as [p [h1 [E1 E]]].
    apply getHospital_Ok in E1. destruct E1 as [-> E1].
    apply bind_Ok_inv in E. destruct E as [cl [h2 [E2 E]]].
    unfold alloc in E2. inversion E2; subst. clear E2.
    destruct (IH _ _ _ _ E) as [A B]. split.
    + intros k Hk. rewrite A by (intros Hin; apply Hk; now right).
      apply map_get_set_other. intros ->. apply Hk. now left.
    + intros ND. inversion ND as [|? ? Hn ND']; subst.
      simpl List.length. rewrite refs_from_S. simpl map. f_equal.
      * unfold map_get_value. rewrite (A player Hn), map_get_set_same. reflexivity.
      * rewrite (B ND'). rewrite length_app. simpl. f_equal. lia.
Qed.

Lemma refs_from_NoDup (a n : nat) : NoDup (refs_from a n).
Proof.
  revert a. induction n as [|n IH]; intros a; [constructor|].
  rewrite refs_from_S. constructor; [|apply IH].
  intros Hin. apply refs_from_In in Hin. destruct Hin as [i [_ E]].
  injection E as E. lia.
Qed.

(** [setPrefs] on a player: the ranking is the list given, the original
    ranking is recorded if there was none, nothing else changes. *)
Lemma setPrefs_player_view (r : value) (l : list value) (h h' : heap) :
  setPrefs r l h = (Ok tt, h') -> is_player h r = true ->
  is_player h' r = true /\ pprefs h' r = l
  /\ porig h' r = match porig h r with None => Some l | Some o => Some o end
  /\ (forall v, v <> r -> obj_at h' v = obj_at h v).
Proof.
  intros E P. unfold setPrefs in E.
  apply bind_Ok_inv in E. destruct E as [o [h1 [E1 E]]].
  apply load_Ok in E1. destruct E1 as [-> E1].
  unfold is_player in P. rewrite E1 in P. destruct o as [p|x]; [|discriminate].
  apply Player_setPrefs_Ok in E. destruct E as [a [p' [names [-> [Ea [_ ->]]]]]].
  simpl in E1. rewrite Ea in E1. injection E1 as <-.
  assert (Ea' : nth_error (upd a (PlayerObj (Player.with_prefs l p')) h) a
                = Some (PlayerObj (Player.with_prefs l p'))).
  { apply nth_error_upd_same. apply nth_error_Some. congruence. }
  unfold is_player, pprefs, porig.
  rewrite (obj_at_upd_same _ _ _ _ Ea'). simpl obj_at at 1. rewrite Ea.
  repeat split.
  intros v N. now rewrite !obj_at_upd_other.
Qed.

(** [setPrefs] on a plain hospital: the ranking is the list given, the
    original ranking is recorded if there was none, nothing else
    changes. *)
Lemma setPrefs_hospital_view (x : value) (l : list value) (h h' : heap) :
  setPrefs x l h = (Ok tt, h') -> is_hospital h x = true ->
  is_hospital h' x = true /\ hprefs h' x = l
  /\ originalPrefs_at h' x
     = match originalPrefs_at h x with None => Some l | Some o => Some o end
  /\ (forall v, v <> x -> obj_at h' v = obj_at h v).
Proof.
  intros E P. unfold setPrefs in E.
  destruct (is_hospital_obj h x P) as [a [o [-> [Ea C]]]].
  rewrite (bind_ok _ _ _ _ _ (load_at "setPrefs" (ref a) h _ Ea)) in E.
  rewrite C in E.
  apply Hospital_setPrefs_Ok in E. destruct E as [a' [o' [names [Er [Ea2 [_ ->]]]]]].
  injection Er as <-. rewrite Ea in Ea2. injection Ea2 as <-.
  assert (Ea' : nth_error (upd a (HospitalObj (Hospital.with_prefs l o)) h) a
                = Some (HospitalObj (Hospital.with_prefs l o))).
  { apply nth_error_upd_same. apply nth_error_Some. congruence. }
  unfold is_hospital, hprefs, originalPrefs_at.
  rewrite (obj_at_upd_same _ _ _ _ Ea'). simpl obj_at at 1. rewrite Ea. simpl.
  rewrite C. repeat split.
  intros v N. now rewrite !obj_at_upd_other.
Qed.

(** The loop that copies the rankings of the residents: every clone is
    given its ranking once, which is recorded as its original one. *)
Lemma clone_prefs_originals (rm hm : jsmap value) (l : list value) :
  forall h h', clone_prefs rm hm l h = (Ok tt, h') ->
    NoDup (map (fun q => map_get_value q rm) l) ->
    (forall r, In r (map (fun q => map_get_value q rm) l) ->
       is_player h r = true /\ porig h r = None) ->
    (forall r, In r (map (fun q => map_get_value q rm) l) ->
       is_player h' r = true /\ porig h' r = Some (pprefs h' r))
    /\ (forall v, ~ In v (map (fun q => map_get_value q rm) l) -> obj_at h' v = obj_at h v).
Proof.
  unfold clone_prefs. induction l as [|p rest IH]; intros h h' E ND Fr; simpl in E.
  - inversion E; subst. split; [intros r []|reflexivity].
  - apply bind_Ok_inv in E. destruct E as [[] [h1 [E1 E]]].
    apply bind_Ok_inv in E1. destruct E1 as [o [h0 [E0 E1]]].
    apply load_Ok in E0. destruct E0 as [-> E0].
    simpl in ND. inversion ND as [|? ? Hn ND']; subst.
    destruct (Fr _ (or_introl eq_refl)) as [Pp Po].
    destruct (setPrefs_player_view _ _ _ _ E1 Pp) as [P1 [P2 [P3 P4]]].
    rewrite Po in P3.
    destruct (IH h1 h' E ND') as [A B].
    { intros r Hr. assert (N : r <> map_get_value p rm) by (intros ->; contradiction).
      unfold is_player, porig. rewrite (P4 r N). apply Fr. now right. }
    split.
    + intros r [<-|Hr]; [|now apply A].
      unfold is_player, porig, pprefs. rewrite (B _ Hn).
      fold (is_player h1 (map_get_value p rm)). fold (porig h1 (map_get_value p rm)).
      fold (pprefs h1 (map_get_value p rm)). rewrite P2, P3. now split.
    + intros v Hv. rewrite B by (intros Hin; apply Hv; now right).
      apply P4. intros ->. apply Hv. now left.
Qed.

(** The loop that copies the rankings of the hospitals: every clone is
    given its ranking once, which is recorded as its original one. *)
Lemma clone_prefs_hospital_originals (hm rm : jsmap value) (l : list value) :
  forall h h', clone_prefs hm rm l h = (Ok tt, h') ->
    NoDup (map (fun q => map_get_value q hm) l) ->
    (forall x, In x (map (fun q => map_get_value q hm) l) ->
       is_hospital h x = true /\ originalPrefs_at h x = None) ->
    (forall x, In x (map (fun q => map_get_value q hm) l) ->
       is_hospital h' x = true /\ originalPrefs_at h' x = Some (hprefs h' x))
    /\ (forall v, ~ In v (map (fun q => map_get_value q hm) l) -> obj_at h' v = obj_at h v).
Proof.
  unfold clone_prefs. induction l as [|p rest IH]; intros h h' E ND Fr; simpl in E.
  - inversion E; subst. split; [intros r []|reflexivity].
  - apply bind_Ok_inv in E. destruct E as [[] [h1 [E1 E]]].
    apply bind_Ok_inv in E1. destruct E1 as [o [h0 [E0 E1]]].
    apply load_Ok in E0. destruct E0 as [-> E0].
    simpl in ND. inversion ND as [|? ? Hn ND']; subst.
    destruct (Fr _ (or_introl eq_refl)) as [Pp Po].
    destruct (setPrefs_hospital_view _ _ _ _ E1 Pp) as [P1 [P2 [P3 P4]]].
    rewrite Po in P3.
    destruct (IH h1 h' E ND') as [A B].
    { intros r Hr. assert (N : r <> map_get_value p hm) by (intros ->; contradiction).
      unfold is_hospital, originalPrefs_at. rewrite (P4 r N). apply Fr. now right. }
    split.
    + intros r [<-|Hr]; [|now apply A].
      unfold is_hospital, originalPrefs_at, hprefs. rewrite (B _ Hn).
      fold (is_hospital h1 (map_get_value p hm)).
      fold (originalPrefs_at h1 (map_get_value p hm)).
      fold (hprefs h1 (map_get_value p hm)). rewrite P2, P3. now split.
    + intros v Hv. rewrite B by (intros Hin; apply Hv; now right).
      apply P4. intros ->. apply Hv. now left.
Qed.

Lemma dedup_NoDup_id (l : list value) : NoDup l -> dedup l = l.
Proof.
  induction 1 as [|x l Hx ND IH]; simpl; [reflexivity|].
  rewrite IH. now rewrite remove_value_absent.
Qed.

Lemma subseqb_refl (l : list value) : subseqb l l = true.
Proof. induction l as [|x l IH]; simpl; [reflexivity|]. now rewrite value_eqb_refl. Qed.

(** [checkInputs] with [clean] off reads only; a run that logs nothing
    has found every ranking free of repetitions and reciprocated, and
    every capacity at least one. *)
Lemma HR_checkInputs_quiet (g : HospitalResident.t) (r : HospitalResident.t * list warning)
    (h h' : heap) :
  HospitalResident.clean g = false ->
  HR_checkInputs g h = (Ok r, h') ->
  h' = h /\ fst r = g
  /\ (snd r = [] ->
      (forall p, In p (HospitalResident.residents g ++ HospitalResident.hospitals g) ->
         forall o, obj_at h p = Some o -> NoDup (obj_prefs o))
      /\ (forall x, In x (HospitalResident.hospitals g) ->
            forall o, obj_at h x = Some o ->
            forall r, In r (obj_prefs o) ->
            exists p, obj_at h r = Some p /\ includes (obj_prefs p) x = true)
      /\ (forall x, In x (HospitalResident.hospitals g) ->
            forall r p, In r (HospitalResident.residents g) -> obj_at h r = Some p ->
            includes (obj_prefs p) x = true ->
            exists o, obj_at h x = Some o /\ includes (obj_prefs o) r = true)
      /\ (forall x, In x (HospitalResident.hospitals g) ->
            forall o, obj_at h x = Some (HospitalObj o) -> (1 <= Hospital.capacity o)%Z)).
Proof.
  intros C E. unfold HR_checkInputs in E. cbv zeta in E. rewrite C in E.
  apply bind_Ok_inv in E. destruct E as [w1 [h1 [E1 E]]].
  apply quiet_PrefsUnique in E1. destruct E1 as [-> Q1].
  apply bind_Ok_inv in E. destruct E as [w2 [h2 [E2 E]]].
  apply quiet_PrefsUnique in E2. destruct E2 as [-> Q2].
  apply bind_Ok_inv in E. destruct E as [w3 [h3 [E3 E]]].
  apply quiet_AllInParty in E3. subst h3.
  apply bind_Ok_inv in E. destruct E as [w4 [h4 [E4 E]]].
  apply quiet_AllInParty in E4. subst h4.
  apply bind_Ok_inv in E. destruct E as [w5 [h5 [E5 E]]].
  apply quiet_AllReciprocated in E5. destruct E5 as [-> Q5].
  apply bind_Ok_inv in E. destruct E as [w6 [h6 [E6 E]]].
  apply quiet_ReciprocatedAllPrefs in E6. destruct E6 as [-> Q6].
  apply bind_Ok_inv in E. destruct E as [r7 [h7 [E7 E]]].
  apply (quiet_PrefsNonempty g _ _ _ _ _ C) in E7. destruct E7 as [-> G7].
  rewrite G7 in E.
  apply bind_Ok_inv in E. destruct E as [r8 [h8 [E8 E]]].
  apply (quiet_PrefsNonempty g _ _ _ _ _ C) in E8. destruct E8 as [-> G8].
  rewrite G8 in E.
  apply bind_Ok_inv in E. destruct E as [r9 [h9 [E9 E]]].
  apply (quiet_Capacity g _ _ _ _ _ C) in E9. destruct E9 as [-> [G9 Q9]].
  inversion E; subst. clear E. split; [reflexivity|]. split; [exact G9|].
  simpl. intros W.
  apply app_eq_nil in W. destruct W as [W1 W].
  apply app_eq_nil in W. destruct W as [W2 W].
  apply app_eq_nil in W. destruct W as [W3 W].
  apply app_eq_nil in W. destruct W as [W4 W].
  apply app_eq_nil in W. destruct W as [W5 W].
  apply app_eq_nil in W. destruct W as [W6 W].
  apply app_eq_nil in W. destruct W as [W7 W].
  apply app_eq_nil in W. destruct W as [W8 W9].
  split; [|split; [|split]].
  - intros p Hp. apply in_app_or in Hp. destruct Hp as [Hp|Hp]; [now apply Q1|now apply Q2].
  - now apply Q5.
  - now apply Q6.
  - now apply Q9.
Qed.

(** The state after the two allocation loops of the constructor. *)
Lemma HR_clone_alloc (residents0 hospitals0 : list value) (c : heap)
    (rm hm : jsmap value) (h1 h2 : heap) :
  clone_players residents0 [] c = (Ok rm, h1) ->
  clone_hospitals hospitals0 [] h1 = (Ok hm, h2) ->
  (forall r, In r (map (fun q => map_get_value q rm) residents0) ->
     is_player h2 r = true /\ porig h2 r = None)
  /\ (forall x, In x (map (fun q => map_get_value q hm) hospitals0) ->
        is_hospital h2 x = true /\ originalPrefs_at h2 x = None).
Proof.
  intros E1 E2.
  destruct (clone_players_spec _ _ _ _ _ E1) as [A1 [B1 [_ D1]]];
    [intros k v Hk; discriminate|].
  destruct (clone_hospitals_spec _ _ _ _ _ E2) as [A2 [B2 [_ D2]]];
    [intros k v Hk; discriminate|].
  split.
  - intros r Hr. apply in_map_iff in Hr. destruct Hr as [k [<- Hk]].
    unfold map_get_value. destruct (map_get k rm) as [v|] eqn:Ev;
      [|exfalso; exact (B1 k Hk Ev)].
    destruct (A1 k v Ev) as [_ [nm Hv]]. apply D2 in Hv.
    unfold is_player, porig. rewrite Hv. now split.
  - intros x Hx. apply in_map_iff in Hx. destruct Hx as [k [<- Hk]].
    unfold map_get_value. destruct (map_get k hm) as [v|] eqn:Ev;
      [|exfalso; exact (B2 k Hk Ev)].
    destruct (A2 k v Ev) as [_ [nm [cap Hv]]].
    unfold is_hospital, originalPrefs_at. rewrite Hv. now split.
Qed.

(** The game of a constructor that had nothing to report. *)
Lemma HospitalResident_new_quiet_facts
    (residents0 hospitals0 : list value) (c : heap) (g : HospitalResident.t) (h : heap) :
  nodupb residents0 = true -> nodupb hospitals0 = true ->
  HospitalResident_new residents0 hospitals0 false c = (Ok (g, []), h) ->
  HR_consistent h (HospitalResident.residents g) (HospitalResident.hospitals g) = true
  /\ forallb (fun r => match porig h r with
                       | Some o => values_eqb (pprefs h r) o
                       | None => false
                       end) (HospitalResident.residents g) = true
  /\ forallb (fun x => match originalPrefs_at h x with
                       | Some o => values_eqb (hprefs h x) o
                       | None => false
                       end) (HospitalResident.hospitals g) = true.
Proof.
  intros NR NH E0.
  pose proof (HospitalResident_new_built _ _ _ _ _ _ _ E0) as Built.
  apply nodupb_NoDup in NR. apply nodupb_NoDup in NH.
  unfold HospitalResident_new in E0.
  apply bind_Ok_inv in E0. destruct E0 as [rm [h1 [E1 E]]].
  apply bind_Ok_inv in E. destruct E as [hm [h2 [E2 E]]].
  apply bind_Ok_inv in E. destruct E as [[] [h3 [E3 E]]].
  apply bind_Ok_inv in E. destruct E as [[] [h4 [E4 E]]].
  destruct (HR_clone_alloc _ _ _ _ _ _ _ E1 E2) as [Fr Fh].
  destruct (clone_players_refs _ _ _ _ _ E1) as [_ Rr]. specialize (Rr NR).
  destruct (clone_hospitals_refs _ _ _ _ _ E2) as [_ Rh]. specialize (Rh NH).
  set (rs := map (fun q => map_get_value q rm) residents0) in *.
  set (hs := map (fun q => map_get_value q hm) hospitals0) in *.
  assert (NDr : NoDup rs) by (rewrite Rr; apply refs_from_NoDup).
  assert (NDh : NoDup hs) by (rewrite Rh; apply refs_from_NoDup).
  destruct (clone_prefs_originals rm hm residents0 h2 h3 E3 NDr Fr) as [O3 K3].
  assert (Disj : forall v, In v hs -> ~ In v rs).
  { intros x Hx Hin. destruct (Fh x Hx) as [Ph _]. apply is_hospital_not_player in Ph.
    destruct (Fr x Hin) as [P _]. congruence. }
  assert (Fh3 : forall x, In x hs -> is_hospital h3 x = true /\ originalPrefs_at h3 x = None).
  { intros x Hx. unfold is_hospital, originalPrefs_at. rewrite K3; [now apply Fh|].
    now apply Disj. }
  destruct (clone_prefs_hospital_originals hm rm hospitals0 h3 h4 E4 NDh Fh3) as [OH4 K4].
  assert (O4 : forall r, In r rs -> is_player h4 r = true /\ porig h4 r = Some (pprefs h4 r)).
  { intros r Hr. destruct (O3 r Hr) as [P O].
    assert (N : ~ In r hs) by (intros Hin; now apply (Disj r Hin)).
    unfold is_player, porig, pprefs. rewrite (K4 r N). now split. }
  apply HR_checkInputs_quiet in E; [|reflexivity]. destruct E as [-> [G Q]].
  simpl in G. subst g. simpl in Q. specialize (Q eq_refl).
  destruct Q as [Q1 [Q5 [Q6 Q9]]].
  cbn [HospitalResident.residents HospitalResident.hospitals] in *.
  destruct Built as [W1 W2].
  destruct (HR_built_ready rs hs h4 (conj W1 W2)) as [Wf Un].
  assert (Pr : forall r, In r rs -> NoDup (pprefs h4 r)).
  { intros r Hr. destruct (W1 r Hr) as [p [Ep _]].
    unfold pprefs. rewrite Ep. apply (Q1 r (in_or_app _ _ _ (or_introl Hr)) _ Ep). }
  assert (Ph : forall x, In x hs -> NoDup (hprefs h4 x)).
  { intros x Hx. destruct (W2 x Hx) as [o [Eo _]].
    unfold hprefs. rewrite Eo. apply (Q1 x (in_or_app _ _ _ (or_intror Hx)) _ Eo). }
  split; [|split].
  - unfold HR_consistent, HR_ready. rewrite Wf, Un. simpl.
    repeat (apply andb_true_iff; split).
    + apply capacities_positive_P. intros x Hx.
      destruct (W2 x Hx) as [o [Eo _]]. unfold hcapacity. rewrite Eo. now apply (Q9 x Hx).
    + now apply nodupb_NoDup.
    + now apply nodupb_NoDup.
    + apply forallb_forall. intros r Hr. apply nodupb_NoDup. now apply Pr.
    + apply forallb_forall. intros x Hx. apply nodupb_NoDup. now apply Ph.
    + apply forallb_forall. intros r Hr. apply forallb_forall. intros x Hx.
      destruct (W1 r Hr) as [p [Ep [Ip _]]].
      unfold pprefs in Hx. rewrite Ep in Hx.
      destruct (Q6 x (Ip x Hx) r _ Hr Ep) as [o [Eo Io]].
      { simpl. now apply includes_In. }
      destruct (W2 x (Ip x Hx)) as [o' [Eo' _]]. rewrite Eo in Eo'. injection Eo' as ->.
      unfold hprefs. rewrite Eo. exact Io.
    + apply forallb_forall. intros x Hx. apply forallb_forall. intros r Hr.
      destruct (W2 x Hx) as [o [Eo [_ [Io _]]]].
      unfold hprefs in Hr. rewrite Eo in Hr.
      destruct (Q5 x Hx _ Eo r Hr) as [p [Ep Ix]].
      destruct (W1 r (Io r Hr)) as [p' [Ep' _]]. rewrite Ep in Ep'. injection Ep' as ->.
      unfold pprefs. rewrite Ep. exact Ix.
  - apply forallb_forall. intros r Hr. destruct (O4 r Hr) as [_ ->]. apply values_eqb_refl.
  - apply forallb_forall. intros x Hx. destruct (OH4 x Hx) as [_ ->]. apply values_eqb_refl.
Qed.

(** In a consistent game whose current rankings are the original ones,
    the rankings are original rankings with (no) entries deleted. *)
Lemma rankings_kept_of_equal (h : heap) (Rs Hs : list value) :
  HR_consistent h Rs Hs = true ->
  forallb (fun r => match porig h r with
                    | Some o => values_eqb (pprefs h r) o
                    | None => false
                    end) Rs = true ->
  forallb (fun x => match originalPrefs_at h x with
                    | Some o => values_eqb (hprefs h x) o
                    | None => false
                    end) Hs = true ->
  HR_rankings_kept h Rs = true /\ HR_hospital_rankings_kept h Hs = true.
Proof.
  intros C ER EH. destruct (HR_consistent_inv h Rs Hs C) as [[_ [_ [SO SOH]]] _].
  split; apply forallb_forall.
  - intros r Hr. pose proof (forallb_In _ _ r ER Hr) as Er. simpl in Er.
    destruct (porig h r) as [o|]; [|discriminate]. apply values_eqb_eq in Er. subst o.
    destruct (SO r Hr) as [ND _]. rewrite (dedup_NoDup_id _ ND). apply subseqb_refl.
  - intros x Hx. pose proof (forallb_In _ _ x EH Hx) as Ex. simpl in Ex.
    destruct (originalPrefs_at h x) as [o|]; [|discriminate].
    apply values_eqb_eq in Ex. subst o.
    destruct (SOH x Hx) as [ND _]. rewrite (dedup_NoDup_id _ ND). apply subseqb_refl.
Qed.

(** X17. Hospital-Resident: when the constructor is given every
    resident and every hospital once, runs with [clean] off, and its
    checks log no warning, the game it returns is consistent: well typed
    and unmatched, capacities of at least one, parties and rankings
    without repetition, and a resident ranks a hospital exactly when the
    hospital ranks the resident.  The current ranking of every resident
    and of every hospital is the original one recorded by [setPrefs]. *)
Theorem HospitalResident_new_quiet_is_consistent
    (residents0 hospitals0 : list value) (c : heap) (g : HospitalResident.t) (h : heap) :
  nodupb residents0 = true -> nodupb hospitals0 = true ->
  HospitalResident_new residents0 hospitals0 false c = (Ok (g, []), h) ->
  HR_consistent h (HospitalResident.residents g) (HospitalResident.hospitals g) = true
  /\ HR_rankings_kept h (HospitalResident.residents g) = true
  /\ HR_hospital_rankings_kept h (HospitalResident.hospitals g) = true
  /\ forallb (fun r => match porig h r with
                       | Some o => values_eqb (pprefs h r) o
                       | None => false
                       end) (HospitalResident.residents g) = true
  /\ forallb (fun x => match originalPrefs_at h x with
                       | Some o => values_eqb (hprefs h x) o
                       | None => false
                       end) (HospitalResident.hospitals g) = true.
Proof.
  intros NR NH E0.
  destruct (HospitalResident_new_quiet_facts _ _ _ _ _ NR NH E0) as [C [ER EH]].
  destruct (rankings_kept_of_equal _ _ _ C ER EH) as [K KH].
  split; [exact C|]. split; [exact K|]. split; [exact KH|]. split; [exact ER|exact EH].
Qed.

Lemma HospitalResident_new_quiet_is_consistent_witness :
  HR_consistent hr_example_heap hr_example_residents hr_example_hospitals = true
  /\ HR_rankings_kept hr_example_heap hr_example_residents = true
  /\ HR_hospital_rankings_kept hr_example_heap hr_example_hospitals = true
  /\ forallb (fun r => match porig hr_example_heap r with
                       | Some o => values_eqb (pprefs hr_example_heap r) o
                       | None => false
                       end) hr_example_residents = true
  /\ forallb (fun x => match originalPrefs_at hr_example_heap x with
                       | Some o => values_eqb (hprefs hr_example_heap x) o
                       | None => false
                       end) hr_example_hospitals = true.
Proof.
  apply (HospitalResident_new_quiet_is_consistent
           [ref 0; ref 1; ref 2] [ref 3; ref 4] hr_caller_heap hr_example_game
           hr_example_heap); reflexivity.
Defined.

(* ================================================================== *)
(** ** Hospital-Resident: the hospital-optimal algorithm *)
(* ================================================================== *)

(** *** The operations of the loop, as total operations on the views *)

(** [deletePair(resident, hospital)] *)
Lemma HR_deletePair_resident_total (r s : value) (h : heap) :
  is_player h r = true -> is_hospital h s = true ->
  exists h', deletePair r s h = (Ok tt, h') /\ frame h h'
    /\ (forall v, pmatching h' v = pmatching h v)
    /\ (forall v, hmatching h' v = hmatching h v)
    /\ (forall v, pprefs h' v
                  = if value_eqb v r then remove_value s (pprefs h v) else pprefs h v)
    /\ (forall v, hprefs h' v
                  = if value_eqb v s then remove_value r (hprefs h v) else hprefs h v).
Proof.
  intros Hr Hs.
  destruct (r_forget_total r s h Hr) as [h1 [E1 [F1 [A1 [B1 [C1 D1]]]]]].
  assert (Hs1 : is_hospital h1 s = true) by (destruct F1 as [_ [_ [F _]]]; now rewrite F).
  destruct (h_forget_total s r h1 Hs1) as [h2 [E2 [F2 [A2 [B2 [C2 D2]]]]]].
  exists h2. split; [unfold deletePair; now rewrite (bind_ok _ _ _ _ _ E1)|].
  split; [exact (frame_trans _ _ _ F1 F2)|].
  repeat split; intros v.
  - now rewrite A2, A1.
  - now rewrite D2, D1.
  - now rewrite B2, B1.
  - rewrite C2, C1. reflexivity.
Qed.

Lemma deletePair_originals (a b : value) (h : heap) :
  same_originals h (snd (deletePair a b h)).
Proof.
  unfold deletePair. apply bind_originals; [apply forget_originals|].
  intros _ h1. apply forget_originals.
Qed.

Lemma matchPair_originals (a b : value) (h : heap) :
  same_originals h (snd (matchPair a b h)).
Proof.
  unfold matchPair. apply bind_originals; [apply match_originals|].
  intros _ h1. apply match_originals.
Qed.

Lemma HR_unmatchPair_originals (a b : value) (h : heap) :
  same_originals h (snd (HR_unmatchPair a b h)).
Proof.
  unfold HR_unmatchPair. apply bind_originals; [apply unmatch_originals|].
  intros _ h1. apply unmatch_originals.
Qed.

Lemma checkAvailable_view (h : heap) (x : value) :
  is_hospital h x = true -> checkAvailable x h = (Ok (available h x), h).
Proof.
  intros Hx. destruct (getHospital_view "matching" h x Hx) as [o [E [Ep [Em Ec]]]].
  unfold checkAvailable, available. rewrite (bind_ok _ _ _ _ _ E).
  now rewrite Ep, Em, Ec.
Qed.

Lemma prune_unavailable_ext (f g : value -> bool) (S free : list value) :
  (forall s, In s S -> f s = g s) ->
  prune_unavailable f S free = prune_unavailable g S free.
Proof.
  revert free. induction S as [|s S IH]; intros free H; simpl; [reflexivity|].
  rewrite (H s (or_introl eq_refl)). apply IH. intros t Ht. apply H. now right.
Qed.

(** The [for] over the successors of a resident that has accepted a
    hospital. *)
Lemma hospitalOptimal_delete_total (r : value) (S : list value) :
  forall free h,
    is_player h r = true -> (forall s, In s S -> is_hospital h s = true) ->
    exists h',
      hospitalOptimal_delete r S free h
      = (Ok (prune_unavailable (available h') S free), h')
      /\ frame h h'
      /\ (forall v, pmatching h' v = pmatching h v)
      /\ (forall v, hmatching h' v = hmatching h v)
      /\ (forall v, pprefs h' v
                    = if value_eqb v r then remove_all S (pprefs h v) else pprefs h v)
      /\ (forall v, hprefs h' v
                    = if includes S v then remove_value r (hprefs h v) else hprefs h v)
      /\ same_originals h h'.
Proof.
  induction S as [|s S IH]; intros free h Hr HS; simpl.
  - exists h. split; [reflexivity|]. split; [apply frame_refl|].
    split; [reflexivity|]. split; [reflexivity|]. split; [|split].
    + intros v. rewrite remove_all_nil. now destruct (value_eqb v r).
    + reflexivity.
    + apply same_originals_refl.
  - assert (Hs : is_hospital h s = true) by (apply HS; now left).
    destruct (HR_deletePair_resident_total r s h Hr Hs) as [h1 [E1 [F1 [A1 [B1 [C1 D1]]]]]].
    rewrite (bind_ok _ _ _ _ _ E1).
    assert (Hs1 : is_hospital h1 s = true) by (destruct F1 as [_ [_ [F _]]]; now rewrite F).
    rewrite (bind_ok _ _ _ _ _ (checkAvailable_view h1 s Hs1)).
    destruct (IH (if negb (available h1 s) && includes free s
                  then remove_first s free else free) h1)
      as [h2 [E2 [F2 [A2 [B2 [C2 [D2 O2]]]]]]].
    { destruct F1 as [F _]. now rewrite F. }
    { intros t Ht. destruct F1 as [_ [_ [F _]]]. rewrite F. apply HS. now right. }
    exists h2.
    assert (Av : available h2 s = available h1 s).
    { unfold available. rewrite B2, D2. destruct F2 as [_ [_ [_ F]]]. rewrite F.
      rewrite D1, value_eqb_refl.
      destruct (includes S s); [now rewrite remove_value_idem|reflexivity]. }
    split; [rewrite E2, Av; reflexivity|].
    split; [exact (frame_trans _ _ _ F1 F2)|].
    split; [intros v; now rewrite A2, A1|].
    split; [intros v; now rewrite B2, B1|].
    split; [|split].
    + intros v. rewrite C2, C1. destruct (value_eqb v r); [|reflexivity].
      now rewrite remove_all_cons.
    + intros v. rewrite D2, D1.
      change (includes (s :: S) v) with (value_eqb v s || includes S v).
      destruct (value_eqb v s); simpl; [|reflexivity].
      destruct (includes S v); [apply remove_value_idem|reflexivity].
    + apply (same_originals_trans h h1 h2); [|exact O2].
      pose proof (deletePair_originals r s h) as O1. now rewrite E1 in O1.
Qed.

Lemma find_Some_In {A : Type} (f : A -> bool) (l : list A) (x : A) :
  find f l = Some x -> In x l /\ f x = true.
Proof. apply find_some. Qed.

Lemma truthy_hospital (h : heap) (x : value) : is_hospital h x = true -> truthy x = true.
Proof. intros H. destruct (is_hospital_obj h x H) as [a [o [-> _]]]. reflexivity. Qed.

Lemma truthy_player (h : heap) (r : value) : is_player h r = true -> truthy r = true.
Proof. intros H. destruct (is_player_obj h r H) as [a [o [-> _]]]. reflexivity. Qed.

(** An iteration of the loop of [hospitalOptimal] for a hospital that
    has nobody left to propose to. *)
Lemma hospitalOptimal_step_none (x : value) (free : list value) (h : heap) :
  is_hospital h x = true ->
  find (fun p => negb (includes (hmatching h x) p)) (hprefs h x) = None ->
  hospitalOptimal_step x free h = (Ok free, h).
Proof.
  intros Hx F. unfold hospitalOptimal_step.
  destruct (getHospital_view "getFavourite" h x Hx) as [o [E [Ep [Em _]]]].
  rewrite (bind_ok _ _ _ _ _ E). unfold Hospital.getFavourite. rewrite Ep, Em, F.
  reflexivity.
Qed.

(** An iteration of the loop of [hospitalOptimal] for a hospital whose
    favourite outside its matching is [r]: what it returns and the state
    it leaves, in closed form. *)
Lemma hospitalOptimal_step_total (x r c0 : value) (free free1 S : list value) (h : heap) :
  is_hospital h x = true ->
  find (fun p => negb (includes (hmatching h x) p)) (hprefs h x) = Some r ->
  is_player h r = true ->
  c0 = pmatching h r ->
  (truthy c0 = true -> is_hospital h c0 = true /\ c0 <> x) ->
  S = slice (pprefs h r) (indexOf (pprefs h r) x + 1) ->
  (forall s, In s S -> is_hospital h s = true) -> ~ In x S ->
  free1 = (if truthy c0
           then (if negb (includes free c0) then free ++ [c0] else free)
           else free) ->
  exists h',
    hospitalOptimal_step x free h
    = (Ok (prune_unavailable (available h') S
             (if available h' x then free1 ++ [x] else free1)), h')
    /\ frame h h'
    /\ (forall v, pmatching h' v = if value_eqb v r then x else pmatching h v)
    /\ (forall v, hmatching h' v
                  = if value_eqb v x
                    then sort_by (indexOf (hprefs h x)) (hmatching h x ++ [r])
                    else if truthy c0 && value_eqb v c0
                         then remove_value r (hmatching h v)
                         else hmatching h v)
    /\ (forall v, pprefs h' v
                  = if value_eqb v r then remove_all S (pprefs h v) else pprefs h v)
    /\ (forall v, hprefs h' v
                  = if includes S v then remove_value r (hprefs h v) else hprefs h v)
    /\ same_originals h h'.
Proof.
  intros Hx F Hr Ec Hc ES HS HxS Efree1. unfold hospitalOptimal_step.
  destruct (getHospital_view "getFavourite" h x Hx) as [o [E [Ep [Em _]]]].
  rewrite (bind_ok _ _ _ _ _ E). unfold Hospital.getFavourite. rewrite Ep, Em, F.
  rewrite (truthy_player h r Hr). cbn [negb].
  destruct (player_view h r Hr) as [p [Eo [Pp Pm]]].
  rewrite (bind_ok _ _ _ _ _ (getPlayer_at "matching" r h p Eo)).
  rewrite <- Pm, <- Ec.
  (* the resident leaves its current hospital *)
  assert (U : exists h1,
             (if truthy c0
              then HR_unmatchPair r c0 ;;
                   ret (if negb (includes free c0) then free ++ [c0] else free)
              else ret free) h = (Ok free1, h1)
             /\ frame h h1
             /\ (forall v, pmatching h1 v
                           = if truthy c0 && value_eqb v r then null else pmatching h v)
             /\ (forall v, hmatching h1 v
                           = if truthy c0 && value_eqb v c0
                             then remove_value r (hmatching h v) else hmatching h v)
             /\ (forall v, hprefs h1 v = hprefs h v)
             /\ (forall v, pprefs h1 v = pprefs h v)
             /\ same_originals h h1).
  { destruct (truthy c0) eqn:T.
    - destruct (Hc eq_refl) as [Hc0 _].
      destruct (HR_unmatchPair_total r c0 h Hr Hc0) as [h1 [E1 [F1 [A1 [B1 [C1 D1]]]]]].
      exists h1. split; [rewrite (bind_ok _ _ _ _ _ E1), Efree1; reflexivity|].
      split; [exact F1|]. simpl.
      split; [exact A1|]. split; [exact B1|]. split; [exact C1|]. split; [exact D1|].
      pose proof (HR_unmatchPair_originals r c0 h) as O1. now rewrite E1 in O1.
    - exists h. split; [now rewrite Efree1|]. split; [apply frame_refl|].
      simpl. repeat split; auto; apply same_originals_refl. }
  destruct U as [h1 [E1 [F1 [A1 [B1 [C1 [D1 O1]]]]]]].
  rewrite (bind_ok _ _ _ _ _ E1).
  assert (Hr1 : is_player h1 r = true) by (destruct F1 as [G _]; now rewrite G).
  assert (Hx1 : is_hospital h1 x = true) by (destruct F1 as [_ [_ [G _]]]; now rewrite G).
  destruct (HR_matchPair_total r x h1 Hr1 Hx1) as [h2 [E2 [F2 [A2 [B2 [C2 D2]]]]]].
  rewrite (bind_ok _ _ _ _ _ E2).
  assert (Hr2 : is_player h2 r = true) by (destruct F2 as [G _]; now rewrite G).
  assert (Hx2 : is_hospital h2 x = true) by (destruct F2 as [_ [_ [G _]]]; now rewrite G).
  rewrite (bind_ok _ _ _ _ _ (checkAvailable_view h2 x Hx2)).
  rewrite (bind_ok _ _ _ _ _ (getSuccessors_player h2 r Hr2)).
  assert (Pm2 : pmatching h2 r = x) by (rewrite A2; now rewrite value_eqb_refl).
  rewrite Pm2, (truthy_hospital h x Hx), D2, D1, <- ES.
  destruct (hospitalOptimal_delete_total r S
              (if available h2 x then free1 ++ [x] else free1) h2 Hr2)
    as [h3 [E3 [F3 [A3 [B3 [C3 [D3 O3]]]]]]].
  { intros s Hs. destruct F2 as [_ [_ [G2 _]]]. destruct F1 as [_ [_ [G1 _]]].
    rewrite G2, G1. now apply HS. }
  exists h3.
  assert (Av : available h3 x = available h2 x).
  { unfold available. rewrite B3, D3. destruct F3 as [_ [_ [_ G]]]. rewrite G.
    apply includes_not_In in HxS. now rewrite HxS. }
  split; [rewrite E3, Av; reflexivity|].
  split; [exact (frame_trans _ _ _ (frame_trans _ _ _ F1 F2) F3)|].
  split; [|split; [|split; [|split]]].
  - intros v. rewrite A3, A2, A1. destruct (value_eqb v r); [reflexivity|].
    now rewrite andb_false_r.
  - intros v. rewrite B3, B2, B1, C1.
    destruct (value_eqb_spec v x) as [->|N]; [|reflexivity].
    destruct (truthy c0) eqn:T; [|reflexivity]. destruct (Hc eq_refl) as [_ Nc].
    destruct (value_eqb_spec x c0) as [Eq|_]; [congruence|reflexivity].
  - intros v. rewrite C3, D2, D1. reflexivity.
  - intros v. rewrite D3, C2, C1. reflexivity.
  - apply (same_originals_trans h h1 h3); [exact O1|].
    apply (same_originals_trans h1 h2 h3); [|exact O3].
    pose proof (matchPair_originals r x h1) as O2. now rewrite E2 in O2.
Qed.

(** *** Lists: the favourite, the successors, the work list *)

(** The element [find] returns comes no later than any other one that
    passes the test. *)
Lemma find_first (f : value -> bool) (l : list value) (r b : value) :
  find f l = Some r -> In b l -> f b = true ->
  (indexOf l r <= indexOf l b)%Z.
Proof.
  induction l as [|y l IH]; [discriminate|]. intros F Hb Fb. simpl in F.
  rewrite !(indexOf_cons y). destruct (f y) eqn:Fy.
  - injection F as <-. rewrite value_eqb_refl.
    destruct (value_eqb_spec y b) as [->|Nb]; [lia|].
    destruct Hb as [Hb|Hb]; [congruence|].
    apply includes_In in Hb as I. rewrite I. pose proof (indexOf_nonneg _ _ Hb). lia.
  - destruct (value_eqb_spec y r) as [->|Nr].
    { apply find_some in F. destruct F as [_ F]. congruence. }
    destruct (value_eqb_spec y b) as [->|Nb]; [congruence|].
    destruct Hb as [Hb|Hb]; [congruence|].
    apply find_some in F as F'. destruct F' as [Hr _].
    apply includes_In in Hr as I1. apply includes_In in Hb as I2. rewrite I1, I2.
    specialize (IH F Hb Fb). lia.
Qed.

(** In a list without repetition, an entry before the last one has a
    smaller index. *)
Lemma indexOf_before_last (front : list value) (c b : value) :
  NoDup (front ++ [c]) -> In b front ->
  (indexOf (front ++ [c]) b < indexOf (front ++ [c]) c)%Z.
Proof.
  induction front as [|y front IH]; [intros _ []|]. intros ND Hb.
  simpl app in *. inversion ND as [|? ? Hy ND']; subst.
  rewrite !(indexOf_cons y).
  assert (Hc : In c (front ++ [c])) by (apply in_or_app; right; now left).
  destruct (value_eqb_spec y c) as [->|Nc]; [contradiction|].
  apply includes_In in Hc as Ic. rewrite Ic.
  destruct (value_eqb_spec y b) as [->|Nb].
  - pose proof (indexOf_nonneg _ _ Hc). lia.
  - destruct Hb as [Hb|Hb]; [congruence|].
    assert (Hb' : In b (front ++ [c])) by (apply in_or_app; now left).
    apply includes_In in Hb' as Ib. rewrite Ib. specialize (IH ND' Hb). lia.
Qed.

Lemma remove_all_self_tail (l : list value) (S : list value) :
  incl l S -> remove_all S l = [].
Proof.
  unfold remove_all. induction l as [|y l IH]; intros H; [reflexivity|]. cbn [filter].
  assert (I : includes S y = true) by (apply includes_In, H; now left).
  rewrite I. simpl. apply IH. intros z Hz. apply H. now right.
Qed.

(** Deleting the successors of [x] from a list without repetition
    leaves [x] at its end. *)
Lemma remove_successors (l : list value) (x : value) :
  NoDup l -> In x l ->
  exists front, remove_all (slice l (indexOf l x + 1)) l = front ++ [x].
Proof.
  induction l as [|y l IH]; [intros _ []|]. intros ND Hx.
  inversion ND as [|? ? Hy ND']; subst. rewrite (indexOf_cons y).
  destruct (value_eqb_spec y x) as [->|N].
  - exists []. unfold slice. simpl. unfold remove_all. cbn [filter].
    apply includes_not_In in Hy. rewrite Hy. simpl.
    fold (remove_all l l). now rewrite remove_all_self_tail by apply incl_refl.
  - destruct Hx as [Hx|Hx]; [congruence|].
    apply includes_In in Hx as I. rewrite I.
    pose proof (indexOf_nonneg _ _ Hx) as Pos.
    destruct (IH ND' Hx) as [front E].
    assert (Es : slice (y :: l) (1 + indexOf l x + 1) = slice l (indexOf l x + 1)).
    { unfold slice. replace (Z.to_nat (1 + indexOf l x + 1)) with (S (Z.to_nat (indexOf l x + 1)))
        by lia. reflexivity. }
    rewrite Es. exists (y :: front). unfold remove_all. cbn [filter].
    assert (Hys : includes (slice l (indexOf l x + 1)) y = false).
    { apply includes_not_In. intros H. apply Hy. eapply slice_incl; exact H. }
    rewrite Hys. simpl. fold (remove_all (slice l (indexOf l x + 1)) l). now rewrite E.
Qed.

Lemma prune_unavailable_In (avail : value -> bool) (S : list value) :
  forall free a, In a (prune_unavailable avail S free) -> In a free.
Proof.
  induction S as [|s S IH]; intros free a H; simpl in H; [exact H|].
  apply IH in H. destruct (_ && _) in H; [now apply remove_first_In in H|exact H].
Qed.

Lemma prune_unavailable_NoDup (avail : value -> bool) (S : list value) :
  forall free, NoDup free -> NoDup (prune_unavailable avail S free).
Proof.
  induction S as [|s S IH]; intros free ND; simpl; [exact ND|].
  apply IH. destruct (_ && _); [now apply remove_first_NoDup|exact ND].
Qed.

Lemma prune_unavailable_length (avail : value -> bool) (S : list value) :
  forall free, List.length (prune_unavailable avail S free) <= List.length free.
Proof.
  induction S as [|s S IH]; intros free; simpl; [lia|].
  etransitivity; [apply IH|]. destruct (_ && _); [apply remove_first_length|lia].
Qed.

Lemma prune_unavailable_keeps (avail : value -> bool) (S : list value) (a : value) :
  avail a = true ->
  forall free, In a free -> In a (prune_unavailable avail S free).
Proof.
  intros Ha. induction S as [|s S IH]; intros free H; simpl; [exact H|].
  apply IH. destruct (avail s) eqn:As; simpl; [exact H|].
  destruct (includes free s); [|exact H].
  apply remove_first_keeps; [exact H|]. intros ->. congruence.
Qed.

(** [checkAvailable] answers [true] exactly for a hospital with a free
    place that ranks somebody it does not hold. *)
Lemma available_spec (h : heap) (x : value) :
  available h x = true
  <-> (Z.of_nat (List.length (hmatching h x)) < hcapacity h x)%Z
      /\ exists b, In b (hprefs h x) /\ ~ In b (hmatching h x).
Proof.
  unfold available. rewrite andb_true_iff, Z.ltb_lt, Nat.ltb_lt. split.
  - intros [L F]. split; [exact L|].
    destruct (filter _ (hprefs h x)) as [|b l] eqn:E; [simpl in F; lia|].
    assert (Hb : In b (filter (fun p => negb (includes (hmatching h x) p)) (hprefs h x)))
      by (rewrite E; now left).
    apply filter_In in Hb. destruct Hb as [Hb Nb]. exists b. split; [exact Hb|].
    apply includes_not_In. now apply negb_true_iff.
  - intros [L [b [Hb Nb]]]. split; [exact L|].
    assert (Hf : In b (filter (fun p => negb (includes (hmatching h x) p)) (hprefs h x))).
    { apply filter_In. split; [exact Hb|]. apply negb_true_iff. now apply includes_not_In. }
    destruct (filter _ (hprefs h x)); [destruct Hf|simpl; lia].
Qed.

(** *** The invariant of the loop *)

Section HO_loop.

Variables Rs Hs : list value.
Variables O OH : value -> list value.
Hypothesis static : HR_static Rs Hs O OH.

Lemma HO_inv_resident (h : heap) (free : list value) (r : value) :
  HO_inv Rs Hs O OH h free -> In r Rs ->
  is_player h r = true /\ incl (pprefs h r) Hs /\ NoDup (pprefs h r).
Proof.
  intros [I1 _] Hr. destruct static as [_ [_ [SO _]]].
  destruct (I1 r Hr) as [P [f E]]. destruct (SO r Hr) as [ND In].
  split; [exact P|]. rewrite E. split.
  - intros x Hx. apply In. now apply filter_In in Hx.
  - now apply NoDup_filter.
Qed.

Lemma HO_inv_hospital (h : heap) (free : list value) (x : value) :
  HO_inv Rs Hs O OH h free -> In x Hs ->
  is_hospital h x = true /\ incl (hprefs h x) Rs /\ NoDup (hprefs h x).
Proof.
  intros [_ [I2 _]] Hx. destruct static as [_ [_ [_ SOH]]].
  destruct (I2 x Hx) as [P [f E]]. destruct (SOH x Hx) as [ND In].
  split; [exact P|]. rewrite E. split.
  - intros r Hr. apply In. now apply filter_In in Hr.
  - now apply NoDup_filter.
Qed.

(** Whoever a hospital holds is a resident that holds the hospital, and
    that the hospital still ranks. *)
Lemma HO_inv_match (h : heap) (free : list value) (x m : value) :
  HO_inv Rs Hs O OH h free -> In x Hs -> In m (hmatching h x) ->
  In m Rs /\ pmatching h m = x /\ In m (hprefs h x) /\ In x (pprefs h m).
Proof.
  intros Inv Hx Hm. pose proof Inv as [I1 [I2 [I3 [I4 [I5 [I6 _]]]]]].
  destruct (I5 x Hx) as [Inc _]. assert (HmR : In m Rs) by now apply Inc.
  assert (Pm : pmatching h m = x) by now apply (I4 m x HmR Hx).
  assert (Hxn : x <> null).
  { destruct (I2 x Hx) as [P _]. now apply (is_hospital_not_null h). }
  assert (Px : In x (pprefs h m)).
  { destruct (I6 m HmR) as [N|[_ [front E]]]; [congruence|].
    rewrite E, Pm. apply in_or_app. right. now left. }
  repeat split; auto. now apply (I3 m x HmR Hx).
Qed.

(** One iteration of the [while] loop keeps the invariant and decreases
    the measure. *)
Lemma HO_inv_step (h : heap) (free0 : list value) (x : value) :
  HO_inv Rs Hs O OH h (free0 ++ [x]) ->
  exists free' h',
    hospitalOptimal_step x free0 h = (Ok free', h')
    /\ HO_inv Rs Hs O OH h' free'
    /\ HO_measure Rs h' free' < HO_measure Rs h (free0 ++ [x])
    /\ same_originals h h'.
Proof.
  intros Inv. pose proof Inv as [I1 [I2 [I3 [I4 [I5 [I6 [[F1 [F2 F3]] I8]]]]]]].
  assert (HxH : In x Hs) by (apply F2, in_or_app; right; now left).
  assert (Lx : (Z.of_nat (List.length (hmatching h x)) < hcapacity h x)%Z)
    by (apply F3, in_or_app; right; now left).
  apply NoDup_snoc in F1. destruct F1 as [F1 Hxf].
  destruct (HO_inv_hospital h _ x Inv HxH) as [Px [Ix NDx]].
  destruct (find (fun p => negb (includes (hmatching h x) p)) (hprefs h x)) as [r|] eqn:Fav.
  2:{ (* nobody left to propose to *)
    exists free0, h. split; [now apply hospitalOptimal_step_none|].
    split; [|split; [|apply same_originals_refl]].
    - split; [exact I1|]. split; [exact I2|]. split; [exact I3|]. split; [exact I4|].
      split; [exact I5|]. split; [exact I6|]. split.
      + split; [exact F1|]. split.
        * intros y Hy. apply F2, in_or_app. now left.
        * intros y Hy. apply F3, in_or_app. now left.
      + intros z Hz Az. specialize (I8 z Hz Az).
        apply in_app_or in I8. destruct I8 as [H|[<-|[]]]; [exact H|].
        apply available_spec in Az. destruct Az as [_ [b [Hb Nb]]].
        pose proof (find_none _ _ Fav b Hb) as Fb. simpl in Fb.
        apply negb_false_iff, includes_In in Fb. contradiction.
    - unfold HO_measure. rewrite length_app. simpl. lia. }
  (* a proposal to the favourite [r] *)
  apply find_some in Fav as Fav'. destruct Fav' as [Hrx Hrm].
  apply negb_true_iff, includes_not_In in Hrm.
  assert (HrR : In r Rs) by now apply Ix.
  destruct (HO_inv_resident h _ r Inv HrR) as [Pr [Ir NDr]].
  assert (Hxr : In x (pprefs h r)) by now apply (I3 r x HrR HxH).
  assert (Nrx : pmatching h r <> x).
  { intros E. apply (I4 r x HrR HxH) in E. contradiction. }
  remember (pmatching h r) as c0 eqn:Ec0.
  remember (slice (pprefs h r) (indexOf (pprefs h r) x + 1)) as S eqn:ES.
  remember (if truthy c0
            then (if negb (includes free0 c0) then free0 ++ [c0] else free0)
            else free0) as free1 eqn:Efree1.
  assert (S_in : forall s, In s S <->
            In s (pprefs h r) /\ (indexOf (pprefs h r) x < indexOf (pprefs h r) s)%Z).
  { intros s. rewrite ES. now apply slice_after_In. }
  assert (HxS : ~ In x S) by (intros H; apply S_in in H; lia).
  assert (SH : forall s, In s S -> In s Hs).
  { intros s Hs0. apply S_in in Hs0. apply Ir. tauto. }
  assert (Matched : truthy c0 = true ->
            In c0 Hs /\ is_hospital h c0 = true /\ c0 <> x
            /\ In r (hmatching h c0) /\ In c0 S).
  { intros T. destruct (I6 r HrR) as [N|[Hc [front E]]].
    { rewrite <- Ec0 in N. rewrite N in T. discriminate. }
    rewrite <- Ec0 in Hc, E.
    split; [exact Hc|]. split; [now destruct (I2 c0 Hc)|]. split; [exact Nrx|].
    split; [apply (I4 r c0 HrR Hc); now symmetry|].
    apply S_in. split; [rewrite E; apply in_or_app; right; now left|].
    rewrite E. apply indexOf_before_last; [now rewrite <- E|].
    rewrite E in Hxr. apply in_app_or in Hxr.
    destruct Hxr as [H|[H|[]]]; [exact H|congruence]. }
  assert (Unmatched : truthy c0 = false -> c0 = null).
  { intros T. destruct (I6 r HrR) as [N|[Hc _]]; [congruence|].
    rewrite <- Ec0 in Hc. destruct (I2 c0 Hc) as [P _].
    rewrite (truthy_hospital h c0 P) in T. discriminate. }
  assert (NotHeld : forall z, In z Hs -> In r (hmatching h z) -> truthy c0 = true /\ z = c0).
  { intros z Hz Hin. apply (I4 r z HrR Hz) in Hin. rewrite <- Ec0 in Hin. subst z.
    split; [|reflexivity]. destruct (I2 c0 Hz) as [P _]. now apply (truthy_hospital h). }
  destruct (hospitalOptimal_step_total x r c0 free0 free1 S h)
    as [h' [E [Fr [Vm [Vh [Vp [Vq Orig]]]]]]]; auto.
  { intros T. destruct (Matched T) as [_ [A [B _]]]. now split. }
  { intros s Hs0. now destruct (I2 s (SH s Hs0)). }
  destruct Fr as [FrP [_ [FrH FrC]]].
  set (M1 := sort_by (indexOf (hprefs h x)) (hmatching h x ++ [r])) in *.
  assert (PermM1 : Permutation (hmatching h x ++ [r]) M1) by apply sort_by_perm.
  assert (InM1 : forall a, In a M1 <-> In a (hmatching h x) \/ a = r).
  { intros a. split.
    - intros H. apply (Permutation_in _ (Permutation_sym PermM1)) in H.
      apply in_app_or in H. destruct H as [H|[H|[]]]; auto.
    - intros H. apply (Permutation_in _ PermM1). apply in_or_app.
      destruct H as [H|H]; [now left|right; now left]. }
  assert (LenM1 : List.length M1 = List.length (hmatching h x) + 1).
  { rewrite <- (Permutation_length PermM1), length_app. reflexivity. }
  (* who the hospitals hold afterwards *)
  assert (Held : forall z a, In z Hs ->
            (In a (hmatching h' z)
             <-> (z = x /\ (In a (hmatching h x) \/ a = r))
                 \/ (z <> x /\ In a (hmatching h z) /\ a <> r))).
  { intros z a Hz. rewrite Vh. destruct (value_eqb_spec z x) as [->|N].
    - rewrite InM1. tauto.
    - destruct (truthy c0 && value_eqb z c0) eqn:T.
      + rewrite remove_value_In. tauto.
      + split; [|tauto]. intros Ha. right. split; [exact N|]. split; [exact Ha|].
        intros ->. destruct (NotHeld z Hz Ha) as [T1 ->].
        rewrite T1, value_eqb_refl in T. discriminate. }
  assert (Shrinks : forall z, z <> x ->
            List.length (hmatching h' z) <= List.length (hmatching h z)).
  { intros z N. rewrite Vh. destruct (value_eqb_spec z x) as [|_]; [contradiction|].
    destruct (_ && _); [apply remove_value_length|lia]. }
  (* the work list *)
  remember (if available h' x then free1 ++ [x] else free1) as free2 eqn:Efree2.
  assert (Infree1 : forall a, In a free1 <-> In a free0 \/ (truthy c0 = true /\ a = c0)).
  { intros a. rewrite Efree1. destruct (truthy c0); [|intuition discriminate].
    destruct (includes free0 c0) eqn:I; simpl.
    - apply includes_In in I. split; [tauto|]. intros [H|[_ ->]]; auto.
    - rewrite in_app_iff. simpl. intuition auto. }
  assert (NDfree1 : NoDup free1).
  { rewrite Efree1. destruct (truthy c0); [|exact F1].
    destruct (includes free0 c0) eqn:I; simpl; [exact F1|].
    apply NoDup_snoc. split; [exact F1|]. now apply includes_not_In. }
  assert (Nxfree1 : ~ In x free1).
  { intros H. apply Infree1 in H. destruct H as [H|[T H]]; [contradiction|].
    destruct (Matched T) as [_ [_ [N _]]]. congruence. }
  assert (Infree2 : forall a, In a free2 <-> In a free1 \/ (available h' x = true /\ a = x)).
  { intros a. rewrite Efree2. destruct (available h' x); [|intuition discriminate].
    rewrite in_app_iff. simpl. intuition auto. }
  assert (NDfree2 : NoDup free2).
  { rewrite Efree2. destruct (available h' x); [|exact NDfree1].
    apply NoDup_snoc. now split. }
  assert (Lfree2 : List.length free2 <= List.length free0 + 2).
  { rewrite Efree2, Efree1.
    destruct (available h' x), (truthy c0), (negb (includes free0 c0));
      rewrite ?length_app; simpl; lia. }
  exists (prune_unavailable (available h') S free2), h'.
  split; [exact E|]. split; [|split; [|exact Orig]].
  - (* the invariant *)
    split.
    { intros y Hy. destruct (I1 y Hy) as [A [f C]].
      rewrite FrP. split; [exact A|].
      rewrite Vp. destruct (value_eqb y r).
      - rewrite C, remove_all_filter. eexists. reflexivity.
      - now exists f. }
    split.
    { intros y Hy. destruct (I2 y Hy) as [A [f C]].
      rewrite FrH. split; [exact A|].
      rewrite Vq. destruct (includes S y).
      - rewrite C, remove_value_filter. eexists. reflexivity.
      - now exists f. }
    split.
    { intros y z Hy Hz. rewrite Vp, Vq.
      destruct (value_eqb_spec y r) as [->|N].
      - rewrite remove_all_In. destruct (includes S z) eqn:Sz.
        + apply includes_In in Sz. rewrite remove_value_In. tauto.
        + apply includes_not_In in Sz. rewrite (I3 r z Hy Hz). tauto.
      - destruct (includes S z).
        + rewrite remove_value_In. rewrite (I3 y z Hy Hz). tauto.
        + apply I3; auto. }
    split.
    { intros y z Hy Hz. rewrite (Held z y Hz), Vm.
      destruct (value_eqb_spec y r) as [->|N].
      - split; [intros <-; left; split; [reflexivity|now right]|].
        intros [[-> _]|[_ [_ H]]]; [reflexivity|congruence].
      - rewrite (I4 y z Hy Hz). split.
        + intros H. destruct (value_eqb_spec z x) as [->|Nz]; [left|right]; tauto.
        + intros [[-> [H|H]]|[_ [H _]]]; [exact H|contradiction|exact H]. }
    split.
    { intros z Hz. destruct (I5 z Hz) as [IMz [LMz [NDMz Prefix]]].
      split; [|split; [|split]].
      - intros a Ha. apply (Held z a Hz) in Ha.
        destruct Ha as [[_ [H| ->]]|[_ [H _]]]; auto.
        + destruct (I5 x HxH) as [A _]. now apply A.
      - rewrite FrC. destruct (value_eqb_spec z x) as [->|N].
        + rewrite Vh, value_eqb_refl. fold M1. lia.
        + specialize (Shrinks z N). lia.
      - rewrite Vh. destruct (value_eqb_spec z x) as [->|N].
        + apply (Permutation_NoDup PermM1). apply NoDup_snoc. now split.
        + destruct (_ && _); [|exact NDMz]. unfold remove_value. now apply NoDup_filter.
      - intros a b Ha Hb Nb. apply (Held z a Hz) in Ha.
        assert (Nb' : ~ ((z = x /\ (In b (hmatching h x) \/ b = r))
                         \/ (z <> x /\ In b (hmatching h z) /\ b <> r))).
        { intros H. apply Nb. now apply (Held z b Hz). }
        rewrite Vq in Hb |- *.
        destruct Ha as [[-> Ha]|[N [Ha Nar]]].
        + (* the hospital that proposed *)
          assert (Sx : includes S x = false) by now apply includes_not_In.
          rewrite Sx in Hb |- *.
          assert (Nbm : ~ In b (hmatching h x)) by tauto.
          assert (Nbr : b <> r) by tauto.
          destruct Ha as [Ha| ->]; [now apply Prefix|].
          assert (Le : (indexOf (hprefs h x) r <= indexOf (hprefs h x) b)%Z).
          { apply (find_first _ _ r b Fav Hb). apply negb_true_iff.
            now apply includes_not_In. }
          assert (indexOf (hprefs h x) r <> indexOf (hprefs h x) b).
          { intros Eq. apply Nbr. symmetry. now apply (indexOf_inj (hprefs h x) r b). }
          lia.
        + (* any other hospital *)
          destruct (HO_inv_match h _ z a Inv Hz Ha) as [_ [_ [Haq _]]].
          destruct (includes S z) eqn:Sz.
          * apply remove_value_In in Hb as Hb'. destruct Hb' as [Hbq Nbr].
            assert (Nbm : ~ In b (hmatching h z)) by tauto.
            unfold remove_value. apply indexOf_filter_lt.
            -- fold (remove_value r (hprefs h z)). apply remove_value_In. now split.
            -- exact Hb.
            -- now apply Prefix.
          * apply Prefix; auto. intros Hbm.
            destruct (value_eqb_spec b r) as [->|Nbr]; [|tauto].
            destruct (NotHeld z Hz Hbm) as [T ->].
            destruct (Matched T) as [_ [_ [_ [_ Hc]]]].
            apply includes_In in Hc. congruence. }
    split.
    { intros y Hy. rewrite Vm, Vp.
      destruct (value_eqb_spec y r) as [->|N]; [|now apply I6].
      right. split; [exact HxH|]. rewrite ES. now apply remove_successors. }
    split.
    { split; [now apply prune_unavailable_NoDup|]. split.
      - intros a Ha. apply prune_unavailable_In in Ha. apply Infree2 in Ha.
        destruct Ha as [Ha|[_ ->]]; [|exact HxH]. apply Infree1 in Ha.
        destruct Ha as [Ha|[T ->]].
        + apply F2, in_or_app. now left.
        + now destruct (Matched T).
      - intros a Ha. apply prune_unavailable_In in Ha. apply Infree2 in Ha.
        destruct Ha as [Ha|[Av ->]].
        + assert (Nax : a <> x) by (intros ->; contradiction).
          rewrite FrC. apply Infree1 in Ha. destruct Ha as [Ha|[T ->]].
          * specialize (Shrinks a Nax).
            assert ((Z.of_nat (List.length (hmatching h a)) < hcapacity h a)%Z)
              by (apply F3, in_or_app; now left).
            lia.
          * destruct (Matched T) as [Hc [_ [_ [Hrc _]]]].
            rewrite Vh. destruct (value_eqb_spec c0 x) as [|_]; [contradiction|].
            rewrite T, value_eqb_refl. simpl.
            pose proof (remove_value_length_In r _ Hrc).
            destruct (I5 c0 Hc) as [_ [L _]]. lia.
        + apply available_spec in Av. tauto. }
    { intros z Hz Az. apply prune_unavailable_keeps; [exact Az|].
      apply Infree2. destruct (value_eqb_spec z x) as [->|N]; [right; now split|left].
      apply Infree1.
      destruct (truthy c0 && value_eqb z c0) eqn:T.
      { apply andb_true_iff in T. destruct T as [T Ez]. apply value_eqb_eq in Ez.
        right. now split. }
      left.
      assert (Az0 : available h z = true).
      { apply available_spec in Az. destruct Az as [L [b [Hb Nb]]].
        rewrite FrC in L. rewrite Vh in L, Nb.
        destruct (value_eqb_spec z x) as [|_]; [contradiction|]. rewrite T in L, Nb.
        apply available_spec. split; [exact L|]. exists b. split; [|exact Nb].
        rewrite Vq in Hb. destruct (includes S z); [|exact Hb].
        now apply remove_value_In in Hb. }
      specialize (I8 z Hz Az0). apply in_app_or in I8.
      destruct I8 as [H|[H|[]]]; [exact H|congruence]. }
  - (* the measure *)
    unfold HO_measure. rewrite length_app. simpl.
    pose proof (prune_unavailable_length (available h') S free2) as L1.
    assert (Lt : list_sum (map (fun y => List.length (pprefs h' y)
                                         + (if value_eqb (pmatching h' y) null then 1 else 0)) Rs)
                 < list_sum (map (fun y => List.length (pprefs h y)
                                           + (if value_eqb (pmatching h y) null then 1 else 0)) Rs)).
    { apply (list_sum_lt _ _ Rs r); [|exact HrR|].
      - intros y _. rewrite Vp, Vm. destruct (value_eqb_spec y r) as [->|N]; [|lia].
        assert (Hn : x <> null) by now apply (is_hospital_not_null h).
        destruct (value_eqb_spec x null) as [|_]; [contradiction|].
        pose proof (filter_length_le (fun p => negb (includes S p)) (pprefs h r)).
        unfold remove_all. lia.
      - rewrite Vp, Vm, value_eqb_refl.
        assert (Hn : x <> null) by now apply (is_hospital_not_null h).
        destruct (value_eqb_spec x null) as [|_]; [contradiction|].
        rewrite <- Ec0.
        assert (T : truthy c0 = true \/ truthy c0 = false) by (destruct (truthy c0); auto).
        destruct T as [T|T].
        + destruct (Matched T) as [_ [_ [_ [_ Hc]]]].
          assert (Hcp : In c0 (pprefs h r)) by (apply S_in in Hc; tauto).
          pose proof (filter_length_lt (fun p => negb (includes S p)) (pprefs h r) c0 Hcp) as L.
          unfold remove_all. apply includes_In in Hc. simpl in L. rewrite Hc in L.
          specialize (L eq_refl). lia.
        + rewrite (Unmatched T). simpl.
          pose proof (filter_length_le (fun p => negb (includes S p)) (pprefs h r)).
          unfold remove_all. lia. }
    lia.
Qed.

End HO_loop.

(** *** The run of the algorithm *)

Section HO_run.

Variables Rs Hs : list value.
Variables O OH : value -> list value.
Hypothesis static : HR_static Rs Hs O OH.

(** With fuel for as many iterations as the measure allows, the loop
    returns, and leaves a state with an empty work list. *)
Lemma HO_loop_total (fuel : nat) :
  forall free h,
    HO_inv Rs Hs O OH h free -> HO_measure Rs h free <= fuel ->
    exists h', hospitalOptimal_loop fuel free h = (Ok tt, h')
               /\ HO_inv Rs Hs O OH h' [] /\ same_originals h h'.
Proof.
  induction fuel as [|fuel IH]; intros free h Inv Hm.
  - assert (free = []).
    { unfold HO_measure in Hm. destruct free; [reflexivity|simpl in Hm; lia]. }
    subst free. exists h. split; [reflexivity|]. split; [exact Inv|apply same_originals_refl].
  - simpl. destruct (pop free) as [[x free0]|] eqn:Ep.
    + apply pop_Some in Ep. subst free.
      destruct (HO_inv_step Rs Hs O OH static h free0 x Inv)
        as [free' [h1 [E [Inv1 [Lt O1]]]]].
      rewrite (bind_ok _ _ _ _ _ E).
      destruct (IH free' h1 Inv1) as [h' [E' [Inv' O']]]; [lia|].
      exists h'. split; [exact E'|]. split; [exact Inv'|].
      exact (same_originals_trans _ _ _ O1 O').
    + apply pop_None in Ep. subst free. exists h.
      split; [reflexivity|]. split; [exact Inv|apply same_originals_refl].
Qed.

(** What the invariant says when the work list is empty. *)
Lemma HO_inv_solved (h : heap) :
  HO_inv Rs Hs O OH h [] -> HO_solved h Rs Hs.
Proof.
  intros Inv. pose proof Inv as [I1 [I2 [I3 [I4 [I5 [I6 [I7 I8]]]]]]].
  split; [intros r Hr; now destruct (I1 r Hr)|].
  split; [intros x Hx; now destruct (I2 x Hx)|].
  split; [exact I4|]. split; [exact I3|]. split; [|exact I6].
  intros x Hx. destruct (I5 x Hx) as [A [B [C D]]].
  split; [exact A|]. split; [|split; [exact B|split; [exact C|split; [exact D|]]]].
  - intros m Hm. now destruct (HO_inv_match Rs Hs O OH h [] x m Inv Hx Hm) as [_ [_ [H _]]].
  - intros L b Hb.
    destruct (in_dec (fun a b => match value_eqb_spec a b with
                                 | ReflectT _ e => left e
                                 | ReflectF _ n => right n
                                 end) b (hmatching h x)) as [Hin|Nin]; [exact Hin|].
    exfalso. apply (I8 x Hx). apply available_spec. split; [exact L|]. now exists b.
Qed.

End HO_run.

(** A consistent game is a state of the loop, with every hospital on
    the work list. *)
Lemma HO_consistent_inv (h : heap) (Rs Hs : list value) :
  HR_consistent h Rs Hs = true ->
  HR_static Rs Hs (pprefs h) (hprefs h)
  /\ HO_inv Rs Hs (pprefs h) (hprefs h) h Hs
  /\ HO_measure Rs h Hs
     <= List.length Hs + 2 * (List.length Rs + List.length Rs * List.length Hs).
Proof.
  intros C. destruct (HR_consistent_inv h Rs Hs C) as [St [Inv _]].
  pose proof Inv as [I1 [I2 [I3 [I4 [I5 [_ [_ [[_ [_ F3]] _]]]]]]]].
  assert (Empty : forall x, In x Hs -> hmatching h x = []).
  { intros x Hx. destruct (hmatching h x) as [|a l] eqn:E; [reflexivity|]. exfalso.
    destruct (I5 x Hx) as [Inc _]. rewrite E in Inc.
    assert (Ha : In a Rs) by (apply Inc; now left).
    assert (Pa : pmatching h a = x) by (apply (I4 a x Ha Hx); rewrite E; now left).
    rewrite (F3 a Ha) in Pa. destruct (I2 x Hx) as [P _].
    now apply (is_hospital_not_null h x P). }
  split; [exact St|]. split.
  - split; [intros r Hr; destruct (I1 r Hr) as [A [_ B]]; now split|].
    split; [intros x Hx; destruct (I2 x Hx) as [A [_ B]]; now split|].
    split; [exact I3|]. split; [exact I4|]. split.
    { intros x Hx. rewrite (Empty x Hx). destruct (I2 x Hx) as [_ [Cap _]].
      split; [intros a []|]. split; [simpl; lia|]. split; [constructor|]. intros a b []. }
    split; [intros r Hr; left; now apply F3|].
    split.
    { split; [now destruct St as [_ [H _]]|]. split; [apply incl_refl|].
      intros x Hx. rewrite (Empty x Hx). destruct (I2 x Hx) as [_ [Cap _]]. simpl. lia. }
    intros x Hx _. exact Hx.
  - unfold HO_measure. apply Nat.add_le_mono_l. apply Nat.mul_le_mono_l.
    replace (List.length Rs + List.length Rs * List.length Hs)
      with (List.length Rs * (List.length Hs + 1)) by lia.
    rewrite <- (list_sum_const (fun _ : value => List.length Hs + 1) (List.length Hs + 1) Rs)
      by reflexivity.
    apply list_sum_le. intros r Hr. destruct St as [_ [_ [SO _]]].
    destruct (SO r Hr) as [ND Inc].
    pose proof (NoDup_incl_length ND Inc).
    destruct (value_eqb (pmatching h r) null); lia.
Qed.

(** With fuel for [m + 2 * (n + n * m)] iterations, [n] residents and
    [m] hospitals, the hospital-optimal algorithm returns the matches
    of every hospital and leaves a solved state. *)
Lemma hospitalOptimal_solved (h : heap) (Rs Hs : list value) (fuel : nat) :
  HR_consistent h Rs Hs = true ->
  List.length Hs + 2 * (List.length Rs + List.length Rs * List.length Hs) <= fuel ->
  exists h',
    hospitalResident fuel Rs Hs hospital_optimal h
    = (Ok (map (fun x => (x, hmatching h' x)) Hs), h')
    /\ HO_solved h' Rs Hs
    /\ same_originals h h'
    /\ (forall r, In r Rs -> exists f, pprefs h' r = filter f (pprefs h r))
    /\ (forall x, In x Hs -> exists f, hprefs h' x = filter f (hprefs h x)).
Proof.
  intros C Hfuel. destruct (HO_consistent_inv h Rs Hs C) as [St [Inv Hm]].
  destruct (HO_loop_total Rs Hs _ _ St fuel Hs h Inv) as [h' [E [Fin Orig]]]; [lia|].
  pose proof (HO_inv_solved Rs Hs _ _ h' Fin) as Sol.
  exists h'. split; [|split; [exact Sol|split; [exact Orig|split]]].
  - unfold hospitalResident, hospitalOptimal. rewrite (bind_ok _ _ _ _ _ E).
    rewrite multiple_result_total; auto.
    + destruct Sol as [_ [H _]]. exact H.
    + now destruct St as [_ [H _]].
  - intros r Hr. destruct Fin as [I1 _]. now destruct (I1 r Hr).
  - intros x Hx. destruct Fin as [_ [I2 _]]. now destruct (I2 x Hx).
Qed.

(** [solve('hospital')] on a consistent game. *)
Lemma HospitalResident_solve_hospital_solved (g : HospitalResident.t) (h : heap)
    (fuel : nat) :
  HR_consistent h (HospitalResident.residents g) (HospitalResident.hospitals g) = true ->
  List.length (HospitalResident.hospitals g)
    + 2 * (List.length (HospitalResident.residents g)
           + List.length (HospitalResident.residents g)
             * List.length (HospitalResident.hospitals g))
    <= fuel ->
  exists h',
    HospitalResident_solve fuel g hospital_optimal h
    = (Ok (HospitalResident.mk (HospitalResident.residents g) (HospitalResident.hospitals g)
             (HospitalResident.clean g)
             (Some (map (fun x => (x, hmatching h' x)) (HospitalResident.hospitals g)))
             (HospitalResident.blockingPairs g)
             (HospitalResident._allResidents g) (HospitalResident._allHospitals g)), h')
    /\ HO_solved h' (HospitalResident.residents g) (HospitalResident.hospitals g)
    /\ same_originals h h'
    /\ (forall r, In r (HospitalResident.residents g) ->
          exists f, pprefs h' r = filter f (pprefs h r))
    /\ (forall x, In x (HospitalResident.hospitals g) ->
          exists f, hprefs h' x = filter f (hprefs h x)).
Proof.
  intros C Hfuel.
  destruct (hospitalOptimal_solved h _ _ fuel C Hfuel) as [h' [E [Sol Keep]]].
  exists h'. split; [|split; [exact Sol|exact Keep]].
  unfold HospitalResident_solve. rewrite (bind_ok _ _ _ _ _ E).
  rewrite MultipleMatching_copy; [reflexivity|].
  rewrite map_map. simpl. rewrite map_id.
  destruct (HR_consistent_inv _ _ _ C) as [[_ [ND _]] _]. exact ND.
Qed.

(** *** The checks on a state the hospital-optimal algorithm leaves *)

(** [checkValidity] accepts the state. *)
Lemma HO_solved_valid (g : HospitalResident.t) (h : heap) :
  HO_solved h (HospitalResident.residents g) (HospitalResident.hospitals g) ->
  HospitalResident_checkValidity g h = (Ok true, h).
Proof.
  intros [S1 [S2 [S3 [S4 [S5 S6]]]]]. unfold HospitalResident_checkValidity.
  assert (E1 : HR_checkForUnacceptableMatches g residents_party h = (Ok [], h)).
  { unfold HR_checkForUnacceptableMatches. apply issues_of_none. intros r Hr. simpl in Hr.
    destruct (player_view h r (S1 r Hr)) as [p [E _]].
    rewrite (bind_ok _ _ _ _ _ (load_at _ _ _ _ E)).
    assert (A : Player_checkIfMatchIsUnacceptable r true h = (Ok None, h)).
    { destruct (S6 r Hr) as [N|[Hm [front Ep]]].
      - apply Player_unmatched_ok; [now apply S1|exact N].
      - apply Player_acceptable; [now apply S1| |rewrite Ep; apply in_or_app; right; now left].
        intros N. rewrite N in Hm. specialize (S2 null Hm). discriminate. }
    rewrite (bind_ok _ _ _ _ _ A). reflexivity. }
  assert (E2 : HR_checkForUnacceptableMatches g hospitals_party h = (Ok [], h)).
  { unfold HR_checkForUnacceptableMatches. apply issues_of_none. intros x Hx. simpl in Hx.
    destruct (hospital_view h x (S2 x Hx)) as [o [E _]].
    rewrite (bind_ok _ _ _ _ _ (load_at _ _ _ _ E)).
    apply Hospital_acceptable; [now apply S2|]. now destruct (S5 x Hx) as [_ [A _]]. }
  assert (E3 : checkForOversubscribedPlayers (HospitalResident.hospitals g) h = (Ok [], h)).
  { unfold checkForOversubscribedPlayers. apply issues_of_none. intros x Hx.
    rewrite (bind_ok _ _ _ _ _ (Hospital_not_oversubscribed h x (S2 x Hx)
                                   (proj1 (proj2 (proj2 (S5 x Hx)))))).
    reflexivity. }
  rewrite (bind_ok _ _ _ _ _ E1), (bind_ok _ _ _ _ _ E2), (bind_ok _ _ _ _ _ E3).
  reflexivity.
Qed.

Lemma prefers_hospital_value (h : heap) (v a b : value) (o : list value) :
  is_hospital h v = true -> originalPrefs_at h v = Some o ->
  prefers v a b h = (Ok (indexOf o a <? indexOf o b)%Z, h).
Proof.
  intros Hv Ho. destruct (hospital_view h v Hv) as [x [E _]].
  unfold originalPrefs_at in Ho. rewrite E in Ho.
  unfold prefers. rewrite (bind_ok _ _ _ _ _ (load_at _ _ _ _ E)).
  unfold prefers_in. rewrite Ho. reflexivity.
Qed.

Lemma someM_none {A : Type} (f : A -> M bool) (l : list A) (h : heap) :
  (forall m, In m l -> f m h = (Ok false, h)) -> someM f l h = (Ok false, h).
Proof.
  induction l as [|m l IH]; intros H; simpl; [reflexivity|].
  rewrite (bind_ok _ _ _ _ _ (H m (or_introl eq_refl))).
  apply IH. intros y Hy. apply H. now right.
Qed.

(** In a state the hospital-optimal algorithm leaves, with original
    rankings recorded for the residents and hospitals' lists that are
    their original rankings with entries deleted, no resident and
    hospital that still rank each other block the matching. *)
Lemma HO_solved_no_blocking (h : heap) (Rs Hs : list value) (r x : value) :
  HO_solved h Rs Hs ->
  (forall r, In r Rs -> porig h r <> None) ->
  (forall x, In x Hs ->
     exists o, originalPrefs_at h x = Some o
       /\ forall a b, In a (hprefs h x) -> In b (hprefs h x) ->
            (indexOf (hprefs h x) a <= indexOf (hprefs h x) b)%Z ->
            (indexOf o a <= indexOf o b)%Z) ->
  In r Rs -> In x Hs ->
  HR_blocks r x h = (Ok false, h).
Proof.
  intros [S1 [S2 [S3 [S4 [S5 S6]]]]] OrigR Ord Hr Hx.
  assert (Emut : checkMutualPreference r x h
                 = (Ok (includes (hprefs h x) r && includes (pprefs h r) x), h)).
  { unfold checkMutualPreference, andM.
    rewrite (bind_ok _ _ _ _ _ (prefs_include_hospital "prefs" h x r (S2 x Hx))).
    destruct (includes (hprefs h x) r); [|reflexivity].
    apply (prefs_include_player "prefs" h r x (S1 r Hr)). }
  unfold HR_blocks, andM at 1. rewrite (bind_ok _ _ _ _ _ Emut).
  destruct (includes (hprefs h x) r) eqn:I1; [|reflexivity].
  apply includes_In in I1.
  assert (I2 : In x (pprefs h r)) by now apply (S4 r x Hr Hx).
  apply includes_In in I2 as I2'. rewrite I2'. cbn [andb].
  destruct (player_view h r (S1 r Hr)) as [p [E [Pp Pm]]].
  destruct (porig h r) as [o|] eqn:Eo; [|now destruct (OrigR r Hr)].
  assert (Eun : checkResidentUnhappy r x h
                = (Ok (if value_eqb (pmatching h r) null then true
                       else (indexOf o x <? indexOf o (pmatching h r))%Z), h)).
  { unfold checkResidentUnhappy.
    rewrite (bind_ok _ _ _ _ _ (getPlayer_at _ _ _ _ E)). rewrite <- Pm.
    destruct (value_eqb (pmatching h r) null); [reflexivity|].
    apply (prefers_player_value h r x (pmatching h r) o (S1 r Hr) Eo). }
  unfold andM. rewrite (bind_ok _ _ _ _ _ Eun).
  destruct (S5 x Hx) as [_ [Inc [_ [_ [Prefix Full]]]]].
  destruct (includes (hmatching h x) r) eqn:Held.
  - (* the hospital holds the resident *)
    apply includes_In in Held. apply (S3 r x Hr Hx) in Held. rewrite Held.
    assert (Hn : x <> null) by now apply (is_hospital_not_null h x (S2 x Hx)).
    destruct (value_eqb_spec x null) as [|_]; [contradiction|].
    now rewrite Z.ltb_irrefl.
  - (* the hospital is full of residents it ranks before this one *)
    apply includes_not_In in Held.
    match goal with |- (if ?b then _ else _) _ = _ => destruct b end; [|reflexivity].
    unfold checkHospitalUnhappy.
    destruct (getHospital_view "matching" h x (S2 x Hx)) as [ob [Eh [_ [Em Ec]]]].
    rewrite (bind_ok _ _ _ _ _ Eh). rewrite Em, Ec.
    destruct (Z.ltb_spec (Z.of_nat (List.length (hmatching h x))) (hcapacity h x)) as [L|_].
    { exfalso. apply Held. now apply (Full L). }
    apply someM_none. intros m Hm.
    destruct (Ord x Hx) as [oh [Eoh Emb]].
    rewrite (prefers_hospital_value h x r m oh (S2 x Hx) Eoh).
    assert (Lt : (indexOf (hprefs h x) m < indexOf (hprefs h x) r)%Z)
      by now apply Prefix.
    assert (Le : (indexOf oh m <= indexOf oh r)%Z).
    { apply Emb; [now apply Inc|exact I1|lia]. }
    apply Z.ltb_ge in Le. now rewrite Le.
Qed.

(** X18. Hospital-Resident, hospital-optimal: for a consistent game
    (well typed and unmatched, capacities of at least one, parties and
    rankings without repetition, rankings reciprocated),
    [solve('hospital')] returns without an error once it has fuel for
    [m + 2 * (n + n * m)] iterations of its loop, [n] residents and [m]
    hospitals.  The matching it stores has the hospitals as keys, in
    order, each with the residents it holds.  A resident holds a
    hospital exactly when the hospital holds the resident; a hospital
    holds residents it still ranks, each once, at most [capacity] of
    them, and ranks them before everyone else left on its list; a
    hospital with a free place holds everyone left on its list; a
    matched resident holds the last hospital left on its list. *)
Theorem HospitalResident_solve_hospital_optimal
    (g : HospitalResident.t) (h : heap) (fuel : nat) :
  HR_consistent h (HospitalResident.residents g) (HospitalResident.hospitals g) = true ->
  List.length (HospitalResident.hospitals g)
    + 2 * (List.length (HospitalResident.residents g)
           + List.length (HospitalResident.residents g)
             * List.length (HospitalResident.hospitals g))
    <= fuel ->
  exists g' h' m,
    HospitalResident_solve fuel g hospital_optimal h = (Ok g', h')
    /\ HospitalResident.matching g' = Some m
    /\ HospitalResident.residents g' = HospitalResident.residents g
    /\ HospitalResident.hospitals g' = HospitalResident.hospitals g
    /\ map fst m = HospitalResident.hospitals g
    /\ (forall x, In x (HospitalResident.hospitals g) ->
          map_get x m = Some (hmatching h' x))
    /\ HO_solved h' (HospitalResident.residents g) (HospitalResident.hospitals g).
Proof.
  intros C Hfuel.
  destruct (HospitalResident_solve_hospital_solved g h fuel C Hfuel) as [h' [E [Sol _]]].
  eexists. exists h'. eexists. split; [exact E|]. simpl.
  split; [reflexivity|]. split; [reflexivity|]. split; [reflexivity|].
  split; [|split; [|exact Sol]].
  - rewrite map_map. simpl. apply map_id.
  - intros x Hx. rewrite map_get_entries.
    apply includes_In in Hx. now rewrite Hx.
Qed.

Lemma HospitalResident_solve_hospital_optimal_witness :
  HR_consistent hr_example_heap hr_example_residents hr_example_hospitals = true
  /\ exists g' h' m,
       HospitalResident_solve 20 hr_example_game hospital_optimal hr_example_heap = (Ok g', h')
       /\ HospitalResident.matching g' = Some m
       /\ HospitalResident.residents g' = hr_example_residents
       /\ HospitalResident.hospitals g' = hr_example_hospitals
       /\ map fst m = hr_example_hospitals
       /\ (forall x, In x hr_example_hospitals -> map_get x m = Some (hmatching h' x))
       /\ HO_solved h' hr_example_residents hr_example_hospitals.
Proof.
  split; [vm_compute; reflexivity|].
  apply (HospitalResident_solve_hospital_optimal hr_example_game hr_example_heap 20).
  - vm_compute. reflexivity.
  - vm_compute. lia.
Defined.

(** X19. Hospital-Resident: the game [solve('hospital')] leaves (same
    hypotheses as for X18) passes [checkValidity]: it returns [true]
    instead of throwing a [MatchingError], and changes nothing. *)
Theorem HospitalResident_hospital_optimal_is_valid
    (g : HospitalResident.t) (h : heap) (fuel : nat) :
  HR_consistent h (HospitalResident.residents g) (HospitalResident.hospitals g) = true ->
  List.length (HospitalResident.hospitals g)
    + 2 * (List.length (HospitalResident.residents g)
           + List.length (HospitalResident.residents g)
             * List.length (HospitalResident.hospitals g))
    <= fuel ->
  exists g' h',
    HospitalResident_solve fuel g hospital_optimal h = (Ok g', h')
    /\ HospitalResident_checkValidity g' h' = (Ok true, h').
Proof.
  intros C Hfuel.
  destruct (HospitalResident_solve_hospital_solved g h fuel C Hfuel) as [h' [E [Sol _]]].
  eexists. exists h'. split; [exact E|]. now apply HO_solved_valid.
Qed.

Lemma HospitalResident_hospital_optimal_is_valid_witness :
  HR_consistent hr_example_heap hr_example_residents hr_example_hospitals = true
  /\ exists g' h',
       HospitalResident_solve 20 hr_example_game hospital_optimal hr_example_heap = (Ok g', h')
       /\ HospitalResident_checkValidity g' h' = (Ok true, h').
Proof.
  split; [vm_compute; reflexivity|].
  apply (HospitalResident_hospital_optimal_is_valid hr_example_game hr_example_heap 20).
  - vm_compute. reflexivity.
  - vm_compute. lia.
Defined.

(** [checkValidity] and [checkStability] after [solve('hospital')]. *)
Lemma HR_hospital_solve_stable (g : HospitalResident.t) (h : heap) (fuel : nat) :
  HR_consistent h (HospitalResident.residents g) (HospitalResident.hospitals g) = true ->
  HR_rankings_kept h (HospitalResident.residents g) = true ->
  HR_hospital_rankings_kept h (HospitalResident.hospitals g) = true ->
  List.length (HospitalResident.hospitals g)
    + 2 * (List.length (HospitalResident.residents g)
           + List.length (HospitalResident.residents g)
             * List.length (HospitalResident.hospitals g))
    <= fuel ->
  exists g' h',
    HospitalResident_solve fuel g hospital_optimal h = (Ok g', h')
    /\ HospitalResident_checkValidity g' h' = (Ok true, h')
    /\ HospitalResident_checkStability g' h'
       = (Ok (true, HospitalResident.mk (HospitalResident.residents g')
                      (HospitalResident.hospitals g') (HospitalResident.clean g')
                      (HospitalResident.matching g') (Some [])
                      (HospitalResident._allResidents g')
                      (HospitalResident._allHospitals g')), h').
Proof.
  intros C K KH Hfuel.
  destruct (HospitalResident_solve_hospital_solved g h fuel C Hfuel)
    as [h' [E [Sol [Orig [_ KeepH]]]]].
  eexists. exists h'. split; [exact E|]. split; [now apply HO_solved_valid|].
  unfold HospitalResident_checkStability. simpl.
  assert (OrigR : forall r, In r (HospitalResident.residents g) -> porig h' r <> None).
  { intros r Hr. pose proof (forallb_In _ _ r K Hr) as Kr. simpl in Kr.
    destruct (HR_consistent_inv _ _ _ C) as [_ [[I1 _] _]]. destruct (I1 r Hr) as [Pl _].
    destruct Sol as [S1 _]. specialize (S1 r Hr).
    destruct (player_view h r Pl) as [p [Ep _]].
    destruct (player_view h' r S1) as [p' [Ep' _]].
    destruct (Orig r) as [Eo _]. unfold originalPrefs_at in Eo. rewrite Ep, Ep' in Eo.
    unfold porig in *. rewrite Ep in Kr. rewrite Ep', Eo.
    destruct (Player._originalPrefs p); [discriminate|discriminate]. }
  assert (Ord : forall x, In x (HospitalResident.hospitals g) ->
            exists o, originalPrefs_at h' x = Some o
              /\ forall a b, In a (hprefs h' x) -> In b (hprefs h' x) ->
                   (indexOf (hprefs h' x) a <= indexOf (hprefs h' x) b)%Z ->
                   (indexOf o a <= indexOf o b)%Z).
  { intros x Hx. destruct (KeepH x Hx) as [f Ef].
    pose proof (forallb_In _ _ x KH Hx) as Kx. simpl in Kx.
    destruct (originalPrefs_at h x) as [o|] eqn:Eox; [|discriminate].
    exists o. split; [destruct (Orig x) as [Eo _]; congruence|].
    exact (kept_order o _ _ f Kx Ef). }
  rewrite (bind_ok _ _ _ _ _
             (blocking_outer_none HR_blocks _ _ h'
                (fun r x Hr Hx => HO_solved_no_blocking h' _ _ r x Sol OrigR Ord Hr Hx) [])).
  reflexivity.
Qed.

(** X20. Hospital-Resident: after [solve('hospital')] on a consistent
    game in which the lists of residents and hospitals are their
    original rankings with entries deleted, [checkStability] returns
    [true] and records an empty list of blocking pairs. *)
Theorem HospitalResident_hospital_optimal_is_stable
    (g : HospitalResident.t) (h : heap) (fuel : nat) :
  HR_consistent h (HospitalResident.residents g) (HospitalResident.hospitals g) = true ->
  HR_rankings_kept h (HospitalResident.residents g) = true ->
  HR_hospital_rankings_kept h (HospitalResident.hospitals g) = true ->
  List.length (HospitalResident.hospitals g)
    + 2 * (List.length (HospitalResident.residents g)
           + List.length (HospitalResident.residents g)
             * List.length (HospitalResident.hospitals g))
    <= fuel ->
  exists g' h',
    HospitalResident_solve fuel g hospital_optimal h = (Ok g', h')
    /\ HospitalResident_checkStability g' h'
       = (Ok (true, HospitalResident.mk (HospitalResident.residents g')
                      (HospitalResident.hospitals g') (HospitalResident.clean g')
                      (HospitalResident.matching g') (Some [])
                      (HospitalResident._allResidents g')
                      (HospitalResident._allHospitals g')), h').
Proof.
  intros C K KH Hfuel.
  destruct (HR_hospital_solve_stable g h fuel C K KH Hfuel) as [g' [h' [E [_ St]]]].
  exists g', h'. now split.
Qed.

Lemma HospitalResident_hospital_optimal_is_stable_witness :
  HR_consistent hr_example_heap hr_example_residents hr_example_hospitals = true
  /\ HR_rankings_kept hr_example_heap hr_example_residents = true
  /\ HR_hospital_rankings_kept hr_example_heap hr_example_hospitals = true
  /\ exists g' h',
       HospitalResident_solve 20 hr_example_game hospital_optimal hr_example_heap = (Ok g', h')
       /\ HospitalResident_checkStability g' h'
          = (Ok (true, HospitalResident.mk (HospitalResident.residents g')
                         (HospitalResident.hospitals g') (HospitalResident.clean g')
                         (HospitalResident.matching g') (Some [])
                         (HospitalResident._allResidents g')
                         (HospitalResident._allHospitals g')), h').
Proof.
  split; [vm_compute; reflexivity|]. split; [vm_compute; reflexivity|].
  split; [vm_compute; reflexivity|].
  apply (HospitalResident_hospital_optimal_is_stable hr_example_game hr_example_heap 20).
  - vm_compute. reflexivity.
  - vm_compute. reflexivity.
  - vm_compute. reflexivity.
  - vm_compute. lia.
Defined.

(* ================================================================== *)
(** ** Hospital-Resident: from the constructor to the checks *)
(* ================================================================== *)

(** X21. Hospital-Resident, end to end: when the constructor is given
    every resident and every hospital once, runs with [clean] off and
    logs no warning, [solve] returns for either party once it has fuel
    for [m + 2 * (n + n * m)] iterations, [n] residents and [m]
    hospitals, and the solved game passes both checks: [checkValidity]
    returns [true], and [checkStability] returns [true] and records an
    empty list of blocking pairs. *)
Theorem HospitalResident_quiet_game_solves_stably
    (residents0 hospitals0 : list value) (c : heap) (g : HospitalResident.t) (h : heap)
    (optimal : HROptimal) (fuel : nat) :
  nodupb residents0 = true -> nodupb hospitals0 = true ->
  HospitalResident_new residents0 hospitals0 false c = (Ok (g, []), h) ->
  List.length hospitals0
    + 2 * (List.length residents0 + List.length residents0 * List.length hospitals0)
    <= fuel ->
  exists g' h',
    HospitalResident_solve fuel g optimal h = (Ok g', h')
    /\ HospitalResident_checkValidity g' h' = (Ok true, h')
    /\ HospitalResident_checkStability g' h'
       = (Ok (true, HospitalResident.mk (HospitalResident.residents g')
                      (HospitalResident.hospitals g') (HospitalResident.clean g')
                      (HospitalResident.matching g') (Some [])
                      (HospitalResident._allResidents g')
                      (HospitalResident._allHospitals g')), h').
Proof.
  intros NR NH E0 Hfuel.
  destruct (HospitalResident_new_quiet_facts _ _ _ _ _ NR NH E0) as [C [ER EH]].
  destruct (rankings_kept_of_equal _ _ _ C ER EH) as [K KH].
  assert (Len : List.length (HospitalResident.residents g) = List.length residents0
                /\ List.length (HospitalResident.hospitals g) = List.length hospitals0).
  { unfold HospitalResident_new in E0.
    apply bind_Ok_inv in E0. destruct E0 as [rm [h1 [E1 E]]].
    apply bind_Ok_inv in E. destruct E as [hm [h2 [E2 E]]].
    apply bind_Ok_inv in E. destruct E as [[] [h3 [E3 E]]].
    apply bind_Ok_inv in E. destruct E as [[] [h4 [E4 E]]].
    apply HR_checkInputs_quiet in E; [|reflexivity]. destruct E as [_ [G _]].
    simpl in G. subst g. simpl. now rewrite !length_map. }
  destruct Len as [Lr Lh].
  destruct optimal.
  - apply HR_resident_solve_stable; auto. rewrite Lr, Lh. lia.
  - apply HR_hospital_solve_stable; auto. rewrite Lr, Lh. lia.
Qed.

Lemma HospitalResident_quiet_game_solves_stably_witness :
  exists g' h',
    HospitalResident_solve 20 hr_example_game hospital_optimal hr_example_heap = (Ok g', h')
    /\ HospitalResident_checkValidity g' h' = (Ok true, h')
    /\ HospitalResident_checkStability g' h'
       = (Ok (true, HospitalResident.mk (HospitalResident.residents g')
                      (HospitalResident.hospitals g') (HospitalResident.clean g')
                      (HospitalResident.matching g') (Some [])
                      (HospitalResident._allResidents g')
                      (HospitalResident._allHospitals g')), h').
Proof.
  apply (HospitalResident_quiet_game_solves_stably
           [ref 0; ref 1; ref 2] [ref 3; ref 4] hr_caller_heap hr_example_game
           hr_example_heap hospital_optimal 20).
  - reflexivity.
  - reflexivity.
  - reflexivity.
  - vm_compute. lia.
Defined.

(* ================================================================== *)
(** ** Student-Allocation: the student-optimal algorithm *)
(* ================================================================== *)

(** *** The entity methods, as total operations on the views *)

Lemma hclass_obj (h : heap) (v : value) (k : hospital_class) :
  hclass h v = Some k ->
  exists a x, v = ref a /\ nth_error h a = Some (HospitalObj x) /\ Hospital.cls x = k.
Proof.
  unfold hclass. destruct v as [| |a]; simpl; try discriminate.
  destruct (nth_error h a) as [[p|x]|] eqn:E; try discriminate.
  intros H. injection H as <-. eauto.
Qed.

Lemma is_project_obj (h : heap) (v : value) :
  is_project h v = true ->
  exists a x, v = ref a /\ nth_error h a = Some (HospitalObj x)
              /\ Hospital.cls x = IsProject.
Proof.
  unfold is_project. destruct (hclass h v) as [[| |]|] eqn:E; try discriminate.
  intros _. now apply hclass_obj.
Qed.

Lemma is_supervisor_obj (h : heap) (v : value) :
  is_supervisor h v = true ->
  exists a x, v = ref a /\ nth_error h a = Some (HospitalObj x)
              /\ Hospital.cls x = IsSupervisor.
Proof.
  unfold is_supervisor. destruct (hclass h v) as [[| |]|] eqn:E; try discriminate.
  intros _. now apply hclass_obj.
Qed.

Ltac sa_views a En :=
  repeat split; intros v;
  unfold pmatching, pprefs, is_player, hmatching, hprefs, hcapacity, hclass,
    hsupervisor, hprojects;
  (destruct (value_eqb_spec v (ref a)) as [->|N];
   [rewrite (obj_at_upd_same _ _ _ _ En); simpl; rewrite ?En; reflexivity
   |rewrite obj_at_upd_other; auto]).

Lemma SA_frame_refl (h : heap) : SA_frame h h.
Proof. repeat split. Qed.

Lemma SA_frame_trans (h1 h2 h3 : heap) :
  SA_frame h1 h2 -> SA_frame h2 h3 -> SA_frame h1 h3.
Proof.
  intros [A1 [A2 [A3 [A4 A5]]]] [B1 [B2 [B3 [B4 B5]]]].
  repeat split; intros v;
    [rewrite B1|rewrite B2|rewrite B3|rewrite B4|rewrite B5]; auto.
Qed.

Lemma SA_frame_project (h h' : heap) (v : value) :
  SA_frame h h' -> is_project h' v = is_project h v.
Proof. intros [_ [F _]]. unfold is_project. now rewrite F. Qed.

Lemma SA_frame_supervisor (h h' : heap) (v : value) :
  SA_frame h h' -> is_supervisor h' v = is_supervisor h v.
Proof. intros [_ [F _]]. unfold is_supervisor. now rewrite F. Qed.

(** A student. *)
Lemma s_unmatch_total (a arg : value) (h : heap) :
  is_player h a = true ->
  exists h', _unmatch a arg h = (Ok tt, h') /\ SA_frame h h'
    /\ (forall v, pmatching h' v = if value_eqb v a then null else pmatching h v)
    /\ (forall v, pprefs h' v = pprefs h v)
    /\ (forall v, hprefs h' v = hprefs h v)
    /\ (forall v, hmatching h' v = hmatching h v).
Proof.
  intros H. destruct (is_player_obj _ _ H) as [n [p [-> En]]].
  eexists. split; [apply (unmatch_player _ _ _ _ En)|]. sa_views n En.
Qed.

Lemma s_match_total (a b : value) (h : heap) :
  is_player h a = true ->
  exists h', _match a b h = (Ok tt, h') /\ SA_frame h h'
    /\ (forall v, pmatching h' v = if value_eqb v a then b else pmatching h v)
    /\ (forall v, pprefs h' v = pprefs h v)
    /\ (forall v, hprefs h' v = hprefs h v)
    /\ (forall v, hmatching h' v = hmatching h v).
Proof.
  intros H. destruct (is_player_obj _ _ H) as [n [p [-> En]]].
  eexists. split; [apply (match_player _ _ _ _ En)|]. sa_views n En.
Qed.

Lemma s_forget_total (a b : value) (h : heap) :
  is_player h a = true ->
  exists h', _forget a b h = (Ok tt, h') /\ SA_frame h h'
    /\ (forall v, pmatching h' v = pmatching h v)
    /\ (forall v, pprefs h' v
                  = if value_eqb v a then remove_value b (pprefs h v) else pprefs h v)
    /\ (forall v, hprefs h' v = hprefs h v)
    /\ (forall v, hmatching h' v = hmatching h v).
Proof.
  intros H. destruct (is_player_obj _ _ H) as [n [p [-> En]]].
  eexists. split; [apply (forget_player _ _ _ _ En)|]. sa_views n En.
Qed.

(** A capacitated entity of any class, updated in place. *)
Lemma g_match_total (x r : value) (h : heap) :
  hclass h x <> None ->
  exists h', Hospital_match x r h = (Ok tt, h') /\ SA_frame h h'
    /\ (forall v, pmatching h' v = pmatching h v)
    /\ (forall v, pprefs h' v = pprefs h v)
    /\ (forall v, hprefs h' v = hprefs h v)
    /\ (forall v, hmatching h' v
                  = if value_eqb v x
                    then sort_by (indexOf (hprefs h v)) (hmatching h v ++ [r])
                    else hmatching h v).
Proof.
  intros H. destruct (hclass h x) as [k|] eqn:K; [|congruence].
  destruct (hclass_obj _ _ _ K) as [n [o [-> [En _]]]].
  eexists. split.
  { unfold Hospital_match. rewrite (bind_ok _ _ _ _ _ (getHospital_at _ (ref n) h o En)).
    reflexivity. }
  sa_views n En.
Qed.

Lemma g_unmatch_total (x r : value) (h : heap) :
  hclass h x <> None ->
  exists h', Hospital_unmatch x r h = (Ok tt, h') /\ SA_frame h h'
    /\ (forall v, pmatching h' v = pmatching h v)
    /\ (forall v, pprefs h' v = pprefs h v)
    /\ (forall v, hprefs h' v = hprefs h v)
    /\ (forall v, hmatching h' v
                  = if value_eqb v x then remove_value r (hmatching h v) else hmatching h v).
Proof.
  intros H. destruct (hclass h x) as [k|] eqn:K; [|congruence].
  destruct (hclass_obj _ _ _ K) as [n [o [-> [En _]]]].
  eexists. split.
  { unfold Hospital_unmatch. rewrite (bind_ok _ _ _ _ _ (getHospital_at _ (ref n) h o En)).
    reflexivity. }
  sa_views n En.
Qed.

Lemma hclass_view (h : heap) (v : value) :
  hclass h v <> None ->
  exists o, obj_at h v = Some (HospitalObj o)
            /\ hprefs h v = Hospital.prefs o /\ hmatching h v = Hospital.matching o
            /\ hcapacity h v = Hospital.capacity o
            /\ hsupervisor h v = Hospital.supervisor o
            /\ hprojects h v = Hospital.projects o
            /\ hclass h v = Some (Hospital.cls o).
Proof.
  unfold hclass, hprefs, hmatching, hcapacity, hsupervisor, hprojects.
  destruct (obj_at h v) as [[p|x]|]; try congruence. intros _. exists x. repeat split.
Qed.

Lemma prefs_include_capacitated (site : string) (h : heap) (x r : value) :
  hclass h x <> None ->
  prefs_include site x r h = (Ok (includes (hprefs h x) r), h).
Proof.
  intros Hx. destruct (hclass_view h x Hx) as [o [E [Ep _]]].
  unfold prefs_include. rewrite (bind_ok _ _ _ _ _ (load_at _ _ _ _ E)).
  simpl. now rewrite Ep.
Qed.

Lemma someM_existsb (f : value -> M bool) (g : value -> bool) (l : list value) (h : heap) :
  (forall x, In x l -> f x h = (Ok (g x), h)) ->
  someM f l h = (Ok (existsb g l), h).
Proof.
  induction l as [|x l IH]; intros H; simpl; [reflexivity|].
  rewrite (bind_ok _ _ _ _ _ (H x (or_introl eq_refl))).
  destruct (g x); [reflexivity|]. apply IH. intros y Hy. apply H. now right.
Qed.

(** [supervisor._forget(student)]: the student goes only if none of the
    supervisor's projects ranks it. *)
Lemma u_forget_total (u s : value) (h : heap) :
  hclass h u <> None ->
  (forall q, In q (hprojects h u) -> hclass h q <> None) ->
  exists h', Supervisor_forget u s h = (Ok tt, h') /\ SA_frame h h'
    /\ (forall v, pmatching h' v = pmatching h v)
    /\ (forall v, pprefs h' v = pprefs h v)
    /\ (forall v, hmatching h' v = hmatching h v)
    /\ (forall v, hprefs h' v
                  = if value_eqb v u
                       && negb (existsb (fun q => includes (hprefs h q) s) (hprojects h u))
                    then remove_value s (hprefs h v) else hprefs h v).
Proof.
  intros H Hq. destruct (hclass h u) as [k|] eqn:K; [|congruence].
  destruct (hclass_obj _ _ _ K) as [n [o [-> [En _]]]].
  assert (Eprojects : hprojects h (ref n) = Hospital.projects o)
    by (unfold hprojects; simpl; now rewrite En).
  assert (Eprefs : hprefs h (ref n) = Hospital.prefs o)
    by (unfold hprefs; simpl; now rewrite En).
  unfold Supervisor_forget.
  rewrite (bind_ok _ _ _ _ _ (getHospital_at _ (ref n) h o En)).
  rewrite (bind_ok _ _ _ _ _
             (someM_existsb _ (fun q => includes (hprefs h q) s) _ h
                (fun q Hin => prefs_include_capacitated "prefs" h q s
                                (Hq q (eq_ind_r (fun l => In q l) Hin Eprojects))))).
  rewrite <- Eprojects, <- Eprefs.
  destruct (existsb (fun q => includes (hprefs h q) s) (hprojects h (ref n))) eqn:Ex.
  - rewrite andb_false_r. exists h. split; [reflexivity|]. split; [apply SA_frame_refl|].
    repeat split; auto. intros v. now rewrite andb_false_r.
  - rewrite andb_true_r. destruct (includes (hprefs h (ref n)) s) eqn:I.
    + eexists. split; [reflexivity|]. sa_views n En.
    + exists h. split; [reflexivity|]. split; [apply SA_frame_refl|].
      repeat split; auto. intros v. rewrite andb_true_r.
      destruct (value_eqb_spec v (ref n)) as [->|N]; [|reflexivity].
      apply includes_not_In in I. now rewrite remove_value_absent.
Qed.

(** *** A project forwards to its supervisor *)

Lemma existsb_ext_in {A : Type} (f g : A -> bool) (l : list A) :
  (forall x, In x l -> f x = g x) -> existsb f l = existsb g l.
Proof.
  induction l as [|x l IH]; intros H; simpl; [reflexivity|].
  rewrite (H x (or_introl eq_refl)), IH; [reflexivity|]. intros y Hy. apply H. now right.
Qed.

Lemma includes_remove_value_same (s : value) (l : list value) :
  includes (remove_value s l) s = false.
Proof. apply includes_not_In. intros H. apply remove_value_In in H. now destruct H. Qed.

Lemma project_not_supervisor (h : heap) (p u : value) :
  is_project h p = true -> is_supervisor h u = true -> p <> u.
Proof.
  unfold is_project, is_supervisor. intros Hp Hu ->.
  destruct (hclass h u) as [[| |]|]; discriminate.
Qed.

Lemma is_project_class (h : heap) (p : value) : is_project h p = true -> hclass h p <> None.
Proof. unfold is_project. destruct (hclass h p); [discriminate|discriminate]. Qed.

Lemma is_supervisor_class (h : heap) (u : value) :
  is_supervisor h u = true -> hclass h u <> None.
Proof. unfold is_supervisor. destruct (hclass h u); [discriminate|discriminate]. Qed.

Lemma truthy_class (h : heap) (v : value) : hclass h v <> None -> truthy v = true.
Proof.
  intros H. destruct (hclass h v) as [k|] eqn:K; [|congruence].
  destruct (hclass_obj _ _ _ K) as [a [x [-> _]]]. reflexivity.
Qed.

Lemma match_project_eq (p s u : value) (h : heap) :
  is_project h p = true -> hsupervisor h p = u -> truthy u = true ->
  _match p s h = (Hospital_match p s ;; Hospital_match u s) h.
Proof.
  intros Hp Hu T. destruct (is_project_obj _ _ Hp) as [a [x [-> [En C]]]].
  unfold hsupervisor in Hu. simpl in Hu. rewrite En in Hu. subst u.
  unfold _match, Hospital_match, getHospital, bind, load. rewrite En. simpl.
  rewrite C, T. reflexivity.
Qed.

Lemma unmatch_project_eq (p s u : value) (h : heap) :
  is_project h p = true -> hsupervisor h p = u -> truthy u = true ->
  _unmatch p s h = (Hospital_unmatch p s ;; Hospital_unmatch u s) h.
Proof.
  intros Hp Hu T. destruct (is_project_obj _ _ Hp) as [a [x [-> [En C]]]].
  unfold hsupervisor in Hu. simpl in Hu. rewrite En in Hu. subst u.
  unfold _unmatch, Hospital_unmatch, getHospital, bind, load. rewrite En. simpl.
  rewrite C, T. reflexivity.
Qed.

(** [project._match(student)] *)
Lemma p_match_total (p s u : value) (h : heap) :
  is_project h p = true -> hsupervisor h p = u -> is_supervisor h u = true ->
  exists h', _match p s h = (Ok tt, h') /\ SA_frame h h'
    /\ (forall v, pmatching h' v = pmatching h v)
    /\ (forall v, pprefs h' v = pprefs h v)
    /\ (forall v, hprefs h' v = hprefs h v)
    /\ (forall v, hmatching h' v
                  = if value_eqb v p || value_eqb v u
                    then sort_by (indexOf (hprefs h v)) (hmatching h v ++ [s])
                    else hmatching h v).
Proof.
  intros Hp Hu Hs. pose proof (project_not_supervisor h p u Hp Hs) as Npu.
  rewrite (match_project_eq p s u h Hp Hu
             (truthy_class h u (is_supervisor_class h u Hs))).
  destruct (g_match_total p s h (is_project_class h p Hp)) as [h1 [E1 [F1 [A1 [B1 [C1 D1]]]]]].
  rewrite (bind_ok _ _ _ _ _ E1).
  assert (Hu1 : hclass h1 u <> None).
  { destruct F1 as [_ [F _]]. rewrite F. now apply is_supervisor_class. }
  destruct (g_match_total u s h1 Hu1) as [h2 [E2 [F2 [A2 [B2 [C2 D2]]]]]].
  exists h2. split; [exact E2|]. split; [exact (SA_frame_trans _ _ _ F1 F2)|].
  repeat split; intros v.
  - now rewrite A2, A1.
  - now rewrite B2, B1.
  - now rewrite C2, C1.
  - rewrite D2, D1, C1.
    destruct (value_eqb_spec v u) as [->|Nu].
    + destruct (value_eqb_spec u p) as [E|_]; [congruence|]. now rewrite orb_true_r.
    + now rewrite orb_false_r.
Qed.

(** [project._unmatch(student)] *)
Lemma p_unmatch_total (p s u : value) (h : heap) :
  is_project h p = true -> hsupervisor h p = u -> is_supervisor h u = true ->
  exists h', _unmatch p s h = (Ok tt, h') /\ SA_frame h h'
    /\ (forall v, pmatching h' v = pmatching h v)
    /\ (forall v, pprefs h' v = pprefs h v)
    /\ (forall v, hprefs h' v = hprefs h v)
    /\ (forall v, hmatching h' v
                  = if value_eqb v p || value_eqb v u
                    then remove_value s (hmatching h v) else hmatching h v).
Proof.
  intros Hp Hu Hs. pose proof (project_not_supervisor h p u Hp Hs) as Npu.
  rewrite (unmatch_project_eq p s u h Hp Hu
             (truthy_class h u (is_supervisor_class h u Hs))).
  destruct (g_unmatch_total p s h (is_project_class h p Hp))
    as [h1 [E1 [F1 [A1 [B1 [C1 D1]]]]]].
  rewrite (bind_ok _ _ _ _ _ E1).
  assert (Hu1 : hclass h1 u <> None).
  { destruct F1 as [_ [F _]]. rewrite F. now apply is_supervisor_class. }
  destruct (g_unmatch_total u s h1 Hu1) as [h2 [E2 [F2 [A2 [B2 [C2 D2]]]]]].
  exists h2. split; [exact E2|]. split; [exact (SA_frame_trans _ _ _ F1 F2)|].
  repeat split; intros v.
  - now rewrite A2, A1.
  - now rewrite B2, B1.
  - now rewrite C2, C1.
  - rewrite D2, D1.
    destruct (value_eqb_spec v u) as [->|Nu].
    + destruct (value_eqb_spec u p) as [E|_]; [congruence|]. now rewrite orb_true_r.
    + now rewrite orb_false_r.
Qed.

(** [project._forget(student)] *)
Lemma p_forget_total (p s u : value) (h : heap) :
  is_project h p = true -> hsupervisor h p = u -> is_supervisor h u = true ->
  (forall q, In q (hprojects h u) -> hclass h q <> None) ->
  exists h', _forget p s h = (Ok tt, h') /\ SA_frame h h'
    /\ (forall v, pmatching h' v = pmatching h v)
    /\ (forall v, pprefs h' v = pprefs h v)
    /\ (forall v, hmatching h' v = hmatching h v)
    /\ (forall v, hprefs h' v
                  = if value_eqb v p then remove_value s (hprefs h v)
                    else if value_eqb v u && includes (hprefs h p) s
                            && negb (others_rank h u p s)
                         then remove_value s (hprefs h v)
                         else hprefs h v).
Proof.
  intros Hp Hu Hs Hq. pose proof (project_not_supervisor h p u Hp Hs) as Npu.
  pose proof (truthy_class h u (is_supervisor_class h u Hs)) as T.
  destruct (is_project_obj _ _ Hp) as [a [x [-> [En C]]]].
  assert (Eu : Hospital.supervisor x = u)
    by (unfold hsupervisor in Hu; simpl in Hu; now rewrite En in Hu).
  assert (Ep : hprefs h (ref a) = Hospital.prefs x)
    by (unfold hprefs; simpl; now rewrite En).
  unfold _forget. rewrite (bind_ok _ _ _ _ _ (load_at _ (ref a) h _ En)). rewrite C, <- Ep.
  destruct (includes (hprefs h (ref a)) s) eqn:I.
  - assert (V1 : exists h1,
               store (ref a) (HospitalObj (Hospital._forget s x)) h = (Ok tt, h1)
               /\ SA_frame h h1
               /\ (forall v, pmatching h1 v = pmatching h v)
               /\ (forall v, pprefs h1 v = pprefs h v)
               /\ (forall v, hmatching h1 v = hmatching h v)
               /\ (forall v, hprefs h1 v
                             = if value_eqb v (ref a) then remove_value s (hprefs h v)
                               else hprefs h v)).
    { eexists. split; [reflexivity|]. sa_views a En. }
    destruct V1 as [h1 [E1 [F1 [A1 [B1 [C1 D1]]]]]].
    rewrite (bind_ok _ _ _ _ _ E1). rewrite Eu, T.
    pose proof F1 as [_ [Fc [_ [_ Fp]]]].
    destruct (u_forget_total u s h1) as [h2 [E2 [F2 [A2 [B2 [C2 D2]]]]]].
    { rewrite Fc. now apply is_supervisor_class. }
    { intros q Hin. rewrite Fc. apply Hq. now rewrite <- Fp. }
    exists h2. split; [exact E2|]. split; [exact (SA_frame_trans _ _ _ F1 F2)|].
    repeat split; intros v.
    + now rewrite A2, A1.
    + now rewrite B2, B1.
    + now rewrite C2, C1.
    + rewrite D2, D1, Fp.
      assert (Ex : existsb (fun q => includes (hprefs h1 q) s) (hprojects h u)
                   = others_rank h u (ref a) s).
      { unfold others_rank. apply existsb_ext_in. intros q _. rewrite D1.
        destruct (value_eqb q (ref a)); [apply includes_remove_value_same|reflexivity]. }
      rewrite Ex. destruct (value_eqb_spec v (ref a)) as [->|Nv].
      * destruct (value_eqb_spec (ref a) u) as [E|_]; [congruence|reflexivity].
      * now rewrite andb_true_r.
  - exists h. split; [reflexivity|]. split; [apply SA_frame_refl|].
    repeat split; auto. intros v. rewrite andb_false_r. simpl.
    destruct (value_eqb_spec v (ref a)) as [->|Nv]; [|reflexivity].
    apply includes_not_In in I. now rewrite remove_value_absent.
Qed.

(** *** The pairs *)

Lemma SA_unmatchPair_originals (a b : value) (h : heap) :
  same_originals h (snd (SA_unmatchPair a b h)).
Proof.
  unfold SA_unmatchPair. apply bind_originals; [apply unmatch_originals|].
  intros _ h1. apply unmatch_originals.
Qed.

(** [deletePair(project, student)] *)
Lemma SA_deletePair_total (q s u : value) (h : heap) :
  is_project h q = true -> hsupervisor h q = u -> is_supervisor h u = true ->
  (forall q', In q' (hprojects h u) -> hclass h q' <> None) ->
  is_player h s = true ->
  exists h', deletePair q s h = (Ok tt, h') /\ SA_frame h h'
    /\ (forall v, pmatching h' v = pmatching h v)
    /\ (forall v, hmatching h' v = hmatching h v)
    /\ (forall v, pprefs h' v
                  = if value_eqb v s then remove_value q (pprefs h v) else pprefs h v)
    /\ (forall v, hprefs h' v
                  = if value_eqb v q then remove_value s (hprefs h v)
                    else if value_eqb v u && includes (hprefs h q) s
                            && negb (others_rank h u q s)
                         then remove_value s (hprefs h v)
                         else hprefs h v)
    /\ same_originals h h'.
Proof.
  intros Hq Hu Hs Hp Hst.
  destruct (p_forget_total q s u h Hq Hu Hs Hp) as [h1 [E1 [F1 [A1 [B1 [C1 D1]]]]]].
  assert (Hst1 : is_player h1 s = true) by (destruct F1 as [F _]; now rewrite F).
  destruct (s_forget_total s q h1 Hst1) as [h2 [E2 [F2 [A2 [B2 [C2 D2]]]]]].
  assert (E : deletePair q s h = (Ok tt, h2))
    by (unfold deletePair; now rewrite (bind_ok _ _ _ _ _ E1)).
  exists h2. split; [exact E|]. split; [exact (SA_frame_trans _ _ _ F1 F2)|].
  split; [intros v; now rewrite A2, A1|].
  split; [intros v; now rewrite D2, C1|].
  split; [intros v; now rewrite B2, B1|].
  split; [intros v; now rewrite C2, D1|].
  pose proof (deletePair_originals q s h) as O. now rewrite E in O.
Qed.

(** [matchPair(student, project)] *)
Lemma SA_matchPair_total (s p u : value) (h : heap) :
  is_player h s = true ->
  is_project h p = true -> hsupervisor h p = u -> is_supervisor h u = true ->
  exists h', matchPair s p h = (Ok tt, h') /\ SA_frame h h'
    /\ (forall v, pmatching h' v = if value_eqb v s then p else pmatching h v)
    /\ (forall v, hmatching h' v
                  = if value_eqb v p || value_eqb v u
                    then sort_by (indexOf (hprefs h v)) (hmatching h v ++ [s])
                    else hmatching h v)
    /\ (forall v, pprefs h' v = pprefs h v)
    /\ (forall v, hprefs h' v = hprefs h v)
    /\ same_originals h h'.
Proof.
  intros Hst Hp Hu Hs.
  destruct (s_match_total s p h Hst) as [h1 [E1 [F1 [A1 [B1 [C1 D1]]]]]].
  pose proof F1 as [_ [_ [_ [Fs _]]]].
  destruct (p_match_total p s u h1) as [h2 [E2 [F2 [A2 [B2 [C2 D2]]]]]].
  { now rewrite (SA_frame_project h h1 p F1). }
  { now rewrite Fs. }
  { now rewrite (SA_frame_supervisor h h1 u F1). }
  assert (E : matchPair s p h = (Ok tt, h2))
    by (unfold matchPair; now rewrite (bind_ok _ _ _ _ _ E1)).
  exists h2. split; [exact E|]. split; [exact (SA_frame_trans _ _ _ F1 F2)|].
  split; [intros v; now rewrite A2, A1|].
  split; [intros v; now rewrite D2, D1, C1|].
  split; [intros v; now rewrite B2, B1|].
  split; [intros v; now rewrite C2, C1|].
  pose proof (matchPair_originals s p h) as O. now rewrite E in O.
Qed.

(** [unmatchPair(student, project)] of student-allocation.ts *)
Lemma SA_unmatchPair_total (w p u : value) (h : heap) :
  is_player h w = true ->
  is_project h p = true -> hsupervisor h p = u -> is_supervisor h u = true ->
  exists h', SA_unmatchPair w p h = (Ok tt, h') /\ SA_frame h h'
    /\ (forall v, pmatching h' v = if value_eqb v w then null else pmatching h v)
    /\ (forall v, hmatching h' v
                  = if value_eqb v p || value_eqb v u
                    then remove_value w (hmatching h v) else hmatching h v)
    /\ (forall v, pprefs h' v = pprefs h v)
    /\ (forall v, hprefs h' v = hprefs h v)
    /\ same_originals h h'.
Proof.
  intros Hst Hp Hu Hs.
  destruct (s_unmatch_total w undefined h Hst) as [h1 [E1 [F1 [A1 [B1 [C1 D1]]]]]].
  pose proof F1 as [_ [_ [_ [Fs _]]]].
  destruct (p_unmatch_total p w u h1) as [h2 [E2 [F2 [A2 [B2 [C2 D2]]]]]].
  { now rewrite (SA_frame_project h h1 p F1). }
  { now rewrite Fs. }
  { now rewrite (SA_frame_supervisor h h1 u F1). }
  assert (E : SA_unmatchPair w p h = (Ok tt, h2))
    by (unfold SA_unmatchPair; now rewrite (bind_ok _ _ _ _ _ E1)).
  exists h2. split; [exact E|]. split; [exact (SA_frame_trans _ _ _ F1 F2)|].
  split; [intros v; now rewrite A2, A1|].
  split; [intros v; now rewrite D2, D1|].
  split; [intros v; now rewrite B2, B1|].
  split; [intros v; now rewrite C2, C1|].
  pose proof (SA_unmatchPair_originals w p h) as O. now rewrite E in O.
Qed.

(** *** What every deletion of a pair keeps *)

Lemma others_rank_spec (h : heap) (u q s : value) :
  others_rank h u q s = true
  <-> exists q', In q' (hprojects h u) /\ q' <> q /\ In s (hprefs h q').
Proof.
  unfold others_rank. rewrite existsb_exists. split.
  - intros [q' [Hq' T]]. apply andb_true_iff in T. destruct T as [N I].
    exists q'. split; [exact Hq'|]. split.
    + intros ->. rewrite value_eqb_refl in N. discriminate.
    + now apply includes_In.
  - intros [q' [Hq' [N I]]]. exists q'. split; [exact Hq'|].
    apply andb_true_iff. split; [|now apply includes_In].
    destruct (value_eqb_spec q' q); [contradiction|reflexivity].
Qed.

Section SA_loop.

Variables Sts Ps Us : list value.
Variables O OP OU : value -> list value.
Hypothesis static : SA_static Sts Ps Us O OP OU.

Lemma SA_student_facts (h : heap) (s : value) :
  SA_core Sts Ps Us O OP OU h -> In s Sts ->
  is_player h s = true /\ incl (pprefs h s) Ps /\ NoDup (pprefs h s).
Proof.
  intros St Hs. destruct static as [_ [_ [_ [SO _]]]].
  destruct (sa_students _ _ _ _ _ _ _ St s Hs) as [P [f E]]. destruct (SO s Hs) as [ND In].
  split; [exact P|]. rewrite E. split.
  - intros x Hx. apply In. now apply filter_In in Hx.
  - now apply NoDup_filter.
Qed.

Lemma SA_project_facts (h : heap) (p : value) :
  SA_core Sts Ps Us O OP OU h -> In p Ps ->
  is_project h p = true /\ incl (hprefs h p) Sts /\ NoDup (hprefs h p)
  /\ In (hsupervisor h p) Us /\ is_supervisor h (hsupervisor h p) = true
  /\ In p (hprojects h (hsupervisor h p)).
Proof.
  intros St Hp. destruct static as [_ [_ [_ [_ [SO _]]]]].
  destruct (sa_projects _ _ _ _ _ _ _ St p Hp) as [P [Hu [Hin [_ [f E]]]]].
  destruct (SO p Hp) as [ND In].
  split; [exact P|]. rewrite E. split; [|split; [|split; [|split]]]; auto.
  - intros x Hx. apply In. now apply filter_In in Hx.
  - now apply NoDup_filter.
  - now destruct (sa_supervisors _ _ _ _ _ _ _ St _ Hu).
Qed.

Lemma SA_supervisor_facts (h : heap) (u : value) :
  SA_core Sts Ps Us O OP OU h -> In u Us ->
  is_supervisor h u = true /\ incl (hprefs h u) Sts /\ NoDup (hprefs h u)
  /\ (forall q, In q (hprojects h u) ->
        In q Ps /\ hsupervisor h q = u /\ is_project h q = true).
Proof.
  intros St Hu. destruct static as [_ [_ [_ [_ [_ SO]]]]].
  destruct (sa_supervisors _ _ _ _ _ _ _ St u Hu) as [P [_ [Hq [_ [f E]]]]].
  destruct (SO u Hu) as [ND In].
  split; [exact P|]. rewrite E. split; [|split].
  - intros x Hx. apply In. now apply filter_In in Hx.
  - now apply NoDup_filter.
  - intros q Hin. destruct (Hq q Hin) as [A B]. split; [exact A|]. split; [exact B|].
    now destruct (sa_projects _ _ _ _ _ _ _ St q A).
Qed.

Lemma project_not_null (h : heap) (p : value) : is_project h p = true -> p <> null.
Proof. intros H ->. discriminate. Qed.

(** Whoever a project holds is a student that holds the project, and
    that the project and its supervisor still rank. *)
Lemma SA_held (h : heap) (p a : value) :
  SA_core Sts Ps Us O OP OU h -> In p Ps -> In a (hmatching h p) ->
  In a Sts /\ pmatching h a = p /\ In a (hprefs h p) /\ In p (pprefs h a)
  /\ In a (hmatching h (hsupervisor h p)) /\ In a (hprefs h (hsupervisor h p)).
Proof.
  intros St Hp Ha.
  destruct (sa_project_matches _ _ _ _ _ _ _ St p Hp) as [Inc _].
  assert (HaS : In a Sts) by now apply Inc.
  assert (Pm : pmatching h a = p) by now apply (sa_match _ _ _ _ _ _ _ St a p HaS Hp).
  destruct (SA_project_facts h p St Hp) as [Pp [_ [_ [Hu [_ Hin]]]]].
  assert (Px : In p (pprefs h a)).
  { destruct (sa_first _ _ _ _ _ _ _ St a HaS) as [N|[rest E]].
    - rewrite Pm in N. now destruct (project_not_null h p Pp).
    - rewrite E, Pm. now left. }
  assert (Qa : In a (hprefs h p)) by now apply (sa_reciprocal _ _ _ _ _ _ _ St a p HaS Hp).
  repeat split; auto.
  - apply (sa_match_union _ _ _ _ _ _ _ St _ a Hu). now exists p.
  - apply (sa_union _ _ _ _ _ _ _ St _ a Hu). now exists p.
Qed.

(** Whoever a supervisor holds is held by one of its projects. *)
Lemma SA_held_supervisor (h : heap) (u a : value) :
  SA_core Sts Ps Us O OP OU h -> In u Us -> In a (hmatching h u) ->
  exists q, In q (hprojects h u) /\ In q Ps /\ In a (hmatching h q)
            /\ In a Sts /\ pmatching h a = q /\ In a (hprefs h u).
Proof.
  intros St Hu Ha.
  apply (sa_match_union _ _ _ _ _ _ _ St u a Hu) in Ha. destruct Ha as [q [Hq Ha]].
  destruct (SA_supervisor_facts h u St Hu) as [_ [_ [_ Pq]]].
  destruct (Pq q Hq) as [HqP [Eu _]].
  destruct (SA_held h q a St HqP Ha) as [A [B [_ [_ [_ C]]]]].
  exists q. rewrite Eu in C. repeat split; auto.
Qed.

(** Deleting a pair that is not matched keeps the state. *)
Lemma SA_deletePair_core (h : heap) (q s : value) :
  SA_core Sts Ps Us O OP OU h -> In q Ps -> In s Sts ->
  ~ In s (hmatching h q) ->
  exists h', deletePair q s h = (Ok tt, h') /\ SA_core Sts Ps Us O OP OU h'
    /\ SA_frame h h'
    /\ (forall v, exists g, hprefs h' v = filter g (hprefs h v))
    /\ (forall v, pmatching h' v = pmatching h v)
    /\ (forall v, hmatching h' v = hmatching h v)
    /\ (forall v, pprefs h' v
                  = if value_eqb v s then remove_value q (pprefs h v) else pprefs h v)
    /\ same_originals h h'.
Proof.
  intros St Hq Hs Nm.
  destruct (SA_project_facts h q St Hq) as [Pq [_ [_ [Hu [Pu Hin]]]]].
  destruct (SA_student_facts h s St Hs) as [Pl _].
  destruct (SA_supervisor_facts h _ St Hu) as [_ [_ [_ Projs]]].
  set (u := hsupervisor h q) in *.
  destruct (SA_deletePair_total q s u h Pq eq_refl Pu) as [h' [E [Fr [Vm [Vh [Vp [Vq Orig]]]]]]].
  { intros q' Hq'. apply is_project_class. now destruct (Projs q' Hq') as [_ [_ H]]. }
  { exact Pl. }
  exists h'. split; [exact E|].
  assert (Qfilter : forall v, exists g, hprefs h' v = filter g (hprefs h v)).
  { intros v. rewrite Vq. destruct (value_eqb v q); [eexists; reflexivity|].
    destruct (_ && _ && _); [eexists; reflexivity|].
    exists (fun _ => true). clear. induction (hprefs h v); simpl; congruence. }
  split; [|split; [exact Fr|split; [exact Qfilter|
    split; [exact Vm|split; [exact Vh|split; [exact Vp|exact Orig]]]]]].
  pose proof Fr as [FrP [FrC [FrCap [FrS FrPr]]]].
  set (cond := includes (hprefs h q) s && negb (others_rank h u q s)) in *.
  assert (Nqu : q <> u) by now apply (project_not_supervisor h q u).
  assert (Qproj : forall p, In p Ps ->
            hprefs h' p = if value_eqb p q then remove_value s (hprefs h p) else hprefs h p).
  { intros p Hp. rewrite Vq. destruct (value_eqb p q); [reflexivity|].
    destruct (value_eqb_spec p u) as [->|_]; [|reflexivity].
    destruct (SA_project_facts h u St Hp) as [Pp _].
    now destruct (project_not_supervisor h u u Pp Pu). }
  assert (Qsup : forall u', In u' Us ->
            hprefs h' u' = if value_eqb u' u && cond
                           then remove_value s (hprefs h u') else hprefs h u').
  { intros u' Hu'. rewrite Vq, <- andb_assoc. fold cond.
    destruct (value_eqb_spec u' q) as [->|_]; [|reflexivity].
    destruct (SA_supervisor_facts h q St Hu') as [Pq' _].
    now destruct (project_not_supervisor h q q Pq Pq'). }
  assert (Qsub : forall v a, In a (hprefs h' v) -> In a (hprefs h v)).
  { intros v a. rewrite Vq. destruct (value_eqb v q).
    - intros H. now apply remove_value_In in H.
    - destruct (_ && _ && _); [|auto]. intros H. now apply remove_value_In in H. }
  constructor.
  - intros y Hy. destruct (sa_students _ _ _ _ _ _ _ St y Hy) as [A [f C]].
    rewrite FrP. split; [exact A|]. rewrite Vp. destruct (value_eqb y s).
    + rewrite C, remove_value_filter. eexists. reflexivity.
    + now exists f.
  - intros p Hp. destruct (sa_projects _ _ _ _ _ _ _ St p Hp) as [A [B [C [D [f F]]]]].
    rewrite (SA_frame_project h h' p Fr), FrS, FrPr, FrCap.
    repeat (split; [assumption|]).
    rewrite (Qproj p Hp). destruct (value_eqb p q).
    + rewrite F, remove_value_filter. eexists. reflexivity.
    + now exists f.
  - intros u' Hu'. destruct (sa_supervisors _ _ _ _ _ _ _ St u' Hu') as [A [B [C [D [f F]]]]].
    rewrite (SA_frame_supervisor h h' u' Fr), FrPr, FrCap.
    split; [exact A|]. split; [exact B|]. split.
    { intros q' Hq'. rewrite FrS. now apply C. }
    split; [exact D|].
    rewrite (Qsup u' Hu'). destruct (value_eqb u' u && cond).
    + rewrite F, remove_value_filter. eexists. reflexivity.
    + now exists f.
  - intros y p Hy Hp. rewrite Vp, (Qproj p Hp).
    pose proof (sa_reciprocal _ _ _ _ _ _ _ St y p Hy Hp) as R.
    destruct (value_eqb_spec y s) as [->|Ny]; destruct (value_eqb_spec p q) as [->|Np];
      rewrite ?remove_value_In; tauto.
  - intros u' a Hu'. rewrite (Qsup u' Hu'), FrPr.
    pose proof (sa_union _ _ _ _ _ _ _ St u' a Hu') as J.
    destruct (SA_supervisor_facts h u' St Hu') as [_ [_ [_ Projs']]].
    assert (Qin : forall q', In q' (hprojects h u') ->
              (In a (hprefs h' q') <-> In a (hprefs h q') /\ (q' = q -> a <> s))).
    { intros q' Hq'. destruct (Projs' q' Hq') as [HqP _]. rewrite (Qproj q' HqP).
      destruct (value_eqb_spec q' q) as [->|Nq].
      - rewrite remove_value_In. tauto.
      - tauto. }
    destruct (value_eqb_spec u' u) as [->|Nu]; simpl.
    + destruct cond eqn:Ec.
      * apply andb_true_iff in Ec. destruct Ec as [Iq No].
        apply negb_true_iff in No. rewrite remove_value_In, J. split.
        -- intros [[q' [Hq' Ha]] Na]. exists q'. split; [exact Hq'|].
           apply (Qin q' Hq'). split; [exact Ha|]. intros _. exact Na.
        -- intros [q' [Hq' Ha]]. apply (Qin q' Hq') in Ha. destruct Ha as [Ha Na].
           split; [now exists q'|]. intros ->.
           assert (others_rank h u q s = true); [|congruence].
           apply others_rank_spec. exists q'. split; [exact Hq'|]. split; [|exact Ha].
           intros ->. now apply Na.
      * rewrite J. split.
        -- intros [q' [Hq' Ha]].
           destruct (value_eqb_spec a s) as [->|Na].
           ++ assert (Ot : others_rank h u q s = true).
              { destruct (others_rank h u q s) eqn:Eo; [reflexivity|].
                destruct (value_eqb_spec q' q) as [->|Nq].
                - apply includes_In in Ha. unfold cond in Ec. rewrite Ha in Ec.
                  try rewrite Eo in Ec. discriminate.
                - assert (others_rank h u q s = true); [|congruence].
                  apply others_rank_spec. now exists q'. }
              apply others_rank_spec in Ot. destruct Ot as [q2 [Hq2 [N2 Ha2]]].
              exists q2. split; [exact Hq2|]. apply (Qin q2 Hq2). split; [exact Ha2|].
              intros; contradiction.
           ++ exists q'. split; [exact Hq'|]. apply (Qin q' Hq'). split; [exact Ha|].
              intros _. exact Na.
        -- intros [q' [Hq' Ha]]. apply (Qin q' Hq') in Ha. exists q'. tauto.
    + rewrite J. split; intros [q' [Hq' Ha]]; exists q'; (split; [exact Hq'|]).
      * apply (Qin q' Hq'). split; [exact Ha|]. intros ->.
        destruct (Projs' q Hq') as [_ [Eu _]]. fold u in Eu. congruence.
      * now apply (Qin q' Hq') in Ha.
  - intros y p Hy Hp. rewrite Vm, Vh. now apply (sa_match _ _ _ _ _ _ _ St).
  - intros u' a Hu'. rewrite Vh, FrPr.
    rewrite (sa_match_union _ _ _ _ _ _ _ St u' a Hu').
    split; intros [q' [Hq' Ha]]; exists q'; (split; [exact Hq'|]);
      [now rewrite Vh|now rewrite Vh in Ha].
  - intros p Hp. destruct (sa_project_matches _ _ _ _ _ _ _ St p Hp) as [A [C D]].
    rewrite Vh. split; [exact A|]. split; [exact C|].
    rewrite (Qproj p Hp). destruct (value_eqb_spec p q) as [->|Np]; [|exact D].
    unfold remove_value. apply sorted_by_filter; [|exact D].
    intros m Hm. fold (remove_value s (hprefs h q)). apply remove_value_In. split.
    + now destruct (SA_held h q m St Hq Hm) as [_ [_ [H _]]].
    + intros ->. contradiction.
  - intros u' Hu'. destruct (sa_supervisor_matches _ _ _ _ _ _ _ St u' Hu') as [C D].
    rewrite Vh. split; [exact C|].
    rewrite (Qsup u' Hu'). destruct (value_eqb_spec u' u) as [->|Nu]; [|exact D]. simpl.
    destruct cond eqn:Ec; [|exact D].
    apply andb_true_iff in Ec. destruct Ec as [Iq No]. apply negb_true_iff in No.
    unfold remove_value. apply sorted_by_filter; [|exact D].
    intros m Hm. fold (remove_value s (hprefs h u)). apply remove_value_In.
    destruct (SA_held_supervisor h u m St Hu' Hm) as [q' [Hq' [HqP [Hmq [_ [_ Hmu]]]]]].
    split; [exact Hmu|]. intros ->.
    assert (others_rank h u q s = true); [|congruence].
    apply others_rank_spec. exists q'. split; [exact Hq'|]. split.
    + intros ->. contradiction.
    + now destruct (SA_held h q' s St HqP Hmq) as [_ [_ [H _]]].
  - intros y Hy. rewrite Vm, Vp.
    destruct (sa_first _ _ _ _ _ _ _ St y Hy) as [N|[rest Er]]; [now left|]. right.
    destruct (value_eqb_spec y s) as [->|Ny]; [|now exists rest].
    assert (Nq : pmatching h s <> q).
    { intros Eq. apply (sa_match _ _ _ _ _ _ _ St s q Hs Hq) in Eq. contradiction. }
    rewrite Er. unfold remove_value. simpl.
    destruct (value_eqb_spec (pmatching h s) q) as [Eq|_]; [contradiction|].
    simpl. eexists. reflexivity.
Qed.

End SA_loop.

(** *** Matching and unmatching a pair *)

Lemma sort_by_In (key : value -> Z) (l : list value) (a : value) :
  In a (sort_by key l) <-> In a l.
Proof.
  split; intros H.
  - exact (Permutation_in _ (Permutation_sym (sort_by_perm key l)) H).
  - exact (Permutation_in _ (sort_by_perm key l) H).
Qed.

Lemma sort_by_NoDup (key : value -> Z) (l : list value) :
  NoDup l -> NoDup (sort_by key l).
Proof. intros H. exact (Permutation_NoDup (sort_by_perm key l) H). Qed.

Lemma sort_by_length (key : value -> Z) (l : list value) :
  List.length (sort_by key l) = List.length l.
Proof. symmetry. apply Permutation_length, sort_by_perm. Qed.

Lemma NoDup_snoc_new (l : list value) (a : value) :
  NoDup l -> ~ In a l -> NoDup (l ++ [a]).
Proof.
  intros ND Ha. apply NoDup_app; [exact ND|repeat constructor; intros []|].
  intros x Hx [<-|[]]. contradiction.
Qed.

Lemma sorted_by_remove (prefs l : list value) (w : value) :
  sorted_by prefs l -> sorted_by prefs (remove_value w l).
Proof.
  unfold sorted_by, remove_value. induction 1 as [|x l Sl IH Hx]; simpl; [constructor|].
  destruct (negb (value_eqb x w)); [|exact IH]. constructor; [exact IH|].
  rewrite Forall_forall in *. intros y Hy. apply Hx. now apply filter_In in Hy.
Qed.

Section SA_pairs.

Variables Sts Ps Us : list value.
Variables O OP OU : value -> list value.
Hypothesis static : SA_static Sts Ps Us O OP OU.

(** A change of the matches alone keeps the state if the new matches
    are consistent. *)
Lemma SA_core_rematch (h h' : heap) :
  SA_core Sts Ps Us O OP OU h -> SA_frame h h' ->
  (forall v, pprefs h' v = pprefs h v) -> (forall v, hprefs h' v = hprefs h v) ->
  (forall s p, In s Sts -> In p Ps -> (pmatching h' s = p <-> In s (hmatching h' p))) ->
  (forall u a, In u Us ->
     (In a (hmatching h' u) <-> exists q, In q (hprojects h u) /\ In a (hmatching h' q))) ->
  (forall p, In p Ps -> incl (hmatching h' p) Sts /\ NoDup (hmatching h' p)
                        /\ sorted_by (hprefs h p) (hmatching h' p)) ->
  (forall u, In u Us -> NoDup (hmatching h' u) /\ sorted_by (hprefs h u) (hmatching h' u)) ->
  (forall s, In s Sts -> pmatching h' s = null
                         \/ exists rest, pprefs h s = pmatching h' s :: rest) ->
  SA_core Sts Ps Us O OP OU h'.
Proof.
  intros St Fr Vp Vq A B C D E.
  pose proof Fr as [FrP [FrC [FrCap [FrS FrPr]]]].
  constructor.
  - intros s Hs. rewrite FrP, Vp. exact (sa_students _ _ _ _ _ _ _ St s Hs).
  - intros p Hp. rewrite (SA_frame_project h h' p Fr), FrS, FrPr, FrCap, Vq.
    exact (sa_projects _ _ _ _ _ _ _ St p Hp).
  - intros u Hu. rewrite (SA_frame_supervisor h h' u Fr), FrPr, FrCap, Vq.
    destruct (sa_supervisors _ _ _ _ _ _ _ St u Hu) as [X1 [X2 [X3 X4]]].
    split; [exact X1|]. split; [exact X2|]. split; [|exact X4].
    intros q Hq. rewrite FrS. now apply X3.
  - intros s p Hs Hp. rewrite Vp, Vq. exact (sa_reciprocal _ _ _ _ _ _ _ St s p Hs Hp).
  - intros u a Hu. rewrite Vq, FrPr. rewrite (sa_union _ _ _ _ _ _ _ St u a Hu).
    split; intros [q [Hq Ha]]; exists q; (split; [exact Hq|]);
      [now rewrite Vq|now rewrite Vq in Ha].
  - exact A.
  - intros u a Hu. rewrite FrPr. now apply B.
  - intros p Hp. rewrite Vq. now apply C.
  - intros u Hu. rewrite Vq. now apply D.
  - intros s Hs. rewrite Vp. now apply E.
Qed.

(** An unmatched student taking the first project of its list. *)
Lemma SA_matchPair_core (h : heap) (s p : value) (rest : list value) :
  SA_core Sts Ps Us O OP OU h -> In s Sts -> pmatching h s = null ->
  pprefs h s = p :: rest ->
  exists h', matchPair s p h = (Ok tt, h') /\ SA_core Sts Ps Us O OP OU h'
    /\ SA_frame h h'
    /\ (forall v, pmatching h' v = if value_eqb v s then p else pmatching h v)
    /\ (forall v, hmatching h' v
                  = if value_eqb v p || value_eqb v (hsupervisor h p)
                    then sort_by (indexOf (hprefs h v)) (hmatching h v ++ [s])
                    else hmatching h v)
    /\ (forall v, pprefs h' v = pprefs h v)
    /\ (forall v, hprefs h' v = hprefs h v)
    /\ same_originals h h'.
Proof.
  intros St Hs Null Ep.
  destruct (SA_student_facts _ _ _ _ _ _ static h s St Hs) as [Pl [Inc _]].
  assert (Hp : In p Ps) by (apply Inc; rewrite Ep; now left).
  destruct (SA_project_facts _ _ _ _ _ _ static h p St Hp) as [Pp [_ [_ [Hu [Pu Hin]]]]].
  destruct (SA_supervisor_facts _ _ _ _ _ _ static h _ St Hu) as [_ [_ [_ Projs]]].
  set (u := hsupervisor h p) in *.
  destruct (SA_matchPair_total s p u h Pl Pp eq_refl Pu)
    as [h' [E [Fr [Vm [Vh [Vp [Vq Orig]]]]]]].
  exists h'. split; [exact E|].
  split; [|split; [exact Fr|split; [exact Vm|split; [exact Vh|
    split; [exact Vp|split; [exact Vq|exact Orig]]]]]].
  assert (Npu : p <> u) by now apply (project_not_supervisor h p u).
  assert (Nowhere : forall q, In q Ps -> ~ In s (hmatching h q)).
  { intros q Hq Hm. apply (sa_match _ _ _ _ _ _ _ St s q Hs Hq) in Hm.
    destruct (SA_project_facts _ _ _ _ _ _ static h q St Hq) as [Pq _].
    rewrite Null in Hm. symmetry in Hm. now apply (project_not_null h q Pq). }
  assert (NowhereU : forall u', In u' Us -> ~ In s (hmatching h u')).
  { intros u' Hu' Hm.
    destruct (SA_held_supervisor _ _ _ _ _ _ static h u' s St Hu' Hm) as [q [_ [Hq [Hmq _]]]].
    now apply (Nowhere q Hq). }
  assert (Mproj : forall q, In q Ps ->
            hmatching h' q = if value_eqb q p
                             then sort_by (indexOf (hprefs h q)) (hmatching h q ++ [s])
                             else hmatching h q).
  { intros q Hq. rewrite Vh. destruct (value_eqb q p); [reflexivity|].
    destruct (value_eqb_spec q u) as [->|_]; [|reflexivity].
    destruct (SA_project_facts _ _ _ _ _ _ static h u St Hq) as [Pq _].
    now destruct (project_not_supervisor h u u Pq Pu). }
  assert (Msup : forall u', In u' Us ->
            hmatching h' u' = if value_eqb u' u
                              then sort_by (indexOf (hprefs h u')) (hmatching h u' ++ [s])
                              else hmatching h u').
  { intros u' Hu'. rewrite Vh. destruct (value_eqb_spec u' p) as [->|_]; [|reflexivity].
    destruct (SA_supervisor_facts _ _ _ _ _ _ static h p St Hu') as [Pq' _].
    now destruct (project_not_supervisor h p p Pp Pq'). }
  assert (Min : forall q a, In q Ps ->
            (In a (hmatching h' q) <-> In a (hmatching h q) \/ (q = p /\ a = s))).
  { intros q a Hq. rewrite (Mproj q Hq). destruct (value_eqb_spec q p) as [->|Nq].
    - rewrite sort_by_In, in_app_iff. simpl. intuition.
    - intuition. }
  assert (MinU : forall u' a, In u' Us ->
            (In a (hmatching h' u') <-> In a (hmatching h u') \/ (u' = u /\ a = s))).
  { intros u' a Hu'. rewrite (Msup u' Hu'). destruct (value_eqb_spec u' u) as [->|Nq].
    - rewrite sort_by_In, in_app_iff. simpl. intuition.
    - intuition. }
  apply (SA_core_rematch h h' St Fr Vp Vq).
  - intros a q Ha Hq. rewrite Vm, (Min q a Hq).
    pose proof (sa_match _ _ _ _ _ _ _ St a q Ha Hq) as Ma.
    destruct (value_eqb_spec a s) as [->|Na].
    + split.
      * intros <-. right. split; reflexivity.
      * intros [Hm|[-> _]]; [|reflexivity]. now destruct (Nowhere q Hq).
    + rewrite Ma. intuition.
  - intros u' a Hu'. rewrite (MinU u' a Hu').
    rewrite (sa_match_union _ _ _ _ _ _ _ St u' a Hu').
    destruct (SA_supervisor_facts _ _ _ _ _ _ static h u' St Hu') as [_ [_ [_ Projs']]].
    split.
    + intros [[q [Hq Ha]]|[-> ->]].
      * exists q. split; [exact Hq|]. destruct (Projs' q Hq) as [HqP _].
        apply (Min q a HqP). now left.
      * exists p. split; [exact Hin|]. apply (Min p s Hp). right. split; reflexivity.
    + intros [q [Hq Ha]]. destruct (Projs' q Hq) as [HqP [Eu _]].
      apply (Min q a HqP) in Ha. destruct Ha as [Ha|[-> ->]].
      * left. now exists q.
      * right. split; [|reflexivity]. now rewrite <- Eu.
  - intros q Hq. destruct (sa_project_matches _ _ _ _ _ _ _ St q Hq) as [A [C D]].
    rewrite (Mproj q Hq). destruct (value_eqb_spec q p) as [->|Nq]; [|auto].
    split; [|split].
    + intros a Ha. apply sort_by_In, in_app_iff in Ha.
      destruct Ha as [Ha|[<-|[]]]; [now apply A|exact Hs].
    + apply sort_by_NoDup, NoDup_snoc_new; [exact C|now apply Nowhere].
    + apply sort_by_sorted.
  - intros u' Hu'. destruct (sa_supervisor_matches _ _ _ _ _ _ _ St u' Hu') as [C D].
    rewrite (Msup u' Hu'). destruct (value_eqb_spec u' u) as [->|Nq]; [|auto].
    split.
    + apply sort_by_NoDup, NoDup_snoc_new; [exact C|now apply NowhereU].
    + apply sort_by_sorted.
  - intros a Ha. rewrite Vm. destruct (value_eqb_spec a s) as [->|Na].
    + right. now exists rest.
    + exact (sa_first _ _ _ _ _ _ _ St a Ha).
Qed.

(** A project letting go of a student it holds. *)
Lemma SA_unmatchPair_core (h : heap) (w q : value) :
  SA_core Sts Ps Us O OP OU h -> In q Ps -> In w (hmatching h q) ->
  exists h', SA_unmatchPair w q h = (Ok tt, h') /\ SA_core Sts Ps Us O OP OU h'
    /\ SA_frame h h'
    /\ (forall v, pmatching h' v = if value_eqb v w then null else pmatching h v)
    /\ (forall v, hmatching h' v
                  = if value_eqb v q || value_eqb v (hsupervisor h q)
                    then remove_value w (hmatching h v) else hmatching h v)
    /\ (forall v, pprefs h' v = pprefs h v)
    /\ (forall v, hprefs h' v = hprefs h v)
    /\ same_originals h h'.
Proof.
  intros St Hq Hw.
  destruct (SA_held _ _ _ _ _ _ static h q w St Hq Hw) as [HwS [Mw _]].
  destruct (SA_student_facts _ _ _ _ _ _ static h w St HwS) as [Pl _].
  destruct (SA_project_facts _ _ _ _ _ _ static h q St Hq) as [Pq [_ [_ [Hu [Pu Hin]]]]].
  set (u := hsupervisor h q) in *.
  destruct (SA_unmatchPair_total w q u h Pl Pq eq_refl Pu)
    as [h' [E [Fr [Vm [Vh [Vp [Vq Orig]]]]]]].
  exists h'. split; [exact E|].
  split; [|split; [exact Fr|split; [exact Vm|split; [exact Vh|
    split; [exact Vp|split; [exact Vq|exact Orig]]]]]].
  assert (Mproj : forall p, In p Ps ->
            hmatching h' p = if value_eqb p q
                             then remove_value w (hmatching h p) else hmatching h p).
  { intros p Hp. rewrite Vh. destruct (value_eqb p q); [reflexivity|].
    destruct (value_eqb_spec p u) as [->|_]; [|reflexivity].
    destruct (SA_project_facts _ _ _ _ _ _ static h u St Hp) as [Pp _].
    now destruct (project_not_supervisor h u u Pp Pu). }
  assert (Msup : forall u', In u' Us ->
            hmatching h' u' = if value_eqb u' u
                              then remove_value w (hmatching h u') else hmatching h u').
  { intros u' Hu'. rewrite Vh. destruct (value_eqb_spec u' q) as [->|_]; [|reflexivity].
    destruct (SA_supervisor_facts _ _ _ _ _ _ static h q St Hu') as [Pq' _].
    now destruct (project_not_supervisor h q q Pq Pq'). }
  assert (Min : forall p a, In p Ps ->
            (In a (hmatching h' p) <-> In a (hmatching h p) /\ a <> w)).
  { intros p a Hp. rewrite (Mproj p Hp). destruct (value_eqb_spec p q) as [->|Np].
    - apply remove_value_In.
    - split; [|tauto]. intros Ha. split; [exact Ha|]. intros ->.
      destruct (SA_held _ _ _ _ _ _ static h p w St Hp Ha) as [_ [Mw' _]]. congruence. }
  assert (MinU : forall u' a, In u' Us ->
            (In a (hmatching h' u') <-> In a (hmatching h u') /\ a <> w)).
  { intros u' a Hu'. rewrite (Msup u' Hu'). destruct (value_eqb_spec u' u) as [->|Nu].
    - apply remove_value_In.
    - split; [|tauto]. intros Ha. split; [exact Ha|]. intros ->.
      destruct (SA_held_supervisor _ _ _ _ _ _ static h u' w St Hu' Ha)
        as [q' [Hq' [_ [_ [_ [Mw' _]]]]]].
      destruct (SA_supervisor_facts _ _ _ _ _ _ static h u' St Hu') as [_ [_ [_ Projs']]].
      destruct (Projs' q' Hq') as [_ [Eu _]]. apply Nu. rewrite <- Eu. unfold u. congruence. }
  apply (SA_core_rematch h h' St Fr Vp Vq).
  - intros a p Ha Hp. rewrite Vm, (Min p a Hp).
    pose proof (sa_match _ _ _ _ _ _ _ St a p Ha Hp) as Ma.
    destruct (value_eqb_spec a w) as [->|Na].
    + split; [|tauto]. intros <-.
      destruct (SA_project_facts _ _ _ _ _ _ static h null St Hp) as [Pp _]. discriminate.
    + rewrite Ma. tauto.
  - intros u' a Hu'. rewrite (MinU u' a Hu').
    rewrite (sa_match_union _ _ _ _ _ _ _ St u' a Hu').
    destruct (SA_supervisor_facts _ _ _ _ _ _ static h u' St Hu') as [_ [_ [_ Projs']]].
    split.
    + intros [[p [Hp Ha]] Na]. exists p. split; [exact Hp|].
      destruct (Projs' p Hp) as [HpP _]. now apply (Min p a HpP).
    + intros [p [Hp Ha]]. destruct (Projs' p Hp) as [HpP _].
      apply (Min p a HpP) in Ha. destruct Ha as [Ha Na]. split; [now exists p|exact Na].
  - intros p Hp. destruct (sa_project_matches _ _ _ _ _ _ _ St p Hp) as [A [C D]].
    rewrite (Mproj p Hp). destruct (value_eqb p q); [|auto].
    split; [|split].
    + intros a Ha. apply remove_value_In in Ha. now apply A.
    + now apply NoDup_filter.
    + now apply sorted_by_remove.
  - intros u' Hu'. destruct (sa_supervisor_matches _ _ _ _ _ _ _ St u' Hu') as [C D].
    rewrite (Msup u' Hu'). destruct (value_eqb u' u); [|auto].
    split; [now apply NoDup_filter|now apply sorted_by_remove].
  - intros a Ha. rewrite Vm. destruct (value_eqb_spec a w) as [->|Na]; [now left|].
    exact (sa_first _ _ _ _ _ _ _ St a Ha).
Qed.

End SA_pairs.

(** *** The loops over successors in [studentOptimal] *)

Lemma filter_filter_ex (f g : value -> bool) (l : list value) :
  exists k, filter g (filter f l) = filter k l.
Proof.
  exists (fun x => f x && g x). induction l as [|x l IH]; simpl; [reflexivity|].
  destruct (f x); simpl; [|exact IH]. destruct (g x); now rewrite IH.
Qed.

Lemma filter_ex_trans (l1 l2 l3 : list value) :
  (exists f, l2 = filter f l1) -> (exists g, l3 = filter g l2) -> exists k, l3 = filter k l1.
Proof. intros [f ->] [g ->]. apply filter_filter_ex. Qed.

Lemma filter_ex_refl (l : list value) : exists f, l = filter f l.
Proof. exists (fun _ => true). induction l; simpl; congruence. Qed.

Lemma getHospital_class (site : string) (h : heap) (v : value) :
  hclass h v <> None ->
  exists o, getHospital site v h = (Ok o, h)
            /\ hprefs h v = Hospital.prefs o /\ hmatching h v = Hospital.matching o
            /\ hcapacity h v = Hospital.capacity o
            /\ hsupervisor h v = Hospital.supervisor o
            /\ hprojects h v = Hospital.projects o.
Proof.
  intros H. destruct (hclass_view h v H) as [o [E [A [B [C [D [F _]]]]]]].
  exists o. split; [now apply getHospital_at|]. auto.
Qed.

Lemma filterM_prefs_include (a : value) (L : list value) (h : heap) :
  is_player h a = true ->
  filterM (fun p => prefs_include "prefs" a p) L h
  = (Ok (filter (fun p => includes (pprefs h a) p) L), h).
Proof.
  intros Ha. induction L as [|p L IH]; simpl; [reflexivity|].
  rewrite (bind_ok _ _ _ _ _ (prefs_include_player "prefs" h a p Ha)).
  rewrite (bind_ok _ _ _ _ _ IH). reflexivity.
Qed.

Lemma remove_all_filter_includes (L l : list value) :
  remove_all (filter (fun p => includes l p) L) l = remove_all L l.
Proof.
  unfold remove_all. apply filter_ext_in. intros x Hx. f_equal.
  destruct (includes L x) eqn:E.
  - apply includes_In. apply filter_In. split; [now apply includes_In|now apply includes_In].
  - apply includes_not_In. intros H. apply filter_In in H. destruct H as [H _].
    apply includes_In in H. congruence.
Qed.

Lemma drop_if_exhausted_student (a : value) (free : list value) (h : heap) :
  is_player h a = true ->
  drop_if_exhausted a free h
  = (Ok (if Nat.eqb (List.length (pprefs h a)) 0 && includes free a
         then remove_first a free else free), h).
Proof.
  intros Ha. destruct (player_view h a Ha) as [p [Ep [Pp _]]].
  unfold drop_if_exhausted. rewrite (bind_ok _ _ _ _ _ (load_at "prefs" _ _ _ Ep)).
  simpl. now rewrite Pp.
Qed.

Section SA_loops.

Variables Sts Ps Us : list value.
Variables O OP OU : value -> list value.
Hypothesis static : SA_static Sts Ps Us O OP OU.

(** The [for] over the successors of a project that has become full. *)
Lemma studentOptimal_delete_core (p : value) (S : list value) :
  forall free h,
    SA_core Sts Ps Us O OP OU h -> In p Ps -> incl S Sts ->
    (forall a, In a S -> ~ In a (hmatching h p)) ->
    exists h',
      studentOptimal_delete p S free h
      = (Ok (prune_free (fun a => remove_value p (pprefs h a)) S free), h')
      /\ SA_core Sts Ps Us O OP OU h' /\ SA_frame h h'
      /\ (forall v, exists g, hprefs h' v = filter g (hprefs h v))
      /\ (forall v, pmatching h' v = pmatching h v)
      /\ (forall v, hmatching h' v = hmatching h v)
      /\ (forall v, pprefs h' v
                    = if includes S v then remove_value p (pprefs h v) else pprefs h v)
      /\ same_originals h h'.
Proof.
  induction S as [|a S IH]; intros free h St Hp HS Nm; simpl.
  - exists h. split; [reflexivity|]. split; [exact St|]. split; [apply SA_frame_refl|].
    split; [intros v; apply filter_ex_refl|].
    split; [reflexivity|]. split; [reflexivity|]. split; [reflexivity|].
    apply same_originals_refl.
  - assert (Ha : In a Sts) by (apply HS; now left).
    destruct (SA_deletePair_core _ _ _ _ _ _ static h p a St Hp Ha (Nm a (or_introl eq_refl)))
      as [h1 [E1 [St1 [F1 [G1 [A1 [B1 [D1 O1]]]]]]]].
    rewrite (bind_ok _ _ _ _ _ E1).
    destruct (SA_student_facts _ _ _ _ _ _ static h1 a St1 Ha) as [Pa1 _].
    rewrite (bind_ok _ _ _ _ _ (drop_if_exhausted_student a free h1 Pa1)).
    rewrite D1, value_eqb_refl.
    destruct (IH (if Nat.eqb (List.length (remove_value p (pprefs h a))) 0 && includes free a
                  then remove_first a free else free) h1 St1 Hp)
      as [h2 [E2 [St2 [F2 [G2 [A2 [B2 [D2 O2]]]]]]]].
    { intros t Ht. apply HS. now right. }
    { intros t Ht. rewrite B1. apply Nm. now right. }
    exists h2. split.
    { rewrite E2. f_equal. f_equal. apply prune_free_ext. intros t Ht.
      rewrite D1. destruct (value_eqb t a); [apply remove_value_idem|reflexivity]. }
    split; [exact St2|]. split; [exact (SA_frame_trans _ _ _ F1 F2)|].
    split; [intros v; exact (filter_ex_trans _ _ _ (G1 v) (G2 v))|].
    split; [intros v; now rewrite A2, A1|].
    split; [intros v; now rewrite B2, B1|].
    split; [|exact (same_originals_trans _ _ _ O1 O2)].
    intros v. rewrite D2, D1.
    change (includes (a :: S) v) with (value_eqb v a || includes S v).
    destruct (value_eqb v a); simpl; [|reflexivity].
    destruct (includes S v); [apply remove_value_idem|reflexivity].
Qed.

(** Deleting several projects from the list of one student. *)
Lemma SA_delete_projects_core (a : value) (L : list value) :
  forall h,
    SA_core Sts Ps Us O OP OU h -> In a Sts -> incl L Ps ->
    (forall q, In q L -> ~ In a (hmatching h q)) ->
    exists h',
      forEach L (fun proj => deletePair proj a) h = (Ok tt, h')
      /\ SA_core Sts Ps Us O OP OU h' /\ SA_frame h h'
      /\ (forall v, exists g, hprefs h' v = filter g (hprefs h v))
      /\ (forall v, pmatching h' v = pmatching h v)
      /\ (forall v, hmatching h' v = hmatching h v)
      /\ (forall v, pprefs h' v
                    = if value_eqb v a then remove_all L (pprefs h v) else pprefs h v)
      /\ same_originals h h'.
Proof.
  induction L as [|q L IH]; intros h St Ha HL Nm; simpl.
  - exists h. split; [reflexivity|]. split; [exact St|]. split; [apply SA_frame_refl|].
    split; [intros v; apply filter_ex_refl|].
    split; [reflexivity|]. split; [reflexivity|].
    split; [|apply same_originals_refl].
    intros v. rewrite remove_all_nil. now destruct (value_eqb v a).
  - assert (Hq : In q Ps) by (apply HL; now left).
    destruct (SA_deletePair_core _ _ _ _ _ _ static h q a St Hq Ha (Nm q (or_introl eq_refl)))
      as [h1 [E1 [St1 [F1 [G1 [A1 [B1 [D1 O1]]]]]]]].
    rewrite (bind_ok _ _ _ _ _ E1).
    destruct (IH h1 St1 Ha) as [h2 [E2 [St2 [F2 [G2 [A2 [B2 [D2 O2]]]]]]]].
    { intros t Ht. apply HL. now right. }
    { intros t Ht. rewrite B1. apply Nm. now right. }
    exists h2. split; [exact E2|].
    split; [exact St2|]. split; [exact (SA_frame_trans _ _ _ F1 F2)|].
    split; [intros v; exact (filter_ex_trans _ _ _ (G1 v) (G2 v))|].
    split; [intros v; now rewrite A2, A1|].
    split; [intros v; now rewrite B2, B1|].
    split; [|exact (same_originals_trans _ _ _ O1 O2)].
    intros v. rewrite D2, D1. destruct (value_eqb v a); [|reflexivity].
    now rewrite remove_all_cons.
Qed.

(** The [for] over the successors of a supervisor that has become full. *)
Lemma studentOptimal_delete_supervisor_core (u : value) (S : list value) :
  forall free h,
    SA_core Sts Ps Us O OP OU h -> In u Us -> incl S Sts ->
    (forall a, In a S -> ~ In a (hmatching h u)) ->
    exists h',
      studentOptimal_delete_supervisor u S free h
      = (Ok (prune_free (fun a => remove_all (hprojects h u) (pprefs h a)) S free), h')
      /\ SA_core Sts Ps Us O OP OU h' /\ SA_frame h h'
      /\ (forall v, exists g, hprefs h' v = filter g (hprefs h v))
      /\ (forall v, pmatching h' v = pmatching h v)
      /\ (forall v, hmatching h' v = hmatching h v)
      /\ (forall v, pprefs h' v
                    = if includes S v then remove_all (hprojects h u) (pprefs h v)
                      else pprefs h v)
      /\ same_originals h h'.
Proof.
  induction S as [|a S IH]; intros free h St Hu HS Nm; simpl.
  - exists h. split; [reflexivity|]. split; [exact St|]. split; [apply SA_frame_refl|].
    split; [intros v; apply filter_ex_refl|].
    split; [reflexivity|]. split; [reflexivity|]. split; [reflexivity|].
    apply same_originals_refl.
  - assert (Ha : In a Sts) by (apply HS; now left).
    destruct (SA_supervisor_facts _ _ _ _ _ _ static h u St Hu) as [Pu [_ [_ Projs]]].
    destruct (SA_student_facts _ _ _ _ _ _ static h a St Ha) as [Pa _].
    destruct (getHospital_class "projects" h u (is_supervisor_class h u Pu))
      as [o [Eo [_ [_ [_ [_ Epr]]]]]].
    rewrite (bind_ok _ _ _ _ _ Eo), <- Epr.
    rewrite (bind_ok _ _ _ _ _ (filterM_prefs_include a (hprojects h u) h Pa)).
    destruct (SA_delete_projects_core a
                (filter (fun p => includes (pprefs h a) p) (hprojects h u)) h St Ha)
      as [h1 [E1 [St1 [F1 [G1 [A1 [B1 [D1 O1]]]]]]]].
    { intros q Hq. apply filter_In in Hq. destruct Hq as [Hq _]. now apply Projs. }
    { intros q Hq Hm. apply filter_In in Hq. destruct Hq as [Hq _].
      apply (Nm a (or_introl eq_refl)).
      apply (sa_match_union _ _ _ _ _ _ _ St u a Hu). now exists q. }
    rewrite (bind_ok _ _ _ _ _ E1).
    destruct (SA_student_facts _ _ _ _ _ _ static h1 a St1 Ha) as [Pa1 _].
    rewrite (bind_ok _ _ _ _ _ (drop_if_exhausted_student a free h1 Pa1)).
    rewrite D1, value_eqb_refl, remove_all_filter_includes.
    pose proof F1 as [_ [_ [_ [_ FrPr]]]].
    destruct (IH (if Nat.eqb (List.length (remove_all (hprojects h u) (pprefs h a))) 0
                     && includes free a
                  then remove_first a free else free) h1 St1 Hu)
      as [h2 [E2 [St2 [F2 [G2 [A2 [B2 [D2 O2]]]]]]]].
    { intros t Ht. apply HS. now right. }
    { intros t Ht. rewrite B1. apply Nm. now right. }
    assert (Idem : forall l, remove_all (hprojects h u) (remove_all (hprojects h u) l)
                             = remove_all (hprojects h u) l).
    { intros l. unfold remove_all. induction l as [|x l IHl]; simpl; [reflexivity|].
      destruct (negb (includes (hprojects h u) x)) eqn:Ex; simpl; [|exact IHl].
      rewrite Ex. now rewrite IHl. }
    exists h2. split.
    { rewrite E2. f_equal. f_equal. rewrite FrPr. apply prune_free_ext. intros t Ht.
      rewrite D1. destruct (value_eqb_spec t a) as [->|_]; [|reflexivity].
      now rewrite remove_all_filter_includes, Idem. }
    split; [exact St2|]. split; [exact (SA_frame_trans _ _ _ F1 F2)|].
    split; [intros v; exact (filter_ex_trans _ _ _ (G1 v) (G2 v))|].
    split; [intros v; now rewrite A2, A1|].
    split; [intros v; now rewrite B2, B1|].
    split; [|exact (same_originals_trans _ _ _ O1 O2)].
    intros v. rewrite D2, D1, FrPr.
    change (includes (a :: S) v) with (value_eqb v a || includes S v).
    destruct (value_eqb_spec v a) as [->|Nv]; simpl; [|reflexivity].
    rewrite remove_all_filter_includes.
    destruct (includes S a); [apply Idem|reflexivity].
Qed.

End SA_loops.

(** *** The two conditional loops of an iteration of [studentOptimal] *)

Lemma successors_unmatched (prefs l : list value) (a : value) :
  NoDup prefs -> sorted_by prefs l -> In (last l undefined) prefs ->
  In a (slice prefs (indexOf prefs (last l undefined) + 1)) -> ~ In a l.
Proof.
  intros ND Sl Hl Ha Hin. apply (slice_after_In prefs _ a ND Hl) in Ha.
  pose proof (sorted_by_last_max prefs l a Sl Hin). lia.
Qed.

Lemma nonempty_of_length (l : list value) (c : Z) :
  Z.of_nat (List.length l) = c -> (1 <= c)%Z -> l <> [].
Proof. intros E C ->. simpl in E. lia. Qed.

Lemma getSuccessors_nonempty (x : Hospital.t) :
  Hospital.matching x <> [] -> truthy (last (Hospital.matching x) undefined) = true ->
  Hospital.getSuccessors x
  = slice (Hospital.prefs x)
      (indexOf (Hospital.prefs x) (last (Hospital.matching x) undefined) + 1).
Proof.
  intros Hn T. unfold Hospital.getSuccessors, Hospital.getWorstMatch.
  destruct (Hospital.matching x) as [|m l] eqn:E; [congruence|]. now rewrite T.
Qed.

Section SA_phases.

Variables Sts Ps Us : list value.
Variables O OP OU : value -> list value.
Hypothesis static : SA_static Sts Ps Us O OP OU.

Lemma SA_state_of_core (h h' : heap) :
  SA_state Sts Ps Us O OP OU h -> SA_core Sts Ps Us O OP OU h' -> SA_frame h h' ->
  (forall v, hmatching h' v = hmatching h v) ->
  SA_state Sts Ps Us O OP OU h'.
Proof.
  intros [_ [B1 B2]] St [_ [_ [FrCap _]]] Vh. split; [exact St|].
  split; intros v Hv; rewrite Vh, FrCap; auto.
Qed.

(** The [for] over the successors of the project, when it is full. *)
Lemma studentOptimal_project_full (h : heap) (p : value) (free : list value)
    (x : Hospital.t) :
  SA_state Sts Ps Us O OP OU h -> In p Ps ->
  Hospital.prefs x = hprefs h p -> Hospital.matching x = hmatching h p ->
  Hospital.capacity x = hcapacity h p ->
  exists S h',
    (if (Z.of_nat (List.length (Hospital.matching x)) =? Hospital.capacity x)%Z
     then studentOptimal_delete p (Hospital.getSuccessors x) free
     else ret free) h
    = (Ok (prune_free (fun a => remove_value p (pprefs h a)) S free), h')
    /\ SA_state Sts Ps Us O OP OU h' /\ SA_frame h h'
    /\ (forall v, exists g, hprefs h' v = filter g (hprefs h v))
    /\ (forall v, pmatching h' v = pmatching h v)
    /\ (forall v, hmatching h' v = hmatching h v)
    /\ (forall v, pprefs h' v
                  = if includes S v then remove_value p (pprefs h v) else pprefs h v)
    /\ same_originals h h'
    /\ (Z.of_nat (List.length (hmatching h p)) = hcapacity h p ->
        forall a, In a (hprefs h p) ->
          (indexOf (hprefs h p) (last (hmatching h p) undefined) < indexOf (hprefs h p) a)%Z ->
          In a S).
Proof.
  intros Sta Hp Ex Em Ec. pose proof Sta as [St _].
  rewrite Em, Ec.
  destruct (Z.eqb_spec (Z.of_nat (List.length (hmatching h p))) (hcapacity h p)) as [Full|NF].
  - destruct (sa_projects _ _ _ _ _ _ _ St p Hp) as [_ [_ [_ [Cap _]]]].
    destruct (SA_project_facts _ _ _ _ _ _ static h p St Hp) as [Pp [IncQ [NDQ _]]].
    destruct (sa_project_matches _ _ _ _ _ _ _ St p Hp) as [IncM [NDM SM]].
    pose proof (nonempty_of_length _ _ Full Cap) as Hn.
    pose proof (last_In _ undefined Hn) as Hl.
    destruct (SA_held _ _ _ _ _ _ static h p _ St Hp Hl) as [HlS [_ [HlQ _]]].
    destruct (SA_student_facts _ _ _ _ _ _ static h _ St HlS) as [Pl _].
    rewrite (getSuccessors_nonempty x);
      [|now rewrite Em|rewrite Em; now apply (truthy_player h)].
    rewrite Ex, Em.
    set (S := slice (hprefs h p)
                (indexOf (hprefs h p) (last (hmatching h p) undefined) + 1)).
    destruct (studentOptimal_delete_core _ _ _ _ _ _ static p S free h St Hp)
      as [h' [E [St' [Fr [G [A [B [D Or]]]]]]]].
    { intros a Ha. apply IncQ. exact (slice_incl _ _ a Ha). }
    { intros a Ha. exact (successors_unmatched _ _ a NDQ SM HlQ Ha). }
    exists S, h'. split; [exact E|].
    split; [exact (SA_state_of_core h h' Sta St' Fr B)|].
    split; [exact Fr|]. split; [exact G|]. split; [exact A|]. split; [exact B|].
    split; [exact D|]. split; [exact Or|].
    intros _ a Ha Lt. apply (slice_after_In _ _ a NDQ HlQ). split; assumption.
  - exists [], h. split; [reflexivity|]. split; [exact Sta|]. split; [apply SA_frame_refl|].
    split; [intros v; apply filter_ex_refl|].
    split; [reflexivity|]. split; [reflexivity|]. split; [reflexivity|].
    split; [apply same_originals_refl|]. intros F. contradiction.
Qed.

(** The [for] over the successors of the supervisor, when it is full. *)
Lemma studentOptimal_supervisor_full (h : heap) (u : value) (free : list value)
    (x : Hospital.t) :
  SA_state Sts Ps Us O OP OU h -> In u Us ->
  Hospital.prefs x = hprefs h u -> Hospital.matching x = hmatching h u ->
  Hospital.capacity x = hcapacity h u ->
  exists S h',
    (if (Z.of_nat (List.length (Hospital.matching x)) =? Hospital.capacity x)%Z
     then studentOptimal_delete_supervisor u (Hospital.getSuccessors x) free
     else ret free) h
    = (Ok (prune_free (fun a => remove_all (hprojects h u) (pprefs h a)) S free), h')
    /\ SA_state Sts Ps Us O OP OU h' /\ SA_frame h h'
    /\ (forall v, exists g, hprefs h' v = filter g (hprefs h v))
    /\ (forall v, pmatching h' v = pmatching h v)
    /\ (forall v, hmatching h' v = hmatching h v)
    /\ (forall v, pprefs h' v
                  = if includes S v then remove_all (hprojects h u) (pprefs h v)
                    else pprefs h v)
    /\ same_originals h h'
    /\ (Z.of_nat (List.length (hmatching h u)) = hcapacity h u ->
        forall a, In a (hprefs h u) ->
          (indexOf (hprefs h u) (last (hmatching h u) undefined) < indexOf (hprefs h u) a)%Z ->
          In a S).
Proof.
  intros Sta Hu Ex Em Ec. pose proof Sta as [St _].
  rewrite Em, Ec.
  destruct (Z.eqb_spec (Z.of_nat (List.length (hmatching h u))) (hcapacity h u)) as [Full|NF].
  - destruct (sa_supervisors _ _ _ _ _ _ _ St u Hu) as [_ [_ [_ [Cap _]]]].
    destruct (SA_supervisor_facts _ _ _ _ _ _ static h u St Hu) as [Pu [IncQ [NDQ _]]].
    destruct (sa_supervisor_matches _ _ _ _ _ _ _ St u Hu) as [NDM SM].
    pose proof (nonempty_of_length _ _ Full Cap) as Hn.
    pose proof (last_In _ undefined Hn) as Hl.
    destruct (SA_held_supervisor _ _ _ _ _ _ static h u _ St Hu Hl)
      as [q [_ [_ [_ [HlS [_ HlQ]]]]]].
    destruct (SA_student_facts _ _ _ _ _ _ static h _ St HlS) as [Pl _].
    rewrite (getSuccessors_nonempty x);
      [|now rewrite Em|rewrite Em; now apply (truthy_player h)].
    rewrite Ex, Em.
    set (S := slice (hprefs h u)
                (indexOf (hprefs h u) (last (hmatching h u) undefined) + 1)).
    destruct (studentOptimal_delete_supervisor_core _ _ _ _ _ _ static u S free h St Hu)
      as [h' [E [St' [Fr [G [A [B [D Or]]]]]]]].
    { intros a Ha. apply IncQ. exact (slice_incl _ _ a Ha). }
    { intros a Ha. exact (successors_unmatched _ _ a NDQ SM HlQ Ha). }
    exists S, h'. split; [exact E|].
    split; [exact (SA_state_of_core h h' Sta St' Fr B)|].
    split; [exact Fr|]. split; [exact G|]. split; [exact A|]. split; [exact B|].
    split; [exact D|]. split; [exact Or|].
    intros _ a Ha Lt. apply (slice_after_In _ _ a NDQ HlQ). split; assumption.
  - exists [], h. split; [reflexivity|]. split; [exact Sta|]. split; [apply SA_frame_refl|].
    split; [intros v; apply filter_ex_refl|].
    split; [reflexivity|]. split; [reflexivity|]. split; [reflexivity|].
    split; [apply same_originals_refl|]. intros F. contradiction.
Qed.

End SA_phases.

(** *** The eviction in an iteration of [studentOptimal] *)

Lemma last_of_rest_before (prefs l : list value) (w : value) :
  sorted_by prefs l -> incl l prefs -> w = last l undefined ->
  remove_value w l <> [] ->
  (indexOf prefs (last (remove_value w l) undefined) < indexOf prefs w)%Z.
Proof.
  intros Sl Inc Ew Hn.
  pose proof (last_In _ undefined Hn) as Ht. apply remove_value_In in Ht.
  destruct Ht as [Ht Nt].
  pose proof (sorted_by_last_max prefs l _ Sl Ht) as Le. rewrite <- Ew in Le.
  destruct (Z.eq_dec (indexOf prefs (last (remove_value w l) undefined)) (indexOf prefs w))
    as [E|N]; [|lia].
  apply indexOf_inj in E; [contradiction|]. now apply Inc.
Qed.

Lemma getWorstMatch_last (x : Hospital.t) :
  Hospital.matching x <> [] ->
  Hospital.getWorstMatch x = last (Hospital.matching x) undefined.
Proof.
  unfold Hospital.getWorstMatch. destruct (Hospital.matching x); [congruence|reflexivity].
Qed.

Section SA_evict.

Variables Sts Ps Us : list value.
Variables O OP OU : value -> list value.
Hypothesis static : SA_static Sts Ps Us O OP OU.

(** After the student has been matched, the project, or else its
    supervisor, may hold one student too many, and lets go of the one
    it ranks last. *)
Lemma studentOptimal_evict (h1 : heap) (p u : value) (free : list value)
    (x : Hospital.t) :
  SA_core Sts Ps Us O OP OU h1 -> In p Ps -> u = hsupervisor h1 p ->
  Hospital.matching x = hmatching h1 p -> Hospital.capacity x = hcapacity h1 p ->
  (forall q, In q Ps ->
     (Z.of_nat (List.length (hmatching h1 q))
      <= hcapacity h1 q + (if value_eqb q p then 1 else 0))%Z) ->
  (forall u', In u' Us ->
     (Z.of_nat (List.length (hmatching h1 u'))
      <= hcapacity h1 u' + (if value_eqb u' u then 1 else 0))%Z) ->
  exists free1 h2,
    (if (Hospital.capacity x <? Z.of_nat (List.length (Hospital.matching x)))%Z
     then let worst := Hospital.getWorstMatch x in
          SA_unmatchPair worst p ;;
          ret (free ++ [worst])
     else
       o <- getHospital "matching" u ;;
       if (Hospital.capacity o <? Z.of_nat (List.length (Hospital.matching o)))%Z
       then let worst := Hospital.getWorstMatch o in
            w <- getPlayer "matching" worst ;;
            SA_unmatchPair worst (Player.matching w) ;;
            ret (free ++ [worst])
       else ret free) h1 = (Ok free1, h2)
    /\ SA_state Sts Ps Us O OP OU h2 /\ SA_frame h1 h2
    /\ (forall v, pprefs h2 v = pprefs h1 v)
    /\ (forall v, hprefs h2 v = hprefs h1 v)
    /\ same_originals h1 h2
    /\ ((free1 = free /\ (forall v, pmatching h2 v = pmatching h1 v))
        \/ exists w q,
             free1 = free ++ [w] /\ In w Sts /\ In q Ps /\ pmatching h1 w = q
             /\ hsupervisor h1 q = u /\ In q (pprefs h1 w)
             /\ (forall v, pmatching h2 v = if value_eqb v w then null else pmatching h1 v)
             /\ ((q = p /\ Z.of_nat (List.length (hmatching h2 p)) = hcapacity h2 p
                  /\ In w (hprefs h2 p)
                  /\ (indexOf (hprefs h2 p) (last (hmatching h2 p) undefined)
                      < indexOf (hprefs h2 p) w)%Z)
                 \/ (Z.of_nat (List.length (hmatching h2 u)) = hcapacity h2 u
                     /\ In w (hprefs h2 u)
                     /\ (indexOf (hprefs h2 u) (last (hmatching h2 u) undefined)
                         < indexOf (hprefs h2 u) w)%Z))).
Proof.
  intros St Hp Eu Em Ec Bp Bu.
  destruct (SA_project_facts _ _ _ _ _ _ static h1 p St Hp) as [Pp [_ [_ [Hu [Pu Hin]]]]].
  rewrite <- Eu in Hu, Pu, Hin.
  destruct (sa_projects _ _ _ _ _ _ _ St p Hp) as [_ [_ [_ [Capp _]]]].
  destruct (sa_supervisors _ _ _ _ _ _ _ St u Hu) as [_ [_ [_ [Capu _]]]].
  destruct (SA_supervisor_facts _ _ _ _ _ _ static h1 u St Hu) as [_ [_ [_ Projs]]].
  rewrite Em, Ec.
  assert (Shrink : forall h2 w q v,
            hmatching h2 v = (if value_eqb v q || value_eqb v (hsupervisor h1 q)
                              then remove_value w (hmatching h1 v) else hmatching h1 v) ->
            List.length (hmatching h2 v) <= List.length (hmatching h1 v)).
  { intros h2 w q v ->. destruct (_ || _); [apply remove_value_length|lia]. }
  destruct (Z.ltb_spec (hcapacity h1 p) (Z.of_nat (List.length (hmatching h1 p)))) as [Over|Fits].
  - (* the project holds one too many *)
    pose proof (Bp p Hp) as Bpp. rewrite value_eqb_refl in Bpp.
    assert (Hn : hmatching h1 p <> []).
    { intros E. rewrite E in Over. simpl in Over. lia. }
    rewrite (getWorstMatch_last x) by now rewrite Em. rewrite Em. cbv zeta.
    set (w := last (hmatching h1 p) undefined).
    assert (Hw : In w (hmatching h1 p)) by now apply last_In.
    destruct (SA_held _ _ _ _ _ _ static h1 p w St Hp Hw) as [HwS [Mw [HwQ [HpP [HwU _]]]]].
    rewrite <- Eu in HwU.
    destruct (sa_project_matches _ _ _ _ _ _ _ St p Hp) as [_ [NDp Sp]].
    destruct (sa_supervisor_matches _ _ _ _ _ _ _ St u Hu) as [NDu _].
    destruct (SA_unmatchPair_core _ _ _ _ _ _ static h1 w p St Hp Hw)
      as [h2 [E [St2 [Fr [Vm [Vh [Vp [Vq Or]]]]]]]].
    rewrite <- Eu in Vh.
    rewrite (bind_ok _ _ _ _ _ E).
    pose proof Fr as [_ [_ [FrCap _]]].
    assert (Mp : hmatching h2 p = remove_value w (hmatching h1 p))
      by now rewrite Vh, value_eqb_refl.
    assert (Mu : hmatching h2 u = remove_value w (hmatching h1 u))
      by (rewrite Vh, value_eqb_refl; now rewrite orb_true_r).
    pose proof (remove_value_length_NoDup w _ NDp Hw) as Lp.
    pose proof (remove_value_length_NoDup w _ NDu HwU) as Lu.
    assert (Fullp : Z.of_nat (List.length (hmatching h2 p)) = hcapacity h2 p).
    { rewrite Mp, FrCap. lia. }
    exists (free ++ [w]), h2. split; [reflexivity|].
    split; [|split; [exact Fr|split; [exact Vp|split; [exact Vq|split; [exact Or|]]]]].
    { split; [exact St2|]. split.
      - intros q Hq. rewrite FrCap. specialize (Bp q Hq).
        destruct (value_eqb_spec q p) as [Eq|Nq]; [subst q; rewrite Mp; lia|].
        pose proof (Shrink h2 w p q). rewrite Eu in Vh. specialize (H (Vh q)). lia.
      - intros u' Hu'. rewrite FrCap. specialize (Bu u' Hu').
        destruct (value_eqb_spec u' u) as [Eq|Nu]; [subst u'; rewrite Mu; lia|].
        pose proof (Shrink h2 w p u'). rewrite Eu in Vh. specialize (H (Vh u')). lia. }
    right. exists w, p. split; [reflexivity|]. split; [exact HwS|]. split; [exact Hp|].
    split; [exact Mw|]. split; [now symmetry|]. split; [exact HpP|]. split; [exact Vm|].
    left. split; [reflexivity|]. split; [exact Fullp|]. rewrite Vq. split; [exact HwQ|].
    rewrite Mp. apply last_of_rest_before; [exact Sp| |reflexivity|].
    + intros a Ha. now destruct (SA_held _ _ _ _ _ _ static h1 p a St Hp Ha) as [_ [_ [H _]]].
    + apply (nonempty_of_length _ (hcapacity h2 p)); [now rewrite <- Mp|now rewrite FrCap].
  - (* the project has room *)
    destruct (getHospital_class "matching" h1 u (is_supervisor_class h1 u Pu))
      as [o [Eo [_ [Om [Oc _]]]]].
    rewrite (bind_ok _ _ _ _ _ Eo), <- Om, <- Oc.
    destruct (Z.ltb_spec (hcapacity h1 u) (Z.of_nat (List.length (hmatching h1 u))))
      as [OverU|FitsU].
    + pose proof (Bu u Hu) as Buu. rewrite value_eqb_refl in Buu.
      assert (Hn : hmatching h1 u <> []).
      { intros E. rewrite E in OverU. simpl in OverU. lia. }
      rewrite (getWorstMatch_last o) by now rewrite <- Om. rewrite <- Om. cbv zeta.
      set (w := last (hmatching h1 u) undefined).
      assert (Hw : In w (hmatching h1 u)) by now apply last_In.
      destruct (SA_held_supervisor _ _ _ _ _ _ static h1 u w St Hu Hw)
        as [q [Hq [HqP [Hwq [HwS [Mw HwQ]]]]]].
      destruct (Projs q Hq) as [_ [Equ _]].
      destruct (SA_held _ _ _ _ _ _ static h1 q w St HqP Hwq) as [_ [_ [_ [HqW _]]]].
      destruct (SA_student_facts _ _ _ _ _ _ static h1 w St HwS) as [Pw _].
      destruct (player_view h1 w Pw) as [pw [Epw [_ Pmw]]].
      rewrite (bind_ok _ _ _ _ _ (getPlayer_at "matching" w h1 pw Epw)).
      rewrite <- Pmw, Mw.
      destruct (sa_supervisor_matches _ _ _ _ _ _ _ St u Hu) as [NDu Su].
      destruct (SA_unmatchPair_core _ _ _ _ _ _ static h1 w q St HqP Hwq)
        as [h2 [E [St2 [Fr [Vm [Vh [Vp [Vq Or]]]]]]]].
      rewrite (bind_ok _ _ _ _ _ E).
      pose proof Fr as [_ [_ [FrCap _]]].
      assert (Mu : hmatching h2 u = remove_value w (hmatching h1 u)).
      { rewrite Vh, Equ, value_eqb_refl. now rewrite orb_true_r. }
      pose proof (remove_value_length_NoDup w _ NDu Hw) as Lu.
      assert (Fullu : Z.of_nat (List.length (hmatching h2 u)) = hcapacity h2 u).
      { rewrite Mu, FrCap. lia. }
      exists (free ++ [w]), h2. split; [reflexivity|].
      split; [|split; [exact Fr|split; [exact Vp|split; [exact Vq|split; [exact Or|]]]]].
      { split; [exact St2|]. split.
        - intros q' Hq'. rewrite FrCap. specialize (Bp q' Hq').
          pose proof (Shrink h2 w q q' (Vh q')).
          destruct (value_eqb_spec q' p) as [Eq|Nq]; [subst q'|]; lia.
        - intros u' Hu'. rewrite FrCap. specialize (Bu u' Hu').
          destruct (value_eqb_spec u' u) as [Eq|Nu]; [subst u'; rewrite Mu; lia|].
          pose proof (Shrink h2 w q u' (Vh u')). lia. }
      right. exists w, q. split; [reflexivity|]. split; [exact HwS|]. split; [exact HqP|].
      split; [exact Mw|]. split; [exact Equ|]. split; [exact HqW|]. split; [exact Vm|].
      right. split; [exact Fullu|]. rewrite Vq. split; [exact HwQ|].
      rewrite Mu. apply last_of_rest_before; [exact Su| |reflexivity|].
      * intros a Ha.
        now destruct (SA_held_supervisor _ _ _ _ _ _ static h1 u a St Hu Ha)
          as [_ [_ [_ [_ [_ [_ H]]]]]].
      * apply (nonempty_of_length _ (hcapacity h2 u)); [now rewrite <- Mu|now rewrite FrCap].
    + exists free, h1. split; [reflexivity|].
      split; [|split; [apply SA_frame_refl|split; [reflexivity|split; [reflexivity|
        split; [apply same_originals_refl|]]]]].
      { split; [exact St|]. split.
        - intros q Hq. specialize (Bp q Hq).
          destruct (value_eqb_spec q p) as [Eq|Nq]; [subst q|]; lia.
        - intros u' Hu'. specialize (Bu u' Hu').
          destruct (value_eqb_spec u' u) as [Eq|Nu]; [subst u'|]; lia. }
      left. split; reflexivity.
Qed.

End SA_evict.

(** *** One iteration of the loop of [studentOptimal] *)

Lemma filter_ex_In (l l' : list value) (x : value) :
  (exists f, l' = filter f l) -> In x l' -> In x l.
Proof. intros [f ->] H. now apply filter_In in H. Qed.

Lemma filter_ex_length_le (l l' : list value) :
  (exists f, l' = filter f l) -> List.length l' <= List.length l.
Proof. intros [f ->]. apply filter_length_le. Qed.

Lemma filter_ex_length_lt (l l' : list value) (x : value) :
  (exists f, l' = filter f l) -> In x l -> ~ In x l' -> List.length l' < List.length l.
Proof.
  intros [f ->] Hx Nx. induction l as [|y l IH]; [destruct Hx|]. simpl in *.
  destruct (f y) eqn:Fy; simpl in *.
  - destruct Hx as [->|Hx]; [tauto|]. apply Nat.succ_lt_mono in IH; [exact IH|exact Hx|tauto].
  - pose proof (filter_length_le f l). lia.
Qed.

Lemma filter_ex_remove_value (p : value) (l : list value) :
  exists f, remove_value p l = filter f l.
Proof. eexists. reflexivity. Qed.

Lemma filter_ex_remove_all (L l : list value) : exists f, remove_all L l = filter f l.
Proof. eexists. reflexivity. Qed.

Section SA_step.

Variables Sts Ps Us : list value.
Variables O OP OU : value -> list value.
Hypothesis static : SA_static Sts Ps Us O OP OU.

(** The work list after one of the loops over successors. *)
Lemma SA_free_prune (h h' : heap) (free S : list value) (g : list value -> list value) :
  (forall l, exists f, g l = filter f l) ->
  (forall v, pmatching h' v = pmatching h v) ->
  (forall v, pprefs h' v = if includes S v then g (pprefs h v) else pprefs h v) ->
  NoDup free -> incl free Sts -> (forall a, In a free -> pmatching h a = null) ->
  (forall a, In a Sts -> pmatching h a = null -> pprefs h a <> [] -> In a free) ->
  NoDup (prune_free (fun a => g (pprefs h a)) S free)
  /\ incl (prune_free (fun a => g (pprefs h a)) S free) Sts
  /\ (forall a, In a (prune_free (fun a => g (pprefs h a)) S free) -> pmatching h' a = null)
  /\ (forall a, In a Sts -> pmatching h' a = null -> pprefs h' a <> [] ->
                In a (prune_free (fun a => g (pprefs h a)) S free))
  /\ List.length (prune_free (fun a => g (pprefs h a)) S free) <= List.length free
  /\ (forall v, exists f, pprefs h' v = filter f (pprefs h v)).
Proof.
  intros G Vm Vp ND Inc Nul Cov.
  assert (Sub : forall v, exists f, pprefs h' v = filter f (pprefs h v)).
  { intros v. rewrite Vp. destruct (includes S v); [apply G|apply filter_ex_refl]. }
  split; [now apply prune_free_NoDup|].
  split; [intros a Ha; apply Inc; exact (prune_free_In _ _ _ _ Ha)|].
  split; [intros a Ha; rewrite Vm; apply Nul; exact (prune_free_In _ _ _ _ Ha)|].
  split; [|split; [apply prune_free_length|exact Sub]].
  intros a Ha Na Hne. rewrite Vm in Na.
  apply prune_free_keeps.
  - intros HS. apply includes_In in HS. rewrite Vp, HS in Hne. exact Hne.
  - apply Cov; [exact Ha|exact Na|]. intros E. apply Hne.
    destruct (Sub a) as [f Ef]. rewrite Ef, E. reflexivity.
Qed.

(** One iteration of the [while] loop keeps the invariant and decreases
    the measure. *)
Lemma SA_inv_step (h : heap) (free0 : list value) (s : value) :
  SA_inv Sts Ps Us O OP OU h (free0 ++ [s]) ->
  exists free' h',
    studentOptimal_step s free0 h = (Ok free', h')
    /\ SA_inv Sts Ps Us O OP OU h' free'
    /\ same_originals h h'
    /\ HR_measure Sts h' free' < HR_measure Sts h (free0 ++ [s]).
Proof.
  intros [Sta [ND [Inc [Nul Cov]]]]. pose proof Sta as [St [Bp Bu]].
  assert (Hs : In s Sts) by (apply Inc, in_or_app; right; now left).
  assert (Snull : pmatching h s = null) by (apply Nul, in_or_app; right; now left).
  apply NoDup_snoc in ND. destruct ND as [ND Hsf].
  destruct (SA_student_facts _ _ _ _ _ _ static h s St Hs) as [Pl [IncP _]].
  destruct (player_view h s Pl) as [ps [Eps [Pps _]]].
  unfold studentOptimal_step.
  rewrite (bind_ok _ _ _ _ _ (getPlayer_at "prefs" s h ps Eps)).
  unfold Player.getFavourite. rewrite <- Pps.
  destruct (pprefs h s) as [|p rest] eqn:EP.
  { (* nobody left to apply to *)
    exists free0, h. split; [reflexivity|]. split; [|split; [apply same_originals_refl|]].
    - split; [exact Sta|]. split; [exact ND|].
      split; [intros a Ha; apply Inc, in_or_app; now left|].
      split; [intros a Ha; apply Nul, in_or_app; now left|].
      intros a Ha Na Hne. destruct (in_app_or _ _ _ (Cov a Ha Na Hne)) as [H|[<-|[]]];
        [exact H|congruence].
    - unfold HR_measure. rewrite length_app. simpl. lia. }
  change (Nat.eqb (List.length (p :: rest)) 0) with false. cbv iota.
  change (at_index (p :: rest) 0) with p.
  assert (Hp : In p Ps) by (apply IncP; now left).
  destruct (SA_project_facts _ _ _ _ _ _ static h p St Hp) as [Pp [_ [_ [Hu [Pu Hin]]]]].
  destruct (getHospital_class "supervisor" h p (is_project_class h p Pp))
    as [x [Ex [_ [_ [_ [Exs _]]]]]].
  rewrite (bind_ok _ _ _ _ _ Ex), <- Exs.
  set (u := hsupervisor h p) in *.
  (* the match *)
  destruct (SA_matchPair_core _ _ _ _ _ _ static h s p rest St Hs Snull EP)
    as [h1 [E1 [St1 [F1 [Vm1 [Vh1 [Vp1 [Vq1 Or1]]]]]]]].
  fold u in Vh1.
  rewrite (bind_ok _ _ _ _ _ E1).
  pose proof F1 as [_ [_ [FrCap1 [FrS1 FrPr1]]]].
  assert (Pp1 : is_project h1 p = true) by now rewrite (SA_frame_project h h1 p F1).
  destruct (getHospital_class "matching" h1 p (is_project_class h1 p Pp1))
    as [x1 [Ex1 [_ [Em1 [Ec1 _]]]]].
  rewrite (bind_ok _ _ _ _ _ Ex1).
  (* the eviction *)
  destruct (studentOptimal_evict _ _ _ _ _ _ static h1 p u free0 x1 St1 Hp)
    as [free1 [h2 [E2 [Sta2 [F2 [Vp2 [Vq2 [Or2 Alt]]]]]]]].
  { now rewrite FrS1. }
  { now symmetry. }
  { now symmetry. }
  { intros q Hq. rewrite FrCap1, Vh1. specialize (Bp q Hq).
    destruct (SA_project_facts _ _ _ _ _ _ static h q St Hq) as [Pq _].
    destruct (value_eqb_spec q p) as [Eq|Nq]; simpl.
    - rewrite sort_by_length, length_app. simpl. lia.
    - destruct (value_eqb_spec q u) as [Equ|_]; [|lia].
      subst q. now destruct (project_not_supervisor h u u Pq Pu). }
  { intros u' Hu'. rewrite FrCap1, Vh1. specialize (Bu u' Hu').
    destruct (SA_supervisor_facts _ _ _ _ _ _ static h u' St Hu') as [Pu' _].
    destruct (value_eqb_spec u' u) as [Eq|Nq]; simpl.
    - rewrite orb_true_r, sort_by_length, length_app. simpl. lia.
    - destruct (value_eqb_spec u' p) as [Equ|_]; [|simpl; lia].
      subst u'. now destruct (project_not_supervisor h p p Pp Pu'). }
  rewrite (bind_ok _ _ _ _ _ E2).
  pose proof Sta2 as [St2 _].
  pose proof F2 as [_ [_ [FrCap2 [FrS2 FrPr2]]]].
  (* the work list after the eviction *)
  assert (Free1 : NoDup free1 /\ incl free1 Sts
                  /\ (forall a, In a free1 -> pmatching h2 a = null)
                  /\ (forall a, In a Sts -> pmatching h2 a = null -> pprefs h2 a <> [] ->
                                In a free1)).
  { assert (Pnn : p <> null) by now apply (project_not_null h p).
    assert (Old : forall a, In a Sts -> pmatching h1 a = null -> pprefs h2 a <> [] ->
                            In a free0).
    { intros a Ha Na Hne. rewrite Vm1 in Na. destruct (value_eqb_spec a s) as [->|Nas];
        [congruence|].
      rewrite Vp2, Vp1 in Hne.
      destruct (in_app_or _ _ _ (Cov a Ha Na Hne)) as [H|[<-|[]]]; [exact H|congruence]. }
    assert (Free0 : forall a, In a free0 -> pmatching h1 a = null).
    { intros a Ha. rewrite Vm1. destruct (value_eqb_spec a s) as [->|_]; [contradiction|].
      apply Nul, in_or_app. now left. }
    destruct Alt as [[-> Vm2]|[w [q [-> [HwS [HqP [Mw [_ [_ [Vm2 _]]]]]]]]]].
    - split; [exact ND|]. split; [intros a Ha; apply Inc, in_or_app; now left|].
      split; [intros a Ha; rewrite Vm2; now apply Free0|].
      intros a Ha Na. rewrite Vm2 in Na. now apply Old.
    - split.
      { apply NoDup_snoc. split; [exact ND|]. intros Hw. apply Free0 in Hw.
        rewrite Hw in Mw. subst q.
        destruct (SA_project_facts _ _ _ _ _ _ static h1 null St1 HqP) as [Pq _].
        discriminate. }
      split.
      { intros a Ha. destruct (in_app_or _ _ _ Ha) as [H|[<-|[]]]; [|exact HwS].
        apply Inc, in_or_app. now left. }
      split.
      { intros a Ha. rewrite Vm2. destruct (value_eqb_spec a w) as [_|Naw]; [reflexivity|].
        destruct (in_app_or _ _ _ Ha) as [H|[Eq|[]]]; [now apply Free0|].
        now destruct Naw. }
      intros a Ha Na Hne. apply in_or_app. rewrite Vm2 in Na.
      destruct (value_eqb_spec a w) as [->|Naw]; [right; now left|left]. now apply Old. }
  destruct Free1 as [ND1 [Inc1 [Nul1 Cov1]]].
  (* the successors of the project *)
  assert (Pp2 : is_project h2 p = true) by now rewrite (SA_frame_project h1 h2 p F2).
  destruct (getHospital_class "matching" h2 p (is_project_class h2 p Pp2))
    as [x2 [Ex2 [Eq2 [Em2 [Ec2 _]]]]].
  rewrite (bind_ok _ _ _ _ _ Ex2).
  destruct (studentOptimal_project_full _ _ _ _ _ _ static h2 p free1 x2 Sta2 Hp)
    as [SB [h3 [E3 [Sta3 [F3 [G3 [Vm3 [Vh3 [Vp3 [Or3 SuccB]]]]]]]]]];
    [now symmetry|now symmetry|now symmetry|].
  rewrite (bind_ok _ _ _ _ _ E3).
  pose proof Sta3 as [St3 _].
  pose proof F3 as [_ [_ [FrCap3 [FrS3 FrPr3]]]].
  destruct (SA_free_prune h2 h3 free1 SB (remove_value p) (filter_ex_remove_value p)
              Vm3 Vp3 ND1 Inc1 Nul1 Cov1) as [ND2 [Inc2 [Nul2 [Cov2 [Len2 Sub3]]]]].
  set (free2 := prune_free (fun a => remove_value p (pprefs h2 a)) SB free1) in *.
  (* the successors of the supervisor *)
  assert (Hu1 : hsupervisor h1 p = u) by now rewrite FrS1.
  assert (Pu3 : is_supervisor h3 u = true).
  { rewrite (SA_frame_supervisor h2 h3 u F3), (SA_frame_supervisor h1 h2 u F2).
    now rewrite (SA_frame_supervisor h h1 u F1). }
  destruct (getHospital_class "matching" h3 u (is_supervisor_class h3 u Pu3))
    as [x3 [Ex3 [Eq3 [Em3 [Ec3 _]]]]].
  rewrite (bind_ok _ _ _ _ _ Ex3).
  destruct (studentOptimal_supervisor_full _ _ _ _ _ _ static h3 u free2 x3 Sta3 Hu)
    as [SC [h4 [E4 [Sta4 [F4 [G4 [Vm4 [Vh4 [Vp4 [Or4 SuccC]]]]]]]]]];
    [now symmetry|now symmetry|now symmetry|].
  destruct (SA_free_prune h3 h4 free2 SC (remove_all (hprojects h3 u))
              (filter_ex_remove_all (hprojects h3 u))
              Vm4 Vp4 ND2 Inc2 Nul2 Cov2) as [ND3 [Inc3 [Nul3 [Cov3 [Len3 Sub4]]]]].
  set (free3 := prune_free (fun a => remove_all (hprojects h3 u) (pprefs h3 a)) SC free2) in *.
  exists free3, h4. split; [exact E4|].
  split; [split; [exact Sta4|]; split; [exact ND3|]; split; [exact Inc3|];
          split; [exact Nul3|exact Cov3]|].
  split.
  { exact (same_originals_trans _ _ _ Or1
             (same_originals_trans _ _ _ Or2 (same_originals_trans _ _ _ Or3 Or4))). }
  (* the measure *)
  assert (Sub : forall v, exists f, pprefs h4 v = filter f (pprefs h v)).
  { intros v. apply (filter_ex_trans _ (pprefs h3 v)); [|apply Sub4].
    destruct (Sub3 v) as [f Ef]. exists f. now rewrite Ef, Vp2, Vp1. }
  assert (Le : list_sum (map (fun r => List.length (pprefs h4 r)) Sts)
               <= list_sum (map (fun r => List.length (pprefs h r)) Sts)).
  { apply list_sum_le. intros r _. apply filter_ex_length_le, Sub. }
  unfold HR_measure. rewrite length_app. simpl.
  destruct Alt as [[Ef _]|[w [q [Ef [HwS [HqP [Mw [Equ [HqW [Vm2 Rank]]]]]]]]]].
  { subst free1. lia. }
  assert (Len1 : List.length free1 = List.length free0 + 1).
  { rewrite Ef, length_app. reflexivity. }
  assert (Lt : list_sum (map (fun r => List.length (pprefs h4 r)) Sts)
               < list_sum (map (fun r => List.length (pprefs h r)) Sts)); [|lia].
  apply (list_sum_lt _ _ Sts w); [intros r _; apply filter_ex_length_le, Sub|exact HwS|].
  apply (filter_ex_length_lt _ _ q (Sub w)); [now rewrite <- Vp1|].
  intros Hq4.
  assert (Hq3 : In q (pprefs h3 w)) by exact (filter_ex_In _ _ q (Sub4 w) Hq4).
  destruct Rank as [[-> [Full [HwQ Lt]]]|[Full [HwQ Lt]]].
  - specialize (SuccB Full w HwQ Lt). apply includes_In in SuccB.
    rewrite Vp3, SuccB in Hq3. apply remove_value_In in Hq3. now destruct Hq3.
  - assert (Hqu : In q (hprojects h3 u)).
    { rewrite FrPr3, FrPr2, <- Equ.
      now destruct (SA_project_facts _ _ _ _ _ _ static h1 q St1 HqP) as [_ [_ [_ [_ [_ H]]]]]. }
    assert (HwQ3 : In w (hprefs h3 u)).
    { apply (sa_union _ _ _ _ _ _ _ St3 u w Hu). exists q. split; [exact Hqu|].
      now apply (sa_reciprocal _ _ _ _ _ _ _ St3 w q HwS HqP). }
    destruct (sa_supervisors _ _ _ _ _ _ _ St2 u Hu) as [_ [_ [_ [Capu _]]]].
    pose proof (nonempty_of_length _ _ Full Capu) as Hn.
    pose proof (last_In _ undefined Hn) as Ht.
    assert (Ht3 : In (last (hmatching h2 u) undefined) (hprefs h3 u)).
    { rewrite <- (Vh3 u) in Ht. rewrite <- (Vh3 u).
      now destruct (SA_held_supervisor _ _ _ _ _ _ static h3 u _ St3 Hu Ht)
        as [_ [_ [_ [_ [_ [_ H]]]]]]. }
    destruct (G3 u) as [g Eg].
    assert (Lt3 : (indexOf (hprefs h3 u) (last (hmatching h3 u) undefined)
                   < indexOf (hprefs h3 u) w)%Z).
    { rewrite Vh3. rewrite Eg in *. now apply indexOf_filter_lt. }
    assert (Full3 : Z.of_nat (List.length (hmatching h3 u)) = hcapacity h3 u)
      by now rewrite Vh3, FrCap3.
    specialize (SuccC Full3 w HwQ3 Lt3). apply includes_In in SuccC.
    rewrite Vp4, SuccC in Hq4. apply remove_all_In in Hq4. now destruct Hq4.
Qed.

End SA_step.

(** *** The loop of [studentOptimal], from a consistent game to a solved state *)

Section SA_run.

Variables Sts Ps Us : list value.
Variables O OP OU : value -> list value.
Hypothesis static : SA_static Sts Ps Us O OP OU.

(** With fuel for as many iterations as the measure allows, the loop
    returns, and leaves a state with an empty work list. *)
Lemma SA_loop_total (fuel : nat) :
  forall free h,
    SA_inv Sts Ps Us O OP OU h free -> HR_measure Sts h free <= fuel ->
    exists h', studentOptimal_loop fuel free h = (Ok tt, h')
               /\ SA_inv Sts Ps Us O OP OU h' []
               /\ same_originals h h'.
Proof.
  induction fuel as [|fuel IH]; intros free h Inv Hm.
  - assert (free = []).
    { unfold HR_measure in Hm. destruct free; [reflexivity|simpl in Hm; lia]. }
    subst free. exists h. split; [reflexivity|]. split; [exact Inv|apply same_originals_refl].
  - simpl. destruct (pop free) as [[s free0]|] eqn:Ep.
    + apply pop_Some in Ep. subst free.
      destruct (SA_inv_step Sts Ps Us O OP OU static h free0 s Inv)
        as [free' [h1 [E [Inv1 [Or1 Lt]]]]].
      rewrite (bind_ok _ _ _ _ _ E).
      destruct (IH free' h1 Inv1) as [h' [E' [Fin Or']]]; [lia|].
      exists h'. split; [exact E'|]. split; [exact Fin|].
      exact (same_originals_trans _ _ _ Or1 Or').
    + apply pop_None in Ep. subst free. exists h. split; [reflexivity|].
      split; [exact Inv|apply same_originals_refl].
Qed.

(** What the invariant says when the work list is empty. *)
Lemma SA_inv_solved (h : heap) :
  SA_inv Sts Ps Us O OP OU h [] -> SA_solved h Sts Ps Us.
Proof.
  intros [[St [Bp Bu]] [_ [_ [_ Cov]]]].
  split; [intros s Hs; now destruct (sa_students _ _ _ _ _ _ _ St s Hs)|].
  split; [intros p Hp; now destruct (sa_projects _ _ _ _ _ _ _ St p Hp)|].
  split; [intros u Hu; now destruct (sa_supervisors _ _ _ _ _ _ _ St u Hu)|].
  split; [exact (sa_match _ _ _ _ _ _ _ St)|].
  split; [exact (sa_match_union _ _ _ _ _ _ _ St)|].
  split; [|split].
  - intros p Hp. destruct (sa_project_matches _ _ _ _ _ _ _ St p Hp) as [A [B _]].
    split; [exact A|]. split; [|split; [now apply Bp|exact B]].
    intros m Hm. now destruct (SA_held _ _ _ _ _ _ static h p m St Hp Hm) as [_ [_ [H _]]].
  - intros u Hu. destruct (sa_supervisor_matches _ _ _ _ _ _ _ St u Hu) as [B _].
    split; [|split; [now apply Bu|exact B]].
    intros m Hm.
    now destruct (SA_held_supervisor _ _ _ _ _ _ static h u m St Hu Hm)
      as [_ [_ [_ [_ [_ [_ H]]]]]].
  - intros s Hs. destruct (sa_first _ _ _ _ _ _ _ St s Hs) as [N|[rest E]].
    + left. split; [exact N|].
      destruct (pprefs h s) as [|y l] eqn:Ep; [reflexivity|].
      exfalso. apply (Cov s Hs N). rewrite Ep. discriminate.
    + right. split; [|now exists rest].
      destruct (SA_student_facts _ _ _ _ _ _ static h s St Hs) as [_ [Inc _]].
      apply Inc. rewrite E. now left.
Qed.

End SA_run.

(** A consistent game is a state of the loop, with every student on the
    work list. *)
Lemma SA_consistent_inv (h : heap) (Sts Ps Us : list value) :
  SA_consistent h Sts Ps Us = true ->
  SA_static Sts Ps Us (pprefs h) (hprefs h) (hprefs h)
  /\ SA_inv Sts Ps Us (pprefs h) (hprefs h) (hprefs h) h Sts
  /\ HR_measure Sts h Sts <= List.length Sts + List.length Sts * List.length Ps.
Proof.
  unfold SA_consistent. rewrite !andb_true_iff.
  intros [[[[[NDS NDP] NDU] CS] CP] CU].
  apply nodupb_NoDup in NDS. apply nodupb_NoDup in NDP. apply nodupb_NoDup in NDU.
  assert (Pl : forall s, In s Sts ->
            is_player h s = true /\ pmatching h s = null /\ NoDup (pprefs h s)
            /\ incl (pprefs h s) Ps
            /\ (forall p, In p (pprefs h s) -> In s (hprefs h p))).
  { intros s Hs. pose proof (forallb_In _ _ s CS Hs) as C. simpl in C.
    rewrite !andb_true_iff in C. destruct C as [[[[A B] C] D] E].
    split; [exact A|]. split; [now apply value_eqb_eq|].
    split; [now apply nodupb_NoDup|]. split.
    - intros p Hp. apply includes_In. exact (forallb_In _ _ p D Hp).
    - intros p Hp. apply includes_In. exact (forallb_In _ _ p E Hp). }
  assert (Pr : forall p, In p Ps ->
            is_project h p = true /\ In (hsupervisor h p) Us
            /\ In p (hprojects h (hsupervisor h p)) /\ (1 <= hcapacity h p)%Z
            /\ hmatching h p = [] /\ NoDup (hprefs h p) /\ incl (hprefs h p) Sts
            /\ (forall s, In s (hprefs h p) -> In p (pprefs h s))
            /\ incl (hprefs h p) (hprefs h (hsupervisor h p))).
  { intros p Hp. pose proof (forallb_In _ _ p CP Hp) as C. simpl in C.
    rewrite !andb_true_iff in C. destruct C as [[[[[[[[A B] C] D] E] F] G] H] I].
    split; [exact A|]. split; [now apply includes_In|]. split; [now apply includes_In|].
    split; [now apply Z.leb_le|].
    split; [apply Nat.eqb_eq in E; now destruct (hmatching h p)|].
    split; [now apply nodupb_NoDup|]. split; [|split].
    - intros s Hs. apply includes_In. exact (forallb_In _ _ s G Hs).
    - intros s Hs. apply includes_In. exact (forallb_In _ _ s H Hs).
    - intros s Hs. apply includes_In. exact (forallb_In _ _ s I Hs). }
  assert (Su : forall u, In u Us ->
            is_supervisor h u = true /\ NoDup (hprojects h u)
            /\ (forall q, In q (hprojects h u) -> In q Ps /\ hsupervisor h q = u)
            /\ (1 <= hcapacity h u)%Z /\ hmatching h u = []
            /\ NoDup (hprefs h u) /\ incl (hprefs h u) Sts
            /\ (forall a, In a (hprefs h u) ->
                  exists q, In q (hprojects h u) /\ In a (hprefs h q))).
  { intros u Hu. pose proof (forallb_In _ _ u CU Hu) as C. simpl in C.
    rewrite !andb_true_iff in C. destruct C as [[[[[[[A B] C] D] E] F] G] H].
    split; [exact A|]. split; [now apply nodupb_NoDup|]. split.
    { intros q Hq. pose proof (forallb_In _ _ q C Hq) as Cq. simpl in Cq.
      apply andb_true_iff in Cq. destruct Cq as [C1 C2].
      split; [now apply includes_In|now apply value_eqb_eq]. }
    split; [now apply Z.leb_le|].
    split; [apply Nat.eqb_eq in E; now destruct (hmatching h u)|].
    split; [now apply nodupb_NoDup|]. split.
    - intros s Hs. apply includes_In. exact (forallb_In _ _ s G Hs).
    - intros a Ha. pose proof (forallb_In _ _ a H Ha) as Ca. simpl in Ca.
      apply existsb_exists in Ca. destruct Ca as [q [Hq Iq]].
      exists q. split; [exact Hq|now apply includes_In]. }
  split; [|split].
  - split; [exact NDS|]. split; [exact NDP|]. split; [exact NDU|]. split; [|split].
    + intros s Hs. destruct (Pl s Hs) as [_ [_ [A [B _]]]]. now split.
    + intros p Hp. destruct (Pr p Hp) as [_ [_ [_ [_ [_ [A [B _]]]]]]]. now split.
    + intros u Hu. destruct (Su u Hu) as [_ [_ [_ [_ [_ [A [B _]]]]]]]. now split.
  - split.
    { split.
      { constructor.
        - intros s Hs. destruct (Pl s Hs) as [A _]. split; [exact A|apply filter_ex_refl].
        - intros p Hp. destruct (Pr p Hp) as [A [B [C [D _]]]].
          repeat (split; [assumption|]). apply filter_ex_refl.
        - intros u Hu. destruct (Su u Hu) as [A [B [C [D _]]]].
          repeat (split; [assumption|]). apply filter_ex_refl.
        - intros s p Hs Hp. split; intros H.
          + now destruct (Pl s Hs) as [_ [_ [_ [_ A]]]]; apply A.
          + now destruct (Pr p Hp) as [_ [_ [_ [_ [_ [_ [_ [A _]]]]]]]]; apply A.
        - intros u a Hu. destruct (Su u Hu) as [_ [_ [Pq [_ [_ [_ [_ A]]]]]]].
          split; [now apply A|]. intros [q [Hq Ha]]. destruct (Pq q Hq) as [HqP Eq].
          destruct (Pr q HqP) as [_ [_ [_ [_ [_ [_ [_ [_ I]]]]]]]].
          rewrite Eq in I. now apply I.
        - intros s p Hs Hp. destruct (Pl s Hs) as [_ [N _]].
          destruct (Pr p Hp) as [A [_ [_ [_ [M _]]]]]. rewrite N, M. split.
          + intros <-. discriminate.
          + intros [].
        - intros u a Hu. destruct (Su u Hu) as [_ [_ [Pq [_ [M _]]]]]. rewrite M. split.
          + intros [].
          + intros [q [Hq Ha]]. destruct (Pq q Hq) as [HqP _].
            destruct (Pr q HqP) as [_ [_ [_ [_ [Mq _]]]]]. now rewrite Mq in Ha.
        - intros p Hp. destruct (Pr p Hp) as [_ [_ [_ [_ [M _]]]]]. rewrite M.
          split; [intros y []|]. split; constructor.
        - intros u Hu. destruct (Su u Hu) as [_ [_ [_ [_ [M _]]]]]. rewrite M.
          split; constructor.
        - intros s Hs. left. now destruct (Pl s Hs) as [_ [N _]]. }
      split.
      - intros p Hp. destruct (Pr p Hp) as [_ [_ [_ [C [M _]]]]]. rewrite M. simpl. lia.
      - intros u Hu. destruct (Su u Hu) as [_ [_ [_ [C [M _]]]]]. rewrite M. simpl. lia. }
    split; [exact NDS|]. split; [apply incl_refl|].
    split; [intros s Hs; now destruct (Pl s Hs) as [_ [N _]]|].
    intros s Hs _ _. exact Hs.
  - unfold HR_measure. apply Nat.add_le_mono_l.
    rewrite <- (list_sum_const (fun _ : value => List.length Ps) (List.length Ps) Sts)
      by reflexivity.
    apply list_sum_le. intros s Hs. destruct (Pl s Hs) as [_ [_ [A [B _]]]].
    now apply NoDup_incl_length.
Qed.

(** The result map of the solvers, for projects. *)
Lemma multiple_result_projects (l : list value) :
  forall acc h,
    (forall x, In x l -> is_project h x = true) ->
    NoDup l -> (forall x, In x l -> ~ In x (map fst acc)) ->
    multiple_result l acc h = (Ok (acc ++ map (fun x => (x, hmatching h x)) l), h).
Proof.
  induction l as [|x l IH]; intros acc h Pl ND Hacc; simpl.
  - now rewrite app_nil_r.
  - destruct (getHospital_class "matching" h x (is_project_class h x (Pl x (or_introl eq_refl))))
      as [o [E [_ [Em _]]]].
    rewrite (bind_ok _ _ _ _ _ E).
    apply NoDup_cons_iff in ND. destruct ND as [Hx ND].
    rewrite map_set_fresh by (apply Hacc; now left).
    rewrite IH; auto.
    + rewrite <- app_assoc. simpl. now rewrite Em.
    + intros y Hy. apply Pl. now right.
    + intros y Hy. rewrite map_app, in_app_iff. simpl. intros [H|[H|[]]].
      * apply (Hacc y); auto. now right.
      * congruence.
Qed.

(** With fuel for [n + n * k] iterations, [n] students and [k]
    projects, the student-optimal algorithm returns the matches of every
    project and leaves a solved state. *)
Lemma studentOptimal_solved (h : heap) (Sts Ps Us : list value) (fuel : nat) :
  SA_consistent h Sts Ps Us = true ->
  List.length Sts + List.length Sts * List.length Ps <= fuel ->
  exists h',
    studentAllocation fuel Sts Ps Us student_optimal h
    = (Ok (map (fun x => (x, hmatching h' x)) Ps), h')
    /\ SA_solved h' Sts Ps Us
    /\ same_originals h h'
    /\ (forall s, In s Sts -> exists f, pprefs h' s = filter f (pprefs h s)).
Proof.
  intros C Hfuel. destruct (SA_consistent_inv h Sts Ps Us C) as [St [Inv Hm]].
  destruct (SA_loop_total Sts Ps Us _ _ _ St fuel Sts h Inv) as [h' [E [Fin Or]]]; [lia|].
  pose proof (SA_inv_solved Sts Ps Us _ _ _ St h' Fin) as Sol.
  exists h'. split; [|split; [exact Sol|split; [exact Or|]]].
  - unfold studentAllocation, studentOptimal. rewrite (bind_ok _ _ _ _ _ E).
    rewrite multiple_result_projects; auto.
    + destruct Sol as [_ [H _]]. exact H.
    + now destruct St as [_ [H _]].
  - intros s Hs. destruct Fin as [[Core _] _].
    now destruct (sa_students _ _ _ _ _ _ _ Core s Hs) as [_ H].
Qed.

(** [solve('student')] on a consistent game. *)
Lemma StudentAllocation_solve_solved (g : StudentAllocation.t) (h : heap) (fuel : nat) :
  SA_consistent h (StudentAllocation.students g) (StudentAllocation.projects g)
    (StudentAllocation.supervisors g) = true ->
  List.length (StudentAllocation.students g)
    + List.length (StudentAllocation.students g) * List.length (StudentAllocation.projects g)
    <= fuel ->
  exists h',
    StudentAllocation_solve fuel g student_optimal h
    = (Ok (StudentAllocation.mk (StudentAllocation.students g) (StudentAllocation.projects g)
             (StudentAllocation.supervisors g) (StudentAllocation.clean g)
             (Some (map (fun x => (x, hmatching h' x)) (StudentAllocation.projects g)))
             (StudentAllocation.blockingPairs g)), h')
    /\ SA_solved h' (StudentAllocation.students g) (StudentAllocation.projects g)
         (StudentAllocation.supervisors g)
    /\ same_originals h h'
    /\ (forall s, In s (StudentAllocation.students g) ->
          exists f, pprefs h' s = filter f (pprefs h s)).
Proof.
  intros C Hfuel.
  destruct (studentOptimal_solved h _ _ _ fuel C Hfuel) as [h' [E [Sol [Or Keep]]]].
  exists h'. split; [|split; [exact Sol|split; [exact Or|exact Keep]]].
  unfold StudentAllocation_solve. rewrite (bind_ok _ _ _ _ _ E).
  rewrite MultipleMatching_copy; [reflexivity|].
  rewrite map_map. simpl. rewrite map_id.
  destruct (SA_consistent_inv _ _ _ _ C) as [[_ [ND _]] _]. exact ND.
Qed.

(** *** The checks on a solved Student-Allocation state *)

Lemma Capacitated_acceptable (h : heap) (x : value) :
  hclass h x <> None -> incl (hmatching h x) (hprefs h x) ->
  Hospital_checkIfMatchIsUnacceptable x h = (Ok [], h).
Proof.
  intros Hx Inc. unfold Hospital_checkIfMatchIsUnacceptable.
  destruct (getHospital_class "matching" h x Hx) as [o [E [_ [Em _]]]].
  rewrite (bind_ok _ _ _ _ _ E). rewrite <- Em.
  apply issues_of_none. intros m Hm.
  destruct (getHospital_class "prefs" h x Hx) as [o' [E' [Ep' _]]].
  rewrite (bind_ok _ _ _ _ _ E'). rewrite <- Ep'.
  assert (I : includes (hprefs h x) m = true) by (apply includes_In; now apply Inc).
  rewrite I. reflexivity.
Qed.

Lemma Capacitated_not_oversubscribed (h : heap) (x : value) :
  hclass h x <> None ->
  (Z.of_nat (List.length (hmatching h x)) <= hcapacity h x)%Z ->
  Hospital_checkIfOversubscribed x h = (Ok None, h).
Proof.
  intros Hx L. unfold Hospital_checkIfOversubscribed.
  destruct (getHospital_class "matching" h x Hx) as [o [E [_ [Em [Ec _]]]]].
  rewrite (bind_ok _ _ _ _ _ E). rewrite <- Em, <- Ec.
  assert (T : (hcapacity h x <? Z.of_nat (List.length (hmatching h x)))%Z = false)
    by (apply Z.ltb_ge; exact L).
  rewrite T. reflexivity.
Qed.

(** [checkValidity] accepts a solved state. *)
Lemma SA_solved_valid (g : StudentAllocation.t) (h : heap) :
  SA_solved h (StudentAllocation.students g) (StudentAllocation.projects g)
    (StudentAllocation.supervisors g) ->
  StudentAllocation_checkValidity g h = (Ok true, h).
Proof.
  intros [S1 [S2 [S3 [S4 [S5 [S6 [S7 S8]]]]]]]. unfold StudentAllocation_checkValidity.
  assert (E1 : SA_checkForUnacceptableMatches g students_party h = (Ok [], h)).
  { unfold SA_checkForUnacceptableMatches. apply issues_of_none. intros r Hr. simpl in Hr.
    destruct (player_view h r (S1 r Hr)) as [p [E _]].
    rewrite (bind_ok _ _ _ _ _ (load_at _ _ _ _ E)).
    assert (A : Player_checkIfMatchIsUnacceptable r true h = (Ok None, h)).
    { destruct (S8 r Hr) as [[N _]|[Hm [rest Ep]]].
      - apply Player_unmatched_ok; [now apply S1|exact N].
      - apply Player_acceptable; [now apply S1| |rewrite Ep; now left].
        intros N. rewrite N in Hm. specialize (S2 null Hm). discriminate. }
    rewrite (bind_ok _ _ _ _ _ A). reflexivity. }
  assert (E2 : SA_checkForUnacceptableMatches g projects_party h = (Ok [], h)).
  { unfold SA_checkForUnacceptableMatches. apply issues_of_none. intros x Hx. simpl in Hx.
    pose proof (S2 x Hx) as Px.
    destruct (is_project_obj h x Px) as [a [o [-> [E K]]]].
    rewrite (bind_ok _ _ _ _ _ (load_at _ (ref a) _ _ E)). rewrite K.
    apply Capacitated_acceptable; [now apply is_project_class|].
    now destruct (S6 _ Hx) as [_ [A _]]. }
  assert (E3 : SA_checkForUnacceptableMatches g supervisors_party h = (Ok [], h)).
  { unfold SA_checkForUnacceptableMatches. apply issues_of_none. intros x Hx. simpl in Hx.
    pose proof (S3 x Hx) as Px.
    destruct (is_supervisor_obj h x Px) as [a [o [-> [E K]]]].
    rewrite (bind_ok _ _ _ _ _ (load_at _ (ref a) _ _ E)). rewrite K.
    apply Capacitated_acceptable; [now apply is_supervisor_class|].
    now destruct (S7 _ Hx) as [A _]. }
  assert (O1 : checkForOversubscribedPlayersGeneric g projects_party h = (Ok [], h)).
  { unfold checkForOversubscribedPlayersGeneric, checkForOversubscribedPlayers.
    apply issues_of_none. intros x Hx.
    rewrite (bind_ok _ _ _ _ _ (Capacitated_not_oversubscribed h x
                                   (is_project_class h x (S2 x Hx))
                                   (proj1 (proj2 (proj2 (S6 x Hx)))))).
    reflexivity. }
  assert (O2 : checkForOversubscribedPlayersGeneric g supervisors_party h = (Ok [], h)).
  { unfold checkForOversubscribedPlayersGeneric, checkForOversubscribedPlayers.
    apply issues_of_none. intros x Hx.
    rewrite (bind_ok _ _ _ _ _ (Capacitated_not_oversubscribed h x
                                   (is_supervisor_class h x (S3 x Hx))
                                   (proj1 (proj2 (S7 x Hx))))).
    reflexivity. }
  rewrite (bind_ok _ _ _ _ _ E1), (bind_ok _ _ _ _ _ E2), (bind_ok _ _ _ _ _ E3).
  rewrite (bind_ok _ _ _ _ _ O1), (bind_ok _ _ _ _ _ O2).
  reflexivity.
Qed.

(** In a solved state whose lists are the original rankings with
    entries deleted, no student and project form a blocking pair: a
    student with a project left on its list holds the first of them. *)
Lemma SA_solved_no_blocking (h : heap) (Sts Ps Us : list value) (s p : value) :
  SA_solved h Sts Ps Us ->
  (forall r, In r Sts ->
     exists o, porig h r = Some o
       /\ forall a b, In a (pprefs h r) -> In b (pprefs h r) ->
            (indexOf (pprefs h r) a <= indexOf (pprefs h r) b)%Z ->
            (indexOf o a <= indexOf o b)%Z) ->
  In s Sts -> In p Ps ->
  SA_blocks s p h = (Ok false, h).
Proof.
  intros [S1 [S2 [_ [_ [_ [_ [_ S8]]]]]]] Ord Hs Hp.
  unfold SA_blocks, andM at 1.
  rewrite (bind_ok _ _ _ _ _ (prefs_include_player "prefs" h s p (S1 s Hs))).
  destruct (includes (pprefs h s) p) eqn:I; [|reflexivity].
  apply includes_In in I.
  destruct (S8 s Hs) as [[_ E]|[Hm [rest Ep]]]; [rewrite E in I; destruct I|].
  assert (Hn : pmatching h s <> null).
  { intros N. rewrite N in Hm. specialize (S2 null Hm). discriminate. }
  destruct (player_view h s (S1 s Hs)) as [ps [E [Pp Pm]]].
  destruct (Ord s Hs) as [o [Eo Emb]].
  assert (L : (indexOf o (pmatching h s) <= indexOf o p)%Z).
  { apply Emb; [rewrite Ep; now left|exact I|].
    rewrite Ep at 1. rewrite indexOf_cons, value_eqb_refl.
    now apply indexOf_nonneg. }
  assert (Eun : checkStudentUnhappy s p h = (Ok false, h)).
  { unfold checkStudentUnhappy.
    rewrite (bind_ok _ _ _ _ _ (getPlayer_at _ _ _ _ E)). rewrite <- Pm.
    destruct (value_eqb_spec (pmatching h s) null) as [N|_]; [contradiction|].
    rewrite (prefers_player_value h s p (pmatching h s) o (S1 s Hs) Eo).
    apply Z.ltb_ge in L. now rewrite L. }
  unfold andM. rewrite (bind_ok _ _ _ _ _ Eun). reflexivity.
Qed.

(** [checkValidity] and [checkStability] after [solve('student')]. *)
Lemma SA_student_solve_stable (g : StudentAllocation.t) (h : heap) (fuel : nat) :
  SA_consistent h (StudentAllocation.students g) (StudentAllocation.projects g)
    (StudentAllocation.supervisors g) = true ->
  HR_rankings_kept h (StudentAllocation.students g) = true ->
  List.length (StudentAllocation.students g)
    + List.length (StudentAllocation.students g) * List.length (StudentAllocation.projects g)
    <= fuel ->
  exists g' h',
    StudentAllocation_solve fuel g student_optimal h = (Ok g', h')
    /\ StudentAllocation_checkValidity g' h' = (Ok true, h')
    /\ StudentAllocation_checkStability g' h'
       = (Ok (true, StudentAllocation.mk (StudentAllocation.students g')
                      (StudentAllocation.projects g') (StudentAllocation.supervisors g')
                      (StudentAllocation.clean g') (StudentAllocation.matching g')
                      (Some [])), h').
Proof.
  intros C K Hfuel.
  destruct (StudentAllocation_solve_solved g h fuel C Hfuel) as [h' [E [Sol [Orig Keep]]]].
  eexists. exists h'. split; [exact E|]. split; [now apply SA_solved_valid|].
  unfold StudentAllocation_checkStability. simpl.
  assert (Ord : forall r, In r (StudentAllocation.students g) ->
            exists o, porig h' r = Some o
              /\ forall a b, In a (pprefs h' r) -> In b (pprefs h' r) ->
                   (indexOf (pprefs h' r) a <= indexOf (pprefs h' r) b)%Z ->
                   (indexOf o a <= indexOf o b)%Z).
  { intros r Hr. destruct (Keep r Hr) as [f Ef].
    pose proof (forallb_In _ _ r K Hr) as Kr. simpl in Kr.
    destruct (porig h r) as [o|] eqn:Eor; [|discriminate].
    exists o. split; [|exact (kept_order o _ _ f Kr Ef)].
    destruct (SA_consistent_inv _ _ _ _ C) as [_ [[[Core _] _] _]].
    destruct (sa_students _ _ _ _ _ _ _ Core r Hr) as [Pl _].
    destruct Sol as [S1 _]. specialize (S1 r Hr).
    destruct (player_view h r Pl) as [p [Ep _]].
    destruct (player_view h' r S1) as [p' [Ep' _]].
    destruct (Orig r) as [Eo _]. unfold originalPrefs_at in Eo. rewrite Ep, Ep' in Eo.
    unfold porig in *. rewrite Ep in Eor. rewrite Ep'. congruence. }
  rewrite (bind_ok _ _ _ _ _
             (blocking_outer_none SA_blocks _ _ h'
                (fun r x Hr Hx => SA_solved_no_blocking h' _ _ _ r x Sol Ord Hr Hx) [])).
  reflexivity.
Qed.

(** *** Student-Allocation: the student-optimal [solve] and the checks *)

(** X22. Student-Allocation: on a consistent game (see [SA_consistent]),
    [solve('student')] with fuel for [n + n * k] iterations of the loop,
    [n] students and [k] projects, returns.  The game it returns has the
    same parties and a matching that lists the projects of the game in
    order, each with the students it holds.  A student holds a project
    exactly when the project holds the student, and a supervisor holds
    the students its projects hold; projects and supervisors hold
    students they still rank, each once, and no more than they have
    places for; a student is unmatched with no project left on its list,
    or holds the first project left on its list. *)
Theorem StudentAllocation_solve_student_optimal
    (g : StudentAllocation.t) (h : heap) (fuel : nat) :
  SA_consistent h (StudentAllocation.students g) (StudentAllocation.projects g)
    (StudentAllocation.supervisors g) = true ->
  List.length (StudentAllocation.students g)
    + List.length (StudentAllocation.students g) * List.length (StudentAllocation.projects g)
    <= fuel ->
  exists g' h' m,
    StudentAllocation_solve fuel g student_optimal h = (Ok g', h')
    /\ StudentAllocation.matching g' = Some m
    /\ StudentAllocation.students g' = StudentAllocation.students g
    /\ StudentAllocation.projects g' = StudentAllocation.projects g
    /\ StudentAllocation.supervisors g' = StudentAllocation.supervisors g
    /\ map fst m = StudentAllocation.projects g
    /\ (forall x, In x (StudentAllocation.projects g) ->
          map_get x m = Some (hmatching h' x))
    /\ SA_solved h' (StudentAllocation.students g) (StudentAllocation.projects g)
         (StudentAllocation.supervisors g).
Proof.
  intros C Hfuel.
  destruct (StudentAllocation_solve_solved g h fuel C Hfuel) as [h' [E [Sol _]]].
  eexists. exists h'. eexists. split; [exact E|]. simpl.
  split; [reflexivity|]. split; [reflexivity|]. split; [reflexivity|].
  split; [reflexivity|]. split; [|split; [|exact Sol]].
  - rewrite map_map. simpl. apply map_id.
  - intros x Hx. rewrite map_get_entries.
    apply includes_In in Hx. now rewrite Hx.
Qed.

Lemma StudentAllocation_solve_student_optimal_witness :
  SA_consistent sa_example_heap (StudentAllocation.students sa_example_game)
    (StudentAllocation.projects sa_example_game)
    (StudentAllocation.supervisors sa_example_game) = true
  /\ exists g' h' m,
       StudentAllocation_solve 9 sa_example_game student_optimal sa_example_heap
       = (Ok g', h')
       /\ StudentAllocation.matching g' = Some m
       /\ StudentAllocation.students g' = StudentAllocation.students sa_example_game
       /\ StudentAllocation.projects g' = StudentAllocation.projects sa_example_game
       /\ StudentAllocation.supervisors g' = StudentAllocation.supervisors sa_example_game
       /\ map fst m = StudentAllocation.projects sa_example_game
       /\ (forall x, In x (StudentAllocation.projects sa_example_game) ->
             map_get x m = Some (hmatching h' x))
       /\ SA_solved h' (StudentAllocation.students sa_example_game)
            (StudentAllocation.projects sa_example_game)
            (StudentAllocation.supervisors sa_example_game).
Proof.
  split; [vm_compute; reflexivity|].
  apply (StudentAllocation_solve_student_optimal sa_example_game sa_example_heap 9).
  - vm_compute. reflexivity.
  - vm_compute. lia.
Defined.

(** X23. Student-Allocation: the game [solve('student')] leaves (same
    hypotheses as for X22) passes [checkValidity]: it returns [true]
    instead of throwing a [MatchingError], and changes nothing. *)
Theorem StudentAllocation_student_optimal_is_valid
    (g : StudentAllocation.t) (h : heap) (fuel : nat) :
  SA_consistent h (StudentAllocation.students g) (StudentAllocation.projects g)
    (StudentAllocation.supervisors g) = true ->
  List.length (StudentAllocation.students g)
    + List.length (StudentAllocation.students g) * List.length (StudentAllocation.projects g)
    <= fuel ->
  exists g' h',
    StudentAllocation_solve fuel g student_optimal h = (Ok g', h')
    /\ StudentAllocation_checkValidity g' h' = (Ok true, h').
Proof.
  intros C Hfuel.
  destruct (StudentAllocation_solve_solved g h fuel C Hfuel) as [h' [E [Sol _]]].
  eexists. exists h'. split; [exact E|]. now apply SA_solved_valid.
Qed.

Lemma StudentAllocation_student_optimal_is_valid_witness :
  SA_consistent sa_example_heap (StudentAllocation.students sa_example_game)
    (StudentAllocation.projects sa_example_game)
    (StudentAllocation.supervisors sa_example_game) = true
  /\ exists g' h',
       StudentAllocation_solve 9 sa_example_game student_optimal sa_example_heap
       = (Ok g', h')
       /\ StudentAllocation_checkValidity g' h' = (Ok true, h').
Proof.
  split; [vm_compute; reflexivity|].
  apply (StudentAllocation_student_optimal_is_valid sa_example_game sa_example_heap 9).
  - vm_compute. reflexivity.
  - vm_compute. lia.
Defined.

(** X24. Student-Allocation: after [solve('student')] on a consistent
    game in which the lists of the students are their original rankings
    with entries deleted, [checkStability] returns [true] and records an
    empty list of blocking pairs. *)
Theorem StudentAllocation_student_optimal_is_stable
    (g : StudentAllocation.t) (h : heap) (fuel : nat) :
  SA_consistent h (StudentAllocation.students g) (StudentAllocation.projects g)
    (StudentAllocation.supervisors g) = true ->
  HR_rankings_kept h (StudentAllocation.students g) = true ->
  List.length (StudentAllocation.students g)
    + List.length (StudentAllocation.students g) * List.length (StudentAllocation.projects g)
    <= fuel ->
  exists g' h',
    StudentAllocation_solve fuel g student_optimal h = (Ok g', h')
    /\ StudentAllocation_checkStability g' h'
       = (Ok (true, StudentAllocation.mk (StudentAllocation.students g')
                      (StudentAllocation.projects g') (StudentAllocation.supervisors g')
                      (StudentAllocation.clean g') (StudentAllocation.matching g')
                      (Some [])), h').
Proof.
  intros C K Hfuel.
  destruct (SA_student_solve_stable g h fuel C K Hfuel) as [g' [h' [E [_ St]]]].
  exists g', h'. now split.
Qed.

Lemma StudentAllocation_student_optimal_is_stable_witness :
  SA_consistent sa_example_heap (StudentAllocation.students sa_example_game)
    (StudentAllocation.projects sa_example_game)
    (StudentAllocation.supervisors sa_example_game) = true
  /\ HR_rankings_kept sa_example_heap (StudentAllocation.students sa_example_game) = true
  /\ exists g' h',
       StudentAllocation_solve 9 sa_example_game student_optimal sa_example_heap
       = (Ok g', h')
       /\ StudentAllocation_checkStability g' h'
          = (Ok (true, StudentAllocation.mk (StudentAllocation.students g')
                         (StudentAllocation.projects g') (StudentAllocation.supervisors g')
                         (StudentAllocation.clean g') (StudentAllocation.matching g')
                         (Some [])), h').
Proof.
  split; [vm_compute; reflexivity|]. split; [vm_compute; reflexivity|].
  apply (StudentAllocation_student_optimal_is_stable sa_example_game sa_example_heap 9).
  - vm_compute. reflexivity.
  - vm_compute. reflexivity.
  - vm_compute. lia.
Defined.

(** *** Student-Allocation: a project without places *)

(** An iteration of the loop of [studentOptimal] for a student whose
    first project has no place and holds nobody: the student is matched,
    let go again and put back on the work list, and nothing is deleted. *)
Lemma studentOptimal_step_no_places (h : heap) (free0 rest : list value) (s p : value) :
  is_player h s = true -> pmatching h s = null -> pprefs h s = p :: rest ->
  is_project h p = true -> hmatching h p = [] -> (hcapacity h p <= 0)%Z ->
  is_supervisor h (hsupervisor h p) = true -> hmatching h (hsupervisor h p) = [] ->
  exists h',
    studentOptimal_step s free0 h = (Ok (free0 ++ [s]), h')
    /\ is_player h' s = true /\ pmatching h' s = null /\ pprefs h' s = p :: rest
    /\ is_project h' p = true /\ hmatching h' p = [] /\ (hcapacity h' p <= 0)%Z
    /\ is_supervisor h' (hsupervisor h' p) = true /\ hmatching h' (hsupervisor h' p) = [].
Proof.
  intros Pl Null EP Pp Mp Cap Pu Mu.
  set (u := hsupervisor h p) in *.
  destruct (player_view h s Pl) as [ps [Eps [Pps _]]].
  unfold studentOptimal_step.
  rewrite (bind_ok _ _ _ _ _ (getPlayer_at "prefs" s h ps Eps)).
  unfold Player.getFavourite. rewrite <- Pps, EP.
  change (Nat.eqb (List.length (p :: rest)) 0) with false. cbv iota.
  change (at_index (p :: rest) 0) with p.
  destruct (getHospital_class "supervisor" h p (is_project_class h p Pp))
    as [x [Ex [_ [_ [_ [Exs _]]]]]].
  rewrite (bind_ok _ _ _ _ _ Ex), <- Exs. fold u.
  (* the match *)
  destruct (SA_matchPair_total s p u h Pl Pp eq_refl Pu)
    as [h1 [E1 [F1 [Vm1 [Vh1 [Vp1 [Vq1 _]]]]]]].
  rewrite (bind_ok _ _ _ _ _ E1).
  pose proof F1 as [FrP1 [_ [FrCap1 [FrS1 _]]]].
  assert (Pl1 : is_player h1 s = true) by now rewrite FrP1.
  assert (Pp1 : is_project h1 p = true) by now rewrite (SA_frame_project h h1 p F1).
  assert (Pu1 : is_supervisor h1 u = true) by now rewrite (SA_frame_supervisor h h1 u F1).
  assert (Mp1 : hmatching h1 p = [s]).
  { rewrite Vh1, value_eqb_refl, Mp. reflexivity. }
  assert (Mu1 : hmatching h1 u = [s]).
  { rewrite Vh1, value_eqb_refl, orb_true_r, Mu. reflexivity. }
  destruct (getHospital_class "matching" h1 p (is_project_class h1 p Pp1))
    as [x1 [Ex1 [_ [Em1 [Ec1 _]]]]].
  rewrite (bind_ok _ _ _ _ _ Ex1), <- Em1, <- Ec1, Mp1, FrCap1.
  assert (Over : (hcapacity h p <? Z.of_nat (List.length [s]))%Z = true)
    by (apply Z.ltb_lt; simpl; lia).
  rewrite Over. unfold Hospital.getWorstMatch. rewrite <- Em1, Mp1. cbv zeta.
  change (last [s] undefined) with s.
  (* the eviction *)
  destruct (SA_unmatchPair_total s p u h1 Pl1 Pp1 (eq_trans (FrS1 p) eq_refl) Pu1)
    as [h2 [E2 [F2 [Vm2 [Vh2 [Vp2 [Vq2 _]]]]]]].
  assert (Ev : (SA_unmatchPair s p ;; ret (free0 ++ [s]))%M h1 = (Ok (free0 ++ [s]), h2))
    by (rewrite (bind_ok _ _ _ _ _ E2); reflexivity).
  rewrite (bind_ok _ _ _ _ _ Ev).
  pose proof F2 as [FrP2 [_ [FrCap2 [FrS2 _]]]].
  assert (Pl2 : is_player h2 s = true) by now rewrite FrP2.
  assert (Pp2 : is_project h2 p = true) by now rewrite (SA_frame_project h1 h2 p F2).
  assert (Pu2 : is_supervisor h2 u = true) by now rewrite (SA_frame_supervisor h1 h2 u F2).
  assert (Mp2 : hmatching h2 p = []).
  { rewrite Vh2, value_eqb_refl, Mp1. unfold remove_value. simpl.
    now rewrite value_eqb_refl. }
  assert (Mu2 : hmatching h2 u = []).
  { rewrite Vh2, value_eqb_refl, orb_true_r, Mu1. unfold remove_value. simpl.
    now rewrite value_eqb_refl. }
  assert (Eu2 : hsupervisor h2 p = u) by now rewrite FrS2, FrS1.
  (* no successors, of the project or of the supervisor *)
  assert (NoSucc : forall o, Hospital.matching o = [] -> Hospital.getSuccessors o = []).
  { intros o Eo. unfold Hospital.getSuccessors, Hospital.getWorstMatch. now rewrite Eo. }
  destruct (getHospital_class "matching" h2 p (is_project_class h2 p Pp2))
    as [x2 [Ex2 [_ [Em2 _]]]].
  rewrite (bind_ok _ _ _ _ _ Ex2).
  rewrite (NoSucc x2) by now rewrite <- Em2.
  assert (B : forall b : bool,
            (if b then studentOptimal_delete p [] (free0 ++ [s]) else ret (free0 ++ [s])) h2
            = (Ok (free0 ++ [s]), h2)) by (intros []; reflexivity).
  rewrite (bind_ok _ _ _ _ _ (B _)).
  destruct (getHospital_class "matching" h2 u (is_supervisor_class h2 u Pu2))
    as [x3 [Ex3 [_ [Em3 _]]]].
  rewrite (bind_ok _ _ _ _ _ Ex3).
  rewrite (NoSucc x3) by now rewrite <- Em3.
  exists h2. split; [now destruct (_ =? _)%Z|].
  split; [exact Pl2|]. split; [now rewrite Vm2, value_eqb_refl|].
  split; [now rewrite Vp2, Vp1|]. split; [exact Pp2|]. split; [exact Mp2|].
  split; [now rewrite FrCap2, FrCap1|]. rewrite Eu2. split; [exact Pu2|exact Mu2].
Qed.

(** The loop never gets past such a student. *)
Lemma studentOptimal_loop_no_places (free0 rest : list value) (s p : value) (fuel : nat) :
  forall h,
    is_player h s = true -> pmatching h s = null -> pprefs h s = p :: rest ->
    is_project h p = true -> hmatching h p = [] -> (hcapacity h p <= 0)%Z ->
    is_supervisor h (hsupervisor h p) = true -> hmatching h (hsupervisor h p) = [] ->
    fst (studentOptimal_loop fuel (free0 ++ [s]) h) = OutOfFuel.
Proof.
  induction fuel as [|fuel IH]; intros h Pl Null EP Pp Mp Cap Pu Mu.
  - simpl. destruct (free0 ++ [s]) eqn:E; [|reflexivity].
    destruct free0; discriminate.
  - simpl. rewrite pop_app.
    destruct (studentOptimal_step_no_places h free0 rest s p Pl Null EP Pp Mp Cap Pu Mu)
      as [h' [E [A1 [A2 [A3 [A4 [A5 [A6 [A7 A8]]]]]]]]].
    rewrite (bind_ok _ _ _ _ _ E). now apply IH.
Qed.

(** X26. Student-Allocation: a project without places makes
    [solve('student')] run forever.  If the last student of the game
    (the first that the loop takes from its work list) is unmatched and
    ranks first a project with a capacity of zero or less, and the
    project and its supervisor hold nobody, then [solve('student')] does
    not return, whatever the number of iterations allowed: each
    iteration matches the student, lets it go again and puts it back on
    the work list. *)
Theorem StudentAllocation_no_places_never_returns
    (g : StudentAllocation.t) (h : heap) (fuel : nat)
    (front rest : list value) (s p : value) :
  StudentAllocation.students g = front ++ [s] ->
  is_player h s = true -> pmatching h s = null -> pprefs h s = p :: rest ->
  is_project h p = true -> hmatching h p = [] -> (hcapacity h p <= 0)%Z ->
  is_supervisor h (hsupervisor h p) = true -> hmatching h (hsupervisor h p) = [] ->
  fst (StudentAllocation_solve fuel g student_optimal h) = OutOfFuel.
Proof.
  intros Eg Pl Null EP Pp Mp Cap Pu Mu.
  pose proof (studentOptimal_loop_no_places front rest s p fuel h Pl Null EP Pp Mp Cap Pu Mu)
    as L.
  unfold StudentAllocation_solve, studentAllocation, studentOptimal. rewrite Eg.
  destruct (studentOptimal_loop fuel (front ++ [s]) h) as [[u|e|] h'] eqn:E;
    try discriminate.
  rewrite (bind_timeout _ _ _ _ (bind_timeout _ _ _ _ E)). reflexivity.
Qed.

Lemma StudentAllocation_no_places_never_returns_witness :
  fst sa_no_places = Ok (sa_no_places_game, [])
  /\ StudentAllocation.students sa_no_places_game = [] ++ [ref 3]
  /\ is_player sa_no_places_heap (ref 3) = true
  /\ pmatching sa_no_places_heap (ref 3) = null
  /\ pprefs sa_no_places_heap (ref 3) = ref 4 :: []
  /\ is_project sa_no_places_heap (ref 4) = true
  /\ hmatching sa_no_places_heap (ref 4) = []
  /\ (hcapacity sa_no_places_heap (ref 4%nat) <= 0)%Z
  /\ is_supervisor sa_no_places_heap (hsupervisor sa_no_places_heap (ref 4)) = true
  /\ hmatching sa_no_places_heap (hsupervisor sa_no_places_heap (ref 4)) = []
  /\ fst (StudentAllocation_solve 1000 sa_no_places_game student_optimal sa_no_places_heap)
     = OutOfFuel.
Proof.
  split; [vm_compute; reflexivity|].
  repeat (split; [vm_compute; first [reflexivity | discriminate]|]).
  apply (StudentAllocation_no_places_never_returns sa_no_places_game sa_no_places_heap 1000
           [] [] (ref 3) (ref 4)); vm_compute; first [reflexivity | discriminate].
Defined.
